(* ===== verification/_CoqProject ===== *)
-Q . S2P
Prelude.v
Pb.v
Quorum.v
Inflights.v
Progress.v
Tracker.v
Confchange.v
Peers.v
Util.v
Storage.v
Unstable.v
RaftLog.v
ReadOnly.v
Raft.v
RawNode.v
Node.v
App.v
Timer.v
Describe.v
Logger.v
RaftFrame.v
RaftSafety.v
RaftElection.v
RaftBallot.v
RaftRoles.v
RaftInvariant.v
RaftTotal.v
RaftAppend.v
RaftLeads.v
RaftActs.v
RaftLiveness.v
Runs.v
LogRuns.v
Cluster.v
LogLinks.v
LogMatching.v
Levels.v
Agreement.v
History.v
CallSafety.v
StateMachine.v
AppNode.v
AppRuns.v
Transport.v
GoStrings.v
Harness.v
Scenarios.v
