(* ===== verification/Prelude.v ===== *)
(** * A verified model of raft-testing

    The repository is a fork of the etcd raft library (src/raft/protocol) with an
    example application around it (src/raft: a key-value node, a timer, a
    transport and an HTTP interface) that a test harness drives.  The development
    translates the library and the application to Rocq functions, one Definition
    per Go function or method, and proves what they promise.

    ** How Go is read

    - A [uint64] is an [N] whose additions and subtractions wrap ([+u], [-u]); an
      [int] is a [Z] wrapped by [i64].  A slice is a list; indexing and slicing
      out of range are [Panic].
    - A function that can panic returns an [outcome]; a Go pair (value, error) is
      a [result] inside it.  A method of a struct it mutates is a computation of
      the state monad [M], which is a state-passing function into [outcome].
    - A map that the code compares with nil is an [option].  The iteration order of
      a map is a parameter of every definition that depends on it.
    - What is not in the repository is a class: the generated wire types
      ([Pb.RaftPB]), the encodings of the standard library ([App.Codec]), the wire
      format ([Transport.WireFormat]) and the netrix library ([Harness.VarSet],
      [Harness.NetrixConditions]), each with its laws apart.
    - [wp] is the weakest precondition of a computation, and [moves R] says that a
      computation moves the state along the preorder [R]; the tactic [walk] proves
      such goals from the hints of the database [moves].

    ** The parts, from the bottom up

    - Pb: the wire types.
    - Quorum (quorum/): majority and joint quorums.  [CommittedIndex] and
      [VoteResult] are compared with the counting definitions; any two winning
      sets of votes share a voter, and so do a won vote and a committed index.
    - Inflights, Progress, Tracker (tracker/): the ring buffer of in-flight
      appends, refined to a FIFO queue; the progress of a follower with its
      invariant; configuration, votes and activity.
    - Confchange, Peers (confchange/): the changer and [Restore].  What [Simple],
      [EnterJoint] and [LeaveJoint] make of a configuration on every branch, that
      successive configurations always have overlapping quorums, that [Restore] is
      inverse to [ConfState], and which facts on the progress of every node all of
      them keep.
    - Util, Storage, Unstable, RaftLog (util.go, storage.go, log_unstable.go,
      log.go): the stable storage, the unstable log and their union.  [Log] is the
      abstract log; [StorageLaws] is the interface between the storage and the log;
      [rl_valid] is the invariant, and each operation is refined to the abstract
      log: reading a range, appending, truncating, committing, handing out the
      entries to apply, and persisting.
    - ReadOnly (read_only.go): the queue of read-index requests.
    - Raft (raft.go): the state machine, one Definition per method.
    - RawNode (rawnode.go, bootstrap.go, status.go): [Ready] and [Advance].
    - Node (protocol/node.go): the goroutine.  [run_step] is one iteration of its
      select loop, [runs] its executions, and [uses] the contract of a [RawNode],
      which the loop is proved to keep.
    - App, AppNode, AppRuns (raft/state.go, kv.go, node.go): the application.  A
      method returns, blocks forever, ends the process or panics.  [place] is where the
      goroutine of [raftloop] is, and a send on [doneChan] is served only while it
      waits at its [select]; [app_step] is any sequence of the cases of the loop and
      the calls of other goroutines, each run to its end or to where it blocks.
      [Restart] forgets the vote of its term, and a node that applies its own
      removal blocks for good.
    - Timer (raft/timer.go): the two election timers.
    - Transport (raft/transport.go, httpapi.go): delivery and the HTTP handler.
    - Describe, Logger (the String and Describe functions of all parts, logger.go):
      the renderings.  What is printed of a Go map does not depend on the order of
      its iteration; a picture of the acknowledged indexes is specified line by line.
    - GoStrings, Harness, Scenarios (src/tests, src/cmd/strategies.go): the
      conditions, actions and scenarios of the test harness: what [CountVotes]
      counts and which leaders [IsCorrectLeader] then accepts; two theorems show
      that a property can never fail and that some scenarios never start.

    ** The theorems about the whole state machine

    - RaftFrame has the interface: a preorder that tolerates what most methods do
      ([VoteFrame], [Frame]) is respected by all of them.  The later files
      instantiate it.
    - RaftSafety: for one call of [Step], the term and the committed index never
      decrease and the vote of a term never changes.  This holds of messages that
      are [sane], as all those are that a node sends; a message without a term is
      taken for a local one, and [insane_heartbeat] shows what one can do.
    - RaftElection: the decision on a vote request, that a leader needs a quorum,
      what [becomeLeader] does and the range of the randomised timeout.
    - RaftInvariant: [Step] keeps the log well formed, never changes a committed
      entry, and adds no more to the log than [reach] and [growth] of the message.
    - RaftTotal: [raft_ok] is the invariant that makes a node safe to run, and
      [acceptable] what it relies on in a message; a node that has the one and is
      given the other returns from [Step] and [tick] without panicking and has it
      again, in every role.
    - RaftLiveness: a node that hears nothing campaigns when its election timeout is
      reached.
    - RaftRoles, RaftAppend: a node becomes a candidate only by raising its term,
      and a leader only of a term in which it was a candidate; a leader only appends
      to its log, entries of its own term ([evolved] says what a call of any role does
      to the log); the theorem, with what a leader sends, is in RaftActs.
    - RaftBallot, Runs, Cluster: from one call to the life of a node and to a
      cluster.  [world_step] is a node that follows the contract of [Ready] with
      crashes and restarts from its storage, and one vote per term holds for
      everything it ever sends; [cluster_steps] is a cluster of such nodes with a
      fixed set of voters over a network that may lose, repeat, reorder and invent
      [sane] messages other than votes, and election safety holds in it.
    - LogRuns, LogLinks, LogMatching: the log over the same life of a node
      ([stored]: what is saved is a log, writing it succeeds and leaves the log of
      the node as it is, marking entries stable too) and in the same cluster.  If
      appends are not invented either, two logs, saved logs and appends that have
      the same term at an index agree below.  The proof follows the links that a
      log is made of: [match_event] shows what an event may do with the links a node
      holds, and the lemmas [call_carried] to [restart_carried] that each event
      does no more.  Snapshots are not sent, logs not compacted and configurations not
      changed in these runs, and indexes stay below 2^63.

    - RaftLeads, RaftActs, Levels, Agreement, History, CallSafety, StateMachine: the
      safety of the replicated state machine, in the same cluster and if the other
      messages that carry a claim are not invented either ([genuine]).  Whatever
      one node has committed at some time, no node commits anything else there,
      then or later, and a leader has every entry that was committed in its term
      or before.  RaftLeads and RaftActs say what one call claims ([acts]): when a
      leader commits, what a follower commits and acknowledges, what a voter has
      looked at.  A [level] is what one stage of a node (in memory, in a [Ready],
      saved) would survive with; Agreement defines which entries are chosen and
      which can still be; History states the invariant ([core]) and proves that the
      winner of an election has all of the latter, CallSafety that a call keeps it,
      StateMachine that every event of a run does ([safe_step]).  The runs start
      from one common log of which a part is committed, and have at least two
      voters, so that a leader never commits alone.

    ** Fuel and bounds

    The loops over lists and maps are structural.  [findConflictByTerm] and the
    growth of the ring buffer are recursions whose fuel is computed from their
    arguments ([N.to_nat (index + 1)] and the size of the window); the theorems
    state that the fuel is enough.  The leader's loop that sends the pending
    appends runs on [send_fuel], computed from the entries left to send; it is proved
    to be enough, and more does not change the result.  Theorems about indexes and terms
    carry an explicit bound that keeps the sums away from the end of the range
    where the arithmetic would wrap.

    ** Not modelled

    - The calls that log; the log reads that are evaluated for a log line are kept
      where they can panic.  doc.go is documentation.
    - The events published for the test harness, process start-up and signals
      (main.go, test_server.go) and the commands of src/cmd, which pass constants to
      third-party libraries.  Of the netrix library the scenarios only record which
      calls are made.
    - The capacity of slices, and the mutexes: every method that takes one holds it
      for its whole body, except the timers, whose critical sections are separate
      steps. *)

From stdpp Require Export base gmap strings list numbers sorting.
From Stdlib Require Export ZArith NArith Lia.

#[global] Set Default Goal Selector "!".
#[global] Generalizable All Variables.

(** ** Machine integers *)

(** [uint64] is [N] with the wrap-around written out. *)
Definition two64 : N := 18446744073709551616.
Definition maxUint64 : N := 18446744073709551615.
Definition add64 (a b : N) : N := ((a + b) mod two64)%N.
Definition sub64 (a b : N) : N := ((a + (two64 - b mod two64)) mod two64)%N.

(** Go's [int] on a 64-bit platform: [Z] with two's complement wrap-around. *)
Definition two63z : Z := 9223372036854775808.
Definition i64 (x : Z) : Z := ((x + two63z) mod (2 * two63z) - two63z)%Z.

(** The length of a slice, as an [int] and converted to [uint64]. *)
Definition lenZ {A} (l : list A) : Z := Z.of_nat (length l).
Definition lenN {A} (l : list A) : N := N.of_nat (length l).

Declare Scope go_scope.
Delimit Scope go_scope with go.
Notation "a +u b" := (add64 a b) (at level 50, left associativity) : go_scope.
Notation "a -u b" := (sub64 a b) (at level 50, left associativity) : go_scope.
Open Scope N_scope.
Open Scope go_scope.

Arguments add64 : simpl never.
Arguments sub64 : simpl never.
Arguments i64 : simpl never.
Arguments two64 : simpl never.
Arguments maxUint64 : simpl never.

Lemma add64_small a b : a + b < two64 → a +u b = a + b.
Proof. intros H. apply N.mod_small, H. Qed.

Lemma sub64_small a b : b ≤ a → a < two64 → a -u b = a - b.
Proof.
  intros Hb Ha. unfold sub64. rewrite (N.mod_small b) by lia.
  replace (a + (two64 - b)) with ((a - b) + 1 * two64) by lia.
  rewrite N.Div0.mod_add. apply N.mod_small. lia.
Qed.

Lemma add64_lt a b : a +u b < two64.
Proof. apply N.mod_lt. done. Qed.

Lemma sub64_lt a b : a -u b < two64.
Proof. apply N.mod_lt. done. Qed.

(** Subtracting below zero wraps to the top of the range. *)
Lemma sub64_wrap a b : a < b → b ≤ two64 → a -u b = a + (two64 - b).
Proof.
  intros Hab Hb. unfold sub64. destruct (decide (b = two64)) as [->|].
  - rewrite N.Div0.mod_same, N.sub_0_r, N.sub_diag, N.add_0_r.
    replace (a + two64) with (a + 1 * two64) by lia.
    rewrite N.Div0.mod_add. apply N.mod_small. lia.
  - rewrite (N.mod_small b) by lia. apply N.mod_small. lia.
Qed.

Lemma i64_small x : (- two63z ≤ x < two63z)%Z → i64 x = x.
Proof. intros H. unfold i64. unfold two63z in *. rewrite Z.mod_small by lia. lia. Qed.

Lemma lenN_nil {A} : lenN (@nil A) = 0.
Proof. done. Qed.
Lemma lenN_cons {A} (x : A) l : lenN (x :: l) = 1 + lenN l.
Proof. unfold lenN. cbn [length]. lia. Qed.
Lemma lenN_app {A} (l k : list A) : lenN (l ++ k) = lenN l + lenN k.
Proof. unfold lenN. rewrite length_app. lia. Qed.

(** Normalises [uint64] arithmetic that provably does not wrap. *)
Ltac nowrap :=
  repeat match goal with
  | |- context [add64 ?a ?b] => rewrite (add64_small a b) by (unfold two64 in *; lia)
  | |- context [sub64 ?a ?b] => rewrite (sub64_small a b) by (unfold two64 in *; lia)
  | H : context [add64 ?a ?b] |- _ => rewrite (add64_small a b) in H by (unfold two64 in *; lia)
  | H : context [sub64 ?a ?b] |- _ => rewrite (sub64_small a b) in H by (unfold two64 in *; lia)
  end.

(** Closes a decidable closed goal by evaluation. *)
Ltac vm_decide := refine (bool_decide_eq_true_1 _ _); vm_compute; reflexivity.

(** Go's [min] and [max] on [uint64] are [N.min] and [N.max]; each file of the
    program that declares its own copy translates it literally. *)

(** ** Panics *)

(** The outcome of running Go code: a result, or a panic that unwinds the
    goroutine (nothing in the modelled code recovers). *)
Inductive outcome (A : Type) : Type :=
| Ok (a : A)
| Panic.
Arguments Ok {A} a.
Arguments Panic {A}.

#[global] Instance outcome_ret : MRet outcome := λ A a, Ok a.
#[global] Instance outcome_bind : MBind outcome := λ A B f m,
  match m with Ok a => f a | Panic => Panic end.
#[global] Instance outcome_fmap : FMap outcome := λ A B f m,
  match m with Ok a => Ok (f a) | Panic => Panic end.

Lemma outcome_bind_Ok {A B} (m : outcome A) (f : A → outcome B) b :
  (m ≫= f) = Ok b ↔ ∃ a, m = Ok a ∧ f a = Ok b.
Proof.
  destruct m as [a|]; cbn; split; [eauto|by intros (x & [= <-] & ?)|done|by intros (x & ? & ?)].
Qed.

(** A slice or array access [l[i]] with an [int] or [uint64] index. *)
Definition indexZ {A} (l : list A) (i : Z) : outcome A :=
  if bool_decide (0 ≤ i)%Z then
    match l !! Z.to_nat i with Some x => Ok x | None => Panic end
  else Panic.
Definition indexN {A} (l : list A) (i : N) : outcome A :=
  match l !! N.to_nat i with Some x => Ok x | None => Panic end.

(** An assignment [l[i] = x]. *)
Definition assignZ {A} (l : list A) (i : Z) (x : A) : outcome (list A) :=
  if bool_decide (0 ≤ i < lenZ l)%Z then Ok (<[Z.to_nat i := x]> l) else Panic.

(** A slice expression [l[lo:hi]] on [uint64] bounds.  Go checks [hi] against
    the capacity; the capacity of a slice is not modelled, so the bound here is
    the length, which is what the callers rely on. *)
Definition sliceN {A} (l : list A) (lo hi : N) : outcome (list A) :=
  if bool_decide (lo ≤ hi ∧ hi ≤ lenN l)
  then Ok (take (N.to_nat hi - N.to_nat lo) (drop (N.to_nat lo) l)) else Panic.

(** ** Errors *)

(** The error values of the packages, and a case for the errors the code builds
    from a message (the message itself is not modelled). *)
Inductive error : Set :=
| ErrCompacted | ErrSnapOutOfDate | ErrUnavailable | ErrSnapshotTemporarilyUnavailable
| ErrProposalDropped | ErrStepLocalMsg | ErrStepPeerNotFound | ErrStopped
| ErrMsg (msg : string).
#[global] Instance error_eq_dec : EqDecision error.
Proof. solve_decision. Defined.

(** Go's [(T, error)] result pair. *)
Inductive result (A : Type) : Type :=
| Val (a : A)
| Err (e : error).
Arguments Val {A} a.
Arguments Err {A} e.

#[global] Instance result_ret : MRet result := λ A a, Val a.
#[global] Instance result_bind : MBind result := λ A B f m,
  match m with Val a => f a | Err e => Err e end.

(** Go code that may panic and returns an error: [if err != nil { return err }]. *)
Definition try_bind {A B} (m : outcome (result A)) (f : A → outcome (result B)) :
    outcome (result B) :=
  match m with
  | Ok (Val a) => f a
  | Ok (Err e) => Ok (Err e)
  | Panic => Panic
  end.
Notation "x ←? m ; k" := (try_bind m (λ x, k))
  (at level 20, m at level 100, k at level 200, only parsing) : go_scope.
Notation "' p ←? m ; k" := (try_bind m (λ p, k))
  (at level 20, p pattern, m at level 100, k at level 200, only parsing) : go_scope.

(** [for _, x := range l { if err := f(x); err != nil { return err } }] *)
Fixpoint try_for {A} (l : list A) (f : A → outcome (result unit)) : outcome (result unit) :=
  match l with
  | [] => Ok (Val tt)
  | x :: l' => _ ←? f x; try_for l' f
  end.

Lemma try_for_Val {A} (l : list A) f :
  try_for l f = Ok (Val tt) ↔ ∀ x, x ∈ l → f x = Ok (Val tt).
Proof.
  induction l as [|x l IH]; cbn.
  { split; [by intros _ y ?%elem_of_nil|done]. }
  split.
  - unfold try_bind. destruct (f x) as [[[]|]|] eqn:E; try done.
    intros H y [->|Hy]%elem_of_cons; [done|]. by apply IH.
  - intros H. rewrite H by left. cbn. apply IH. intros y Hy. apply H. by right.
Qed.

(** ** The state monad with panics *)

Definition M (St A : Type) : Type := St → outcome (A * St).

#[global] Instance M_ret {St} : MRet (M St) := λ A a s, Ok (a, s).
#[global] Instance M_bind {St} : MBind (M St) := λ A B f m s,
  match m s with Ok (a, s') => f a s' | Panic => Panic end.

Definition get {St} : M St St := λ s, Ok (s, s).
Definition gets {St A} (f : St → A) : M St A := λ s, Ok (f s, s).
Definition put {St} (s : St) : M St unit := λ _, Ok (tt, s).
Definition modify {St} (f : St → St) : M St unit := λ s, Ok (tt, f s).
Definition panic {St A} : M St A := λ _, Panic.
(** Runs a computation that only reads the state. *)
Definition lift {St A} (f : St → outcome A) : M St A := λ s,
  match f s with Ok a => Ok (a, s) | Panic => Panic end.
(** [if b { m }] *)
Definition when {St} (b : bool) (m : M St unit) : M St unit := if b then m else mret tt.
(** [for _, x := range l { f(x) }] *)
Fixpoint forM {St A} (l : list A) (f : A → M St unit) : M St unit :=
  match l with [] => mret tt | x :: l => f x ;; forM l f end.

(** [wp ok m s Q]: running [m] from [s] ends in a state satisfying [Q], or in a
    panic, which is acceptable only when [ok] holds.  [wp True] is partial
    correctness, [wp False] also excludes panics. *)
Definition wp {St A} (ok : Prop) (m : M St A) (s : St) (Q : A → St → Prop) : Prop :=
  match m s with Ok (a, s') => Q a s' | Panic => ok end.

(** Total correctness, as an equation. *)
Lemma wp_total {St A} (m : M St A) s (Q : A → St → Prop) :
  wp False m s Q ↔ ∃ a s', m s = Ok (a, s') ∧ Q a s'.
Proof.
  unfold wp. split.
  - destruct (m s) as [[a s']|]; [|done]. intros HQ. by exists a, s'.
  - by intros (a & s' & -> & HQ).
Qed.

Section wp_rules.
Context {St : Type} (ok : Prop).

Lemma wp_ret {A} (a : A) (s : St) (Q : A → St → Prop) :
  Q a s → wp ok (mret a) s Q.
Proof. done. Qed.

Lemma wp_bind {A B} (m : M St A) (f : A → M St B) s (Q : B → St → Prop) :
  wp ok m s (λ a s', wp ok (f a) s' Q) → wp ok (m ≫= f) s Q.
Proof. unfold wp, mbind, M_bind. destruct (m s) as [[a s']|]; done. Qed.

Lemma wp_mono {A} (m : M St A) s (Q Q' : A → St → Prop) :
  wp ok m s Q → (∀ a s', Q a s' → Q' a s') → wp ok m s Q'.
Proof. unfold wp. destruct (m s) as [[a s']|]; auto. Qed.

Lemma wp_and {A} (m : M St A) s (Q Q' : A → St → Prop) :
  wp ok m s Q → wp ok m s Q' → wp ok m s (λ a s', Q a s' ∧ Q' a s').
Proof. unfold wp. destruct (m s) as [[a s']|]; auto. Qed.

Lemma wp_get s (Q : St → St → Prop) : Q s s → wp ok get s Q.
Proof. done. Qed.
Lemma wp_gets {A} (f : St → A) s (Q : A → St → Prop) : Q (f s) s → wp ok (gets f) s Q.
Proof. done. Qed.
Lemma wp_modify f s (Q : unit → St → Prop) : Q tt (f s) → wp ok (modify f) s Q.
Proof. done. Qed.
Lemma wp_put s s' (Q : unit → St → Prop) : Q tt s' → wp ok (put s') s Q.
Proof. done. Qed.
Lemma wp_panic {A} s (Q : A → St → Prop) : ok → wp ok panic s Q.
Proof. done. Qed.
Lemma wp_when b (m : M St unit) s (Q : unit → St → Prop) :
  (b = true → wp ok m s Q) → (b = false → Q tt s) → wp ok (when b m) s Q.
Proof. destruct b; cbn; eauto. Qed.
Lemma wp_lift {A} (f : St → outcome A) s (Q : A → St → Prop) :
  (∀ a, f s = Ok a → Q a s) → (f s = Panic → ok) → wp ok (lift f) s Q.
Proof. unfold wp, lift. destruct (f s); eauto. Qed.

(** A loop keeps every invariant its body keeps. *)
Lemma wp_forM {A} (l : list A) (f : A → M St unit) (I : St → Prop) s :
  I s → (∀ x s, x ∈ l → I s → wp ok (f x) s (λ _, I)) →
  wp ok (forM l f) s (λ _, I).
Proof.
  revert s. induction l as [|x l IH]; intros s HI Hf; [done|].
  apply wp_bind. eapply wp_mono; [apply Hf; [set_solver|done]|].
  intros [] s' HI'. apply IH; [done|]. intros. apply Hf; [set_solver|done].
Qed.
End wp_rules.

(** [m] only moves the state along the preorder [R]. *)
Definition moves {St A} (R : St → St → Prop) (m : M St A) : Prop :=
  ∀ s, wp True m s (λ _ s', R s s').

Create HintDb moves.

(** Facts about the components that their clients use: preservation of the
    well-formedness invariants. *)
Create HintDb raft.

Section moves_rules.
Context {St : Type} (R : St → St → Prop) `{!PreOrder R}.

Lemma moves_ret {A} (a : A) : moves R (mret a).
Proof. intros s. apply wp_ret. reflexivity. Qed.
Lemma moves_bind {A B} (m : M St A) (f : A → M St B) :
  moves R m → (∀ a, moves R (f a)) → moves R (m ≫= f).
Proof.
  intros Hm Hf s. apply wp_bind. eapply wp_mono; [apply Hm|].
  intros a s' Hs. eapply wp_mono; [apply Hf|]. cbn in *; intros; etrans; eauto.
Qed.
Lemma moves_get : moves R get.
Proof. intros s. apply wp_get. reflexivity. Qed.
Lemma moves_gets {A} (f : St → A) : moves R (gets f).
Proof. intros s. apply wp_gets. reflexivity. Qed.
Lemma moves_panic {A} : moves R (panic (A:=A)).
Proof. intros s. by apply wp_panic. Qed.
Lemma moves_lift {A} (f : St → outcome A) : moves R (lift f).
Proof. intros s. apply wp_lift; [reflexivity|done]. Qed.
Lemma moves_modify f : (∀ s, R s (f s)) → moves R (modify f).
Proof. intros H s. apply wp_modify, H. Qed.
Lemma moves_when b (m : M St unit) : moves R m → moves R (when b m).
Proof. destruct b; [done|]. intros _. apply moves_ret. Qed.
Lemma moves_forM {A} (l : list A) (f : A → M St unit) :
  (∀ x, moves R (f x)) → moves R (forM l f).
Proof.
  intros Hf s. apply (wp_forM True l f (R s)); [reflexivity|].
  intros x s' _ Hs. eapply wp_mono; [apply Hf|]. cbn in *; intros; etrans; eauto.
Qed.
End moves_rules.

#[export] Hint Resolve moves_ret moves_bind moves_get moves_gets moves_panic
  moves_lift moves_when moves_forM : moves.

(** ** Record update *)

(** [r <| f := v |>] is the record [r] with the field [f] set to [v].  Each
    record declares how it is rebuilt from its fields ([Rebuild]); the update of
    a field is obtained by replacing that field in the rebuilt record. *)
Class Update {R T : Type} (f : R → T) := update : (T → T) → R → R.
Arguments update {R T} f {_} g r : rename.

Ltac update_of rebuild f :=
  lazymatch type of f with
  | ?R → ?T =>
      exact (λ (g : T → T) (r : R),
        ltac:(let b := eval cbv beta delta [rebuild] in (rebuild r) in
              let p := eval pattern (f r) in b in
              lazymatch p with
              | ?h _ => let b' := eval cbv beta in (h (g (f r))) in exact b'
              end))
  end.

Notation "r <| f := v |>" := (update f (λ _, v) r)
  (at level 1, left associativity, f at next level, v at level 200,
   format "r  <| f  :=  v |>") : go_scope.
Notation "r <| f ::= g |>" := (update f g r)
  (at level 1, left associativity, f at next level, g at level 200,
   format "r  <| f  ::=  g |>") : go_scope.

(** ** Lists and maps *)

(** The number of elements of a list that satisfy a test. *)
Definition countb {A} (f : A → bool) (l : list A) : nat := length (List.filter f l).

Lemma countb_nil {A} (f : A → bool) : countb f [] = 0%nat.
Proof. done. Qed.
Lemma countb_cons {A} (f : A → bool) x l :
  countb f (x :: l) = ((if f x then 1 else 0) + countb f l)%nat.
Proof. unfold countb. cbn. by destruct (f x). Qed.
Lemma countb_app {A} (f : A → bool) l k : countb f (l ++ k) = (countb f l + countb f k)%nat.
Proof. unfold countb. by rewrite List.filter_app, length_app. Qed.
Lemma existsb_none {A} (f : A → bool) l : (∀ x, x ∈ l → f x = false) → existsb f l = false.
Proof.
  induction l as [|x l IH]; intros Hf; [done|]. cbn. rewrite Hf by left. apply IH. intros y Hy. apply Hf. by right.
Qed.
Lemma countb_perm {A} (f : A → bool) l k : l ≡ₚ k → countb f l = countb f k.
Proof. induction 1; rewrite ?countb_cons; lia. Qed.
Lemma countb_le {A} (f : A → bool) l : (countb f l ≤ length l)%nat.
Proof. induction l; rewrite ?countb_cons; cbn [length]; [done|]. destruct (f _); lia. Qed.
Lemma countb_neg {A} (f : A → bool) l :
  (countb f l + countb (λ x, negb (f x)) l)%nat = length l.
Proof. induction l; [done|]. rewrite !countb_cons. cbn [length]. destruct (f _); cbn; lia. Qed.
Lemma countb_mono {A} (f g : A → bool) l :
  (∀ x, x ∈ l → f x = true → g x = true) → (countb f l ≤ countb g l)%nat.
Proof.
  induction l as [|x l IH]; intros H; [done|]. rewrite !countb_cons.
  pose proof (H x ltac:(set_solver)). specialize (IH ltac:(set_solver)).
  destruct (f x), (g x); (lia || (exfalso; intuition congruence)).
Qed.
Lemma countb_ext {A} (f g : A → bool) l :
  (∀ x, x ∈ l → f x = g x) → countb f l = countb g l.
Proof.
  intros H. apply Nat.le_antisymm; apply countb_mono; intros x Hx; by rewrite (H x Hx).
Qed.

Lemma countb_none {A} (f : A → bool) l : (∀ x, x ∈ l → f x = false) → countb f l = 0%nat.
Proof.
  induction l as [|x l IH]; intros H; [done|]. rewrite countb_cons, H by left.
  apply IH. intros. apply H. by right.
Qed.
Lemma countb_all {A} (f : A → bool) l : (∀ x, x ∈ l → f x = true) → countb f l = length l.
Proof.
  intros H. pose proof (countb_neg f l).
  rewrite (countb_none (λ x, negb (f x))) in * by (intros x Hx; by rewrite (H x Hx)). lia.
Qed.

(** Two tests that together pass more elements than the list has share one:
    the pigeonhole behind every quorum-intersection argument. *)
Lemma countb_overlap {A} (f g : A → bool) l :
  (length l < countb f l + countb g l)%nat → ∃ x, x ∈ l ∧ f x = true ∧ g x = true.
Proof.
  induction l as [|x l IH]; cbn [length]; [cbn; lia|]. rewrite !countb_cons. intros H.
  destruct (f x && g x) eqn:Hfg.
  - apply andb_prop in Hfg as [? ?]. exists x. split; [left|done].
  - destruct IH as (y & ? & ?); [destruct (f x), (g x); cbn in *; lia|].
    exists y. split; [by right|done].
Qed.
