(* ===== verification/Pb.v ===== *)
(** * The wire types (package raftpb)

    [go.etcd.io/etcd/raft/v3/raftpb] is generated code outside the repository.
    Its message types appear here with exactly the fields the repository reads or
    writes; its functions are the operations of the class [RaftPB], over which
    every definition that uses them is parameterised.  The Go byte slices are
    Rocq strings (sequences of bytes), nil and the empty slice being the same
    (the code only looks at their length and contents). *)

From S2P Require Import Prelude.

(** The message types the code names. *)
Inductive MessageType : Set :=
| MsgHup | MsgBeat | MsgProp | MsgApp | MsgAppResp | MsgVote | MsgVoteResp | MsgSnap
| MsgHeartbeat | MsgHeartbeatResp | MsgUnreachable | MsgSnapStatus | MsgCheckQuorum
| MsgTransferLeader | MsgTimeoutNow | MsgReadIndex | MsgReadIndexResp
| MsgPreVote | MsgPreVoteResp.
#[export] Instance MessageType_eq_dec : EqDecision MessageType.
Proof. solve_decision. Defined.

Inductive EntryType : Set := EntryNormal | EntryConfChange | EntryConfChangeV2.
#[export] Instance EntryType_eq_dec : EqDecision EntryType.
Proof. solve_decision. Defined.

Record Entry := MkEntry {
  e_Term : N;
  e_Index : N;
  e_Type : EntryType;
  e_Data : string;
}.
#[export] Instance Entry_eq_dec : EqDecision Entry.
Proof. solve_decision. Defined.

Record ConfState := MkConfState {
  cs_Voters : list N;
  cs_Learners : list N;
  cs_VotersOutgoing : list N;
  cs_LearnersNext : list N;
  cs_AutoLeave : bool;
}.
#[export] Instance ConfState_eq_dec : EqDecision ConfState.
Proof. solve_decision. Defined.
Definition ConfState_zero : ConfState := MkConfState [] [] [] [] false.

(** [Snapshot] with its [Metadata] flattened in. *)
Record Snapshot := MkSnapshot {
  s_Data : string;
  s_ConfState : ConfState;
  s_Index : N;
  s_Term : N;
}.
#[export] Instance Snapshot_eq_dec : EqDecision Snapshot.
Proof. solve_decision. Defined.
Definition Snapshot_zero : Snapshot := MkSnapshot "" ConfState_zero 0 0.

Record HardState := MkHardState { hs_Term : N; hs_Vote : N; hs_Commit : N }.
#[export] Instance HardState_eq_dec : EqDecision HardState.
Proof. solve_decision. Defined.

Record Message := MkMessage {
  m_Type : MessageType;
  m_To : N;
  m_From : N;
  m_Term : N;
  m_LogTerm : N;
  m_Index : N;
  m_Entries : list Entry;
  m_Commit : N;
  m_Snapshot : Snapshot;
  m_Reject : bool;
  m_RejectHint : N;
  m_Context : string;
}.
#[export] Instance Message_eq_dec : EqDecision Message.
Proof. solve_decision. Defined.

(** A message literal that sets only its type and destination. *)
Definition msg (t : MessageType) (to : N) : Message :=
  MkMessage t to 0 0 0 0 [] 0 Snapshot_zero false 0 "".

Section pb_update.
Let rebuild_m (m : Message) : Message :=
  MkMessage (m_Type m) (m_To m) (m_From m) (m_Term m) (m_LogTerm m) (m_Index m)
    (m_Entries m) (m_Commit m) (m_Snapshot m) (m_Reject m) (m_RejectHint m) (m_Context m).
#[global] Instance upd_m_Type : Update m_Type := ltac:(update_of rebuild_m m_Type).
#[global] Instance upd_m_To : Update m_To := ltac:(update_of rebuild_m m_To).
#[global] Instance upd_m_From : Update m_From := ltac:(update_of rebuild_m m_From).
#[global] Instance upd_m_Term : Update m_Term := ltac:(update_of rebuild_m m_Term).
#[global] Instance upd_m_LogTerm : Update m_LogTerm := ltac:(update_of rebuild_m m_LogTerm).
#[global] Instance upd_m_Index : Update m_Index := ltac:(update_of rebuild_m m_Index).
#[global] Instance upd_m_Entries : Update m_Entries := ltac:(update_of rebuild_m m_Entries).
#[global] Instance upd_m_Commit : Update m_Commit := ltac:(update_of rebuild_m m_Commit).
#[global] Instance upd_m_Snapshot : Update m_Snapshot := ltac:(update_of rebuild_m m_Snapshot).
#[global] Instance upd_m_Reject : Update m_Reject := ltac:(update_of rebuild_m m_Reject).
#[global] Instance upd_m_RejectHint : Update m_RejectHint :=
  ltac:(update_of rebuild_m m_RejectHint).
#[global] Instance upd_m_Context : Update m_Context := ltac:(update_of rebuild_m m_Context).
Let rebuild_e (e : Entry) : Entry := MkEntry (e_Term e) (e_Index e) (e_Type e) (e_Data e).
#[global] Instance upd_e_Term : Update e_Term := ltac:(update_of rebuild_e e_Term).
#[global] Instance upd_e_Index : Update e_Index := ltac:(update_of rebuild_e e_Index).
Let rebuild_s (s : Snapshot) : Snapshot :=
  MkSnapshot (s_Data s) (s_ConfState s) (s_Index s) (s_Term s).
#[global] Instance upd_s_Data : Update s_Data := ltac:(update_of rebuild_s s_Data).
#[global] Instance upd_s_ConfState : Update s_ConfState :=
  ltac:(update_of rebuild_s s_ConfState).
#[global] Instance upd_s_Index : Update s_Index := ltac:(update_of rebuild_s s_Index).
#[global] Instance upd_s_Term : Update s_Term := ltac:(update_of rebuild_s s_Term).
End pb_update.

(** The kinds of configuration change, with a case for the values outside the
    enumeration that the [default] branch of the changer rejects. *)
Inductive ConfChangeType : Set :=
| ConfChangeAddNode | ConfChangeRemoveNode | ConfChangeUpdateNode | ConfChangeAddLearnerNode
| ConfChangeUnknown (code : Z).
#[export] Instance ConfChangeType_eq_dec : EqDecision ConfChangeType.
Proof. solve_decision. Defined.

Record ConfChangeSingle := MkCCS { cc_Type : ConfChangeType; cc_NodeID : N }.
#[export] Instance ConfChangeSingle_eq_dec : EqDecision ConfChangeSingle.
Proof. solve_decision. Defined.

(** The deprecated single change. *)
Record ConfChange := MkCC { ccv1_Type : ConfChangeType; ccv1_NodeID : N; ccv1_Context : string }.

(** The operations of the package the code calls. *)
Class RaftPB := {
  (** [Entry.Size]: the encoded size in bytes. *)
  Entry_Size : Entry → N;
  (** [ConfChangeV2], of which the code reads [Changes] only. *)
  ConfChangeV2 : Type;
  Changes : ConfChangeV2 → list ConfChangeSingle;
  (** [ConfChangeV2.LeaveJoint] and [ConfChangeV2.EnterJoint]. *)
  V2_LeaveJoint : ConfChangeV2 → bool;
  V2_EnterJoint : ConfChangeV2 → bool * bool;
  (** [ConfChange.AsV2]; [ConfChangeV2.AsV2]. *)
  V1_AsV2 : ConfChange → ConfChangeV2;
  V2_AsV2 : ConfChangeV2 → ConfChangeV2;
  (** [Unmarshal] of the two formats, [ConfChange.Marshal], [MarshalConfChange]. *)
  V1_Unmarshal : string → result ConfChange;
  V2_Unmarshal : string → result ConfChangeV2;
  (** What [ConfChange.Unmarshal] leaves in an empty change when it fails: the
      fields decoded before the error. *)
  V1_partial : string → ConfChange;
  V1_Marshal : ConfChange → result string;
  MarshalConfChange : (ConfChange + ConfChangeV2) → result (EntryType * string);
  (** [ConfState.Equivalent]: [None] is the nil error. *)
  ConfState_Equivalent : ConfState → ConfState → option error;
}.

(** [pb.ConfChangeI]: either format, and its [AsV2]. *)
Definition ConfChangeI `{RaftPB} : Type := (ConfChange + ConfChangeV2)%type.
Definition AsV2 `{RaftPB} (cc : ConfChangeI) : ConfChangeV2 :=
  match cc with inl c => V1_AsV2 c | inr c => V2_AsV2 c end.

(** A concrete instance, for the witnesses: an entry takes its data and two
    bytes, a V2 change is its list of changes, encoded as a byte per added
    node; several changes are joint and automatic. *)
Definition ex_decode (s : string) : list ConfChangeSingle :=
  map (λ a, MkCCS ConfChangeAddNode (Ascii.N_of_ascii a)) (String.list_ascii_of_string s).
Definition ex_encode (ccs : list ConfChangeSingle) : string :=
  String.string_of_list_ascii (map (λ cc, Ascii.ascii_of_N (cc_NodeID cc)) ccs).
Definition ex_pb : RaftPB := {|
  Entry_Size e := 2 + N.of_nat (String.length (e_Data e));
  ConfChangeV2 := list ConfChangeSingle;
  Changes ccs := ccs;
  V2_LeaveJoint ccs := bool_decide (ccs = []);
  V2_EnterJoint ccs := (true, bool_decide (1 < length ccs)%nat);
  V1_AsV2 cc := [MkCCS (ccv1_Type cc) (ccv1_NodeID cc)];
  V2_AsV2 ccs := ccs;
  V1_Unmarshal s :=
    match ex_decode s with
    | [cc] => Val (MkCC (cc_Type cc) (cc_NodeID cc) "")
    | _ => Err (ErrMsg "unmarshal")
    end;
  V2_Unmarshal s := Val (ex_decode s);
  V1_partial s :=
    match ex_decode s with
    | cc :: _ => MkCC (cc_Type cc) (cc_NodeID cc) ""
    | [] => MkCC ConfChangeAddNode 0 ""
    end;
  V1_Marshal cc := Val (ex_encode [MkCCS (ccv1_Type cc) (ccv1_NodeID cc)]);
  MarshalConfChange cc :=
    match cc with
    | inl c => Val (EntryConfChange, ex_encode [MkCCS (ccv1_Type c) (ccv1_NodeID c)])
    | inr ccs => Val (EntryConfChangeV2, ex_encode ccs)
    end;
  ConfState_Equivalent cs1 cs2 := if bool_decide (cs1 = cs2) then None else Some (ErrMsg "differ");
|}.
