(* ===== verification/Quorum.v ===== *)
(** * Quorums (raft/protocol/quorum)

    [MajorityConfig], [JointConfig] and [VoteResult]: majority and joint quorums,
    the committed index they support and the outcome of a vote under them.

    A Go map used as a set is an [option (gset N)], [None] being the nil map: the
    quorum code treats nil as empty, the configuration changer does not.  The
    iteration order of a map is unspecified in Go; every loop over a map takes the
    order as a list, and the theorems show that the result does not depend on it. *)

From S2P Require Import Prelude.

(** ** Go maps used as sets *)

(** The keys present in a possibly nil map. *)
Definition keys (m : option (gset N)) : gset N := default ∅ m.

(** ** quorum.go *)

(** [VoteResult] (quorum.go): the three constants. *)
Inductive VoteResult : Set := VotePending | VoteLost | VoteWon.
#[export] Instance VoteResult_eq_dec : EqDecision VoteResult.
Proof. solve_decision. Defined.

(** [AckedIndexer] (quorum.go): looks up the index acknowledged by a voter. *)
Class AckedIndexer (L : Type) := AckedIndex : L → N → option N.

(** [mapAckIndexer] (quorum.go). *)
#[export] Instance mapAckIndexer : AckedIndexer (gmap N N) := λ m id, m !! id.

(** ** majority.go *)

Abbreviation MajorityConfig := (option (gset N)).

(** The inner loop of [insertionSort]: [sl[j]] moves left past larger elements. *)
Fixpoint sift_down (sl : list N) (j : nat) : list N :=
  match j with
  | O => sl
  | S j' =>
      match sl !! j, sl !! j' with
      | Some x, Some y =>
          if x <? y then sift_down (<[j' := x]> (<[j := y]> sl)) j' else sl
      | _, _ => sl
      end
  end.

(** [insertionSort] (majority.go). *)
Definition insertionSort (sl : list N) : list N :=
  foldl sift_down sl (seq 1 (length sl - 1)).

(** The size of a majority of [n] voters: [n/2 + 1]. *)
Definition majority (n : nat) : nat := (n / 2 + 1)%nat.
Arguments majority : simpl never.

Section Majority.
Context `{AckedIndexer L}.

(** The loop of [CommittedIndex] that fills [srt] from the right, voters being
    visited in the order [ids]; the loop variable [i] is the next free slot. *)
Fixpoint fill_acked (l : L) (ids : list N) (i : nat) (srt : list N) : list N :=
  match ids with
  | [] => srt
  | id :: ids' =>
      match AckedIndex l id with
      | Some idx => fill_acked l ids' (i - 1) (<[i := idx]> srt)
      | None => fill_acked l ids' i srt
      end
  end.

(** [MajorityConfig.CommittedIndex] (majority.go), for one iteration order. *)
Definition committed_in_order (ids : list N) (l : L) : N :=
  let n := length ids in
  if (n =? 0)%nat then maxUint64
  else
    let srt := insertionSort (fill_acked l ids (n - 1) (replicate n 0)) in
    let pos := (n - majority n)%nat in
    default 0 (srt !! pos).

Definition CommittedIndex (c : MajorityConfig) (l : L) : N :=
  committed_in_order (elements (keys c)) l.
End Majority.

(** The counters of [MajorityConfig.VoteResult]: no, yes and missing votes. *)
Record tally := Tally { ny0 : nat; ny1 : nat; missing : nat }.

Definition tally_vote (votes : gmap N bool) (t : tally) (id : N) : tally :=
  match votes !! id with
  | None => Tally (ny0 t) (ny1 t) (S (missing t))
  | Some true => Tally (ny0 t) (S (ny1 t)) (missing t)
  | Some false => Tally (S (ny0 t)) (ny1 t) (missing t)
  end.

(** [MajorityConfig.VoteResult] (majority.go), for one iteration order. *)
Definition vote_in_order (ids : list N) (votes : gmap N bool) : VoteResult :=
  if (length ids =? 0)%nat then VoteWon
  else
    let t := foldl (tally_vote votes) (Tally 0 0 0) ids in
    let q := majority (length ids) in
    if (q <=? ny1 t)%nat then VoteWon
    else if (q <=? ny1 t + missing t)%nat then VotePending
    else VoteLost.

Definition MajorityVoteResult (c : MajorityConfig) (votes : gmap N bool) : VoteResult :=
  vote_in_order (elements (keys c)) votes.

(** [MajorityConfig.Slice] (majority.go): the voters as a sorted slice. *)
Definition Slice (c : MajorityConfig) : list N := insertionSort (elements (keys c)).

(** ** joint.go *)

(** [JointConfig]: the incoming (index 0) and outgoing (index 1) majorities. *)
Record JointConfig := Joint { incoming : MajorityConfig; outgoing : MajorityConfig }.
#[export] Instance JointConfig_eq_dec : EqDecision JointConfig.
Proof. solve_decision. Defined.

(** [JointConfig.IDs] (joint.go). *)
Definition IDs (c : JointConfig) : gset N := keys (incoming c) ∪ keys (outgoing c).

(** [JointConfig.CommittedIndex] (joint.go). *)
Definition JointCommittedIndex `{AckedIndexer L} (c : JointConfig) (l : L) : N :=
  let idx0 := CommittedIndex (incoming c) l in
  let idx1 := CommittedIndex (outgoing c) l in
  if idx0 <? idx1 then idx0 else idx1.

(** [JointConfig.VoteResult] (joint.go). *)
Definition JointVoteResult (c : JointConfig) (votes : gmap N bool) : VoteResult :=
  let r1 := MajorityVoteResult (incoming c) votes in
  let r2 := MajorityVoteResult (outgoing c) votes in
  if decide (r1 = r2) then r1
  else if decide (r1 = VoteLost ∨ r2 = VoteLost) then VoteLost
  else VotePending.

(** ** Insertion sort *)

Lemma sift_down_spec p x s :
  Sorted N.le p →
  ∃ q, sift_down (p ++ x :: s) (length p) = q ++ s ∧ q ≡ₚ x :: p ∧ Sorted N.le q.
Proof.
  revert x s. induction p as [|y p IH] using rev_ind; intros x s Hs.
  - exists [x]. cbn. split_and!; [done..|]. by repeat constructor.
  - rewrite length_app, Nat.add_1_r. cbn [sift_down].
    rewrite (list_lookup_middle (p ++ [y])) by (rewrite length_app; cbn; lia).
    rewrite <- app_assoc. cbn [app]. rewrite (list_lookup_middle p) by done.
    apply Sorted_StronglySorted in Hs; [|intros ???; lia].
    apply StronglySorted_app in Hs as (Hle & Hp & _).
    destruct (N.ltb_spec x y) as [Hxy|Hxy].
    + replace (<[length p:=x]> (<[S (length p):=y]> (p ++ y :: x :: s)))
        with (p ++ x :: y :: s).
      2:{ rewrite insert_app_r_alt by lia. replace (S (length p) - length p)%nat with 1%nat by lia.
          rewrite insert_app_r_alt by lia. by rewrite Nat.sub_diag. }
      destruct (IH x (y :: s)) as (q & Hq & Hperm & Hqs).
      { by apply StronglySorted_Sorted. }
      exists (q ++ [y]). rewrite <- app_assoc. cbn. split_and!; [done| |].
      * rewrite Hperm. cbn. by rewrite (Permutation_app_comm p).
      * apply StronglySorted_Sorted, StronglySorted_app; split_and!.
        -- intros a b Ha Hb. apply list_elem_of_singleton in Hb as ->.
           rewrite Hperm in Ha. apply elem_of_cons in Ha as [->|Ha]; [lia|].
           apply Hle; [done|]. by left.
        -- apply Sorted_StronglySorted; [intros ???; lia|done].
        -- repeat constructor.
    + exists (p ++ [y; x]). rewrite <- app_assoc. cbn. split_and!; [done| |].
      * rewrite (Permutation_app_comm p). cbn. rewrite (Permutation_app_comm p).
        apply perm_swap.
      * apply StronglySorted_Sorted, StronglySorted_app; split_and!; [|done|].
        -- intros a b Ha Hb. assert (a ≤ y) by (apply Hle; [done|by left]).
           apply elem_of_cons in Hb as [->|Hb]; [done|].
           apply list_elem_of_singleton in Hb as ->. lia.
        -- repeat constructor; lia.
Qed.

Lemma insertionSort_prefix sl n :
  (n < length sl)%nat →
  ∃ q, foldl sift_down sl (seq 1 n) = q ++ drop (S n) sl ∧ q ≡ₚ take (S n) sl ∧ Sorted N.le q.
Proof.
  induction n as [|n IH]; intros Hn.
  - destruct sl as [|x sl]; cbn in Hn; [lia|]. exists [x]. cbn. rewrite drop_0, take_0.
    split_and!; [done..|repeat constructor].
  - destruct IH as (q & Hq & Hperm & Hs); [lia|].
    rewrite seq_S, foldl_app, Hq. cbn [foldl].
    destruct (lookup_lt_is_Some_2 sl (S n)) as [x Hx]; [done|].
    rewrite (drop_S sl x (S n)) by done.
    assert (Hlen : length q = S n) by (rewrite Hperm, length_take; lia).
    replace (1 + n)%nat with (length q) by lia.
    destruct (sift_down_spec q x (drop (S (S n)) sl) Hs)
      as (q' & Hq' & Hperm' & Hs').
    exists q'. split_and!; [done| |done].
    rewrite Hperm', Hperm. rewrite (take_S_r sl (S n) x) by done.
    by rewrite (Permutation_app_comm _ [x]).
Qed.

(** [insertionSort] sorts its argument in place. *)
Lemma insertionSort_spec sl :
  insertionSort sl ≡ₚ sl ∧ Sorted N.le (insertionSort sl).
Proof.
  unfold insertionSort. destruct sl as [|x sl']; [cbn; auto|].
  destruct (insertionSort_prefix (x :: sl') (length (x :: sl') - 1)) as (q & -> & Hperm & Hs).
  { cbn. lia. }
  replace (S (length (x :: sl') - 1)) with (length (x :: sl')) in * by (cbn; lia).
  rewrite take_ge in Hperm by done. rewrite drop_ge by done. by rewrite app_nil_r.
Qed.

Lemma insertionSort_perm sl : insertionSort sl ≡ₚ sl.
Proof. apply insertionSort_spec. Qed.
Lemma insertionSort_sorted sl : Sorted N.le (insertionSort sl).
Proof. apply insertionSort_spec. Qed.
Lemma length_insertionSort sl : length (insertionSort sl) = length sl.
Proof. by rewrite insertionSort_perm. Qed.

(** Sorting erases the iteration order. *)
Lemma insertionSort_unique sl sl' : sl ≡ₚ sl' → insertionSort sl = insertionSort sl'.
Proof.
  intros H. apply (Sorted_unique N.le); [apply insertionSort_sorted..|].
  by rewrite !insertionSort_perm.
Qed.

(** ** Counting in sorted lists *)

Lemma sorted_countb_ge sl pos v :
  Sorted N.le sl → sl !! pos = Some v →
  (length sl - pos ≤ countb (λ x, (v <=? x)%N) sl)%nat.
Proof.
  intros Hs (l1 & l2 & -> & ->)%list_elem_of_split_length.
  apply Sorted_StronglySorted in Hs; [|intros ???; lia].
  apply StronglySorted_app in Hs as (_ & _ & [_ Hall]%StronglySorted_inv).
  rewrite countb_app, countb_cons, N.leb_refl, length_app. cbn.
  rewrite (countb_all _ l2); [lia|].
  intros x Hx. rewrite Forall_forall in Hall. by apply N.leb_le, Hall.
Qed.

Lemma sorted_countb_lt sl pos v x :
  Sorted N.le sl → sl !! pos = Some v → v < x →
  (countb (λ y, (x <=? y)%N) sl ≤ length sl - S pos)%nat.
Proof.
  intros Hs (l1 & l2 & -> & ->)%list_elem_of_split_length Hx.
  apply Sorted_StronglySorted in Hs; [|intros ???; lia].
  apply StronglySorted_app in Hs as (Hle & _ & _).
  rewrite countb_app, countb_cons, length_app. cbn.
  replace (x <=? v) with false by (symmetry; by apply N.leb_gt).
  rewrite (countb_none _ l1).
  - pose proof (countb_le (λ y, x <=? y) l2). lia.
  - intros y Hy. apply N.leb_gt. enough (y ≤ v) by lia. apply Hle; [done|by left].
Qed.

(** ** The committed index *)

Section Committed.
Context `{AckedIndexer L} (l : L).

(** The index acknowledged by a voter, 0 for a voter that has not reported. *)
Definition acked (id : N) : N := default 0 (AckedIndex l id).

Lemma fill_acked_perm ids k t :
  (length ids ≤ k)%nat →
  fill_acked l ids (k - 1) (replicate k 0 ++ t)
    ≡ₚ map acked ids ++ replicate (k - length ids) 0 ++ t.
Proof.
  revert k t. induction ids as [|id ids IH]; intros k t Hk; cbn [fill_acked map length] in *.
  { by rewrite Nat.sub_0_r. }
  unfold acked at 1. destruct k as [|k]; [lia|].
  destruct (AckedIndex l id) as [idx|]; cbn [default].
  - replace (<[(S k - 1)%nat:=idx]> (replicate (S k) 0 ++ t)) with (replicate k 0 ++ idx :: t).
    2:{ rewrite replicate_S_end, <- app_assoc, insert_app_r_alt; rewrite length_replicate; [|lia].
        replace (S k - 1 - k)%nat with 0%nat by lia. done. }
    replace (S k - 1 - 1)%nat with (k - 1)%nat by lia.
    rewrite IH by lia. cbn. by rewrite <- !Permutation_middle.
  - rewrite IH by lia.
    replace (S k - length ids)%nat with (S (S k - S (length ids))) by lia.
    cbn. by rewrite <- !Permutation_middle.
Qed.

(** What [CommittedIndex] sorts: the acknowledged index of every voter. *)
Lemma committed_sorts ids :
  insertionSort (fill_acked l ids (length ids - 1) (replicate (length ids) 0))
  = insertionSort (map acked ids).
Proof.
  apply insertionSort_unique.
  pose proof (fill_acked_perm ids (length ids) [] ltac:(lia)) as Hp.
  rewrite Nat.sub_diag in Hp. cbn in Hp. by rewrite !app_nil_r in Hp.
Qed.

Lemma committed_in_order_perm ids ids' :
  ids ≡ₚ ids' → committed_in_order ids l = committed_in_order ids' l.
Proof.
  intros Hp. unfold committed_in_order. rewrite !committed_sorts.
  rewrite (insertionSort_unique (map acked ids) (map acked ids')) by by rewrite Hp.
  by rewrite (Permutation_length Hp).
Qed.

(** [n] of the voters in [ids] acknowledge at least [x]. *)
Definition acks (ids : list N) (x : N) : nat := countb (λ id, x <=? acked id) ids.

Lemma countb_map {A B} (f : A → B) (p : B → bool) k : countb p (map f k) = countb (λ x, p (f x)) k.
Proof. induction k as [|x k IH]; [done|]. cbn [map]. by rewrite !countb_cons, IH. Qed.

Lemma committed_in_order_spec ids :
  ids ≠ [] →
  let v := committed_in_order ids l in
  (majority (length ids) ≤ acks ids v)%nat ∧
  ∀ x, v < x → (acks ids x < majority (length ids))%nat.
Proof.
  intros Hne. unfold committed_in_order. rewrite committed_sorts.
  destruct ids as [|id ids']; [done|]. set (ids := id :: ids') in *.
  assert (Hlen : (0 < length ids)%nat) by (cbn; lia).
  destruct (Nat.eqb_spec (length ids) 0) as [|_]; [lia|].
  set (srt := insertionSort (map acked ids)).
  assert (Hsl : length srt = length ids) by (unfold srt; by rewrite length_insertionSort, length_map).
  assert (Hperm : ∀ x, countb (λ y, x <=? y) srt = acks ids x).
  { intros x. unfold srt, acks. by rewrite (countb_perm _ _ _ (insertionSort_perm _)), countb_map. }
  assert (Hm : (1 ≤ majority (length ids) ≤ length ids)%nat).
  { unfold majority. pose proof (Nat.div_lt (length ids) 2). lia. }
  destruct (lookup_lt_is_Some_2 srt (length ids - majority (length ids))) as [v Hv]; [lia|].
  rewrite Hv. change (default 0 (Some v)) with v. split.
  - pose proof (sorted_countb_ge _ _ _ (insertionSort_sorted _) Hv) as Hge.
    fold srt in Hge. rewrite Hperm in Hge. lia.
  - intros x Hx. pose proof (sorted_countb_lt _ _ _ x (insertionSort_sorted _) Hv Hx) as Hlt.
    fold srt in Hlt. rewrite Hperm in Hlt. lia.
Qed.
End Committed.

Lemma majority_twice n : (n < majority n + majority n)%nat.
Proof. unfold majority. pose proof (Nat.div_mod n 2). pose proof (Nat.mod_upper_bound n 2). lia. Qed.

(** ** Votes *)

(** The votes cast by the voters in [ids], and the voters that have not voted. *)
Definition yes (votes : gmap N bool) (ids : list N) : nat :=
  countb (λ id, bool_decide (votes !! id = Some true)) ids.
Definition no (votes : gmap N bool) (ids : list N) : nat :=
  countb (λ id, bool_decide (votes !! id = Some false)) ids.
Definition unvoted (votes : gmap N bool) (ids : list N) : nat :=
  countb (λ id, bool_decide (votes !! id = None)) ids.

Lemma tally_spec votes ids t :
  foldl (tally_vote votes) t ids =
  Tally (ny0 t + no votes ids) (ny1 t + yes votes ids) (missing t + unvoted votes ids).
Proof.
  unfold no, yes, unvoted. revert t. induction ids as [|id ids IH]; intros t.
  { destruct t; cbn. by rewrite !Nat.add_0_r. }
  cbn [foldl]. rewrite IH, !countb_cons. unfold tally_vote.
  destruct (votes !! id) as [[]|]; cbn [ny0 ny1 missing];
    f_equal; repeat case_bool_decide; simplify_eq; lia.
Qed.

Lemma vote_partition votes ids :
  (yes votes ids + no votes ids + unvoted votes ids)%nat = length ids.
Proof.
  unfold no, yes, unvoted. induction ids as [|id ids IH]; [done|].
  rewrite !countb_cons. cbn [length]. rewrite <- IH.
  destruct (votes !! id) as [[]|]; repeat case_bool_decide; simplify_eq; lia.
Qed.

(** The result of a vote, by the counts of the votes. *)
Lemma vote_in_order_spec ids votes :
  let q := majority (length ids) in
  (vote_in_order ids votes = VoteWon ↔ ids = [] ∨ (q ≤ yes votes ids)%nat) ∧
  (vote_in_order ids votes = VoteLost ↔
     ids ≠ [] ∧ (yes votes ids + unvoted votes ids < q)%nat).
Proof.
  unfold vote_in_order. rewrite tally_spec. cbn [ny1 missing Nat.add].
  destruct (Nat.eqb_spec (length ids) 0) as [->%length_zero_iff_nil|Hne]; [naive_solver|].
  assert (ids ≠ []) by (by intros ->).
  destruct (Nat.leb_spec (majority (length ids)) (yes votes ids));
    [|destruct (Nat.leb_spec (majority (length ids)) (yes votes ids + unvoted votes ids))];
    split; split; intros; try done; try (right; lia); try (split; [done|lia]);
    destruct_or?; destruct_and?; try done; lia.
Qed.

Lemma vote_in_order_perm ids ids' votes :
  ids ≡ₚ ids' → vote_in_order ids votes = vote_in_order ids' votes.
Proof.
  intros Hp. unfold vote_in_order. rewrite !tally_spec. cbn [ny1 missing Nat.add].
  unfold yes, unvoted. by rewrite !(countb_perm _ _ _ Hp), (Permutation_length Hp).
Qed.

(** ** The abstract notion of a quorum *)

(** The voters satisfying [p] form a majority of [c]; an empty configuration is
    satisfied by anything, which is what makes a half-populated joint
    configuration behave like its other half. *)
Definition quorum_of (c : MajorityConfig) (p : N → bool) : Prop :=
  keys c = ∅ ∨ (majority (size (keys c)) ≤ countb p (elements (keys c)))%nat.

(** Both halves of a joint configuration have a quorum. *)
Definition joint_quorum (c : JointConfig) (p : N → bool) : Prop :=
  quorum_of (incoming c) p ∧ quorum_of (outgoing c) p.

#[export] Instance quorum_of_dec c p : Decision (quorum_of c p).
Proof. unfold quorum_of. apply _. Defined.

Definition voted_yes (votes : gmap N bool) (id : N) : bool :=
  bool_decide (votes !! id = Some true).
Definition has_acked `{AckedIndexer L} (l : L) (x id : N) : bool := x <=? acked l id.

Lemma quorum_of_mono c p q :
  (∀ id, id ∈ keys c → p id = true → q id = true) → quorum_of c p → quorum_of c q.
Proof.
  intros H [?|Hp]; [by left|right]. etrans; [exact Hp|]. apply countb_mono.
  intros id Hid. apply H. by apply elem_of_elements.
Qed.

(** Two quorums of one configuration share a voter. *)
Lemma quorum_of_overlap c p q :
  keys c ≠ ∅ → quorum_of c p → quorum_of c q →
  ∃ id, id ∈ keys c ∧ p id = true ∧ q id = true.
Proof.
  intros Hne [?|Hp] [?|Hq]; [done..|]. destruct (countb_overlap p q (elements (keys c))) as (id & ? & ? & ?).
  - pose proof (majority_twice (size (keys c))). unfold size, set_size in *. cbn in *. lia.
  - exists id. split_and!; [by apply elem_of_elements|done..].
Qed.

Lemma MajorityVoteResult_won c votes :
  MajorityVoteResult c votes = VoteWon ↔ quorum_of c (voted_yes votes).
Proof.
  unfold MajorityVoteResult, quorum_of.
  rewrite (proj1 (vote_in_order_spec _ votes)).
  by rewrite elements_empty_iff, leibniz_equiv_iff.
Qed.

(** A vote is lost once the voters that may still say yes are no quorum. *)
Lemma MajorityVoteResult_lost c votes :
  MajorityVoteResult c votes = VoteLost ↔
  ¬ quorum_of c (λ id, negb (bool_decide (votes !! id = Some false))).
Proof.
  unfold MajorityVoteResult, quorum_of.
  rewrite (proj2 (vote_in_order_spec _ votes)).
  rewrite elements_empty_iff, leibniz_equiv_iff. unfold size, set_size. cbn.
  pose proof (vote_partition votes (elements (keys c))).
  pose proof (countb_neg (λ id, bool_decide (votes !! id = Some false)) (elements (keys c))).
  unfold no, yes, unvoted in *.
  destruct (decide (keys c = ∅)); [naive_solver|]. split.
  - intros [_ Hlt] [?|Hge]; [done|]. lia.
  - intros Hn. split; [done|]. apply Nat.nle_gt. intros Hge. apply Hn. right. lia.
Qed.

Lemma CommittedIndex_ge `{AckedIndexer L} c (l : L) x :
  x ≤ maxUint64 → x ≤ CommittedIndex c l ↔ quorum_of c (has_acked l x).
Proof.
  intros Hx. unfold CommittedIndex, quorum_of.
  destruct (decide (keys c = ∅)) as [He|Hne].
  { rewrite He, elements_empty. cbn. naive_solver. }
  destruct (committed_in_order_spec l (elements (keys c))) as [Hge Hlt].
  { by rewrite elements_empty_iff, leibniz_equiv_iff. }
  unfold size, set_size. cbn. unfold acks in *. split.
  - intros Hle. right. etrans; [exact Hge|]. apply countb_mono.
    unfold has_acked. intros id _ Hid%N.leb_le. apply N.leb_le. lia.
  - intros [?|Hm]; [done|]. apply N.le_ngt. intros Hgt. specialize (Hlt x Hgt).
    unfold has_acked in Hm. lia.
Qed.

(** ** Joint quorums *)

Lemma JointCommittedIndex_ge `{AckedIndexer L} (c : JointConfig) (l : L) (x : N) :
  x ≤ maxUint64 →
  x ≤ JointCommittedIndex c l ↔ joint_quorum c (has_acked l x).
Proof.
  intros Hx. unfold JointCommittedIndex, joint_quorum.
  rewrite <- !(CommittedIndex_ge _ l x Hx).
  destruct (N.ltb_spec (CommittedIndex (incoming c) l) (CommittedIndex (outgoing c) l)); lia.
Qed.

Lemma JointVoteResult_iff (c : JointConfig) (votes : gmap N bool) :
  (JointVoteResult c votes = VoteWon ↔ joint_quorum c (voted_yes votes)) ∧
  (JointVoteResult c votes = VoteLost ↔
     ¬ joint_quorum c (λ id, negb (bool_decide (votes !! id = Some false)))).
Proof.
  unfold joint_quorum. rewrite <- !MajorityVoteResult_won.
  pose proof (MajorityVoteResult_lost (incoming c) votes) as H1.
  pose proof (MajorityVoteResult_lost (outgoing c) votes) as H2.
  set (p := λ id, negb _) in *. unfold JointVoteResult.
  destruct (decide (quorum_of (incoming c) p)), (decide (quorum_of (outgoing c) p));
    destruct (MajorityVoteResult (incoming c) votes), (MajorityVoteResult (outgoing c) votes);
    repeat case_decide; destruct_or?; try done; intuition congruence.
Qed.

Lemma JointVoteResult_grows (c : JointConfig) (votes votes' : gmap N bool) :
  votes ⊆ votes' → JointVoteResult c votes ≠ VotePending →
  JointVoteResult c votes' = JointVoteResult c votes.
Proof.
  intros Hsub Hdec.
  destruct (JointVoteResult_iff c votes) as [Hw Hl].
  destruct (JointVoteResult_iff c votes') as [Hw' Hl'].
  assert (Hstep : ∀ id b, votes !! id = Some b → votes' !! id = Some b)
    by (intros id b Hb; by eapply lookup_weaken).
  destruct (JointVoteResult c votes) eqn:E; [done| |].
  - apply Hl'. intros [Ha Hb]. apply Hl; [done|].
    split; (eapply quorum_of_mono; [|eassumption]); intros id _;
      rewrite !negb_true_iff, !bool_decide_eq_false; intros H ?; by apply H, Hstep.
  - apply Hw'. destruct (proj1 Hw eq_refl) as [Ha Hb].
    split; (eapply quorum_of_mono; [|eassumption]); intros id _;
      unfold voted_yes; rewrite !bool_decide_eq_true; apply Hstep.
Qed.

(** ** The properties of the package *)

(** C29: the joint committed index is exactly the largest index acknowledged by a
    majority of each non-empty half of the configuration: an index is at most
    the result of [JointConfig.CommittedIndex] iff a quorum of the incoming and a
    quorum of the outgoing majority have acknowledged it. *)
Theorem JointCommittedIndex_spec `{AckedIndexer L} (c : JointConfig) (l : L) (x : N) :
  x ≤ maxUint64 →
  x ≤ JointCommittedIndex c l ↔ joint_quorum c (has_acked l x).
Proof. apply JointCommittedIndex_ge. Qed.

(** The configuration (1 2 3)&&(3 4) with acknowledged indexes 1:5, 2:7, 3:9, 4:4. *)
Definition ex_joint : JointConfig := Joint (Some {[1; 2; 3]}) (Some {[3; 4]}).
Definition ex_acks : gmap N N := {[1 := 5; 2 := 7; 3 := 9; 4 := 4]}.

Lemma JointCommittedIndex_spec_witness :
  JointCommittedIndex ex_joint ex_acks = 4 ∧ joint_quorum ex_joint (has_acked ex_acks 4).
Proof.
  split; [vm_compute; reflexivity|].
  apply (JointCommittedIndex_spec ex_joint ex_acks 4); vm_compute; discriminate.
Defined.

(** The result of [MajorityConfig.CommittedIndex] does not depend on the
    order in which Go happens to iterate over the configuration map, nor does the
    result of [MajorityConfig.VoteResult]. *)
Theorem majority_order_irrelevant `{AckedIndexer L} (c : MajorityConfig) (l : L)
    (votes : gmap N bool) (ids : list N) :
  ids ≡ₚ elements (keys c) →
  committed_in_order ids l = CommittedIndex c l ∧
  vote_in_order ids votes = MajorityVoteResult c votes.
Proof.
  intros Hp. split; [by apply committed_in_order_perm|by apply vote_in_order_perm].
Qed.

Lemma majority_order_irrelevant_witness :
  committed_in_order [3; 1; 2] ex_acks = CommittedIndex (incoming ex_joint) ex_acks ∧
  vote_in_order [3; 1; 2] {[1 := true]} = MajorityVoteResult (incoming ex_joint) {[1 := true]}.
Proof.
  apply (majority_order_irrelevant (incoming ex_joint) ex_acks {[1 := true]} [3; 1; 2]).
  vm_decide.
Defined.

(** A joint vote is won iff the voters that said yes are a quorum of both
    halves; it is lost iff in one half the voters that did not say no are no
    longer a quorum; it is pending otherwise. *)
Theorem JointVoteResult_spec (c : JointConfig) (votes : gmap N bool) :
  (JointVoteResult c votes = VoteWon ↔ joint_quorum c (voted_yes votes)) ∧
  (JointVoteResult c votes = VoteLost ↔
     ¬ joint_quorum c (λ id, negb (bool_decide (votes !! id = Some false)))).
Proof. apply JointVoteResult_iff. Qed.

(** A decided vote stays decided: votes that arrive later (the recorded
    votes only ever grow) change neither a won nor a lost election. *)
Theorem JointVoteResult_stable (c : JointConfig) (votes votes' : gmap N bool) :
  votes ⊆ votes' → JointVoteResult c votes ≠ VotePending →
  JointVoteResult c votes' = JointVoteResult c votes.
Proof. apply JointVoteResult_grows. Qed.

Lemma JointVoteResult_stable_witness :
  JointVoteResult ex_joint {[2 := true; 3 := true; 4 := true; 1 := false]} = VoteWon.
Proof.
  rewrite (JointVoteResult_stable ex_joint {[2 := true; 3 := true; 4 := true]}).
  - vm_compute. reflexivity.
  - vm_decide.
  - vm_compute. discriminate.
Defined.

(** Two elections won under the same configuration share a voter. *)
Lemma wins_share_voter (c : JointConfig) (votes votes' : gmap N bool) :
  keys (incoming c) ≠ ∅ → JointVoteResult c votes = VoteWon → JointVoteResult c votes' = VoteWon →
  ∃ id, id ∈ IDs c ∧ votes !! id = Some true ∧ votes' !! id = Some true.
Proof.
  intros Hne [Hw _]%JointVoteResult_iff [Hw' _]%JointVoteResult_iff.
  destruct (quorum_of_overlap _ _ _ Hne Hw Hw') as (id & Hid & Hv & Hv').
  unfold voted_yes in *. apply bool_decide_eq_true in Hv, Hv'.
  exists id. unfold IDs. set_solver.
Qed.

(** C18: any two elections won under the same configuration share a voter that
    said yes in both, and so do an election and a committed index: every winner
    has a vote from a voter that acknowledged the index. *)
Theorem winning_quorums_intersect `{AckedIndexer L} (c : JointConfig)
    (votes votes' : gmap N bool) (l : L) (x : N) :
  keys (incoming c) ≠ ∅ → JointVoteResult c votes = VoteWon →
  (JointVoteResult c votes' = VoteWon →
     ∃ id, id ∈ IDs c ∧ votes !! id = Some true ∧ votes' !! id = Some true) ∧
  (x ≤ JointCommittedIndex c l → x ≤ maxUint64 →
     ∃ id, id ∈ IDs c ∧ votes !! id = Some true ∧ x ≤ acked l id).
Proof.
  intros Hne Hwon. split; [by apply wins_share_voter|].
  apply JointVoteResult_iff in Hwon as [Hw _].
  - intros Hx Hmax. apply (JointCommittedIndex_ge c l x Hmax) in Hx as [Ha _].
    destruct (quorum_of_overlap _ _ _ Hne Hw Ha) as (id & Hid & Hv & Hv').
    unfold voted_yes, has_acked in *. apply bool_decide_eq_true in Hv.
    apply N.leb_le in Hv'. exists id. unfold IDs. set_solver.
Qed.

Lemma winning_quorums_intersect_witness :
  ∃ id, id ∈ IDs ex_joint ∧ ({[2 := true; 3 := true; 4 := true]} : gmap N bool) !! id = Some true ∧
        4 ≤ acked ex_acks id.
Proof.
  apply (winning_quorums_intersect ex_joint {[2 := true; 3 := true; 4 := true]} ∅ ex_acks 4);
    vm_compute; try reflexivity; discriminate.
Defined.
