(* ===== verification/Inflights.v ===== *)
(** * The in-flight window (raft/protocol/tracker/inflights.go)

    [Inflights] is a ring buffer of the last indexes of the appends sent to a
    follower and not acknowledged yet; it grows by doubling up to its size.  The
    abstract specification is a FIFO queue ([contents]): [Add] enqueues, [FreeLE]
    dequeues the acknowledged prefix, [Full] says the queue has [size] elements,
    and the invariant [inflights_ok] excludes every out-of-range access. *)

From S2P Require Import Prelude.

(** [Inflights]; the four fields are Go [int]s and a [[]uint64]. *)
Record Inflights := MkInflights {
  in_start : Z;
  in_count : Z;
  in_size : Z;
  in_buffer : list N;
}.

#[export] Instance Inflights_eq_dec : EqDecision Inflights.
Proof. solve_decision. Defined.

Section Inflights_update.
Let rebuild (i : Inflights) : Inflights :=
  MkInflights (in_start i) (in_count i) (in_size i) (in_buffer i).
#[global] Instance upd_in_start : Update in_start := ltac:(update_of rebuild in_start).
#[global] Instance upd_in_count : Update in_count := ltac:(update_of rebuild in_count).
#[global] Instance upd_in_buffer : Update in_buffer := ltac:(update_of rebuild in_buffer).
End Inflights_update.

(** [NewInflights]. *)
Definition NewInflights (size : Z) : Inflights := MkInflights 0 0 size [].

(** [Inflights.Clone]: the copied buffer holds the same values. *)
Definition Clone (i : Inflights) : Inflights := i <| in_buffer := [] ++ in_buffer i |>.

(** [Inflights.Full] and [Inflights.Count]. *)
Definition Full (i : Inflights) : bool := (in_count i =? in_size i)%Z.
Definition Count (i : Inflights) : Z := in_count i.

(** [Inflights.grow]: [make] panics on a negative length, [copy] keeps the prefix. *)
Definition grow (i : Inflights) : outcome Inflights :=
  let doubled := i64 (lenZ (in_buffer i) * 2) in
  let newSize :=
    if (doubled =? 0)%Z then 1%Z
    else if (in_size i <? doubled)%Z then in_size i else doubled in
  if (newSize <? 0)%Z then Panic
  else
    let n := Z.to_nat newSize in
    let kept := take n (in_buffer i) in
    Ok (i <| in_buffer := kept ++ replicate (n - length kept) 0 |>).

(** [Inflights.Add]. *)
Definition Add (i : Inflights) (inflight : N) : outcome Inflights :=
  if Full i then Panic
  else
    let next0 := i64 (in_start i + in_count i) in
    let size := in_size i in
    let next := if (size <=? next0)%Z then i64 (next0 - size) else next0 in
    i1 ← (if (lenZ (in_buffer i) <=? next)%Z then grow i else Ok i);
    buf ← assignZ (in_buffer i1) next inflight;
    Ok (i1 <| in_buffer := buf |> <| in_count ::= λ c, i64 (c + 1) |>).

(** The loop of [Inflights.FreeLE]: [n] iterations are left, [k] are done, the
    scan is at slot [idx]; the result is the pair [(i, idx)] at its exit. *)
Fixpoint free_scan (i : Inflights) (to : N) (n : nat) (k idx : Z) : outcome (Z * Z) :=
  match n with
  | O => Ok (k, idx)
  | S n' =>
      x ← indexZ (in_buffer i) idx;
      if to <? x then Ok (k, idx)
      else
        let idx1 := i64 (idx + 1) in
        let idx2 := if (in_size i <=? idx1)%Z then i64 (idx1 - in_size i) else idx1 in
        free_scan i to n' (k + 1) idx2
  end.

(** [Inflights.FreeLE]. *)
Definition FreeLE (i : Inflights) (to : N) : outcome Inflights :=
  if (in_count i =? 0)%Z then Ok i
  else
    first ← indexZ (in_buffer i) (in_start i);
    if to <? first then Ok i
    else
      '(k, idx) ← free_scan i to (Z.to_nat (in_count i)) 0 (in_start i);
      let i1 := i <| in_count ::= λ c, i64 (c - k) |> <| in_start := idx |> in
      if (in_count i1 =? 0)%Z then Ok (i1 <| in_start := 0%Z |>) else Ok i1.

(** [Inflights.FreeFirstOne]. *)
Definition FreeFirstOne (i : Inflights) : outcome Inflights :=
  first ← indexZ (in_buffer i) (in_start i); FreeLE i first.

(** [Inflights.reset]. *)
Definition reset_inflights (i : Inflights) : Inflights :=
  i <| in_count := 0%Z |> <| in_start := 0%Z |>.

(** ** The abstract queue *)

(** The buffer slot of the [k]-th in-flight message. *)
Definition slot (i : Inflights) (k : Z) : Z :=
  let p := (in_start i + k)%Z in if (in_size i <=? p)%Z then (p - in_size i)%Z else p.

Definition in_flight (i : Inflights) (k : nat) : N :=
  default 0 (in_buffer i !! Z.to_nat (slot i (Z.of_nat k))).

(** The in-flight messages, oldest first. *)
Definition contents (i : Inflights) : list N :=
  map (in_flight i) (seq 0 (Z.to_nat (in_count i))).

(** What [FreeLE] removes: the longest prefix of elements up to [to]. *)
Fixpoint drop_le (to : N) (l : list N) : list N :=
  match l with
  | [] => []
  | x :: l' => if to <? x then l else drop_le to l'
  end.

(** The well-formedness invariant.  Until the buffer has reached its full size
    the window does not wrap; sizes are bounded so that the sums of two [int]s
    do not overflow. *)
Record inflights_ok (i : Inflights) : Prop := {
  ok_start : (0 ≤ in_start i)%Z;
  ok_count : (0 ≤ in_count i ≤ in_size i)%Z;
  ok_size : (in_size i < 4611686018427387904)%Z; (* 2^62 *)
  ok_buffer : (lenZ (in_buffer i) ≤ in_size i)%Z;
  ok_nowrap : (lenZ (in_buffer i) < in_size i →
               in_start i + in_count i ≤ lenZ (in_buffer i))%Z;
  ok_inside : (0 < in_count i → in_start i < lenZ (in_buffer i))%Z;
  ok_empty : in_count i = 0%Z → in_start i = 0%Z;
}.

(** ** The ring buffer implements the queue *)

Section Refinement.
Context (i : Inflights) (Hok : inflights_ok i).

Lemma slot_inside k : (0 ≤ k < in_count i)%Z → (0 ≤ slot i k < lenZ (in_buffer i))%Z.
Proof using Hok.
  intros Hk. destruct Hok. unfold slot. cbv zeta.
  destruct (Z.leb_spec (in_size i) (in_start i + k)); lia.
Qed.

Lemma slot_next k :
  (0 ≤ k < in_count i)%Z →
  slot i (k + 1) =
    let idx1 := (slot i k + 1)%Z in
    if (in_size i <=? idx1)%Z then (idx1 - in_size i)%Z else idx1.
Proof using Hok.
  intros Hk. destruct Hok. unfold slot. cbv zeta.
  repeat match goal with |- context [Z.leb ?a ?b] => destruct (Z.leb_spec a b) end; lia.
Qed.

Lemma indexZ_slot k :
  (k < Z.to_nat (in_count i))%nat →
  indexZ (in_buffer i) (slot i (Z.of_nat k)) = Ok (in_flight i k).
Proof using Hok.
  intros Hk. pose proof (slot_inside (Z.of_nat k) ltac:(lia)) as [Hlo Hhi].
  unfold indexZ, in_flight. rewrite bool_decide_eq_true_2 by done.
  destruct (lookup_lt_is_Some_2 (in_buffer i) (Z.to_nat (slot i (Z.of_nat k)))) as [x ->]; [|done].
  unfold lenZ in *. lia.
Qed.

Lemma slot_0 : (0 < in_count i)%Z → slot i 0 = in_start i.
Proof using Hok.
  intros H. destruct Hok. unfold slot. cbv zeta. rewrite Z.add_0_r.
  destruct (Z.leb_spec (in_size i) (in_start i)); lia.
Qed.

Lemma indexZ_start :
  (0 < in_count i)%Z → indexZ (in_buffer i) (in_start i) = Ok (in_flight i 0).
Proof using Hok.
  intros H. rewrite <- slot_0 by done. apply (indexZ_slot 0). lia.
Qed.

Lemma free_scan_spec to n k :
  (k + n)%nat = Z.to_nat (in_count i) →
  ∃ k', (k ≤ k' ≤ k + n)%nat ∧
    free_scan i to n (Z.of_nat k) (slot i (Z.of_nat k))
      = Ok (Z.of_nat k', slot i (Z.of_nat k')) ∧
    drop_le to (map (in_flight i) (seq k n)) = map (in_flight i) (seq k' (k + n - k')).
Proof using Hok.
  revert k. induction n as [|n IH]; intros k Hk.
  { exists k. rewrite Nat.add_0_r, Nat.sub_diag. cbn. split_and!; [lia..|done|done]. }
  cbn [free_scan seq map drop_le].
  rewrite indexZ_slot by lia. cbn [mbind outcome_bind].
  destruct (to <? in_flight i k).
  { exists k. split_and!; [lia..|done|]. by replace (k + S n - k)%nat with (S n) by lia. }
  destruct (IH (S k)) as (k' & Hk' & Hscan & Hdrop); [lia|].
  exists k'. split_and!; [lia..| |by replace (k + S n - k')%nat with (S k + n - k')%nat by lia].
  pose proof (slot_inside (Z.of_nat k) ltac:(lia)). pose proof (slot_next (Z.of_nat k) ltac:(lia)) as Hn.
  destruct Hok. rewrite (i64_small (slot i (Z.of_nat k) + 1)) by (unfold two63z in *; lia).
  rewrite i64_small by (unfold two63z in *; lia). cbv zeta in Hn. rewrite <- Hn.
  by replace (Z.of_nat k + 1)%Z with (Z.of_nat (S k)) by lia.
Qed.

(** The state after freeing the first [k] messages. *)
Lemma freed_ok (k : nat) j :
  (k ≤ Z.to_nat (in_count i))%nat →
  j = MkInflights (slot i (Z.of_nat k)) (in_count i - Z.of_nat k) (in_size i) (in_buffer i) →
  (in_count j ≠ 0%Z → inflights_ok j) ∧
  contents j = map (in_flight i) (seq k (Z.to_nat (in_count i) - k)).
Proof using Hok.
  intros Hk ->. split.
  - intros Hne. cbn in Hne. pose proof (ok_count i Hok). pose proof (slot_inside (Z.of_nat k) ltac:(lia)) as Hin.
    destruct Hok. split; cbn; try lia. intros Hlt. specialize (ok_nowrap0 Hlt).
    unfold slot. cbv zeta. destruct (Z.leb_spec (in_size i) (in_start i + Z.of_nat k)); lia.
  - unfold contents. cbn [in_count].
    replace (Z.to_nat (in_count i - Z.of_nat k)) with (Z.to_nat (in_count i) - k)%nat by lia.
    replace (seq k (Z.to_nat (in_count i) - k))
      with (map (Nat.add k) (seq 0 (Z.to_nat (in_count i) - k)))
      by (etrans; [apply fmap_add_seq|by rewrite Nat.add_0_r]).
    rewrite List.map_map. apply List.map_ext_in. intros x Hx%List.in_seq.
    unfold in_flight. f_equal. f_equal. f_equal. unfold slot. cbn. destruct Hok.
    repeat match goal with |- context [Z.leb ?a ?b] => destruct (Z.leb_spec a b) end; lia.
Qed.
End Refinement.

Lemma contents_length i : inflights_ok i → lenZ (contents i) = in_count i.
Proof.
  intros [? ? _ _ _ _ _]. unfold lenZ, contents. rewrite length_map, length_seq. lia.
Qed.

Lemma NewInflights_ok size :
  (0 ≤ size < 4611686018427387904)%Z → inflights_ok (NewInflights size).
Proof. intros H. split; unfold lenZ; cbn; lia. Qed.

Lemma reset_ok i : inflights_ok i → inflights_ok (reset_inflights i).
Proof. intros []. split; cbn; lia. Qed.

Lemma contents_reset i : contents (reset_inflights i) = [].
Proof. done. Qed.

(** Growing keeps the contents and makes room for one more element. *)
Lemma grow_spec i :
  inflights_ok i → (lenZ (in_buffer i) < in_size i)%Z →
  ∃ t, grow i = Ok (i <| in_buffer := in_buffer i ++ t |>) ∧
    (0 < lenZ t)%Z ∧ (lenZ (in_buffer i ++ t) ≤ in_size i)%Z.
Proof.
  intros Hok Hlt. destruct Hok. unfold grow.
  rewrite (i64_small (lenZ (in_buffer i) * 2)) by (unfold two63z, lenZ in *; lia).
  set (n := lenZ (in_buffer i)) in *.
  assert (Hn : (0 ≤ n)%Z) by (unfold n, lenZ; lia). cbv zeta.
  set (newSize := if (n * 2 =? 0)%Z then _ else _).
  assert (Hnew : (n < newSize ≤ in_size i)%Z).
  { unfold newSize. destruct (Z.eqb_spec (n * 2) 0), (Z.ltb_spec (in_size i) (n * 2)); lia. }
  clearbody newSize. destruct (Z.ltb_spec newSize 0); [lia|].
  rewrite take_ge by (unfold n, lenZ in *; lia).
  eexists. split; [done|]. unfold n, lenZ in *. rewrite length_app, length_replicate. lia.
Qed.

(** Appending to the buffer does not change the queue. *)
Lemma in_flight_app i t k :
  inflights_ok i → (k < Z.to_nat (in_count i))%nat →
  in_flight (i <| in_buffer := in_buffer i ++ t |>) k = in_flight i k.
Proof.
  intros Hok Hk. unfold in_flight. cbn. change (slot (i <| in_buffer := _ |>)) with (slot i).
  pose proof (slot_inside i Hok (Z.of_nat k) ltac:(lia)).
  rewrite lookup_app_l; [done|]. unfold lenZ in *. lia.
Qed.

Lemma slot_fresh i k :
  inflights_ok i → (0 ≤ k < in_count i)%Z → (in_count i < in_size i)%Z →
  slot i k ≠ slot i (in_count i).
Proof.
  intros Hok Hk Hlt. destruct Hok. unfold slot. cbv zeta.
  repeat match goal with |- context [Z.leb ?a ?b] => destruct (Z.leb_spec a b) end; lia.
Qed.

(** Writing the next slot of a buffer that has it enqueues the value. *)
Lemma enqueue_spec i buf x :
  inflights_ok i → (in_count i < in_size i)%Z →
  (∃ t, buf = in_buffer i ++ t) → (slot i (in_count i) < lenZ buf ≤ in_size i)%Z →
  let i' := i <| in_buffer := <[Z.to_nat (slot i (in_count i)) := x]> buf |>
              <| in_count := (in_count i + 1)%Z |> in
  inflights_ok i' ∧ contents i' = contents i ++ [x].
Proof.
  intros Hok Hfull [t ->] Hslot i'.
  assert (Hpos : (0 ≤ slot i (in_count i))%Z).
  { destruct Hok. unfold slot. cbv zeta.
    destruct (Z.leb_spec (in_size i) (in_start i + in_count i)); lia. }
  split.
  - destruct Hok. split; cbn; unfold lenZ in *; rewrite ?length_insert, ?length_app in *; try lia;
      unfold slot in Hslot; cbv zeta in Hslot;
      destruct (Z.leb_spec (in_size i) (in_start i + in_count i)); lia.
  - destruct (ok_count i Hok) as [Hc _]. unfold contents. cbn [in_count i' update upd_in_count].
    replace (Z.to_nat (in_count i + 1)) with (S (Z.to_nat (in_count i))) by lia.
    rewrite seq_S, List.map_app. cbn [map Nat.add]. f_equal.
    + apply List.map_ext_in. intros k Hk%List.in_seq.
      rewrite <- (in_flight_app i t) by (done || lia). unfold in_flight. cbn.
      change (slot i') with (slot i). change (slot (i <| in_buffer := _ |>)) with (slot i).
      rewrite list_lookup_insert_ne; [done|].
      pose proof (slot_inside i Hok (Z.of_nat k) ltac:(lia)).
      pose proof (slot_fresh i (Z.of_nat k) Hok ltac:(lia) Hfull). lia.
    + unfold in_flight. cbn. change (slot i') with (slot i). rewrite Z2Nat.id by lia.
      rewrite list_lookup_insert_eq; [done|]. unfold lenZ in Hslot. lia.
Qed.

(** ** Properties *)

(** On a window that is not full [Add] enqueues the index; on a full one it panics. *)
Lemma Add_valid (i : Inflights) (x : N) :
  inflights_ok i →
  if Full i then Add i x = Panic
  else ∃ i', Add i x = Ok i' ∧ inflights_ok i' ∧ in_size i' = in_size i ∧
             contents i' = contents i ++ [x].
Proof.
  intros Hok. unfold Add. destruct (Full i) eqn:Hfull; [done|].
  unfold Full in Hfull. apply Z.eqb_neq in Hfull.
  pose proof (ok_count i Hok) as Hcount. pose proof (ok_start i Hok) as Hstart.
  pose proof (ok_size i Hok) as Hsize. pose proof (ok_buffer i Hok) as Hbuf.
  assert (Hs : (in_start i ≤ in_size i)%Z).
  { destruct Hok. destruct (decide (in_count i = 0%Z)); lia. }
  rewrite (i64_small (in_start i + in_count i)) by (unfold two63z; lia).
  rewrite (i64_small (in_start i + in_count i - in_size i)) by (unfold two63z; lia).
  cbv zeta. change (if (in_size i <=? in_start i + in_count i)%Z then _ else _)
    with (slot i (in_count i)).
  assert (∃ t, (if (lenZ (in_buffer i) <=? slot i (in_count i))%Z then grow i else Ok i)
      = Ok (i <| in_buffer := in_buffer i ++ t |>) ∧
      (0 ≤ slot i (in_count i) < lenZ (in_buffer i ++ t))%Z ∧
      (lenZ (in_buffer i ++ t) ≤ in_size i)%Z) as (t & -> & Hslot & Hlen).
  { assert (Hcases : (lenZ (in_buffer i) ≤ slot i (in_count i) →
        lenZ (in_buffer i) < in_size i ∧ slot i (in_count i) = lenZ (in_buffer i))%Z ∧
        (0 ≤ slot i (in_count i))%Z).
    { destruct Hok. unfold slot. cbv zeta.
      destruct (Z.leb_spec (in_size i) (in_start i + in_count i)); lia. }
    destruct (Z.leb_spec (lenZ (in_buffer i)) (slot i (in_count i))).
    - destruct (grow_spec i Hok) as (t & Hg & Ht & Hlen); [lia|]. exists t.
      unfold lenZ in *. rewrite length_app in *. split_and!; [done|lia..].
    - exists []. rewrite app_nil_r. split_and!; [by destruct i|lia..]. }
  cbn [mbind outcome_bind]. unfold assignZ. cbn [in_buffer update upd_in_buffer].
  rewrite bool_decide_eq_true_2 by lia. cbn [mbind outcome_bind].
  destruct (enqueue_spec i (in_buffer i ++ t) x Hok) as [Hok' Hcont]; [lia|by exists t|lia|].
  eexists. split_and!; [|exact Hok'|done|exact Hcont].
  unfold update, upd_in_count, upd_in_buffer. cbn. by rewrite i64_small by (unfold two63z; lia).
Qed.

(** A window of size 4 holding 6 and 7, with a wrapped-around slot free. *)
Definition ex_window : Inflights := MkInflights 2 2 4 [4; 5; 6; 7].
Lemma ex_window_ok : inflights_ok ex_window.
Proof. split; vm_compute; try done; by split. Qed.

(** [FreeLE] dequeues the longest prefix of elements that are at most [to]. *)
Lemma FreeLE_valid (i : Inflights) (to : N) :
  inflights_ok i →
  ∃ i', FreeLE i to = Ok i' ∧ inflights_ok i' ∧ in_size i' = in_size i ∧
        contents i' = drop_le to (contents i).
Proof.
  intros Hok. unfold FreeLE. pose proof (ok_count i Hok) as Hcount.
  destruct (Z.eqb_spec (in_count i) 0) as [H0|Hne].
  { exists i. split_and!; [done..|]. unfold contents. by rewrite H0. }
  rewrite indexZ_start by (done || lia). cbn [mbind outcome_bind]. destruct (to <? in_flight i 0) eqn:Hto.
  { exists i. split_and!; [done..|]. unfold contents.
    destruct (Z.to_nat (in_count i)) eqn:E; [lia|]. cbn. by rewrite Hto. }
  destruct (free_scan_spec i Hok to (Z.to_nat (in_count i)) 0) as (k & Hk & Hscan & Hdrop); [done|].
  change (Z.of_nat 0) with 0%Z in Hscan. rewrite (slot_0 i Hok ltac:(lia)) in Hscan. rewrite Hscan.
  cbn [mbind outcome_bind]. pose proof (ok_size i Hok).
  set (i1 := MkInflights (slot i (Z.of_nat k)) (in_count i - Z.of_nat k) (in_size i) (in_buffer i)).
  replace (i <| in_count ::= _ |> <| in_start := _ |>) with i1
    by (unfold update, upd_in_count, upd_in_start; cbn; by rewrite i64_small by (unfold two63z; lia)).
  destruct (freed_ok i Hok k i1 ltac:(lia) eq_refl) as [Hok' Hcont].
  fold (contents i) in Hdrop. rewrite Hdrop. cbv zeta.
  destruct (Z.eqb_spec (in_count i1) 0) as [Hz|Hnz].
  - exists (i1 <| in_start := 0%Z |>). cbn in Hz. split_and!; [done| |done|].
    + destruct Hok. split; cbn; lia.
    + unfold contents. cbn. rewrite Hz.
      by replace (Z.to_nat (in_count i) - k)%nat with 0%nat by lia.
  - exists i1. split_and!; [done|by apply Hok'|done|exact Hcont].
Qed.

(** On a window that holds a message [FreeFirstOne] dequeues it, with every later
    element that is not larger; on an empty window it depends on the buffer. *)
Lemma FreeFirstOne_valid (i : Inflights) :
  inflights_ok i →
  match contents i with
  | x :: l => ∃ i', FreeFirstOne i = Ok i' ∧ inflights_ok i' ∧ in_size i' = in_size i ∧
              contents i' = drop_le x l
  | [] => if decide (in_buffer i = []) then FreeFirstOne i = Panic else FreeFirstOne i = Ok i
  end.
Proof.
  intros Hok. pose proof (ok_count i Hok). destruct (contents i) as [|x l] eqn:Hc.
  - assert (Hz : in_count i = 0%Z).
    { pose proof (contents_length i Hok) as Hl. rewrite Hc in Hl. unfold lenZ in Hl. cbn in Hl. lia. }
    unfold FreeFirstOne. rewrite (ok_empty i Hok Hz).
    destruct (in_buffer i) as [|y buf] eqn:Hb; cbn; [done|].
    unfold FreeLE. by rewrite Hz.
  - destruct (FreeLE_valid i x Hok) as (i' & Hf & Hok' & Hs' & Hc').
    exists i'. rewrite Hc in Hc'. cbn in Hc'. rewrite N.ltb_irrefl in Hc'.
    split_and!; [|done..]. unfold FreeFirstOne.
    assert (0 < Z.to_nat (in_count i))%nat.
    { pose proof (contents_length i Hok) as Hl. rewrite Hc in Hl. unfold lenZ in Hl. cbn in Hl. lia. }
    rewrite indexZ_start by (done || lia). cbn. unfold contents in Hc.
    destruct (Z.to_nat (in_count i)); [lia|]. cbn in Hc. by simplify_eq.
Qed.

(** C38: The window refines a bounded FIFO queue.  [Count] and [Full] tell its length
    and whether it has reached its size.  [Add] enqueues, and panics on a full
    window only.  [FreeLE] removes exactly the longest prefix whose elements are at
    most [to].  [FreeFirstOne] removes the first element, with every later one that
    is not larger; on an empty window it does nothing, except that it panics with
    an index out of range if the buffer was never allocated, although it is
    documented as a no-op when nothing is in flight.  [reset] empties the queue.
    No other access of the ring buffer is out of range, and the invariant is kept. *)
Theorem window_refines_queue (i : Inflights) (x to : N) :
  inflights_ok i → let q := contents i in
  Count i = lenZ q ∧ Full i = bool_decide (lenZ q = in_size i) ∧
  (if Full i then Add i x = Panic
   else ∃ i', Add i x = Ok i' ∧ inflights_ok i' ∧ in_size i' = in_size i ∧ contents i' = q ++ [x]) ∧
  (∃ i', FreeLE i to = Ok i' ∧ inflights_ok i' ∧ in_size i' = in_size i ∧
         contents i' = drop_le to q) ∧
  (match q with
   | y :: l => ∃ i', FreeFirstOne i = Ok i' ∧ inflights_ok i' ∧ in_size i' = in_size i ∧
                 contents i' = drop_le y l
   | [] => FreeFirstOne i = if decide (in_buffer i = []) then Panic else Ok i
   end) ∧
  inflights_ok (reset_inflights i) ∧ contents (reset_inflights i) = [].
Proof.
  intros Hok q. pose proof (contents_length i Hok) as Hl. fold q in Hl.
  split; [by unfold Count|]. split.
  { unfold Full. rewrite Hl. symmetry. destruct (Z.eqb_spec (in_count i) (in_size i));
    [by apply bool_decide_eq_true_2|by apply bool_decide_eq_false_2]. }
  split; [by apply Add_valid|]. split; [by apply FreeLE_valid|].
  split; [|split; [by apply reset_ok|done]].
  pose proof (FreeFirstOne_valid i Hok) as Hf. fold q in Hf. destruct q; [by destruct (decide _)|done].
Qed.

Lemma window_refines_queue_witness :
  ∃ i1 i2 i3, Add ex_window 8 = Ok i1 ∧ contents i1 = [6; 7; 8] ∧
    FreeLE ex_window 6 = Ok i2 ∧ contents i2 = [7] ∧
    FreeFirstOne ex_window = Ok i3 ∧ contents i3 = [7].
Proof.
  destruct (window_refines_queue ex_window 8 6 ex_window_ok)
    as (_ & _ & (i1 & H1 & _ & _ & C1) & (i2 & H2 & _ & _ & C2) & (i3 & H3 & _ & _ & C3) & _).
  exists i1, i2, i3. split; [exact H1|]. split; [exact C1|]. split; [exact H2|]. split; [exact C2|].
  split; [exact H3|exact C3].
Defined.
