(* ===== verification/Progress.v ===== *)
(** * The progress of a follower (raft/protocol/tracker/progress.go, state.go)

    [Progress] is the leader's view of a follower.  Its transitions, the
    flow-control test [IsPaused], and the invariant its states share. *)

From S2P Require Import Prelude Inflights.

(** [StateType] (state.go). *)
Inductive StateType : Set := StateProbe | StateReplicate | StateSnapshot.
#[export] Instance StateType_eq_dec : EqDecision StateType.
Proof. solve_decision. Defined.

(** [StateType.String] and [prstmap] (state.go). *)
Definition StateType_String (st : StateType) : string :=
  match st with
  | StateProbe => "StateProbe"
  | StateReplicate => "StateReplicate"
  | StateSnapshot => "StateSnapshot"
  end.

(** [Progress].  The [*Inflights] pointer is never shared by two live [Progress]
    values, so the window is a value here. *)
Record Progress := MkProgress {
  pr_Match : N;
  pr_Next : N;
  pr_State : StateType;
  pr_PendingSnapshot : N;
  pr_RecentActive : bool;
  pr_ProbeSent : bool;
  pr_Inflights : Inflights;
  pr_IsLearner : bool;
}.
#[export] Instance Progress_eq_dec : EqDecision Progress.
Proof. solve_decision. Defined.

Section Progress_update.
Let rebuild (p : Progress) : Progress :=
  MkProgress (pr_Match p) (pr_Next p) (pr_State p) (pr_PendingSnapshot p)
    (pr_RecentActive p) (pr_ProbeSent p) (pr_Inflights p) (pr_IsLearner p).
#[global] Instance upd_pr_Match : Update pr_Match := ltac:(update_of rebuild pr_Match).
#[global] Instance upd_pr_Next : Update pr_Next := ltac:(update_of rebuild pr_Next).
#[global] Instance upd_pr_State : Update pr_State := ltac:(update_of rebuild pr_State).
#[global] Instance upd_pr_PendingSnapshot : Update pr_PendingSnapshot :=
  ltac:(update_of rebuild pr_PendingSnapshot).
#[global] Instance upd_pr_RecentActive : Update pr_RecentActive :=
  ltac:(update_of rebuild pr_RecentActive).
#[global] Instance upd_pr_ProbeSent : Update pr_ProbeSent :=
  ltac:(update_of rebuild pr_ProbeSent).
#[global] Instance upd_pr_Inflights : Update pr_Inflights :=
  ltac:(update_of rebuild pr_Inflights).
#[global] Instance upd_pr_IsLearner : Update pr_IsLearner :=
  ltac:(update_of rebuild pr_IsLearner).
End Progress_update.

(** [max] and [min] (progress.go). *)
Definition max (a b : N) : N := if b <? a then a else b.
Definition min (a b : N) : N := if b <? a then b else a.

(** [Progress.ResetState]. *)
Definition ResetState (pr : Progress) (st : StateType) : Progress :=
  pr <| pr_ProbeSent := false |> <| pr_PendingSnapshot := 0 |> <| pr_State := st |>
     <| pr_Inflights ::= reset_inflights |>.

(** [Progress.ProbeAcked]. *)
Definition ProbeAcked (pr : Progress) : Progress := pr <| pr_ProbeSent := false |>.

(** [Progress.BecomeProbe]. *)
Definition BecomeProbe (pr : Progress) : Progress :=
  if decide (pr_State pr = StateSnapshot) then
    let pendingSnapshot := pr_PendingSnapshot pr in
    let pr1 := ResetState pr StateProbe in
    pr1 <| pr_Next := max (pr_Match pr1 +u 1) (pendingSnapshot +u 1) |>
  else
    let pr1 := ResetState pr StateProbe in
    pr1 <| pr_Next := pr_Match pr1 +u 1 |>.

(** [Progress.BecomeReplicate]. *)
Definition BecomeReplicate (pr : Progress) : Progress :=
  let pr1 := ResetState pr StateReplicate in pr1 <| pr_Next := pr_Match pr1 +u 1 |>.

(** [Progress.BecomeSnapshot]. *)
Definition BecomeSnapshot (pr : Progress) (snapshoti : N) : Progress :=
  let pr1 := ResetState pr StateSnapshot in pr1 <| pr_PendingSnapshot := snapshoti |>.

(** [Progress.MaybeUpdate]. *)
Definition MaybeUpdate (pr : Progress) (n : N) : bool * Progress :=
  let updated := pr_Match pr <? n in
  let pr1 := if updated then ProbeAcked (pr <| pr_Match := n |>) else pr in
  (updated, pr1 <| pr_Next := max (pr_Next pr1) (n +u 1) |>).

(** [Progress.OptimisticUpdate]. *)
Definition OptimisticUpdate (pr : Progress) (n : N) : Progress := pr <| pr_Next := n +u 1 |>.

(** [Progress.MaybeDecrTo]. *)
Definition MaybeDecrTo (pr : Progress) (rejected matchHint : N) : bool * Progress :=
  if decide (pr_State pr = StateReplicate) then
    if rejected <=? pr_Match pr then (false, pr)
    else (true, pr <| pr_Next := pr_Match pr +u 1 |>)
  else if negb (pr_Next pr -u 1 =? rejected) then (false, pr)
  else (true, pr <| pr_Next := max (min rejected (matchHint +u 1)) 1 |>
                 <| pr_ProbeSent := false |>).

(** [Progress.IsPaused]; the [default] branch needs a state outside the three. *)
Definition IsPaused (pr : Progress) : bool :=
  match pr_State pr with
  | StateProbe => pr_ProbeSent pr
  | StateReplicate => Full (pr_Inflights pr)
  | StateSnapshot => true
  end.

Lemma max_spec a b : max a b = N.max a b.
Proof. unfold max. destruct (N.ltb_spec b a); lia. Qed.
Lemma min_spec a b : min a b = N.min a b.
Proof. unfold min. destruct (N.ltb_spec b a); lia. Qed.

(** ** The invariant of a progress

    Every state keeps a well-formed window and a next index of at least 1, only a
    follower being sent a snapshot has a pending snapshot, only a replicating
    follower has messages in flight, and a replicating follower is never sent
    what it is known to have. *)
Record progress_ok (pr : Progress) : Prop := {
  pok_inflights : inflights_ok (pr_Inflights pr);
  pok_next : 1 ≤ pr_Next pr;
  pok_replicate : pr_State pr = StateReplicate → pr_Match pr < pr_Next pr;
  pok_pending : pr_State pr ≠ StateSnapshot → pr_PendingSnapshot pr = 0;
  pok_window : pr_State pr ≠ StateReplicate → contents (pr_Inflights pr) = [];
  pok_match : pr_Match pr < maxUint64;
}.

#[export] Hint Resolve reset_ok : raft.

Lemma ResetState_ok pr st :
  inflights_ok (pr_Inflights pr) →
  inflights_ok (pr_Inflights (ResetState pr st)) ∧ contents (pr_Inflights (ResetState pr st)) = [].
Proof. intros H. split; [by apply reset_ok|done]. Qed.

(** ** The transitions keep the invariant *)

Section Transitions.
Context (pr : Progress) (Hok : progress_ok pr).

Lemma BecomeProbe_ok : pr_PendingSnapshot pr < maxUint64 → progress_ok (BecomeProbe pr).
Proof using Hok.
  destruct Hok as [Hi Hnext Hrep Hpend Hwin Hm]. unfold maxUint64 in *. intros Hp.
  pose proof (reset_ok _ Hi). unfold BecomeProbe.
  case_decide; cbn; split; cbn; try done; rewrite ?max_spec; nowrap; lia.
Qed.

Lemma BecomeReplicate_ok : progress_ok (BecomeReplicate pr).
Proof using Hok.
  destruct Hok as [Hi Hnext Hrep Hpend Hwin Hm]. unfold maxUint64 in *.
  pose proof (reset_ok _ Hi). split; cbn; try done; nowrap; lia.
Qed.

Lemma BecomeSnapshot_ok n : progress_ok (BecomeSnapshot pr n).
Proof using Hok.
  destruct Hok as [Hi Hnext Hrep Hpend Hwin Hm]. pose proof (reset_ok _ Hi). split; cbn; done.
Qed.

Lemma MaybeUpdate_ok n : n < maxUint64 → progress_ok (MaybeUpdate pr n).2.
Proof using Hok.
  destruct Hok as [Hi Hnext Hrep Hpend Hwin Hm]. unfold maxUint64 in *. intros Hn.
  unfold MaybeUpdate. destruct (N.ltb_spec (pr_Match pr) n); split; cbn; try done;
    rewrite ?max_spec; nowrap; try lia. intros Hs. specialize (Hrep Hs). lia.
Qed.

Lemma MaybeDecrTo_ok rejected hint : progress_ok (MaybeDecrTo pr rejected hint).2.
Proof using Hok.
  destruct Hok as [Hi Hnext Hrep Hpend Hwin Hm]. unfold maxUint64 in *.
  unfold MaybeDecrTo. case_decide as Hs; [destruct (rejected <=? pr_Match pr)
    |destruct (pr_Next pr -u 1 =? rejected)]; cbn; split; cbn; try done;
    rewrite ?max_spec; try lia; nowrap; lia.
Qed.

Lemma OptimisticUpdate_ok n :
  pr_Match pr ≤ n → n < maxUint64 → progress_ok (OptimisticUpdate pr n).
Proof using Hok.
  destruct Hok as [Hi Hnext Hrep Hpend Hwin Hm]. unfold maxUint64 in *. intros Hle Hn.
  split; cbn; try done; nowrap; lia.
Qed.

(** A window of a replicating follower. *)
Lemma window_ok infl :
  pr_State pr = StateReplicate → inflights_ok infl → progress_ok (pr <| pr_Inflights := infl |>).
Proof using Hok.
  destruct Hok as [Hi Hnext Hrep Hpend Hwin Hm]. intros Hs Hinf. split; cbn; try done.
Qed.

(** The flags that the flow control sets. *)
Lemma flags_ok (active sent : bool) :
  progress_ok (pr <| pr_RecentActive := active |>) ∧ progress_ok (pr <| pr_ProbeSent := sent |>) ∧
  progress_ok (pr <| pr_RecentActive := active |> <| pr_ProbeSent := sent |>).
Proof using Hok. destruct Hok. split_and!; by split. Qed.
End Transitions.

(** C40: every transition of the follower state machine keeps the invariant of
    [Progress]: becoming a probe, a replicating or a snapshotting follower,
    recording an acknowledgement, a rejection or an optimistic send. *)
Theorem progress_transitions_ok (pr : Progress) (n rejected hint : N) :
  progress_ok pr → pr_PendingSnapshot pr < maxUint64 → n < maxUint64 →
  progress_ok (BecomeProbe pr) ∧ progress_ok (BecomeReplicate pr) ∧
  progress_ok (BecomeSnapshot pr n) ∧ progress_ok (snd (MaybeUpdate pr n)) ∧
  progress_ok (snd (MaybeDecrTo pr rejected hint)) ∧
  (pr_Match pr ≤ n → progress_ok (OptimisticUpdate pr n)).
Proof.
  intros Hok Hp Hn. split_and!.
  - by apply BecomeProbe_ok.
  - by apply BecomeReplicate_ok.
  - by apply BecomeSnapshot_ok.
  - by apply MaybeUpdate_ok.
  - by apply MaybeDecrTo_ok.
  - intros Hle. by apply OptimisticUpdate_ok.
Qed.

Definition ex_progress : Progress :=
  MkProgress 5 6 StateProbe 0 true true (NewInflights 4) false.
Lemma ex_progress_ok : progress_ok ex_progress.
Proof. split; by vm_compute. Qed.

Lemma progress_transitions_ok_witness :
  progress_ok (snd (MaybeUpdate ex_progress 9)) ∧ pr_Next (snd (MaybeUpdate ex_progress 9)) = 10.
Proof.
  split; [|vm_compute; reflexivity].
  apply (progress_transitions_ok ex_progress 9 0 0 ex_progress_ok); vm_compute; reflexivity.
Defined.

(** [MaybeUpdate] and [MaybeDecrTo] compute what they are documented to: an
    acknowledgement of [n] raises [Match] to at least [n] and [Next] above it,
    and reports whether it was news; a genuine rejection in the probing states
    resumes sending and strictly lowers [Next] (down to 1), so that probing
    makes progress; in [StateReplicate] it falls back to [Match+1]; every other
    rejection changes nothing. *)
Theorem progress_updates_spec (pr : Progress) (n rejected hint : N) :
  pr_Match pr < maxUint64 → n < maxUint64 → hint < maxUint64 →
  1 ≤ pr_Next pr → pr_Next pr ≤ maxUint64 →
  (let (b, pr') := MaybeUpdate pr n in
   b = bool_decide (pr_Match pr < n) ∧ pr_Match pr' = N.max (pr_Match pr) n ∧
   pr_Next pr' = N.max (pr_Next pr) (n + 1) ∧ (b = true → pr_ProbeSent pr' = false)) ∧
  (let (b, pr') := MaybeDecrTo pr rejected hint in
   pr_Match pr' = pr_Match pr ∧ pr_State pr' = pr_State pr ∧ (b = false → pr' = pr) ∧
   (b = true →
    if decide (pr_State pr = StateReplicate)
    then pr_Match pr < rejected ∧ pr_Next pr' = pr_Match pr + 1
    else rejected + 1 = pr_Next pr ∧ pr_ProbeSent pr' = false ∧
         pr_Next pr' = N.max 1 (N.min rejected (hint + 1)) ∧
         (1 < pr_Next pr → pr_Next pr' < pr_Next pr))).
Proof.
  unfold maxUint64. intros Hm Hn Hh Hnext Hmax. split.
  - unfold MaybeUpdate. rewrite !max_spec. nowrap.
    destruct (N.ltb_spec (pr_Match pr) n); cbn;
      split_and!; intros; try discriminate; try reflexivity; try lia;
      symmetry; first [apply bool_decide_eq_true_2|apply bool_decide_eq_false_2]; lia.
  - unfold MaybeDecrTo. rewrite max_spec, min_spec. nowrap.
    case_decide as Hs; [destruct (N.leb_spec rejected (pr_Match pr))
                       |destruct (N.eqb_spec (pr_Next pr - 1) rejected)]; cbn;
      split_and!; intros; try discriminate; try reflexivity; lia.
Qed.

Lemma progress_updates_spec_witness :
  let (b, pr') := MaybeDecrTo ex_progress 5 2 in b = true ∧ pr_Next pr' = 3.
Proof.
  destruct (progress_updates_spec ex_progress 9 5 2) as [_ H];
    [vm_compute; first [reflexivity|discriminate]..|].
  destruct (MaybeDecrTo ex_progress 5 2) as [b pr'] eqn:E. vm_compute in E.
  injection E as <- <-. split; [reflexivity|]. apply H. reflexivity.
Defined.

(** A probing follower's rejection of an index it is known to have acknowledged
    ([rejected = Match]) is not ignored as stale: it lowers [Next] to [Match] or
    below, although the documentation of [MaybeDecrTo] says that such a
    rejection returns false without changing the progress. *)
Theorem MaybeDecrTo_acknowledged :
  pr_Match ex_progress = 5 ∧ fst (MaybeDecrTo ex_progress 5 0) = true ∧
  pr_Next (snd (MaybeDecrTo ex_progress 5 0)) = 1.
Proof. by vm_compute. Qed.

(** A follower that just became a probe or replicating is not throttled. *)
Lemma IsPaused_after pr :
  progress_ok pr → (0 < in_size (pr_Inflights pr))%Z →
  IsPaused (BecomeProbe pr) = false ∧ IsPaused (BecomeReplicate pr) = false ∧
  IsPaused (BecomeSnapshot pr 0) = true.
Proof.
  intros Hok Hs. unfold BecomeProbe, IsPaused. split_and!; [by case_decide| |done].
  change (Full (reset_inflights (pr_Inflights pr)) = false).
  unfold Full. apply Z.eqb_neq. change (0 ≠ in_size (pr_Inflights pr))%Z. lia.
Qed.
