(* ===== verification/Tracker.v ===== *)
(** * The progress tracker (raft/protocol/tracker/tracker.go)

    The active configuration, the progress of every node in it, and the votes of
    the current election. *)

From S2P Require Import Prelude Pb Quorum Inflights Progress.

(** [Config]; the sets of learners are nil-able maps. *)
Record Config := MkConfig {
  Voters : JointConfig;
  AutoLeave : bool;
  Learners : option (gset N);
  LearnersNext : option (gset N);
}.

(** [ProgressTracker], with the embedded [Config].  The values of [Progress] are
    pointers in Go; no two entries of a map share one. *)
Record ProgressTracker := MkTracker {
  t_Config : Config;
  t_Progress : gmap N Progress;
  t_Votes : gmap N bool;
  t_MaxInflight : Z;
}.

Section Tracker_update.
Let rebuild_c (c : Config) : Config :=
  MkConfig (Voters c) (AutoLeave c) (Learners c) (LearnersNext c).
#[global] Instance upd_Voters : Update Voters := ltac:(update_of rebuild_c Voters).
#[global] Instance upd_AutoLeave : Update AutoLeave := ltac:(update_of rebuild_c AutoLeave).
#[global] Instance upd_Learners : Update Learners := ltac:(update_of rebuild_c Learners).
#[global] Instance upd_LearnersNext : Update LearnersNext :=
  ltac:(update_of rebuild_c LearnersNext).
Let rebuild_t (t : ProgressTracker) : ProgressTracker :=
  MkTracker (t_Config t) (t_Progress t) (t_Votes t) (t_MaxInflight t).
#[global] Instance upd_t_Config : Update t_Config := ltac:(update_of rebuild_t t_Config).
#[global] Instance upd_t_Progress : Update t_Progress := ltac:(update_of rebuild_t t_Progress).
#[global] Instance upd_t_Votes : Update t_Votes := ltac:(update_of rebuild_t t_Votes).
Let rebuild_j (j : JointConfig) : JointConfig := Joint (incoming j) (outgoing j).
#[global] Instance upd_incoming : Update incoming := ltac:(update_of rebuild_j incoming).
#[global] Instance upd_outgoing : Update outgoing := ltac:(update_of rebuild_j outgoing).
End Tracker_update.

(** [Config.Clone]: the nil maps stay nil; [AutoLeave] is not copied. *)
Definition Config_Clone (c : Config) : Config :=
  MkConfig (Joint (incoming (Voters c)) (outgoing (Voters c))) false (Learners c) (LearnersNext c).

(** [MakeProgressTracker]. *)
Definition MakeProgressTracker (maxInflight : Z) : ProgressTracker :=
  MkTracker (MkConfig (Joint (Some ∅) None) false None None) ∅ ∅ maxInflight.

(** [ProgressTracker.ConfState]. *)
Definition tracker_ConfState (p : ProgressTracker) : ConfState :=
  let c := t_Config p in
  MkConfState (Slice (incoming (Voters c))) (Slice (Learners c))
    (Slice (outgoing (Voters c))) (Slice (LearnersNext c)) (AutoLeave c).

(** [ProgressTracker.IsSingleton]. *)
Definition IsSingleton (p : ProgressTracker) : bool :=
  let v := Voters (t_Config p) in
  (size (keys (incoming v)) =? 1)%nat && (size (keys (outgoing v)) =? 0)%nat.

(** [matchAckIndexer.AckedIndex]. *)
#[export] Instance matchAckIndexer : AckedIndexer (gmap N Progress) := λ m id,
  pr_Match <$> m !! id.

(** [ProgressTracker.Committed]. *)
Definition Committed (p : ProgressTracker) : N :=
  JointCommittedIndex (Voters (t_Config p)) (t_Progress p).

(** [insertionSort] of package tracker, a copy of the one in package quorum. *)
Definition tracker_insertionSort (sl : list N) : list N :=
  foldl sift_down sl (seq 1 (length sl - 1)).

(** The order in which [ProgressTracker.Visit] calls its closure. *)
Definition Visit (p : ProgressTracker) : list N :=
  tracker_insertionSort (elements (dom (t_Progress p))).

(** The closure of [QuorumActive]. *)
Definition record_active (p : ProgressTracker) (votes : gmap N bool) (id : N) : gmap N bool :=
  match t_Progress p !! id with
  | Some pr => if pr_IsLearner pr then votes else <[id := pr_RecentActive pr]> votes
  | None => votes
  end.

(** [ProgressTracker.QuorumActive]. *)
Definition QuorumActive (p : ProgressTracker) : bool :=
  let votes := foldl (record_active p) ∅ (Visit p) in
  bool_decide (JointVoteResult (Voters (t_Config p)) votes = VoteWon).

(** [ProgressTracker.VoterNodes] and [ProgressTracker.LearnerNodes]. *)
Definition VoterNodes (p : ProgressTracker) : list N :=
  insertionSort (elements (IDs (Voters (t_Config p)))).
Definition LearnerNodes (p : ProgressTracker) : list N :=
  if (size (keys (Learners (t_Config p))) =? 0)%nat then []
  else insertionSort (elements (keys (Learners (t_Config p)))).

(** [ProgressTracker.ResetVotes] and [ProgressTracker.RecordVote]. *)
Definition ResetVotes (p : ProgressTracker) : ProgressTracker := p <| t_Votes := ∅ |>.
Definition RecordVote (p : ProgressTracker) (id : N) (v : bool) : ProgressTracker :=
  match t_Votes p !! id with
  | None => p <| t_Votes ::= <[id := v]> |>
  | Some _ => p
  end.

(** The loop body of [TallyVotes]: the pair is [(granted, rejected)]. *)
Definition tally_progress (votes : gmap N bool) (gr : nat * nat) (e : N * Progress) : nat * nat :=
  if pr_IsLearner e.2 then gr
  else match votes !! e.1 with
       | None => gr
       | Some true => (S gr.1, gr.2)
       | Some false => (gr.1, S gr.2)
       end.

(** [ProgressTracker.TallyVotes]. *)
Definition TallyVotes (p : ProgressTracker) : nat * nat * VoteResult :=
  let gr := foldl (tally_progress (t_Votes p)) (0%nat, 0%nat) (map_to_list (t_Progress p)) in
  (gr.1, gr.2, JointVoteResult (Voters (t_Config p)) (t_Votes p)).

(** ** Lemmas *)

Lemma tracker_insertionSort_eq sl : tracker_insertionSort sl = insertionSort sl.
Proof. done. Qed.

(** [Visit] calls its closure once per tracked node, in increasing order. *)
Lemma Visit_spec p : Visit p ≡ₚ elements (dom (t_Progress p)) ∧ Sorted N.le (Visit p).
Proof. apply insertionSort_spec. Qed.

Lemma elem_of_Visit p id : id ∈ Visit p ↔ is_Some (t_Progress p !! id).
Proof. rewrite (proj1 (Visit_spec p)), elem_of_elements. apply elem_of_dom. Qed.

Lemma NoDup_Visit p : NoDup (Visit p).
Proof. rewrite (proj1 (Visit_spec p)). apply NoDup_elements. Qed.

Lemma Slice_spec c : Slice c ≡ₚ elements (keys c) ∧ Sorted N.le (Slice c).
Proof. apply insertionSort_spec. Qed.

(** The vote [QuorumActive] casts for a node. *)
Definition active_vote (p : ProgressTracker) (id : N) : option bool :=
  pr ← t_Progress p !! id; if pr_IsLearner pr then None else Some (pr_RecentActive pr).

Lemma record_active_fold p ids votes id :
  foldl (record_active p) votes ids !! id =
  match decide (id ∈ ids), active_vote p id with
  | left _, Some b => Some b
  | _, _ => votes !! id
  end.
Proof.
  revert votes. induction ids as [|x ids IH]; intros votes; cbn [foldl].
  { rewrite decide_False by apply not_elem_of_nil. done. }
  rewrite IH. clear IH. destruct (decide (x = id)) as [->|Hne].
  - rewrite (decide_True _ _ (P := id ∈ id :: ids)) by left.
    unfold record_active, active_vote. destruct (t_Progress p !! id) as [pr|]; cbn.
    + destruct (pr_IsLearner pr); [by case_match|]. rewrite lookup_insert_eq. by case_match.
    + by case_match.
  - assert (record_active p votes x !! id = votes !! id) as ->.
    { unfold record_active. repeat case_match; [done| |done]. by rewrite lookup_insert_ne. }
    destruct (decide (id ∈ ids)), (decide (id ∈ x :: ids)) as [Hin|Hin]; try done.
    + exfalso. apply Hin. by right.
    + apply elem_of_cons in Hin as [|]; [congruence|done].
Qed.

(** ** Properties *)

(** The leader considers its quorum active iff the voters whose progress is
    marked recently active, learners excluded, form a joint quorum. *)
Theorem QuorumActive_spec (p : ProgressTracker) :
  QuorumActive p = true ↔
  joint_quorum (Voters (t_Config p)) (λ id, bool_decide (active_vote p id = Some true)).
Proof.
  unfold QuorumActive. rewrite bool_decide_eq_true, (proj1 (JointVoteResult_iff _ _)).
  assert (Heq : ∀ id, voted_yes (foldl (record_active p) ∅ (Visit p)) id =
                bool_decide (active_vote p id = Some true)).
  { intros id. unfold voted_yes. rewrite record_active_fold, lookup_empty.
    destruct (decide (id ∈ Visit p)) as [|Hn]; [by destruct (active_vote p id)|].
    rewrite elem_of_Visit in Hn. unfold active_vote.
    destruct (t_Progress p !! id); [by destruct Hn|done]. }
  unfold joint_quorum. split; intros [Ha Hb]; split;
    (eapply quorum_of_mono; [|eassumption]); intros id _; by rewrite Heq.
Qed.

(** [RecordVote] keeps every vote already recorded and records the first
    vote of a node only, so an election that [TallyVotes] declared won or lost
    keeps that outcome whatever votes arrive later; the recorded votes decide
    the outcome by the joint quorum rule. *)
Theorem RecordVote_first_wins (p : ProgressTracker) (id : N) (v : bool) :
  let p' := RecordVote p id v in
  t_Votes p' !! id = Some (default v (t_Votes p !! id)) ∧
  t_Votes p ⊆ t_Votes p' ∧ t_Config p' = t_Config p ∧ t_Progress p' = t_Progress p ∧
  (TallyVotes p).2 = JointVoteResult (Voters (t_Config p)) (t_Votes p) ∧
  ((TallyVotes p).2 ≠ VotePending → (TallyVotes p').2 = (TallyVotes p).2).
Proof.
  assert (Hsub : t_Votes p ⊆ t_Votes (RecordVote p id v)).
  { unfold RecordVote. destruct (t_Votes p !! id) eqn:E; [done|]. cbn. by apply insert_subseteq. }
  assert (Hcfg : t_Config (RecordVote p id v) = t_Config p).
  { unfold RecordVote. by destruct (t_Votes p !! id). }
  cbv zeta. split_and!; [| done | done | | done |].
  - unfold RecordVote. destruct (t_Votes p !! id) eqn:E; cbn; [done|]. apply lookup_insert_eq.
  - unfold RecordVote. by destruct (t_Votes p !! id).
  - cbn. intros Hdec. rewrite Hcfg. by apply JointVoteResult_grows.
Qed.

(** [TallyVotes] counts, among the non-learners being tracked, exactly the
    recorded yes votes and the recorded no votes. *)
Theorem TallyVotes_counts (p : ProgressTracker) :
  let voter v (e : N * Progress) :=
    negb (pr_IsLearner e.2) && bool_decide (t_Votes p !! e.1 = Some v) in
  (TallyVotes p).1 =
    (countb (voter true) (map_to_list (t_Progress p)),
     countb (voter false) (map_to_list (t_Progress p))).
Proof.
  intros voter. unfold TallyVotes. cbn [fst].
  assert (Hfold : ∀ l gr, foldl (tally_progress (t_Votes p)) gr l =
    ((gr.1 + countb (voter true) l)%nat, (gr.2 + countb (voter false) l)%nat)).
  { intros l. induction l as [|e l IH]; intros [g r]; cbn [foldl].
    - cbn. by rewrite !Nat.add_0_r.
    - rewrite IH, !countb_cons. unfold tally_progress, voter.
      destruct (pr_IsLearner e.2); cbn [negb andb fst snd]; [done|].
      destruct (t_Votes p !! e.1) as [[]|]; cbn [fst snd];
        f_equal; repeat case_bool_decide; simplify_eq; lia. }
  rewrite Hfold. done.
Qed.

(** The committed index is the largest index matched by a joint quorum. *)
Lemma Committed_spec p n :
  n ≤ maxUint64 →
  n ≤ Committed p ↔
  joint_quorum (Voters (t_Config p)) (λ id, n <=? default 0 (pr_Match <$> t_Progress p !! id)).
Proof. intros Hn. exact (JointCommittedIndex_ge _ (t_Progress p) n Hn). Qed.

(** [Config.Clone] loses [AutoLeave]: the status of a node in an auto-leaving
    joint configuration shows a configuration that is not auto-leaving. *)
Theorem Config_Clone_spec (c : Config) :
  Config_Clone c = c <| AutoLeave := false |> ∧ (Config_Clone c = c ↔ AutoLeave c = false).
Proof.
  split; [by destruct c as [[] ? ? ?]|].
  destruct c as [[] b ? ?]. cbn. unfold Config_Clone. cbn. split; [by intros [= ->]|by intros ->].
Qed.
