(* ===== verification/Confchange.v ===== *)
(** * Configuration changes (raft/protocol/confchange)

    The [Changer] applies single or joint configuration changes to a copy of the
    tracker's configuration; [Restore] rebuilds a configuration from a
    [ConfState].  Maps that the code distinguishes from nil are [option]s, so that
    writing to a nil map ([Panic]) and the nil checks of [checkInvariants] are
    part of the model.  The error messages are shortened. *)

From S2P Require Import Prelude Pb Quorum Inflights Progress Tracker.

Abbreviation ProgressMap := (gmap N Progress).

(** [Changer]. *)
Record Changer := MkChanger { ch_Tracker : ProgressTracker; ch_LastIndex : N }.

(** [nilAwareAdd] and [nilAwareDelete]. *)
Definition nilAwareAdd (m : option (gset N)) (id : N) : option (gset N) :=
  Some ({[id]} ∪ keys m).
Definition nilAwareDelete (m : option (gset N)) (id : N) : option (gset N) :=
  match m with
  | None => None
  | Some s => if (size (s ∖ {[id]}) =? 0)%nat then None else Some (s ∖ {[id]})
  end.

(** [incoming(cfg.Voters)[id] = struct{}{}] panics on a nil map;
    [delete(incoming(cfg.Voters), id)] does not. *)
Definition add_voter (cfg : Config) (id : N) : outcome Config :=
  match incoming (Voters cfg) with
  | None => Panic
  | Some s => Ok (cfg <| Voters ::= λ v, v <| incoming := Some ({[id]} ∪ s) |> |>)
  end.
Definition delete_voter (cfg : Config) (id : N) : Config :=
  cfg <| Voters ::= λ v, v <| incoming ::= λ m, (λ s, s ∖ {[id]}) <$> m |> |>.

(** [joint]. *)
Definition joint (cfg : Config) : bool := negb (size (keys (outgoing (Voters cfg))) =? 0)%nat.

(** [symdiff]: the size of the symmetric difference. *)
Definition symdiff (l r : option (gset N)) : nat :=
  (countb (λ id, bool_decide (id ∉ keys r)) (elements (keys l)) +
   countb (λ id, bool_decide (id ∉ keys l)) (elements (keys r)))%nat.

(** [prs[id].IsLearner]: a nil pointer dereference when there is no progress. *)
Definition is_learner (prs : ProgressMap) (id : N) : outcome bool :=
  match prs !! id with Some pr => Ok (pr_IsLearner pr) | None => Panic end.

Definition go_err {A} (msg : string) : outcome (result A) := Ok (Err (ErrMsg msg)).

(** The checks of [checkInvariants] on one id of [LearnersNext] and of [Learners]. *)
Definition check_next (cfg : Config) (prs : ProgressMap) (id : N) : outcome (result unit) :=
  if bool_decide (id ∉ keys (outgoing (Voters cfg)))
  then go_err "in LearnersNext, but not Voters[1]"
  else l ← is_learner prs id;
       if l : bool then go_err "in LearnersNext, but is already marked as learner"
       else Ok (Val tt).
Definition check_learner (cfg : Config) (prs : ProgressMap) (id : N) : outcome (result unit) :=
  if bool_decide (id ∈ keys (outgoing (Voters cfg))) then go_err "in Learners and Voters[1]"
  else if bool_decide (id ∈ keys (incoming (Voters cfg)))
  then go_err "in Learners and Voters[0]"
  else l ← is_learner prs id;
       if l : bool then Ok (Val tt) else go_err "in Learners, but is not marked as learner".

(** [checkInvariants]. *)
Definition checkInvariants (cfg : Config) (prs : ProgressMap) : outcome (result unit) :=
  _ ←? try_for [IDs (Voters cfg); keys (Learners cfg); keys (LearnersNext cfg)] (λ ids,
         try_for (elements ids) (λ id,
           match prs !! id with None => go_err "no progress" | Some _ => Ok (Val tt) end));
  _ ←? try_for (elements (keys (LearnersNext cfg))) (check_next cfg prs);
  _ ←? try_for (elements (keys (Learners cfg))) (check_learner cfg prs);
  if joint cfg then Ok (Val tt)
  else if bool_decide (outgoing (Voters cfg) ≠ None)
  then go_err "cfg.Voters[1] must be nil when not joint"
  else if bool_decide (LearnersNext cfg ≠ None)
  then go_err "cfg.LearnersNext must be nil when not joint"
  else if AutoLeave cfg then go_err "AutoLeave must be false when not joint"
  else Ok (Val tt).

(** [checkAndReturn]. *)
Definition checkAndReturn (cfg : Config) (prs : ProgressMap) :
    outcome (result (Config * ProgressMap)) :=
  _ ←? checkInvariants cfg prs; Ok (Val (cfg, prs)).

(** [Changer.checkAndCopy]: the copies are the values themselves. *)
Definition checkAndCopy (c : Changer) : outcome (result (Config * ProgressMap)) :=
  checkAndReturn (Config_Clone (t_Config (ch_Tracker c))) (t_Progress (ch_Tracker c)).

(** [Changer.initProgress]. *)
Definition initProgress (c : Changer) (cfg : Config) (prs : ProgressMap) (id : N)
    (isLearner : bool) : outcome (Config * ProgressMap) :=
  cfg' ← (if isLearner then Ok (cfg <| Learners ::= λ m, nilAwareAdd m id |>)
          else add_voter cfg id);
  let pr := MkProgress 0 (ch_LastIndex c) StateProbe 0 true false
              (NewInflights (t_MaxInflight (ch_Tracker c))) isLearner in
  Ok (cfg', <[id := pr]> prs).

(** [Changer.makeVoter]. *)
Definition makeVoter (c : Changer) (cfg : Config) (prs : ProgressMap) (id : N) :
    outcome (Config * ProgressMap) :=
  match prs !! id with
  | None => initProgress c cfg prs id false
  | Some pr =>
      let cfg1 := cfg <| Learners ::= λ m, nilAwareDelete m id |>
                      <| LearnersNext ::= λ m, nilAwareDelete m id |> in
      cfg2 ← add_voter cfg1 id;
      Ok (cfg2, <[id := pr <| pr_IsLearner := false |>]> prs)
  end.

(** [Changer.remove]. *)
Definition remove (cfg : Config) (prs : ProgressMap) (id : N) : Config * ProgressMap :=
  match prs !! id with
  | None => (cfg, prs)
  | Some _ =>
      let cfg1 := (delete_voter cfg id) <| Learners ::= λ m, nilAwareDelete m id |>
                                      <| LearnersNext ::= λ m, nilAwareDelete m id |> in
      if bool_decide (id ∈ keys (outgoing (Voters cfg1))) then (cfg1, prs)
      else (cfg1, delete id prs)
  end.

(** [Changer.makeLearner]. *)
Definition makeLearner (c : Changer) (cfg : Config) (prs : ProgressMap) (id : N) :
    outcome (Config * ProgressMap) :=
  match prs !! id with
  | None => initProgress c cfg prs id true
  | Some pr =>
      if pr_IsLearner pr then Ok (cfg, prs)
      else
        let (cfg1, prs1) := remove cfg prs id in
        let prs2 := <[id := pr]> prs1 in
        if bool_decide (id ∈ keys (outgoing (Voters cfg1)))
        then Ok (cfg1 <| LearnersNext ::= λ m, nilAwareAdd m id |>, prs2)
        else Ok (cfg1 <| Learners ::= λ m, nilAwareAdd m id |>,
                 <[id := pr <| pr_IsLearner := true |>]> prs2)
  end.

(** The loop body of [Changer.apply]. *)
Definition apply_one (c : Changer) (cfg : Config) (prs : ProgressMap) (cc : ConfChangeSingle) :
    outcome (result (Config * ProgressMap)) :=
  if cc_NodeID cc =? 0 then Ok (Val (cfg, prs))
  else match cc_Type cc with
       | ConfChangeAddNode => r ← makeVoter c cfg prs (cc_NodeID cc); Ok (Val r)
       | ConfChangeAddLearnerNode => r ← makeLearner c cfg prs (cc_NodeID cc); Ok (Val r)
       | ConfChangeRemoveNode => Ok (Val (remove cfg prs (cc_NodeID cc)))
       | ConfChangeUpdateNode => Ok (Val (cfg, prs))
       | ConfChangeUnknown _ => go_err "unexpected conf type"
       end.

(** [Changer.apply]. *)
Fixpoint apply_changes (c : Changer) (cfg : Config) (prs : ProgressMap)
    (ccs : list ConfChangeSingle) : outcome (result (Config * ProgressMap)) :=
  match ccs with
  | [] => Ok (Val (cfg, prs))
  | cc :: ccs' => '(cfg', prs') ←? apply_one c cfg prs cc; apply_changes c cfg' prs' ccs'
  end.
Definition apply (c : Changer) (cfg : Config) (prs : ProgressMap)
    (ccs : list ConfChangeSingle) : outcome (result (Config * ProgressMap)) :=
  '(cfg', prs') ←? apply_changes c cfg prs ccs;
  if (size (keys (incoming (Voters cfg'))) =? 0)%nat then go_err "removed all voters"
  else Ok (Val (cfg', prs')).

(** [Changer.EnterJoint]. *)
Definition EnterJoint (c : Changer) (autoLeave : bool) (ccs : list ConfChangeSingle) :
    outcome (result (Config * ProgressMap)) :=
  '(cfg, prs) ←? checkAndCopy c;
  if joint cfg then go_err "config is already joint"
  else if (size (keys (incoming (Voters cfg))) =? 0)%nat
  then go_err "can't make a zero-voter config joint"
  else
    let cfg1 := cfg <| Voters ::= λ v, v <| outgoing := Some (keys (incoming v)) |> |> in
    '(cfg2, prs2) ←? apply c cfg1 prs ccs;
    checkAndReturn (cfg2 <| AutoLeave := autoLeave |>) prs2.

(** The two loops of [Changer.LeaveJoint]. *)
Definition promote_next (cp : Config * ProgressMap) (id : N) : outcome (Config * ProgressMap) :=
  match cp.2 !! id with
  | None => Panic
  | Some pr => Ok (cp.1 <| Learners ::= λ m, nilAwareAdd m id |>,
                   <[id := pr <| pr_IsLearner := true |>]> cp.2)
  end.
Definition drop_outgoing (cfg : Config) (prs : ProgressMap) (id : N) : ProgressMap :=
  if bool_decide (id ∉ keys (incoming (Voters cfg)) ∧ id ∉ keys (Learners cfg))
  then delete id prs else prs.
Fixpoint promote_all (cp : Config * ProgressMap) (ids : list N) : outcome (Config * ProgressMap) :=
  match ids with
  | [] => Ok cp
  | id :: ids' => cp' ← promote_next cp id; promote_all cp' ids'
  end.

(** [Changer.LeaveJoint]. *)
Definition LeaveJoint (c : Changer) : outcome (result (Config * ProgressMap)) :=
  '(cfg, prs) ←? checkAndCopy c;
  if negb (joint cfg) then go_err "can't leave a non-joint config"
  else if (size (keys (outgoing (Voters cfg))) =? 0)%nat then go_err "configuration is not joint"
  else
    '(cfg1, prs1) ← promote_all (cfg, prs) (elements (keys (LearnersNext cfg)));
    let cfg2 := cfg1 <| LearnersNext := None |> in
    let prs2 := foldl (drop_outgoing cfg2) prs1 (elements (keys (outgoing (Voters cfg2)))) in
    let cfg3 := cfg2 <| Voters ::= λ v, v <| outgoing := None |> |> <| AutoLeave := false |> in
    checkAndReturn cfg3 prs2.

(** [Changer.Simple]. *)
Definition Simple (c : Changer) (ccs : list ConfChangeSingle) :
    outcome (result (Config * ProgressMap)) :=
  '(cfg, prs) ←? checkAndCopy c;
  if joint cfg then go_err "can't apply simple config change in joint config"
  else
    '(cfg1, prs1) ←? apply c cfg prs ccs;
    if (1 <? symdiff (incoming (Voters (t_Config (ch_Tracker c)))) (incoming (Voters cfg1)))%nat
    then go_err "more than one voter changed without entering joint config"
    else checkAndReturn cfg1 prs1.

(** ** restore.go *)

(** [toConfChangeSingle]. *)
Definition toConfChangeSingle (cs : ConfState) : list ConfChangeSingle * list ConfChangeSingle :=
  let out := map (MkCCS ConfChangeAddNode) (cs_VotersOutgoing cs) in
  let in_ := map (MkCCS ConfChangeRemoveNode) (cs_VotersOutgoing cs)
             ++ map (MkCCS ConfChangeAddNode) (cs_Voters cs)
             ++ map (MkCCS ConfChangeAddLearnerNode) (cs_Learners cs)
             ++ map (MkCCS ConfChangeAddLearnerNode) (cs_LearnersNext cs) in
  (out, in_).

(** [chain]. *)
Fixpoint chain (chg : Changer) (ops : list (Changer → outcome (result (Config * ProgressMap)))) :
    outcome (result (Config * ProgressMap)) :=
  match ops with
  | [] => Ok (Val (t_Config (ch_Tracker chg), t_Progress (ch_Tracker chg)))
  | op :: ops' =>
      '(cfg, prs) ←? op chg;
      chain (MkChanger ((ch_Tracker chg) <| t_Config := cfg |> <| t_Progress := prs |>)
               (ch_LastIndex chg)) ops'
  end.

(** [Restore]. *)
Definition Restore (chg : Changer) (cs : ConfState) : outcome (result (Config * ProgressMap)) :=
  let (outs, ins) := toConfChangeSingle cs in
  let ops :=
    match outs with
    | [] => map (λ cc chg, Simple chg [cc]) ins
    | _ => map (λ cc chg, Simple chg [cc]) outs
             ++ [λ chg, EnterJoint chg (cs_AutoLeave cs) ins]
    end in
  chain chg ops.

(** ** The invariant of a configuration and its progress map *)

Definition inc (cfg : Config) : gset N := keys (incoming (Voters cfg)).
Definition out (cfg : Config) : gset N := keys (outgoing (Voters cfg)).
Definition lrn (cfg : Config) : gset N := keys (Learners cfg).
Definition nxt (cfg : Config) : gset N := keys (LearnersNext cfg).
Arguments inc !_ /.
Arguments out !_ /.
Arguments lrn !_ /.
Arguments nxt !_ /.

(** The invariant documented on [tracker.Config], made complete: exactly the
    voters and learners are tracked, learners and voters are disjoint, staged
    learners are outgoing voters that left the incoming configuration, a progress
    is flagged as a learner iff it is one, and the maps are nil when empty. *)
Record config_wf (cfg : Config) (prs : ProgressMap) : Prop := {
  wf_incoming : incoming (Voters cfg) ≠ None;
  wf_dom : dom prs = inc cfg ∪ out cfg ∪ lrn cfg;
  wf_next : nxt cfg ⊆ out cfg;
  wf_next_in : nxt cfg ## inc cfg;
  wf_learners : lrn cfg ## inc cfg ∪ out cfg;
  wf_flag : ∀ id pr, prs !! id = Some pr → (pr_IsLearner pr = true ↔ id ∈ lrn cfg);
  wf_nil : Learners cfg ≠ Some ∅ ∧ LearnersNext cfg ≠ Some ∅;
  wf_simple : out cfg = ∅ →
    outgoing (Voters cfg) = None ∧ LearnersNext cfg = None ∧ AutoLeave cfg = false;
}.

Lemma keys_add m id : keys (nilAwareAdd m id) = {[id]} ∪ keys m.
Proof. done. Qed.
Lemma keys_delete m id : keys (nilAwareDelete m id) = keys m ∖ {[id]}.
Proof.
  destruct m as [s|]; cbn; [|set_solver].
  destruct (Nat.eqb_spec (size (s ∖ {[id]})) 0) as [H|]; [|done].
  apply size_empty_inv in H. set_solver.
Qed.
Lemma nilAwareAdd_nonempty m id : nilAwareAdd m id ≠ Some ∅.
Proof. unfold nilAwareAdd. intros [= H]. set_solver. Qed.
Lemma nilAwareDelete_nonempty m id : nilAwareDelete m id ≠ Some ∅.
Proof.
  destruct m as [s|]; cbn; [|done].
  destruct (Nat.eqb_spec (size (s ∖ {[id]})) 0) as [|H]; [done|]. intros [= Hs].
  by rewrite Hs, size_empty in H.
Qed.
Lemma nilAwareDelete_None id : nilAwareDelete None id = None.
Proof. done. Qed.
#[local] Hint Resolve nilAwareAdd_nonempty nilAwareDelete_nonempty : raft.
#[local] Hint Rewrite keys_add keys_delete : keys.

Lemma joint_false cfg : joint cfg = false ↔ out cfg = ∅.
Proof.
  unfold joint. rewrite negb_false_iff, Nat.eqb_eq. fold (out cfg). split.
  - intros H%size_empty_inv. by apply leibniz_equiv.
  - intros H. by rewrite H, size_empty.
Qed.
Lemma joint_true cfg : joint cfg = true ↔ out cfg ≠ ∅.
Proof. rewrite <- joint_false. destruct (joint cfg); naive_solver. Qed.

Lemma size_zero_keys (m : option (gset N)) : (size (keys m) =? 0)%nat = bool_decide (keys m = ∅).
Proof.
  destruct (Nat.eqb_spec (size (keys m)) 0) as [H|H]; symmetry.
  - apply bool_decide_eq_true_2. apply size_empty_inv in H. by apply leibniz_equiv.
  - apply bool_decide_eq_false_2. intros E. by rewrite E, size_empty in H.
Qed.

(** The invariant implies what [checkInvariants] checks. *)
Lemma wf_checkInvariants cfg prs :
  config_wf cfg prs → checkInvariants cfg prs = Ok (Val tt).
Proof.
  intros [Hinc Hdom Hnext Hni Hl Hflag Hnil Hs].
  assert (Htracked : ∀ id, id ∈ inc cfg ∪ out cfg ∪ lrn cfg → is_Some (prs !! id)).
  { intros id. by rewrite <- Hdom, elem_of_dom. }
  unfold checkInvariants.
  rewrite (proj2 (try_for_Val _ _)). 2:{
    intros ids Hids. apply try_for_Val. intros id Hid%elem_of_elements.
    destruct (Htracked id) as [pr ->]; [|done].
    unfold IDs in Hids. unfold inc, out, lrn, nxt in *.
    rewrite !elem_of_cons in Hids. destruct Hids as [->|[->|[->|[]%elem_of_nil]]]; set_solver. }
  cbn [try_bind]. rewrite (proj2 (try_for_Val _ _)). 2:{
    intros id Hid%elem_of_elements. fold (nxt cfg) in Hid. unfold check_next, is_learner.
    fold (out cfg). rewrite bool_decide_eq_false_2 by set_solver.
    destruct (Htracked id) as [pr Hpr]; [set_solver|]. rewrite Hpr. cbn.
    destruct (pr_IsLearner pr) eqn:E; [|done]. apply (Hflag id pr Hpr) in E. set_solver. }
  cbn [try_bind]. rewrite (proj2 (try_for_Val _ _)). 2:{
    intros id Hid%elem_of_elements. fold (lrn cfg) in Hid. unfold check_learner, is_learner.
    fold (out cfg) (inc cfg).
    rewrite bool_decide_eq_false_2 by set_solver. rewrite bool_decide_eq_false_2 by set_solver.
    destruct (Htracked id) as [pr Hpr]; [set_solver|]. rewrite Hpr. cbn.
    by rewrite (proj2 (Hflag id pr Hpr) Hid). }
  cbn [try_bind]. destruct (joint cfg) eqn:Hj; [done|].
  apply joint_false in Hj. destruct (Hs Hj) as (-> & -> & ->). done.
Qed.

(** The pieces of a change, on the sets of the configuration. *)
Lemma add_voter_spec cfg id :
  incoming (Voters cfg) ≠ None →
  add_voter cfg id = Ok (cfg <| Voters ::= λ v, v <| incoming := Some ({[id]} ∪ inc cfg) |> |>).
Proof. unfold add_voter, inc. by destruct (incoming (Voters cfg)). Qed.

Lemma inc_delete_voter cfg id : inc (delete_voter cfg id) = inc cfg ∖ {[id]}.
Proof.
  unfold inc, delete_voter. cbn. destruct (incoming (Voters cfg)); cbn; [done|set_solver].
Qed.

(** The sets a change acts on, and the effect of each change on them. *)
Record roles := Roles { r_inc : gset N; r_lrn : gset N; r_nxt : gset N }.
Definition roles_of (cfg : Config) : roles := Roles (inc cfg) (lrn cfg) (nxt cfg).

Definition voter_roles (id : N) (r : roles) : roles :=
  Roles (r_inc r ∪ {[id]}) (r_lrn r ∖ {[id]}) (r_nxt r ∖ {[id]}).
Definition removed_roles (id : N) (r : roles) : roles :=
  Roles (r_inc r ∖ {[id]}) (r_lrn r ∖ {[id]}) (r_nxt r ∖ {[id]}).
Definition learner_roles (out : gset N) (id : N) (r : roles) : roles :=
  if bool_decide (id ∈ r_lrn r) then Roles (r_inc r ∖ {[id]}) (r_lrn r) (r_nxt r)
  else if bool_decide (id ∈ out) then Roles (r_inc r ∖ {[id]}) (r_lrn r) ({[id]} ∪ r_nxt r)
  else Roles (r_inc r ∖ {[id]}) ({[id]} ∪ r_lrn r) (r_nxt r).

Lemma roles_eq r r' : r_inc r = r_inc r' → r_lrn r = r_lrn r' → r_nxt r = r_nxt r' → r = r'.
Proof. destruct r, r'. cbn. congruence. Qed.

(** What a change may do to the rest of the configuration. *)
Record change_frame (cfg cfg' : Config) : Prop := {
  fr_out : outgoing (Voters cfg') = outgoing (Voters cfg);
  fr_auto : AutoLeave cfg' = AutoLeave cfg;
}.
#[export] Instance change_frame_preorder : PreOrder change_frame.
Proof.
  split; [by split|]. intros x y z [] []. split; congruence.
Qed.

Lemma change_frame_out cfg cfg' : change_frame cfg cfg' → out cfg' = out cfg.
Proof. intros [H _]. unfold out. by rewrite H. Qed.

Ltac wf_sets :=
  unfold inc, out, lrn, nxt, IDs in *; cbn in *; autorewrite with keys in *; cbn in *.

(** Set goals that need a case distinction on the changed node. *)
Ltac by_node id :=
  let x := fresh "x" in
  apply set_eq; intros x; destruct (decide (x = id)) as [->|]; set_solver.

Section Changes.
Context (c : Changer) (cfg : Config) (prs : ProgressMap) (id : N).
Hypothesis Hwf : config_wf cfg prs.

Lemma untracked : prs !! id = None → id ∉ inc cfg ∪ out cfg ∪ lrn cfg ∧ id ∉ nxt cfg.
Proof using Hwf.
  intros H%not_elem_of_dom. rewrite (wf_dom _ _ Hwf) in H.
  pose proof (wf_next _ _ Hwf). set_solver.
Qed.

Lemma tracked pr : prs !! id = Some pr → id ∈ inc cfg ∪ out cfg ∪ lrn cfg.
Proof using Hwf. intros H. rewrite <- (wf_dom _ _ Hwf). by apply elem_of_dom. Qed.

Lemma makeVoter_wf :
  ∃ cfg' prs', makeVoter c cfg prs id = Ok (cfg', prs') ∧ config_wf cfg' prs' ∧
    roles_of cfg' = voter_roles id (roles_of cfg) ∧ change_frame cfg cfg'.
Proof using Hwf.
  pose proof untracked as Hun. pose proof tracked as Htr.
  destruct Hwf as [Hinc Hdom Hnext Hni Hl Hflag [Hn1 Hn2] Hs].
  unfold makeVoter, initProgress. destruct (prs !! id) as [pr|] eqn:Hpr.
  - specialize (Htr pr eq_refl). rewrite add_voter_spec by done.
    eexists _, _. split; [done|]. split_and!; [split|apply roles_eq; wf_sets; by_node id|done].
    + done.
    + rewrite dom_insert_L, Hdom. wf_sets. by_node id.
    + wf_sets. set_solver.
    + wf_sets. set_solver.
    + wf_sets. set_solver.
    + intros i p. rewrite lookup_insert. case_decide as Hi.
      * intros [= <-]. subst i. wf_sets. split; [done|set_solver].
      * intros Hp. rewrite (Hflag i p Hp). wf_sets. set_solver.
    + split; apply nilAwareDelete_nonempty.
    + intros Ho. destruct (Hs Ho) as (? & HN & ?). cbn. rewrite HN. done.
  - destruct (Hun eq_refl) as [Hni1 Hni2]. rewrite add_voter_spec by done.
    eexists _, _. split; [done|]. split_and!; [split|apply roles_eq; wf_sets; by_node id|done].
    + done.
    + rewrite dom_insert_L, Hdom. wf_sets. set_solver.
    + done.
    + wf_sets. set_solver.
    + wf_sets. set_solver.
    + intros i p. rewrite lookup_insert. case_decide as Hi.
      * intros [= <-]. subst i. wf_sets. split; [done|set_solver].
      * apply Hflag.
    + done.
    + done.
Qed.

Lemma remove_wf :
  let (cfg', prs') := remove cfg prs id in
  config_wf cfg' prs' ∧ inc cfg' = inc cfg ∖ {[id]} ∧ out cfg' = out cfg ∧
  lrn cfg' = lrn cfg ∖ {[id]} ∧ nxt cfg' = nxt cfg ∖ {[id]} ∧ change_frame cfg cfg' ∧
  (∀ j, j ≠ id → prs' !! j = prs !! j).
Proof using Hwf.
  pose proof untracked as Hun. pose proof tracked as Htr. unfold remove.
  destruct (prs !! id) as [pr|] eqn:Hpr.
  2:{ destruct (Hun eq_refl). split_and!; try done; set_solver. }
  destruct Hwf as [Hinc Hdom Hnext Hni Hl Hflag [Hn1 Hn2] Hs]. specialize (Htr pr eq_refl).
  set (cfg1 := _ <| LearnersNext ::= _ |>).
  assert (Hi1 : inc cfg1 = inc cfg ∖ {[id]}) by apply inc_delete_voter.
  assert (Ho1 : outgoing (Voters cfg1) = outgoing (Voters cfg)) by done.
  assert (Ho : out cfg1 = out cfg) by done.
  assert (Hl1 : lrn cfg1 = lrn cfg ∖ {[id]}) by (unfold lrn; cbn; apply keys_delete).
  assert (Hx1 : nxt cfg1 = nxt cfg ∖ {[id]}) by (unfold nxt; cbn; apply keys_delete).
  assert (Hf : change_frame cfg cfg1) by done.
  assert (Hcore : ∀ prs', dom prs' = inc cfg1 ∪ out cfg1 ∪ lrn cfg1 →
    (∀ j p, prs' !! j = Some p → prs !! j = Some p) → config_wf cfg1 prs').
  { intros prs' Hd Hsub. split; rewrite ?Hi1, ?Ho, ?Hl1, ?Hx1.
    - unfold cfg1. cbn. by destruct (incoming (Voters cfg)).
    - by rewrite Hd, Hi1, Ho, Hl1.
    - set_solver.
    - set_solver.
    - set_solver.
    - intros j p Hp. pose proof (Hsub j p Hp) as Hp'. rewrite (Hflag j p Hp').
      destruct (decide (j = id)) as [->|]; [|set_solver].
      assert (id ∈ inc cfg1 ∪ out cfg1 ∪ lrn cfg1) as Hin.
      { rewrite <- Hd. by apply elem_of_dom. }
      rewrite Hi1, Ho, Hl1 in Hin. set_solver.
    - split; apply nilAwareDelete_nonempty.
    - intros H. destruct (Hs H) as (? & HN & ?). cbn. rewrite HN. done. }
  change (keys (outgoing (Voters cfg1))) with (out cfg). case_bool_decide as Hout.
  - split_and!; try done. apply Hcore; [|done]. rewrite Hdom, Hi1, Ho, Hl1. by_node id.
  - split_and!; try done.
    + apply Hcore.
      * rewrite dom_delete_L, Hdom, Hi1, Ho, Hl1. by_node id.
      * intros j p [? ?]%lookup_delete_Some. done.
    + intros j Hj. by rewrite lookup_delete_ne.
Qed.
End Changes.

Lemma makeLearner_wf c cfg prs id :
  config_wf cfg prs →
  ∃ cfg' prs', makeLearner c cfg prs id = Ok (cfg', prs') ∧ config_wf cfg' prs' ∧
    roles_of cfg' = learner_roles (out cfg) id (roles_of cfg) ∧ change_frame cfg cfg'.
Proof.
  intros Hwf. pose proof (untracked cfg prs id Hwf) as Hun.
  pose proof (remove_wf cfg prs id Hwf) as Hrem. unfold makeLearner, initProgress.
  destruct (prs !! id) as [pr|] eqn:Hpr; [destruct (pr_IsLearner pr) eqn:Hpl|].
  - eexists _, _. split; [done|]. split_and!; [done| |done].
    apply (wf_flag _ _ Hwf id pr Hpr) in Hpl. pose proof (wf_learners _ _ Hwf).
    unfold learner_roles. cbn [r_lrn roles_of]. rewrite bool_decide_eq_true_2 by done.
    apply roles_eq; cbn; [by_node id|done|done].
  - destruct (remove cfg prs id) as [cfg1 prs1] eqn:Hrm.
    destruct Hrem as (Hwf1 & Hi & Ho & Hl & Hx & Hf & Hother).
    change (keys (outgoing (Voters cfg1))) with (out cfg1).
    assert (Hlr : ∀ o, id ∉ lrn cfg → learner_roles o id (roles_of cfg) =
      if bool_decide (id ∈ o) then Roles (inc cfg ∖ {[id]}) (lrn cfg) ({[id]} ∪ nxt cfg)
      else Roles (inc cfg ∖ {[id]}) ({[id]} ∪ lrn cfg) (nxt cfg)).
    { intros o Ho'. unfold learner_roles. cbn [r_lrn roles_of]. by rewrite bool_decide_eq_false_2. }
    assert (Hnl : id ∉ lrn cfg). { intros Hin. apply (wf_flag _ _ Hwf id pr Hpr) in Hin. congruence. }
    destruct Hwf1 as [Hinc Hdom Hnext Hni Hld Hflag [Hn1 Hn2] Hs].
    case_bool_decide as Hout; eexists _, _; (split; [done|]).
    + split_and!; [split|rewrite (Hlr _ Hnl), (bool_decide_eq_true_2 (id ∈ out cfg)) by congruence;
        apply roles_eq; [exact Hi|change (lrn cfg1 = lrn cfg); rewrite Hl
          |change ({[id]} ∪ nxt cfg1 = {[id]} ∪ nxt cfg); rewrite Hx];
        clear -Hnl; by_node id|by destruct Hf].
      * done.
      * rewrite dom_insert_L, Hdom. wf_sets. set_solver.
      * wf_sets. set_solver.
      * wf_sets. set_solver.
      * done.
      * intros i p. rewrite lookup_insert. case_decide as Hid; [|apply Hflag].
        intros [= <-]. subst i. rewrite Hpl. split; [done|]. wf_sets. set_solver.
      * split; [done|apply nilAwareAdd_nonempty].
      * intros H. exfalso. wf_sets. set_solver.
    + assert (Hnx : id ∉ nxt cfg) by (pose proof (wf_next _ _ Hwf); set_solver).
      split_and!; [split|rewrite (Hlr _ Hnl), (bool_decide_eq_false_2 (id ∈ out cfg)) by congruence;
        apply roles_eq; [exact Hi|change ({[id]} ∪ lrn cfg1 = {[id]} ∪ lrn cfg); rewrite Hl
          |change (nxt cfg1 = nxt cfg); rewrite Hx];
        clear -Hnl Hnx; by_node id|by destruct Hf].
      * done.
      * rewrite !dom_insert_L, Hdom. wf_sets. set_solver.
      * done.
      * done.
      * wf_sets. set_solver.
      * intros i p. rewrite !lookup_insert. case_decide as Hid.
        -- intros [= <-]. subst i. wf_sets. split; [set_solver|done].
        -- intros Hp. rewrite (Hflag i p Hp). wf_sets. set_solver.
      * split; [apply nilAwareAdd_nonempty|done].
      * done.
  - destruct (Hun eq_refl) as [Hn1 Hn2]. destruct Hwf as [Hinc Hdom Hnext Hni Hl Hflag [? ?] Hs].
    eexists _, _. split; [done|]. split_and!; [split| |done].

    + done.
    + rewrite dom_insert_L, Hdom. wf_sets. set_solver.
    + done.
    + done.
    + wf_sets. set_solver.
    + intros i p. rewrite lookup_insert. case_decide as Hi.
      * intros [= <-]. subst i. wf_sets. split; [set_solver|done].
      * intros Hp. rewrite (Hflag i p Hp). wf_sets. set_solver.
    + split; [apply nilAwareAdd_nonempty|done].
    + done.
    + unfold learner_roles. cbn [r_lrn roles_of].
      rewrite !bool_decide_eq_false_2 by set_solver. apply roles_eq; wf_sets; by_node id.
Qed.

(** ** The effect of a list of changes on the incoming voters *)

(** A change the code knows how to apply. *)
Definition known_change (cc : ConfChangeSingle) : bool :=
  (cc_NodeID cc =? 0) ||
  match cc_Type cc with ConfChangeUnknown _ => false | _ => true end.

Definition voters_after (s : gset N) (cc : ConfChangeSingle) : gset N :=
  if cc_NodeID cc =? 0 then s
  else match cc_Type cc with
       | ConfChangeAddNode => s ∪ {[cc_NodeID cc]}
       | ConfChangeAddLearnerNode | ConfChangeRemoveNode => s ∖ {[cc_NodeID cc]}
       | _ => s
       end.

(** The effect of a change on all the roles, [out] being the outgoing voters. *)
Definition change_roles (out : gset N) (r : roles) (cc : ConfChangeSingle) : roles :=
  if cc_NodeID cc =? 0 then r
  else match cc_Type cc with
       | ConfChangeAddNode => voter_roles (cc_NodeID cc) r
       | ConfChangeAddLearnerNode => learner_roles out (cc_NodeID cc) r
       | ConfChangeRemoveNode => removed_roles (cc_NodeID cc) r
       | _ => r
       end.

Lemma inc_change_roles out r cc : r_inc (change_roles out r cc) = voters_after (r_inc r) cc.
Proof.
  unfold change_roles, voters_after, learner_roles.
  destruct (cc_NodeID cc =? 0); [done|]. destruct (cc_Type cc); try done.
  by repeat case_bool_decide.
Qed.

Lemma inc_changes_roles out r ccs :
  r_inc (foldl (change_roles out) r ccs) = foldl voters_after (r_inc r) ccs.
Proof.
  revert r. induction ccs as [|cc ccs IH]; intros r; [done|]. cbn [foldl].
  by rewrite IH, inc_change_roles.
Qed.

Lemma apply_one_wf c cfg prs cc :
  config_wf cfg prs →
  if known_change cc
  then ∃ cfg' prs', apply_one c cfg prs cc = Ok (Val (cfg', prs')) ∧ config_wf cfg' prs' ∧
         roles_of cfg' = change_roles (out cfg) (roles_of cfg) cc ∧ change_frame cfg cfg'
  else ∃ e, apply_one c cfg prs cc = Ok (Err e).
Proof.
  intros Hwf. unfold known_change, apply_one, change_roles.
  destruct (cc_NodeID cc =? 0); cbn [orb]; [by eexists _, _|]. destruct (cc_Type cc).
  - destruct (makeVoter_wf c cfg prs (cc_NodeID cc) Hwf) as (? & ? & -> & ?). by eexists _, _.
  - pose proof (remove_wf cfg prs (cc_NodeID cc) Hwf) as H.
    destruct (remove cfg prs (cc_NodeID cc)). destruct_and!. eexists _, _. split_and!; try done.
    by apply roles_eq.
  - by eexists _, _.
  - destruct (makeLearner_wf c cfg prs (cc_NodeID cc) Hwf) as (? & ? & -> & ?). by eexists _, _.
  - by eexists.
Qed.

Lemma apply_changes_wf c cfg prs ccs :
  config_wf cfg prs →
  if forallb known_change ccs
  then ∃ cfg' prs', apply_changes c cfg prs ccs = Ok (Val (cfg', prs')) ∧ config_wf cfg' prs' ∧
         roles_of cfg' = foldl (change_roles (out cfg)) (roles_of cfg) ccs ∧
         change_frame cfg cfg'
  else ∃ e, apply_changes c cfg prs ccs = Ok (Err e).
Proof.
  revert cfg prs. induction ccs as [|cc ccs IH]; intros cfg prs Hwf; cbn [apply_changes forallb foldl].
  { by eexists _, _. }
  pose proof (apply_one_wf c cfg prs cc Hwf) as H. destruct (known_change cc); cbn [andb].
  - destruct H as (cfg1 & prs1 & -> & Hwf1 & <- & Hf). cbn [try_bind].
    specialize (IH cfg1 prs1 Hwf1). rewrite (change_frame_out _ _ Hf) in IH.
    destruct (forallb known_change ccs); [|done].
    destruct IH as (cfg2 & prs2 & ? & ? & ? & ?). exists cfg2, prs2. split_and!; try done.
    by etrans.
  - destruct H as [e ->]. by eexists.
Qed.

(** [apply] fails exactly on an unknown change or when no voter is left. *)
Lemma apply_wf c cfg prs ccs :
  config_wf cfg prs →
  if forallb known_change ccs && bool_decide (foldl voters_after (inc cfg) ccs ≠ ∅)
  then ∃ cfg' prs', apply c cfg prs ccs = Ok (Val (cfg', prs')) ∧ config_wf cfg' prs' ∧
         inc cfg' = foldl voters_after (inc cfg) ccs ∧
         roles_of cfg' = foldl (change_roles (out cfg)) (roles_of cfg) ccs ∧
         change_frame cfg cfg'
  else ∃ e, apply c cfg prs ccs = Ok (Err e).
Proof.
  intros Hwf. pose proof (apply_changes_wf c cfg prs ccs Hwf) as H. unfold apply.
  destruct (forallb known_change ccs); cbn [andb].
  - destruct H as (cfg' & prs' & -> & Hwf' & Hr & Hf). cbn [try_bind].
    assert (Hi : inc cfg' = foldl voters_after (inc cfg) ccs).
    { change (r_inc (roles_of cfg') = foldl voters_after (r_inc (roles_of cfg)) ccs).
      by rewrite Hr, inc_changes_roles. }
    rewrite size_zero_keys. fold (inc cfg'). rewrite Hi.
    case_bool_decide; case_bool_decide; try done; eauto 10.
  - destruct H as [e ->]. by eexists.
Qed.

(** ** Entering and leaving a joint configuration, simple changes *)

Lemma Clone_wf cfg prs : config_wf cfg prs → config_wf (Config_Clone cfg) prs.
Proof. intros []. split; try done. intros H. by destruct (wf_simple0 H) as (? & ? & ?). Qed.

Lemma checkAndCopy_wf c :
  config_wf (t_Config (ch_Tracker c)) (t_Progress (ch_Tracker c)) →
  checkAndCopy c = Ok (Val (Config_Clone (t_Config (ch_Tracker c)), t_Progress (ch_Tracker c))).
Proof.
  intros Hwf. unfold checkAndCopy, checkAndReturn.
  by rewrite (wf_checkInvariants _ _ (Clone_wf _ _ Hwf)).
Qed.

Lemma checkAndReturn_wf cfg prs :
  config_wf cfg prs → checkAndReturn cfg prs = Ok (Val (cfg, prs)).
Proof. intros Hwf. unfold checkAndReturn. by rewrite (wf_checkInvariants _ _ Hwf). Qed.

Section Operations.
Context (c : Changer).
Let cfg := t_Config (ch_Tracker c).
Let prs := t_Progress (ch_Tracker c).
Hypothesis Hwf : config_wf cfg prs.

Lemma EnterJoint_wf autoLeave ccs :
  if bool_decide (out cfg = ∅) && bool_decide (inc cfg ≠ ∅) && forallb known_change ccs
     && bool_decide (foldl voters_after (inc cfg) ccs ≠ ∅)
  then ∃ cfg' prs', EnterJoint c autoLeave ccs = Ok (Val (cfg', prs')) ∧
         config_wf cfg' prs' ∧ inc cfg' = foldl voters_after (inc cfg) ccs ∧
         out cfg' = inc cfg ∧ AutoLeave cfg' = autoLeave ∧
         roles_of cfg' = foldl (change_roles (inc cfg)) (roles_of cfg) ccs
  else ∃ e, EnterJoint c autoLeave ccs = Ok (Err e).
Proof using Hwf.
  unfold EnterJoint. rewrite (checkAndCopy_wf c Hwf). cbn [try_bind]. fold cfg prs.
  destruct (joint (Config_Clone cfg)) eqn:Hj.
  { apply joint_true in Hj. change (out (Config_Clone cfg)) with (out cfg) in Hj.
    rewrite bool_decide_eq_false_2 by done. by eexists. }
  apply joint_false in Hj. change (out (Config_Clone cfg)) with (out cfg) in Hj.
  rewrite bool_decide_eq_true_2 by done. cbn [andb].
  rewrite size_zero_keys. change (keys (incoming (Voters (Config_Clone cfg)))) with (inc cfg).
  destruct (decide (inc cfg = ∅)) as [Hi|Hi].
  { rewrite (bool_decide_eq_false_2 (inc cfg ≠ ∅)) by (intros Hn; by apply Hn).
    rewrite (bool_decide_eq_true_2 (inc cfg = ∅)) by done. by eexists. }
  rewrite (bool_decide_eq_true_2 (inc cfg ≠ ∅)) by done.
  rewrite (bool_decide_eq_false_2 (inc cfg = ∅)) by done. cbn [andb].
  set (cfg1 := (Config_Clone cfg) <| Voters ::= _ |>).
  assert (Hwf1 : config_wf cfg1 prs).
  { destruct Hwf as [Hinc Hdom Hnext Hni Hl Hflag Hnil Hs].
    destruct (Hs Hj) as (Ho & Hx & _). fold cfg in Ho, Hx. split; try done.
    - rewrite Hdom. wf_sets. rewrite Ho. set_solver.
    - wf_sets. rewrite Hx. set_solver.
    - wf_sets. set_solver. }
  pose proof (apply_wf c cfg1 prs ccs Hwf1) as Happ. change (inc cfg1) with (inc cfg) in Happ.
  destruct (forallb known_change ccs && _); [|by destruct Happ as [e ->]; eexists].
  destruct Happ as (cfg2 & prs2 & -> & Hwf2 & Hi2 & Hr2 & Hf). cbn [try_bind].
  assert (Ho2 : out cfg2 = inc cfg) by (unfold out; by rewrite (fr_out _ _ Hf)).
  assert (Hwf3 : config_wf (cfg2 <| AutoLeave := autoLeave |>) prs2).
  { destruct Hwf2. split; try done. intros H. change (out cfg2 = ∅) in H. congruence. }
  rewrite (checkAndReturn_wf _ _ Hwf3). by eexists _, _.
Qed.

Lemma symdiff_spec (l r : option (gset N)) :
  symdiff l r = (size (keys l ∖ keys r) + size (keys r ∖ keys l))%nat.
Proof.
  assert (H : ∀ s t : gset N,
    countb (λ id, bool_decide (id ∉ t)) (elements s) = size (s ∖ t)); [|by rewrite <- !H].
  intros s t. unfold countb, size, set_size. cbn.
  apply Permutation_length, NoDup_Permutation.
  - apply NoDup_ListNoDup, List.NoDup_filter, NoDup_ListNoDup, NoDup_elements.
  - apply NoDup_elements.
  - intros x. rewrite list_elem_of_In, List.filter_In, <- list_elem_of_In, bool_decide_eq_true.
    set_solver.
Qed.

Lemma Simple_wf ccs :
  let voters := foldl voters_after (inc cfg) ccs in
  if bool_decide (out cfg = ∅) && forallb known_change ccs && bool_decide (voters ≠ ∅)
     && bool_decide (size (inc cfg ∖ voters) + size (voters ∖ inc cfg) ≤ 1)%nat
  then ∃ cfg' prs', Simple c ccs = Ok (Val (cfg', prs')) ∧ config_wf cfg' prs' ∧
         inc cfg' = voters ∧ out cfg' = ∅ ∧
         roles_of cfg' = foldl (change_roles ∅) (roles_of cfg) ccs
  else ∃ e, Simple c ccs = Ok (Err e).
Proof using Hwf.
  intros voters. unfold Simple. rewrite (checkAndCopy_wf c Hwf). cbn [try_bind]. fold cfg prs.
  destruct (joint (Config_Clone cfg)) eqn:Hj.
  { apply joint_true in Hj. change (out (Config_Clone cfg)) with (out cfg) in Hj.
    rewrite bool_decide_eq_false_2 by done. by eexists. }
  apply joint_false in Hj. change (out (Config_Clone cfg)) with (out cfg) in Hj.
  rewrite bool_decide_eq_true_2 by done. cbn [andb].
  pose proof (apply_wf c _ prs ccs (Clone_wf _ _ Hwf)) as Happ.
  change (inc (Config_Clone cfg)) with (inc cfg) in Happ. fold voters in Happ.
  destruct (forallb known_change ccs && _); [|by destruct Happ as [e ->]; eexists].
  destruct Happ as (cfg2 & prs2 & -> & Hwf2 & Hi2 & Hr2 & Hf). cbn [try_bind andb].
  rewrite symdiff_spec. fold (inc cfg) (inc cfg2). rewrite Hi2.
  destruct (Nat.ltb_spec 1 (size (inc cfg ∖ voters) + size (voters ∖ inc cfg))) as [Hlt|Hle].
  { rewrite bool_decide_eq_false_2 by lia. by eexists. }
  rewrite bool_decide_eq_true_2 by lia. rewrite (checkAndReturn_wf _ _ Hwf2).
  change (out (Config_Clone cfg)) with (out cfg) in Hr2. rewrite Hj in Hr2.
  eexists _, _. split_and!; try done. by rewrite (change_frame_out _ _ Hf).
Qed.
End Operations.

(** The loops of [LeaveJoint]. *)
Lemma promote_all_spec ids cfg prs :
  (∀ id, id ∈ ids → is_Some (prs !! id)) →
  ∃ prs', promote_all (cfg, prs) ids =
    Ok (cfg <| Learners := foldl nilAwareAdd (Learners cfg) ids |>, prs') ∧
  dom prs' = dom prs ∧
  ∀ id pr', prs' !! id = Some pr' →
    ∃ pr, prs !! id = Some pr ∧
      pr_IsLearner pr' = (bool_decide (id ∈ ids) || pr_IsLearner pr).
Proof.
  revert cfg prs. induction ids as [|i ids IH]; intros cfg prs Htr; cbn [promote_all foldl].
  { exists prs. split_and!; [by destruct cfg|done|]. intros id pr' H. exists pr'.
    rewrite bool_decide_eq_false_2 by apply not_elem_of_nil. done. }
  destruct (Htr i) as [pr Hpr]; [by left|]. unfold promote_next. cbn [fst snd]. rewrite Hpr.
  cbn [mbind outcome_bind].
  destruct (IH (cfg <| Learners ::= λ m, nilAwareAdd m i |>) (<[i:=pr <| pr_IsLearner := true |>]> prs))
    as (prs' & -> & Hd & Hf).
  { intros id Hid. rewrite lookup_insert. case_decide; [done|]. apply Htr. by right. }
  exists prs'. split_and!; [done| |].
  - rewrite Hd, dom_insert_L. apply elem_of_dom_2 in Hpr. set_solver.
  - intros id pr' H. destruct (Hf id pr' H) as (p & Hp & ->). rewrite lookup_insert in Hp.
    case_decide as Hi; simplify_eq; cbn.
    + exists pr. split; [done|]. rewrite orb_true_r. rewrite bool_decide_eq_true_2 by left. done.
    + exists p. split; [done|]. f_equal. apply bool_decide_ext. rewrite elem_of_cons. naive_solver.
Qed.

Lemma keys_foldl_add ids m : keys (foldl nilAwareAdd m ids) = keys m ∪ list_to_set ids.
Proof.
  revert m. induction ids as [|i ids IH]; intros m; cbn [foldl]; [set_solver|].
  rewrite IH, keys_add. set_solver.
Qed.

Lemma foldl_add_nonempty ids m : m ≠ Some ∅ → foldl nilAwareAdd m ids ≠ Some ∅.
Proof.
  revert m. induction ids as [|i ids IH]; intros m Hm; [done|]. apply IH, nilAwareAdd_nonempty.
Qed.

Lemma drop_outgoing_lookup cfg prs i id :
  drop_outgoing cfg prs i !! id =
  if bool_decide (i = id ∧ id ∉ inc cfg ∧ id ∉ lrn cfg) then None else prs !! id.
Proof.
  unfold drop_outgoing. destruct (decide (i = id)) as [->|Hne].
  - case_bool_decide; case_bool_decide; rewrite ?lookup_delete_eq; naive_solver.
  - rewrite (bool_decide_eq_false_2 (i = id ∧ _)) by naive_solver.
    case_bool_decide; [by rewrite lookup_delete_ne|done].
Qed.

Lemma drop_outgoing_fold cfg ids prs id :
  foldl (drop_outgoing cfg) prs ids !! id =
  if bool_decide (id ∈ ids ∧ id ∉ inc cfg ∧ id ∉ lrn cfg) then None else prs !! id.
Proof.
  revert prs. induction ids as [|i ids IH]; intros prs; cbn [foldl].
  { rewrite bool_decide_eq_false_2; [done|]. intros [[]%elem_of_nil _]. }
  rewrite IH, drop_outgoing_lookup.
  destruct (decide (id ∈ i :: ids ∧ id ∉ inc cfg ∧ id ∉ lrn cfg)) as [H|H].
  - rewrite (bool_decide_eq_true_2 _ H). rewrite elem_of_cons in H.
    repeat case_bool_decide; naive_solver.
  - rewrite (bool_decide_eq_false_2 _ H). rewrite elem_of_cons in H.
    repeat case_bool_decide; naive_solver.
Qed.

Lemma LeaveJoint_wf c :
  let cfg := t_Config (ch_Tracker c) in
  config_wf cfg (t_Progress (ch_Tracker c)) →
  if bool_decide (out cfg = ∅) then ∃ e, LeaveJoint c = Ok (Err e)
  else ∃ cfg' prs', LeaveJoint c = Ok (Val (cfg', prs')) ∧ config_wf cfg' prs' ∧
         inc cfg' = inc cfg ∧ out cfg' = ∅ ∧ lrn cfg' = lrn cfg ∪ nxt cfg ∧ nxt cfg' = ∅.
Proof.
  intros cfg Hwf. unfold LeaveJoint. rewrite (checkAndCopy_wf c Hwf). cbn [try_bind].
  set (prs := t_Progress (ch_Tracker c)) in *. fold cfg. set (cl := Config_Clone cfg).
  case_bool_decide as Hj.
  { rewrite (proj2 (joint_false cl)) by done. by eexists. }
  rewrite (proj2 (joint_true cl)) by done. cbn [negb].
  rewrite size_zero_keys, bool_decide_eq_false_2 by done.
  destruct Hwf as [Hinc Hdom Hnext Hni Hl Hflag [Hn1 Hn2] _].
  destruct (promote_all_spec (elements (nxt cfg)) cl prs) as (prs1 & Hp & Hd1 & Hf1).
  { intros id Hid%elem_of_elements. apply elem_of_dom. rewrite Hdom. set_solver. }
  change (keys (LearnersNext cl)) with (nxt cfg). rewrite Hp. cbn [mbind outcome_bind].
  set (cfg3 := _ <| AutoLeave := false |>). set (cfg2 := _ <| LearnersNext := None |>).
  set (prs2 := foldl _ _ _).
  assert (Hi3 : inc cfg3 = inc cfg) by done. assert (Ho3 : out cfg3 = ∅) by done.
  assert (Hl3 : lrn cfg3 = lrn cfg ∪ nxt cfg).
  { unfold lrn at 1. cbn. rewrite keys_foldl_add. by rewrite list_to_set_elements_L. }
  assert (Hl2 : lrn cfg2 = lrn cfg ∪ nxt cfg) by done.
  assert (Hlook : ∀ id, prs2 !! id =
    if bool_decide (id ∈ out cfg ∧ id ∉ inc cfg ∧ id ∉ lrn cfg ∪ nxt cfg) then None else prs1 !! id).
  { intros id. unfold prs2. rewrite drop_outgoing_fold, Hl2.
    change (keys (outgoing (Voters cfg2))) with (out cfg). change (inc cfg2) with (inc cfg).
    erewrite bool_decide_ext; [done|]. by rewrite elem_of_elements. }
  assert (Hwf3 : config_wf cfg3 prs2).
  { split; rewrite ?Hi3, ?Ho3, ?Hl3.
    - done.
    - apply set_eq. intros x. rewrite elem_of_dom, Hlook.
      case_bool_decide as Hx.
      + split; [by intros [? ?]|set_solver].
      + rewrite <- elem_of_dom, Hd1, Hdom. rewrite !elem_of_union in *.
        rewrite elem_of_empty. pose proof (Hnext x).
        destruct (decide (x ∈ inc cfg)), (decide (x ∈ lrn cfg)), (decide (x ∈ nxt cfg)); tauto.
    - done.
    - unfold nxt at 1. cbn. set_solver.
    - set_solver.
    - intros id pr'. rewrite Hlook. case_bool_decide; [done|]. intros Hpr'.
      destruct (Hf1 id pr' Hpr') as (pr & Hpr & ->). rewrite orb_true_iff, (Hflag id pr Hpr).
      rewrite bool_decide_eq_true, elem_of_elements. set_solver.
    - split; [|done]. cbn. by apply foldl_add_nonempty.
    - done. }
  rewrite (checkAndReturn_wf _ _ Hwf3). by eexists _, _.
Qed.

(** ** Restoring a configuration from its ConfState *)

Lemma add_fold o ids r :
  0 ∉ ids →
  foldl (change_roles o) r (map (MkCCS ConfChangeAddNode) ids) =
  Roles (r_inc r ∪ list_to_set ids) (r_lrn r ∖ list_to_set ids) (r_nxt r ∖ list_to_set ids).
Proof.
  revert r. induction ids as [|id ids IH]; intros r H0.
  { destruct r. apply roles_eq; cbn; set_solver. }
  apply not_elem_of_cons in H0 as [H0 H0'].
  cbn [map foldl]. rewrite IH by done. unfold change_roles. cbn [cc_NodeID cc_Type].
  rewrite (proj2 (N.eqb_neq id 0)) by done. apply roles_eq; cbn; set_solver.
Qed.

Lemma remove_fold o ids r :
  0 ∉ ids →
  foldl (change_roles o) r (map (MkCCS ConfChangeRemoveNode) ids) =
  Roles (r_inc r ∖ list_to_set ids) (r_lrn r ∖ list_to_set ids) (r_nxt r ∖ list_to_set ids).
Proof.
  revert r. induction ids as [|id ids IH]; intros r H0.
  { destruct r. apply roles_eq; cbn; set_solver. }
  apply not_elem_of_cons in H0 as [H0 H0'].
  cbn [map foldl]. rewrite IH by done. unfold change_roles. cbn [cc_NodeID cc_Type].
  rewrite (proj2 (N.eqb_neq id 0)) by done. apply roles_eq; cbn; set_solver.
Qed.

Lemma learner_fold (o : gset N) ids r :
  0 ∉ ids → NoDup ids → (∀ id, id ∈ ids → id ∉ r_lrn r) → (∀ id, id ∈ ids → id ∉ r_inc r) →
  ((∀ id, id ∈ ids → id ∉ o) →
     foldl (change_roles o) r (map (MkCCS ConfChangeAddLearnerNode) ids) =
     Roles (r_inc r) (r_lrn r ∪ list_to_set ids) (r_nxt r)) ∧
  ((∀ id, id ∈ ids → id ∈ o) →
     foldl (change_roles o) r (map (MkCCS ConfChangeAddLearnerNode) ids) =
     Roles (r_inc r) (r_lrn r) (r_nxt r ∪ list_to_set ids)).
Proof.
  revert r. induction ids as [|id ids IH]; intros r H0 Hnd Hl Hi.
  { split; intros _; destruct r; apply roles_eq; cbn; set_solver. }
  apply not_elem_of_cons in H0 as [H0 H0']. apply NoDup_cons in Hnd as [Hni Hnd].
  cbn [map foldl]. unfold change_roles at 2 4. cbn [cc_NodeID cc_Type].
  rewrite (proj2 (N.eqb_neq id 0)) by done. unfold learner_roles.
  rewrite (bool_decide_eq_false_2 (id ∈ r_lrn r)) by (apply Hl; by left).
  split; intros Ho.
  - rewrite bool_decide_eq_false_2 by (apply Ho; by left).
    match goal with |- foldl _ ?r1 _ = _ =>
      destruct (IH r1 H0' Hnd) as [IH1 _]; [cbn; set_solver..|] end.
    rewrite IH1 by set_solver.
    apply roles_eq; cbn; set_solver.
  - rewrite bool_decide_eq_true_2 by (apply Ho; by left).
    match goal with |- foldl _ ?r1 _ = _ =>
      destruct (IH r1 H0' Hnd) as [_ IH2]; [cbn; set_solver..|] end.
    rewrite IH2 by set_solver.
    apply roles_eq; cbn; set_solver.
Qed.

(** ** Quorums across a change *)

(** Majorities of two voter sets that differ in at most one node overlap. *)
Lemma quorum_of_neighbours (s t : gset N) p q :
  s ≠ ∅ → t ≠ ∅ → (size (s ∖ t) + size (t ∖ s) ≤ 1)%nat →
  quorum_of (Some s) p → quorum_of (Some t) q → ∃ id, id ∈ s ∧ id ∈ t ∧ p id = true ∧ q id = true.
Proof.
  intros Hs Ht Hd [|Hp] [|Hq]; [done..|]. unfold keys, default, from_option, id in *.
  set (f := λ id, bool_decide (id ∈ s) && p id). set (g := λ id, bool_decide (id ∈ t) && q id).
  assert (Hcount : ∀ (a : gset N) h, a ⊆ s ∪ t →
    countb (λ id, bool_decide (id ∈ a) && h id) (elements (s ∪ t)) = countb h (elements a)).
  { intros a h Ha. rewrite (countb_perm _ _ (elements a ++ elements ((s ∪ t) ∖ a))).
    2:{ rewrite <- elements_disj_union by set_solver. f_equiv. by apply union_difference. }
    rewrite countb_app, (countb_none _ (elements (_ ∖ a))), Nat.add_0_r.
    - apply countb_ext. intros x Hx%elem_of_elements. by rewrite bool_decide_eq_true_2.
    - intros x Hx%elem_of_elements. rewrite bool_decide_eq_false_2; [done|set_solver]. }
  destruct (countb_overlap f g (elements (s ∪ t))) as (x & _ & Hf & Hg).
  - unfold f, g. rewrite !Hcount by set_solver.
    change (length (elements (s ∪ t))) with (size (s ∪ t)).
    pose proof (size_union_alt s t). pose proof (size_union_alt t s).
    replace (t ∪ s) with (s ∪ t) in * by set_solver.
    unfold majority in *.
    pose proof (Nat.div_mod_eq (size s) 2). pose proof (Nat.div_mod_eq (size t) 2).
    pose proof (Nat.mod_upper_bound (size s) 2). pose proof (Nat.mod_upper_bound (size t) 2). lia.
  - unfold f, g in *. apply andb_prop in Hf as [?%bool_decide_eq_true ?], Hg as [?%bool_decide_eq_true ?].
    by exists x.
Qed.

(** ** Round trip through a ConfState *)

(** A well-formed configuration is determined by its sets. *)
Lemma config_ext cfg prs cfg' prs' :
  config_wf cfg prs → config_wf cfg' prs' → roles_of cfg = roles_of cfg' →
  out cfg = out cfg' → AutoLeave cfg = AutoLeave cfg' → cfg = cfg'.
Proof.
  intros [Hi _ _ _ _ _ [Hl Hn] Hs] [Hi' _ _ _ _ _ [Hl' Hn'] Hs'] Hr Ho Ha.
  assert (Hkeys : ∀ m m' : option (gset N), m ≠ Some ∅ → m' ≠ Some ∅ → keys m = keys m' → m = m').
  { intros [s|] [s'|] ?? E; cbn in E; unfold id in E; congruence. }
  unfold roles_of in Hr. injection Hr as Hri Hrl Hrn.
  destruct cfg as [[i o] a l n], cfg' as [[i' o'] a' l' n'].
  unfold inc, out, lrn, nxt in *. cbn in *. f_equal; [|done|by apply Hkeys..].
  f_equal.
  - destruct i, i'; try done. cbn in Hri. unfold id in Hri. congruence.
  - apply Hkeys; [| |done]; intros ->; [destruct (Hs eq_refl)|destruct (Hs' eq_refl)]; done.
Qed.

(** Every step of a list of single simple changes leaves a voter. *)
Fixpoint keeps_voters (s : gset N) (ccs : list ConfChangeSingle) : Prop :=
  match ccs with
  | [] => True
  | cc :: ccs' => voters_after s cc ≠ ∅ ∧ keeps_voters (voters_after s cc) ccs'
  end.

Lemma keeps_voters_app s l k :
  keeps_voters s (l ++ k) ↔ keeps_voters s l ∧ keeps_voters (foldl voters_after s l) k.
Proof.
  revert s. induction l as [|cc l IH]; intros s; cbn [keeps_voters app foldl]; [tauto|].
  rewrite IH. tauto.
Qed.

Lemma voters_after_diff s cc :
  (size (s ∖ voters_after s cc) + size (voters_after s cc ∖ s) ≤ 1)%nat.
Proof.
  unfold voters_after.
  assert (Hsame : (size (s ∖ s) + size (s ∖ s) ≤ 1)%nat) by
    (rewrite (difference_diag_L s), size_empty; lia).
  assert (Hsub : ∀ x, (size (s ∖ (s ∖ {[x]})) + size ((s ∖ {[x]}) ∖ s) ≤ 1)%nat).
  { intros x. replace ((s ∖ {[x]}) ∖ s) with (∅ : gset N) by set_solver.
    rewrite size_empty, <- (size_singleton (C := gset N) x), Nat.add_0_r.
    apply subseteq_size. intros y Hy. destruct (decide (y = x)); set_solver. }
  destruct (cc_NodeID cc =? 0); [done|]. destruct (cc_Type cc); try apply Hsub; try done.
  replace (s ∖ (s ∪ {[cc_NodeID cc]})) with (∅ : gset N) by set_solver.
  rewrite size_empty, <- (size_singleton (C := gset N) (cc_NodeID cc)). apply subseteq_size. set_solver.
Qed.

Definition with_config (chg : Changer) (cfg : Config) (prs : ProgressMap) : Changer :=
  MkChanger ((ch_Tracker chg) <| t_Config := cfg |> <| t_Progress := prs |>) (ch_LastIndex chg).

(** A chain of single simple changes composes their effects. *)
Lemma chain_simple ccs rest chg :
  config_wf (t_Config (ch_Tracker chg)) (t_Progress (ch_Tracker chg)) →
  out (t_Config (ch_Tracker chg)) = ∅ → forallb known_change ccs = true →
  keeps_voters (inc (t_Config (ch_Tracker chg))) ccs →
  ∃ cfg' prs',
    chain chg (map (λ cc chg, Simple chg [cc]) ccs ++ rest) =
      chain (with_config chg cfg' prs') rest ∧
    config_wf cfg' prs' ∧ out cfg' = ∅ ∧
    roles_of cfg' = foldl (change_roles ∅) (roles_of (t_Config (ch_Tracker chg))) ccs.
Proof.
  revert chg. induction ccs as [|cc ccs IH]; intros chg Hwf Ho Hk Hv.
  { exists (t_Config (ch_Tracker chg)), (t_Progress (ch_Tracker chg)). split_and!; try done.
    cbn [map app]. f_equal. by destruct chg as [[] ?]. }
  cbn [forallb] in Hk. apply andb_prop in Hk as [Hk Hks]. destruct Hv as [Hv Hvs].
  pose proof (Simple_wf chg Hwf [cc]) as Hs. cbn zeta in Hs. cbn [foldl forallb] in Hs.
  rewrite Hk, !bool_decide_eq_true_2 in Hs; [|apply voters_after_diff|done|done].
  destruct Hs as (cfg1 & prs1 & Hs & Hwf1 & Hi1 & Ho1 & Hr1).
  cbn [map app chain]. rewrite Hs. cbn [try_bind]. fold (with_config chg cfg1 prs1).
  destruct (IH (with_config chg cfg1 prs1) Hwf1 Ho1 Hks) as (cfg' & prs' & -> & Hwf' & Ho' & Hr').
  { cbn. by rewrite Hi1. }
  exists cfg', prs'. split_and!; try done. rewrite Hr'. cbn [foldl]. f_equal. exact Hr1.
Qed.

Lemma keeps_voters_learners s ids :
  s ≠ ∅ → (∀ id, id ∈ ids → id ∉ s) →
  keeps_voters s (map (MkCCS ConfChangeAddLearnerNode) ids).
Proof.
  intros Hs. induction ids as [|i ids IH]; intros Hids; [done|]. cbn [map keeps_voters].
  assert (Hv : voters_after s (MkCCS ConfChangeAddLearnerNode i) = s).
  { unfold voters_after. cbn [cc_NodeID cc_Type]. destruct (i =? 0); [done|].
    assert (i ∉ s) by (apply Hids; by left). set_solver. }
  rewrite Hv. split; [done|]. apply IH. intros id Hid. apply Hids. by right.
Qed.

Lemma keeps_voters_add s ids :
  0 ∉ ids → keeps_voters s (map (MkCCS ConfChangeAddNode) ids).
Proof.
  revert s. induction ids as [|i ids IH]; intros s H0'; [done|].
  apply not_elem_of_cons in H0' as [H0 H0'].
  cbn [map keeps_voters]. split; [|by apply IH]. unfold voters_after. cbn [cc_NodeID cc_Type].
  rewrite (proj2 (N.eqb_neq i 0)) by done. set_solver.
Qed.

Lemma elem_of_Slice c id : id ∈ Slice c ↔ id ∈ keys c.
Proof. destruct (Slice_spec c) as [H _]. by rewrite H, elem_of_elements. Qed.
Lemma NoDup_Slice c : NoDup (Slice c).
Proof. destruct (Slice_spec c) as [H _]. rewrite H. apply NoDup_elements. Qed.
Lemma Slice_set c : list_to_set (Slice c) = keys c.
Proof. apply set_eq. intros id. by rewrite elem_of_list_to_set, elem_of_Slice. Qed.

(** The changes [toConfChangeSingle] computes for the incoming configuration. *)
Lemma fold_in_changes o i l x r :
  0 ∉ keys o ∪ keys i ∪ keys l → r_inc r = keys o → r_lrn r = ∅ → r_nxt r = ∅ →
  keys x ⊆ keys o → keys x ## keys i → keys l ## keys i ∪ keys o →
  foldl (change_roles (keys o)) r (map (MkCCS ConfChangeRemoveNode) (Slice o)
    ++ map (MkCCS ConfChangeAddNode) (Slice i)
    ++ map (MkCCS ConfChangeAddLearnerNode) (Slice l)
    ++ map (MkCCS ConfChangeAddLearnerNode) (Slice x)) = Roles (keys i) (keys l) (keys x).
Proof.
  intros H0 Hi Hl Hx Hxo Hxi Hlio.
  rewrite !foldl_app, remove_fold, add_fold by (rewrite elem_of_Slice; set_solver).
  set (r2 := Roles (_ ∪ _) _ _).
  assert (Hr2 : r2 = Roles (keys i) ∅ ∅).
  { unfold r2. cbn [r_inc r_lrn r_nxt]. rewrite Hi, Hl, Hx, !Slice_set.
    apply roles_eq; cbn [r_inc r_lrn r_nxt]; set_solver. }
  rewrite Hr2. clear r2 Hr2 Hi Hl Hx r.
  destruct (learner_fold (keys o) (Slice l) (Roles (keys i) ∅ ∅)) as [-> _].
  { rewrite elem_of_Slice. set_solver. }
  { apply NoDup_Slice. }
  1-2: intros id; cbn [r_inc r_lrn]; rewrite elem_of_Slice; set_solver.
  2:{ intros id. rewrite elem_of_Slice. set_solver. }
  cbn [r_inc r_lrn r_nxt].
  destruct (learner_fold (keys o) (Slice x) (Roles (keys i) (∅ ∪ list_to_set (Slice l)) ∅)) as [_ ->].
  { rewrite elem_of_Slice. set_solver. }
  { apply NoDup_Slice. }
  1-2: intros id; cbn [r_inc r_lrn]; rewrite ?Slice_set, elem_of_Slice; set_solver.
  2:{ intros id. rewrite elem_of_Slice. set_solver. }
  cbn [r_inc r_lrn r_nxt]. rewrite !Slice_set. apply roles_eq; cbn [r_inc r_lrn r_nxt]; set_solver.
Qed.

Lemma known_map t ids :
  (∀ n, t ≠ ConfChangeUnknown n) → forallb known_change (map (MkCCS t) ids) = true.
Proof.
  intros Ht. induction ids as [|i ids IH]; [done|]. cbn [map forallb]. rewrite IH, andb_true_r.
  unfold known_change. cbn [cc_NodeID cc_Type]. destruct (i =? 0); [done|].
  destruct t; [done..|]. by destruct (Ht code).
Qed.

Lemma known_in_changes o i l x :
  forallb known_change (map (MkCCS ConfChangeRemoveNode) (Slice o)
    ++ map (MkCCS ConfChangeAddNode) (Slice i)
    ++ map (MkCCS ConfChangeAddLearnerNode) (Slice l)
    ++ map (MkCCS ConfChangeAddLearnerNode) (Slice x)) = true.
Proof. by rewrite !forallb_app, !known_map. Qed.

Lemma empty_wf m : let t := MakeProgressTracker m in config_wf (t_Config t) (t_Progress t).
Proof.
  cbn. split; cbn; try done; set_solver.
Qed.

Lemma keeps_voters_ins i l x :
  0 ∉ Slice i → keys i ≠ ∅ → (∀ id, id ∈ Slice l ++ Slice x → id ∉ keys i) →
  keeps_voters ∅ (map (MkCCS ConfChangeAddNode) (Slice i)
    ++ map (MkCCS ConfChangeAddLearnerNode) (Slice l)
    ++ map (MkCCS ConfChangeAddLearnerNode) (Slice x)).
Proof.
  intros H0 Hi Hd. rewrite <- map_app, keeps_voters_app. split; [by apply keeps_voters_add|].
  change ∅ with (r_inc (Roles ∅ ∅ ∅)).
  rewrite <- (inc_changes_roles ∅), add_fold, Slice_set by done. cbn [r_inc].
  apply keeps_voters_learners; [set_solver|]. intros id Hid. specialize (Hd id Hid). set_solver.
Qed.

(** [Restore] rebuilds exactly the configuration a [ConfState] describes. *)
Lemma Restore_wf t m lastIndex :
  config_wf (t_Config t) (t_Progress t) → inc (t_Config t) ≠ ∅ → t_Progress t !! 0 = None →
  ∃ prs, Restore (MkChanger (MakeProgressTracker m) lastIndex) (tracker_ConfState t) =
           Ok (Val (t_Config t, prs)) ∧
         config_wf (t_Config t) prs.
Proof.
  intros Hwf Hne H0%not_elem_of_dom. rewrite (wf_dom _ _ Hwf) in H0.
  pose proof (wf_next _ _ Hwf) as Hn. pose proof (wf_next_in _ _ Hwf) as Hni.
  pose proof (wf_learners _ _ Hwf) as Hl. set (cfg := t_Config t) in *.
  assert (H00 : ∀ c, c = incoming (Voters cfg) ∨ c = outgoing (Voters cfg) ∨ c = Learners cfg →
    0 ∉ Slice c).
  { intros c. rewrite elem_of_Slice. unfold inc, out, lrn in *. intros [-> | [-> | ->]]; set_solver. }
  assert (Hfold : ∀ r, r_inc r = out cfg → r_lrn r = ∅ → r_nxt r = ∅ →
    foldl (change_roles (out cfg)) r (map (MkCCS ConfChangeRemoveNode) (Slice (outgoing (Voters cfg)))
    ++ map (MkCCS ConfChangeAddNode) (Slice (incoming (Voters cfg)))
    ++ map (MkCCS ConfChangeAddLearnerNode) (Slice (Learners cfg))
    ++ map (MkCCS ConfChangeAddLearnerNode) (Slice (LearnersNext cfg))) = roles_of cfg).
  { intros r Hr1 Hr2 Hr3. apply fold_in_changes; try done. set_solver. }
  unfold Restore, tracker_ConfState, toConfChangeSingle. fold cfg.
  cbn [cs_Voters cs_Learners cs_VotersOutgoing cs_LearnersNext cs_AutoLeave].
  set (chg := MkChanger _ _).
  pose proof (empty_wf m : config_wf (t_Config (ch_Tracker chg)) (t_Progress (ch_Tracker chg))) as Hwf0.
  match goal with |- context [map (λ cc chg, Simple chg [cc]) ?l] => set (ins := l) in * end.
  assert (Hins : forallb known_change ins = true) by apply known_in_changes.
  set (outs := map (MkCCS ConfChangeAddNode) (Slice (outgoing (Voters cfg)))).
  assert (Hdone : ∀ cfg' prs', config_wf cfg' prs' → roles_of cfg' = roles_of cfg →
    out cfg' = out cfg → AutoLeave cfg' = AutoLeave cfg →
    ∃ prs, Ok (Val (cfg', prs')) = Ok (Val (cfg, prs)) ∧ config_wf cfg prs).
  { intros cfg' prs' Hw Hr Ho Ha. rewrite <- (config_ext cfg' prs' cfg _ Hw Hwf Hr Ho Ha). eauto. }
  destruct (decide (out cfg = ∅)) as [Ho|Ho].
  - assert (Hsl : Slice (outgoing (Voters cfg)) = []).
    { apply elem_of_nil_inv. intros id. rewrite elem_of_Slice. fold (out cfg). set_solver. }
    unfold outs. rewrite Hsl. cbn [map]. rewrite <- (app_nil_r (map _ ins)).
    destruct (chain_simple ins [] chg) as (cfg' & prs' & -> & Hwf' & Ho' & Hr'); try done.
    { unfold ins. rewrite Hsl. cbn [map app]. change (inc _) with (∅ : gset N).
      apply keeps_voters_ins; [auto|done|]. intros id. rewrite elem_of_app, !elem_of_Slice.
      change (id ∈ lrn cfg ∨ id ∈ nxt cfg → id ∉ inc cfg). set_solver. }
    cbn [chain]. apply (Hdone cfg' prs'); [done| |by rewrite Ho', Ho|].
    + rewrite Hr'. rewrite <- Ho. by apply Hfold.
    + destruct (wf_simple _ _ Hwf Ho) as (_ & _ & ->).
      by destruct (wf_simple _ _ Hwf' Ho') as (_ & _ & ->).
  - replace (match outs with [] => _ | _ => _ end) with
      (map (λ cc chg, Simple chg [cc]) outs ++ [λ chg, EnterJoint chg (AutoLeave cfg) ins]).
    2:{ unfold outs. destruct (Slice (outgoing (Voters cfg))) eqn:Hsl; [|done]. destruct Ho.
        apply set_eq. intros id. unfold out. rewrite <- elem_of_Slice, Hsl. set_solver. }
    destruct (chain_simple outs [λ chg, EnterJoint chg (AutoLeave cfg) ins] chg)
      as (cfg1 & prs1 & -> & Hwf1 & Ho1 & Hr1); try done.
    { by apply known_map. }
    { apply keeps_voters_add. auto. }
    unfold outs in Hr1. rewrite add_fold, Slice_set in Hr1 by auto. fold (out cfg) in Hr1.
    injection Hr1 as Hi1 Hl1 Hn1. cbn [chain].
    set (c1 := with_config chg cfg1 prs1).
    assert (Hi : inc cfg1 = out cfg) by (rewrite Hi1; cbn; set_solver).
    pose proof (EnterJoint_wf c1 Hwf1 (AutoLeave cfg) ins) as He. cbn in He.
    assert (Hr : foldl (change_roles (out cfg)) (roles_of cfg1) ins = roles_of cfg).
    { apply Hfold; cbn [roles_of r_lrn r_nxt r_inc] in *; [done|rewrite Hl1|rewrite Hn1]; cbn;
        clear; set_solver. }
    rewrite Hi, Hins, !bool_decide_eq_true_2, Hr in He; try done.
    2:{ replace (out cfg) with (r_inc (roles_of cfg1)) by done.
        rewrite <- (inc_changes_roles (out cfg)), Hr. done. }
    destruct He as (cfg2 & prs2 & -> & Hwf2 & _ & Ho2 & Ha2 & Hr2). cbn [try_bind chain].
    apply (Hdone cfg2 prs2); done.
Qed.

(** ** Properties *)

(** An executable version of the invariant, for closed instances. *)
Definition config_ok (cfg : Config) (prs : ProgressMap) : bool :=
  bool_decide (incoming (Voters cfg) ≠ None ∧ dom prs = inc cfg ∪ out cfg ∪ lrn cfg ∧
    nxt cfg ⊆ out cfg ∧ nxt cfg ## inc cfg ∧ lrn cfg ## inc cfg ∪ out cfg ∧
    map_Forall (λ id pr, pr_IsLearner pr = bool_decide (id ∈ lrn cfg)) prs ∧
    Learners cfg ≠ Some ∅ ∧ LearnersNext cfg ≠ Some ∅ ∧
    (out cfg ≠ ∅ ∨
     outgoing (Voters cfg) = None ∧ LearnersNext cfg = None ∧ AutoLeave cfg = false)).

Lemma config_ok_wf cfg prs : config_ok cfg prs = true → config_wf cfg prs.
Proof.
  intros H%bool_decide_eq_true. destruct_and! H. split; try done.
  - intros id pr Hpr. rewrite (H4 id pr Hpr). by rewrite bool_decide_eq_true.
  - naive_solver.
Qed.

(** A simple configuration with three voters and a learner, and a joint one
    with a staged learner. *)
Definition ex_progress (learners : list N) (ids : list N) : ProgressMap :=
  list_to_map (map (λ id, (id, MkProgress 0 1 StateProbe 0 true false (NewInflights 4)
                                 (bool_decide (id ∈ learners)))) ids).
Definition ex_simple : Changer :=
  MkChanger (MkTracker (MkConfig (Joint (Some {[1; 2; 3]}) None) false (Some {[4]}) None)
               (ex_progress [4] [1; 2; 3; 4]) ∅ 4) 10.
Definition ex_leaving : Changer :=
  MkChanger (MkTracker (MkConfig (Joint (Some {[1; 5]}) (Some {[1; 2; 3]})) true
                          (Some {[4]}) (Some {[3]}))
               (ex_progress [4] [1; 2; 3; 4; 5]) ∅ 4) 10.

(** Splits a hypothesis [if b then _ else _]. *)
Ltac branch_of H :=
  lazymatch type of H with if ?b then _ else _ => let E := fresh "Hb" in destruct b eqn:E end.

Lemma quorum_of_keys c c' p : keys c = keys c' → quorum_of c p → quorum_of c' p.
Proof. unfold quorum_of. by intros ->. Qed.

Lemma Simple_neighbours c ccs cfg' prs' :
  config_wf (t_Config (ch_Tracker c)) (t_Progress (ch_Tracker c)) →
  Simple c ccs = Ok (Val (cfg', prs')) → let cfg := t_Config (ch_Tracker c) in
  inc cfg' ≠ ∅ ∧ (size (inc cfg ∖ inc cfg') + size (inc cfg' ∖ inc cfg) ≤ 1)%nat.
Proof.
  intros Hwf H cfg. pose proof (Simple_wf c Hwf ccs) as Hs. cbn zeta in Hs. rewrite H in Hs.
  branch_of Hs; [|by destruct Hs]. destruct Hs as (? & ? & [= <- <-] & _ & -> & _).
  apply andb_prop in Hb as [Hb Hd%bool_decide_eq_true].
  apply andb_prop in Hb as [_ Hv%bool_decide_eq_true]. done.
Qed.

(** C30: from a well-formed configuration [Changer.EnterJoint] succeeds exactly
    when the configuration is not joint, has a voter, every change is of a known
    kind and a voter is left; the result is well-formed, its outgoing voters are
    the old incoming ones and its roles are the old ones with the changes applied
    in order.  Otherwise it returns an error, and it never panics. *)
Theorem EnterJoint_spec (c : Changer) (autoLeave : bool) (ccs : list ConfChangeSingle) :
  let cfg := t_Config (ch_Tracker c) in
  config_wf cfg (t_Progress (ch_Tracker c)) →
  if bool_decide (out cfg = ∅) && bool_decide (inc cfg ≠ ∅) && forallb known_change ccs
     && bool_decide (foldl voters_after (inc cfg) ccs ≠ ∅)
  then ∃ cfg' prs', EnterJoint c autoLeave ccs = Ok (Val (cfg', prs')) ∧
         config_wf cfg' prs' ∧ inc cfg' = foldl voters_after (inc cfg) ccs ∧
         out cfg' = inc cfg ∧ AutoLeave cfg' = autoLeave ∧
         roles_of cfg' = foldl (change_roles (inc cfg)) (roles_of cfg) ccs
  else ∃ e, EnterJoint c autoLeave ccs = Ok (Err e).
Proof. intros cfg Hwf. by apply EnterJoint_wf. Qed.

Lemma EnterJoint_spec_witness :
  ∃ cfg' prs', EnterJoint ex_simple true
      [MkCCS ConfChangeAddLearnerNode 3; MkCCS ConfChangeAddNode 5] = Ok (Val (cfg', prs')) ∧
    out cfg' = {[1; 2; 3]} ∧ inc cfg' = {[1; 2; 5]}.
Proof.
  destruct (EnterJoint_spec ex_simple true
      [MkCCS ConfChangeAddLearnerNode 3; MkCCS ConfChangeAddNode 5])
    as (cfg' & prs' & H & _ & Hi & Ho & _).
  { apply config_ok_wf. vm_compute. reflexivity. }
  exists cfg', prs'. split; [exact H|]. rewrite Hi, Ho. split; [done|].
  vm_compute. reflexivity.
Defined.

(** C31: from a well-formed configuration [Changer.LeaveJoint] succeeds exactly
    when the configuration is joint; the result is well-formed, keeps the
    incoming voters as its only voters, and turns the staged learners into
    learners. *)
Theorem LeaveJoint_spec (c : Changer) :
  let cfg := t_Config (ch_Tracker c) in
  config_wf cfg (t_Progress (ch_Tracker c)) →
  if bool_decide (out cfg = ∅) then ∃ e, LeaveJoint c = Ok (Err e)
  else ∃ cfg' prs', LeaveJoint c = Ok (Val (cfg', prs')) ∧ config_wf cfg' prs' ∧
         inc cfg' = inc cfg ∧ out cfg' = ∅ ∧ lrn cfg' = lrn cfg ∪ nxt cfg ∧ nxt cfg' = ∅.
Proof. apply LeaveJoint_wf. Qed.

Lemma LeaveJoint_spec_witness :
  ∃ cfg' prs', LeaveJoint ex_leaving = Ok (Val (cfg', prs')) ∧ inc cfg' = {[1; 5]} ∧
    lrn cfg' = {[3; 4]}.
Proof.
  destruct (LeaveJoint_spec ex_leaving) as (cfg' & prs' & H & _ & Hi & _ & Hl & _).
  { apply config_ok_wf. vm_compute. reflexivity. }
  exists cfg', prs'. split; [exact H|]. rewrite Hi, Hl. split; [done|].
  vm_compute. reflexivity.
Defined.

(** from a well-formed configuration [Changer.Simple] succeeds exactly when
    the configuration is not joint, every change is of a known kind, a voter is
    left and at most one voter was added or removed in all; the result is
    well-formed, not joint, and has the changes applied. *)
Theorem Simple_spec (c : Changer) (ccs : list ConfChangeSingle) :
  let cfg := t_Config (ch_Tracker c) in
  let voters := foldl voters_after (inc cfg) ccs in
  config_wf cfg (t_Progress (ch_Tracker c)) →
  if bool_decide (out cfg = ∅) && forallb known_change ccs && bool_decide (voters ≠ ∅)
     && bool_decide (size (inc cfg ∖ voters) + size (voters ∖ inc cfg) ≤ 1)%nat
  then ∃ cfg' prs', Simple c ccs = Ok (Val (cfg', prs')) ∧ config_wf cfg' prs' ∧
         inc cfg' = voters ∧ out cfg' = ∅ ∧
         roles_of cfg' = foldl (change_roles ∅) (roles_of cfg) ccs
  else ∃ e, Simple c ccs = Ok (Err e).
Proof. intros cfg voters Hwf. by apply Simple_wf. Qed.

Lemma Simple_spec_witness :
  (∃ e, Simple ex_simple [MkCCS ConfChangeAddNode 5; MkCCS ConfChangeRemoveNode 1] = Ok (Err e)) ∧
  ∃ cfg' prs', Simple ex_simple [MkCCS ConfChangeAddNode 4] = Ok (Val (cfg', prs')) ∧
    roles_of cfg' = Roles {[1; 2; 3; 4]} ∅ ∅.
Proof.
  assert (Hwf : config_wf (t_Config (ch_Tracker ex_simple)) (t_Progress (ch_Tracker ex_simple))).
  { apply config_ok_wf. vm_compute. reflexivity. }
  split.
  - exact (Simple_spec ex_simple [MkCCS ConfChangeAddNode 5; MkCCS ConfChangeRemoveNode 1] Hwf).
  - destruct (Simple_spec ex_simple [MkCCS ConfChangeAddNode 4] Hwf)
      as (cfg' & prs' & H & _ & _ & _ & Hr).
    exists cfg', prs'. split; [exact H|]. rewrite Hr. vm_compute. reflexivity.
Defined.

(** C19: the safety of a reconfiguration.  Whichever way a well-formed
    configuration with a voter is changed -- a simple change, entering or leaving
    a joint configuration -- every quorum of the configuration before the change
    shares a voter with every quorum of the configuration after it. *)
Theorem reconfiguration_quorums_overlap (c : Changer) ccs autoLeave cfg' prs' (p q : N → bool) :
  let cfg := t_Config (ch_Tracker c) in
  config_wf cfg (t_Progress (ch_Tracker c)) → inc cfg ≠ ∅ →
  Simple c ccs = Ok (Val (cfg', prs')) ∨ EnterJoint c autoLeave ccs = Ok (Val (cfg', prs')) ∨
    LeaveJoint c = Ok (Val (cfg', prs')) →
  joint_quorum (Voters cfg) p → joint_quorum (Voters cfg') q →
  ∃ id, id ∈ IDs (Voters cfg) ∧ id ∈ IDs (Voters cfg') ∧ p id = true ∧ q id = true.
Proof.
  intros cfg Hwf Hne Hstep Hp Hq.
  assert (Hover : ∃ id, (id ∈ inc cfg ∨ id ∈ out cfg) ∧ (id ∈ inc cfg' ∨ id ∈ out cfg') ∧
                        p id = true ∧ q id = true).
  2:{ destruct Hover as (id & Hi & Hi' & ?). exists id. unfold IDs. fold (inc cfg) (out cfg).
      fold (inc cfg') (out cfg'). set_solver. }
  destruct Hp as [Hp Hpo], Hq as [Hq Hqo].
  apply (quorum_of_keys _ (Some (inc cfg))) in Hp; [|done].
  apply (quorum_of_keys _ (Some (inc cfg'))) in Hq; [|done].
  destruct Hstep as [H|[H|H]].
  - apply (Simple_neighbours c _ _ _ Hwf) in H as (Hne' & Hd). fold cfg in Hd.
    destruct (quorum_of_neighbours _ _ p q Hne Hne' Hd Hp Hq) as (id & ? & ? & ?).
    exists id. split; [by left|]. split; [by left|done].
  - pose proof (EnterJoint_wf c Hwf autoLeave ccs) as Hs. rewrite H in Hs.
    branch_of Hs; [|by destruct Hs].
    destruct Hs as (? & ? & [= <- <-] & _ & _ & Ho & _). fold cfg in Ho.
    apply (quorum_of_keys _ (Some (inc cfg))) in Hqo; [|done].
    destruct (quorum_of_overlap (Some (inc cfg)) p q Hne Hp Hqo) as (id & Hid & ?).
    exists id. rewrite Ho. split; [by left|]. split; [by right|done].
  - pose proof (LeaveJoint_wf c Hwf) as Hs. cbn zeta in Hs. rewrite H in Hs.
    branch_of Hs; [by destruct Hs|].
    destruct Hs as (? & ? & [= <- <-] & _ & Hi & _). fold cfg in Hi. rewrite Hi in *.
    destruct (quorum_of_overlap (Some (inc cfg)) p q Hne Hp Hq) as (id & Hid & ?).
    exists id. split; [by left|]. split; [by left|done].
Qed.

Lemma reconfiguration_quorums_overlap_witness :
  ∃ id, id ∈ IDs (Joint (Some {[1; 2; 3]}) None) ∧
    (bool_decide (id ∈ [1; 2])) = true ∧ (bool_decide (id ∈ [2; 3; 5; 6])) = true.
Proof.
  set (ccs := [MkCCS ConfChangeAddNode 5; MkCCS ConfChangeRemoveNode 1; MkCCS ConfChangeAddNode 6]).
  destruct (EnterJoint ex_simple false ccs) as [[[cfg' prs']|]|] eqn:H; [|vm_compute in H; done..].
  destruct (reconfiguration_quorums_overlap ex_simple ccs false cfg' prs'
    (λ id, bool_decide (id ∈ [1; 2])) (λ id, bool_decide (id ∈ [2; 3; 5; 6]))) as (id & ? & ? & ?).
  - apply config_ok_wf. vm_compute. reflexivity.
  - vm_compute. discriminate.
  - right. left. exact H.
  - split; vm_decide.
  - vm_compute in H. injection H as <- <-. split; vm_decide.
  - exists id. split; [assumption|assumption].
Defined.

(** C32: round trip.  Restoring, from an empty tracker, the [ConfState] of a
    well-formed tracker with a voter gives back the same configuration, with a
    progress for exactly the same nodes and the same learner flags. *)
Theorem Restore_ConfState (t : ProgressTracker) (maxInflight : Z) (lastIndex : N) :
  config_wf (t_Config t) (t_Progress t) → inc (t_Config t) ≠ ∅ → t_Progress t !! 0 = None →
  ∃ prs, Restore (MkChanger (MakeProgressTracker maxInflight) lastIndex) (tracker_ConfState t) =
           Ok (Val (t_Config t, prs)) ∧
         ∀ id, pr_IsLearner <$> prs !! id = pr_IsLearner <$> t_Progress t !! id.
Proof.
  intros Hwf Hne H0. destruct (Restore_wf t maxInflight lastIndex Hwf Hne H0) as (prs & H & Hwf').
  exists prs. split; [done|]. intros id.
  destruct (prs !! id) as [pr|] eqn:E, (t_Progress t !! id) as [pr'|] eqn:E'; cbn; [| | |done].
  - f_equal. apply eq_iff_eq_true. by rewrite (wf_flag _ _ Hwf' id pr E), (wf_flag _ _ Hwf id pr' E').
  - apply not_elem_of_dom in E'. rewrite (wf_dom _ _ Hwf), <- (wf_dom _ _ Hwf') in E'.
    by apply elem_of_dom_2 in E.
  - apply not_elem_of_dom in E. rewrite (wf_dom _ _ Hwf'), <- (wf_dom _ _ Hwf) in E.
    by apply elem_of_dom_2 in E'.
Qed.

Lemma Restore_ConfState_witness :
  ∃ prs, Restore (MkChanger (MakeProgressTracker 4) 10)
      (MkConfState [1; 5] [4] [1; 2; 3] [3] true) = Ok (Val (t_Config (ch_Tracker ex_leaving), prs)) ∧
    pr_IsLearner <$> prs !! 4 = Some true.
Proof.
  destruct (Restore_ConfState (ch_Tracker ex_leaving) 4 10) as (prs & H & Hl).
  - apply config_ok_wf. vm_compute. reflexivity.
  - vm_compute. discriminate.
  - vm_compute. reflexivity.
  - exists prs. split; [exact H|]. rewrite Hl. vm_compute. reflexivity.
Defined.
