(* ===== verification/Peers.v ===== *)
(** * What a configuration change does to the progress of the nodes

    A property of a progress that does not look at the learner flag, and holds of
    the progress given to a new node, holds of every progress after a change if it
    did before.  The well-formedness of the state machine (file RaftTotal) uses it
    for the flow-control invariant. *)

From S2P Require Import Prelude Pb Quorum Inflights Progress Tracker Confchange.

(** The progress that [initProgress] gives to a new node. *)
Definition new_peer (c : Changer) (isLearner : bool) : Progress :=
  MkProgress 0 (ch_LastIndex c) StateProbe 0 true false
    (NewInflights (t_MaxInflight (ch_Tracker c))) isLearner.

Section Peers.
Context (P : Progress → Prop) (Hflag : ∀ pr b, P pr → P (pr <| pr_IsLearner := b |>)).

Notation peers := (map_Forall (λ _ : N, P)).

(** The progress map of a change that returns. *)
Definition peers_after (res : outcome (result (Config * ProgressMap))) : Prop :=
  match res with Ok (Val (_, prs)) => peers prs | _ => True end.

Lemma peers_bind res f :
  peers_after res → (∀ cfg prs, peers prs → peers_after (f (cfg, prs))) →
  peers_after (try_bind res f).
Proof using Type. destruct res as [[[cfg prs]|]|]; [|done..]. intros Hp Hf. by apply Hf. Qed.

Lemma peers_checked cfg prs : peers prs → peers_after (checkAndReturn cfg prs).
Proof using Type. intros Hp. unfold checkAndReturn. by destruct (checkInvariants cfg prs) as [[]|]. Qed.

Section Changer.
Context (c : Changer) (Hnew : ∀ b, P (new_peer c b)).

Lemma initProgress_peers cfg prs id b cfg' prs' :
  peers prs → initProgress c cfg prs id b = Ok (cfg', prs') → peers prs'.
Proof using Hnew.
  intros Hp (cfg1 & _ & [= <- <-])%outcome_bind_Ok. apply map_Forall_insert_2; [|done].
  exact (Hnew b).
Qed.

Lemma makeVoter_peers cfg prs id cfg' prs' :
  peers prs → makeVoter c cfg prs id = Ok (cfg', prs') → peers prs'.
Proof using Hnew Hflag.
  intros Hp. unfold makeVoter. destruct (prs !! id) as [pr|] eqn:E; [|by apply initProgress_peers].
  intros (cfg1 & _ & [= <- <-])%outcome_bind_Ok. apply map_Forall_insert_2; [|done].
  apply Hflag. exact (map_Forall_lookup_1 _ _ _ _ Hp E).
Qed.

Lemma remove_peers cfg prs id : peers prs → peers (remove cfg prs id).2.
Proof using Type.
  intros Hp. unfold remove. destruct (prs !! id); [|done]. cbv zeta.
  case_bool_decide; [done|]. by apply map_Forall_delete.
Qed.

Lemma makeLearner_peers cfg prs id cfg' prs' :
  peers prs → makeLearner c cfg prs id = Ok (cfg', prs') → peers prs'.
Proof using Hnew Hflag.
  intros Hp. unfold makeLearner. destruct (prs !! id) as [pr|] eqn:E; [|by apply initProgress_peers].
  destruct (pr_IsLearner pr); [by intros [= <- <-]|].
  pose proof (remove_peers cfg prs id Hp) as Hr. destruct (remove cfg prs id) as [cfg1 prs1].
  assert (HP : P pr) by exact (map_Forall_lookup_1 _ _ _ _ Hp E).
  case_bool_decide; intros [= <- <-]; [by apply map_Forall_insert_2|].
  apply map_Forall_insert_2; [by apply Hflag|]. by apply map_Forall_insert_2.
Qed.

Lemma apply_one_peers cfg prs cc : peers prs → peers_after (apply_one c cfg prs cc).
Proof using Hnew Hflag.
  intros Hp. unfold apply_one. destruct (_ =? 0); [done|]. destruct (cc_Type cc); try done.
  - destruct (makeVoter _ _ _ _) as [[]|] eqn:E; [|done]. by eapply makeVoter_peers.
  - cbn. pose proof (remove_peers cfg prs (cc_NodeID cc) Hp). by destruct (remove _ _ _).
  - destruct (makeLearner _ _ _ _) as [[]|] eqn:E; [|done]. by eapply makeLearner_peers.
Qed.

Lemma apply_peers cfg prs ccs : peers prs → peers_after (apply c cfg prs ccs).
Proof using Hnew Hflag.
  intros Hp. unfold apply. apply peers_bind.
  - revert cfg prs Hp. induction ccs as [|cc ccs IH]; intros cfg prs Hp; cbn [apply_changes]; [done|].
    apply peers_bind; [by apply apply_one_peers|done].
  - intros cfg' prs' Hp'. by destruct (_ =? 0)%nat.
Qed.

Lemma checkAndCopy_peers : peers (t_Progress (ch_Tracker c)) → peers_after (checkAndCopy c).
Proof using Type. intros Hp. by apply peers_checked. Qed.

Lemma Simple_peers ccs : peers (t_Progress (ch_Tracker c)) → peers_after (Simple c ccs).
Proof using Hnew Hflag.
  intros Hp. unfold Simple. apply peers_bind; [by apply checkAndCopy_peers|]. intros cfg prs Hp1.
  destruct (joint cfg); [done|]. apply peers_bind; [by apply apply_peers|]. intros cfg2 prs2 Hp2.
  destruct (_ <? _)%nat; [done|by apply peers_checked].
Qed.

Lemma EnterJoint_peers autoLeave ccs :
  peers (t_Progress (ch_Tracker c)) → peers_after (EnterJoint c autoLeave ccs).
Proof using Hnew Hflag.
  intros Hp. unfold EnterJoint. apply peers_bind; [by apply checkAndCopy_peers|]. intros cfg prs Hp1.
  destruct (joint cfg); [done|]. destruct (_ =? 0)%nat; [done|].
  apply peers_bind; [by apply apply_peers|]. intros cfg2 prs2 Hp2. by apply peers_checked.
Qed.

Lemma promote_all_peers ids cfg prs cfg' prs' :
  peers prs → promote_all (cfg, prs) ids = Ok (cfg', prs') → peers prs'.
Proof using Hflag.
  revert cfg prs. induction ids as [|id ids IH]; intros cfg prs Hp; cbn [promote_all]; [by intros [= <- <-]|].
  intros ([cfg1 prs1] & Hn & Hr)%outcome_bind_Ok. apply (IH _ _) in Hr; [done|].
  unfold promote_next in Hn. cbn in Hn. destruct (prs !! id) as [pr|] eqn:E; [|done].
  injection Hn as _ <-. apply map_Forall_insert_2; [|done]. apply Hflag.
  exact (map_Forall_lookup_1 _ _ _ _ Hp E).
Qed.

Lemma LeaveJoint_peers : peers (t_Progress (ch_Tracker c)) → peers_after (LeaveJoint c).
Proof using Hflag.
  intros Hp. unfold LeaveJoint. apply peers_bind; [by apply checkAndCopy_peers|]. intros cfg prs Hp1.
  destruct (negb (joint cfg)); [done|]. destruct (_ =? 0)%nat; [done|].
  destruct (promote_all _ _) as [[cfg1 prs1]|] eqn:E; [|done]. cbn [mbind outcome_bind].
  apply peers_checked. apply (promote_all_peers _ _ _ _ _ Hp1) in E. revert prs1 E.
  induction (elements _) as [|id ids IH]; intros prs1 E; cbn [foldl]; [done|]. apply IH.
  unfold drop_outgoing. case_bool_decide; [by apply map_Forall_delete|done].
Qed.
End Changer.

(** [Restore] works with one last index and one window size. *)
Lemma chain_peers ops chg :
  (∀ op t, op ∈ ops → t_MaxInflight t = t_MaxInflight (ch_Tracker chg) → peers (t_Progress t) →
     peers_after (op (MkChanger t (ch_LastIndex chg)))) →
  peers (t_Progress (ch_Tracker chg)) → peers_after (chain chg ops).
Proof using Type.
  revert chg. induction ops as [|op ops IH]; intros chg Hops Hp; cbn [chain]; [done|].
  apply peers_bind.
  - destruct chg as [t li]. apply Hops; [by left|done|done].
  - intros cfg prs Hp'. apply IH; [|done]. intros op' t Hin Ht. apply Hops; [by right|exact Ht].
Qed.

Lemma Restore_peers chg cs :
  (∀ b, P (new_peer chg b)) → peers (t_Progress (ch_Tracker chg)) → peers_after (Restore chg cs).
Proof using Hflag.
  intros Hnew Hp. unfold Restore. destruct (toConfChangeSingle cs) as [outs ins].
  assert (Hn : ∀ t b, t_MaxInflight t = t_MaxInflight (ch_Tracker chg) →
    P (new_peer (MkChanger t (ch_LastIndex chg)) b)).
  { intros t b Ht. unfold new_peer. cbn. rewrite Ht. apply Hnew. }
  assert (Hsimple : ∀ l op t, op ∈ map (λ cc chg, Simple chg [cc]) l →
    t_MaxInflight t = t_MaxInflight (ch_Tracker chg) → peers (t_Progress t) →
    peers_after (op (MkChanger t (ch_LastIndex chg)))).
  { intros l op t (cc & -> & _)%list_elem_of_fmap Ht Hpt. apply Simple_peers; [|done].
    intros b. by apply Hn. }
  apply chain_peers; [|done]. intros op t Hop Ht Hpt. destruct outs as [|o outs]; [by eapply Hsimple|].
  apply elem_of_app in Hop as [Hop|Hop%list_elem_of_singleton]; [by eapply Hsimple|]. subst op.
  apply EnterJoint_peers; [|done]. intros b. by apply Hn.
Qed.
End Peers.
