(* ===== verification/Util.v ===== *)
(** * Small functions shared by the protocol (raft/protocol/util.go, node.go)

    The message-type predicates, [limitSize] and the emptiness tests of hard
    states and snapshots.  The functions that only format text for the log are
    not modelled. *)

From S2P Require Import Prelude Pb.

(** [min] and [max] of util.go. *)
Definition min (a b : N) : N := if b <? a then b else a.
Definition max (a b : N) : N := if b <? a then a else b.

(** [IsLocalMsg]. *)
Definition IsLocalMsg (msgt : MessageType) : bool :=
  bool_decide (msgt = MsgHup) || bool_decide (msgt = MsgBeat) ||
  bool_decide (msgt = MsgUnreachable) || bool_decide (msgt = MsgSnapStatus) ||
  bool_decide (msgt = MsgCheckQuorum).

(** [IsResponseMsg]. *)
Definition IsResponseMsg (msgt : MessageType) : bool :=
  bool_decide (msgt = MsgAppResp) || bool_decide (msgt = MsgVoteResp) ||
  bool_decide (msgt = MsgHeartbeatResp) || bool_decide (msgt = MsgUnreachable) ||
  bool_decide (msgt = MsgPreVoteResp).

(** [voteRespMsgType]. *)
Definition voteRespMsgType (msgt : MessageType) : outcome MessageType :=
  match msgt with
  | MsgVote => Ok MsgVoteResp
  | MsgPreVote => Ok MsgPreVoteResp
  | _ => Panic
  end.

(** [PayloadSize]. *)
Definition PayloadSize (e : Entry) : Z := Z.of_nat (String.length (e_Data e)).

(** [IsEmptySnap] of node.go: a snapshot at index zero. *)
Definition IsEmptySnap (sp : Snapshot) : bool := s_Index sp =? 0.

(** [isHardStateEqual] and [IsEmptyHardState] of node.go. *)
Definition emptyState : HardState := MkHardState 0 0 0.
Definition isHardStateEqual (a b : HardState) : bool :=
  (hs_Term a =? hs_Term b) && (hs_Vote a =? hs_Vote b) && (hs_Commit a =? hs_Commit b).
Definition IsEmptyHardState (st : HardState) : bool := isHardStateEqual st emptyState.

(** [math.MaxUint64], the package's [noLimit]. *)
Definition noLimit : N := maxUint64.

Section Sizes.
Context `{RaftPB}.

(** The loop of [limitSize]: how many entries of [ents] fit after entries of
    total size [size].  The sum is an [int] converted to [uint64]. *)
Fixpoint limit_from (size maxSize : N) (ents : list Entry) : nat :=
  match ents with
  | [] => 0
  | e :: ents' =>
      let size := size +u Entry_Size e in
      if maxSize <? size then 0 else S (limit_from size maxSize ents')
  end.

(** [limitSize]. *)
Definition limitSize (ents : list Entry) (maxSize : N) : list Entry :=
  match ents with
  | [] => ents
  | e :: ents' => take (S (limit_from (0 +u Entry_Size e) maxSize ents')) ents
  end.

(** [assertConfStatesEquivalent]. *)
Definition assertConfStatesEquivalent (cs1 cs2 : ConfState) : outcome unit :=
  match ConfState_Equivalent cs1 cs2 with None => Ok tt | Some _ => Panic end.

(** The total size, as the code computes it. *)
Definition size_sum (ents : list Entry) : N := foldl (λ s e, s +u Entry_Size e) 0 ents.

Lemma limit_from_le size maxSize ents : (limit_from size maxSize ents ≤ length ents)%nat.
Proof.
  revert size. induction ents as [|e ents IH]; intros size; cbn; [lia|].
  destruct (maxSize <? _); [lia|]. specialize (IH (size +u Entry_Size e)). lia.
Qed.

(** A limit reached within a prefix is the limit of the whole list. *)
Lemma limit_from_app size maxSize l k :
  limit_from size maxSize (l ++ k) =
  if bool_decide (limit_from size maxSize l < length l)%nat then limit_from size maxSize l
  else (length l + limit_from (foldl (λ s e, s +u Entry_Size e) size l) maxSize k)%nat.
Proof.
  revert size. induction l as [|e l IH]; intros size; cbn; [done|].
  destruct (maxSize <? _); [done|]. rewrite IH.
  repeat case_bool_decide; lia.
Qed.

Lemma limitSize_prefix ents maxSize :
  ∃ n, limitSize ents maxSize = take n ents ∧ (n ≤ length ents)%nat ∧ (ents ≠ [] → (1 ≤ n)%nat).
Proof.
  destruct ents as [|e ents]; [by exists 0%nat|]. eexists. split; [done|]. cbn [length].
  pose proof (limit_from_le (0 +u Entry_Size e) maxSize ents). split; [lia|intros _; lia].
Qed.

Lemma length_limitSize ents maxSize : (length (limitSize ents maxSize) ≤ length ents)%nat.
Proof.
  destruct (limitSize_prefix ents maxSize) as (n & -> & ? & _). rewrite length_take. lia.
Qed.

(** Limiting a list whose prefix is already cut short. *)
Lemma limitSize_app l k maxSize :
  (length (limitSize l maxSize) < length l)%nat →
  limitSize (l ++ k) maxSize = limitSize l maxSize.
Proof.
  destruct l as [|e l]; cbn [limitSize app length]; [lia|]. rewrite length_take. cbn [length].
  intros Hlt. rewrite limit_from_app, bool_decide_eq_true_2 by lia.
  change (e :: l ++ k) with ((e :: l) ++ k). rewrite take_app_le; [done|].
  cbn [length]. lia.
Qed.

Lemma limitSize_full l maxSize :
  length (limitSize l maxSize) = length l → limitSize l maxSize = l.
Proof.
  destruct (limitSize_prefix l maxSize) as (n & -> & Hn & _). rewrite length_take.
  intros. apply take_ge. lia.
Qed.

Lemma limit_from_noLimit ents size :
  limit_from size noLimit ents = length ents.
Proof.
  revert size. induction ents as [|e ents IH]; intros size; cbn [limit_from length]; [done|].
  pose proof (add64_lt size (Entry_Size e)).
  destruct (N.ltb_spec noLimit (size +u Entry_Size e)) as [Hlt|_].
  - unfold noLimit, maxUint64, two64 in *. lia.
  - by rewrite IH.
Qed.

Lemma limitSize_noLimit ents : limitSize ents noLimit = ents.
Proof.
  destruct ents as [|e ents]; [done|]. cbn [limitSize]. rewrite limit_from_noLimit.
  by apply take_ge.
Qed.
End Sizes.

Lemma min_N a b : min a b = N.min a b.
Proof. unfold min. destruct (N.ltb_spec b a); lia. Qed.
Lemma max_N a b : max a b = N.max a b.
Proof. unfold max. destruct (N.ltb_spec b a); lia. Qed.

(** The total size of entries, without wrap-around. *)
Definition total_size `{RaftPB} (ents : list Entry) : N := foldr (λ e s, Entry_Size e + s) 0 ents.

Section Total.
Context `{RaftPB}.

Lemma total_size_app l k : total_size (l ++ k) = total_size l + total_size k.
Proof. unfold total_size. induction l as [|e l IH]; cbn; [done|]. rewrite IH. lia. Qed.

Lemma limit_from_spec size maxSize ents :
  size + total_size ents < two64 →
  let n := limit_from size maxSize ents in
  ((0 < n)%nat → size + total_size (take n ents) ≤ maxSize) ∧
  ((n < length ents)%nat → maxSize < size + total_size (take (S n) ents)).
Proof.
  revert size. induction ents as [|e ents IH]; intros size Hs; cbn [limit_from length].
  { cbn. split; lia. }
  change (total_size (e :: ents)) with (Entry_Size e + total_size ents) in Hs. nowrap.
  destruct (N.ltb_spec maxSize (size + Entry_Size e)) as [Hlt|Hle].
  - split; [lia|]. intros _. cbn [take]. unfold total_size. cbn. lia.
  - specialize (IH (size + Entry_Size e) ltac:(lia)) as [IH1 IH2].
    set (n := limit_from _ _ _) in *. cbn zeta.
    change (total_size (take (S n) (e :: ents))) with (Entry_Size e + total_size (take n ents)).
    change (total_size (take (S (S n)) (e :: ents)))
      with (Entry_Size e + total_size (take (S n) ents)).
    split; [|lia]. intros _. destruct (decide (0 < n)%nat); [lia|].
    replace n with 0%nat by lia. change (total_size (take 0 ents)) with 0. lia.
Qed.
End Total.

(** [limitSize] returns the longest prefix whose total size is within the
    limit, except that it never returns nothing of a non-empty list. *)
Theorem limitSize_spec `{RaftPB} (ents : list Entry) (maxSize : N) :
  total_size ents < two64 →
  ∃ n, limitSize ents maxSize = take n ents ∧ (n ≤ length ents)%nat ∧
    (ents ≠ [] → (1 ≤ n)%nat) ∧
    ((1 < n)%nat → total_size (take n ents) ≤ maxSize) ∧
    ((n < length ents)%nat → maxSize < total_size (take (S n) ents)).
Proof.
  intros Hs. destruct ents as [|e ents]; [exists 0%nat; cbn [length]; split_and!; try done; lia|].
  change (total_size (e :: ents)) with (Entry_Size e + total_size ents) in Hs.
  destruct (limit_from_spec (Entry_Size e) maxSize ents Hs) as [H1 H2].
  pose proof (limit_from_le (Entry_Size e) maxSize ents) as H3.
  assert (He : 0 +u Entry_Size e = Entry_Size e) by (nowrap; lia).
  eexists. split; [cbn [limitSize]; rewrite He; reflexivity|]. cbn [length].
  set (n := limit_from _ _ _) in *.
  change (total_size (take (S n) (e :: ents))) with (Entry_Size e + total_size (take n ents)).
  change (total_size (take (S (S n)) (e :: ents)))
    with (Entry_Size e + total_size (take (S n) ents)).
  split_and!; [lia|lia|intros; apply H1; lia|intros; apply H2; lia].
Qed.

Lemma limitSize_spec_witness :
  ∃ n, @limitSize ex_pb [MkEntry 1 1 EntryNormal "aa"; MkEntry 1 2 EntryNormal "bb";
                         MkEntry 1 3 EntryNormal "cc"] 9 =
       take n [MkEntry 1 1 EntryNormal "aa"; MkEntry 1 2 EntryNormal "bb";
               MkEntry 1 3 EntryNormal "cc"] ∧ (1 ≤ n)%nat.
Proof.
  destruct (@limitSize_spec ex_pb [MkEntry 1 1 EntryNormal "aa"; MkEntry 1 2 EntryNormal "bb";
    MkEntry 1 3 EntryNormal "cc"] 9) as (n & H & _ & Hn & _); [reflexivity|].
  exists n. split; [exact H|]. apply Hn. discriminate.
Defined.
