(* ===== verification/Storage.v ===== *)
(** * The storage interface and its in-memory implementation
    (raft/protocol/storage.go)

    [Storage] is the Go interface as a type class; its methods only read the
    storage.  [Log] is the abstract log that the storage, the unstable log and
    the raft log all represent, and [StorageLaws] is what the raft log relies on:
    the methods answer as the abstract log says.  [MemoryStorage] is modelled
    completely and satisfies the laws. *)

From S2P Require Import Prelude Pb Util.

(** The interface [Storage]. *)
Class Storage (S : Type) := {
  InitialState : S → outcome (result (HardState * ConfState));
  Entries : S → N → N → N → outcome (result (list Entry));
  Term : S → N → outcome (result N);
  LastIndex : S → outcome (result N);
  FirstIndex : S → outcome (result N);
  Storage_Snapshot : S → outcome (result Snapshot);
}.

(** ** MemoryStorage *)

(** [MemoryStorage]; the mutex is not modelled (every method is one step). *)
Record MemoryStorage := MkMemoryStorage {
  ms_hardState : HardState;
  ms_snapshot : Snapshot;
  ms_ents : list Entry;
}.

Section storage_update.
Let rebuild (m : MemoryStorage) : MemoryStorage :=
  MkMemoryStorage (ms_hardState m) (ms_snapshot m) (ms_ents m).
#[global] Instance upd_ms_hardState : Update ms_hardState := ltac:(update_of rebuild ms_hardState).
#[global] Instance upd_ms_snapshot : Update ms_snapshot := ltac:(update_of rebuild ms_snapshot).
#[global] Instance upd_ms_ents : Update ms_ents := ltac:(update_of rebuild ms_ents).
End storage_update.

(** The zero entry, and an entry that only has a term and an index. *)
Definition Entry_zero : Entry := MkEntry 0 0 EntryNormal "".
Definition dummy_entry (term index : N) : Entry := MkEntry term index EntryNormal "".

(** [NewMemoryStorage] and [MemoryStorage.Reset]. *)
Definition NewMemoryStorage : MemoryStorage :=
  MkMemoryStorage emptyState Snapshot_zero [Entry_zero].
Definition ms_Reset (ms : MemoryStorage) : MemoryStorage :=
  ms <| ms_ents := [Entry_zero] |> <| ms_hardState := emptyState |>
     <| ms_snapshot := Snapshot_zero |>.

(** [MemoryStorage.InitialState] and [SetHardState]. *)
Definition ms_InitialState (ms : MemoryStorage) : HardState * ConfState :=
  (ms_hardState ms, s_ConfState (ms_snapshot ms)).
Definition SetHardState (ms : MemoryStorage) (st : HardState) : MemoryStorage :=
  ms <| ms_hardState := st |>.

(** [ms.ents[0].Index], [firstIndex] and [lastIndex]. *)
Definition ms_offset (ms : MemoryStorage) : outcome N :=
  e ← indexN (ms_ents ms) 0; Ok (e_Index e).
Definition ms_firstIndex (ms : MemoryStorage) : outcome N :=
  offset ← ms_offset ms; Ok (offset +u 1).
Definition ms_lastIndex (ms : MemoryStorage) : outcome N :=
  offset ← ms_offset ms; Ok (offset +u lenN (ms_ents ms) -u 1).

(** [MemoryStorage.Entries]. *)
Definition ms_Entries `{RaftPB} (ms : MemoryStorage) (lo hi maxSize : N) :
    outcome (result (list Entry)) :=
  offset ← ms_offset ms;
  if lo <=? offset then Ok (Err ErrCompacted)
  else
    last ← ms_lastIndex ms;
    if last +u 1 <? hi then Panic
    else if (length (ms_ents ms) =? 1)%nat then Ok (Err ErrUnavailable)
    else ents ← sliceN (ms_ents ms) (lo -u offset) (hi -u offset);
         Ok (Val (limitSize ents maxSize)).

(** [MemoryStorage.Term]; the bound is compared as an [int]. *)
Definition ms_Term (ms : MemoryStorage) (i : N) : outcome (result N) :=
  offset ← ms_offset ms;
  if i <? offset then Ok (Err ErrCompacted)
  else if bool_decide (lenZ (ms_ents ms) ≤ i64 (Z.of_N (i -u offset)))%Z
  then Ok (Err ErrUnavailable)
  else e ← indexN (ms_ents ms) (i -u offset); Ok (Val (e_Term e)).

(** [MemoryStorage.ApplySnapshot]. *)
Definition ApplySnapshot (ms : MemoryStorage) (snap : Snapshot) : result MemoryStorage :=
  if s_Index snap <=? s_Index (ms_snapshot ms) then Err ErrSnapOutOfDate
  else Val (ms <| ms_snapshot := snap |>
               <| ms_ents := [dummy_entry (s_Term snap) (s_Index snap)] |>).

(** [MemoryStorage.CreateSnapshot]; the optional argument is the pointer [cs]. *)
Definition CreateSnapshot (ms : MemoryStorage) (i : N) (cs : option ConfState) (data : string) :
    outcome (result (Snapshot * MemoryStorage)) :=
  if i <=? s_Index (ms_snapshot ms) then Ok (Err ErrSnapOutOfDate)
  else
    offset ← ms_offset ms;
    last ← ms_lastIndex ms;
    if last <? i then Panic
    else
      e ← indexN (ms_ents ms) (i -u offset);
      let snap := (ms_snapshot ms) <| s_Index := i |> <| s_Term := e_Term e |> in
      let snap := match cs with Some c => snap <| s_ConfState := c |> | None => snap end in
      let snap := snap <| s_Data := data |> in
      Ok (Val (snap, ms <| ms_snapshot := snap |>)).

(** [MemoryStorage.Compact]. *)
Definition Compact (ms : MemoryStorage) (compactIndex : N) : outcome (result MemoryStorage) :=
  offset ← ms_offset ms;
  if compactIndex <=? offset then Ok (Err ErrCompacted)
  else
    last ← ms_lastIndex ms;
    if last <? compactIndex then Panic
    else
      let i := compactIndex -u offset in
      e ← indexN (ms_ents ms) i;
      rest ← sliceN (ms_ents ms) (i +u 1) (lenN (ms_ents ms));
      Ok (Val (ms <| ms_ents := dummy_entry (e_Term e) (e_Index e) :: rest |>)).

(** [MemoryStorage.Append]; it never returns an error. *)
Definition Append (ms : MemoryStorage) (entries : list Entry) : outcome MemoryStorage :=
  match entries with
  | [] => Ok ms
  | e0 :: _ =>
      first ← ms_firstIndex ms;
      let last := e_Index e0 +u lenN entries -u 1 in
      if last <? first then Ok ms
      else
        entries ← (if e_Index e0 <? first
                   then sliceN entries (first -u e_Index e0) (lenN entries) else Ok entries);
        base ← ms_offset ms;
        e ← indexN entries 0;
        let offset := e_Index e -u base in
        if offset <? lenN (ms_ents ms) then
          keep ← sliceN (ms_ents ms) 0 offset; Ok (ms <| ms_ents := keep ++ entries |>)
        else if lenN (ms_ents ms) =? offset then Ok (ms <| ms_ents ::= λ l, l ++ entries |>)
        else Panic
  end.

(** [MemoryStorage] implements [Storage]. *)
#[export] Instance MemoryStorage_Storage `{RaftPB} : Storage MemoryStorage := {
  InitialState ms := Ok (Val (ms_InitialState ms));
  Entries := ms_Entries;
  Term := ms_Term;
  LastIndex ms := i ← ms_lastIndex ms; Ok (Val i);
  FirstIndex ms := i ← ms_firstIndex ms; Ok (Val i);
  Storage_Snapshot ms := Ok (Val (ms_snapshot ms));
}.

(** ** The abstract log *)

(** A log that starts after the entry [lg_prev], whose term is still known. *)
Record Log := MkLog { lg_prev : N; lg_prev_term : N; lg_ents : list Entry }.

Definition lg_last (lg : Log) : N := lg_prev lg + lenN (lg_ents lg).

(** The position of the entry with index [i] in [lg_ents]. *)
Definition lg_pos (lg : Log) (i : N) : nat := N.to_nat (i - lg_prev lg - 1).

Definition lg_term (lg : Log) (i : N) : option N :=
  if i =? lg_prev lg then Some (lg_prev_term lg)
  else if i <? lg_prev lg then None
  else e_Term <$> lg_ents lg !! lg_pos lg i.

(** The entries from [lo] to [hi - 1]. *)
Definition lg_slice (lg : Log) (lo hi : N) : list Entry :=
  take (N.to_nat (hi - lo)) (drop (lg_pos lg lo) (lg_ents lg)).

(** Dropping everything from index [after], and appending. *)
Definition lg_append (lg : Log) (after : N) (ents : list Entry) : Log :=
  MkLog (lg_prev lg) (lg_prev_term lg) (take (lg_pos lg after) (lg_ents lg) ++ ents).

Definition contiguous (prev : N) (ents : list Entry) : Prop :=
  ∀ k e, ents !! k = Some e → e_Index e = prev + 1 + N.of_nat k.

(** Entries are numbered consecutively and the index after the last one is a
    [uint64]; the bound on the length is what makes [int] conversions exact. *)
Record log_ok (lg : Log) : Prop := {
  log_contiguous : contiguous (lg_prev lg) (lg_ents lg);
  log_bound : lg_last lg + 1 < two64;
  log_length : lenN (lg_ents lg) + 1 < 9223372036854775808;
}.

(** What the raft log relies on. *)
Class StorageLaws `{RaftPB} (S : Type) `{Storage S} := {
  storage_log : S → Log;
  storage_valid : S → Prop;
  storage_log_ok s : storage_valid s → log_ok (storage_log s);
  FirstIndex_law s : storage_valid s → FirstIndex s = Ok (Val (lg_prev (storage_log s) + 1));
  LastIndex_law s : storage_valid s → LastIndex s = Ok (Val (lg_last (storage_log s)));
  Term_compacted s i : storage_valid s → i < lg_prev (storage_log s) →
    Term s i = Ok (Err ErrCompacted);
  Term_law s i t : storage_valid s → lg_term (storage_log s) i = Some t → Term s i = Ok (Val t);
  Entries_compacted s lo hi maxSize : storage_valid s → lo ≤ lg_prev (storage_log s) →
    Entries s lo hi maxSize = Ok (Err ErrCompacted);
  Entries_law s lo hi maxSize : storage_valid s →
    lg_prev (storage_log s) < lo → lo < hi → hi ≤ lg_last (storage_log s) + 1 →
    Entries s lo hi maxSize = Ok (Val (limitSize (lg_slice (storage_log s) lo hi) maxSize));
}.

(** ** Lemmas on abstract logs *)

Lemma contiguous_nil prev : contiguous prev [].
Proof. intros k e. by rewrite lookup_nil. Qed.

Lemma contiguous_cons prev e ents :
  contiguous prev (e :: ents) ↔ e_Index e = prev + 1 ∧ contiguous (prev + 1) ents.
Proof.
  split.
  - intros H. split; [rewrite (H 0%nat e eq_refl); lia|]. intros k e' Hk.
    rewrite (H (S k) e' Hk). lia.
  - intros [He H] [|k] e' Hk; cbn in Hk; [simplify_eq; lia|]. rewrite (H k e' Hk). lia.
Qed.

Lemma contiguous_app prev l k :
  contiguous prev (l ++ k) ↔ contiguous prev l ∧ contiguous (prev + lenN l) k.
Proof.
  revert prev. induction l as [|e l IH]; intros prev; cbn [app].
  { rewrite lenN_nil, N.add_0_r. naive_solver (apply contiguous_nil). }
  rewrite !contiguous_cons, IH, lenN_cons.
  replace (prev + 1 + lenN l) with (prev + (1 + lenN l)) by lia. tauto.
Qed.

Lemma contiguous_take prev n ents : contiguous prev ents → contiguous prev (take n ents).
Proof. rewrite <- (take_drop n ents) at 1. rewrite contiguous_app. tauto. Qed.

Lemma contiguous_drop prev n ents :
  contiguous prev ents → (n ≤ length ents)%nat → contiguous (prev + N.of_nat n) (drop n ents).
Proof.
  intros H Hn. rewrite <- (take_drop n ents), contiguous_app in H.
  destruct H as [_ H]. unfold lenN in H. by rewrite length_take_le in H by lia.
Qed.

Lemma lenN_take {A} n (l : list A) : lenN (take n l) = N.min (N.of_nat n) (lenN l).
Proof. unfold lenN. rewrite length_take. lia. Qed.
Lemma lenN_drop {A} n (l : list A) : lenN (drop n l) = lenN l - N.of_nat n.
Proof. unfold lenN. rewrite length_drop. lia. Qed.

Lemma lg_term_prev lg : lg_term lg (lg_prev lg) = Some (lg_prev_term lg).
Proof. unfold lg_term. by rewrite N.eqb_refl. Qed.

Lemma lg_term_is_Some lg i : is_Some (lg_term lg i) ↔ lg_prev lg ≤ i ≤ lg_last lg.
Proof.
  unfold lg_term, lg_last, lg_pos, lenN. destruct (N.eqb_spec i (lg_prev lg)) as [->|Hne].
  { split; [lia|by eexists]. }
  destruct (N.ltb_spec i (lg_prev lg)) as [Hlt|Hle].
  { split; [by intros [? ?]|lia]. }
  rewrite fmap_is_Some, lookup_lt_is_Some. lia.
Qed.

Lemma lg_last_append lg after ents :
  lg_prev lg < after → after ≤ lg_last lg + 1 →
  lg_last (lg_append lg after ents) = after - 1 + lenN ents.
Proof.
  unfold lg_last, lg_append, lg_pos. cbn. intros. rewrite lenN_app, lenN_take. lia.
Qed.

Lemma lg_append_end lg ents :
  lg_append lg (lg_last lg + 1) ents = MkLog (lg_prev lg) (lg_prev_term lg) (lg_ents lg ++ ents).
Proof.
  unfold lg_append, lg_last, lg_pos, lenN. f_equal. rewrite take_ge; [done|]. lia.
Qed.

(** Appending keeps what is below [after] and is the new entries from there. *)
Lemma lg_term_append_old lg after ents i :
  i < after → after ≤ lg_last lg + 1 → lg_term (lg_append lg after ents) i = lg_term lg i.
Proof.
  unfold lg_term, lg_append, lg_last, lg_pos, lenN. cbn. intros Hi Ha.
  destruct (N.eqb_spec i (lg_prev lg)); [done|]. destruct (N.ltb_spec i (lg_prev lg)); [done|].
  rewrite lookup_app_l by (rewrite length_take; lia). by rewrite lookup_take_lt by lia.
Qed.

Lemma lg_term_append_new lg after ents k :
  lg_prev lg < after → after ≤ lg_last lg + 1 →
  lg_term (lg_append lg after ents) (after + N.of_nat k) = e_Term <$> ents !! k.
Proof.
  unfold lg_term, lg_append, lg_last, lg_pos, lenN. cbn. intros Hp Ha.
  destruct (N.eqb_spec (after + N.of_nat k) (lg_prev lg)); [lia|].
  destruct (N.ltb_spec (after + N.of_nat k) (lg_prev lg)); [lia|].
  rewrite lookup_app_r by (rewrite length_take; lia). rewrite length_take. do 2 f_equal. lia.
Qed.

Lemma log_ok_append lg after ents :
  log_ok lg → lg_prev lg < after → after ≤ lg_last lg + 1 →
  contiguous (after - 1) ents → after + lenN ents < two64 →
  after - lg_prev lg + lenN ents < 9223372036854775808 →
  log_ok (lg_append lg after ents).
Proof.
  intros [Hc Hb Hl] Hp Ha Hce Hbe Hle. split.
  - cbn. apply contiguous_app. split; [by apply contiguous_take|].
    replace (lg_prev lg + lenN _) with (after - 1); [done|].
    rewrite lenN_take. unfold lg_pos, lg_last in *. lia.
  - rewrite lg_last_append by lia. lia.
  - cbn. rewrite lenN_app, lenN_take. unfold lg_pos, lg_last in *. lia.
Qed.

(** ** MemoryStorage implements the abstract log *)

(** The dummy entry carries the index and term before the log. *)
Definition ms_log (ms : MemoryStorage) : Log :=
  match ms_ents ms with
  | [] => MkLog 0 0 []
  | e :: ents => MkLog (e_Index e) (e_Term e) ents
  end.
Definition ms_valid (ms : MemoryStorage) : Prop := ms_ents ms ≠ [] ∧ log_ok (ms_log ms).

Ltac ms_open :=
  repeat match goal with
  | H : ms_valid ?ms |- _ =>
      let e := fresh "e" in let ents := fresh "ents" in
      let hs := fresh "hs" in let sn := fresh "sn" in
      destruct ms as [hs sn [|e ents]]; destruct H as [? H]; [done|];
      cbn [ms_log ms_ents ms_snapshot ms_hardState] in *
  end.

Lemma ms_offset_valid ms : ms_valid ms → ms_offset ms = Ok (lg_prev (ms_log ms)).
Proof. intros Hv. by ms_open. Qed.

Lemma ms_firstIndex_valid ms :
  ms_valid ms → ms_firstIndex ms = Ok (lg_prev (ms_log ms) + 1).
Proof.
  intros Hv. unfold ms_firstIndex. rewrite ms_offset_valid by done. cbn.
  destruct Hv as [_ [_ Hb _]]. unfold lg_last in Hb. nowrap. done.
Qed.

Lemma ms_ents_len ms : ms_valid ms → lenN (ms_ents ms) = 1 + lenN (lg_ents (ms_log ms)).
Proof. intros Hv. ms_open. apply lenN_cons. Qed.

Lemma ms_lastIndex_valid ms : ms_valid ms → ms_lastIndex ms = Ok (lg_last (ms_log ms)).
Proof.
  intros Hv. unfold ms_lastIndex. rewrite ms_offset_valid, ms_ents_len by done. cbn.
  destruct Hv as [_ [_ Hb _]]. unfold lg_last in *. nowrap. f_equal. lia.
Qed.

Lemma ms_Term_valid ms i t :
  ms_valid ms → lg_term (ms_log ms) i = Some t → ms_Term ms i = Ok (Val t).
Proof.
  intros Hv Ht. assert (Hi : is_Some (lg_term (ms_log ms) i)) by eauto.
  apply lg_term_is_Some in Hi. unfold ms_Term. rewrite ms_offset_valid by done.
  ms_open. destruct Hv as [_ Hb Hl]. unfold lg_last in *. cbn in *.
  destruct (N.ltb_spec i (e_Index e)); [lia|]. nowrap.
  rewrite bool_decide_eq_false_2.
  2:{ rewrite i64_small by (unfold two63z; unfold lenN in *; lia).
      unfold lenZ, lenN in *. cbn [length]. lia. }
  unfold lg_term in Ht. cbn in Ht. unfold indexN.
  destruct (N.eqb_spec i (e_Index e)) as [->|Hne].
  { rewrite N.sub_diag. change (N.to_nat 0) with 0%nat. cbn. congruence. }
  destruct (N.ltb_spec i (e_Index e)); [lia|].
  replace (N.to_nat (i - e_Index e)) with (S (N.to_nat (i - e_Index e - 1))) by lia.
  cbn [lookup list_lookup]. unfold lg_pos in Ht. cbn in Ht.
  destruct (ents !! _) as [e'|]; cbn in *; [congruence|done].
Qed.

Lemma ms_Entries_valid `{RaftPB} ms lo hi maxSize :
  ms_valid ms → lg_prev (ms_log ms) < lo → lo < hi → hi ≤ lg_last (ms_log ms) + 1 →
  ms_Entries ms lo hi maxSize = Ok (Val (limitSize (lg_slice (ms_log ms) lo hi) maxSize)).
Proof.
  intros Hv Hlo Hhi Hlast. unfold ms_Entries. rewrite ms_offset_valid, ms_lastIndex_valid by done.
  ms_open. destruct Hv as [_ Hb Hl]. unfold lg_last in *. cbn -[lg_slice] in *.
  destruct (N.leb_spec lo (e_Index e)); [lia|]. nowrap.
  destruct (N.ltb_spec (e_Index e + lenN ents + 1) hi); [lia|].
  destruct (Nat.eqb_spec (length ents) 0) as [Hz|].
  { unfold lenN in *. lia. }
  unfold sliceN. rewrite bool_decide_eq_true_2 by (rewrite lenN_cons; lia). cbn [mbind outcome_bind].
  do 3 f_equal. unfold lg_slice, lg_pos. cbn.
  replace (N.to_nat (lo - e_Index e)) with (S (N.to_nat (lo - e_Index e - 1))) by lia.
  cbn [drop]. f_equal. lia.
Qed.

#[export, refine] Instance MemoryStorage_laws `{RaftPB} : StorageLaws MemoryStorage := {|
  storage_log := ms_log;
  storage_valid := ms_valid;
|}.
Proof.
  - by intros s [].
  - intros s Hv. cbn. by rewrite ms_firstIndex_valid.
  - intros s Hv. cbn. by rewrite ms_lastIndex_valid.
  - intros s i Hv Hi. cbn. unfold ms_Term. rewrite ms_offset_valid by done. ms_open. cbn in *.
    by rewrite (proj2 (N.ltb_lt i (e_Index e))).
  - intros s i t. apply ms_Term_valid.
  - intros s lo hi m Hv Hlo. cbn. unfold ms_Entries. rewrite ms_offset_valid by done. ms_open. cbn in *.
    by rewrite (proj2 (N.leb_le lo (e_Index e))).
  - intros s lo hi m. apply ms_Entries_valid.
Defined.

Lemma NewMemoryStorage_valid : ms_valid NewMemoryStorage.
Proof. split; [done|]. split; [apply contiguous_nil|vm_compute; done..]. Qed.

(** The entries [Append] keeps: those after the dummy entry. *)
Definition fresh_entries (prev : N) (entries : list Entry) : list Entry :=
  match entries with
  | [] => []
  | e :: _ => drop (N.to_nat (prev + 1 - e_Index e)) entries
  end.

Lemma ms_keep ms after l :
  ms_valid ms → lg_prev (ms_log ms) < after →
  let ms' := ms <| ms_ents := take (N.to_nat (after - lg_prev (ms_log ms))) (ms_ents ms) ++ l |> in
  ms_log ms' = lg_append (ms_log ms) after l ∧ ms_ents ms' ≠ [].
Proof.
  intros Hv Ha. ms_open. cbn in Ha. unfold update, upd_ms_ents, lg_append, lg_pos, ms_log.
  cbn [ms_ents lg_prev lg_ents lg_prev_term].
  replace (N.to_nat (after - e_Index e)) with (S (N.to_nat (after - e_Index e - 1))) by lia. done.
Qed.

(** [Append] on consecutive entries that start within or right after the log. *)
Lemma Append_valid ms e0 rest :
  ms_valid ms → let entries := e0 :: rest in let lg := ms_log ms in
  0 < e_Index e0 → contiguous (e_Index e0 - 1) entries →
  e_Index e0 + lenN entries < two64 → e_Index e0 ≤ lg_last lg + 1 →
  e_Index e0 + lenN entries - lg_prev lg < 9223372036854775808 →
  ∃ ms', Append ms entries = Ok ms' ∧ ms_valid ms' ∧
    ms_hardState ms' = ms_hardState ms ∧ ms_snapshot ms' = ms_snapshot ms ∧
    ms_log ms' = if e_Index e0 + lenN entries - 1 <? lg_prev lg + 1 then lg
                 else lg_append lg (N.max (e_Index e0) (lg_prev lg + 1))
                        (fresh_entries (lg_prev lg) entries).
Proof.
  intros Hv entries lg H0 Hc Hb Hle Hlen. unfold Append, entries. fold entries.
  rewrite ms_firstIndex_valid by done. fold lg. cbn [mbind outcome_bind].
  assert (Hn : 1 ≤ lenN entries) by (unfold entries; rewrite lenN_cons; lia).
  pose proof Hv as [_ [Hlc Hlb Hll]]. unfold lg_last in *. fold lg in Hlc, Hlb, Hll.
  nowrap. destruct (N.ltb_spec (e_Index e0 + lenN entries - 1) (lg_prev lg + 1)) as [Hs|Hs].
  { by exists ms. }
  set (d := N.to_nat (lg_prev lg + 1 - e_Index e0)). set (kept := drop d entries).
  assert (Hkept : (if e_Index e0 <? lg_prev lg + 1
            then sliceN entries (lg_prev lg + 1 -u e_Index e0) (lenN entries) else Ok entries) =
          Ok kept).
  { unfold kept, d. destruct (N.ltb_spec (e_Index e0) (lg_prev lg + 1)).
    - nowrap. unfold sliceN. rewrite bool_decide_eq_true_2 by lia. f_equal. apply take_ge.
      rewrite length_drop. unfold lenN. lia.
    - by replace (N.to_nat (lg_prev lg + 1 - e_Index e0)) with 0%nat by lia. }
  rewrite Hkept. cbn [mbind outcome_bind]. clear Hkept.
  assert (Hkc : contiguous (N.max (e_Index e0) (lg_prev lg + 1) - 1) kept).
  { replace (N.max _ _ - 1) with (e_Index e0 - 1 + N.of_nat d) by (unfold d; lia).
    apply contiguous_drop; [done|]. unfold lenN, d in *. lia. }
  assert (Hkn : 1 ≤ lenN kept ∧
    N.max (e_Index e0) (lg_prev lg + 1) + lenN kept = e_Index e0 + lenN entries).
  { unfold kept. rewrite lenN_drop. unfold d. lia. }
  destruct kept as [|k0 kept'] eqn:Hk; [by destruct Hkn|].
  set (after := N.max (e_Index e0) (lg_prev lg + 1)) in *.
  assert (Hk0 : e_Index k0 = after) by (rewrite (Hkc 0%nat k0 eq_refl); unfold after; lia).
  assert (Hok : log_ok (lg_append lg after (k0 :: kept'))).
  { apply log_ok_append; [by destruct Hv|unfold after, lg_last; lia..|done|lia|lia]. }
  assert (Hfresh : fresh_entries (lg_prev lg) entries = k0 :: kept') by (rewrite <- Hk; done).
  rewrite Hfresh, ms_offset_valid, ms_ents_len by done. fold lg.
  change (indexN (k0 :: kept') 0) with (Ok k0). cbn [mbind outcome_bind].
  rewrite Hk0. unfold lg_last in *. fold lg in Hle.
  assert (Ha : lg_prev lg < after) by (unfold after; lia). nowrap.
  destruct (ms_keep ms after (k0 :: kept') Hv Ha) as [Hlog Hne]. fold lg in Hlog, Hne.
  exists (ms <| ms_ents := take (N.to_nat (after - lg_prev lg)) (ms_ents ms) ++ k0 :: kept' |>).
  split_and!; [|split; [done|by rewrite Hlog]|done..].
  pose proof (ms_ents_len ms Hv) as Hme. fold lg in Hme.
  destruct (N.ltb_spec (after - lg_prev lg) (1 + lenN (lg_ents lg))).
  - unfold sliceN. rewrite bool_decide_eq_true_2 by lia. cbn [mbind outcome_bind drop].
    change (N.to_nat 0) with 0%nat. by rewrite Nat.sub_0_r.
  - destruct (N.eqb_spec (1 + lenN (lg_ents lg)) (after - lg_prev lg)); [|unfold after in *; lia].
    rewrite take_ge by (unfold lenN in *; lia). done.
Qed.

(** Dropping the entries up to [ci], which becomes the entry before the log. *)
Definition lg_compact (lg : Log) (ci : N) : Log :=
  MkLog ci (default 0 (lg_term lg ci)) (drop (S (lg_pos lg ci)) (lg_ents lg)).

Lemma lg_last_compact lg ci :
  lg_prev lg < ci → ci ≤ lg_last lg → lg_last (lg_compact lg ci) = lg_last lg.
Proof. unfold lg_last, lg_compact, lg_pos. cbn -[drop]. intros. rewrite lenN_drop. lia. Qed.

Lemma lg_term_compact lg ci i :
  lg_prev lg < ci → ci ≤ lg_last lg → ci ≤ i → lg_term (lg_compact lg ci) i = lg_term lg i.
Proof.
  intros Hp Hl Hi. assert (Hs : is_Some (lg_term lg ci)) by (apply lg_term_is_Some; lia).
  destruct Hs as [t Ht]. unfold lg_term at 1. unfold lg_compact.
  cbn [lg_prev lg_prev_term lg_ents]. rewrite Ht. cbn [default from_option].
  destruct (N.eqb_spec i ci) as [->|Hne]; [done|]. destruct (N.ltb_spec i ci); [lia|].
  unfold lg_term. destruct (N.eqb_spec i (lg_prev lg)); [lia|].
  destruct (N.ltb_spec i (lg_prev lg)); [lia|]. rewrite lookup_drop. unfold lg_pos. cbn.
  do 2 f_equal. lia.
Qed.

Lemma log_ok_compact lg ci :
  log_ok lg → lg_prev lg < ci → ci ≤ lg_last lg → log_ok (lg_compact lg ci).
Proof.
  intros [Hc Hb Hl] Hp Hi. split.
  - unfold lg_compact. cbn [lg_prev lg_ents]. unfold lg_last, lenN in *.
    replace ci with (lg_prev lg + N.of_nat (S (lg_pos lg ci))) at 1 by (unfold lg_pos; lia).
    apply contiguous_drop; [done|]. unfold lg_pos. lia.
  - by rewrite lg_last_compact.
  - unfold lg_compact. cbn [lg_ents]. rewrite lenN_drop. lia.
Qed.

Lemma ms_index_valid ms i :
  ms_valid ms → lg_prev (ms_log ms) ≤ i → i ≤ lg_last (ms_log ms) →
  ∃ e, indexN (ms_ents ms) (i -u lg_prev (ms_log ms)) = Ok e ∧ e_Index e = i ∧
       lg_term (ms_log ms) i = Some (e_Term e).
Proof.
  intros Hv Hp Hl. assert (Hs : is_Some (lg_term (ms_log ms) i)) by (apply lg_term_is_Some; lia).
  destruct Hs as [t Ht]. pose proof (ms_Term_valid ms i t Hv Ht) as HT.
  unfold ms_Term in HT. rewrite ms_offset_valid in HT by done. cbn [mbind outcome_bind] in HT.
  destruct (i <? _); [done|]. case_bool_decide; [done|].
  destruct (indexN _ _) as [e|] eqn:He; [|done]. cbn in HT. exists e. split_and!; [done| |congruence].
  unfold indexN in He. destruct (ms_ents ms !! _) as [e'|] eqn:Hlk; [|done]. injection He as ->.
  pose proof Hv as [_ [Hc Hb _]]. unfold lg_last in *. ms_open. cbn in Hlk, Hp, Hl, Hc.
  rewrite sub64_small in Hlk by (cbn in *; lia).
  destruct (N.to_nat (i - e_Index e0)) as [|k] eqn:Hk; cbn in Hlk.
  - injection Hlk as ->. cbn in *. lia.
  - rewrite (Hc k e Hlk). cbn in *. lia.
Qed.

Lemma Compact_valid ms ci :
  ms_valid ms → let lg := ms_log ms in
  if ci <=? lg_prev lg then Compact ms ci = Ok (Err ErrCompacted)
  else if lg_last lg <? ci then Compact ms ci = Panic
  else ∃ ms', Compact ms ci = Ok (Val ms') ∧ ms_valid ms' ∧ ms_log ms' = lg_compact lg ci ∧
         ms_snapshot ms' = ms_snapshot ms ∧ ms_hardState ms' = ms_hardState ms.
Proof.
  intros Hv lg. unfold Compact. rewrite ms_offset_valid, ms_lastIndex_valid by done. fold lg.
  cbn [mbind outcome_bind]. destruct (N.leb_spec ci (lg_prev lg)); [done|].
  destruct (N.ltb_spec (lg_last lg) ci); [done|].
  destruct (ms_index_valid ms ci Hv ltac:(fold lg; lia) ltac:(fold lg; lia)) as (e & He & Hei & Het).
  fold lg in He, Het. rewrite He. cbn [mbind outcome_bind]. rewrite ms_ents_len by done. fold lg.
  pose proof Hv as [_ Hok]. fold lg in Hok. pose proof Hok as [_ Hb Hl].
  assert (Hlg : ms_log (ms <| ms_ents := dummy_entry (e_Term e) (e_Index e) ::
                          drop (N.to_nat (ci - lg_prev lg + 1)) (ms_ents ms) |>) = lg_compact lg ci).
  { unfold ms_log at 1, update, upd_ms_ents. cbn [ms_ents]. unfold lg_compact. rewrite Het, Hei.
    cbn [default from_option dummy_entry e_Index e_Term]. f_equal. subst lg. ms_open. cbn in *.
    replace (N.to_nat _) with (S (S (lg_pos (MkLog (e_Index e0) (e_Term e0) ents) ci)))
      by (unfold lg_pos; cbn; lia). done. }
  pose proof (ms_ents_len ms Hv) as Hn. fold lg in Hn. unfold lg_last in *. unfold sliceN. nowrap.
  rewrite bool_decide_eq_true_2 by lia.
  rewrite take_ge by (rewrite length_drop; unfold lenN in *; lia).
  eexists. split; [done|]. split; [|by split_and!].
  split; [done|]. rewrite Hlg. apply log_ok_compact; [done|lia|]. unfold lg_last. lia.
Qed.

(** A snapshot replaces the whole log, or is refused as out of date. *)
Lemma ApplySnapshot_valid ms snap :
  if s_Index snap <=? s_Index (ms_snapshot ms) then ApplySnapshot ms snap = Err ErrSnapOutOfDate
  else ∃ ms', ApplySnapshot ms snap = Val ms' ∧ ms_snapshot ms' = snap ∧
         ms_hardState ms' = ms_hardState ms ∧
         ms_log ms' = MkLog (s_Index snap) (s_Term snap) [] ∧
         (s_Index snap + 1 < two64 → ms_valid ms').
Proof.
  unfold ApplySnapshot. destruct (s_Index snap <=? _); [done|].
  eexists. split_and!; try done. intros Hb. split; [done|]. split; [apply contiguous_nil| |done].
  unfold lg_last, lenN. cbn. lia.
Qed.

(** A created snapshot carries the term of the entry at its index; the log stays. *)
Lemma CreateSnapshot_valid ms i cs data :
  ms_valid ms → let lg := ms_log ms in
  if i <=? s_Index (ms_snapshot ms) then CreateSnapshot ms i cs data = Ok (Err ErrSnapOutOfDate)
  else if lg_last lg <? i then CreateSnapshot ms i cs data = Panic
  else lg_prev lg ≤ i →
       ∃ snap ms', CreateSnapshot ms i cs data = Ok (Val (snap, ms')) ∧ ms_valid ms' ∧
         ms_log ms' = lg ∧ ms_snapshot ms' = snap ∧ s_Index snap = i ∧ s_Data snap = data ∧
         lg_term lg i = Some (s_Term snap) ∧
         s_ConfState snap = default (s_ConfState (ms_snapshot ms)) cs.
Proof.
  intros Hv lg. unfold CreateSnapshot. rewrite ms_offset_valid, ms_lastIndex_valid by done. fold lg.
  cbn [mbind outcome_bind]. destruct (i <=? _); [done|].
  destruct (N.ltb_spec (lg_last lg) i); [done|]. intros Hp.
  destruct (ms_index_valid ms i Hv ltac:(fold lg; lia) ltac:(fold lg; lia)) as (e & He & _ & Het).
  fold lg in He, Het. rewrite He. cbn [mbind outcome_bind].
  eexists _, _. split; [done|]. split_and!; try done; by destruct cs.
Qed.

(** ** Properties *)

(** A storage with a snapshot at index 3 and two entries after it. *)
Definition ex_entry (t i : N) : Entry := MkEntry t i EntryNormal "".
Definition ex_storage : MemoryStorage :=
  MkMemoryStorage emptyState (MkSnapshot "" ConfState_zero 3 1)
    [dummy_entry 1 3; ex_entry 1 4; ex_entry 2 5].
Lemma ex_storage_valid : ms_valid ex_storage.
Proof.
  split; [done|]. split; [|vm_compute; done..].
  cbn. repeat (apply contiguous_cons; split; [done|]). apply contiguous_nil.
Qed.

(** C39: [MemoryStorage.Append] of consecutive entries refines appending to the
    abstract log: entries the snapshot already covers are skipped, an overlapping
    suffix of the log is overwritten, nothing else changes, and it panics exactly
    when the entries would leave a gap. *)
Theorem MemoryStorage_Append_spec ms e0 rest :
  let entries := e0 :: rest in let lg := ms_log ms in
  ms_valid ms → 0 < e_Index e0 → contiguous (e_Index e0 - 1) entries →
  e_Index e0 + lenN entries < 9223372036854775808 →
  if lg_last lg + 1 <? e_Index e0 then Append ms entries = Panic
  else ∃ ms', Append ms entries = Ok ms' ∧ ms_valid ms' ∧
    ms_hardState ms' = ms_hardState ms ∧ ms_snapshot ms' = ms_snapshot ms ∧
    ms_log ms' = if e_Index e0 + lenN entries - 1 <? lg_prev lg + 1 then lg
                 else lg_append lg (N.max (e_Index e0) (lg_prev lg + 1))
                        (fresh_entries (lg_prev lg) entries).
Proof.
  intros entries lg Hv H0 Hc Hb. destruct (N.ltb_spec (lg_last lg + 1) (e_Index e0)) as [Hgap|Hle].
  - unfold Append, entries. rewrite ms_firstIndex_valid, ms_offset_valid, ms_ents_len by done.
    fold lg entries. cbn [mbind outcome_bind]. pose proof Hv as [_ [_ Hlb Hll]].
    unfold lg_last in *. fold lg in Hlb, Hll.
    assert (1 ≤ lenN entries) by (unfold entries; rewrite lenN_cons; lia). nowrap.
    destruct (N.ltb_spec (e_Index e0 + lenN entries - 1) (lg_prev lg + 1)); [lia|].
    destruct (N.ltb_spec (e_Index e0) (lg_prev lg + 1)); [lia|]. cbn [mbind outcome_bind].
    change (indexN entries 0) with (Ok e0). cbn [mbind outcome_bind]. nowrap.
    destruct (N.ltb_spec (e_Index e0 - lg_prev lg) (1 + lenN (lg_ents lg))); [lia|].
    by destruct (N.eqb_spec (1 + lenN (lg_ents lg)) (e_Index e0 - lg_prev lg)); [lia|].
  - apply Append_valid; try done; fold entries lg; unfold two64; lia.
Qed.

Lemma MemoryStorage_Append_spec_witness :
  ∃ ms', Append ex_storage [ex_entry 1 3; ex_entry 1 4; ex_entry 3 5; ex_entry 3 6] = Ok ms' ∧
    ms_log ms' = MkLog 3 1 [ex_entry 1 4; ex_entry 3 5; ex_entry 3 6].
Proof.
  destruct (MemoryStorage_Append_spec ex_storage (ex_entry 1 3)
              [ex_entry 1 4; ex_entry 3 5; ex_entry 3 6]) as (ms' & H & _ & _ & _ & Hlog).
  - apply ex_storage_valid.
  - reflexivity.
  - repeat (apply contiguous_cons; split; [reflexivity|]). apply contiguous_nil.
  - reflexivity.
  - exists ms'. split; [exact H|]. rewrite Hlog. vm_compute. reflexivity.
Defined.

(** [MemoryStorage.Compact] drops exactly the entries up to the given index:
    the last index and every term from that index on are unchanged.  A compacted
    index is an error and an index after the log panics. *)
Theorem MemoryStorage_Compact_spec ms ci :
  ms_valid ms → let lg := ms_log ms in
  if ci <=? lg_prev lg then Compact ms ci = Ok (Err ErrCompacted)
  else if lg_last lg <? ci then Compact ms ci = Panic
  else ∃ ms', Compact ms ci = Ok (Val ms') ∧ ms_valid ms' ∧
         lg_prev (ms_log ms') = ci ∧ lg_last (ms_log ms') = lg_last lg ∧
         (∀ i, ci ≤ i → lg_term (ms_log ms') i = lg_term lg i) ∧
         ms_snapshot ms' = ms_snapshot ms ∧ ms_hardState ms' = ms_hardState ms.
Proof.
  intros Hv lg. pose proof (Compact_valid ms ci Hv) as H. cbn zeta in H. fold lg in H.
  destruct (N.leb_spec ci (lg_prev lg)); [done|]. destruct (N.ltb_spec (lg_last lg) ci); [done|].
  destruct H as (ms' & -> & Hv' & Hlog & ? & ?). exists ms'. rewrite Hlog. split_and!; try done.
  - by apply lg_last_compact.
  - intros i Hi. by apply lg_term_compact.
Qed.

Lemma MemoryStorage_Compact_spec_witness :
  ∃ ms', Compact ex_storage 4 = Ok (Val ms') ∧ lg_prev (ms_log ms') = 4 ∧
    lg_last (ms_log ms') = 5.
Proof.
  destruct (MemoryStorage_Compact_spec ex_storage 4 ex_storage_valid)
    as (ms' & H & _ & Hp & Hl & _). exists ms'. split; [exact H|]. split; [exact Hp|exact Hl].
Defined.
