(* ===== verification/Unstable.v ===== *)
(** * The unstable log (raft/protocol/log_unstable.go)

    The entries and the snapshot that have not been written to storage yet.  The
    pairs [(uint64, bool)] are options.  The capacity of the entries slice is not
    modelled, so [shrinkEntriesArray] is the identity. *)

From S2P Require Import Prelude Pb Util Storage.

(** [unstable]. *)
Record unstable := MkUnstable {
  u_snapshot : option Snapshot;
  u_entries : list Entry;
  u_offset : N;
}.

Section unstable_update.
Let rebuild (u : unstable) : unstable := MkUnstable (u_snapshot u) (u_entries u) (u_offset u).
#[global] Instance upd_u_snapshot : Update u_snapshot := ltac:(update_of rebuild u_snapshot).
#[global] Instance upd_u_entries : Update u_entries := ltac:(update_of rebuild u_entries).
#[global] Instance upd_u_offset : Update u_offset := ltac:(update_of rebuild u_offset).
End unstable_update.

(** [maybeFirstIndex]. *)
Definition maybeFirstIndex (u : unstable) : option N :=
  match u_snapshot u with Some s => Some (s_Index s +u 1) | None => None end.

(** [maybeLastIndex]. *)
Definition maybeLastIndex (u : unstable) : option N :=
  if (length (u_entries u) =? 0)%nat then
    match u_snapshot u with Some s => Some (s_Index s) | None => None end
  else Some (u_offset u +u lenN (u_entries u) -u 1).

(** [maybeTerm]. *)
Definition maybeTerm (u : unstable) (i : N) : outcome (option N) :=
  if i <? u_offset u then
    match u_snapshot u with
    | Some s => if s_Index s =? i then Ok (Some (s_Term s)) else Ok None
    | None => Ok None
    end
  else match maybeLastIndex u with
       | None => Ok None
       | Some last =>
           if last <? i then Ok None
           else e ← indexN (u_entries u) (i -u u_offset u); Ok (Some (e_Term e))
       end.

(** [stableTo]. *)
Definition u_stableTo (u : unstable) (i t : N) : outcome unstable :=
  gt ← maybeTerm u i;
  match gt with
  | None => Ok u
  | Some gt =>
      if (gt =? t) && (u_offset u <=? i) then
        rest ← sliceN (u_entries u) (i +u 1 -u u_offset u) (lenN (u_entries u));
        Ok (u <| u_entries := rest |> <| u_offset := i +u 1 |>)
      else Ok u
  end.

(** [stableSnapTo]. *)
Definition u_stableSnapTo (u : unstable) (i : N) : unstable :=
  match u_snapshot u with
  | Some s => if s_Index s =? i then u <| u_snapshot := None |> else u
  | None => u
  end.

(** [unstable.restore]. *)
Definition u_restore (u : unstable) (s : Snapshot) : unstable :=
  u <| u_offset := s_Index s +u 1 |> <| u_entries := [] |> <| u_snapshot := Some s |>.

(** [unstable.mustCheckOutOfBounds] and [unstable.slice]. *)
Definition u_mustCheckOutOfBounds (u : unstable) (lo hi : N) : outcome unit :=
  if hi <? lo then Panic
  else let upper := u_offset u +u lenN (u_entries u) in
       if (lo <? u_offset u) || (upper <? hi) then Panic else Ok tt.
Definition u_slice (u : unstable) (lo hi : N) : outcome (list Entry) :=
  u_mustCheckOutOfBounds u lo hi;; sliceN (u_entries u) (lo -u u_offset u) (hi -u u_offset u).

(** [truncateAndAppend]; [ents[0]] panics when there are none. *)
Definition truncateAndAppend (u : unstable) (ents : list Entry) : outcome unstable :=
  e0 ← indexN ents 0;
  let after := e_Index e0 in
  if after =? u_offset u +u lenN (u_entries u) then
    Ok (u <| u_entries ::= λ l, l ++ ents |>)
  else if after <=? u_offset u then
    Ok (u <| u_offset := after |> <| u_entries := ents |>)
  else
    keep ← u_slice u (u_offset u) after;
    Ok (u <| u_entries := keep ++ ents |>).

(** ** Lemmas *)

(** Entries numbered from the offset, with room for the next index. *)
Record unstable_ok (u : unstable) : Prop := {
  u_offset_pos : 0 < u_offset u;
  u_contiguous : contiguous (u_offset u - 1) (u_entries u);
  u_bound : u_offset u + lenN (u_entries u) < two64;
  u_snap : ∀ s, u_snapshot u = Some s → u_offset u = s_Index s + 1;
}.

Lemma lenN_zero {A} (l : list A) : lenN l = 0 ↔ l = [].
Proof. unfold lenN. destruct l; cbn; split; (done || lia). Qed.

Lemma maybeLastIndex_ok u :
  unstable_ok u →
  maybeLastIndex u = if bool_decide (u_entries u = []) && bool_decide (u_snapshot u = None)
                     then None else Some (u_offset u + lenN (u_entries u) - 1).
Proof.
  intros [Hp Hc Hb Hs]. unfold maybeLastIndex. destruct (u_entries u) as [|e l] eqn:He; cbn.
  - destruct (u_snapshot u) as [s|]; cbn; [|done]. rewrite (Hs s eq_refl). f_equal.
    rewrite lenN_nil. lia.
  - rewrite lenN_cons in *. nowrap. done.
Qed.

(** [maybeTerm] knows the entries it holds and the snapshot's own index. *)
Lemma maybeTerm_entry u i e :
  unstable_ok u → u_offset u ≤ i → u_entries u !! N.to_nat (i - u_offset u) = Some e →
  maybeTerm u i = Ok (Some (e_Term e)).
Proof.
  intros Hok Hi He. pose proof Hok as [Hp Hc Hb Hs]. unfold maybeTerm.
  destruct (N.ltb_spec i (u_offset u)); [lia|]. rewrite maybeLastIndex_ok by done.
  pose proof (lookup_lt_Some _ _ _ He) as Hlt. rewrite bool_decide_eq_false_2.
  2:{ intros Hn. by rewrite Hn in He. }
  cbn [andb]. unfold lenN in *. destruct (N.ltb_spec (u_offset u + N.of_nat (length (u_entries u)) - 1) i); [lia|].
  nowrap. unfold indexN. by rewrite He.
Qed.

Lemma maybeTerm_snapshot u s :
  unstable_ok u → u_snapshot u = Some s → maybeTerm u (s_Index s) = Ok (Some (s_Term s)).
Proof.
  intros [Hp Hc Hb Hs] Hsn. unfold maybeTerm. rewrite Hsn, (Hs s Hsn).
  destruct (N.ltb_spec (s_Index s) (s_Index s + 1)); [|lia]. by rewrite N.eqb_refl.
Qed.

Lemma maybeTerm_None u i :
  unstable_ok u →
  (i < u_offset u ∧ ∀ s, u_snapshot u = Some s → s_Index s ≠ i) ∨ u_offset u + lenN (u_entries u) ≤ i →
  maybeTerm u i = Ok None.
Proof.
  intros Hok Hi. unfold maybeTerm. pose proof Hok as [Hp Hc Hb Hs].
  destruct (N.ltb_spec i (u_offset u)).
  - destruct (u_snapshot u) as [s|]; [|done]. destruct Hi as [[_ Hne]|Hi]; [|lia].
    by rewrite (proj2 (N.eqb_neq _ _) (Hne s eq_refl)).
  - rewrite maybeLastIndex_ok by done. destruct (_ && _); [done|].
    by destruct (N.ltb_spec (u_offset u + lenN (u_entries u) - 1) i); [|lia].
Qed.

Lemma u_slice_ok u lo hi :
  unstable_ok u → u_offset u ≤ lo → lo ≤ hi → hi ≤ u_offset u + lenN (u_entries u) →
  u_slice u lo hi =
    Ok (take (N.to_nat (hi - lo)) (drop (N.to_nat (lo - u_offset u)) (u_entries u))).
Proof.
  intros [Hp Hc Hb Hs] Hlo Hhi Hup. unfold u_slice, u_mustCheckOutOfBounds. nowrap.
  destruct (N.ltb_spec hi lo); [lia|]. destruct (N.ltb_spec lo (u_offset u)); [lia|].
  destruct (N.ltb_spec (u_offset u + lenN (u_entries u)) hi); [lia|]. cbn.
  unfold sliceN. rewrite bool_decide_eq_true_2 by lia. do 2 f_equal. lia.
Qed.

(** The result of [truncateAndAppend] in one formula: keep what is below the
    first new entry. *)
Lemma truncateAndAppend_ok u e0 rest :
  unstable_ok u → let ents := e0 :: rest in let after := e_Index e0 in
  0 < after → contiguous (after - 1) ents → after + lenN ents < two64 →
  after ≤ u_offset u + lenN (u_entries u) →
  truncateAndAppend u ents =
    Ok (u <| u_offset := N.min after (u_offset u) |>
          <| u_entries := take (N.to_nat (after - u_offset u)) (u_entries u) ++ ents |>).
Proof.
  intros Hok ents after H0 Hce Hbe Hle. pose proof Hok as [Hp Hc Hb Hs].
  unfold truncateAndAppend. change (indexN ents 0) with (Ok e0). cbn [mbind outcome_bind].
  fold after. nowrap. destruct (N.eqb_spec after (u_offset u + lenN (u_entries u))) as [He|He].
  - rewrite N.min_r by lia. rewrite take_ge by (unfold lenN in *; lia). by destruct u.
  - destruct (N.leb_spec after (u_offset u)).
    + rewrite N.min_l by lia. replace (after - u_offset u) with 0 by lia. done.
    + rewrite u_slice_ok by (done || lia). cbn. rewrite N.sub_diag, N.min_r by lia. by destruct u.
Qed.
