(* ===== verification/RaftLog.v ===== *)
(** * The raft log (raft/protocol/log.go)

    The stable storage and the unstable log seen as one log, with the committed
    and applied positions.  The storage is shared with the application in the
    code; here it is a field of the record, which the application's writes
    replace.  [rl_log] is the abstract log the record represents and [rl_valid]
    its invariant; the lemmas say what each method does to the abstract log. *)

From S2P Require Import Prelude Pb Util Storage Unstable.

(** [raftLog]. *)
Record raftLog (S : Type) := MkRaftLog {
  l_storage : S;
  l_unstable : unstable;
  l_committed : N;
  l_applied : N;
  l_maxNextEntsSize : N;
}.
Arguments MkRaftLog {S} _ _ _ _ _.
Arguments l_storage {S} _.
Arguments l_unstable {S} _.
Arguments l_committed {S} _.
Arguments l_applied {S} _.
Arguments l_maxNextEntsSize {S} _.

Section raftLog_update.
Context {S : Type}.
Let rebuild (l : raftLog S) : raftLog S :=
  MkRaftLog (l_storage l) (l_unstable l) (l_committed l) (l_applied l) (l_maxNextEntsSize l).
#[global] Instance upd_l_storage : Update (@l_storage S) := ltac:(update_of rebuild (@l_storage S)).
#[global] Instance upd_l_unstable : Update (@l_unstable S) :=
  ltac:(update_of rebuild (@l_unstable S)).
#[global] Instance upd_l_committed : Update (@l_committed S) :=
  ltac:(update_of rebuild (@l_committed S)).
#[global] Instance upd_l_applied : Update (@l_applied S) := ltac:(update_of rebuild (@l_applied S)).
End raftLog_update.

Section RaftLog.
Context `{RaftPB} {S : Type} `{Storage S}.
Implicit Types l : raftLog S.

(** [if err != nil { panic(err) }] *)
Definition must {A} (m : outcome (result A)) : outcome A :=
  r ← m; match r with Val a => Ok a | Err _ => Panic end.

(** [newLogWithSize] and [newLog]. *)
Definition newLogWithSize (storage : S) (maxNextEntsSize : N) : outcome (raftLog S) :=
  firstIndex ← must (FirstIndex storage);
  lastIndex ← must (LastIndex storage);
  Ok (MkRaftLog storage (MkUnstable None [] (lastIndex +u 1))
        (firstIndex -u 1) (firstIndex -u 1) maxNextEntsSize).
Definition newLog (storage : S) : outcome (raftLog S) := newLogWithSize storage noLimit.

(** [raftLog.firstIndex] and [raftLog.lastIndex]. *)
Definition firstIndex l : outcome N :=
  match maybeFirstIndex (l_unstable l) with
  | Some i => Ok i
  | None => must (FirstIndex (l_storage l))
  end.
Definition lastIndex l : outcome N :=
  match maybeLastIndex (l_unstable l) with
  | Some i => Ok i
  | None => must (LastIndex (l_storage l))
  end.

(** [raftLog.term]. *)
Definition log_term l (i : N) : outcome (result N) :=
  first ← firstIndex l;
  let dummyIndex := first -u 1 in
  last ← lastIndex l;
  if (i <? dummyIndex) || (last <? i) then Ok (Val 0)
  else
    mt ← maybeTerm (l_unstable l) i;
    match mt with
    | Some t => Ok (Val t)
    | None =>
        r ← Term (l_storage l) i;
        match r with
        | Val t => Ok (Val t)
        | Err ErrCompacted => Ok (Err ErrCompacted)
        | Err ErrUnavailable => Ok (Err ErrUnavailable)
        | Err _ => Panic
        end
    end.

(** [raftLog.zeroTermOnErrCompacted]. *)
Definition zeroTermOnErrCompacted (r : result N) : outcome N :=
  match r with
  | Val t => Ok t
  | Err ErrCompacted => Ok 0
  | Err _ => Panic
  end.

(** [raftLog.matchTerm]. *)
Definition matchTerm l (i term : N) : outcome bool :=
  r ← log_term l i;
  match r with Err _ => Ok false | Val t => Ok (t =? term) end.

(** [raftLog.lastTerm]. *)
Definition lastTerm l : outcome N :=
  last ← lastIndex l; must (log_term l last).

(** [raftLog.isUpToDate]. *)
Definition isUpToDate l (lasti term : N) : outcome bool :=
  lt ← lastTerm l;
  if lt <? term then Ok true
  else last ← lastIndex l; Ok ((term =? lt) && (last <=? lasti)).

(** [raftLog.findConflict]; the log message evaluates the conflicting term. *)
Fixpoint findConflict l (ents : list Entry) : outcome N :=
  match ents with
  | [] => Ok 0
  | ne :: ents' =>
      b ← matchTerm l (e_Index ne) (e_Term ne);
      if b : bool then findConflict l ents'
      else
        last ← lastIndex l;
        _ ← (if e_Index ne <=? last
             then t ← log_term l (e_Index ne); zeroTermOnErrCompacted t else Ok 0);
        Ok (e_Index ne)
  end.

(** The loop of [raftLog.findConflictByTerm]; [None] means out of fuel. *)
Fixpoint conflict_loop (fuel : nat) l (index term : N) : outcome (option N) :=
  match fuel with
  | O => Ok None
  | Datatypes.S fuel =>
      r ← log_term l index;
      match r with
      | Err _ => Ok (Some index)
      | Val logTerm =>
          if logTerm <=? term then Ok (Some index)
          else conflict_loop fuel l (index -u 1) term
      end
  end.
(** [raftLog.findConflictByTerm]: the index decreases, and at or below the
    index before the log, or at zero, the loop stops. *)
Definition findConflictByTerm l (index term : N) : outcome (option N) :=
  li ← lastIndex l;
  if li <? index then Ok (Some index)
  else conflict_loop (N.to_nat index + 2) l index term.

(** [raftLog.mustCheckOutOfBounds]. *)
Definition mustCheckOutOfBounds l (lo hi : N) : outcome (result unit) :=
  if hi <? lo then Panic
  else
    fi ← firstIndex l;
    if lo <? fi then Ok (Err ErrCompacted)
    else
      last ← lastIndex l;
      let length := last +u 1 -u fi in
      if fi +u length <? hi then Panic else Ok (Val tt).

(** The two halves of [raftLog.slice]: the stored entries (and whether the size
    limit already cut them short), and the unstable ones. *)
Definition slice_stored l (lo hi maxSize : N) : outcome (result (bool * list Entry)) :=
  let offset := u_offset (l_unstable l) in
  if lo <? offset then
    r ← Entries (l_storage l) lo (min hi offset) maxSize;
    match r with
    | Err ErrCompacted => Ok (Err ErrCompacted)
    | Err _ => Panic
    | Val storedEnts => Ok (Val (lenN storedEnts <? min hi offset -u lo, storedEnts))
    end
  else Ok (Val (false, [])).
Definition slice_unstable l (lo hi : N) (ents : list Entry) : outcome (list Entry) :=
  let offset := u_offset (l_unstable l) in
  if offset <? hi then
    un ← u_slice (l_unstable l) (max lo offset) hi; Ok (ents ++ un)
  else Ok ents.

(** [raftLog.slice]. *)
Definition log_slice l (lo hi maxSize : N) : outcome (result (list Entry)) :=
  _ ←? mustCheckOutOfBounds l lo hi;
  if lo =? hi then Ok (Val [])
  else
    '(cut, ents) ←? slice_stored l lo hi maxSize;
    if cut : bool then Ok (Val ents)
    else ents' ← slice_unstable l lo hi ents; Ok (Val (limitSize ents' maxSize)).

(** [raftLog.entries]. *)
Definition log_entries l (i maxsize : N) : outcome (result (list Entry)) :=
  last ← lastIndex l;
  if last <? i then Ok (Val []) else log_slice l i (last +u 1) maxsize.

(** [raftLog.allEntries], which retries a racing compaction; [None] means out
    of fuel. *)
Fixpoint allEntries (fuel : nat) l : outcome (option (list Entry)) :=
  match fuel with
  | O => Ok None
  | Datatypes.S fuel =>
      first ← firstIndex l;
      r ← log_entries l first noLimit;
      match r with
      | Val ents => Ok (Some ents)
      | Err ErrCompacted => allEntries fuel l
      | Err _ => Panic
      end
  end.

(** [raftLog.unstableEntries]. *)
Definition unstableEntries l : list Entry := u_entries (l_unstable l).

(** [raftLog.hasNextEnts] and [raftLog.nextEnts]. *)
Definition hasNextEnts l : outcome bool :=
  first ← firstIndex l;
  let off := max (l_applied l +u 1) first in
  Ok (off <? l_committed l +u 1).
Definition nextEnts l : outcome (list Entry) :=
  first ← firstIndex l;
  let off := max (l_applied l +u 1) first in
  if off <? l_committed l +u 1
  then must (log_slice l off (l_committed l +u 1) (l_maxNextEntsSize l))
  else Ok [].

(** [raftLog.hasPendingSnapshot] and [raftLog.snapshot]. *)
Definition hasPendingSnapshot l : bool :=
  match u_snapshot (l_unstable l) with Some s => negb (IsEmptySnap s) | None => false end.
Definition log_snapshot l : outcome (result Snapshot) :=
  match u_snapshot (l_unstable l) with
  | Some s => Ok (Val s)
  | None => Storage_Snapshot (l_storage l)
  end.

(** [raftLog.append]. *)
Definition log_append l (ents : list Entry) : outcome (N * raftLog S) :=
  match ents with
  | [] => last ← lastIndex l; Ok (last, l)
  | e0 :: _ =>
      let after := e_Index e0 -u 1 in
      if after <? l_committed l then Panic
      else
        u ← truncateAndAppend (l_unstable l) ents;
        let l' := l <| l_unstable := u |> in
        last ← lastIndex l'; Ok (last, l')
  end.

(** [raftLog.commitTo]. *)
Definition commitTo l (tocommit : N) : outcome (bool * raftLog S) :=
  if l_committed l <? tocommit then
    last ← lastIndex l;
    if last <? tocommit then Ok (false, l)
    else Ok (true, l <| l_committed := tocommit |>)
  else Ok (true, l).

(** [raftLog.maybeAppend]: the new last index, unless the entries do not follow. *)
Definition maybeAppend l (index logTerm committed : N) (ents : list Entry) :
    outcome (option N * raftLog S) :=
  b ← matchTerm l index logTerm;
  if b : bool then
    let lastnewi := index +u lenN ents in
    ci ← findConflict l ents;
    l1 ← (if ci =? 0 then Ok l
          else if ci <=? l_committed l then Panic
          else
            let offset := index +u 1 in
            if lenN ents <? ci -u offset then Panic
            else
              rest ← sliceN ents (ci -u offset) (lenN ents);
              '(_, l1) ← log_append l rest; Ok l1);
    '(_, l2) ← commitTo l1 (min committed lastnewi);
    Ok (Some lastnewi, l2)
  else Ok (None, l).

(** [raftLog.maybeCommit]. *)
Definition maybeCommit l (maxIndex term : N) : outcome (bool * raftLog S) :=
  if l_committed l <? maxIndex then
    r ← log_term l maxIndex;
    t ← zeroTermOnErrCompacted r;
    if t =? term then '(_, l') ← commitTo l maxIndex; Ok (true, l')
    else Ok (false, l)
  else Ok (false, l).

(** [raftLog.appliedTo]. *)
Definition appliedTo l (i : N) : outcome (raftLog S) :=
  if i =? 0 then Ok l
  else if (l_committed l <? i) || (i <? l_applied l) then Panic
  else Ok (l <| l_applied := i |>).

(** [raftLog.stableTo], [raftLog.stableSnapTo] and [raftLog.restore]. *)
Definition stableTo l (i t : N) : outcome (raftLog S) :=
  u ← u_stableTo (l_unstable l) i t; Ok (l <| l_unstable := u |>).
Definition stableSnapTo l (i : N) : raftLog S :=
  l <| l_unstable ::= λ u, u_stableSnapTo u i |>.
Definition log_restore l (s : Snapshot) : raftLog S :=
  l <| l_committed := s_Index s |> <| l_unstable ::= λ u, u_restore u s |>.
End RaftLog.

(** ** The abstract log of a raft log *)

Section Abstract.
Context `{RaftPB} {S : Type} `{!Storage S} `{!StorageLaws S}.
Implicit Types l : raftLog S.

(** A pending snapshot hides the storage; otherwise the unstable entries
    replace the stored ones from the offset on. *)
Definition rl_log l : Log :=
  let u := l_unstable l in
  match u_snapshot u with
  | Some s => MkLog (s_Index s) (s_Term s) (u_entries u)
  | None => lg_append (storage_log (l_storage l)) (u_offset u) (u_entries u)
  end.

(** The offset lies within, or right after, the stored log (right after when
    nothing is unstable), and the positions are ordered. *)
Record rl_valid l : Prop := {
  rv_storage : storage_valid (l_storage l);
  rv_unstable : unstable_ok (l_unstable l);
  rv_offset : u_snapshot (l_unstable l) = None →
    lg_prev (storage_log (l_storage l)) < u_offset (l_unstable l) ≤
    lg_last (storage_log (l_storage l)) + 1;
  rv_empty : u_snapshot (l_unstable l) = None → u_entries (l_unstable l) = [] →
    u_offset (l_unstable l) = lg_last (storage_log (l_storage l)) + 1;
  rv_log : log_ok (rl_log l);
  rv_committed : lg_prev (rl_log l) ≤ l_committed l ≤ lg_last (rl_log l);
  rv_applied : l_applied l ≤ l_committed l;
}.

Lemma rl_last l : rl_valid l →
  lg_last (rl_log l) = u_offset (l_unstable l) + lenN (u_entries (l_unstable l)) - 1.
Proof.
  intros [Hst Hu Ho _ _ _ _]. unfold rl_log. destruct (u_snapshot (l_unstable l)) as [s|] eqn:Hs.
  - rewrite (u_snap _ Hu s Hs). unfold lg_last. cbn [lg_prev lg_ents]. lia.
  - specialize (Ho eq_refl). rewrite lg_last_append by lia. pose proof (u_offset_pos _ Hu). lia.
Qed.

Lemma rl_prev_lt l : rl_valid l → lg_prev (rl_log l) < u_offset (l_unstable l).
Proof.
  intros [Hst Hu Ho _ _ _ _]. unfold rl_log. destruct (u_snapshot (l_unstable l)) as [s|] eqn:Hs.
  - rewrite (u_snap _ Hu s Hs). cbn [lg_prev]. lia.
  - specialize (Ho eq_refl). cbn [lg_append lg_prev]. lia.
Qed.

Lemma rl_prev_snapshot l s :
  u_snapshot (l_unstable l) = Some s → lg_prev (rl_log l) = s_Index s.
Proof. unfold rl_log. by intros ->. Qed.

Lemma firstIndex_valid l : rl_valid l → firstIndex l = Ok (lg_prev (rl_log l) + 1).
Proof.
  intros Hv. pose proof (rl_last l Hv) as Hl. destruct Hv as [Hst Hu Ho _ Hok _ _].
  unfold firstIndex, maybeFirstIndex, rl_log in *.
  destruct (u_snapshot (l_unstable l)) as [s|] eqn:Hs.
  - destruct Hok as [_ Hb _]. unfold lg_last in *. cbn [lg_prev lg_ents] in *. nowrap. done.
  - by rewrite FirstIndex_law by done.
Qed.

Lemma lastIndex_valid l : rl_valid l → lastIndex l = Ok (lg_last (rl_log l)).
Proof.
  intros Hv. rewrite rl_last by done. destruct Hv as [Hst Hu Ho He _ _ _]. unfold lastIndex.
  rewrite maybeLastIndex_ok by done. destruct (_ && _) eqn:Hb; [|done].
  apply andb_prop in Hb as [Hn%bool_decide_eq_true Hs%bool_decide_eq_true].
  rewrite LastIndex_law by done. cbn [must mbind outcome_bind]. f_equal.
  specialize (He Hs Hn). rewrite Hn, lenN_nil. lia.
Qed.

(** The term of an entry at or after the offset is in the unstable log, the one
    of an older entry in the storage. *)
Lemma rl_term_unstable l i :
  rl_valid l → u_offset (l_unstable l) ≤ i →
  lg_term (rl_log l) i =
  e_Term <$> u_entries (l_unstable l) !! N.to_nat (i - u_offset (l_unstable l)).
Proof.
  intros [Hst Hu Ho _ _ _ _] Hi. unfold rl_log. destruct (u_snapshot (l_unstable l)) as [s|] eqn:Hs.
  - rewrite (u_snap _ Hu s Hs) in *. unfold lg_term, lg_pos. cbn [lg_prev lg_ents].
    destruct (N.eqb_spec i (s_Index s)); [lia|]. destruct (N.ltb_spec i (s_Index s)); [lia|].
    do 2 f_equal. lia.
  - specialize (Ho eq_refl).
    replace i with (u_offset (l_unstable l) + N.of_nat (N.to_nat (i - u_offset (l_unstable l))))
      at 1 by lia. by rewrite lg_term_append_new by lia.
Qed.

Lemma rl_term_stored l i :
  rl_valid l → i < u_offset (l_unstable l) → u_snapshot (l_unstable l) = None →
  lg_term (rl_log l) i = lg_term (storage_log (l_storage l)) i.
Proof.
  intros [Hst Hu Ho _ _ _ _] Hi Hs. unfold rl_log. rewrite Hs. specialize (Ho Hs).
  apply lg_term_append_old; lia.
Qed.

(** [raftLog.term] reads the abstract log, and is zero outside of it. *)
Lemma log_term_valid l i :
  rl_valid l → log_term l i = Ok (Val (default 0 (lg_term (rl_log l) i))).
Proof.
  intros Hv. unfold log_term. rewrite firstIndex_valid, lastIndex_valid by done.
  cbn [mbind outcome_bind]. pose proof (lg_term_is_Some (rl_log l) i) as Hin.
  pose proof (log_bound _ (rv_log l Hv)) as Hb. unfold lg_last in Hb. nowrap.
  fold (lg_last (rl_log l)) in Hb.
  replace (lg_prev (rl_log l) + 1 - 1) with (lg_prev (rl_log l)) by lia.
  destruct ((i <? lg_prev (rl_log l)) || (lg_last (rl_log l) <? i)) eqn:Hr.
  { destruct (lg_term (rl_log l) i); [|done]. apply orb_prop in Hr as [Hr%N.ltb_lt|Hr%N.ltb_lt];
      destruct Hin as [Hin _]; specialize (Hin ltac:(by eexists)); lia. }
  apply orb_false_elim in Hr as [Hp%N.ltb_ge Hl%N.ltb_ge].
  destruct (proj2 Hin) as [t Ht]; [lia|]. rewrite Ht. cbn [default from_option]. clear Hin.
  pose proof (rl_last l Hv) as Hlast. pose proof Hv as [Hst Hu Ho _ _ _ _].
  destruct (decide (u_offset (l_unstable l) ≤ i)) as [Hi|Hi].
  - rewrite rl_term_unstable in Ht by done. apply fmap_Some in Ht as (e & He & ->).
    by rewrite (maybeTerm_entry _ i e).
  - destruct (u_snapshot (l_unstable l)) as [s|] eqn:Hs.
    + rewrite (rl_prev_snapshot l s Hs) in *. pose proof (u_snap _ Hu s Hs).
      replace i with (s_Index s) in * by lia. rewrite (maybeTerm_snapshot _ s) by done. cbn.
      rewrite <- (rl_prev_snapshot l s Hs), lg_term_prev in Ht. unfold rl_log in Ht.
      rewrite Hs in Ht. cbn in Ht. congruence.
    + rewrite maybeTerm_None; [|done|left; split; [lia|by rewrite Hs]].
      cbn [mbind outcome_bind]. rewrite rl_term_stored in Ht by (done || lia).
      by rewrite (Term_law _ i t Hst Ht).
Qed.

Lemma matchTerm_valid l i t :
  rl_valid l → matchTerm l i t = Ok (default 0 (lg_term (rl_log l) i) =? t).
Proof. intros Hv. unfold matchTerm. by rewrite log_term_valid. Qed.

Lemma lastTerm_valid l :
  rl_valid l → lastTerm l = Ok (default 0 (lg_term (rl_log l) (lg_last (rl_log l)))).
Proof. intros Hv. unfold lastTerm. rewrite lastIndex_valid by done. cbn. by rewrite log_term_valid. Qed.
End Abstract.

(** A slice of an appended log is a slice of the old log followed by a slice of
    the new entries. *)
Lemma lg_slice_append lg after ents lo hi :
  lg_prev lg < lo → lg_prev lg < after → after ≤ lg_last lg + 1 → lo < hi →
  lg_slice (lg_append lg after ents) lo hi =
  (if lo <? after then lg_slice lg lo (N.min hi after) else []) ++
  (if after <? hi
   then take (N.to_nat (hi - N.max lo after)) (drop (N.to_nat (N.max lo after - after)) ents)
   else []).
Proof.
  intros Hlo Hp Ha Hlh. unfold lg_slice, lg_append, lg_last, lg_pos, lenN in *.
  cbn [lg_prev lg_ents]. set (p := N.to_nat (after - lg_prev lg - 1)).
  set (m := N.to_nat (lo - lg_prev lg - 1)).
  assert (Hlen : length (take p (lg_ents lg)) = p) by (rewrite length_take; lia).
  destruct (N.ltb_spec lo after).
  - rewrite drop_app_le by lia. rewrite skipn_firstn_comm.
    assert (Hlen2 : length (take (p - m) (drop m (lg_ents lg))) = (p - m)%nat).
    { rewrite length_take, length_drop. lia. }
    destruct (N.ltb_spec after hi).
    + rewrite take_app_ge by lia. rewrite N.min_r, N.max_r by lia. rewrite Hlen2.
      replace (N.to_nat (after - after)) with 0%nat by lia. rewrite drop_0. f_equal; f_equal; lia.
    + rewrite take_app_le by lia. rewrite take_take, app_nil_r. rewrite N.min_l by lia.
      f_equal. lia.
  - cbn [app]. rewrite drop_app_ge by lia. rewrite Hlen.
    destruct (N.ltb_spec after hi); [|lia]. rewrite N.max_l by lia. do 2 f_equal; lia.
Qed.

Lemma length_lg_slice lg lo hi :
  lg_prev lg < lo → lo ≤ hi → hi ≤ lg_last lg + 1 → lenN (lg_slice lg lo hi) = hi - lo.
Proof.
  unfold lg_slice, lg_last, lg_pos, lenN. intros. rewrite length_take, length_drop. lia.
Qed.

Section Slice.
Context `{RaftPB} {S : Type} `{!Storage S} `{!StorageLaws S}.
Implicit Types l : raftLog S.

Lemma rl_slice_unstable l lo hi :
  rl_valid l → u_offset (l_unstable l) ≤ lo → lo < hi →
  lg_slice (rl_log l) lo hi =
  take (N.to_nat (hi - lo)) (drop (N.to_nat (lo - u_offset (l_unstable l))) (u_entries (l_unstable l))).
Proof.
  intros [Hst Hu Ho _ _ _ _] Hi Hlh. unfold rl_log.
  destruct (u_snapshot (l_unstable l)) as [s|] eqn:Hs.
  - rewrite (u_snap _ Hu s Hs) in *. unfold lg_slice, lg_pos. cbn [lg_prev lg_ents].
    do 2 f_equal. lia.
  - specialize (Ho eq_refl). rewrite lg_slice_append by lia.
    destruct (N.ltb_spec lo (u_offset (l_unstable l))); [lia|].
    destruct (N.ltb_spec (u_offset (l_unstable l)) hi); [|lia].
    rewrite N.max_l by lia. done.
Qed.

(** [raftLog.slice] on a range: a panic, an error, or the abstract slice cut
    to the size limit. *)
Lemma log_slice_valid l lo hi maxSize :
  rl_valid l → lg_prev (rl_log l) < lo → lo ≤ hi → hi ≤ lg_last (rl_log l) + 1 →
  log_slice l lo hi maxSize = Ok (Val (limitSize (lg_slice (rl_log l) lo hi) maxSize)).
Proof.
  intros Hv Hp Hlh Hhi. unfold log_slice, mustCheckOutOfBounds.
  rewrite firstIndex_valid, lastIndex_valid by done. cbn [mbind outcome_bind].
  pose proof (log_bound _ (rv_log l Hv)) as Hb. pose proof (rl_last l Hv) as Hl.
  pose proof (rl_prev_lt l Hv) as Hpo. unfold lg_last in Hb at 1.
  pose proof Hv as [Hst Hu Ho _ _ _ _].
  assert (Hlp : lg_prev (rl_log l) ≤ lg_last (rl_log l)) by (unfold lg_last; lia).
  fold (lg_last (rl_log l)) in Hb. nowrap.
  destruct (N.ltb_spec hi lo); [lia|].
  destruct (N.ltb_spec lo (lg_prev (rl_log l) + 1)); [lia|].
  destruct (N.ltb_spec (lg_prev (rl_log l) + 1 + (lg_last (rl_log l) + 1 - (lg_prev (rl_log l) + 1))) hi);
    [lia|]. cbn [try_bind].
  destruct (N.eqb_spec lo hi) as [->|Hne].
  { unfold lg_slice. by rewrite N.sub_diag. }
  set (off := u_offset (l_unstable l)) in *.
  unfold slice_stored, slice_unstable. fold off. rewrite min_N, max_N.
  assert (Hun : ∀ ents, (if off <? hi then un ← u_slice (l_unstable l) (N.max lo off) hi; Ok (ents ++ un)
                 else Ok ents) =
    Ok (ents ++ if off <? hi then take (N.to_nat (hi - N.max lo off))
                  (drop (N.to_nat (N.max lo off - off)) (u_entries (l_unstable l))) else [])).
  { intros ents. destruct (N.ltb_spec off hi); [|by rewrite app_nil_r].
    rewrite u_slice_ok by (done || fold off; lia). done. }
  destruct (N.ltb_spec lo off) as [Hlo|Hlo].
  - assert (Hs : u_snapshot (l_unstable l) = None).
    { destruct (u_snapshot (l_unstable l)) as [s|] eqn:Hs; [|done].
      rewrite (rl_prev_snapshot l s Hs) in *. pose proof (u_snap _ Hu s Hs). fold off in H. lia. }
    specialize (Ho Hs). assert (Hpe : lg_prev (rl_log l) = lg_prev (storage_log (l_storage l))).
    { unfold rl_log. by rewrite Hs. }
    rewrite Hpe in *. rewrite Entries_law by (done || lia). cbn [mbind outcome_bind try_bind].
    set (A := lg_slice (storage_log (l_storage l)) lo (N.min hi off)).
    assert (HA : lenN A = N.min hi off - lo) by (apply length_lg_slice; lia). nowrap.
    assert (Hwhole : lg_slice (rl_log l) lo hi = A ++ if off <? hi then
        take (N.to_nat (hi - N.max lo off)) (drop (N.to_nat (N.max lo off - off)) (u_entries (l_unstable l)))
        else []).
    { unfold rl_log. rewrite Hs, lg_slice_append by (fold off; lia). fold off.
      destruct (N.ltb_spec lo off); [done|lia]. }
    pose proof (length_limitSize A maxSize) as HlA. rewrite Hwhole.
    destruct (N.ltb_spec (lenN (limitSize A maxSize)) (N.min hi off - lo)) as [Hcut|Hcut].
    + rewrite limitSize_app; [done|]. unfold lenN in *. lia.
    + rewrite Hun. cbn [mbind outcome_bind]. rewrite (limitSize_full A); [done|].
      unfold lenN in *. lia.
  - cbn [try_bind]. rewrite Hun. cbn [mbind outcome_bind app].
    destruct (N.ltb_spec off hi); [|lia]. rewrite N.max_l by lia.
    by rewrite rl_slice_unstable by (done || lia).
Qed.
End Slice.

Section Append.
Context `{RaftPB} {S : Type} `{!Storage S} `{!StorageLaws S}.
Implicit Types l : raftLog S.

(** What the log-changing methods leave alone. *)
Record rl_frame l l' : Prop := {
  rf_storage : l_storage l' = l_storage l;
  rf_applied : l_applied l' = l_applied l;
  rf_max : l_maxNextEntsSize l' = l_maxNextEntsSize l;
  rf_snapshot : u_snapshot (l_unstable l') = u_snapshot (l_unstable l);
}.
#[export] Instance rl_frame_preorder : PreOrder rl_frame.
Proof. split; [by split|]. intros ??? [] []. split; congruence. Qed.

Lemma rl_log_append l after ents :
  rl_valid l → lg_prev (rl_log l) < after → after ≤ lg_last (rl_log l) + 1 →
  rl_log (l <| l_unstable ::= λ u,
    u <| u_offset := N.min after (u_offset u) |>
      <| u_entries := take (N.to_nat (after - u_offset u)) (u_entries u) ++ ents |> |>) =
  lg_append (rl_log l) after ents.
Proof.
  intros Hv Hp Ha. rewrite rl_last in Ha by done. destruct Hv as [Hst Hu Ho _ _ _ _].
  unfold rl_log in *. destruct l as [st [sn ue off] co ap mx].
  cbn [l_unstable l_storage u_snapshot u_entries u_offset update upd_l_unstable upd_u_offset
       upd_u_entries] in *.
  destruct sn as [s|].
  - pose proof (u_snap _ Hu s eq_refl) as Hsn. cbn in Hsn, Hp. unfold lg_append, lg_pos.
    cbn [lg_prev lg_prev_term lg_ents]. do 3 f_equal. lia.
  - specialize (Ho eq_refl). unfold lg_append in *. cbn [lg_prev lg_prev_term lg_ents] in *.
    f_equal. unfold lg_pos, lg_last, lenN in *. cbn [lg_prev] in *.
    destruct (N.leb_spec after off).
    + rewrite N.min_l by lia. replace (N.to_nat (after - off)) with 0%nat by lia. cbn [take app].
      rewrite take_app_le by (rewrite length_take; lia). rewrite take_take. do 2 f_equal. lia.
    + rewrite N.min_r by lia. rewrite take_app_ge by (rewrite length_take; lia).
      rewrite length_take, <- app_assoc. do 3 f_equal. lia.
Qed.

(** [raftLog.append] of consecutive entries after the committed ones. *)
Lemma log_append_valid l e0 rest :
  rl_valid l → let ents := e0 :: rest in let after := e_Index e0 in
  contiguous (after - 1) ents → after + lenN ents < 9223372036854775808 →
  l_committed l < after → after ≤ lg_last (rl_log l) + 1 →
  ∃ l', log_append l ents = Ok (after + lenN ents - 1, l') ∧ rl_valid l' ∧
    rl_log l' = lg_append (rl_log l) after ents ∧ rl_frame l l' ∧
    l_committed l' = l_committed l.
Proof.
  intros Hv ents after Hc Hb Hco Hle. 
  pose proof Hv as [Hst Hu Ho He Hok Hcom Hap]. pose proof (rl_last l Hv) as Hlast.
  unfold log_append, ents. fold ents after. nowrap.
  destruct (N.ltb_spec (after - 1) (l_committed l)); [lia|].
  assert (Hn : 1 ≤ lenN ents) by (unfold ents; rewrite lenN_cons; lia).
  pose proof (u_offset_pos _ Hu) as Hop. 
  pose proof (truncateAndAppend_ok (l_unstable l) e0 rest Hu) as HT. cbn zeta in HT.
  fold ents after in HT. rewrite HT by (done || unfold two64; lia). clear HT.
  cbn [mbind outcome_bind].
  pose proof (rl_log_append l after ents Hv ltac:(lia) Hle) as Hlog.
  set (l' := l <| l_unstable := _ |>).
  change (rl_log l' = lg_append (rl_log l) after ents) in Hlog.
  assert (Hprev : lg_prev (rl_log l') = lg_prev (rl_log l)) by by rewrite Hlog.
  assert (Hlast' : lg_last (rl_log l') = after + lenN ents - 1).
  { rewrite Hlog, lg_last_append by lia. lia. }
  assert (Hv' : rl_valid l').
  { split; cbn.
    - done.
    - split; cbn.
      + lia.
      + apply contiguous_app. split.
        * destruct (N.leb_spec after (u_offset (l_unstable l))).
          -- replace (N.to_nat (after - u_offset (l_unstable l))) with 0%nat by lia.
             apply contiguous_nil.
          -- rewrite N.min_r by lia. by apply contiguous_take, u_contiguous.
        * rewrite lenN_take. by replace (N.min after _ - 1 + _) with (after - 1) by lia.
      + rewrite lenN_app, lenN_take. unfold two64. lia.
      + intros s Hs. rewrite (u_snap _ Hu s Hs). pose proof (rl_prev_snapshot l s Hs). lia.
    - intros Hs. specialize (Ho Hs). split; [|lia]. unfold rl_log in Hcom. rewrite Hs in Hcom.
      cbn in Hcom. lia.
    - intros _ Hnil. destruct (take _ _) in Hnil; done.
    - rewrite Hlog. apply log_ok_append; try done; unfold two64; lia.
    - rewrite Hprev, Hlast'. lia.
    - done. }
  rewrite lastIndex_valid by done. cbn. rewrite Hlast'. exists l'. by split_and!.
Qed.
End Append.

(** ** Conflicts *)

(** The abstract [findConflict]. *)
Fixpoint lg_conflict (lg : Log) (ents : list Entry) : N :=
  match ents with
  | [] => 0
  | e :: ents' =>
      if default 0 (lg_term lg (e_Index e)) =? e_Term e then lg_conflict lg ents' else e_Index e
  end.

(** Real entries have a term; the zero term is what [raftLog.term] answers
    outside of the log. *)
Definition has_terms (ents : list Entry) : Prop := Forall (λ e, 0 < e_Term e) ents.

Lemma default_term_pos (o : option N) t : 0 < t → default 0 o = t ↔ o = Some t.
Proof. destruct o; cbn; unfold id; intros; split; (congruence || lia || intros [=]; lia). Qed.

Lemma lg_conflict_spec lg index ents :
  contiguous index ents → has_terms ents → index ≤ lg_last lg →
  (lg_conflict lg ents = 0 ∧ ∀ e, e ∈ ents → lg_term lg (e_Index e) = Some (e_Term e)) ∨
  (∃ k e, ents !! k = Some e ∧ lg_conflict lg ents = index + 1 + N.of_nat k ∧
     index + N.of_nat k ≤ lg_last lg ∧ lg_term lg (e_Index e) ≠ Some (e_Term e) ∧
     ∀ j e', (j < k)%nat → ents !! j = Some e' → lg_term lg (e_Index e') = Some (e_Term e')).
Proof.
  revert index. induction ents as [|e ents IH]; intros index Hc Ht Hi.
  { left. split; [done|]. intros e []%elem_of_nil. }
  apply contiguous_cons in Hc as [He Hc]. apply Forall_cons in Ht as [Hte Ht]. cbn [lg_conflict].
  destruct (N.eqb_spec (default 0 (lg_term lg (e_Index e))) (e_Term e)) as [Hm|Hm].
  - apply default_term_pos in Hm; [|done].
    assert (Hin : is_Some (lg_term lg (e_Index e))) by (by eexists).
    apply lg_term_is_Some in Hin.
    destruct (IH (index + 1) Hc Ht ltac:(lia)) as [[H0 Hall]|(k & e' & Hk & Hci & Hl & Hne & Hb)].
    + left. split; [done|]. intros e' [->|He']%elem_of_cons; [done|]. by apply Hall.
    + right. exists (Datatypes.S k), e'. split_and!; try done; [lia|lia|].
      intros [|j] e2 Hj Hlk; cbn in Hlk; [by simplify_eq|]. apply (Hb j); [lia|done].
  - right. exists 0%nat, e. split_and!; [done|lia|lia| |intros j e' Hj; lia].
    intros Heq. by rewrite Heq in Hm.
Qed.

Lemma all_match_last lg index ents :
  contiguous index ents → index ≤ lg_last lg →
  (∀ e, e ∈ ents → lg_term lg (e_Index e) = Some (e_Term e)) → index + lenN ents ≤ lg_last lg.
Proof.
  intros Hc Hi Hall. destruct (decide (ents = [])) as [->|Hne]; [unfold lenN; cbn; lia|].
  destruct (lookup_lt_is_Some_2 ents (pred (length ents))) as [e He].
  { destruct ents; [done|cbn; lia]. }
  specialize (Hall e (list_elem_of_lookup_2 _ _ _ He)).
  assert (Hs : is_Some (lg_term lg (e_Index e))) by (by eexists). apply lg_term_is_Some in Hs.
  rewrite (Hc _ e He) in Hs. unfold lenN. destruct ents; [done|]. cbn [length pred] in *. lia.
Qed.

Section MaybeAppend.
Context `{RaftPB} {S : Type} `{!Storage S} `{!StorageLaws S}.
Implicit Types l : raftLog S.

Lemma findConflict_valid l ents :
  rl_valid l → findConflict l ents = Ok (lg_conflict (rl_log l) ents).
Proof.
  intros Hv. induction ents as [|e ents IH]; cbn [findConflict lg_conflict]; [done|].
  rewrite matchTerm_valid by done. cbn [mbind outcome_bind]. destruct (_ =? e_Term e); [done|].
  rewrite lastIndex_valid, log_term_valid by done. cbn [mbind outcome_bind].
  by destruct (e_Index e <=? _).
Qed.

Lemma commitTo_valid l tocommit :
  rl_valid l →
  if lg_last (rl_log l) <? tocommit then commitTo l tocommit = Ok (false, l)
  else ∃ l', commitTo l tocommit = Ok (true, l') ∧ rl_valid l' ∧ rl_log l' = rl_log l ∧
         rl_frame l l' ∧ l_committed l' = N.max (l_committed l) tocommit.
Proof.
  intros Hv. unfold commitTo. rewrite lastIndex_valid by done. cbn [mbind outcome_bind].
  pose proof (rv_committed l Hv). destruct (N.ltb_spec (lg_last (rl_log l)) tocommit) as [Hlt|Hle].
  - by destruct (N.ltb_spec (l_committed l) tocommit); [|lia].
  - destruct (N.ltb_spec (l_committed l) tocommit).
    + exists (l <| l_committed := tocommit |>). split; [done|]. destruct Hv.
      split_and!; [|done|done|cbn; lia].
      split; try done; [change (lg_prev (rl_log l) ≤ tocommit ≤ lg_last (rl_log l))|cbn]; lia.
    + exists l. split_and!; try done. lia.
Qed.

(** [raftLog.maybeAppend] when the entries follow an entry of the log. *)
Lemma maybeAppend_match l index logTerm committed ents :
  rl_valid l → let lg := rl_log l in let ci := lg_conflict lg ents in
  lg_term lg index = Some logTerm → contiguous index ents → has_terms ents →
  index + lenN ents + 1 < 9223372036854775808 →
  if bool_decide (ci ≠ 0 ∧ ci ≤ l_committed l)
  then maybeAppend l index logTerm committed ents = Panic
  else ∃ l', maybeAppend l index logTerm committed ents = Ok (Some (index + lenN ents), l') ∧
         rl_valid l' ∧ rl_frame l l' ∧
         l_committed l' = N.max (l_committed l) (N.min committed (index + lenN ents)) ∧
         rl_log l' = if ci =? 0 then lg
                     else lg_append lg ci (drop (N.to_nat (ci - index - 1)) ents).
Proof.
  intros Hv lg ci Hidx Hc Ht Hb. unfold maybeAppend.
  rewrite matchTerm_valid by done. fold lg. rewrite Hidx. cbn [default from_option mbind outcome_bind].
  unfold id. rewrite N.eqb_refl, findConflict_valid by done. fold lg ci. cbn [mbind outcome_bind].
  assert (Hn : index +u lenN ents = index + lenN ents) by (nowrap; done). rewrite Hn.
  assert (Hir : is_Some (lg_term lg index)) by (by eexists). apply lg_term_is_Some in Hir.
  assert (Hcommit : ∀ l1, rl_valid l1 → index + lenN ents ≤ lg_last (rl_log l1) → rl_frame l l1 →
    l_committed l1 = l_committed l →
    ∃ l', ('(_, l2) ← commitTo l1 (min committed (index + lenN ents));
           Ok (Some (index + lenN ents), l2)) = Ok (Some (index + lenN ents), l') ∧
      rl_valid l' ∧ rl_frame l l' ∧
      l_committed l' = N.max (l_committed l) (N.min committed (index + lenN ents)) ∧
      rl_log l' = rl_log l1).
  { intros l1 Hv1 Hl1 Hf1 Hc1. rewrite min_N.
    pose proof (commitTo_valid l1 (N.min committed (index + lenN ents)) Hv1) as Hcm.
    destruct (N.ltb_spec (lg_last (rl_log l1)) (N.min committed (index + lenN ents))); [lia|].
    destruct Hcm as (l' & -> & Hv' & Hlg' & Hf' & Hcm'). exists l'. rewrite Hcm', Hc1.
    split_and!; try done. by etrans. }
  destruct (lg_conflict_spec lg index ents Hc Ht ltac:(lia))
    as [[H0 Hall]|(k & e & Hk & Hci & Hkl & Hne & Hbef)]; fold ci in H0 || fold ci in Hci.
  - rewrite H0, bool_decide_eq_false_2 by lia. cbn [mbind outcome_bind N.eqb].
    apply Hcommit; [done| |by split|done].
    apply all_match_last; [done|fold lg; lia|done].
  - rewrite (proj2 (N.eqb_neq ci 0)) by lia.
    destruct (N.leb_spec ci (l_committed l)) as [Hcom|Hcom].
    { rewrite bool_decide_eq_true_2 by lia. done. }
    rewrite bool_decide_eq_false_2 by lia. pose proof (lookup_lt_Some _ _ _ Hk) as Hlt.
    assert (Hoff : ci -u (index +u 1) = N.of_nat k) by (unfold lenN in *; nowrap; lia).
    rewrite Hoff. replace (N.to_nat (ci - index - 1)) with k by lia.
    destruct (N.ltb_spec (lenN ents) (N.of_nat k)); [unfold lenN in *; lia|].
    unfold sliceN. rewrite bool_decide_eq_true_2 by (unfold lenN in *; lia).
    rewrite take_ge, Nat2N.id by (rewrite length_drop; unfold lenN; lia).
    assert (Hlen : index + 1 + N.of_nat k + lenN (drop k ents) = index + lenN ents + 1).
    { rewrite lenN_drop. unfold lenN in *. lia. }
    assert (Hcd : contiguous (ci - 1) (drop k ents)).
    { replace (ci - 1) with (index + N.of_nat k) by lia. apply contiguous_drop; [done|lia]. }
    rewrite (drop_S ents e k Hk) in *.
    assert (Hei : e_Index e = ci) by (rewrite (Hc k e Hk); lia).
    destruct (log_append_valid l e (drop (Datatypes.S k) ents) Hv) as (l1 & Ha & Hv1 & Hl1 & Hf1 & Hc1).
    1-4: rewrite ?Hei; (done || fold lg; lia). cbn [mbind outcome_bind]. rewrite Ha.
    cbn [mbind outcome_bind]. rewrite Hei in Hl1. fold lg in Hl1. rewrite <- Hl1.
    apply Hcommit; try done. rewrite Hl1, lg_last_append by lia. lia.
Qed.

(** [raftLog.maybeAppend] when they do not. *)
Lemma maybeAppend_mismatch l index logTerm committed ents :
  rl_valid l → 0 < logTerm → lg_term (rl_log l) index ≠ Some logTerm →
  maybeAppend l index logTerm committed ents = Ok (None, l).
Proof.
  intros Hv Ht Hne. unfold maybeAppend. rewrite matchTerm_valid by done. cbn [mbind outcome_bind].
  destruct (N.eqb_spec (default 0 (lg_term (rl_log l) index)) logTerm) as [He|]; [|done].
  by apply default_term_pos in He.
Qed.
End MaybeAppend.

(** ** The other methods *)

Section Methods.
Context `{RaftPB} {S : Type} `{!Storage S} `{!StorageLaws S}.
Implicit Types l : raftLog S.

Lemma log_last_small l : rl_valid l → lg_last (rl_log l) + 1 < two64.
Proof. intros Hv. apply (log_bound _ (rv_log l Hv)). Qed.

(** The loop of [findConflictByTerm] stops: at or below the index before the
    log, the term reads as zero. *)
Lemma conflict_loop_valid fuel l index term :
  rl_valid l → (lg_prev (rl_log l) = 0 → lg_prev_term (rl_log l) = 0) →
  (N.to_nat index < fuel)%nat → index ≤ lg_last (rl_log l) →
  ∃ r, conflict_loop fuel l index term = Ok (Some r) ∧ r ≤ index ∧
    default 0 (lg_term (rl_log l) r) ≤ term ∧
    ∀ j, r < j ≤ index → term < default 0 (lg_term (rl_log l) j).
Proof.
  intros Hv H0. pose proof (log_last_small l Hv). revert index.
  induction fuel as [|fuel IH]; intros index Hf Hi; [lia|]. cbn [conflict_loop].
  rewrite log_term_valid by done. cbn [mbind outcome_bind].
  destruct (N.leb_spec (default 0 (lg_term (rl_log l) index)) term) as [Hle|Hgt].
  { exists index. split_and!; try done. lia. }
  assert (Hin : is_Some (lg_term (rl_log l) index)).
  { destruct (lg_term (rl_log l) index); [by eexists|]. cbn in Hgt. unfold id in Hgt. lia. }
  assert (Hne : index ≠ 0).
  { intros ->. apply lg_term_is_Some in Hin as [Hp _]. assert (Hp0 : lg_prev (rl_log l) = 0) by lia.
    rewrite <- Hp0, lg_term_prev, (H0 Hp0) in Hgt. cbn in Hgt. unfold id in Hgt. lia. }
  nowrap. destruct (IH (index - 1)) as (r & Hr & Hri & Hrt & Hall); [lia|lia|].
  exists r. split_and!; [done|lia|done|]. intros j Hj.
  destruct (decide (j = index)) as [->|]; [done|]. apply Hall. lia.
Qed.

Lemma findConflictByTerm_valid l index term :
  rl_valid l → (lg_prev (rl_log l) = 0 → lg_prev_term (rl_log l) = 0) →
  ∃ r, findConflictByTerm l index term = Ok (Some r) ∧ r ≤ index ∧
    (index ≤ lg_last (rl_log l) → default 0 (lg_term (rl_log l) r) ≤ term) ∧
    ∀ j, r < j ≤ index → term < default 0 (lg_term (rl_log l) j).
Proof.
  intros Hv H0. unfold findConflictByTerm. rewrite lastIndex_valid by done. cbn [mbind outcome_bind].
  destruct (N.ltb_spec (lg_last (rl_log l)) index).
  { exists index. split_and!; [done|lia|lia|lia]. }
  destruct (conflict_loop_valid (N.to_nat index + 2) l index term Hv H0) as (r & ? & ? & ? & ?);
    [lia|lia|]. exists r. split_and!; (done || auto).
Qed.

Lemma maybeCommit_valid l maxIndex term :
  rl_valid l → 0 < term →
  if bool_decide (l_committed l < maxIndex ∧ lg_term (rl_log l) maxIndex = Some term)
  then ∃ l', maybeCommit l maxIndex term = Ok (true, l') ∧ rl_valid l' ∧
         rl_log l' = rl_log l ∧ rl_frame l l' ∧ l_committed l' = maxIndex
  else maybeCommit l maxIndex term = Ok (false, l).
Proof.
  intros Hv Ht. unfold maybeCommit. rewrite log_term_valid by done.
  cbn [mbind outcome_bind zeroTermOnErrCompacted].
  destruct (N.ltb_spec (l_committed l) maxIndex) as [Hlt|Hle].
  2:{ rewrite bool_decide_eq_false_2 by (intros [? _]; lia). done. }
  destruct (N.eqb_spec (default 0 (lg_term (rl_log l) maxIndex)) term) as [Hm|Hm].
  - apply default_term_pos in Hm; [|done]. rewrite bool_decide_eq_true_2 by done.
    assert (Hin : is_Some (lg_term (rl_log l) maxIndex)) by (by eexists).
    apply lg_term_is_Some in Hin. pose proof (commitTo_valid l maxIndex Hv) as Hc.
    destruct (N.ltb_spec (lg_last (rl_log l)) maxIndex); [lia|].
    destruct Hc as (l' & -> & Hv' & Hl' & Hf & Hcm). exists l'. split_and!; try done. lia.
  - rewrite bool_decide_eq_false_2; [done|]. intros [_ Hs]. by rewrite Hs in Hm.
Qed.

Lemma isUpToDate_valid l lasti term :
  rl_valid l → let lg := rl_log l in let lt := default 0 (lg_term lg (lg_last lg)) in
  isUpToDate l lasti term = Ok (bool_decide (lt < term ∨ (term = lt ∧ lg_last lg ≤ lasti))).
Proof.
  intros Hv lg lt. unfold isUpToDate. rewrite lastTerm_valid, lastIndex_valid by done.
  fold lg lt. cbn [mbind outcome_bind]. destruct (N.ltb_spec lt term).
  { rewrite bool_decide_eq_true_2; [done|]. by left. }
  f_equal. symmetry. destruct (N.eqb_spec term lt), (N.leb_spec (lg_last lg) lasti); cbn [andb];
    (apply bool_decide_eq_true_2 || apply bool_decide_eq_false_2); lia.
Qed.

Lemma hasNextEnts_valid l :
  rl_valid l → hasNextEnts l = Ok (bool_decide (l_applied l < l_committed l ∧
                                                lg_prev (rl_log l) < l_committed l)).
Proof.
  intros Hv. unfold hasNextEnts. rewrite firstIndex_valid by done. cbn [mbind outcome_bind].
  pose proof (log_last_small l Hv). pose proof (rv_committed l Hv). pose proof (rv_applied l Hv).
  rewrite max_N. nowrap. f_equal. symmetry.
  destruct (N.ltb_spec (N.max (l_applied l + 1) (lg_prev (rl_log l) + 1)) (l_committed l + 1));
    (apply bool_decide_eq_true_2 || apply bool_decide_eq_false_2); lia.
Qed.

Lemma nextEnts_valid l :
  rl_valid l →
  nextEnts l = Ok (limitSize (lg_slice (rl_log l)
    (N.max (l_applied l) (lg_prev (rl_log l)) + 1) (l_committed l + 1)) (l_maxNextEntsSize l)).
Proof.
  intros Hv. unfold nextEnts. rewrite firstIndex_valid by done. cbn [mbind outcome_bind].
  pose proof (log_last_small l Hv). pose proof (rv_committed l Hv). pose proof (rv_applied l Hv).
  rewrite max_N. nowrap.
  replace (N.max (l_applied l + 1) (lg_prev (rl_log l) + 1))
    with (N.max (l_applied l) (lg_prev (rl_log l)) + 1) by lia.
  destruct (N.ltb_spec (N.max (l_applied l) (lg_prev (rl_log l)) + 1) (l_committed l + 1)).
  - rewrite log_slice_valid by (done || lia). done.
  - unfold lg_slice.
    replace (N.to_nat (l_committed l + 1 - (N.max (l_applied l) (lg_prev (rl_log l)) + 1)))
      with 0%nat by lia. done.
Qed.

Lemma appliedTo_valid l i :
  rl_valid l → l_applied l ≤ i → i ≤ l_committed l →
  ∃ l', appliedTo l i = Ok l' ∧ rl_valid l' ∧ rl_log l' = rl_log l ∧ l_applied l' = i ∧
    l_committed l' = l_committed l.
Proof.
  intros Hv Hi Hc. unfold appliedTo. destruct (N.eqb_spec i 0) as [->|].
  { exists l. split_and!; try done. lia. }
  destruct (N.ltb_spec (l_committed l) i); [lia|]. destruct (N.ltb_spec i (l_applied l)); [lia|].
  cbn [orb]. eexists. split; [done|]. destruct Hv. by split_and!.
Qed.

Lemma log_restore_valid l s :
  rl_valid l → l_applied l ≤ s_Index s → s_Index s + 1 < two64 →
  let l' := log_restore l s in
  rl_valid l' ∧ rl_log l' = MkLog (s_Index s) (s_Term s) [] ∧ l_committed l' = s_Index s ∧
  l_storage l' = l_storage l ∧ l_applied l' = l_applied l ∧ u_snapshot (l_unstable l') = Some s.
Proof.
  intros [Hst Hu Ho He Hok Hc Ha] Hs Hb l'.
  assert (Hl : rl_log l' = MkLog (s_Index s) (s_Term s) []) by done.
  split_and!; try done. split; rewrite ?Hl; cbn; try done.
  - split; cbn; nowrap; [lia|apply contiguous_nil|unfold lenN; cbn; lia|]. intros s' [= <-]. done.
  - split; [apply contiguous_nil|unfold lg_last, lenN; cbn; lia|done].
  - unfold lg_last, lenN. cbn. lia.
Qed.

(** Once the storage holds the whole log, [stableTo] and [stableSnapTo] empty
    the unstable log without changing the log. *)
Lemma stable_valid l st :
  rl_valid l → storage_valid st → storage_log st = rl_log l →
  let u := l_unstable l in let lg := rl_log l in
  ∃ l', (match u_entries u with
         | [] => Ok (l <| l_storage := st |>)
         | _ => stableTo (l <| l_storage := st |>) (lg_last lg) (default 0 (lg_term lg (lg_last lg)))
         end) = Ok l' ∧
    let l'' := match u_snapshot u with Some s => stableSnapTo l' (s_Index s) | None => l' end in
    rl_valid l'' ∧ rl_log l'' = lg ∧ u_entries (l_unstable l'') = [] ∧
    u_snapshot (l_unstable l'') = None ∧ l_committed l'' = l_committed l ∧
    l_applied l'' = l_applied l.
Proof.
  intros Hv Hst' Hlog u lg. pose proof (rl_last l Hv) as Hlast. fold lg u in Hlast.
  pose proof (log_last_small l Hv) as Hsm. fold lg in Hsm.
  assert (Hfinal : ∀ l'', l_storage l'' = st → u_entries (l_unstable l'') = [] →
    u_snapshot (l_unstable l'') = None → u_offset (l_unstable l'') = lg_last lg + 1 →
    l_committed l'' = l_committed l → l_applied l'' = l_applied l →
    rl_valid l'' ∧ rl_log l'' = lg).
  { intros l'' Hs He Hn Ho Hc Ha.
    assert (Hl : rl_log l'' = lg).
    { unfold rl_log. rewrite Hn, Hs, He, Ho, Hlog. fold lg. rewrite lg_append_end, app_nil_r.
      by destruct lg. }
    split; [|done]. destruct Hv as [_ Hu _ _ Hok Hcm Hap].
    split; rewrite ?Hs, ?Hl, ?Hlog, ?Ho, ?Hc, ?Ha; try done.
    - split; rewrite ?He, ?Ho, ?Hn; [lia|apply contiguous_nil| |done].
      unfold lenN. cbn. lia.
    - fold lg. intros _. unfold lg_last. lia. }
  pose proof (rv_unstable l Hv) as Hu. fold u in Hu. pose proof (u_offset_pos _ Hu) as Hop.
  assert (Hsnap : ∀ l', l_storage l' = st → u_entries (l_unstable l') = [] →
    u_snapshot (l_unstable l') = u_snapshot u → u_offset (l_unstable l') = lg_last lg + 1 →
    l_committed l' = l_committed l → l_applied l' = l_applied l →
    let l'' := match u_snapshot u with Some s => stableSnapTo l' (s_Index s) | None => l' end in
    rl_valid l'' ∧ rl_log l'' = lg ∧ u_entries (l_unstable l'') = [] ∧
    u_snapshot (l_unstable l'') = None ∧ l_committed l'' = l_committed l ∧
    l_applied l'' = l_applied l).
  { intros l' Hs He Hn Ho Hc Ha l''. assert (Hfields : l_storage l'' = st ∧
      u_entries (l_unstable l'') = [] ∧ u_snapshot (l_unstable l'') = None ∧
      u_offset (l_unstable l'') = lg_last lg + 1 ∧ l_committed l'' = l_committed l ∧
      l_applied l'' = l_applied l).
    { unfold l''. destruct (u_snapshot u) as [s|]; [|done]. cbn. unfold u_stableSnapTo.
      rewrite Hn, N.eqb_refl. cbn. done. }
    destruct_and! Hfields. destruct (Hfinal l''); done. }
  destruct (u_entries u) as [|e0 rest] eqn:He.
  - eexists. split; [done|]. apply Hsnap; try done. cbn. fold u.
    rewrite Hlast, lenN_nil. lia.
  - unfold stableTo. cbn [l_unstable update upd_l_storage]. fold u. unfold u_stableTo.
    rewrite lenN_cons in Hlast. destruct (lookup_lt_is_Some_2 (e0 :: rest) (length rest)) as [e Hlk];
      [cbn; lia|].
    assert (Hpos : N.to_nat (lg_last lg - u_offset u) = length rest) by (unfold lenN in *; lia).
    assert (Ht : default 0 (lg_term lg (lg_last lg)) = e_Term e).
    { unfold lg at 1. rewrite rl_term_unstable by (done || fold u lg; lia). fold u lg.
      by rewrite Hpos, He, Hlk. }
    rewrite (maybeTerm_entry u (lg_last lg) e), Ht; [|done|lia|by rewrite Hpos, He].
    cbn [mbind outcome_bind]. rewrite N.eqb_refl, (proj2 (N.leb_le _ _)) by lia. cbn [andb].
    nowrap. rewrite He. unfold sliceN. rewrite lenN_cons.
    rewrite bool_decide_eq_true_2 by (unfold lenN in *; lia). cbn [mbind outcome_bind].
    rewrite (drop_ge (e0 :: rest)) by (cbn [length]; lia). rewrite take_nil.
    eexists. split; [done|]. by apply Hsnap.
Qed.
End Methods.

(** ** Persisting the unstable log in a [MemoryStorage] *)

Section Persist.
Context `{RaftPB}.
Implicit Types l : raftLog MemoryStorage.

(** What an application that follows the [Ready] contract writes: the snapshot
    first, then the entries. *)
Definition persist l : outcome (result MemoryStorage) :=
  let u := l_unstable l in
  match u_snapshot u with
  | None => ms ← Append (l_storage l) (u_entries u); Ok (Val ms)
  | Some s =>
      match ApplySnapshot (l_storage l) s with
      | Err e => Ok (Err e)
      | Val ms => ms ← Append ms (u_entries u); Ok (Val ms)
      end
  end.

Lemma persist_append ms (l : raftLog MemoryStorage) :
  rl_valid l → let u := l_unstable l in ms_valid ms →
  lg_prev (ms_log ms) < u_offset u ≤ lg_last (ms_log ms) + 1 →
  rl_log l = lg_append (ms_log ms) (u_offset u) (u_entries u) →
  (u_entries u = [] → u_offset u = lg_last (ms_log ms) + 1) →
  ∃ ms', Append ms (u_entries u) = Ok ms' ∧ ms_valid ms' ∧ ms_log ms' = rl_log l.
Proof.
  intros Hv u Hms Ho Hlog Hempty. destruct (u_entries u) as [|e0 rest] eqn:He.
  - exists ms. split_and!; [done|done|]. rewrite Hlog, (Hempty eq_refl), lg_append_end, app_nil_r.
    by destruct (ms_log ms).
  - pose proof (u_contiguous _ (rv_unstable l Hv)) as Hc. fold u in Hc. rewrite He in Hc.
    pose proof (u_offset_pos _ (rv_unstable l Hv)) as Hop. fold u in Hop.
    assert (H0 : e_Index e0 = u_offset u) by (rewrite (Hc 0%nat e0 eq_refl); lia).
    pose proof (rv_log l Hv) as [_ Hb Hl]. rewrite Hlog, lg_last_append in Hb by lia.
    rewrite Hlog in Hl. cbn [lg_append lg_ents] in Hl. rewrite lenN_app, lenN_take in Hl.
    unfold lg_pos, lg_last in *.
    assert (Hn : 1 ≤ lenN (e0 :: rest)) by (rewrite lenN_cons; lia).
    destruct (Append_valid ms e0 rest Hms) as (ms' & Ha & Hms' & _ & _ & Hlg'); rewrite ?H0.
    { lia. } { done. } { lia. } { unfold lg_last. lia. } { lia. }
    exists ms'. split_and!; [done|done|]. rewrite Hlg', Hlog, H0.
    destruct (N.ltb_spec (u_offset u + lenN (e0 :: rest) - 1) (lg_prev (ms_log ms) + 1)); [lia|].
    rewrite N.max_l by lia. unfold fresh_entries. rewrite H0.
    by replace (N.to_nat (lg_prev (ms_log ms) + 1 - u_offset u)) with 0%nat by lia.
Qed.

Lemma persist_valid l :
  rl_valid l →
  (∀ s, u_snapshot (l_unstable l) = Some s → s_Index (ms_snapshot (l_storage l)) < s_Index s) →
  ∃ ms', persist l = Ok (Val ms') ∧ ms_valid ms' ∧ ms_log ms' = rl_log l.
Proof.
  intros Hv Hsn. unfold persist. pose proof Hv as [Hst Hu Ho He Hok _ _].
  destruct (u_snapshot (l_unstable l)) as [s|] eqn:Hs.
  - specialize (Hsn s eq_refl). pose proof (ApplySnapshot_valid (l_storage l) s) as Ha.
    destruct (N.leb_spec (s_Index s) (s_Index (ms_snapshot (l_storage l)))); [lia|].
    destruct Ha as (ms & -> & _ & _ & Hlg & Hms). pose proof (u_snap _ Hu s Hs) as Hoff.
    pose proof (u_bound _ Hu). specialize (Hms ltac:(lia)).
    destruct (persist_append ms l Hv Hms) as (ms' & -> & Hms' & Hlg').
    + rewrite Hlg, Hoff. unfold lg_last, lenN. cbn. lia.
    + rewrite Hlg, Hoff. unfold rl_log. rewrite Hs. unfold lg_append, lg_pos. cbn. f_equal.
      by rewrite take_nil.
    + rewrite Hlg, Hoff. unfold lg_last, lenN. cbn. lia.
    + by exists ms'.
  - destruct (persist_append (l_storage l) l Hv Hst (Ho eq_refl)) as (ms' & -> & Hms' & Hlg').
    + unfold rl_log. by rewrite Hs.
    + by apply He.
    + by exists ms'.
Qed.
End Persist.

Lemma nextEnts_handed `{RaftPB} {S} `{!Storage S} `{!StorageLaws S} (l : raftLog S) :
  rl_valid l → let lg := rl_log l in let from := N.max (l_applied l) (lg_prev lg) in
  ∃ ents, nextEnts l = Ok ents ∧ contiguous from ents ∧
    hasNextEnts l = Ok (negb (bool_decide (ents = []))) ∧
    from + lenN ents ≤ N.max from (l_committed l) ∧
    ents `prefix_of` lg_slice lg (from + 1) (l_committed l + 1).
Proof.
  intros Hv lg from. pose proof (rv_committed l Hv) as Hc. pose proof (rv_applied l Hv) as Ha.
  fold lg in Hc. set (whole := lg_slice lg (from + 1) (l_committed l + 1)).
  destruct (limitSize_prefix whole (l_maxNextEntsSize l)) as (n & Hn & Hnl & Hpos).
  rewrite nextEnts_valid, hasNextEnts_valid by done. fold lg from whole. rewrite Hn.
  exists (take n whole). split; [done|].
  assert (Hwl : lenN whole = l_committed l - from).
  { destruct (decide (from ≤ l_committed l)) as [Hle|Hgt].
    - unfold whole. rewrite length_lg_slice by (unfold from; lia). lia.
    - unfold whole, lg_slice. rewrite lenN_take. lia. }
  assert (Hwc : contiguous from whole).
  { unfold whole, lg_slice. apply contiguous_take.
    replace from with (lg_prev lg + N.of_nat (lg_pos lg (from + 1))) at 1
      by (unfold lg_pos, from; lia).
    apply contiguous_drop; [apply (log_contiguous _ (rv_log l Hv))|].
    unfold lg_pos, from, lg_last, lenN in *. lia. }
  split_and!.
  - by apply contiguous_take.
  - f_equal. rewrite <- bool_decide_not. apply bool_decide_ext.
    assert (Hne : whole ≠ [] ↔ from < l_committed l).
    { rewrite <- (lenN_zero whole), Hwl. lia. }
    assert (Ht : take n whole = [] ↔ whole = []).
    { split; [|by intros ->; rewrite take_nil]. intros H1. destruct (decide (whole = [])) as [|Hw]; [done|].
      specialize (Hpos Hw). destruct whole; [done|]. destruct n; [lia|done]. }
    rewrite Ht, Hne. unfold from. lia.
  - rewrite lenN_take. lia.
  - apply prefix_take.
Qed.

(** ** Properties *)

#[local] Existing Instance ex_pb.

(** Snapshot at 3, two stored and two unstable entries. *)
Definition ex_log : raftLog MemoryStorage :=
  MkRaftLog ex_storage (MkUnstable None [ex_entry 2 6; ex_entry 3 7] 6) 5 4 noLimit.

Lemma ex_log_valid : rl_valid ex_log.
Proof.
  split; try (vm_compute; (done || (split; discriminate))).
  - apply ex_storage_valid.
  - split; [done| |done|done]. cbn. repeat (apply contiguous_cons; split; [done|]). apply contiguous_nil.
  - split; [|done..]. cbn. repeat (apply contiguous_cons; split; [done|]). apply contiguous_nil.
Qed.

(** [raftLog.slice] is the corresponding part of the abstract log, cut to
    the size limit, however it is spread over the storage and the unstable log; a
    compacted range is an error and a range past the log panics. *)
Theorem raftLog_slice_spec `{RaftPB} {S} `{!Storage S} `{!StorageLaws S} (l : raftLog S)
    (lo hi maxSize : N) :
  rl_valid l → let lg := rl_log l in
  log_slice l lo hi maxSize =
    if hi <? lo then Panic
    else if lo <=? lg_prev lg then Ok (Err ErrCompacted)
    else if lg_last lg + 1 <? hi then Panic
    else Ok (Val (limitSize (lg_slice lg lo hi) maxSize)).
Proof.
  intros Hv lg. destruct (N.ltb_spec hi lo) as [Hlt|Hle].
  { unfold log_slice, mustCheckOutOfBounds. by rewrite (proj2 (N.ltb_lt hi lo) Hlt). }
  pose proof (log_last_small l Hv) as Hb. pose proof (rv_committed l Hv) as Hc. fold lg in Hb, Hc.
  destruct (N.leb_spec lo (lg_prev lg)) as [Hp|Hp];
    [|destruct (N.ltb_spec (lg_last lg + 1) hi) as [Hh|Hh]].
  - unfold log_slice, mustCheckOutOfBounds. rewrite firstIndex_valid by done.
    rewrite (proj2 (N.ltb_ge hi lo) Hle). cbn [mbind outcome_bind]. fold lg.
    by destruct (N.ltb_spec lo (lg_prev lg + 1)); [|lia].
  - unfold log_slice, mustCheckOutOfBounds. rewrite firstIndex_valid, lastIndex_valid by done.
    rewrite (proj2 (N.ltb_ge hi lo) Hle). cbn [mbind outcome_bind]. fold lg.
    destruct (N.ltb_spec lo (lg_prev lg + 1)); [lia|]. nowrap.
    destruct (N.ltb_spec (lg_prev lg + 1 + (lg_last lg + 1 - (lg_prev lg + 1))) hi); [done|lia].
  - by apply log_slice_valid.
Qed.

Lemma raftLog_slice_spec_witness :
  log_slice ex_log 5 8 noLimit = Ok (Val [ex_entry 2 5; ex_entry 2 6; ex_entry 3 7]).
Proof. rewrite (raftLog_slice_spec ex_log 5 8 noLimit ex_log_valid). vm_compute. reflexivity. Defined.

(** The entries of the log before the position [after] stay. *)
Lemma lg_append_kept lg after ents k e :
  lg_ents lg !! k = Some e → contiguous (lg_prev lg) (lg_ents lg) → e_Index e < after →
  lg_ents (lg_append lg after ents) !! k = Some e.
Proof.
  intros Hk Hc Hi. pose proof (Hc _ _ Hk) as He. pose proof (lookup_lt_Some _ _ _ Hk).
  unfold lg_append, lg_pos. cbn. rewrite lookup_app_l by (rewrite length_take; lia).
  rewrite lookup_take_lt; [done|lia].
Qed.

(** The first entry that conflicts, and what [lg_conflict] leaves of the entries. *)
Lemma lg_conflict_first lg index pre e post :
  contiguous index (pre ++ e :: post) → has_terms (pre ++ e :: post) → index ≤ lg_last lg →
  Forall (λ x, lg_term lg (e_Index x) = Some (e_Term x)) pre →
  lg_term lg (e_Index e) ≠ Some (e_Term e) →
  lg_conflict lg (pre ++ e :: post) = e_Index e ∧ e_Index e = index + 1 + lenN pre.
Proof.
  intros Hc Ht Hi Hpre Hne. rewrite Forall_forall in Hpre.
  assert (Hl : (pre ++ e :: post) !! length pre = Some e) by by rewrite list_lookup_middle.
  assert (Hei : e_Index e = index + 1 + lenN pre) by (rewrite (Hc _ _ Hl); unfold lenN; lia).
  split; [|done].
  destruct (lg_conflict_spec lg index _ Hc Ht Hi) as [[_ Hall]|(k & e' & Hk & -> & _ & Hne' & Hbef)].
  { destruct Hne. apply Hall. by eapply list_elem_of_lookup_2. }
  destruct (decide (k = length pre)) as [->|Hkl]; [unfold lenN in Hei; lia|].
  destruct (decide (k < length pre)%nat).
  - destruct Hne'. rewrite lookup_app_l in Hk by done. apply Hpre. by eapply list_elem_of_lookup_2.
  - destruct Hne. apply (Hbef (length pre)); [lia|done].
Qed.

(** C20: log matching.  When the entries follow an entry of the log,
    [raftLog.maybeAppend] panics exactly when one of them conflicts with a committed
    entry.  Otherwise the log it leaves is, entry by entry, the old one if every
    given entry is there with its term, and else the old one cut at the first that
    conflicts, followed by this one and those after it and by nothing more; it has all
    of the given entries by their terms, every old entry up to the committed index
    and up to the one the given ones follow, and the committed index moves forward to
    the given one, as far as the given entries reach. *)
Theorem raftLog_maybeAppend_spec `{RaftPB} {S} `{!Storage S} `{!StorageLaws S} (l : raftLog S)
    (index logTerm committed : N) (ents : list Entry) :
  rl_valid l → let lg := rl_log l in
  lg_term lg index = Some logTerm → contiguous index ents → has_terms ents →
  index + lenN ents + 1 < 9223372036854775808 →
  let held e := lg_term lg (e_Index e) = Some (e_Term e) in
  let conflicts := bool_decide (Exists (λ e, e_Index e ≤ l_committed l ∧ ¬ held e) ents) in
  if conflicts then maybeAppend l index logTerm committed ents = Panic
  else ∃ l', maybeAppend l index logTerm committed ents = Ok (Some (index + lenN ents), l') ∧
         rl_valid l' ∧
         (Forall held ents → rl_log l' = lg) ∧
         (∀ pre e post, ents = pre ++ e :: post → Forall held pre → ¬ held e →
            rl_log l' = lg_append lg (e_Index e) (e :: post)) ∧
         (∀ e, e ∈ ents → lg_term (rl_log l') (e_Index e) = Some (e_Term e)) ∧
         (∀ i, i ≤ N.max index (l_committed l) → lg_term (rl_log l') i = lg_term lg i) ∧
         (∀ k e, lg_ents lg !! k = Some e → e_Index e ≤ N.max index (l_committed l) →
            lg_ents (rl_log l') !! k = Some e) ∧
         l_committed l' = N.max (l_committed l) (N.min committed (index + lenN ents)).
Proof.
  intros Hv lg Hidx Hc Ht Hb held conflicts.
  pose proof (maybeAppend_match l index logTerm committed ents Hv Hidx Hc Ht Hb) as Hm.
  fold lg in Hm. cbn zeta in Hm. assert (Hir : is_Some (lg_term lg index)) by (by eexists).
  apply lg_term_is_Some in Hir. destruct Hir as [Hpi Hir].
  destruct (lg_conflict_spec lg index ents Hc Ht Hir) as [[H0 Hall]|(k & e & Hk & Hci & Hkl & Hne & Hbef)].
  - rewrite H0, bool_decide_eq_false_2 in Hm by lia. unfold conflicts.
    rewrite bool_decide_eq_false_2.
    2:{ intros (e & He & _ & Hn)%Exists_exists. by apply Hn, Hall. }
    destruct Hm as (l' & -> & Hv' & _ & Hcm & Hl'). cbn [N.eqb] in Hl'. exists l'.
    rewrite Hl'. split_and!; try done. intros pre e post -> _ Hne. destruct Hne. apply Hall. set_solver.
  - pose proof (lookup_lt_Some _ _ _ Hk) as Hlt.
    assert (Hei : e_Index e = lg_conflict lg ents) by (rewrite (Hc k e Hk); lia).
    assert (Hconf : conflicts = bool_decide (lg_conflict lg ents ≠ 0 ∧ lg_conflict lg ents ≤ l_committed l)).
    { apply bool_decide_ext. rewrite Exists_exists. split.
      - intros (e' & (j & Hj)%list_elem_of_lookup & Hle & Hn). destruct (decide (j < k)%nat).
        { by destruct Hn; apply (Hbef j). }
        rewrite (Hc j e' Hj) in Hle. lia.
      - intros [_ Hle]. exists e. split; [by eapply list_elem_of_lookup_2|]. by split; [lia|]. }
    rewrite Hconf. revert Hm. case_bool_decide as Hcom; [done|]. intros Hm.
    destruct Hm as (l' & -> & Hv' & _ & Hcm & Hl'). rewrite (proj2 (N.eqb_neq _ 0)) in Hl' by lia.
    replace (N.to_nat (lg_conflict lg ents - index - 1)) with k in Hl' by lia.
    exists l'. rewrite Hl'. split_and!; try done.
    + intros Hall. destruct Hne. rewrite Forall_forall in Hall. apply Hall. by eapply list_elem_of_lookup_2.
    + intros pre e' post Hents Hpre Hne'. subst ents.
      destruct (lg_conflict_first lg index pre e' post Hc Ht Hir Hpre Hne') as [Hcf Hpe].
      rewrite Hcf. f_equal. assert (Hkp : k = length pre) by (unfold lenN in Hpe; lia). by rewrite Hkp, drop_app_length.
    + intros e' (j & Hj)%list_elem_of_lookup. rewrite (Hc j e' Hj). destruct (decide (j < k)%nat).
      * rewrite lg_term_append_old by lia. rewrite <- (Hc j e' Hj). by apply (Hbef j).
      * replace (index + 1 + N.of_nat j) with (lg_conflict lg ents + N.of_nat (j - k)) by lia.
        rewrite lg_term_append_new by lia. rewrite lookup_drop.
        replace (k + (j - k))%nat with j by lia. by rewrite Hj.
    + intros i Hi. apply lg_term_append_old; lia.
    + intros j e' Hj Hi. apply lg_append_kept; [done|apply (rv_log _ Hv)|lia].
Qed.

Lemma raftLog_maybeAppend_spec_witness :
  ∃ l', maybeAppend ex_log 5 2 7 [ex_entry 2 6; ex_entry 4 7; ex_entry 4 8] = Ok (Some 8, l') ∧
    lg_term (rl_log l') 7 = Some 4 ∧ l_committed l' = 7.
Proof.
  destruct (raftLog_maybeAppend_spec ex_log 5 2 7 [ex_entry 2 6; ex_entry 4 7; ex_entry 4 8]
              ex_log_valid) as (l' & H & _ & _ & _ & Hin & _ & _ & Hc).
  - vm_compute. reflexivity.
  - repeat (apply contiguous_cons; split; [reflexivity|]). apply contiguous_nil.
  - vm_decide.
  - reflexivity.
  - exists l'. split; [exact H|]. split; [|exact Hc].
    apply (Hin (ex_entry 4 7)). right. left.
Defined.

(** C28: [raftLog.findConflictByTerm] terminates and returns the largest index up
    to the given one whose term is at most the given term, positions outside of
    the log counting as term zero. *)
Theorem raftLog_findConflictByTerm_spec `{RaftPB} {S} `{!Storage S} `{!StorageLaws S}
    (l : raftLog S) (index term : N) :
  rl_valid l → (lg_prev (rl_log l) = 0 → lg_prev_term (rl_log l) = 0) →
  ∃ r, findConflictByTerm l index term = Ok (Some r) ∧ r ≤ index ∧
    (index ≤ lg_last (rl_log l) → default 0 (lg_term (rl_log l) r) ≤ term) ∧
    (∀ j, r < j ≤ index → term < default 0 (lg_term (rl_log l) j)).
Proof. apply findConflictByTerm_valid. Qed.

Lemma raftLog_findConflictByTerm_spec_witness :
  findConflictByTerm ex_log 7 1 = Ok (Some 4) ∧
  ∃ r, findConflictByTerm ex_log 7 1 = Ok (Some r) ∧ default 0 (lg_term (rl_log ex_log) r) ≤ 1.
Proof.
  split; [vm_compute; reflexivity|].
  destruct (raftLog_findConflictByTerm_spec ex_log 7 1 ex_log_valid) as (r & H & _ & Ht & _).
  - vm_compute. discriminate.
  - exists r. split; [exact H|]. apply Ht. vm_compute. discriminate.
Defined.

(** C23: persisting the unstable snapshot and entries in a [MemoryStorage] and
    then reporting them stable loses nothing: the writes succeed, the log the
    raft log represents is unchanged, and nothing is unstable afterwards. *)
Theorem persist_then_stable `{RaftPB} (l : raftLog MemoryStorage) :
  rl_valid l →
  (∀ s, u_snapshot (l_unstable l) = Some s → s_Index (ms_snapshot (l_storage l)) < s_Index s) →
  let u := l_unstable l in let lg := rl_log l in
  ∃ ms l', persist l = Ok (Val ms) ∧ ms_log ms = lg ∧
    (match u_entries u with
     | [] => Ok (l <| l_storage := ms |>)
     | _ => stableTo (l <| l_storage := ms |>) (lg_last lg) (default 0 (lg_term lg (lg_last lg)))
     end) = Ok l' ∧
    let l'' := match u_snapshot u with Some s => stableSnapTo l' (s_Index s) | None => l' end in
    rl_valid l'' ∧ rl_log l'' = lg ∧ u_entries (l_unstable l'') = [] ∧
    u_snapshot (l_unstable l'') = None ∧ l_committed l'' = l_committed l.
Proof.
  intros Hv Hs u lg. destruct (persist_valid l Hv Hs) as (ms & Hp & Hms & Hlg).
  destruct (stable_valid l ms Hv Hms Hlg) as (l' & Hst & ? & ? & ? & ? & ? & ?).
  exists ms, l'. split_and!; done.
Qed.

Lemma persist_then_stable_witness :
  ∃ ms, persist ex_log = Ok (Val ms) ∧
    ms_log ms = MkLog 3 1 [ex_entry 1 4; ex_entry 2 5; ex_entry 2 6; ex_entry 3 7].
Proof.
  destruct (persist_then_stable ex_log ex_log_valid) as (ms & l' & Hp & Hlg & _).
  - intros s Hs. discriminate Hs.
  - exists ms. split; [exact Hp|]. rewrite Hlg. vm_compute. reflexivity.
Defined.

(** C22: [raftLog.nextEnts] hands out the committed entries right after the
    applied ones (or after a snapshot), in order and without gaps, at least one
    whenever [hasNextEnts], and never beyond the committed index. *)
Theorem raftLog_nextEnts_spec `{RaftPB} {S} `{!Storage S} `{!StorageLaws S} (l : raftLog S) :
  rl_valid l → let lg := rl_log l in let from := N.max (l_applied l) (lg_prev lg) in
  ∃ ents, nextEnts l = Ok ents ∧ contiguous from ents ∧
    hasNextEnts l = Ok (negb (bool_decide (ents = []))) ∧
    from + lenN ents ≤ N.max from (l_committed l) ∧
    ents `prefix_of` lg_slice lg (from + 1) (l_committed l + 1).
Proof. apply nextEnts_handed. Qed.

Lemma raftLog_nextEnts_spec_witness :
  nextEnts ex_log = Ok [ex_entry 2 5] ∧ ∃ ents, nextEnts ex_log = Ok ents ∧ contiguous 4 ents.
Proof.
  split; [vm_compute; reflexivity|].
  destruct (raftLog_nextEnts_spec ex_log ex_log_valid) as (ents & H & Hc & _).
  exists ents. split; [exact H|exact Hc].
Defined.

(** C21: [raftLog.maybeCommit] advances the committed index exactly to an index
    that lies beyond it and whose entry is in the log with the given term: a
    leader never commits an entry of an older term by counting. *)
Theorem raftLog_maybeCommit_spec `{RaftPB} {S} `{!Storage S} `{!StorageLaws S} (l : raftLog S)
    (maxIndex term : N) :
  rl_valid l → 0 < term →
  if bool_decide (l_committed l < maxIndex ∧ lg_term (rl_log l) maxIndex = Some term)
  then ∃ l', maybeCommit l maxIndex term = Ok (true, l') ∧ rl_valid l' ∧
         rl_log l' = rl_log l ∧ l_committed l' = maxIndex ∧ l_applied l' = l_applied l
  else maybeCommit l maxIndex term = Ok (false, l).
Proof.
  intros Hv Ht. pose proof (maybeCommit_valid l maxIndex term Hv Ht) as Hm.
  destruct (bool_decide _); [|done]. destruct Hm as (l' & ? & ? & ? & [] & ?). exists l'. by split_and!.
Qed.

Lemma raftLog_maybeCommit_spec_witness :
  maybeCommit ex_log 7 2 = Ok (false, ex_log) ∧ ∃ l', maybeCommit ex_log 6 2 = Ok (true, l').
Proof.
  split.
  - exact (raftLog_maybeCommit_spec ex_log 7 2 ex_log_valid eq_refl).
  - destruct (raftLog_maybeCommit_spec ex_log 6 2 ex_log_valid eq_refl) as (l' & H & _).
    exists l'. exact H.
Defined.
