(* ===== verification/ReadOnly.v ===== *)
(** * Read-only requests (raft/protocol/read_only.go)

    The queue of pending read requests, each with the commit index at its arrival
    and the acknowledgements it has received. *)

From S2P Require Import Prelude Pb.

Inductive ReadOnlyOption : Set := ReadOnlySafe | ReadOnlyLeaseBased.
#[export] Instance ReadOnlyOption_eq_dec : EqDecision ReadOnlyOption.
Proof. solve_decision. Defined.

(** [ReadState] and [readIndexStatus]. *)
Record ReadState := MkReadState { rs_Index : N; rs_RequestCtx : string }.
Record readIndexStatus := MkReadIndexStatus {
  ri_req : Message;
  ri_index : N;
  ri_acks : gmap N bool;
}.

(** [readOnly]. *)
Record readOnly := MkReadOnly {
  ro_option : ReadOnlyOption;
  ro_pendingReadIndex : gmap string readIndexStatus;
  ro_readIndexQueue : list string;
}.

Section readOnly_update.
Let rebuild (ro : readOnly) : readOnly :=
  MkReadOnly (ro_option ro) (ro_pendingReadIndex ro) (ro_readIndexQueue ro).
#[global] Instance upd_ro_pending : Update ro_pendingReadIndex :=
  ltac:(update_of rebuild ro_pendingReadIndex).
#[global] Instance upd_ro_queue : Update ro_readIndexQueue :=
  ltac:(update_of rebuild ro_readIndexQueue).
End readOnly_update.

(** [newReadOnly]. *)
Definition newReadOnly (option : ReadOnlyOption) : readOnly := MkReadOnly option ∅ [].

(** [m.Entries[0].Data] as a string. *)
Definition request_ctx (m : Message) : outcome string :=
  e ← indexN (m_Entries m) 0; Ok (e_Data e).

(** [readOnly.addRequest]. *)
Definition addRequest (ro : readOnly) (index : N) (m : Message) : outcome readOnly :=
  s ← request_ctx m;
  match ro_pendingReadIndex ro !! s with
  | Some _ => Ok ro
  | None => Ok (ro <| ro_pendingReadIndex ::= <[s := MkReadIndexStatus m index ∅]> |>
                   <| ro_readIndexQueue ::= λ q, q ++ [s] |>)
  end.

(** [readOnly.recvAck]: the acknowledgements (none when the context is not
    pending) and the updated requests. *)
Definition recvAck (ro : readOnly) (id : N) (context : string) : gmap N bool * readOnly :=
  match ro_pendingReadIndex ro !! context with
  | None => (∅, ro)
  | Some rs =>
      let rs := MkReadIndexStatus (ri_req rs) (ri_index rs) (<[id := true]> (ri_acks rs)) in
      (ri_acks rs, ro <| ro_pendingReadIndex ::= <[context := rs]> |>)
  end.

(** The first loop of [readOnly.advance]: the statuses up to the one with context
    [ctx], if it is found, and the rest of the queue. *)
Fixpoint advance_scan (pending : gmap string readIndexStatus) (ctx : string)
    (queue : list string) : outcome (option (list readIndexStatus * list string)) :=
  match queue with
  | [] => Ok None
  | okctx :: queue' =>
      match pending !! okctx with
      | None => Panic
      | Some rs =>
          if bool_decide (okctx = ctx) then Ok (Some ([rs], queue'))
          else
            r ← advance_scan pending ctx queue';
            Ok (match r with Some (rss, rest) => Some (rs :: rss, rest) | None => None end)
      end
  end.

(** The second loop: the answered requests leave the pending map. *)
Fixpoint drop_pending (pending : gmap string readIndexStatus) (rss : list readIndexStatus) :
    outcome (gmap string readIndexStatus) :=
  match rss with
  | [] => Ok pending
  | rs :: rss' => s ← request_ctx (ri_req rs); drop_pending (delete s pending) rss'
  end.

(** [readOnly.advance]. *)
Definition ro_advance (ro : readOnly) (m : Message) : outcome (list readIndexStatus * readOnly) :=
  r ← advance_scan (ro_pendingReadIndex ro) (m_Context m) (ro_readIndexQueue ro);
  match r with
  | None => Ok ([], ro)
  | Some (rss, rest) =>
      pending ← drop_pending (ro_pendingReadIndex ro) rss;
      Ok (rss, ro <| ro_readIndexQueue := rest |> <| ro_pendingReadIndex := pending |>)
  end.

(** [readOnly.lastPendingRequestCtx]. *)
Definition lastPendingRequestCtx (ro : readOnly) : string :=
  default "" (last (ro_readIndexQueue ro)).

(** ** The queue and the map agree *)

(** Every queued context is pending, once, under its own request's context. *)
Record readOnly_ok (ro : readOnly) : Prop := {
  ro_nodup : NoDup (ro_readIndexQueue ro);
  ro_dom : ∀ s, s ∈ ro_readIndexQueue ro ↔ is_Some (ro_pendingReadIndex ro !! s);
  ro_ctx : ∀ s rs, ro_pendingReadIndex ro !! s = Some rs → request_ctx (ri_req rs) = Ok s;
}.

Lemma newReadOnly_ok o : readOnly_ok (newReadOnly o).
Proof.
  split; cbn.
  - apply NoDup_nil_2.
  - intros s. rewrite lookup_empty. split; [by intros ?%elem_of_nil|by intros [? ?]].
  - intros s rs. by rewrite lookup_empty.
Qed.

Lemma addRequest_ok ro index m s :
  readOnly_ok ro → request_ctx m = Ok s →
  ∃ ro', addRequest ro index m = Ok ro' ∧ readOnly_ok ro' ∧ s ∈ ro_readIndexQueue ro' ∧
    (ro_pendingReadIndex ro !! s = None →
       ro_readIndexQueue ro' = ro_readIndexQueue ro ++ [s] ∧
       ro_pendingReadIndex ro' = <[s := MkReadIndexStatus m index ∅]> (ro_pendingReadIndex ro)).
Proof.
  intros [Hn Hd Hc] Hs. unfold addRequest. rewrite Hs. cbn [mbind outcome_bind].
  destruct (ro_pendingReadIndex ro !! s) eqn:Hp.
  { exists ro. split_and!; [done|done| |done]. apply Hd. by eexists. }
  assert (Hq : s ∉ ro_readIndexQueue ro) by (rewrite Hd, Hp; by intros [? ?]).
  eexists. split; [done|]. cbn. split_and!; [split; cbn| |done].
  - apply NoDup_app. split_and!; [done| |apply NoDup_singleton].
    intros x Hx ->%list_elem_of_singleton. done.
  - intros x. rewrite elem_of_app, list_elem_of_singleton, Hd, lookup_insert. case_decide as E.
    + subst. naive_solver.
    + naive_solver.
  - intros x rs. rewrite lookup_insert. case_decide as E; [|apply Hc]. intros [= <-]. by subst.
  - apply elem_of_app. right. by apply list_elem_of_singleton.
Qed.

Lemma recvAck_ok ro id context :
  readOnly_ok ro →
  let (acks, ro') := recvAck ro id context in
  readOnly_ok ro' ∧ ro_readIndexQueue ro' = ro_readIndexQueue ro ∧
  acks = default ∅ (insert id true ∘ ri_acks <$> ro_pendingReadIndex ro !! context).
Proof.
  intros [Hn Hd Hc]. unfold recvAck. destruct (ro_pendingReadIndex ro !! context) as [rs|] eqn:Hp.
  - split_and!; [split; cbn|done|done]; [done| |].
    + intros x. rewrite Hd, lookup_insert. case_decide as E; [|done]. subst. rewrite Hp.
      split; intros _; by eexists.
    + intros x rs'. rewrite lookup_insert. case_decide as E; [|apply Hc]. intros [= <-]. subst.
      cbn. by apply Hc.
  - by split_and!.
Qed.

Lemma advance_scan_spec pending ctx queue :
  (∀ s, s ∈ queue → is_Some (pending !! s)) →
  (ctx ∉ queue ∧ advance_scan pending ctx queue = Ok None) ∨
  (∃ before rest rss, queue = before ++ ctx :: rest ∧ ctx ∉ before ∧
     advance_scan pending ctx queue = Ok (Some (rss, rest)) ∧
     Forall2 (λ s rs, pending !! s = Some rs) (before ++ [ctx]) rss).
Proof.
  induction queue as [|s queue IH]; intros Hp.
  { left. split; [apply not_elem_of_nil|done]. }
  destruct (Hp s) as [rs Hrs]; [by left|]. cbn [advance_scan]. rewrite Hrs.
  case_bool_decide as Hs.
  - subst s. right. exists [], queue, [rs]. split_and!; [done|apply not_elem_of_nil|done|].
    cbn. by repeat constructor.
  - destruct IH as [[Hn ->]|(before & rest & rss & -> & Hb & -> & HF)].
    { intros x Hx. apply Hp. by right. }
    + left. split; [|done]. rewrite not_elem_of_cons. by split.
    + right. exists (s :: before), rest, (rs :: rss). split_and!; [done| |done|by constructor].
      rewrite not_elem_of_cons. by split.
Qed.

Lemma drop_pending_spec pending l rss :
  (∀ s rs, pending !! s = Some rs → request_ctx (ri_req rs) = Ok s) →
  Forall2 (λ s rs, request_ctx (ri_req rs) = Ok s) l rss →
  ∃ pending', drop_pending pending rss = Ok pending' ∧
    ∀ s, pending' !! s = if bool_decide (s ∈ l) then None else pending !! s.
Proof.
  revert pending rss. induction l as [|x l IH]; intros pending rss Hc HF.
  { apply Forall2_nil_inv_l in HF as ->. exists pending. split; [done|]. intros s.
    rewrite bool_decide_eq_false_2; [done|apply not_elem_of_nil]. }
  apply Forall2_cons_inv_l in HF as (rs & rss' & Hx & HF & ->). cbn [drop_pending].
  rewrite Hx. cbn [mbind outcome_bind].
  destruct (IH (delete x pending) rss') as (p & -> & Hp); [|done|].
  { intros s rs'. rewrite lookup_delete. case_decide; [done|apply Hc]. }
  exists p. split; [done|]. intros s. rewrite Hp, lookup_delete.
  destruct (decide (s = x)) as [->|Hne].
  - rewrite (bool_decide_eq_true_2 (x ∈ x :: l)) by left. case_decide; [|done].
    by case_bool_decide.
  - rewrite decide_False by done. case_bool_decide as E1; case_bool_decide as E2; try done.
    + destruct E2. by right.
    + apply elem_of_cons in E2 as [?|?]; done.
Qed.

(** [readOnly.advance] in a state where the queue and the map agree. *)
Lemma ro_advance_valid (ro : readOnly) (m : Message) :
  readOnly_ok ro →
  ∃ rss ro', ro_advance ro m = Ok (rss, ro') ∧ readOnly_ok ro' ∧
    ((m_Context m ∉ ro_readIndexQueue ro ∧ rss = [] ∧ ro' = ro) ∨
     (∃ before rest, ro_readIndexQueue ro = before ++ m_Context m :: rest ∧
        Forall2 (λ s rs, ro_pendingReadIndex ro !! s = Some rs) (before ++ [m_Context m]) rss ∧
        ro_readIndexQueue ro' = rest ∧
        ∀ s, s ∈ rest → ro_pendingReadIndex ro' !! s = ro_pendingReadIndex ro !! s)).
Proof.
  intros Hok. pose proof Hok as [Hn Hd Hc]. unfold ro_advance.
  destruct (advance_scan_spec (ro_pendingReadIndex ro) (m_Context m) (ro_readIndexQueue ro))
    as [[Hni ->]|(before & rest & rss & Hq & Hb & -> & HF)].
  - intros s. by rewrite Hd.
  - cbn [mbind outcome_bind]. exists [], ro. split_and!; [done|done|by left].
  - cbn [mbind outcome_bind].
    destruct (drop_pending_spec (ro_pendingReadIndex ro) (before ++ [m_Context m]) rss)
      as (p & -> & Hp); [done| |].
    { eapply Forall2_impl; [exact HF|]. apply Hc. }
    cbn [mbind outcome_bind]. eexists _, _. split; [done|].
    assert (Hnd : NoDup ((before ++ [m_Context m]) ++ rest)) by (rewrite <- app_assoc; cbn; congruence).
    apply NoDup_app in Hnd as (_ & Hdis & Hnr).
    assert (Hrest : ∀ s, s ∈ rest → p !! s = ro_pendingReadIndex ro !! s).
    { intros s Hs. rewrite Hp, bool_decide_eq_false_2; [done|]. intros Hin. by apply (Hdis s). }
    split; [|right; exists before, rest; by split_and!]. split; cbn.
    + done.
    + intros s. split.
      * intros Hs. rewrite Hrest by done. apply Hd. rewrite Hq. set_solver.
      * rewrite Hp. case_bool_decide as E; [by intros [? ?]|]. rewrite <- Hd, Hq. set_solver.
    + intros s rs. rewrite Hp. case_bool_decide; [done|apply Hc].
Qed.

(** C33: [readOnly.advance] answers a prefix of the queue: on a context that is
    queued it returns, in queue order, exactly the requests up to and including
    it and keeps exactly the others pending; on any other context it does
    nothing.  The queue and the pending map stay in agreement and it does not
    panic. *)
Theorem readOnly_advance_spec (ro : readOnly) (m : Message) :
  readOnly_ok ro →
  ∃ rss ro', ro_advance ro m = Ok (rss, ro') ∧ readOnly_ok ro' ∧
    ((m_Context m ∉ ro_readIndexQueue ro ∧ rss = [] ∧ ro' = ro) ∨
     (∃ before rest, ro_readIndexQueue ro = before ++ m_Context m :: rest ∧
        Forall2 (λ s rs, ro_pendingReadIndex ro !! s = Some rs) (before ++ [m_Context m]) rss ∧
        ro_readIndexQueue ro' = rest ∧
        ∀ s, s ∈ rest → ro_pendingReadIndex ro' !! s = ro_pendingReadIndex ro !! s)).
Proof. apply ro_advance_valid. Qed.

Definition ex_read (s : string) : Message :=
  (msg MsgReadIndex 1) <| m_Entries := [MkEntry 0 0 EntryNormal s] |>.
Definition ex_reads : outcome readOnly :=
  ro ← addRequest (newReadOnly ReadOnlySafe) 5 (ex_read "a");
  ro ← addRequest ro 6 (ex_read "b"); addRequest ro 7 (ex_read "c").

Lemma readOnly_advance_spec_witness :
  ∃ ro rss ro', ex_reads = Ok ro ∧
    ro_advance ro ((msg MsgHeartbeatResp 1) <| m_Context := "b" |>) = Ok (rss, ro') ∧
    ro_readIndexQueue ro' = ["c"].
Proof.
  destruct (addRequest_ok (newReadOnly ReadOnlySafe) 5 (ex_read "a") "a") as (r1 & H1 & Hok1 & _);
    [apply newReadOnly_ok|reflexivity|].
  destruct (addRequest_ok r1 6 (ex_read "b") "b") as (r2 & H2 & Hok2 & _); [exact Hok1|reflexivity|].
  destruct (addRequest_ok r2 7 (ex_read "c") "c") as (r3 & H3 & Hok3 & _); [exact Hok2|reflexivity|].
  destruct (readOnly_advance_spec r3 ((msg MsgHeartbeatResp 1) <| m_Context := "b" |>) Hok3)
    as (rss & ro' & H & _). vm_compute in H1. injection H1 as <-. vm_compute in H2.
  injection H2 as <-. vm_compute in H3. injection H3 as <-.
  eexists _, rss, ro'. split; [vm_compute; reflexivity|]. split; [exact H|].
  vm_compute in H. injection H as _ <-. reflexivity.
Defined.
