(* ===== verification/Raft.v ===== *)
(** * The raft state machine (raft/protocol/raft.go)

    One Definition per method of [raft], in a state monad over the record [raft]
    with panics.  The function-valued fields [step] and [tick] are determined by
    the state in the code (every [become*] sets them together), so [step] and
    [tick] are functions of [r_state].  [globalRand] is a stream of integers the
    record carries.  Log messages are dropped, but the log reads they evaluate are
    kept where those reads can panic; the published events are dropped. *)

From S2P Require Import Prelude Pb Quorum Inflights Progress Tracker Confchange.
From S2P Require Import Util Storage Unstable RaftLog ReadOnly.

Definition None_id : N := 0.

(** [StateType] and its String method. *)
Inductive RaftState : Set := StateFollower | StateCandidate | StateLeader | StatePreCandidate.
#[export] Instance RaftState_eq_dec : EqDecision RaftState.
Proof. solve_decision. Defined.
Definition RaftState_String (st : RaftState) : string :=
  match st with
  | StateFollower => "StateFollower"
  | StateCandidate => "StateCandidate"
  | StateLeader => "StateLeader"
  | StatePreCandidate => "StatePreCandidate"
  end.

(** [CampaignType]: the strings are what is put in a vote request's context. *)
Inductive CampaignType : Set := campaignPreElection | campaignElection | campaignTransfer.
#[export] Instance CampaignType_eq_dec : EqDecision CampaignType.
Proof. solve_decision. Defined.
Definition CampaignType_String (t : CampaignType) : string :=
  match t with
  | campaignPreElection => "CampaignPreElection"
  | campaignElection => "CampaignElection"
  | campaignTransfer => "CampaignTransfer"
  end.

(** [Config] of package protocol; [c_Storage] is None for a nil storage. *)
Record raft_Config (S : Type) := MkRaftConfig {
  c_ID : N;
  c_ElectionTick : Z;
  c_HeartbeatTick : Z;
  c_Storage : option S;
  c_Applied : N;
  c_MaxSizePerMsg : N;
  c_MaxCommittedSizePerReady : N;
  c_MaxUncommittedEntriesSize : N;
  c_MaxInflightMsgs : Z;
  c_CheckQuorum : bool;
  c_PreVote : bool;
  c_ReadOnlyOption : ReadOnlyOption;
  c_DisableProposalForwarding : bool;
}.
Arguments MkRaftConfig {S}.
Arguments c_ID {S} _.
Arguments c_ElectionTick {S} _.
Arguments c_HeartbeatTick {S} _.
Arguments c_Storage {S} _.
Arguments c_Applied {S} _.
Arguments c_MaxSizePerMsg {S} _.
Arguments c_MaxCommittedSizePerReady {S} _.
Arguments c_MaxUncommittedEntriesSize {S} _.
Arguments c_MaxInflightMsgs {S} _.
Arguments c_CheckQuorum {S} _.
Arguments c_PreVote {S} _.
Arguments c_ReadOnlyOption {S} _.
Arguments c_DisableProposalForwarding {S} _.

Section Config_update.
Context {S : Type}.
Let rebuild (c : raft_Config S) : raft_Config S :=
  MkRaftConfig (c_ID c) (c_ElectionTick c) (c_HeartbeatTick c) (c_Storage c) (c_Applied c)
    (c_MaxSizePerMsg c) (c_MaxCommittedSizePerReady c) (c_MaxUncommittedEntriesSize c)
    (c_MaxInflightMsgs c) (c_CheckQuorum c) (c_PreVote c) (c_ReadOnlyOption c)
    (c_DisableProposalForwarding c).
#[global] Instance upd_c_MaxCommitted : Update (@c_MaxCommittedSizePerReady S) :=
  ltac:(update_of rebuild (@c_MaxCommittedSizePerReady S)).
#[global] Instance upd_c_MaxUncommitted : Update (@c_MaxUncommittedEntriesSize S) :=
  ltac:(update_of rebuild (@c_MaxUncommittedEntriesSize S)).
End Config_update.

(** [Config.validate], which also fills in defaults. *)
Definition validate {S} (c : raft_Config S) : result (raft_Config S) :=
  if c_ID c =? None_id then Err (ErrMsg "cannot use none as id")
  else if bool_decide (c_HeartbeatTick c ≤ 0)%Z
  then Err (ErrMsg "heartbeat tick must be greater than 0")
  else if bool_decide (c_ElectionTick c ≤ c_HeartbeatTick c)%Z
  then Err (ErrMsg "election tick must be greater than heartbeat tick")
  else match c_Storage c with
  | None => Err (ErrMsg "storage cannot be nil")
  | Some _ =>
      let c := if c_MaxUncommittedEntriesSize c =? 0
               then c <| c_MaxUncommittedEntriesSize := noLimit |> else c in
      let c := if c_MaxCommittedSizePerReady c =? 0
               then c <| c_MaxCommittedSizePerReady := c_MaxSizePerMsg c |> else c in
      if bool_decide (c_MaxInflightMsgs c ≤ 0)%Z
      then Err (ErrMsg "max inflight messages must be greater than 0")
      else if bool_decide (c_ReadOnlyOption c = ReadOnlyLeaseBased) && negb (c_CheckQuorum c)
      then Err (ErrMsg "CheckQuorum must be enabled when ReadOnlyOption is ReadOnlyLeaseBased")
      else Val c
  end.

(** [raft].  [r_rand] is the stream [globalRand] draws from, [r_draws] how many
    values were drawn. *)
Record raft (S : Type) := MkRaft {
  r_id : N;
  r_Term : N;
  r_Vote : N;
  r_readStates : list ReadState;
  r_raftLog : raftLog S;
  r_maxMsgSize : N;
  r_maxUncommittedSize : N;
  r_prs : ProgressTracker;
  r_state : RaftState;
  r_isLearner : bool;
  r_msgs : list Message;
  r_lead : N;
  r_leadTransferee : N;
  r_pendingConfIndex : N;
  r_uncommittedSize : N;
  r_readOnly : readOnly;
  r_electionElapsed : Z;
  r_heartbeatElapsed : Z;
  r_checkQuorum : bool;
  r_preVote : bool;
  r_heartbeatTimeout : Z;
  r_electionTimeout : Z;
  r_randomizedElectionTimeout : Z;
  r_disableProposalForwarding : bool;
  r_pendingReadIndexMessages : list Message;
  r_rand : nat → Z;
  r_draws : nat;
}.
Arguments MkRaft {S}.
Arguments r_id {S} _.
Arguments r_Term {S} _.
Arguments r_Vote {S} _.
Arguments r_readStates {S} _.
Arguments r_raftLog {S} _.
Arguments r_maxMsgSize {S} _.
Arguments r_maxUncommittedSize {S} _.
Arguments r_prs {S} _.
Arguments r_state {S} _.
Arguments r_isLearner {S} _.
Arguments r_msgs {S} _.
Arguments r_lead {S} _.
Arguments r_leadTransferee {S} _.
Arguments r_pendingConfIndex {S} _.
Arguments r_uncommittedSize {S} _.
Arguments r_readOnly {S} _.
Arguments r_electionElapsed {S} _.
Arguments r_heartbeatElapsed {S} _.
Arguments r_checkQuorum {S} _.
Arguments r_preVote {S} _.
Arguments r_heartbeatTimeout {S} _.
Arguments r_electionTimeout {S} _.
Arguments r_randomizedElectionTimeout {S} _.
Arguments r_disableProposalForwarding {S} _.
Arguments r_pendingReadIndexMessages {S} _.
Arguments r_rand {S} _.
Arguments r_draws {S} _.

Section raft_update.
Context {S : Type}.
Let rebuild (r : raft S) : raft S :=
  MkRaft (r_id r) (r_Term r) (r_Vote r) (r_readStates r) (r_raftLog r) (r_maxMsgSize r)
    (r_maxUncommittedSize r) (r_prs r) (r_state r) (r_isLearner r) (r_msgs r) (r_lead r)
    (r_leadTransferee r) (r_pendingConfIndex r) (r_uncommittedSize r) (r_readOnly r)
    (r_electionElapsed r) (r_heartbeatElapsed r) (r_checkQuorum r) (r_preVote r)
    (r_heartbeatTimeout r) (r_electionTimeout r) (r_randomizedElectionTimeout r)
    (r_disableProposalForwarding r) (r_pendingReadIndexMessages r) (r_rand r) (r_draws r).
#[global] Instance upd_r_Term : Update (@r_Term S) :=
  ltac:(update_of rebuild (@r_Term S)).
#[global] Instance upd_r_Vote : Update (@r_Vote S) :=
  ltac:(update_of rebuild (@r_Vote S)).
#[global] Instance upd_r_readStates : Update (@r_readStates S) :=
  ltac:(update_of rebuild (@r_readStates S)).
#[global] Instance upd_r_raftLog : Update (@r_raftLog S) :=
  ltac:(update_of rebuild (@r_raftLog S)).
#[global] Instance upd_r_prs : Update (@r_prs S) :=
  ltac:(update_of rebuild (@r_prs S)).
#[global] Instance upd_r_state : Update (@r_state S) :=
  ltac:(update_of rebuild (@r_state S)).
#[global] Instance upd_r_isLearner : Update (@r_isLearner S) :=
  ltac:(update_of rebuild (@r_isLearner S)).
#[global] Instance upd_r_msgs : Update (@r_msgs S) :=
  ltac:(update_of rebuild (@r_msgs S)).
#[global] Instance upd_r_lead : Update (@r_lead S) :=
  ltac:(update_of rebuild (@r_lead S)).
#[global] Instance upd_r_leadTransferee : Update (@r_leadTransferee S) :=
  ltac:(update_of rebuild (@r_leadTransferee S)).
#[global] Instance upd_r_pendingConfIndex : Update (@r_pendingConfIndex S) :=
  ltac:(update_of rebuild (@r_pendingConfIndex S)).
#[global] Instance upd_r_uncommittedSize : Update (@r_uncommittedSize S) :=
  ltac:(update_of rebuild (@r_uncommittedSize S)).
#[global] Instance upd_r_readOnly : Update (@r_readOnly S) :=
  ltac:(update_of rebuild (@r_readOnly S)).
#[global] Instance upd_r_electionElapsed : Update (@r_electionElapsed S) :=
  ltac:(update_of rebuild (@r_electionElapsed S)).
#[global] Instance upd_r_heartbeatElapsed : Update (@r_heartbeatElapsed S) :=
  ltac:(update_of rebuild (@r_heartbeatElapsed S)).
#[global] Instance upd_r_randomizedElectionTimeout : Update (@r_randomizedElectionTimeout S) :=
  ltac:(update_of rebuild (@r_randomizedElectionTimeout S)).
#[global] Instance upd_r_pendingReadIndexMessages : Update (@r_pendingReadIndexMessages S) :=
  ltac:(update_of rebuild (@r_pendingReadIndexMessages S)).
#[global] Instance upd_r_draws : Update (@r_draws S) :=
  ltac:(update_of rebuild (@r_draws S)).
End raft_update.

Section Raft.
Context `{RaftPB} {S : Type} `{Storage S}.
Notation R := (M (raft S)).

(** ** Access to the parts of the state *)

(** A read of the log, and a method that changes it. *)
Definition log_read {A} (f : raftLog S → outcome A) : R A := lift (λ r, f (r_raftLog r)).
Definition log_step {A} (f : raftLog S → outcome (A * raftLog S)) : R A := λ r,
  match f (r_raftLog r) with
  | Ok (a, l) => Ok (a, r <| r_raftLog := l |>)
  | Panic => Panic
  end.
(** [r.prs.Progress[id]]: a nil pointer dereference when there is none. *)
Definition pr_get (id : N) : R Progress := lift (λ r,
  match t_Progress (r_prs r) !! id with Some pr => Ok pr | None => Panic end).
Definition pr_set (id : N) (pr : Progress) : R unit :=
  modify (λ r, r <| r_prs ::= λ t, t <| t_Progress ::= <[id := pr]> |> |>).
Definition pr_modify (id : N) (f : Progress → Progress) : R unit :=
  pr ← pr_get id; pr_set id (f pr).
Definition ro_step {A} (f : readOnly → outcome (A * readOnly)) : R A := λ r,
  match f (r_readOnly r) with
  | Ok (a, ro) => Ok (a, r <| r_readOnly := ro |>)
  | Panic => Panic
  end.

(** [hasLeader], [softState], [hardState]. *)
Definition hasLeader (r : raft S) : bool := negb (r_lead r =? None_id).
Definition softState (r : raft S) : N * RaftState := (r_lead r, r_state r).
Definition hardState (r : raft S) : HardState :=
  MkHardState (r_Term r) (r_Vote r) (l_committed (r_raftLog r)).

(** ** Sending *)

Definition is_vote_type (t : MessageType) : bool :=
  match t with MsgVote | MsgVoteResp | MsgPreVote | MsgPreVoteResp => true | _ => false end.

(** [send]. *)
Definition send (m : Message) : R unit :=
  r ← get;
  let m := if m_From m =? None_id then m <| m_From := r_id r |> else m in
  if is_vote_type (m_Type m) then
    if m_Term m =? 0 then panic else modify (λ r, r <| r_msgs ::= λ ms, ms ++ [m] |>)
  else if negb (m_Term m =? 0) then panic
  else
    let m := if bool_decide (m_Type m ≠ MsgProp) && bool_decide (m_Type m ≠ MsgReadIndex)
             then m <| m_Term := r_Term r |> else m in
    modify (λ r, r <| r_msgs ::= λ ms, ms ++ [m] |>).

(** The snapshot branch of [maybeSendAppend]. *)
Definition send_snapshot (to : N) (pr : Progress) : R bool :=
  if negb (pr_RecentActive pr) then mret false
  else
    s ← log_read log_snapshot;
    match s with
    | Err ErrSnapshotTemporarilyUnavailable => mret false
    | Err _ => panic
    | Val snapshot =>
        if IsEmptySnap snapshot then panic
        else
          _ ← log_read firstIndex;
          pr_set to (BecomeSnapshot pr (s_Index snapshot));;
          send ((msg MsgSnap to) <| m_Snapshot := snapshot |>);;
          mret true
    end.

(** The progress update when entries are sent. *)
Definition sent_entries (to : N) (pr : Progress) (ents : list Entry) : R unit :=
  match last ents with
  | None => mret tt
  | Some e =>
      match pr_State pr with
      | StateReplicate =>
          let pr := OptimisticUpdate pr (e_Index e) in
          infl ← lift (λ _, Add (pr_Inflights pr) (e_Index e));
          pr_set to (pr <| pr_Inflights := infl |>)
      | StateProbe => pr_set to (pr <| pr_ProbeSent := true |>)
      | StateSnapshot => panic
      end
  end.

(** [maybeSendAppend]. *)
Definition maybeSendAppend (to : N) (sendIfEmpty : bool) : R bool :=
  pr ← pr_get to;
  if IsPaused pr then mret false
  else
    term ← log_read (λ l, log_term l (pr_Next pr -u 1));
    r ← get;
    ents ← log_read (λ l, log_entries l (pr_Next pr) (r_maxMsgSize r));
    let es := match ents with Val es => es | Err _ => [] end in
    if (length es =? 0)%nat && negb sendIfEmpty then mret false
    else
      match term, ents with
      | Val t, Val _ =>
          let m := (msg MsgApp to) <| m_Index := pr_Next pr -u 1 |> <| m_LogTerm := t |>
                     <| m_Entries := es |> <| m_Commit := l_committed (r_raftLog r) |> in
          sent_entries to pr es;;
          send m;;
          mret true
      | _, _ => send_snapshot to pr
      end.

(** [sendAppend], [sendHeartbeat], [sendTimeoutNow]. *)
Definition sendAppend (to : N) : R unit := _ ← maybeSendAppend to true; mret tt.
Definition sendHeartbeat (to : N) (ctx : string) : R unit :=
  pr ← pr_get to;
  r ← get;
  let commit := min (pr_Match pr) (l_committed (r_raftLog r)) in
  send ((msg MsgHeartbeat to) <| m_Commit := commit |> <| m_Context := ctx |>).
Definition sendTimeoutNow (to : N) : R unit := send (msg MsgTimeoutNow to).

(** [r.prs.Visit(f)]. *)
Definition visit (f : N → R unit) : R unit := t ← gets r_prs; forM (Visit t) f.

(** [bcastAppend], [bcastHeartbeatWithCtx] and [bcastHeartbeat]. *)
Definition bcastAppend : R unit :=
  self ← gets r_id;
  visit (λ id, if id =? self then mret tt else sendAppend id).
Definition bcastHeartbeatWithCtx (ctx : string) : R unit :=
  self ← gets r_id;
  visit (λ id, if id =? self then mret tt else sendHeartbeat id ctx).
Definition bcastHeartbeat : R unit :=
  r ← get; bcastHeartbeatWithCtx (lastPendingRequestCtx (r_readOnly r)).

(** ** Commit, reset and append *)

(** [raft.maybeCommit]. *)
Definition maybeCommit_r : R bool :=
  r ← get;
  log_step (λ l, maybeCommit l (Committed (r_prs r)) (r_Term r)).

(** [lockedRand.Intn]: [rand.Intn] panics on a non-positive bound. *)
Definition Intn (n : Z) : R Z :=
  if bool_decide (n ≤ 0)%Z then panic
  else
    r ← get;
    put (r <| r_draws ::= Datatypes.S |>);;
    mret (r_rand r (r_draws r) mod n)%Z.

(** [resetRandomizedElectionTimeout], [pastElectionTimeout], [abortLeaderTransfer]. *)
Definition resetRandomizedElectionTimeout : R unit :=
  t ← gets r_electionTimeout;
  n ← Intn t;
  modify (λ r, r <| r_randomizedElectionTimeout := i64 (t + n) |>).
Definition pastElectionTimeout (r : raft S) : bool :=
  bool_decide (r_randomizedElectionTimeout r ≤ r_electionElapsed r)%Z.
Definition abortLeaderTransfer : R unit := modify (λ r, r <| r_leadTransferee := None_id |>).

(** The closure of [reset]. *)
Definition reset_progress (id : N) : R unit :=
  pr ← pr_get id;
  last ← log_read lastIndex;
  r ← get;
  let pr' := MkProgress 0 (last +u 1) StateProbe 0 false false
               (NewInflights (t_MaxInflight (r_prs r))) (pr_IsLearner pr) in
  pr_set id (if id =? r_id r then pr' <| pr_Match := last |> else pr').

(** [reset]. *)
Definition reset (term : N) : R unit :=
  r ← get;
  when (negb (r_Term r =? term))
    (modify (λ r, r <| r_Term := term |> <| r_Vote := None_id |>));;
  modify (λ r, r <| r_lead := None_id |> <| r_electionElapsed := 0%Z |>
                 <| r_heartbeatElapsed := 0%Z |>);;
  resetRandomizedElectionTimeout;;
  abortLeaderTransfer;;
  modify (λ r, r <| r_prs ::= ResetVotes |>);;
  visit reset_progress;;
  modify (λ r, r <| r_pendingConfIndex := 0 |> <| r_uncommittedSize := 0 |>
                 <| r_readOnly ::= λ ro, newReadOnly (ro_option ro) |>).

(** The payload sum of [increaseUncommittedSize] and [reduceUncommittedSize]. *)
Definition payload_sum (ents : list Entry) : N :=
  foldl (λ s e, s +u Z.to_N (PayloadSize e)) 0 ents.

(** [increaseUncommittedSize] and [reduceUncommittedSize]. *)
Definition increaseUncommittedSize (ents : list Entry) : R bool :=
  r ← get;
  let s := payload_sum ents in
  if (0 <? r_uncommittedSize r) && (0 <? s) &&
     (r_maxUncommittedSize r <? r_uncommittedSize r +u s)
  then mret false
  else modify (λ r, r <| r_uncommittedSize ::= λ u, u +u s |>);; mret true.
Definition reduceUncommittedSize (ents : list Entry) : R unit :=
  r ← get;
  if r_uncommittedSize r =? 0 then mret tt
  else
    let s := payload_sum ents in
    modify (λ r, r <| r_uncommittedSize ::= λ u, if u <? s then 0 else u -u s |>).

(** The numbering loop of [appendEntry]. *)
Definition stamp (term li : N) (es : list Entry) : list Entry :=
  imap (λ i e, e <| e_Term := term |> <| e_Index := li +u 1 +u N.of_nat i |>) es.

(** [appendEntry]. *)
Definition appendEntry (es : list Entry) : R bool :=
  li ← log_read lastIndex;
  r ← get;
  let es := stamp (r_Term r) li es in
  ok ← increaseUncommittedSize es;
  if negb ok then mret false
  else
    li ← log_step (λ l, log_append l es);
    pr ← pr_get (r_id r);
    pr_set (r_id r) (MaybeUpdate pr li).2;;
    _ ← maybeCommit_r;
    mret true.

(** ** Role changes *)

(** [becomeFollower]. *)
Definition becomeFollower (term lead : N) : R unit :=
  reset term;;
  modify (λ r, r <| r_lead := lead |> <| r_state := StateFollower |>).

(** [becomeCandidate]. *)
Definition becomeCandidate : R unit :=
  r ← get;
  if decide (r_state r = StateLeader) then panic
  else
    reset (r_Term r +u 1);;
    modify (λ r, r <| r_Vote := r_id r |> <| r_state := StateCandidate |>).

(** [becomePreCandidate]. *)
Definition becomePreCandidate : R unit :=
  r ← get;
  if decide (r_state r = StateLeader) then panic
  else
    modify (λ r, r <| r_prs ::= ResetVotes |> <| r_lead := None_id |>
                   <| r_state := StatePreCandidate |>).

(** [becomeLeader]. *)
Definition becomeLeader : R unit :=
  r ← get;
  if decide (r_state r = StateFollower) then panic
  else
    reset (r_Term r);;
    modify (λ r, r <| r_lead := r_id r |> <| r_state := StateLeader |>);;
    pr_modify (r_id r) BecomeReplicate;;
    last ← log_read lastIndex;
    modify (λ r, r <| r_pendingConfIndex := last |>);;
    ok ← appendEntry [Entry_zero];
    if negb ok then panic
    else reduceUncommittedSize [Entry_zero].

(** ** Elections *)

(** [promotable]. *)
Definition promotable (r : raft S) : bool :=
  match t_Progress (r_prs r) !! r_id r with
  | Some pr => negb (pr_IsLearner pr) && negb (hasPendingSnapshot (r_raftLog r))
  | None => false
  end.

(** [numOfPendingConf]. *)
Definition numOfPendingConf (ents : list Entry) : nat :=
  countb (λ e, bool_decide (e_Type e = EntryConfChange ∨ e_Type e = EntryConfChangeV2)) ents.

(** [poll]. *)
Definition poll (id : N) (v : bool) : R (nat * nat * VoteResult) :=
  modify (λ r, r <| r_prs ::= λ t, RecordVote t id v |>);;
  gets (λ r, TallyVotes (r_prs r)).

(** The vote request of [campaign] to one peer. *)
Definition request_vote (t : CampaignType) (voteMsg : MessageType) (term id : N) : R unit :=
  last ← log_read lastIndex;
  lt ← log_read lastTerm;
  let ctx := if decide (t = campaignTransfer) then CampaignType_String t else "" in
  send ((msg voteMsg id) <| m_Term := term |> <| m_Index := last |> <| m_LogTerm := lt |>
          <| m_Context := ctx |>).

(** [campaign]; [after_prevote] is the recursive call after winning the
    pre-vote alone. *)
Definition campaign_with (after_prevote : R unit) (t : CampaignType) : R unit :=
  let pre := bool_decide (t = campaignPreElection) in
  (if pre then becomePreCandidate else becomeCandidate);;
  r ← get;
  let voteMsg := if pre then MsgPreVote else MsgVote in
  let term := if pre then r_Term r +u 1 else r_Term r in
  '(_, _, res) ← poll (r_id r) true;
  if decide (res = VoteWon) then
    if pre then after_prevote else becomeLeader
  else
    ids ← gets (λ r, insertionSort (elements (IDs (Voters (t_Config (r_prs r))))));
    forM ids (λ id, if id =? r_id r then mret tt else request_vote t voteMsg term id).
Definition campaign (t : CampaignType) : R unit :=
  campaign_with (campaign_with (mret tt) campaignElection) t.

(** [hup]. *)
Definition hup (t : CampaignType) : R unit :=
  r ← get;
  if decide (r_state r = StateLeader) then mret tt
  else if negb (promotable r) then mret tt
  else
    let l := r_raftLog r in
    ents ← log_read (λ l, must (log_slice l (l_applied l +u 1) (l_committed l +u 1) noLimit));
    if negb (numOfPendingConf ents =? 0)%nat && (l_applied l <? l_committed l) then mret tt
    else campaign t.

(** ** Read-index requests *)

(** [committedEntryInCurrentTerm]. *)
Definition committedEntryInCurrentTerm : R bool :=
  r ← get;
  t ← log_read (λ l, res ← log_term l (l_committed l); zeroTermOnErrCompacted res);
  mret (t =? r_Term r).

(** [responseToReadIndexReq]; the blank message is [msg MsgHup 0]. *)
Definition responseToReadIndexReq (req : Message) (readIndex : N) : R Message :=
  r ← get;
  if (m_From req =? None_id) || (m_From req =? r_id r) then
    ctx ← lift (λ _, request_ctx req);
    modify (λ r, r <| r_readStates ::= λ l, l ++ [MkReadState readIndex ctx] |>);;
    mret (msg MsgHup 0)
  else mret ((msg MsgReadIndexResp (m_From req)) <| m_Index := readIndex |>
               <| m_Entries := m_Entries req |>).

(** [if resp := r.responseToReadIndexReq(...); resp.To != None { r.send(resp) }] *)
Definition respond (req : Message) (readIndex : N) : R unit :=
  resp ← responseToReadIndexReq req readIndex;
  when (negb (m_To resp =? None_id)) (send resp).

(** [sendMsgReadIndexResponse]. *)
Definition sendMsgReadIndexResponse (m : Message) : R unit :=
  r ← get;
  match ro_option (r_readOnly r) with
  | ReadOnlySafe =>
      let committed := l_committed (r_raftLog r) in
      ro_step (λ ro, ro' ← addRequest ro committed m; Ok (tt, ro'));;
      ctx ← lift (λ _, request_ctx m);
      _ ← ro_step (λ ro, Ok (recvAck ro (r_id r) ctx));
      bcastHeartbeatWithCtx ctx
  | ReadOnlyLeaseBased => respond m (l_committed (r_raftLog r))
  end.

(** [releasePendingReadIndexMessages]. *)
Definition releasePendingReadIndexMessages : R unit :=
  b ← committedEntryInCurrentTerm;
  if negb b then mret tt
  else
    msgs ← gets r_pendingReadIndexMessages;
    modify (λ r, r <| r_pendingReadIndexMessages := [] |>);;
    forM msgs sendMsgReadIndexResponse.

(** ** Leader *)

(** [MsgCheckQuorum] in [stepLeader]. *)
Definition leader_CheckQuorum : R unit :=
  r ← get;
  (match t_Progress (r_prs r) !! r_id r with
   | Some _ => pr_modify (r_id r) (λ pr, pr <| pr_RecentActive := true |>)
   | None => mret tt
   end);;
  t ← gets r_prs;
  when (negb (QuorumActive t)) (becomeFollower (r_Term r) None_id);;
  visit (λ id, if id =? r_id r then mret tt
               else pr_modify id (λ pr, pr <| pr_RecentActive := false |>)).

(** The decoding and checking of one proposed entry: the entry to append, which
    is empty when a configuration change is refused. *)
Definition decode_ConfChange (e : Entry) : outcome (option ConfChangeV2) :=
  match e_Type e with
  | EntryNormal => Ok None
  | EntryConfChange =>
      match V1_Unmarshal (e_Data e) with
      | Err _ => Panic
      | Val cc => Ok (Some (AsV2 (inl cc)))
      end
  | EntryConfChangeV2 =>
      match V2_Unmarshal (e_Data e) with
      | Err _ => Panic
      | Val cc => Ok (Some (AsV2 (inr cc)))
      end
  end.
Definition refuses (r : raft S) (cc : ConfChangeV2) : bool :=
  let alreadyPending := l_applied (r_raftLog r) <? r_pendingConfIndex r in
  let alreadyJoint := joint (t_Config (r_prs r)) in
  let wantsLeaveJoint := (length (Changes cc) =? 0)%nat in
  alreadyPending || (alreadyJoint && negb wantsLeaveJoint)
  || (negb alreadyJoint && wantsLeaveJoint).
Fixpoint check_proposals (i : nat) (es : list Entry) : R (list Entry) :=
  match es with
  | [] => mret []
  | e :: es' =>
      cc ← lift (λ _, decode_ConfChange e);
      r ← get;
      e' ← match cc with
           | None => mret e
           | Some cc =>
               if refuses r cc then mret Entry_zero
               else
                 last ← log_read lastIndex;
                 modify (λ r, r <| r_pendingConfIndex := last +u N.of_nat i +u 1 |>);;
                 mret e
           end;
      rest ← check_proposals (Datatypes.S i) es';
      mret (e' :: rest)
  end.

(** [MsgProp] in [stepLeader]. *)
Definition leader_Prop (m : Message) : R (option error) :=
  r ← get;
  if (length (m_Entries m) =? 0)%nat then panic
  else match t_Progress (r_prs r) !! r_id r with
  | None => mret (Some ErrProposalDropped)
  | Some _ =>
      if negb (r_leadTransferee r =? None_id) then mret (Some ErrProposalDropped)
      else
        es ← check_proposals 0 (m_Entries m);
        ok ← appendEntry es;
        if negb ok then mret (Some ErrProposalDropped)
        else bcastAppend;; mret None
  end.

(** [MsgReadIndex] in [stepLeader]. *)
Definition leader_ReadIndex (m : Message) : R unit :=
  r ← get;
  if IsSingleton (r_prs r) then respond m (l_committed (r_raftLog r))
  else
    b ← committedEntryInCurrentTerm;
    if negb b
    then modify (λ r, r <| r_pendingReadIndexMessages ::= λ l, l ++ [m] |>)
    else sendMsgReadIndexResponse m.

(** A rejected [MsgAppResp]. *)
Definition leader_AppResp_reject (m : Message) : R unit :=
  nextProbeIdx ←
    (if 0 <? m_LogTerm m then
       c ← log_read (λ l, findConflictByTerm l (m_RejectHint m) (m_LogTerm m));
       mret (default (m_RejectHint m) c)
     else mret (m_RejectHint m));
  pr ← pr_get (m_From m);
  let (decreased, pr') := MaybeDecrTo pr (m_Index m) nextProbeIdx in
  if decreased then
    pr_set (m_From m) (if decide (pr_State pr' = StateReplicate) then BecomeProbe pr' else pr');;
    sendAppend (m_From m)
  else mret tt.

(** The progress transition of an accepted [MsgAppResp]. *)
Definition appResp_progress (pr : Progress) (index : N) : outcome Progress :=
  match pr_State pr with
  | StateProbe => Ok (BecomeReplicate pr)
  | StateSnapshot =>
      if pr_PendingSnapshot pr <=? pr_Match pr then Ok (BecomeReplicate (BecomeProbe pr))
      else Ok pr
  | StateReplicate =>
      infl ← FreeLE (pr_Inflights pr) index; Ok (pr <| pr_Inflights := infl |>)
  end.

(** [for r.maybeSendAppend(m.From, false) {}]; the result tells whether the
    loop ended by itself. *)
Fixpoint send_appends (fuel : nat) (to : N) : R bool :=
  match fuel with
  | O => mret false
  | Datatypes.S fuel =>
      sent ← maybeSendAppend to false;
      if sent : bool then send_appends fuel to else mret true
  end.
Definition send_fuel (to : N) : R nat :=
  pr ← pr_get to;
  last ← log_read lastIndex;
  mret (N.to_nat (last + 1 - pr_Next pr) + 2)%nat.

(** An accepted [MsgAppResp]. *)
Definition leader_AppResp_accept (m : Message) : R unit :=
  pr ← pr_get (m_From m);
  let oldPaused := IsPaused pr in
  let (updated, pr1) := MaybeUpdate pr (m_Index m) in
  pr_set (m_From m) pr1;;
  if negb updated then mret tt
  else
    pr2 ← lift (λ _, appResp_progress pr1 (m_Index m));
    pr_set (m_From m) pr2;;
    committed ← maybeCommit_r;
    (if committed : bool then releasePendingReadIndexMessages;; bcastAppend
     else when oldPaused (sendAppend (m_From m)));;
    fuel ← send_fuel (m_From m);
    _ ← send_appends fuel (m_From m);
    r ← get;
    pr ← pr_get (m_From m);
    last ← log_read lastIndex;
    when ((m_From m =? r_leadTransferee r) && (pr_Match pr =? last)) (sendTimeoutNow (m_From m)).

(** [MsgAppResp] in [stepLeader]. *)
Definition leader_AppResp (m : Message) : R unit :=
  pr_modify (m_From m) (λ pr, pr <| pr_RecentActive := true |>);;
  if m_Reject m then leader_AppResp_reject m else leader_AppResp_accept m.

(** [MsgHeartbeatResp] in [stepLeader]. *)
Definition leader_HeartbeatResp (m : Message) : R unit :=
  pr ← pr_get (m_From m);
  let pr := pr <| pr_RecentActive := true |> <| pr_ProbeSent := false |> in
  pr ← (if bool_decide (pr_State pr = StateReplicate) && Full (pr_Inflights pr)
        then infl ← lift (λ _, FreeFirstOne (pr_Inflights pr));
             mret (pr <| pr_Inflights := infl |>)
        else mret pr);
  pr_set (m_From m) pr;;
  last ← log_read lastIndex;
  when (pr_Match pr <? last) (sendAppend (m_From m));;
  r ← get;
  if negb (bool_decide (ro_option (r_readOnly r) = ReadOnlySafe))
     || (String.length (m_Context m) =? 0)%nat
  then mret tt
  else
    acks ← ro_step (λ ro, Ok (recvAck ro (m_From m) (m_Context m)));
    if decide (JointVoteResult (Voters (t_Config (r_prs r))) acks = VoteWon) then
      rss ← ro_step (λ ro, ro_advance ro m);
      forM rss (λ rs, respond (ri_req rs) (ri_index rs))
    else mret tt.

(** [MsgSnapStatus] in [stepLeader]. *)
Definition leader_SnapStatus (m : Message) : R unit :=
  pr ← pr_get (m_From m);
  if negb (bool_decide (pr_State pr = StateSnapshot)) then mret tt
  else
    let pr1 := if m_Reject m then BecomeProbe (pr <| pr_PendingSnapshot := 0 |>)
               else BecomeProbe pr in
    pr_set (m_From m) (pr1 <| pr_ProbeSent := true |>).

(** [MsgUnreachable] in [stepLeader]. *)
Definition leader_Unreachable (m : Message) : R unit :=
  pr ← pr_get (m_From m);
  if decide (pr_State pr = StateReplicate) then pr_set (m_From m) (BecomeProbe pr)
  else mret tt.

(** [MsgTransferLeader] in [stepLeader]. *)
Definition leader_TransferLeader (m : Message) : R unit :=
  pr ← pr_get (m_From m);
  r ← get;
  let leadTransferee := m_From m in
  if pr_IsLearner pr then mret tt
  else if negb (r_leadTransferee r =? None_id) && (r_leadTransferee r =? leadTransferee)
  then mret tt
  else
    when (negb (r_leadTransferee r =? None_id)) abortLeaderTransfer;;
    if leadTransferee =? r_id r then mret tt
    else
      modify (λ r, r <| r_electionElapsed := 0%Z |> <| r_leadTransferee := leadTransferee |>);;
      last ← log_read lastIndex;
      if pr_Match pr =? last then sendTimeoutNow leadTransferee
      else sendAppend leadTransferee.

(** [stepLeader]; the result is the error. *)
Definition stepLeader (m : Message) : R (option error) :=
  match m_Type m with
  | MsgBeat => bcastHeartbeat;; mret None
  | MsgCheckQuorum => leader_CheckQuorum;; mret None
  | MsgProp => leader_Prop m
  | MsgReadIndex => leader_ReadIndex m;; mret None
  | t =>
      r ← get;
      match t_Progress (r_prs r) !! m_From m with
      | None => mret None
      | Some _ =>
          (match t with
           | MsgAppResp => leader_AppResp m
           | MsgHeartbeatResp => leader_HeartbeatResp m
           | MsgSnapStatus => leader_SnapStatus m
           | MsgUnreachable => leader_Unreachable m
           | MsgTransferLeader => leader_TransferLeader m
           | _ => mret tt
           end);;
          mret None
      end
  end.

(** ** Configuration *)

(** The part of [switchToConfig] a leader runs. *)
Definition leader_switched : R unit :=
  committed ← maybeCommit_r;
  (if committed : bool then bcastAppend
   else visit (λ id, _ ← maybeSendAppend id false; mret tt));;
  r ← get;
  when (bool_decide (r_leadTransferee r ∉ IDs (Voters (t_Config (r_prs r)))) &&
        negb (r_leadTransferee r =? 0)) abortLeaderTransfer.

(** [switchToConfig]. *)
Definition switchToConfig (cfg : Config) (prs : ProgressMap) : R ConfState :=
  modify (λ r, r <| r_prs ::= λ t, t <| t_Config := cfg |> <| t_Progress := prs |> |>);;
  r ← get;
  let cs := tracker_ConfState (r_prs r) in
  let isLearner := match prs !! r_id r with Some pr => pr_IsLearner pr | None => false end in
  modify (λ r, r <| r_isLearner := isLearner |>);;
  let gone := bool_decide (prs !! r_id r = None) || isLearner in
  if gone && bool_decide (r_state r = StateLeader) then mret cs
  else if negb (bool_decide (r_state r = StateLeader)) || (length (cs_Voters cs) =? 0)%nat
  then mret cs
  else leader_switched;; mret cs.

(** [applyConfChange]. *)
Definition applyConfChange (cc : ConfChangeV2) : R ConfState :=
  r ← get;
  last ← log_read lastIndex;
  let changer := MkChanger (r_prs r) last in
  let (autoLeave, ok) := V2_EnterJoint cc in
  res ← lift (λ _, must (
    if V2_LeaveJoint cc then LeaveJoint changer
    else if ok then EnterJoint changer autoLeave (Changes cc)
    else Simple changer (Changes cc)));
  switchToConfig res.1 res.2.

(** The configuration part of [restore] and [newRaft]. *)
Definition restore_config (cs : ConfState) : R unit :=
  r ← get;
  last ← log_read lastIndex;
  res ← lift (λ _, must (Restore (MkChanger (r_prs r) last) cs));
  cs' ← switchToConfig res.1 res.2;
  lift (λ _, assertConfStatesEquivalent cs cs').

(** [restore]. *)
Definition restore (s : Snapshot) : R bool :=
  r ← get;
  let cs := s_ConfState s in
  if s_Index s <=? l_committed (r_raftLog r) then mret false
  else if negb (bool_decide (r_state r = StateFollower)) then
    becomeFollower (r_Term r +u 1) None_id;; mret false
  else if negb (bool_decide (r_id r ∈ cs_Voters cs ∨ r_id r ∈ cs_Learners cs ∨
                             r_id r ∈ cs_VotersOutgoing cs)) then mret false
  else
    b ← log_read (λ l, matchTerm l (s_Index s) (s_Term s));
    if b : bool then
      _ ← log_read lastTerm;
      _ ← log_step (λ l, commitTo l (s_Index s)); mret false
    else
      modify (λ r, r <| r_raftLog ::= λ l, log_restore l s |>
                     <| r_prs ::= λ t, MakeProgressTracker (t_MaxInflight t) |>);;
      restore_config cs;;
      pr ← pr_get (r_id r);
      pr_set (r_id r) (MaybeUpdate pr (pr_Next pr -u 1)).2;;
      _ ← log_read lastTerm;
      mret true.

(** [loadState]. *)
Definition loadState (state : HardState) : R unit :=
  last ← log_read lastIndex;
  r ← get;
  if (hs_Commit state <? l_committed (r_raftLog r)) || (last <? hs_Commit state) then panic
  else modify (λ r, r <| r_raftLog ::= λ l, l <| l_committed := hs_Commit state |> |>
                      <| r_Term := hs_Term state |> <| r_Vote := hs_Vote state |>).

(** ** Follower *)

(** The reply of [handleAppendEntries] to entries that do not follow. *)
Definition reject_append (m : Message) : R unit :=
  _ ← log_read (λ l, t ← log_term l (m_Index m); zeroTermOnErrCompacted t);
  last ← log_read lastIndex;
  let hintIndex := min (m_Index m) last in
  hint ← log_read (λ l, findConflictByTerm l hintIndex (m_LogTerm m));
  let hintIndex := default hintIndex hint in
  hintTerm ← log_read (λ l, must (log_term l hintIndex));
  send ((msg MsgAppResp (m_From m)) <| m_Index := m_Index m |> <| m_Reject := true |>
          <| m_RejectHint := hintIndex |> <| m_LogTerm := hintTerm |>).

(** [handleAppendEntries]. *)
Definition handleAppendEntries (m : Message) : R unit :=
  r ← get;
  if m_Index m <? l_committed (r_raftLog r) then
    send ((msg MsgAppResp (m_From m)) <| m_Index := l_committed (r_raftLog r) |>)
  else
    _ ← log_read lastIndex;
    res ← log_step (λ l, maybeAppend l (m_Index m) (m_LogTerm m) (m_Commit m) (m_Entries m));
    match res with
    | Some mlastIndex => send ((msg MsgAppResp (m_From m)) <| m_Index := mlastIndex |>)
    | None => reject_append m
    end.

(** [handleHeartbeat]. *)
Definition handleHeartbeat (m : Message) : R unit :=
  committed ← log_step (λ l, commitTo l (m_Commit m));
  when committed (send ((msg MsgHeartbeatResp (m_From m)) <| m_Context := m_Context m |>)).

(** [handleSnapshot]. *)
Definition handleSnapshot (m : Message) : R unit :=
  b ← restore (m_Snapshot m);
  index ← (if b : bool then log_read lastIndex else gets (λ r, l_committed (r_raftLog r)));
  send ((msg MsgAppResp (m_From m)) <| m_Index := index |>).

(** [m.To = r.lead; r.send(m)] *)
Definition forward_to_lead (m : Message) : R unit :=
  lead ← gets r_lead; send (m <| m_To := lead |>).

(** The contact with a leader that [stepFollower] records. *)
Definition heard_from (lead : N) : R unit :=
  modify (λ r, r <| r_electionElapsed := 0%Z |> <| r_lead := lead |>).

(** [stepFollower]. *)
Definition stepFollower (m : Message) : R (option error) :=
  r ← get;
  match m_Type m with
  | MsgProp =>
      if r_lead r =? None_id then mret (Some ErrProposalDropped)
      else if r_disableProposalForwarding r then mret (Some ErrProposalDropped)
      else forward_to_lead m;; mret None
  | MsgApp => heard_from (m_From m);; handleAppendEntries m;; mret None
  | MsgHeartbeat => heard_from (m_From m);; handleHeartbeat m;; mret None
  | MsgSnap => heard_from (m_From m);; handleSnapshot m;; mret None
  | MsgTransferLeader | MsgReadIndex =>
      if r_lead r =? None_id then mret None else forward_to_lead m;; mret None
  | MsgTimeoutNow => hup campaignTransfer;; mret None
  | MsgReadIndexResp =>
      match m_Entries m with
      | [e] => modify (λ r, r <| r_readStates ::= λ l, l ++ [MkReadState (m_Index m) (e_Data e)] |>);;
               mret None
      | _ => mret None
      end
  | _ => mret None
  end.

(** ** Candidate *)

(** The vote response of [stepCandidate]. *)
Definition candidate_vote (m : Message) : R unit :=
  '(_, _, res) ← poll (m_From m) (negb (m_Reject m));
  r ← get;
  match res with
  | VoteWon =>
      if decide (r_state r = StatePreCandidate) then campaign campaignElection
      else becomeLeader;; bcastAppend
  | VoteLost => becomeFollower (r_Term r) None_id
  | VotePending => mret tt
  end.

(** [stepCandidate]. *)
Definition stepCandidate (m : Message) : R (option error) :=
  r ← get;
  let myVoteRespType := if decide (r_state r = StatePreCandidate)
                        then MsgPreVoteResp else MsgVoteResp in
  match m_Type m with
  | MsgProp => mret (Some ErrProposalDropped)
  | MsgApp => becomeFollower (m_Term m) (m_From m);; handleAppendEntries m;; mret None
  | MsgHeartbeat => becomeFollower (m_Term m) (m_From m);; handleHeartbeat m;; mret None
  | MsgSnap => becomeFollower (m_Term m) (m_From m);; handleSnapshot m;; mret None
  | t => if decide (t = myVoteRespType) then candidate_vote m;; mret None else mret None
  end.

(** ** Step *)

(** The field [step], which every change of state sets along with it. *)
Definition step (m : Message) : R (option error) :=
  r ← get;
  match r_state r with
  | StateLeader => stepLeader m
  | StateCandidate | StatePreCandidate => stepCandidate m
  | StateFollower => stepFollower m
  end.

(** The handling of the message term in [Step]; the result tells whether the
    message is to be processed further. *)
Definition higher_term (m : Message) : R bool :=
  r ← get;
  let is_vote := bool_decide (m_Type m = MsgVote) || bool_decide (m_Type m = MsgPreVote) in
  let force := bool_decide (m_Context m = CampaignType_String campaignTransfer) in
  let inLease := r_checkQuorum r && negb (r_lead r =? None_id) &&
                 bool_decide (r_electionElapsed r < r_electionTimeout r)%Z in
  if is_vote && negb force && inLease then
    _ ← log_read lastTerm; mret false
  else
    (match m_Type m with
     | MsgPreVote => mret tt
     | MsgPreVoteResp => if m_Reject m then becomeFollower (m_Term m) None_id else mret tt
     | MsgApp | MsgHeartbeat | MsgSnap => becomeFollower (m_Term m) (m_From m)
     | _ => becomeFollower (m_Term m) None_id
     end);;
    mret true.
Definition lower_term (m : Message) : R unit :=
  r ← get;
  if (r_checkQuorum r || r_preVote r) &&
     (bool_decide (m_Type m = MsgHeartbeat) || bool_decide (m_Type m = MsgApp))
  then send (msg MsgAppResp (m_From m))
  else if decide (m_Type m = MsgPreVote) then
    _ ← log_read lastTerm;
    send ((msg MsgPreVoteResp (m_From m)) <| m_Term := r_Term r |> <| m_Reject := true |>)
  else mret tt.
Definition step_term (m : Message) : R bool :=
  r ← get;
  if m_Term m =? 0 then mret true
  else if r_Term r <? m_Term m then higher_term m
  else if m_Term m <? r_Term r then lower_term m;; mret false
  else mret true.

(** A vote or pre-vote request in [Step]. *)
Definition can_vote (r : raft S) (m : Message) : bool :=
  (r_Vote r =? m_From m)
  || ((r_Vote r =? None_id) && (r_lead r =? None_id))
  || (bool_decide (m_Type m = MsgPreVote) && (r_Term r <? m_Term m)).
Definition step_vote (m : Message) : R unit :=
  r ← get;
  upToDate ← (if can_vote r m then log_read (λ l, isUpToDate l (m_Index m) (m_LogTerm m))
              else mret false);
  _ ← log_read lastTerm;
  respType ← lift (λ _, voteRespMsgType (m_Type m));
  if upToDate : bool then
    send ((msg respType (m_From m)) <| m_Term := m_Term m |>);;
    when (bool_decide (m_Type m = MsgVote))
      (modify (λ r, r <| r_electionElapsed := 0%Z |> <| r_Vote := m_From m |>))
  else send ((msg respType (m_From m)) <| m_Term := r_Term r |> <| m_Reject := true |>).

(** [Step]. *)
Definition Step (m : Message) : R (option error) :=
  go ← step_term m;
  if negb go then mret None
  else match m_Type m with
  | MsgHup =>
      r ← get;
      hup (if r_preVote r then campaignPreElection else campaignElection);; mret None
  | MsgVote | MsgPreVote => step_vote m;; mret None
  | _ => step m
  end.

(** ** Ticks *)

Definition local_msg (t : MessageType) : R (option error) :=
  self ← gets r_id; Step ((msg t 0) <| m_From := self |>).

(** [tickElection]; the error is only logged. *)
Definition tickElection : R unit :=
  modify (λ r, r <| r_electionElapsed ::= λ e, i64 (e + 1) |>);;
  r ← get;
  if promotable r && pastElectionTimeout r then
    modify (λ r, r <| r_electionElapsed := 0%Z |>);;
    _ ← local_msg MsgHup; mret tt
  else mret tt.

(** The election-timeout part of [tickHeartbeat]. *)
Definition leader_timeout : R unit :=
  modify (λ r, r <| r_electionElapsed := 0%Z |>);;
  r ← get;
  when (r_checkQuorum r) (_ ← local_msg MsgCheckQuorum; mret tt);;
  r ← get;
  when (bool_decide (r_state r = StateLeader) && negb (r_leadTransferee r =? None_id))
    abortLeaderTransfer.

(** [tickHeartbeat]. *)
Definition tickHeartbeat : R unit :=
  modify (λ r, r <| r_heartbeatElapsed ::= λ e, i64 (e + 1) |>
                 <| r_electionElapsed ::= λ e, i64 (e + 1) |>);;
  r ← get;
  when (bool_decide (r_electionTimeout r ≤ r_electionElapsed r)%Z) leader_timeout;;
  r ← get;
  if negb (bool_decide (r_state r = StateLeader)) then mret tt
  else if bool_decide (r_heartbeatTimeout r ≤ r_heartbeatElapsed r)%Z then
    modify (λ r, r <| r_heartbeatElapsed := 0%Z |>);;
    _ ← local_msg MsgBeat; mret tt
  else mret tt.

(** The field [tick]. *)
Definition tick : R unit :=
  r ← get;
  if decide (r_state r = StateLeader) then tickHeartbeat else tickElection.

(** [newRaft]; a validation or storage error panics. *)
Definition newRaft (rand : nat → Z) (c : raft_Config S) : outcome (raft S) :=
  match validate c with
  | Err _ => Panic
  | Val c =>
      match c_Storage c with
      | None => Panic
      | Some st =>
          raftlog ← newLogWithSize st (c_MaxCommittedSizePerReady c);
          '(hs, cs) ← must (InitialState st);
          let r := MkRaft (c_ID c) 0 None_id [] raftlog (c_MaxSizePerMsg c)
            (c_MaxUncommittedEntriesSize c) (MakeProgressTracker (c_MaxInflightMsgs c))
            StateFollower false [] None_id 0 0 0 (newReadOnly (c_ReadOnlyOption c)) 0 0
            (c_CheckQuorum c) (c_PreVote c) (c_HeartbeatTick c) (c_ElectionTick c) 0
            (c_DisableProposalForwarding c) [] rand 0 in
          '(_, r) ← (
            restore_config cs;;
            when (negb (IsEmptyHardState hs)) (loadState hs);;
            when (0 <? c_Applied c)
              (log_step (λ l, l' ← appliedTo l (c_Applied c); Ok (tt, l')));;
            r ← get;
            becomeFollower (r_Term r) None_id;;
            _ ← log_read lastTerm;
            mret tt) r;
          Ok r
      end
  end.
End Raft.

(** ** A concrete node, for the witnesses *)

#[local] Existing Instance ex_pb.

(** Node 1 of three, with a snapshot at 3, entries 4 and 5, at term 2. *)
Definition ex_node_storage : MemoryStorage :=
  MkMemoryStorage (MkHardState 2 0 5) (MkSnapshot "" (MkConfState [1; 2; 3] [] [] [] false) 3 1)
    [dummy_entry 1 3; ex_entry 1 4; ex_entry 2 5].
Definition ex_config : raft_Config MemoryStorage :=
  MkRaftConfig 1 10 1 (Some ex_node_storage) 4 1024 0 0 4 false false ReadOnlySafe false.
Definition ex_raft0 : raft MemoryStorage :=
  MkRaft 1 0 0 [] (MkRaftLog NewMemoryStorage (MkUnstable None [] 1) 0 0 0) 0 0
    (MakeProgressTracker 4) StateFollower false [] 0 0 0 0 (newReadOnly ReadOnlySafe) 0 0
    false false 1 10 0 false [] (λ _, 7%Z) 0.
Definition ex_raft : raft MemoryStorage :=
  match newRaft (λ _, 7%Z) ex_config with Ok r => r | Panic => ex_raft0 end.

Lemma ex_raft_log :
  r_raftLog ex_raft = MkRaftLog ex_node_storage (MkUnstable None [] 6) 5 4 1024.
Proof. vm_compute. reflexivity. Qed.

Lemma ex_raft_valid : rl_valid (r_raftLog ex_raft).
Proof.
  assert (Hc : contiguous 3 [ex_entry 1 4; ex_entry 2 5]).
  { repeat (apply contiguous_cons; split; [reflexivity|]). apply contiguous_nil. }
  rewrite ex_raft_log. split; cbn [l_storage l_unstable l_committed l_applied].
  - split; [discriminate|]. split; [exact Hc|vm_compute; reflexivity..].
  - split; [vm_compute; reflexivity|apply contiguous_nil|vm_compute; reflexivity|discriminate].
  - intros _. vm_compute. split; [reflexivity|discriminate].
  - intros _ _. vm_compute. reflexivity.
  - split; [exact Hc|vm_compute; reflexivity..].
  - vm_compute. split; discriminate.
  - vm_compute. discriminate.
Qed.
