(* ===== verification/RawNode.v ===== *)
(** * RawNode and Ready
    (raft/protocol/rawnode.go, node.go, bootstrap.go, status.go)

    [RawNode] wraps the state machine for an application that polls [Ready] and
    answers with [Advance].  The goroutine that drives one behind channels
    (node.go) is in the file Node. *)

From S2P Require Import Prelude Pb Quorum Inflights Progress Tracker Confchange.
From S2P Require Import Util Storage Unstable RaftLog ReadOnly Raft.

(** [SoftState] and [SoftState.equal]. *)
Definition SoftState : Type := N * RaftState.
Definition SoftState_equal (a b : SoftState) : bool :=
  (a.1 =? b.1) && bool_decide (a.2 = b.2).

(** [Ready]. *)
Record Ready := MkReady {
  rd_SoftState : option SoftState;
  rd_HardState : HardState;
  rd_ReadStates : list ReadState;
  rd_Entries : list Entry;
  rd_Snapshot : Snapshot;
  rd_CommittedEntries : list Entry;
  rd_Messages : list Message;
  rd_MustSync : bool;
}.

(** [Ready.containsUpdates] and [Ready.appliedCursor]. *)
Definition containsUpdates (rd : Ready) : bool :=
  bool_decide (rd_SoftState rd ≠ None) || negb (IsEmptyHardState (rd_HardState rd))
  || negb (IsEmptySnap (rd_Snapshot rd)) || (0 <? length (rd_Entries rd))%nat
  || (0 <? length (rd_CommittedEntries rd))%nat || (0 <? length (rd_Messages rd))%nat
  || negb (length (rd_ReadStates rd) =? 0)%nat.
Definition appliedCursor (rd : Ready) : N :=
  match last (rd_CommittedEntries rd) with
  | Some e => e_Index e
  | None => if 0 <? s_Index (rd_Snapshot rd) then s_Index (rd_Snapshot rd) else 0
  end.

(** [MustSync]. *)
Definition MustSync (st prevst : HardState) (entsnum : nat) : bool :=
  negb (entsnum =? 0)%nat || negb (hs_Vote st =? hs_Vote prevst)
  || negb (hs_Term st =? hs_Term prevst).

(** [Peer]. *)
Record Peer := MkPeer { p_ID : N; p_Context : string }.

(** [RawNode]; the [*SoftState] pointer is never nil once created. *)
Record RawNode (S : Type) := MkRawNode {
  rn_raft : raft S;
  rn_prevSoftSt : SoftState;
  rn_prevHardSt : HardState;
}.
Arguments MkRawNode {S}.
Arguments rn_raft {S} _.
Arguments rn_prevSoftSt {S} _.
Arguments rn_prevHardSt {S} _.

Section RawNode_update.
Context {S : Type}.
Let rebuild (rn : RawNode S) : RawNode S :=
  MkRawNode (rn_raft rn) (rn_prevSoftSt rn) (rn_prevHardSt rn).
#[global] Instance upd_rn_raft : Update (@rn_raft S) := ltac:(update_of rebuild (@rn_raft S)).
#[global] Instance upd_rn_prevSoftSt : Update (@rn_prevSoftSt S) :=
  ltac:(update_of rebuild (@rn_prevSoftSt S)).
#[global] Instance upd_rn_prevHardSt : Update (@rn_prevHardSt S) :=
  ltac:(update_of rebuild (@rn_prevHardSt S)).
End RawNode_update.

(** [BasicStatus] and [Status]. *)
Record BasicStatus := MkBasicStatus {
  st_ID : N;
  st_HardState : HardState;
  st_SoftState : SoftState;
  st_Applied : N;
  st_LeadTransferee : N;
}.
Record Status := MkStatus {
  st_Basic : BasicStatus;
  st_Config : Config;
  st_Progress : gmap N Progress;
}.

(** [ProgressType], and what [WithProgress] shows of a progress. *)
Inductive ProgressType : Set := ProgressTypePeer | ProgressTypeLearner.
Record ProgressView := MkProgressView {
  pv_Match : N;
  pv_Next : N;
  pv_State : StateType;
  pv_PendingSnapshot : N;
  pv_RecentActive : bool;
  pv_ProbeSent : bool;
}.

Section RawNode.
Context `{RaftPB} {S : Type} `{Storage S}.
Notation RN := (M (RawNode S)).

(** Runs a method of the wrapped raft. *)
Definition on_raft {A} (m : M (raft S) A) : RN A := λ rn,
  match m (rn_raft rn) with
  | Ok (a, r) => Ok (a, rn <| rn_raft := r |>)
  | Panic => Panic
  end.

(** [newReady]. *)
Definition newReady (r : raft S) (prevSoftSt : SoftState) (prevHardSt : HardState) :
    outcome Ready :=
  committed ← nextEnts (r_raftLog r);
  let ents := unstableEntries (r_raftLog r) in
  Ok (MkReady
    (if SoftState_equal (softState r) prevSoftSt then None else Some (softState r))
    (if isHardStateEqual (hardState r) prevHardSt then emptyState else hardState r)
    (r_readStates r) ents
    (default Snapshot_zero (u_snapshot (l_unstable (r_raftLog r))))
    committed (r_msgs r)
    (MustSync (hardState r) prevHardSt (length ents))).

(** [NewRawNode]. *)
Definition NewRawNode (rand : nat → Z) (config : raft_Config S) : outcome (RawNode S) :=
  r ← newRaft rand config;
  Ok (MkRawNode r (softState r) (hardState r)).

(** [Tick], [TickQuiesced], [Campaign], [Propose]. *)
Definition Tick : RN unit := on_raft tick.
Definition TickQuiesced : RN unit :=
  on_raft (modify (λ r, r <| r_electionElapsed ::= λ e, i64 (e + 1) |>)).
Definition Campaign : RN (option error) := on_raft (Step (msg MsgHup 0)).
Definition Propose (data : string) : RN (option error) :=
  on_raft (self ← gets r_id;
    Step ((msg MsgProp 0) <| m_From := self |>
            <| m_Entries := [MkEntry 0 0 EntryNormal data] |>)).

(** [confChangeToMsg] and [ProposeConfChange]. *)
Definition confChangeToMsg (cc : ConfChangeI) : result Message :=
  match MarshalConfChange cc with
  | Err e => Err e
  | Val (typ, data) => Val ((msg MsgProp 0) <| m_Entries := [MkEntry 0 0 typ data] |>)
  end.
Definition ProposeConfChange (cc : ConfChangeI) : RN (option error) :=
  match confChangeToMsg cc with
  | Err e => mret (Some e)
  | Val m => on_raft (Step m)
  end.

(** [ApplyConfChange]. *)
Definition ApplyConfChange (cc : ConfChangeI) : RN ConfState := on_raft (applyConfChange (AsV2 cc)).

(** [RawNode.Step]. *)
Definition rn_Step (m : Message) : RN (option error) :=
  if IsLocalMsg (m_Type m) then mret (Some ErrStepLocalMsg)
  else
    r ← gets rn_raft;
    if bool_decide (t_Progress (r_prs r) !! m_From m ≠ None) || negb (IsResponseMsg (m_Type m))
    then on_raft (Step m) else mret (Some ErrStepPeerNotFound).

(** [readyWithoutAccept], [acceptReady] and [RawNode.Ready]. *)
Definition readyWithoutAccept : RN Ready :=
  lift (λ rn, newReady (rn_raft rn) (rn_prevSoftSt rn) (rn_prevHardSt rn)).
Definition acceptReady (rd : Ready) : RN unit :=
  modify (λ rn, match rd_SoftState rd with
                | Some s => rn <| rn_prevSoftSt := s |>
                | None => rn
                end);;
  on_raft (
    when (negb (length (rd_ReadStates rd) =? 0)%nat) (modify (λ r, r <| r_readStates := [] |>));;
    modify (λ r, r <| r_msgs := [] |>)).
Definition rn_Ready : RN Ready := rd ← readyWithoutAccept; acceptReady rd;; mret rd.

(** [HasReady]. *)
Definition HasReady (rn : RawNode S) : outcome bool :=
  let r := rn_raft rn in
  if negb (SoftState_equal (softState r) (rn_prevSoftSt rn)) then Ok true
  else if negb (IsEmptyHardState (hardState r)) &&
          negb (isHardStateEqual (hardState r) (rn_prevHardSt rn)) then Ok true
  else if hasPendingSnapshot (r_raftLog r) then Ok true
  else if (0 <? length (r_msgs r))%nat || (0 <? length (unstableEntries (r_raftLog r)))%nat
  then Ok true
  else
    b ← hasNextEnts (r_raftLog r);
    if b : bool then Ok true else Ok (negb (length (r_readStates r) =? 0)%nat).

(** The automatic transition out of a joint configuration in [advance]. *)
Definition auto_leave : M (raft S) unit :=
  ok ← appendEntry [MkEntry 0 0 EntryConfChangeV2 ""];
  if negb ok then panic
  else last ← log_read lastIndex; modify (λ r, r <| r_pendingConfIndex := last |>).

(** [raft.advance]. *)
Definition advance_applied (newApplied : N) : M (raft S) unit :=
  oldApplied ← gets (λ r, l_applied (r_raftLog r));
  log_step (λ l, l' ← appliedTo l newApplied; Ok (tt, l'));;
  r ← get;
  when (AutoLeave (t_Config (r_prs r)) && (oldApplied <=? r_pendingConfIndex r) &&
        (r_pendingConfIndex r <=? newApplied) && bool_decide (r_state r = StateLeader))
    auto_leave.
Definition advance (rd : Ready) : M (raft S) unit :=
  reduceUncommittedSize (rd_CommittedEntries rd);;
  when (0 <? appliedCursor rd) (advance_applied (appliedCursor rd));;
  (match last (rd_Entries rd) with
   | Some e => log_step (λ l, l' ← stableTo l (e_Index e) (e_Term e); Ok (tt, l'))
   | None => mret tt
   end);;
  when (negb (IsEmptySnap (rd_Snapshot rd)))
    (log_step (λ l, Ok (tt, stableSnapTo l (s_Index (rd_Snapshot rd))))).

(** [RawNode.Advance]. *)
Definition Advance (rd : Ready) : RN unit :=
  modify (λ rn, if IsEmptyHardState (rd_HardState rd) then rn
                else rn <| rn_prevHardSt := rd_HardState rd |>);;
  on_raft (advance rd).

(** [ReportUnreachable], [ReportSnapshot], [TransferLeader], [ReadIndex]. *)
Definition ReportUnreachable (id : N) : RN unit :=
  _ ← on_raft (Step ((msg MsgUnreachable 0) <| m_From := id |>)); mret tt.
Definition ReportSnapshot (id : N) (failure : bool) : RN unit :=
  _ ← on_raft (Step ((msg MsgSnapStatus 0) <| m_From := id |> <| m_Reject := failure |>)); mret tt.
Definition TransferLeader (transferee : N) : RN unit :=
  _ ← on_raft (Step ((msg MsgTransferLeader 0) <| m_From := transferee |>)); mret tt.
Definition ReadIndex (rctx : string) : RN unit :=
  _ ← on_raft (Step ((msg MsgReadIndex 0) <| m_Entries := [MkEntry 0 0 EntryNormal rctx] |>));
  mret tt.

(** [Bootstrap]: the entries it appends, and the method. *)
Fixpoint bootstrap_entries (i : nat) (peers : list Peer) : result (list Entry) :=
  match peers with
  | [] => Val []
  | p :: ps =>
      match V1_Marshal (MkCC ConfChangeAddNode (p_ID p) (p_Context p)) with
      | Err e => Err e
      | Val data =>
          match bootstrap_entries (Datatypes.S i) ps with
          | Err e => Err e
          | Val es => Val (MkEntry 1 (N.of_nat i + 1) EntryConfChange data :: es)
          end
      end
  end.
Definition bootstrap_raft (peers : list Peer) : M (raft S) (option error) :=
  becomeFollower 1 None_id;;
  match bootstrap_entries 0 peers with
  | Err e => mret (Some e)
  | Val ents =>
      _ ← log_step (λ l, log_append l ents);
      modify (λ r, r <| r_raftLog ::= λ l, l <| l_committed := lenN ents |> |>);;
      forM peers (λ p, _ ← applyConfChange (V1_AsV2 (MkCC ConfChangeAddNode (p_ID p) ""));
                       mret tt);;
      mret None
  end.
Definition Bootstrap (peers : list Peer) : RN (option error) :=
  if (length peers =? 0)%nat
  then mret (Some (ErrMsg "must provide at least one peer to Bootstrap"))
  else
    r ← gets rn_raft;
    li ← lift (λ _, LastIndex (l_storage (r_raftLog r)));
    match li with
    | Err e => mret (Some e)
    | Val lastIndex =>
        if negb (lastIndex =? 0) then mret (Some (ErrMsg "can't bootstrap a nonempty Storage"))
        else
          modify (λ rn, rn <| rn_prevHardSt := emptyState |>);;
          on_raft (bootstrap_raft peers)
    end.

(** [getBasicStatus], [getProgressCopy] and [getStatus]. *)
Definition getBasicStatus (r : raft S) : BasicStatus :=
  MkBasicStatus (r_id r) (hardState r) (softState r) (l_applied (r_raftLog r)) (r_leadTransferee r).
Definition getProgressCopy (r : raft S) : gmap N Progress :=
  (λ pr, pr <| pr_Inflights ::= Clone |>) <$> t_Progress (r_prs r).
Definition getStatus (r : raft S) : Status :=
  MkStatus (getBasicStatus r) (Config_Clone (t_Config (r_prs r)))
    (if decide (r_state r = StateLeader) then getProgressCopy r else ∅).

(** [RawNode.Status] and [RawNode.BasicStatus]. *)
Definition rn_Status : RN Status := gets (λ rn, getStatus (rn_raft rn)).
Definition rn_BasicStatus : RN BasicStatus := gets (λ rn, getBasicStatus (rn_raft rn)).

(** [WithProgress]: the calls of the visitor, in order.  The copy it is given
    has no [Inflights]. *)
Definition progress_view (pr : Progress) : ProgressView :=
  MkProgressView (pr_Match pr) (pr_Next pr) (pr_State pr) (pr_PendingSnapshot pr)
    (pr_RecentActive pr) (pr_ProbeSent pr).
Definition WithProgress : RN (list (N * ProgressType * ProgressView)) := gets (λ rn,
  let t := r_prs (rn_raft rn) in
  omap (λ id, pr ← t_Progress t !! id;
              Some (id, if pr_IsLearner pr then ProgressTypeLearner else ProgressTypePeer,
                    progress_view pr)) (Visit t)).
End RawNode.
