(* ===== verification/Node.v ===== *)
(** * The node goroutine (raft/protocol/node.go)

    [node.run] is a loop that owns a [RawNode] and serves one channel at a time.
    The record [node] holds the locals of [run] and what the channels hold; [arm]
    is the part of an iteration before the [select], [enabled] tells which of its
    cases can be taken, and [serve] is the body of a case.  [run_step] is one
    iteration, and [runs] the executions of the loop.  The methods of [node] that
    other goroutines call are in the second half, with the outcome of every
    [select] they block on as an argument. *)

From S2P Require Import Prelude Pb Quorum Inflights Progress Tracker Confchange.
From S2P Require Import Util Storage Unstable RaftLog ReadOnly Raft RawNode.

(** [Ready{}]. *)
Definition Ready_zero : Ready := MkReady None emptyState [] [] Snapshot_zero [] [] false.

(** [node] and the locals of [run].  [propc], [readyc] and [advancec] are nil or
    the channel of that name; [tickc] counts the ticks its buffer holds; [done]
    tells that the channel is closed. *)
Record node (S : Type) := MkNode {
  n_rn : RawNode S;
  n_propc : bool;
  n_readyc : bool;
  n_advancec : bool;
  n_rd : Ready;
  n_lead : N;
  n_tickc : nat;
  n_done : bool;
}.
Arguments MkNode {S}.
Arguments n_rn {S} _.
Arguments n_propc {S} _.
Arguments n_readyc {S} _.
Arguments n_advancec {S} _.
Arguments n_rd {S} _.
Arguments n_lead {S} _.
Arguments n_tickc {S} _.
Arguments n_done {S} _.

Section node_update.
Context {S : Type}.
Let rebuild (n : node S) : node S :=
  MkNode (n_rn n) (n_propc n) (n_readyc n) (n_advancec n) (n_rd n) (n_lead n) (n_tickc n)
    (n_done n).
#[global] Instance upd_n_rn : Update (@n_rn S) := ltac:(update_of rebuild (@n_rn S)).
#[global] Instance upd_n_propc : Update (@n_propc S) := ltac:(update_of rebuild (@n_propc S)).
#[global] Instance upd_n_readyc : Update (@n_readyc S) := ltac:(update_of rebuild (@n_readyc S)).
#[global] Instance upd_n_advancec : Update (@n_advancec S) :=
  ltac:(update_of rebuild (@n_advancec S)).
#[global] Instance upd_n_rd : Update (@n_rd S) := ltac:(update_of rebuild (@n_rd S)).
#[global] Instance upd_n_lead : Update (@n_lead S) := ltac:(update_of rebuild (@n_lead S)).
#[global] Instance upd_n_tickc : Update (@n_tickc S) := ltac:(update_of rebuild (@n_tickc S)).
#[global] Instance upd_n_done : Update (@n_done S) := ltac:(update_of rebuild (@n_done S)).
End node_update.

(** What a channel operation offers to the loop: one constructor per case of the
    [select] in [run], and what the loop answers. *)
Inductive request `{RaftPB} : Type :=
| OnProp (m : Message)
| OnRecv (m : Message)
| OnConf (cc : ConfChangeV2)
| OnTick
| OnReady
| OnAdvance
| OnStatus
| OnStop.
Inductive answer : Type :=
| AnsNone
| AnsErr (e : option error)
| AnsConfState (cs : ConfState)
| AnsReady (rd : Ready)
| AnsStatus (st : Status).

(** The capacity of [tickc]. *)
Definition tickc_cap : nat := 128.

Section Node.
Context `{RaftPB} {S : Type} `{Storage S}.
Notation NM := (M (node S)).

(** [newNode], and the locals of [run] before its loop. *)
Definition newNode (rn : RawNode S) : node S :=
  MkNode rn false false false Ready_zero None_id 0 false.

(** Runs a method of the [RawNode]. *)
Definition on_rn {A} (m : M (RawNode S) A) : NM A := λ n,
  match m (n_rn n) with
  | Ok (a, rn) => Ok (a, n <| n_rn := rn |>)
  | Panic => Panic
  end.

(** The first half of an iteration of [run]: the [Ready] that is offered ... *)
Definition arm_ready : NM unit :=
  n ← get;
  if n_advancec n then modify (λ n, n <| n_readyc := false |>)
  else
    has ← lift (λ n, HasReady (n_rn n));
    if has : bool then
      rd ← on_rn readyWithoutAccept;
      modify (λ n, n <| n_rd := rd |> <| n_readyc := true |>)
    else mret tt.
(** ... and the channel of proposals, which follows the known leader. *)
Definition arm_propc : NM unit :=
  modify (λ n,
    let r := rn_raft (n_rn n) in
    if negb (n_lead n =? r_lead r)
    then n <| n_propc := hasLeader r |> <| n_lead := r_lead r |> else n).
Definition arm : NM unit := arm_ready;; arm_propc.

(** The cases of the [select] that can be taken when another goroutine offers the
    operation; a nil channel blocks forever. *)
Definition enabled (n : node S) (q : request) : bool :=
  negb (n_done n) &&
  match q with
  | OnProp _ => n_propc n
  | OnTick => (0 <? n_tickc n)%nat
  | OnReady => n_readyc n
  | OnAdvance => n_advancec n
  | OnRecv _ | OnConf _ | OnStatus | OnStop => true
  end.

(** [case pm := <-propc], [case m := <-n.recvc]: responses from unknown nodes are
    ignored. *)
Definition prop (m : Message) : M (raft S) (option error) :=
  self ← gets r_id; Step (m <| m_From := self |>).
Definition recv (m : Message) : M (raft S) unit :=
  r ← get;
  if bool_decide (t_Progress (r_prs r) !! m_From m ≠ None) || negb (IsResponseMsg (m_Type m))
  then _ ← Step m; mret tt else mret tt.
Definition serve_prop (m : Message) : NM (option error) := on_rn (on_raft (prop m)).
Definition serve_recv (m : Message) : NM unit := on_rn (on_raft (recv m)).

(** [case cc := <-n.confc]: a node that removed itself from the configuration
    blocks the proposals. *)
Definition is_voter_in (cs : ConfState) (id : N) : bool :=
  bool_decide (id ∈ cs_Voters cs) || bool_decide (id ∈ cs_VotersOutgoing cs).
Definition serve_conf (cc : ConfChangeV2) : NM ConfState :=
  before ← gets (λ n, rn_raft (n_rn n));
  cs ← on_rn (on_raft (applyConfChange cc));
  after ← gets (λ n, rn_raft (n_rn n));
  let okBefore := bool_decide (t_Progress (r_prs before) !! r_id before ≠ None) in
  let okAfter := bool_decide (t_Progress (r_prs after) !! r_id before ≠ None) in
  when (okBefore && negb okAfter && negb (is_voter_in cs (r_id before)))
    (modify (λ n, n <| n_propc := false |>));;
  mret cs.

(** [case readyc <- rd], [case <-advancec]. *)
Definition serve_ready : NM Ready :=
  rd ← gets n_rd;
  on_rn (acceptReady rd);;
  modify (λ n, n <| n_advancec := true |>);;
  mret rd.
Definition serve_advance : NM unit :=
  rd ← gets n_rd;
  on_rn (Advance rd);;
  modify (λ n, n <| n_rd := Ready_zero |> <| n_advancec := false |>).

(** The [select] of [run]. *)
Definition serve (q : request) : NM answer :=
  match q with
  | OnProp m => e ← serve_prop m; mret (AnsErr e)
  | OnRecv m => serve_recv m;; mret AnsNone
  | OnConf cc => cs ← serve_conf cc; mret (AnsConfState cs)
  | OnTick => modify (λ n, n <| n_tickc ::= pred |>);; on_rn Tick;; mret AnsNone
  | OnReady => rd ← serve_ready; mret (AnsReady rd)
  | OnAdvance => serve_advance;; mret AnsNone
  | OnStatus => st ← gets (λ n, getStatus (rn_raft (n_rn n))); mret (AnsStatus st)
  | OnStop => modify (λ n, n <| n_done := true |>);; mret AnsNone
  end.

(** One iteration of the loop in which [q] is served. *)
Definition run_step (q : request) : NM (option answer) :=
  arm;;
  n ← get;
  if enabled n q then a ← serve q; mret (Some a) else mret None.

(** [node.Tick]: the tick is dropped when the buffer is full; when the node has
    been stopped the [select] may also take the case of [done]. *)
Definition node_Tick (prefer_done : bool) : NM unit :=
  modify (λ n,
    if n_done n && prefer_done then n
    else if (n_tickc n <? tickc_cap)%nat then n <| n_tickc ::= Datatypes.S |> else n).

(** The executions of the loop: the requests it served, each with its answer, in
    order, interleaved with the ticks other goroutines put into the buffer and with
    the writes of the application to the storage. *)
Definition write_storage (st : S) : M (RawNode S) unit :=
  modify (λ rn, rn <| rn_raft ::= λ r, r <| r_raftLog ::= λ l, l <| l_storage := st |> |> |>).
Inductive runs : node S → list (request * answer) → node S → Prop :=
| runs_nil n : runs n [] n
| runs_write n tr n1 st n2 :
    runs n tr n1 → on_rn (write_storage st) n1 = Ok (tt, n2) → runs n tr n2
| runs_serve n tr n1 q a n2 :
    runs n tr n1 → run_step q n1 = Ok (Some a, n2) → runs n (tr ++ [(q, a)]) n2
| runs_tick n tr n1 b n2 :
    runs n tr n1 → node_Tick b n1 = Ok (tt, n2) → runs n tr n2.

(** ** The methods other goroutines call *)

(** How a blocking [select] on a channel, the context and [done] ends. *)
Inductive select_case (A : Type) : Type :=
| Chosen (a : A)
| CtxDone (e : error)
| NodeDone.

(** [stepWithWaitOption]: the request it puts on a channel, and what it returns,
    given the end of its first and, for a proposal that waits, second [select]. *)
Definition step_request (m : Message) : request :=
  if decide (m_Type m ≠ MsgProp) then OnRecv m else OnProp m.
Definition stepWithWaitOption (m : Message) (wait : bool) (sent : select_case unit)
    (answered : select_case (option error)) : option error :=
  match sent with
  | CtxDone _ e => Some e
  | NodeDone _ => Some ErrStopped
  | Chosen _ _ =>
      if bool_decide (m_Type m ≠ MsgProp) || negb wait then None
      else match answered with
           | Chosen _ e => e
           | CtxDone _ e => Some e
           | NodeDone _ => Some ErrStopped
           end
  end.

(** [step] and [stepWait]. *)
Definition node_step (m : Message) (sent : select_case unit) : option error :=
  stepWithWaitOption m false sent (NodeDone _).
Definition stepWait (m : Message) (sent : select_case unit)
    (answered : select_case (option error)) : option error :=
  stepWithWaitOption m true sent answered.

(** The messages of [node.Campaign], [node.Propose], [node.ProposeConfChange],
    [node.ReportUnreachable], [node.ReportSnapshot], [node.TransferLeadership] and
    [node.ReadIndex], as the requests they make. *)
Definition node_Campaign : request := step_request (msg MsgHup 0).
Definition node_Propose (data : string) : request :=
  step_request ((msg MsgProp 0) <| m_Entries := [MkEntry 0 0 EntryNormal data] |>).
(** [node.Step]: a local message is silently ignored. *)
Definition node_Step (m : Message) : option request :=
  if IsLocalMsg (m_Type m) then None else Some (step_request m).
Definition node_ProposeConfChange (cc : ConfChangeI) : result (option request) :=
  match confChangeToMsg cc with
  | Err e => Err e
  | Val m => Val (node_Step m)
  end.
Definition node_ReportUnreachable (id : N) : request :=
  OnRecv ((msg MsgUnreachable 0) <| m_From := id |>).
Definition node_ReportSnapshot (id : N) (failure : bool) : request :=
  OnRecv ((msg MsgSnapStatus 0) <| m_From := id |> <| m_Reject := failure |>).
Definition node_TransferLeadership (lead transferee : N) : request :=
  OnRecv ((msg MsgTransferLeader lead) <| m_From := transferee |>).
Definition node_ReadIndex (rctx : string) : request :=
  step_request ((msg MsgReadIndex 0) <| m_Entries := [MkEntry 0 0 EntryNormal rctx] |>).

(** [node.Advance], [node.ApplyConfChange], [node.Status] and [node.Stop]: what
    they return when the loop answers, and when the node has been stopped. *)
Definition node_Advance : request := OnAdvance.
Definition node_ApplyConfChange (cc : ConfChangeI) : request := OnConf (AsV2 cc).
Definition ApplyConfChange_result (ans : select_case answer) : ConfState :=
  match ans with Chosen _ (AnsConfState cs) => cs | _ => ConfState_zero end.
Definition node_Status : request := OnStatus.
Definition node_Stop (n : node S) : option request := if n_done n then None else Some OnStop.

(** [StartNode] and [RestartNode]; the goroutine they start runs from here.  The
    error of [Bootstrap] is only logged. *)
Definition StartNode (rand : nat → Z) (c : raft_Config S) (peers : list Peer) :
    outcome (node S) :=
  if (length peers =? 0)%nat then Panic
  else
    rn ← NewRawNode rand c;
    '(_, rn) ← Bootstrap peers rn;
    Ok (newNode rn).
Definition RestartNode (rand : nat → Z) (c : raft_Config S) : outcome (node S) :=
  rn ← NewRawNode rand c; Ok (newNode rn).
End Node.

(** ** The contract of a RawNode, which the loop is to keep *)

(** A user of a [RawNode] with the [Ready] it was last offered and the one it has
    accepted but not yet acknowledged. *)
Record user (S : Type) := MkUser {
  us_rn : RawNode S;
  us_offered : option Ready;
  us_pending : option Ready;
}.
Arguments MkUser {S}.
Arguments us_rn {S} _.
Arguments us_offered {S} _.
Arguments us_pending {S} _.

Inductive use `{RaftPB} : Type :=
| UProp (m : Message)
| URecv (m : Message)
| UApply (cc : ConfChangeV2)
| UTick
| UOffer
| UAccept (rd : Ready)
| UAdvance
| UWrite.

Section Contract.
Context `{RaftPB} {S : Type} `{Storage S}.

(** One call: a [Ready] is offered and accepted only when none is outstanding, and
    the one that was accepted is the one that is acknowledged. *)
Inductive uses1 : user S → use → user S → Prop :=
| uses_prop rn o p m e rn' :
    on_raft (prop m) rn = Ok (e, rn') → uses1 (MkUser rn o p) (UProp m) (MkUser rn' o p)
| uses_recv rn o p m rn' :
    on_raft (recv m) rn = Ok (tt, rn') → uses1 (MkUser rn o p) (URecv m) (MkUser rn' o p)
| uses_apply rn o p cc cs rn' :
    on_raft (applyConfChange cc) rn = Ok (cs, rn') →
    uses1 (MkUser rn o p) (UApply cc) (MkUser rn' o p)
| uses_tick rn o p rn' :
    Tick rn = Ok (tt, rn') → uses1 (MkUser rn o p) UTick (MkUser rn' o p)
| uses_offer rn o rd :
    HasReady rn = Ok true → readyWithoutAccept rn = Ok (rd, rn) →
    uses1 (MkUser rn o None) UOffer (MkUser rn (Some rd) None)
| uses_accept rn rd rn' :
    acceptReady rd rn = Ok (tt, rn') →
    uses1 (MkUser rn (Some rd) None) (UAccept rd) (MkUser rn' None (Some rd))
| uses_advance rn rd rn' :
    Advance rd rn = Ok (tt, rn') →
    uses1 (MkUser rn None (Some rd)) UAdvance (MkUser rn' None None)
| uses_write rn o p st rn' :
    write_storage st rn = Ok (tt, rn') → uses1 (MkUser rn o p) UWrite (MkUser rn' o p).

Inductive uses : user S → list use → user S → Prop :=
| uses_nil u : uses u [] u
| uses_snoc u us u1 a u2 : uses u us u1 → uses1 u1 a u2 → uses u (us ++ [a]) u2.

(** The calls a request amounts to. *)
Definition uses_of (qa : request * answer) : list use :=
  match qa with
  | (OnProp m, _) => [UProp m]
  | (OnRecv m, _) => [URecv m]
  | (OnConf cc, _) => [UApply cc]
  | (OnTick, _) => [UTick]
  | (OnReady, AnsReady rd) => [UAccept rd]
  | (OnAdvance, _) => [UAdvance]
  | _ => []
  end.
Definition visible (a : use) : bool :=
  match a with UOffer | UWrite => false | _ => true end.
Definition user_of (n : node S) : user S :=
  MkUser (n_rn n)
    (if n_advancec n then None else if n_readyc n then Some (n_rd n) else None)
    (if n_advancec n then Some (n_rd n) else None).
End Contract.

Section Refinement.
Context `{RaftPB} {S : Type} `{Storage S}.
Implicit Types n : node S.

Lemma bind_Ok {St A B} (m : M St A) (f : A → M St B) s b s' :
  (m ≫= f) s = Ok (b, s') → ∃ a s1, m s = Ok (a, s1) ∧ f a s1 = Ok (b, s').
Proof. unfold mbind, M_bind. destruct (m s) as [[a s1]|]; [eauto|done]. Qed.

Lemma on_rn_Ok {A} (m : M (RawNode S) A) n a n' :
  on_rn m n = Ok (a, n') → ∃ rn, m (n_rn n) = Ok (a, rn) ∧ n' = n <| n_rn := rn |>.
Proof.
  unfold on_rn. destruct (m (n_rn n)) as [[x rn]|]; [|done]. intros [= <- <-]. eauto.
Qed.

Lemma readyWithoutAccept_Ok (rn : RawNode S) rd rn' :
  readyWithoutAccept rn = Ok (rd, rn') →
  rn' = rn ∧ newReady (rn_raft rn) (rn_prevSoftSt rn) (rn_prevHardSt rn) = Ok rd.
Proof. unfold readyWithoutAccept, lift. destruct (newReady _ _ _); [|done]. by intros [= <- <-]. Qed.

(** What the first half of an iteration does. *)
Record armed (n n1 : node S) : Prop := {
  ar_rn : n_rn n1 = n_rn n;
  ar_advancec : n_advancec n1 = n_advancec n;
  ar_tickc : n_tickc n1 = n_tickc n;
  ar_done : n_done n1 = n_done n;
  ar_lead : n_lead n1 = r_lead (rn_raft (n_rn n));
  ar_propc : n_propc n1 = if n_lead n =? r_lead (rn_raft (n_rn n)) then n_propc n
                          else hasLeader (rn_raft (n_rn n));
  ar_ready : if n_advancec n then n_readyc n1 = false ∧ n_rd n1 = n_rd n
             else (HasReady (n_rn n) = Ok false ∧ n_rd n1 = n_rd n ∧ n_readyc n1 = n_readyc n) ∨
                  (HasReady (n_rn n) = Ok true ∧ n_readyc n1 = true ∧
                   readyWithoutAccept (n_rn n) = Ok (n_rd n1, n_rn n));
}.

Lemma arm_armed n n1 : arm n = Ok (tt, n1) → armed n n1.
Proof.
  unfold arm. intros ([] & n2 & Hr & Hp)%bind_Ok.
  assert (Hp' : n1 = if n_lead n2 =? r_lead (rn_raft (n_rn n2)) then n2
    else n2 <| n_propc := hasLeader (rn_raft (n_rn n2)) |> <| n_lead := r_lead (rn_raft (n_rn n2)) |>).
  { unfold arm_propc, modify in Hp. injection Hp as <-. by destruct (_ =? _). }
  clear Hp. revert Hr. unfold arm_ready.
  intros (? & ? & [= <- <-] & Hr)%bind_Ok. destruct (n_advancec n) eqn:Ha.
  - injection Hr as <-. destruct (N.eqb_spec (n_lead n) (r_lead (rn_raft (n_rn n)))) as [He|He];
      cbn in Hp'; [rewrite He, N.eqb_refl in Hp'|rewrite (proj2 (N.eqb_neq _ _) He) in Hp'];
      subst n1; split; cbn; rewrite ?Ha, ?He, ?N.eqb_refl; try done.
    all: by rewrite (proj2 (N.eqb_neq _ _) He).
  - revert Hr. intros (has & ? & Hl & Hr)%bind_Ok. unfold lift in Hl.
    destruct (HasReady (n_rn n)) as [b|] eqn:Hb; [|done]. injection Hl as <- <-.
    assert (H2 : n_rn n2 = n_rn n ∧ n_lead n2 = n_lead n ∧ n_propc n2 = n_propc n ∧
      n_advancec n2 = false ∧ n_tickc n2 = n_tickc n ∧ n_done n2 = n_done n ∧
      (if b then n_readyc n2 = true ∧ readyWithoutAccept (n_rn n) = Ok (n_rd n2, n_rn n)
       else n_rd n2 = n_rd n ∧ n_readyc n2 = n_readyc n)).
    { destruct b.
      - revert Hr. intros (rd & n3 & (rn & Hrd & ->)%on_rn_Ok & [= <-])%bind_Ok.
        pose proof Hrd as [-> _]%readyWithoutAccept_Ok. by split_and!.
      - injection Hr as <-. by split_and!. }
    destruct H2 as (Hrn & Hle & Hpc & Had & Hti & Hdo & Hrd).
    rewrite Hrn, Hle in Hp'.
    destruct (N.eqb_spec (n_lead n) (r_lead (rn_raft (n_rn n)))) as [He|He]; subst n1;
      (split; cbn; rewrite ?Ha; try congruence;
       [try (by rewrite He, N.eqb_refl); by rewrite (proj2 (N.eqb_neq _ _) He)
       |destruct b; naive_solver]).
Qed.
End Refinement.

Section Runs.
Context `{RaftPB} {S : Type} `{Storage S}.
Implicit Types n : node S.

Lemma run_step_Ok q n a n2 :
  run_step q n = Ok (Some a, n2) →
  ∃ n1, armed n n1 ∧ enabled n1 q = true ∧ serve q n1 = Ok (a, n2).
Proof.
  unfold run_step. intros ([] & n1 & Ha & (? & ? & [= <- <-] & He)%bind_Ok)%bind_Ok.
  exists n1. split; [by apply arm_armed|]. destruct (enabled n1 q); [|done].
  split; [done|]. by apply bind_Ok in He as (a' & n3 & Hs & [= <- <-]).
Qed.

(** Arming offers the [Ready] at hand, or changes nothing the user sees. *)
Lemma armed_uses n n1 :
  armed n n1 → uses1 (user_of n) UOffer (user_of n1) ∨ user_of n1 = user_of n.
Proof.
  intros Ha. pose proof (ar_ready _ _ Ha) as Hr. unfold user_of.
  rewrite (ar_rn _ _ Ha), (ar_advancec _ _ Ha). destruct (n_advancec n).
  - right. by destruct Hr as [_ ->].
  - destruct Hr as [(_ & -> & ->)|(Hh & -> & Hrd)]; [by right|]. left. by apply uses_offer.
Qed.

Lemma uses_app (u u1 u2 : user S) us vs : uses u us u1 → uses u1 vs u2 → uses u (us ++ vs) u2.
Proof.
  intros Hu. induction 1 as [|u1 us2 u2 a u3 _ IH Hs]; [by rewrite app_nil_r|].
  rewrite app_assoc. eapply uses_snoc; [by apply IH|exact Hs].
Qed.
Lemma uses_one (u1 u2 : user S) a : uses1 u1 a u2 → uses u1 [a] u2.
Proof. intros Hs. apply (uses_snoc u1 [] u1); [constructor|done]. Qed.

(** Serving a request from an armed loop is the calls it amounts to. *)
Lemma serve_uses q n1 a n2 :
  (n_advancec n1 = true → n_readyc n1 = false) →
  enabled n1 q = true → serve q n1 = Ok (a, n2) →
  uses (user_of n1) (uses_of (q, a)) (user_of n2).
Proof.
  intros Hex [_ He]%andb_prop. destruct q; cbn [serve].
  - intros (e & n3 & (rn & Hp & ->)%on_rn_Ok & [= <- <-])%bind_Ok. by apply uses_one, (uses_prop _ _ _ _ e).
  - intros ([] & n3 & (rn & Hp & ->)%on_rn_Ok & [= <- <-])%bind_Ok. by apply uses_one, uses_recv.
  - intros (cs & n3 & Hc & [= <- <-])%bind_Ok. unfold serve_conf in Hc.
    apply bind_Ok in Hc as (? & ? & [= <- <-] & (cs' & n4 & (rn & Hp & ->)%on_rn_Ok & Hc)%bind_Ok).
    apply bind_Ok in Hc as (? & ? & [= <- <-] & ([] & n5 & Hw & [= <- <-])%bind_Ok).
    assert (Hu : user_of n5 = user_of (n1 <| n_rn := rn |>)) by
      (revert Hw; destruct (_ && _); cbn [when]; by intros [= <-]).
    rewrite Hu. by apply uses_one, (uses_apply _ _ _ _ cs').
  - intros ([] & n3 & [= <-] & ([] & n4 & (rn & Hp & ->)%on_rn_Ok & [= <- <-])%bind_Ok)%bind_Ok.
    by apply uses_one, uses_tick.
  - intros (rd & n3 & Hr & [= <- <-])%bind_Ok. unfold serve_ready in Hr.
    apply bind_Ok in Hr as (? & ? & [= <- <-] & ([] & n4 & (rn & Hp & ->)%on_rn_Ok & Hr)%bind_Ok).
    apply bind_Ok in Hr as ([] & n5 & [= <-] & [= <- <-]).
    assert (Had : n_advancec n1 = false).
    { destruct (n_advancec n1); [|done]. by rewrite (Hex eq_refl) in He. }
    apply uses_one. unfold user_of. rewrite Had, He. cbn. by apply uses_accept.
  - intros ([] & n3 & Hr & [= <- <-])%bind_Ok. unfold serve_advance in Hr.
    apply bind_Ok in Hr as (? & ? & [= <- <-] & ([] & n4 & (rn & Hp & ->)%on_rn_Ok & [= <-])%bind_Ok).
    apply uses_one. unfold user_of. rewrite He. cbn. rewrite (Hex He). by apply uses_advance.
  - intros (st & n3 & [= <- <-] & [= <- <-])%bind_Ok. constructor.
  - intros ([] & n3 & [= <-] & [= <- <-])%bind_Ok. constructor.
Qed.

Lemma uses_of_visible qa : List.filter visible (uses_of qa) = uses_of qa.
Proof. by destruct qa as [[] []]. Qed.

Lemma runs_uses n tr n2 :
  runs n tr n2 → ∃ us, uses (user_of n) us (user_of n2) ∧
    List.filter visible us = flat_map uses_of tr.
Proof.
  induction 1 as [n|n tr n1 st n2 _ (us & Hu & Hv) Hw|n tr n1 q a n2 _ (us & Hu & Hv) Hs
    |n tr n1 b n2 _ (us & Hu & Hv) Ht].
  - exists []. split; [constructor|done].
  - exists (us ++ [UWrite]). rewrite List.filter_app, Hv, app_nil_r. split; [|done].
    apply on_rn_Ok in Hw as (rn & Hw & ->). eapply uses_snoc; [exact Hu|]. by apply (uses_write _ _ _ st).
  - apply run_step_Ok in Hs as (n3 & Ha & He & Hs).
    assert (Hv3 : uses (user_of n3) (uses_of (q, a)) (user_of n2)).
    { apply serve_uses; [|done|done]. intros Had. pose proof (ar_ready _ _ Ha) as Hr.
      rewrite (ar_advancec _ _ Ha) in Had. rewrite Had in Hr. apply Hr. }
    destruct (armed_uses _ _ Ha) as [Ho|Ho].
    + exists ((us ++ [UOffer]) ++ uses_of (q, a)). split.
      * eapply uses_app; [|exact Hv3]. by eapply uses_snoc.
      * rewrite !List.filter_app, flat_map_app, Hv, uses_of_visible. cbn. by rewrite !app_nil_r.
    + exists (us ++ uses_of (q, a)). split.
      * eapply uses_app; [exact Hu|]. by rewrite <- Ho.
      * rewrite !List.filter_app, flat_map_app, Hv, uses_of_visible. cbn. by rewrite !app_nil_r.
  - exists us. split; [|done]. injection Ht as <-.
    match goal with |- uses _ _ (user_of ?x) => assert (Hn : user_of x = user_of n1) end.
    { destruct (_ && _); [done|]. by destruct (_ <? _)%nat. }
    by rewrite Hn.
Qed.
End Runs.

(** ** Invariants of the loop *)

Section LoopInvariant.
Context `{RaftPB} {S : Type} `{Storage S}.
Implicit Types n : node S.

(** Proposals are accepted only while a leader is known, the tick buffer stays
    within its capacity, and a [Ready] is offered only when none is outstanding. *)
Record loop_inv n : Prop := {
  li_propc : n_propc n = true → n_lead n ≠ None_id;
  li_tickc : (n_tickc n ≤ tickc_cap)%nat;
}.

Lemma armed_loop_inv n n1 : armed n n1 → loop_inv n → loop_inv n1.
Proof.
  intros Ha [Hp Ht]. split; [|by rewrite (ar_tickc _ _ Ha)].
  rewrite (ar_propc _ _ Ha), (ar_lead _ _ Ha).
  destruct (N.eqb_spec (n_lead n) (r_lead (rn_raft (n_rn n)))) as [<-|_]; [done|].
  unfold hasLeader. by intros ?%negb_true_iff%N.eqb_neq.
Qed.

(** No case of the [select] touches what the invariant depends on, but for
    closing the channel of proposals and taking a tick. *)
Lemma serve_locals q n1 a n2 :
  serve q n1 = Ok (a, n2) →
  n_lead n2 = n_lead n1 ∧ (n_propc n2 = true → n_propc n1 = true) ∧
  (n_tickc n2 ≤ n_tickc n1)%nat.
Proof.
  destruct q; cbn [serve].
  - intros (e & n3 & (rn & _ & ->)%on_rn_Ok & [= <- <-])%bind_Ok. cbn. by split_and!.
  - intros ([] & n3 & (rn & _ & ->)%on_rn_Ok & [= <- <-])%bind_Ok. cbn. by split_and!.
  - intros (cs & n3 & Hc & [= <- <-])%bind_Ok. unfold serve_conf in Hc.
    apply bind_Ok in Hc as (? & ? & [= <- <-] & (cs' & n4 & (rn & _ & ->)%on_rn_Ok & Hc)%bind_Ok).
    apply bind_Ok in Hc as (? & ? & [= <- <-] & ([] & n5 & Hw & [= <- <-])%bind_Ok).
    revert Hw. destruct (_ && _); cbn [when]; intros [= <-]; cbn; by split_and!.
  - intros ([] & n3 & [= <-] & ([] & n4 & (rn & _ & ->)%on_rn_Ok & [= <- <-])%bind_Ok)%bind_Ok.
    cbn. split_and!; [done|done|lia].
  - intros (rd & n3 & Hr & [= <- <-])%bind_Ok. unfold serve_ready in Hr.
    apply bind_Ok in Hr as (? & ? & [= <- <-] & ([] & n4 & (rn & _ & ->)%on_rn_Ok & Hr)%bind_Ok).
    apply bind_Ok in Hr as ([] & n5 & [= <-] & [= <- <-]). cbn. by split_and!.
  - intros ([] & n3 & Hr & [= <- <-])%bind_Ok. unfold serve_advance in Hr.
    apply bind_Ok in Hr as (? & ? & [= <- <-] & ([] & n4 & (rn & _ & ->)%on_rn_Ok & [= <-])%bind_Ok).
    cbn. by split_and!.
  - intros (st & n3 & [= <- <-] & [= <- <-])%bind_Ok. by split_and!.
  - intros ([] & n3 & [= <-] & [= <- <-])%bind_Ok. cbn. by split_and!.
Qed.

Lemma runs_loop_inv n tr n2 : runs n tr n2 → loop_inv n → loop_inv n2.
Proof.
  induction 1 as [n|n tr n1 st n2 _ IH Hw|n tr n1 q a n2 _ IH Hs|n tr n1 b n2 _ IH Ht]; [done|..];
    intros Hi; specialize (IH Hi).
  - apply on_rn_Ok in Hw as (rn & _ & ->). by destruct IH.
  - apply run_step_Ok in Hs as (n3 & Ha & _ & Hs). apply (armed_loop_inv _ _ Ha) in IH as [Hp Ht].
    apply serve_locals in Hs as (Hl & Hpc & Hti). split; [rewrite Hl; auto|lia].
  - injection Ht as <-. destruct (_ && _); [done|]. destruct (Nat.ltb_spec (n_tickc n1) tickc_cap); [|done].
    destruct IH. split; cbn; [done|lia].
Qed.

Lemma newNode_loop_inv (rn : RawNode S) : loop_inv (newNode rn).
Proof. split; [done|]. cbn. unfold tickc_cap. lia. Qed.

(** The [Ready]s accepted and acknowledged in a list of calls, in turn. *)
Fixpoint in_turn (pending : option Ready) (us : list use) : Prop :=
  match us with
  | [] => True
  | UAccept rd :: us => pending = None ∧ in_turn (Some rd) us
  | UAdvance :: us => pending ≠ None ∧ in_turn None us
  | _ :: us => in_turn pending us
  end.
Definition pending_after (pending : option Ready) (us : list use) : option Ready :=
  foldl (λ p a, match a with UAccept rd => Some rd | UAdvance => None | _ => p end) pending us.

Lemma in_turn_snoc p us a :
  in_turn p (us ++ [a]) ↔ in_turn p us ∧ in_turn (pending_after p us) [a].
Proof.
  revert p. induction us as [|b us IH]; intros p; cbn -[in_turn]; [cbn; naive_solver|].
  destruct b; cbn; rewrite IH; naive_solver.
Qed.

Lemma uses_in_turn (u : user S) us u2 :
  uses u us u2 → in_turn (us_pending u) us ∧ us_pending u2 = pending_after (us_pending u) us.
Proof.
  induction 1 as [|u us u1 a u2 _ [Ht Hp] Hs]; [done|].
  rewrite in_turn_snoc. unfold pending_after in *. rewrite foldl_app. rewrite <- Hp.
  destruct Hs; cbn in *; naive_solver.
Qed.

Lemma in_turn_visible p us : in_turn p us → in_turn p (List.filter visible us).
Proof.
  revert p. induction us as [|a us IH]; intros p; [done|].
  destruct a; cbn; naive_solver.
Qed.
End LoopInvariant.

(** ** What the loop offers and accepts *)

Section Serving.
Context `{RaftPB} {S : Type} `{!Storage S} `{!StorageLaws S}.
Implicit Types (n : node S) (rn : RawNode S).

(** [HasReady] tells exactly whether the [Ready] at hand has something in it. *)
Lemma HasReady_valid rn :
  rl_valid (r_raftLog (rn_raft rn)) →
  ∃ rd, newReady (rn_raft rn) (rn_prevSoftSt rn) (rn_prevHardSt rn) = Ok rd ∧
        HasReady rn = Ok (containsUpdates rd).
Proof.
  intros Hv. destruct (nextEnts_handed _ Hv) as (ents & Hn & _ & Hh & _).
  unfold newReady, HasReady. rewrite Hn, Hh. cbn [mbind outcome_bind].
  eexists. split; [reflexivity|]. unfold containsUpdates.
  cbn [rd_SoftState rd_HardState rd_Snapshot rd_Entries rd_CommittedEntries rd_Messages rd_ReadStates].
  replace (0 <? length ents)%nat with (negb (bool_decide (ents = []))) by (by destruct ents).
  replace (negb (IsEmptySnap (default Snapshot_zero (u_snapshot (l_unstable (r_raftLog (rn_raft rn))))))) with (hasPendingSnapshot (r_raftLog (rn_raft rn)))
    by (unfold hasPendingSnapshot; by destruct (u_snapshot _)).
  replace (negb (IsEmptyHardState (if isHardStateEqual (hardState (rn_raft rn)) (rn_prevHardSt rn)
      then emptyState else hardState (rn_raft rn)))) with
    (negb (IsEmptyHardState (hardState (rn_raft rn))) &&
     negb (isHardStateEqual (hardState (rn_raft rn)) (rn_prevHardSt rn)))
    by (destruct (isHardStateEqual _ _); by rewrite ?andb_true_r, ?andb_false_r).
  destruct (SoftState_equal _ _); [|done]. cbn [negb bool_decide].
  rewrite (bool_decide_eq_false_2 (None ≠ None)) by (intros Hx; by apply Hx).
  destruct (_ && _); [done|]. destruct (hasPendingSnapshot _); [done|].
  destruct (0 <? length (r_msgs _))%nat, (0 <? length (unstableEntries _))%nat,
    (negb (bool_decide (ents = []))); done.
Qed.

Lemma offered_Ready n :
  n_done n = false → n_advancec n = false → rl_valid (r_raftLog (rn_raft (n_rn n))) →
  HasReady (n_rn n) = Ok true →
  ∃ rd n', newReady (rn_raft (n_rn n)) (rn_prevSoftSt (n_rn n)) (rn_prevHardSt (n_rn n)) = Ok rd ∧
    run_step OnReady n = Ok (Some (AnsReady rd), n') ∧ n_advancec n' = true ∧
    n_rd n' = rd ∧ r_msgs (rn_raft (n_rn n')) = [].
Proof.
  intros Hd Ha Hv Hh. destruct (HasReady_valid _ Hv) as (rd & Hrd & _). exists rd.
  assert (Hw : readyWithoutAccept (n_rn n) = Ok (rd, n_rn n)).
  { unfold readyWithoutAccept, lift. by rewrite Hrd. }
  assert (Har : ∃ n1, arm n = Ok (tt, n1) ∧ n_readyc n1 = true ∧ n_rd n1 = rd ∧
    n_rn n1 = n_rn n ∧ n_done n1 = false ∧ n_advancec n1 = false).
  { unfold arm, arm_ready, mbind, M_bind, get. rewrite Ha. unfold lift, on_rn. rewrite Hh, Hw.
    unfold arm_propc, modify. cbn.
    destruct (negb _); eexists; (split; [reflexivity|]); by split_and!. }
  destruct Har as (n1 & Harm & Hr1 & Hrd1 & Hrn1 & Hd1 & Ha1).
  unfold run_step, mbind, M_bind. rewrite Harm.
  unfold get, enabled. rewrite Hd1, Hr1. cbn [negb andb serve].
  unfold serve_ready, gets, on_rn, acceptReady, on_raft, mbind, M_bind. rewrite Hrd1. cbn.
  destruct (rd_SoftState rd), (negb _); eexists; (split; [done|]);
    cbn; (split; [reflexivity|]); by split_and!.
Qed.

(** A proposal that a follower takes is forwarded to the leader it knows. *)
Lemma follower_prop m rn e rn' :
  on_raft (prop m) rn = Ok (e, rn') → m_Type m = MsgProp → m_Term m = 0 →
  r_state (rn_raft rn) = StateFollower → r_lead (rn_raft rn) ≠ None_id →
  if r_disableProposalForwarding (rn_raft rn)
  then e = Some ErrProposalDropped ∧ rn_raft rn' = rn_raft rn
  else e = None ∧ rn_raft rn' = (rn_raft rn) <| r_msgs ::= λ ms, ms ++
    [m <| m_From := r_id (rn_raft rn) |> <| m_To := r_lead (rn_raft rn) |>] |>.
Proof.
  set (r := rn_raft rn). intros Hp Ht Htm Hst Hl. unfold on_raft in Hp. fold r in Hp.
  destruct (prop m r) as [[e1 r1]|] eqn:E; [|done]. injection Hp as <- <-. cbn.
  revert E. unfold prop, gets. unfold mbind, M_bind.
  set (m1 := m <| m_From := r_id r |>).
  assert (H1 : m_Type m1 = MsgProp ∧ m_Term m1 = 0 ∧ m_From m1 = r_id r) by done.
  destruct H1 as (Ht1 & Htm1 & Hf1).
  unfold Step, step_term, step, stepFollower, mbind, M_bind, get. rewrite Htm1, N.eqb_refl.
  unfold mret, M_ret. cbn [negb]. rewrite Ht1, Hst. rewrite (proj2 (N.eqb_neq _ _) Hl).
  destruct (r_disableProposalForwarding r) eqn:Hdis.
  - by intros [= <- <-].
  - unfold forward_to_lead, gets, send, mbind, M_bind, get.
    set (m2 := m1 <| m_To := r_lead r |>).
    assert (Hm2 : (if m_From m2 =? None_id then m2 <| m_From := r_id r |> else m2) = m2).
    { destruct (N.eqb_spec (m_From m2) None_id); done. }
    rewrite Hm2. change (m_Type m2) with (m_Type m). change (m_Term m2) with (m_Term m).
    rewrite Ht, Htm. cbn. by intros [= <- <-].
Qed.
End Serving.

(** ** Properties *)

(** Serves a list of requests one after the other: an executable way to [runs]. *)
Fixpoint serve_all `{RaftPB} {S} `{Storage S} (qs : list request) (n : node S) :
    option (list (request * answer) * node S) :=
  match qs with
  | [] => Some ([], n)
  | q :: qs =>
      match run_step q n with
      | Ok (Some a, n1) =>
          match serve_all qs n1 with Some (tr, n2) => Some ((q, a) :: tr, n2) | None => None end
      | _ => None
      end
  end.

Lemma runs_cons `{RaftPB} {S} `{Storage S} q a (n n1 n2 : node S) tr :
  run_step q n = Ok (Some a, n1) → runs n1 tr n2 → runs n ((q, a) :: tr) n2.
Proof.
  intros Hs. induction 1 as [|n1 tr n3 st n2 _ IH Hw|n1 tr n3 q' a' n2 _ IH Hs'|n1 tr n3 b n2 _ IH Ht].
  - apply (runs_serve n [] n); [constructor|done].
  - eapply runs_write; [by apply IH|done].
  - rewrite app_comm_cons. eapply runs_serve; [by apply IH|done].
  - eapply runs_tick; [by apply IH|done].
Qed.

Lemma serve_all_runs `{RaftPB} {S} `{Storage S} qs (n n2 : node S) tr :
  serve_all qs n = Some (tr, n2) → runs n tr n2.
Proof.
  revert n tr. induction qs as [|q qs IH]; intros n tr; cbn [serve_all].
  - intros [= <- <-]. constructor.
  - destruct (run_step q n) as [[[a|] n1]|] eqn:Hs; [|done..].
    destruct (serve_all qs n1) as [[tr1 n3]|] eqn:Hr; [|done]. intros [= <- <-].
    eapply runs_cons; [exact Hs|]. by apply IH.
Qed.

#[local] Existing Instance ex_pb.

Definition ex_rn : RawNode MemoryStorage :=
  match NewRawNode (λ _, 7%Z) ex_config with
  | Ok rn => rn
  | Panic => MkRawNode ex_raft (0, StateFollower) emptyState
  end.
Definition ex_heartbeat : Message :=
  (msg MsgHeartbeat 1) <| m_From := 2 |> <| m_Term := 2 |> <| m_Commit := 5 |>.
Definition ex_proposal : Message :=
  (msg MsgProp 0) <| m_Entries := [MkEntry 0 0 EntryNormal "x"] |>.
(** Applies the committed entry, then hears from the leader. *)
Definition ex_requests : list request := [OnReady; OnAdvance; OnRecv ex_heartbeat; OnStatus].
Definition ex_served : list (request * answer) * node MemoryStorage :=
  default ([], newNode ex_rn) (serve_all ex_requests (newNode ex_rn)).
Lemma ex_served_runs : runs (newNode ex_rn) ex_served.1 ex_served.2.
Proof. apply (serve_all_runs ex_requests). vm_compute. reflexivity. Qed.

(** C13: The loop of [run] keeps the contract of the [RawNode] it owns.  Every
    execution of the goroutine, whatever the order in which the channels are
    served, is a sequence of calls of the [RawNode] in the order of the requests:
    the calls it makes are those of the requests served, a [Ready] is accepted
    only when it was offered and none is outstanding, the one acknowledged is the
    one accepted, and the two alternate. *)
Theorem run_refines_RawNode `{RaftPB} {S} `{Storage S} (rn : RawNode S) tr n :
  runs (newNode rn) tr n →
  ∃ us, uses (MkUser rn None None) us (user_of n) ∧
    List.filter visible us = flat_map uses_of tr ∧ in_turn None (flat_map uses_of tr).
Proof.
  intros (us & Hu & Hv)%runs_uses. exists us. split; [done|]. split; [done|].
  rewrite <- Hv. apply in_turn_visible. by apply uses_in_turn in Hu as [? _].
Qed.

Lemma run_refines_RawNode_witness :
  length ex_served.1 = 4%nat ∧ in_turn None (flat_map uses_of ex_served.1).
Proof.
  split; [vm_compute; reflexivity|].
  destruct (run_refines_RawNode ex_rn _ _ ex_served_runs) as (us & _ & _ & Ht). exact Ht.
Defined.

(** C24: The goroutine takes a proposal only while its node knows a leader, so a
    proposal blocks its caller rather than being dropped for want of one.  A
    follower that takes one forwards it: exactly one message, the proposal with
    the node as its sender and the leader as its destination, is queued, and the
    caller is answered nil, unless forwarding is disabled, in which case the state
    machine does not move and the caller gets ErrProposalDropped. *)
Theorem proposal_taken_spec `{RaftPB} {S} `{!Storage S} (rn : RawNode S) tr n m a n' :
  runs (newNode rn) tr n → run_step (OnProp m) n = Ok (Some a, n') →
  m_Type m = MsgProp → m_Term m = 0 →
  let r := rn_raft (n_rn n) in let r' := rn_raft (n_rn n') in
  r_lead r ≠ None_id ∧
  (r_state r = StateFollower →
   if r_disableProposalForwarding r then a = AnsErr (Some ErrProposalDropped) ∧ r' = r
   else a = AnsErr None ∧
     r' = r <| r_msgs ::= λ ms, ms ++ [m <| m_From := r_id r |> <| m_To := r_lead r |>] |>).
Proof.
  intros Hr (n1 & Ha & [_ He]%andb_prop & Hs)%run_step_Ok Ht Htm r r'.
  pose proof (runs_loop_inv _ _ _ Hr (newNode_loop_inv rn)) as Hi.
  apply (armed_loop_inv _ _ Ha) in Hi. pose proof (li_propc _ Hi He) as Hl.
  rewrite (ar_lead _ _ Ha) in Hl. split; [exact Hl|]. intros Hst. cbn [serve] in Hs.
  apply bind_Ok in Hs as (e & n2 & (rn2 & Hp & ->)%on_rn_Ok & [= <- <-]).
  rewrite (ar_rn _ _ Ha) in Hp.
  pose proof (follower_prop m (n_rn n) e rn2 Hp Ht Htm Hst Hl) as Hf. fold r in Hf.
  unfold r'. cbn. destruct (r_disableProposalForwarding r); by destruct Hf as [-> ->].
Qed.

Lemma proposal_taken_spec_witness :
  ∃ n', run_step (OnProp ex_proposal) ex_served.2 = Ok (Some (AnsErr None), n') ∧
    r_lead (rn_raft (n_rn ex_served.2)) ≠ None_id.
Proof.
  destruct (run_step (OnProp ex_proposal) ex_served.2) as [[[a|] n']|] eqn:Hp.
  - destruct (proposal_taken_spec ex_rn _ _ ex_proposal a n' ex_served_runs Hp eq_refl eq_refl)
      as [Hl _].
    assert (Ha : a = AnsErr None) by (vm_compute in Hp; injection Hp as <- _; reflexivity).
    exists n'. rewrite Ha. split; [reflexivity|exact Hl].
  - vm_compute in Hp. discriminate Hp.
  - vm_compute in Hp. discriminate Hp.
Defined.

(** C25: Pending work is always offered.  Whatever state the goroutine is in, as long
    as it is not stopped, the log is well formed and no [Ready] is outstanding,
    [HasReady] tells exactly whether the [Ready] at hand holds anything, and when
    it does, the application that receives from the channel gets that [Ready]; its
    messages are then handed over and the acknowledgement is awaited. *)
Theorem pending_work_is_offered `{RaftPB} {S} `{!Storage S} `{!StorageLaws S} (n : node S) :
  rl_valid (r_raftLog (rn_raft (n_rn n))) → n_done n = false → n_advancec n = false →
  ∃ rd, newReady (rn_raft (n_rn n)) (rn_prevSoftSt (n_rn n)) (rn_prevHardSt (n_rn n)) = Ok rd ∧
    HasReady (n_rn n) = Ok (containsUpdates rd) ∧
    (containsUpdates rd = true →
     ∃ n', run_step OnReady n = Ok (Some (AnsReady rd), n') ∧ n_advancec n' = true ∧
       n_rd n' = rd ∧ r_msgs (rn_raft (n_rn n')) = []).
Proof.
  intros Hv Hd Ha. destruct (HasReady_valid _ Hv) as (rd & Hrd & Hh). exists rd.
  split; [done|]. split; [done|]. intros Hu. rewrite Hu in Hh.
  destruct (offered_Ready n Hd Ha Hv Hh) as (rd' & n' & Hrd' & Hs). exists n'.
  rewrite Hrd in Hrd'. by injection Hrd' as <-.
Qed.

Lemma pending_work_is_offered_witness :
  ∃ rd, HasReady ex_rn = Ok (containsUpdates rd) ∧ length (rd_CommittedEntries rd) = 1%nat.
Proof.
  assert (Hv : rl_valid (r_raftLog (rn_raft ex_rn))).
  { assert (He : rn_raft ex_rn = ex_raft) by (vm_compute; reflexivity).
    rewrite He. exact ex_raft_valid. }
  destruct (pending_work_is_offered (newNode ex_rn) Hv eq_refl eq_refl) as (rd & Hrd & Hh & _).
  exists rd. split; [exact Hh|]. vm_compute in Hrd. injection Hrd as <-. reflexivity.
Defined.
