(* ===== verification/App.v ===== *)
(** * The state and the key-value store of the application (raft/state.go, raft/kv.go)

    Both are records of plain fields behind a mutex that every method holds for
    its whole body, so a method is a function of the record.  The encodings of the
    standard library ([encoding/gob], [encoding/json]) are the operations of the
    class [Codec]. *)

From S2P Require Import Prelude Pb Raft.
From Stdlib Require Import Ascii.

(** ** nodeState *)

Record nodeState := MkNodeState {
  ns_snapshotIndex : N;
  ns_commitIndex : N;
  ns_confState : ConfState;
  ns_term : N;
  ns_raftState : RaftState;
  ns_running : bool;
}.

Section nodeState_update.
Let rebuild (s : nodeState) : nodeState :=
  MkNodeState (ns_snapshotIndex s) (ns_commitIndex s) (ns_confState s) (ns_term s)
    (ns_raftState s) (ns_running s).
#[global] Instance upd_ns_snapshotIndex : Update ns_snapshotIndex :=
  ltac:(update_of rebuild ns_snapshotIndex).
#[global] Instance upd_ns_commitIndex : Update ns_commitIndex :=
  ltac:(update_of rebuild ns_commitIndex).
#[global] Instance upd_ns_confState : Update ns_confState := ltac:(update_of rebuild ns_confState).
#[global] Instance upd_ns_term : Update ns_term := ltac:(update_of rebuild ns_term).
#[global] Instance upd_ns_raftState : Update ns_raftState := ltac:(update_of rebuild ns_raftState).
#[global] Instance upd_ns_running : Update ns_running := ltac:(update_of rebuild ns_running).
End nodeState_update.

(** [newNodeState]. *)
Definition newNodeState : nodeState := MkNodeState 0 0 ConfState_zero 0 StateFollower false.

(** The updates that tell whether the field changed. *)
Definition UpdateSnapshotIndex (index : N) (s : nodeState) : bool * nodeState :=
  (negb (ns_snapshotIndex s =? index), s <| ns_snapshotIndex := index |>).
Definition UpdateCommitIndex (index : N) (s : nodeState) : bool * nodeState :=
  (negb (ns_commitIndex s =? index), s <| ns_commitIndex := index |>).
Definition UpdateConfState (cs : ConfState) (s : nodeState) : nodeState :=
  s <| ns_confState := cs |>.
Definition UpdateRaftState (t : RaftState) (s : nodeState) : bool * nodeState :=
  (negb (bool_decide (ns_raftState s = t)), s <| ns_raftState := t |>).
Definition UpdateTermState (term : N) (s : nodeState) : bool * nodeState :=
  (negb (ns_term s =? term), s <| ns_term := term |>).
Definition SetRunning (v : bool) (s : nodeState) : nodeState := s <| ns_running := v |>.

(** ** kvApp *)

(** [kv]: a key and its value; the store is a Go map, which may be nil. *)
Definition kv : Type := string * string.
Definition kvApp : Type := option (gmap string string).

(** The encoders and decoders of the standard library at the types of the store. *)
Class Codec := {
  gob_Encode : kv → result string;
  gob_Decode : string → result kv;
  json_Marshal : kvApp → result string;
  json_Unmarshal : string → result kvApp;
}.

(** What the store relies on.  Json replaces the bytes of a string that are not
    valid UTF-8, so only the maps of valid strings survive. *)
Class CodecLaws `{Codec} := {
  gob_roundtrip p s : gob_Encode p = Val s → gob_Decode s = Val p;
  gob_empty : ∃ e, gob_Decode "" = Err e;
  json_text : string → Prop;
  json_roundtrip m s :
    map_Forall (λ k v, json_text k ∧ json_text v) m →
    json_Marshal (Some m) = Val s → json_Unmarshal s = Val (Some m);
}.

Section KV.
Context `{Codec}.

(** [newKVApp], [kvApp.Get]. *)
Definition newKVApp : kvApp := Some ∅.
Definition Get (a : kvApp) (key : string) : string * bool :=
  match a ≫= (.!! key) with Some v => (v, true) | None => (""%string, false) end.

(** [kvApp.Set]: data that does not decode is ignored, and an assignment to a nil
    map panics. *)
Definition KV_Set (data : string) (a : kvApp) : outcome (bool * kvApp) :=
  match gob_Decode data with
  | Err _ => Ok (false, a)
  | Val p => match a with
             | Some m => Ok (true, Some (<[p.1 := p.2]> m))
             | None => Panic
             end
  end.

(** [kvApp.Snapshot] and [kvApp.Restore]. *)
Definition Snapshot_kv (a : kvApp) : result string := json_Marshal a.
Definition Restore_kv (data : string) (a : kvApp) : option error * kvApp :=
  match json_Unmarshal data with
  | Err e => (Some e, a)
  | Val m => (None, m)
  end.
End KV.

(** A concrete codec: a pair is the lengths of its halves and the halves, a map
    the sequence of its pairs. *)
Definition ex_pair (p : kv) : string :=
  String (Ascii.ascii_of_nat (String.length p.1))
    (String (Ascii.ascii_of_nat (String.length p.2)) (p.1 +:+ p.2)).
Fixpoint ex_split (n : nat) (s : string) : string * string :=
  match n, s with
  | Datatypes.S n, String c s => let '(a, b) := ex_split n s in (String c a, b)
  | _, _ => (""%string, s)
  end.
Definition ex_unpair (s : string) : option (kv * string) :=
  match s with
  | String a (String b s) =>
      let '(k, s) := ex_split (Ascii.nat_of_ascii a) s in
      let '(v, s) := ex_split (Ascii.nat_of_ascii b) s in Some ((k, v), s)
  | _ => None
  end.
Fixpoint ex_unpairs (n : nat) (s : string) : list kv :=
  match n with
  | O => []
  | Datatypes.S n =>
      match ex_unpair s with Some (p, s) => p :: ex_unpairs n s | None => [] end
  end.
Definition ex_pairs (l : list kv) : string := foldr (λ p s, ex_pair p +:+ s) ""%string l.
Definition short (p : kv) : bool :=
  (String.length p.1 <? 256)%nat && (String.length p.2 <? 256)%nat.
Definition ex_codec : Codec := {|
  gob_Encode p := if short p then Val (ex_pair p) else Err (ErrMsg "gob");
  gob_Decode s :=
    match ex_unpair s with Some (p, _) => Val p | None => Err (ErrMsg "gob") end;
  json_Marshal a :=
    match a with
    | None => Val ""%string
    | Some m => if forallb short (map_to_list m)
                then Val (String "{"%char (ex_pairs (map_to_list m))) else Err (ErrMsg "json")
    end;
  json_Unmarshal s :=
    match s with
    | EmptyString => Val None
    | String _ s => Val (Some (list_to_map (ex_unpairs (String.length s) s)))
    end;
|}.

Lemma string_app_cons c a b : String c a +:+ b = String c (a +:+ b).
Proof. done. Qed.
Lemma string_app_assoc a b c : (a +:+ b) +:+ c = a +:+ (b +:+ c).
Proof. induction a as [|x a IH]; [done|]. by rewrite !string_app_cons, IH. Qed.
Lemma string_app_nil_r a : a +:+ "" = a.
Proof. induction a as [|x a IH]; [done|]. by rewrite string_app_cons, IH. Qed.
Lemma string_app_length a b : String.length (a +:+ b) = (String.length a + String.length b)%nat.
Proof. induction a as [|x a IH]; [done|]. rewrite string_app_cons. cbn. by rewrite IH. Qed.

Lemma ex_split_app k s : ex_split (String.length k) (k +:+ s) = (k, s).
Proof. induction k as [|c k IH]; [by destruct s|].
  rewrite string_app_cons. cbn. by rewrite IH.
Qed.

Lemma ex_unpair_pair p s : short p = true → ex_unpair (ex_pair p +:+ s) = Some (p, s).
Proof.
  intros [H1%Nat.ltb_lt H2%Nat.ltb_lt]%andb_prop. destruct p as [k v]. cbn [fst snd] in *.
  unfold ex_pair. rewrite !string_app_cons. cbn [fst snd ex_unpair].
  rewrite !Ascii.nat_ascii_embedding by lia. rewrite string_app_assoc.
  by rewrite !ex_split_app.
Qed.

Lemma ex_unpairs_pairs l n :
  forallb short l = true → (length l ≤ n)%nat → ex_unpairs n (ex_pairs l) = l.
Proof.
  revert n. induction l as [|p l IH]; intros n; cbn [forallb ex_pairs foldr length].
  - by destruct n.
  - intros [Hp Hl]%andb_prop Hn. destruct n as [|n]; [lia|]. cbn [ex_unpairs].
    rewrite ex_unpair_pair by done. f_equal. apply IH; [done|lia].
Qed.

Lemma ex_pairs_length l : (length l ≤ String.length (ex_pairs l))%nat.
Proof.
  induction l as [|p l IH]; [done|]. cbn [ex_pairs foldr length].
  fold (ex_pairs l). unfold ex_pair. rewrite !string_app_cons. cbn [String.length].
  rewrite string_app_length. lia.
Qed.

#[refine] Definition ex_codec_laws : @CodecLaws ex_codec := {| json_text _ := True |}.
Proof.
  - intros p s. cbn. destruct (short p) eqn:Hs; [|done]. intros [= <-].
    pose proof (ex_unpair_pair p "" Hs) as Hp. rewrite string_app_nil_r in Hp. by rewrite Hp.
  - by eexists.
  - intros m s _. cbn. destruct (forallb _ _) eqn:Hs; [|done]. intros [= <-].
    rewrite ex_unpairs_pairs by (done || apply ex_pairs_length).
    by rewrite list_to_map_to_list.
Defined.

(** ** Properties *)

(** The store survives its snapshot: restoring from what [Snapshot] returned gives
    back every key with its value and nothing else, whatever the store holds by
    then; a value that is set under the encoding of the HTTP handler is the one
    [Get] returns, and no other key changes. *)
Theorem kvApp_roundtrip `{Codec} `{!CodecLaws} (m m' : gmap string string) (key val data snap : string) :
  map_Forall (λ k v, json_text k ∧ json_text v) m →
  Snapshot_kv (Some m) = Val snap → gob_Encode (key, val) = Val data →
  Restore_kv snap (Some m') = (None, Some m) ∧
  ∃ a, KV_Set data (Some m) = Ok (true, a) ∧ Get a key = (val, true) ∧
    ∀ k, k ≠ key → Get a k = Get (Some m) k.
Proof.
  intros Hm Hs Hg. split.
  - unfold Restore_kv. by rewrite (json_roundtrip m snap Hm Hs).
  - unfold KV_Set. rewrite (gob_roundtrip _ _ Hg). eexists. split; [reflexivity|]. cbn.
    unfold Get. cbn. rewrite lookup_insert_eq. split; [done|]. intros k Hk.
    by rewrite lookup_insert_ne.
Qed.

Lemma kvApp_roundtrip_witness :
  ∃ snap data, @Restore_kv ex_codec snap (Some ∅) = (None, Some {["a" := "1"]}) ∧
    ∃ a, @KV_Set ex_codec data (Some {["a" := "1"]}) = Ok (true, a) ∧ Get a "b" = ("2", true).
Proof.
  destruct (@kvApp_roundtrip ex_codec ex_codec_laws {["a" := "1"]} ∅ "b" "2"
    (ex_pair ("b", "2")) (String "{"%char (ex_pair ("a", "1")))) as [Hr (a & Ha & Hg & _)].
  - intros k v _. split; exact I.
  - vm_compute. reflexivity.
  - vm_compute. reflexivity.
  - exists (String "{"%char (ex_pair ("a", "1"))), (ex_pair ("b", "2")). split; [exact Hr|].
    exists a. split; [exact Ha|exact Hg].
Defined.
