(* ===== verification/Timer.v ===== *)
(** * Election timers of the application (raft/timer.go)

    Two implementations of the interface [Timer]: one on the clock, one on the
    timers of the netrix client.  Both keep a flag that a message of the leader
    sets; when the timeout expires with the flag down they fire, that is, put a
    token into [outChan], which holds one.  The loop goroutine is a state machine
    over its program points, because other goroutines run between its critical
    sections.  A method that blocks on a full channel returns [None]. *)

From S2P Require Import Prelude Pb Quorum Inflights Progress Tracker Confchange.
From S2P Require Import Util Storage Unstable RaftLog ReadOnly Raft RawNode.

(** The interface [Timer]. *)
Class Timer (T : Type) := {
  tm_Track : Message → T → T;
  tm_UpdateState : Status → T → T;
  tm_Start : T → T;
  tm_Stop : T → outcome T;
  tm_Poll : T → bool;
  tm_Reset : T → option T;
}.

(** ** What the two timers share *)

(** A message by which a node hears from its leader. *)
Definition from_leader_msg (m : Message) : bool :=
  match m_Type m with MsgApp | MsgHeartbeat | MsgSnap => true | _ => false end.

(** [time.Duration] in nanoseconds: [Milliseconds], and the random timeout of the
    loops; [rand.Int63n] panics on a bound that is not positive. *)
Definition Millisecond : Z := 1000000.
Definition Milliseconds (d : Z) : Z := d ÷ Millisecond.
Definition randomTimeout (timeout draw : Z) : outcome Z :=
  if bool_decide (Milliseconds timeout ≤ 0)%Z then Panic
  else Ok (i64 (timeout + i64 (draw mod Milliseconds timeout * Millisecond))).

(** Where the loop goroutine is: before the [select], about to fire, about to
    clear the flag, or gone. *)
Inductive loop_at (A : Type) : Type :=
| Waiting
| Firing (a : A)
| Clearing
| Gone.
Arguments Waiting {A}.
Arguments Firing {A} a.
Arguments Clearing {A}.
Arguments Gone {A}.

(** ** NormalTimer *)

(** [outChan] and [resetChan] hold one token each. *)
Record NormalTimer := MkNormalTimer {
  nt_state : RaftState;
  nt_heardFromLeader : bool;
  nt_timeout : Z;
  nt_outChan : bool;
  nt_doneChan : bool;
  nt_resetChan : bool;
  nt_loop : option (loop_at unit);
}.

Section NormalTimer_update.
Let rebuild (t : NormalTimer) : NormalTimer :=
  MkNormalTimer (nt_state t) (nt_heardFromLeader t) (nt_timeout t) (nt_outChan t)
    (nt_doneChan t) (nt_resetChan t) (nt_loop t).
#[global] Instance upd_nt_state : Update nt_state := ltac:(update_of rebuild nt_state).
#[global] Instance upd_nt_heard : Update nt_heardFromLeader :=
  ltac:(update_of rebuild nt_heardFromLeader).
#[global] Instance upd_nt_outChan : Update nt_outChan := ltac:(update_of rebuild nt_outChan).
#[global] Instance upd_nt_doneChan : Update nt_doneChan := ltac:(update_of rebuild nt_doneChan).
#[global] Instance upd_nt_resetChan : Update nt_resetChan := ltac:(update_of rebuild nt_resetChan).
#[global] Instance upd_nt_loop : Update nt_loop := ltac:(update_of rebuild nt_loop).
End NormalTimer_update.

(** [NewNormalTimer]; the loop goroutine is not running. *)
Definition NewNormalTimer (duration : Z) : NormalTimer :=
  MkNormalTimer StateFollower false duration false false false None.

(** [Track], [setHeard], [UpdateState], [Start], [Stop], [Poll], [Reset].  Closing
    a closed channel panics. *)
Definition nt_setHeard (t : NormalTimer) : NormalTimer := t <| nt_heardFromLeader := true |>.
Definition nt_Track (m : Message) (t : NormalTimer) : NormalTimer :=
  if decide (nt_state t = StateLeader) then t
  else if from_leader_msg m then nt_setHeard t else t.
Definition nt_UpdateState (s : Status) (t : NormalTimer) : NormalTimer :=
  t <| nt_state := (st_SoftState (st_Basic s)).2 |>.
Definition nt_Start (t : NormalTimer) : NormalTimer := t <| nt_loop := Some Waiting |>.
Definition nt_Stop (t : NormalTimer) : outcome NormalTimer :=
  if nt_doneChan t then Panic else Ok (t <| nt_doneChan := true |>).
Definition nt_Reset (t : NormalTimer) : option NormalTimer :=
  if nt_resetChan t then None
  else Some (t <| nt_outChan := false |> <| nt_resetChan := true |>).
#[global] Instance NormalTimer_Timer : Timer NormalTimer := {
  tm_Track := nt_Track;
  tm_UpdateState := nt_UpdateState;
  tm_Start := nt_Start;
  tm_Stop := nt_Stop;
  tm_Poll := nt_outChan;
  tm_Reset := nt_Reset;
}.

(** [fire]: it blocks on a full [outChan]. *)
Definition nt_fire (t : NormalTimer) : option NormalTimer :=
  if decide (nt_state t = StateLeader) then Some t
  else if nt_outChan t then None else Some (t <| nt_outChan := true |>).

(** The steps of [loop]: the timeout expires and the flag is read; the timer
    fires; the flag is cleared; the loop is stopped; it is reset. *)
Inductive nt_step : NormalTimer → NormalTimer → Prop :=
| nt_expire t draw d :
    nt_loop t = Some Waiting → randomTimeout (nt_timeout t) draw = Ok d →
    nt_step t (t <| nt_loop := Some (if nt_heardFromLeader t then Clearing else Firing tt) |>)
| nt_fires t t' :
    nt_loop t = Some (Firing tt) → nt_fire t = Some t' →
    nt_step t (t' <| nt_loop := Some Clearing |>)
| nt_clear t :
    nt_loop t = Some Clearing →
    nt_step t (t <| nt_heardFromLeader := false |> <| nt_loop := Some Waiting |>)
| nt_stopped t :
    nt_loop t = Some Waiting → nt_doneChan t = true → nt_step t (t <| nt_loop := Some Gone |>)
| nt_reset t :
    nt_loop t = Some Waiting → nt_resetChan t = true → nt_step t (t <| nt_resetChan := false |>).

(** ** NetrixTimer *)

(** [timeoutInfo]: its key is not modelled, its duration is [ti_D]. *)
Record timeoutInfo := MkTimeoutInfo { ti_Term : N; ti_Ctr : Z; ti_D : Z }.

(** [xt_started] lists the timers that were started with the client. *)
Record NetrixTimer := MkNetrixTimer {
  xt_curTerm : N;
  xt_heardFromLeader : bool;
  xt_state : RaftState;
  xt_timeout : Z;
  xt_ctr : Z;
  xt_outChan : bool;
  xt_resetChan : bool;
  xt_doneChan : bool;
  xt_started : list timeoutInfo;
  xt_loop : option (loop_at (option timeoutInfo));
}.

Section NetrixTimer_update.
Let rebuild (t : NetrixTimer) : NetrixTimer :=
  MkNetrixTimer (xt_curTerm t) (xt_heardFromLeader t) (xt_state t) (xt_timeout t) (xt_ctr t)
    (xt_outChan t) (xt_resetChan t) (xt_doneChan t) (xt_started t) (xt_loop t).
#[global] Instance upd_xt_curTerm : Update xt_curTerm := ltac:(update_of rebuild xt_curTerm).
#[global] Instance upd_xt_heard : Update xt_heardFromLeader :=
  ltac:(update_of rebuild xt_heardFromLeader).
#[global] Instance upd_xt_state : Update xt_state := ltac:(update_of rebuild xt_state).
#[global] Instance upd_xt_ctr : Update xt_ctr := ltac:(update_of rebuild xt_ctr).
#[global] Instance upd_xt_outChan : Update xt_outChan := ltac:(update_of rebuild xt_outChan).
#[global] Instance upd_xt_resetChan : Update xt_resetChan := ltac:(update_of rebuild xt_resetChan).
#[global] Instance upd_xt_doneChan : Update xt_doneChan := ltac:(update_of rebuild xt_doneChan).
#[global] Instance upd_xt_started : Update xt_started := ltac:(update_of rebuild xt_started).
#[global] Instance upd_xt_loop : Update xt_loop := ltac:(update_of rebuild xt_loop).
End NetrixTimer_update.

(** [NewNetrixTimer]. *)
Definition NewNetrixTimer (timeout : Z) : NetrixTimer :=
  MkNetrixTimer 0 false StateFollower timeout 0 false false false [] None.

(** [Track], [setHeard], [UpdateState], [Start], [Stop], [Reset]. *)
Definition xt_setHeard (t : NetrixTimer) : NetrixTimer := t <| xt_heardFromLeader := true |>.
Definition xt_Track (m : Message) (t : NetrixTimer) : NetrixTimer :=
  if decide (xt_state t = StateLeader) then t
  else if from_leader_msg m then xt_setHeard t else t.
Definition xt_UpdateState (s : Status) (t : NetrixTimer) : NetrixTimer :=
  let t := t <| xt_state := (st_SoftState (st_Basic s)).2 |> in
  let term := hs_Term (st_HardState (st_Basic s)) in
  if xt_curTerm t <? term then t <| xt_curTerm := term |> <| xt_ctr := 0%Z |> else t.
Definition xt_Start (t : NetrixTimer) : NetrixTimer := t <| xt_loop := Some (Firing None) |>.
Definition xt_Stop (t : NetrixTimer) : outcome NetrixTimer :=
  if xt_doneChan t then Panic else Ok (t <| xt_doneChan := true |>).
Definition xt_Reset (t : NetrixTimer) : option NetrixTimer :=
  if xt_resetChan t then None
  else Some (t <| xt_outChan := false |> <| xt_resetChan := true |>).
#[global] Instance NetrixTimer_Timer : Timer NetrixTimer := {
  tm_Track := xt_Track;
  tm_UpdateState := xt_UpdateState;
  tm_Start := xt_Start;
  tm_Stop := xt_Stop;
  tm_Poll := xt_outChan;
  tm_Reset := xt_Reset;
}.

(** [fire]: a timeout of an older term is ignored. *)
Definition xt_fire (ti : timeoutInfo) (t : NetrixTimer) : option NetrixTimer :=
  if bool_decide (xt_state t = StateLeader) || (ti_Term ti <? xt_curTerm t) then Some t
  else if xt_outChan t then None else Some (t <| xt_outChan := true |>).

(** The steps of [loop].  [Firing None] is the top of an iteration, where a timer
    is started with the client; the client then delivers some timeout. *)
Inductive xt_step : NetrixTimer → NetrixTimer → Prop :=
| xt_begin t draw d :
    xt_loop t = Some (Firing None) → randomTimeout (xt_timeout t) draw = Ok d →
    xt_step t (t <| xt_started ::= λ l, l ++ [MkTimeoutInfo (xt_curTerm t) (xt_ctr t) d] |>
                 <| xt_ctr ::= λ c, i64 (c + 1) |> <| xt_loop := Some Waiting |>)
| xt_expire t ti :
    xt_loop t = Some Waiting → ti ∈ xt_started t →
    xt_step t (t <| xt_loop := Some (if xt_heardFromLeader t then Clearing else Firing (Some ti)) |>)
| xt_fires t ti t' :
    xt_loop t = Some (Firing (Some ti)) → xt_fire ti t = Some t' →
    xt_step t (t' <| xt_loop := Some Clearing |>)
| xt_clear t :
    xt_loop t = Some Clearing →
    xt_step t (t <| xt_heardFromLeader := false |> <| xt_loop := Some (Firing None) |>)
| xt_stopped t :
    xt_loop t = Some Waiting → xt_doneChan t = true → xt_step t (t <| xt_loop := Some Gone |>)
| xt_reset t :
    xt_loop t = Some Waiting → xt_resetChan t = true →
    xt_step t (t <| xt_resetChan := false |> <| xt_loop := Some (Firing None) |>).

(** ** What a timer promises *)

Class TimerLaws (T : Type) `{Timer T} := {
  tm_heard : T → bool;
  tm_leads : T → bool;
  Track_hears m t : tm_leads t = false → from_leader_msg m = true → tm_heard (tm_Track m t) = true;
  Track_ignores m t : tm_leads t = true ∨ from_leader_msg m = false → tm_Track m t = t;
  UpdateState_leads s t :
    tm_leads (tm_UpdateState s t) = bool_decide ((st_SoftState (st_Basic s)).2 = StateLeader);
  Reset_empties t t' : tm_Reset t = Some t' → tm_Poll t' = false;
  Stop_twice t t' : tm_Stop t = Ok t' → tm_Stop t' = Panic;
}.

#[export, refine] Instance NormalTimer_laws : TimerLaws NormalTimer := {|
  tm_heard := nt_heardFromLeader;
  tm_leads t := bool_decide (nt_state t = StateLeader);
|}.
Proof.
  - intros m t Hl%bool_decide_eq_false Hm. cbn. unfold nt_Track. by rewrite decide_False, Hm by done.
  - intros m t [Hl%bool_decide_eq_true|Hm]; cbn; unfold nt_Track.
    + by rewrite decide_True by done.
    + by destruct (decide _); rewrite ?Hm.
  - done.
  - intros t t'. cbn. unfold nt_Reset. destruct (nt_resetChan t); [done|]. by intros [= <-].
  - intros t t'. cbn. unfold nt_Stop. destruct (nt_doneChan t); [done|]. by intros [= <-].
Defined.

#[export, refine] Instance NetrixTimer_laws : TimerLaws NetrixTimer := {|
  tm_heard := xt_heardFromLeader;
  tm_leads t := bool_decide (xt_state t = StateLeader);
|}.
Proof.
  - intros m t Hl%bool_decide_eq_false Hm. cbn. unfold xt_Track. by rewrite decide_False, Hm by done.
  - intros m t [Hl%bool_decide_eq_true|Hm]; cbn; unfold xt_Track.
    + by rewrite decide_True by done.
    + by destruct (decide _); rewrite ?Hm.
  - intros s t. cbn. unfold xt_UpdateState. by destruct (_ <? _).
  - intros t t'. cbn. unfold xt_Reset. destruct (xt_resetChan t); [done|]. by intros [= <-].
  - intros t t'. cbn. unfold xt_Stop. destruct (xt_doneChan t); [done|]. by intros [= <-].
Defined.

(** The timeout is drawn from the interval between one and two times the base. *)
Lemma randomTimeout_range timeout draw :
  (Millisecond ≤ timeout)%Z → (2 * timeout < two63z)%Z →
  ∃ d, randomTimeout timeout draw = Ok d ∧ (timeout ≤ d < 2 * timeout)%Z.
Proof.
  unfold randomTimeout, Milliseconds, Millisecond, two63z. intros Hlo Hhi.
  set (ms := (timeout ÷ 1000000)%Z).
  assert (Hms : (0 < ms ∧ ms * 1000000 ≤ timeout)%Z).
  { unfold ms. rewrite Z.quot_div_nonneg by lia.
    pose proof (Z.div_mod timeout 1000000 ltac:(lia)). pose proof (Z.mod_pos_bound timeout 1000000).
    split; [|lia]. apply Z.div_str_pos. lia. }
  rewrite bool_decide_eq_false_2 by lia. pose proof (Z.mod_pos_bound draw ms ltac:(lia)).
  rewrite (i64_small (_ * _)) by (unfold two63z; nia). rewrite i64_small by (unfold two63z; nia).
  eexists. split; [done|]. nia.
Qed.

(** A timer that has heard from its leader by the time it expires does not fire;
    what it hears between the expiry and the clearing of the flag is lost. *)
Lemma heard_does_not_fire t t1 t2 :
  nt_loop t = Some Waiting → nt_heardFromLeader t = true → nt_doneChan t = false →
  nt_resetChan t = false → nt_step t t1 → nt_step t1 t2 →
  nt_outChan t2 = nt_outChan t ∧ nt_loop t2 = Some Waiting ∧ nt_heardFromLeader t2 = false.
Proof.
  intros Hw Hh Hd Hr H1. destruct H1; try congruence. rewrite Hh. intros H2.
  inversion H2; subst; cbn in *; try congruence; done.
Qed.
