(* ===== verification/Describe.v ===== *)
(** * Renderings for people (util.go, majority.go, joint.go, quorum.go, progress.go,
    tracker.go, confchange.go, status.go, log.go)

    The [String] and [Describe] functions of the protocol.  The verbs %d, %x, %v, %t
    and %5d of the package [fmt] are functions here; the verb %q, which depends on
    the tables of Unicode, and the strings of the message library are the operations
    of the class [Renderings].  A loop over a Go map takes the order of the
    iteration as a list, and the results that sort first do not depend on it. *)

From stdpp Require Import pretty sorting.
From S2P Require Import Prelude Pb Quorum Inflights Progress Tracker Confchange.
From S2P Require Import Util Storage Unstable RaftLog ReadOnly Raft RawNode.

Class Renderings := {
  Quote : string → string;
  MessageType_Name : MessageType → string;
  EntryType_Name : EntryType → string;
  ConfChangeType_Name : ConfChangeType → string;
  ConfChangesToString : list ConfChangeSingle → string;
}.

(** ** fmt *)

(** The verb %x on a number: lower-case hexadecimal, with the digits of [n] below
    the top [fuel] ones. *)
Definition hex_digit (n : N) : string :=
  default "" (["0"; "1"; "2"; "3"; "4"; "5"; "6"; "7"; "8"; "9"; "a"; "b"; "c"; "d"; "e"; "f"] !! N.to_nat n).
Fixpoint hex_go (fuel : nat) (n : N) (acc : string) : string :=
  match fuel with
  | O => acc
  | Datatypes.S fuel =>
      let acc := hex_digit (n `mod` 16) +:+ acc in
      if n `div` 16 =? 0 then acc else hex_go fuel (n `div` 16) acc
  end.
(** A uint64 has at most 16 digits. *)
Definition hex (n : N) : string := hex_go 16 n "".

(** The verb %t, and %5d. *)
Definition show_bool (b : bool) : string := if b then "true" else "false".
Fixpoint Repeat (s : string) (n : nat) : string :=
  match n with O => "" | Datatypes.S n => s +:+ Repeat s n end.
Definition pad (width : nat) (s : string) : string := Repeat " " (width - String.length s) +:+ s.

(** Joining with a separator. *)
Fixpoint join (sep : string) (l : list string) : string :=
  match l with
  | [] => ""
  | [x] => x
  | x :: l => x +:+ sep +:+ join sep l
  end.
(** The verb %v on a slice. *)
Definition show_slice (l : list string) : string := "[" +:+ join " " l +:+ "]".
Definition show_ids (l : list N) : string := show_slice (pretty <$> l).
Definition newline : string := String (Ascii.ascii_of_nat 10) "".

(** [err.Error()]. *)
Definition error_Error (e : error) : string :=
  match e with
  | ErrCompacted => "requested index is unavailable due to compaction"
  | ErrSnapOutOfDate => "requested index is older than the existing snapshot"
  | ErrUnavailable => "requested entry at index is unavailable"
  | ErrSnapshotTemporarilyUnavailable => "snapshot is temporarily unavailable"
  | ErrProposalDropped => "raft proposal dropped"
  | ErrStepLocalMsg => "raft: cannot step raft local message"
  | ErrStepPeerNotFound => "raft: cannot step as peer not found"
  | ErrStopped => "raft: stopped"
  | ErrMsg msg => msg
  end.

(** ** Quorums *)

(** [Index.String]. *)
Definition Index_String (i : N) : string := if i =? maxUint64 then "∞" else pretty i.

(** [VoteResult.String] on the byte that represents the result. *)
Definition VoteResult_name : string := "VotePendingVoteLostVoteWon".
Definition VoteResult_index : list N := [0; 11; 19; 26].
Definition VoteResult_String (i : N) : string :=
  let i := (i + 255) `mod` 256 in
  if 3 <=? i then "VoteResult(" +:+ pretty ((i + 1) `mod` 256) +:+ ")"
  else
    let a := N.to_nat (default 0 (VoteResult_index !! N.to_nat i)) in
    let b := N.to_nat (default 0 (VoteResult_index !! Datatypes.S (N.to_nat i))) in
    String.substring a (b - a) VoteResult_name.

(** [sort.Slice] on distinct ids has one result. *)
Definition sort_ids (ids : list N) : list N := merge_sort N.le ids.

(** [MajorityConfig.String]; [order] is the iteration of the map. *)
Definition Majority_String_in (order : list N) : string :=
  "(" +:+ join " " (pretty <$> sort_ids order) +:+ ")".
Definition Majority_String (c : MajorityConfig) : string := Majority_String_in (elements (keys c)).

(** [JointConfig.String]. *)
Definition Joint_String (c : JointConfig) : string :=
  if (0 <? size (keys (outgoing c)))%nat
  then Majority_String (incoming c) +:+ "&&" +:+ Majority_String (outgoing c)
  else Majority_String (incoming c).

(** The local type [tup] of [MajorityConfig.Describe]. *)
Record tup := MkTup { tu_id : N; tu_idx : N; tu_ok : bool; tu_bar : nat }.
Definition tup_index_le (a b : tup) : Prop :=
  tu_idx a < tu_idx b ∨ tu_idx a = tu_idx b ∧ tu_id a ≤ tu_id b.
#[export] Instance tup_index_le_dec : RelDecision tup_index_le.
Proof. intros a b. unfold tup_index_le. apply _. Defined.
Definition tup_id_le (a b : tup) : Prop := tu_id a ≤ tu_id b.
#[export] Instance tup_id_le_dec : RelDecision tup_id_le.
Proof. intros a b. unfold tup_id_le. apply _. Defined.

(** The loop that populates the bars; [i] is the index of the first element, [prev]
    the one before it. *)
Fixpoint set_bars (i : nat) (prev : option tup) (info : list tup) : list tup :=
  match info with
  | [] => []
  | t :: info =>
      let bar := match prev with
                 | Some p => if tu_idx p <? tu_idx t then i else tu_bar t
                 | None => tu_bar t
                 end in
      MkTup (tu_id t) (tu_idx t) (tu_ok t) bar :: set_bars (Datatypes.S i) (Some t) info
  end.

(** One line of the description. *)
Definition describe_tup (n : nat) (t : tup) : string :=
  (if negb (tu_ok t) then "?" +:+ Repeat " " n
   else Repeat "x" (tu_bar t) +:+ ">" +:+ Repeat " " (n - tu_bar t)) +:+
  " " +:+ pad 5 (pretty (tu_idx t)) +:+ "    (id=" +:+ pretty (tu_id t) +:+ ")" +:+ newline.

(** [MajorityConfig.Describe], with the iteration order of the map. *)
Definition acked_tup `{AckedIndexer L} (l : L) (id : N) : tup :=
  match AckedIndex l id with
  | Some idx => MkTup id idx true 0
  | None => MkTup id 0 false 0
  end.
Definition Majority_info `{AckedIndexer L} (order : list N) (l : L) : list tup :=
  merge_sort tup_id_le (set_bars 0 None (merge_sort tup_index_le (acked_tup l <$> order))).
Definition Majority_Describe_in `{AckedIndexer L} (order : list N) (l : L) : string :=
  if (length order =? 0)%nat then "<empty majority quorum>"
  else
    let n := length order in
    Repeat " " n +:+ "    idx" +:+ newline +:+
    foldr (λ t s, describe_tup n t +:+ s) "" (Majority_info order l).
Definition Majority_Describe `{AckedIndexer L} (c : MajorityConfig) (l : L) : string :=
  Majority_Describe_in (elements (keys c)) l.

(** [JointConfig.Describe]. *)
Definition Joint_Describe `{AckedIndexer L} (c : JointConfig) (l : L) : string :=
  Majority_Describe (Some (IDs c)) l.

(** ** Progress and configuration *)

(** [Progress.String]. *)
Definition Progress_String (pr : Progress) : string :=
  StateType_String (pr_State pr) +:+ " match=" +:+ pretty (pr_Match pr) +:+
  " next=" +:+ pretty (pr_Next pr) +:+
  (if pr_IsLearner pr then " learner" else "") +:+
  (if IsPaused pr then " paused" else "") +:+
  (if 0 <? pr_PendingSnapshot pr then " pendingSnap=" +:+ pretty (pr_PendingSnapshot pr) else "") +:+
  (if negb (pr_RecentActive pr) then " inactive" else "") +:+
  (if (0 <? Count (pr_Inflights pr))%Z
   then " inflight=" +:+ pretty (Count (pr_Inflights pr)) +:+
        (if Full (pr_Inflights pr) then "[full]" else "")
   else "").

(** [ProgressMap.String]. *)
Definition ProgressMap_String_in (order : list N) (m : gmap N Progress) : string :=
  foldr (λ id s, match m !! id with
                 | Some pr => pretty id +:+ ": " +:+ Progress_String pr +:+ newline +:+ s
                 | None => s
                 end) "" (sort_ids order).
Definition ProgressMap_String (m : gmap N Progress) : string :=
  ProgressMap_String_in (elements (dom m)) m.

(** [Config.String]. *)
Definition Config_String (c : Config) : string :=
  "voters=" +:+ Joint_String (Voters c) +:+
  match Learners c with Some l => " learners=" +:+ Majority_String (Some l) | None => "" end +:+
  match LearnersNext c with Some l => " learners_next=" +:+ Majority_String (Some l) | None => "" end +:+
  (if AutoLeave c then " autoleave" else "").

(** [raftLog.String]. *)
Definition raftLog_String {S} (l : raftLog S) : string :=
  "committed=" +:+ pretty (l_committed l) +:+ ", applied=" +:+ pretty (l_applied l) +:+
  ", unstable.offset=" +:+ pretty (u_offset (l_unstable l)) +:+
  ", len(unstable.Entries)=" +:+ pretty (lenN (u_entries (l_unstable l))).

(** ** Messages and states (util.go) *)

Definition DescribeHardState (hs : HardState) : string :=
  "Term:" +:+ pretty (hs_Term hs) +:+
  (if negb (hs_Vote hs =? 0) then " Vote:" +:+ pretty (hs_Vote hs) else "") +:+
  " Commit:" +:+ pretty (hs_Commit hs).

Definition DescribeSoftState (ss : SoftState) : string :=
  "Lead:" +:+ pretty (ss.1) +:+ " State:" +:+ RaftState_String (ss.2).

Definition DescribeConfState (state : ConfState) : string :=
  "Voters:" +:+ show_ids (cs_Voters state) +:+
  " VotersOutgoing:" +:+ show_ids (cs_VotersOutgoing state) +:+
  " Learners:" +:+ show_ids (cs_Learners state) +:+
  " LearnersNext:" +:+ show_ids (cs_LearnersNext state) +:+
  " AutoLeave:" +:+ show_bool (cs_AutoLeave state).

Definition DescribeSnapshot (snap : Snapshot) : string :=
  "Index:" +:+ pretty (s_Index snap) +:+ " Term:" +:+ pretty (s_Term snap) +:+
  " ConfState:" +:+ DescribeConfState (s_ConfState snap).

(** The verb %v on a [ReadState] and on bytes. *)
Definition show_bytes (s : string) : string :=
  show_slice ((λ c, pretty (Ascii.N_of_ascii c)) <$> String.list_ascii_of_string s).
Definition show_ReadState (rs : ReadState) : string :=
  "{" +:+ pretty (rs_Index rs) +:+ " " +:+ show_bytes (rs_RequestCtx rs) +:+ "}".

(** [MarshalJSON] of a role. *)
Definition RaftState_MarshalJSON `{Renderings} (st : RaftState) : string := Quote (RaftState_String st).

Section Messages.
Context `{RaftPB} `{Renderings}.

(** [DescribeEntry]; the formatter [None] is nil. *)
Definition DescribeEntry (e : Entry) (f : option (string → string)) : string :=
  let f := default Quote f in
  let formatConfChange (cc : ConfChangeI) := ConfChangesToString (Changes (AsV2 cc)) in
  let formatted :=
    match e_Type e with
    | EntryNormal => f (e_Data e)
    | EntryConfChange =>
        match V1_Unmarshal (e_Data e) with
        | Err err => error_Error err
        | Val cc => formatConfChange (inl cc)
        end
    | EntryConfChangeV2 =>
        match V2_Unmarshal (e_Data e) with
        | Err err => error_Error err
        | Val cc => formatConfChange (inr cc)
        end
    end in
  let formatted := if decide (formatted ≠ "") then " " +:+ formatted else formatted in
  pretty (e_Term e) +:+ "/" +:+ pretty (e_Index e) +:+ " " +:+ EntryType_Name (e_Type e) +:+ formatted.

Definition DescribeEntries (ents : list Entry) (f : option (string → string)) : string :=
  foldr (λ e s, DescribeEntry e f +:+ newline +:+ s) "" ents.

Definition DescribeMessage (m : Message) (f : option (string → string)) : string :=
  hex (m_From m) +:+ "->" +:+ hex (m_To m) +:+ " " +:+ MessageType_Name (m_Type m) +:+
  " Term:" +:+ pretty (m_Term m) +:+ " Log:" +:+ pretty (m_LogTerm m) +:+ "/" +:+ pretty (m_Index m) +:+
  (if m_Reject m then " Rejected (Hint: " +:+ pretty (m_RejectHint m) +:+ ")" else "") +:+
  (if negb (m_Commit m =? 0) then " Commit:" +:+ pretty (m_Commit m) else "") +:+
  (if (0 <? length (m_Entries m))%nat
   then " Entries:[" +:+ join ", " ((λ e, DescribeEntry e f) <$> m_Entries m) +:+ "]" else "") +:+
  (if negb (IsEmptySnap (m_Snapshot m)) then " Snapshot: " +:+ DescribeSnapshot (m_Snapshot m) else "").

(** The buffer of [DescribeReady]. *)
Definition ready_body (rd : Ready) (f : option (string → string)) : string :=
  match rd_SoftState rd with Some ss => DescribeSoftState ss +:+ newline | None => "" end +:+
  (if negb (IsEmptyHardState (rd_HardState rd))
   then "HardState " +:+ DescribeHardState (rd_HardState rd) +:+ newline else "") +:+
  (if (0 <? length (rd_ReadStates rd))%nat
   then "ReadStates " +:+ show_slice (show_ReadState <$> rd_ReadStates rd) +:+ newline else "") +:+
  (if (0 <? length (rd_Entries rd))%nat
   then "Entries:" +:+ newline +:+ DescribeEntries (rd_Entries rd) f else "") +:+
  (if negb (IsEmptySnap (rd_Snapshot rd))
   then "Snapshot " +:+ DescribeSnapshot (rd_Snapshot rd) +:+ newline else "") +:+
  (if (0 <? length (rd_CommittedEntries rd))%nat
   then "CommittedEntries:" +:+ newline +:+ DescribeEntries (rd_CommittedEntries rd) f else "") +:+
  (if (0 <? length (rd_Messages rd))%nat
   then "Messages:" +:+ newline +:+
        foldr (λ m s, DescribeMessage m f +:+ newline +:+ s) "" (rd_Messages rd)
   else "").
Definition DescribeReady (rd : Ready) (f : option (string → string)) : string :=
  if (0 <? String.length (ready_body rd f))%nat
  then "Ready MustSync=" +:+ show_bool (rd_MustSync rd) +:+ ":" +:+ newline +:+ ready_body rd f
  else "<empty Ready>".

(** [Describe] (confchange.go). *)
Definition ConfChanges_Describe (ccs : list ConfChangeSingle) : string :=
  foldl (λ s cc, s +:+ (if (0 <? String.length s)%nat then " " else "") +:+
    ConfChangeType_Name (cc_Type cc) +:+ "(" +:+ pretty (cc_NodeID cc) +:+ ")") "" ccs.

(** [Status.MarshalJSON]; [order] is the iteration of the progress map. *)
Definition quoted (s : string) : string :=
  let q := String (Ascii.ascii_of_nat 34) "" in q +:+ s +:+ q.
Definition field (k v : string) : string := quoted k +:+ ":" +:+ v.
Definition json_progress (k : N) (v : Progress) : string :=
  field (hex k) ("{" +:+ field "match" (pretty (pr_Match v)) +:+ "," +:+
    field "next" (pretty (pr_Next v)) +:+ "," +:+
    field "state" (Quote (StateType_String (pr_State v))) +:+ "},").
(** The string without its last byte. *)
Definition drop_last (s : string) : string := String.substring 0 (String.length s - 1) s.
Definition Status_MarshalJSON_in (order : list N) (s : Status) : string :=
  let b := st_Basic s in
  let j := "{" +:+ field "id" (quoted (hex (st_ID b))) +:+ "," +:+
    field "term" (pretty (hs_Term (st_HardState b))) +:+ "," +:+
    field "vote" (quoted (hex (hs_Vote (st_HardState b)))) +:+ "," +:+
    field "commit" (pretty (hs_Commit (st_HardState b))) +:+ "," +:+
    field "lead" (quoted (hex ((st_SoftState b).1))) +:+ "," +:+
    field "raftState" (Quote (RaftState_String ((st_SoftState b).2))) +:+ "," +:+
    field "applied" (pretty (st_Applied b)) +:+ "," +:+ field "progress" "{" in
  let j := if (size (st_Progress s) =? 0)%nat then j +:+ "},"
    else drop_last (foldl (λ j k, match st_Progress s !! k with
                                  | Some v => j +:+ json_progress k v | None => j end) j order) +:+ "}," in
  j +:+ field "leadtransferee" (quoted (hex (st_LeadTransferee b))) +:+ "}".
(** [Status.String]. *)
Definition Status_String (order : list N) (s : Status) : string := Status_MarshalJSON_in order s.
End Messages.

(** ** Lemmas *)

#[export] Instance tup_index_le_total : Total tup_index_le.
Proof. intros a b. unfold tup_index_le. lia. Qed.
#[export] Instance tup_index_le_trans : Transitive tup_index_le.
Proof. intros a b c. unfold tup_index_le. lia. Qed.
#[export] Instance tup_id_le_total : Total tup_id_le.
Proof. intros a b. unfold tup_id_le. lia. Qed.
#[export] Instance tup_id_le_trans : Transitive tup_id_le.
Proof. intros a b c. unfold tup_id_le. lia. Qed.

(** The bar of a voter: how many indexes are smaller, for the first of those that
    acknowledged the index, and nothing for the others. *)
Definition bar_of (info : list tup) (id idx : N) : nat :=
  if existsb (λ t, (tu_idx t =? idx) && (tu_id t <? id)) info then 0
  else countb (λ t, tu_idx t <? idx) info.

(** In a sorted list the bar is found by looking at the previous element. *)
Lemma bar_of_here pre t post :
  StronglySorted tup_index_le (pre ++ t :: post) → NoDup (tu_id <$> pre ++ t :: post) →
  bar_of (pre ++ t :: post) (tu_id t) (tu_idx t) =
    match last pre with
    | Some p => if tu_idx p <? tu_idx t then length pre else 0%nat
    | None => 0%nat
    end.
Proof.
  intros Hs Hnd. apply StronglySorted_app in Hs as (Hcross & Hpre & Hpost).
  apply StronglySorted_cons in Hpost as [Htop _]. rewrite Forall_forall in Htop.
  assert (Hne : ∀ x, x ∈ pre ++ post → tu_id x ≠ tu_id t).
  { rewrite fmap_app, fmap_cons in Hnd. apply NoDup_app in Hnd as (_ & Hd & [Hn _]%NoDup_cons).
    intros x [Hx|Hx]%elem_of_app Heq.
    - apply (Hd (tu_id t)); [rewrite <- Heq; by apply list_elem_of_fmap_2|left].
    - apply Hn. rewrite <- Heq. by apply list_elem_of_fmap_2. }
  assert (Hafter : ∀ x, x ∈ post → (tu_idx x <? tu_idx t) = false ∧
    (tu_idx x =? tu_idx t) && (tu_id x <? tu_id t) = false).
  { intros x Hx. specialize (Htop x Hx). unfold tup_index_le in Htop.
    destruct (N.ltb_spec (tu_idx x) (tu_idx t)), (N.eqb_spec (tu_idx x) (tu_idx t)),
      (N.ltb_spec (tu_id x) (tu_id t)); try done; lia. }
  assert (Hbefore : ∀ x, x ∈ pre → tup_index_le x t) by (intros x Hx; apply Hcross; [done|left]).
  unfold bar_of. destruct (last pre) as [p|] eqn:Hl.
  2: { apply last_None in Hl as ->. cbn [app length existsb]. rewrite countb_cons, N.eqb_refl, !N.ltb_irrefl.
       cbn. destruct (existsb _ _); [done|]. apply countb_none. intros x Hx. by apply Hafter. }
  apply last_Some in Hl as [pre' ->]. destruct (N.ltb_spec (tu_idx p) (tu_idx t)) as [Hlt|Hge].
  - assert (Hall : ∀ x, x ∈ pre' ++ [p] → tu_idx x < tu_idx t).
    { intros x [Hx|Hx]%elem_of_app.
      - apply StronglySorted_app in Hpre as (Hx' & _ & _).
        pose proof (Hx' x p Hx ltac:(by left)) as Hle. unfold tup_index_le in Hle. lia.
      - by apply list_elem_of_singleton in Hx as ->. }
    rewrite existsb_none.
    + rewrite countb_app, countb_all by (intros x Hx; apply N.ltb_lt; by apply Hall).
      rewrite countb_cons, N.ltb_irrefl, (countb_none _ post) by (intros x Hx; by apply Hafter). lia.
    + intros x [Hx|[-> |Hx]%elem_of_cons]%elem_of_app; [|by rewrite N.ltb_irrefl, andb_false_r|by apply Hafter].
      specialize (Hall x Hx). destruct (N.eqb_spec (tu_idx x) (tu_idx t)); [lia|done].
  - assert (Hp : p ∈ pre' ++ [p]) by (apply elem_of_app; right; by left).
    pose proof (Hbefore p Hp) as Hle. unfold tup_index_le in Hle.
    pose proof (Hne p ltac:(apply elem_of_app; by left)).
    assert (Hex : existsb (λ x, (tu_idx x =? tu_idx t) && (tu_id x <? tu_id t)) ((pre' ++ [p]) ++ t :: post) = true).
    { apply existsb_exists. exists p. split; [apply list_elem_of_In, elem_of_app; by left|].
      apply andb_true_intro. split; [apply N.eqb_eq|apply N.ltb_lt]; lia. }
    by rewrite Hex.
Qed.

Lemma set_bars_spec pre l t :
  StronglySorted tup_index_le (pre ++ l) → NoDup (tu_id <$> pre ++ l) →
  (∀ x, x ∈ l → tu_bar x = 0%nat) → t ∈ set_bars (length pre) (last pre) l →
  ∃ x, x ∈ l ∧ t = MkTup (tu_id x) (tu_idx x) (tu_ok x) (bar_of (pre ++ l) (tu_id x) (tu_idx x)).
Proof.
  revert pre. induction l as [|x l IH]; intros pre Hs Hnd Hb; cbn [set_bars].
  { by intros ?%elem_of_nil. }
  intros [->|Ht]%elem_of_cons.
  - exists x. split; [left|]. f_equal. rewrite bar_of_here by done. rewrite (Hb x) by left.
    by destruct (last pre).
  - specialize (IH (pre ++ [x])). rewrite <- app_assoc, length_app, last_snoc in IH. cbn in IH.
    rewrite Nat.add_1_r in IH. destruct IH as (y & Hy & ->); try done.
    + intros y Hy. apply Hb. by right.
    + exists y. split; [by right|done].
Qed.

Section Order.
Context {L : Type} `{AckedIndexer L}.
Implicit Types (l : L) (order : list N).

Lemma tu_id_acked l order : tu_id <$> (acked_tup l <$> order) = order.
Proof.
  induction order as [|id order IH]; [done|]. cbn. f_equal; [|exact IH].
  unfold acked_tup. by destruct (AckedIndex l id).
Qed.

Lemma acked_tup_bar l order x : x ∈ acked_tup l <$> order → tu_bar x = 0%nat.
Proof. intros (id & -> & _)%list_elem_of_fmap. unfold acked_tup. by destruct (AckedIndex l id). Qed.

Lemma by_index_order l order order' :
  order ≡ₚ order' →
  merge_sort tup_index_le (acked_tup l <$> order) = merge_sort tup_index_le (acked_tup l <$> order').
Proof.
  intros Hp. apply (StronglySorted_unique_strong tup_index_le).
  - intros x y Hx Hy Hxy Hyx. rewrite merge_sort_Permutation in Hx, Hy.
    apply list_elem_of_fmap in Hx as (i & -> & _), Hy as (j & -> & _).
    assert (Hid : ∀ i, tu_id (acked_tup l i) = i) by (intros k; unfold acked_tup; by destruct (AckedIndex l k)).
    unfold tup_index_le in Hxy, Hyx. rewrite !Hid in Hxy, Hyx. f_equal. lia.
  - by apply StronglySorted_merge_sort; [exact _..].
  - by apply StronglySorted_merge_sort; [exact _..].
  - by rewrite !merge_sort_Permutation, Hp.
Qed.

Lemma Majority_info_order l order order' :
  order ≡ₚ order' → Majority_info order l = Majority_info order' l.
Proof. intros Hp. unfold Majority_info. by rewrite (by_index_order l order order'). Qed.

Lemma sort_ids_order order order' : order ≡ₚ order' → sort_ids order = sort_ids order'.
Proof.
  intros Hp. apply (Sorted_unique N.le).
  - apply Sorted_merge_sort. intros a b. lia.
  - apply Sorted_merge_sort. intros a b. lia.
  - unfold sort_ids. by rewrite !merge_sort_Permutation.
Qed.

(** The sets and maps print the same in every iteration order. *)
Lemma Majority_String_order c order : order ≡ₚ elements (keys c) → Majority_String_in order = Majority_String c.
Proof. intros Hp. unfold Majority_String, Majority_String_in. by rewrite (sort_ids_order _ _ Hp). Qed.
Lemma ProgressMap_String_order m order :
  order ≡ₚ elements (dom m) → ProgressMap_String_in order m = ProgressMap_String m.
Proof. intros Hp. unfold ProgressMap_String, ProgressMap_String_in. by rewrite (sort_ids_order _ _ Hp). Qed.
End Order.

(** ** Properties *)

(** C37: The picture of the acknowledged indexes does not depend on the iteration order
    of the voters, and shows every voter once, ordered by id, with a bar as long as
    the number of voters behind it if it is the first, by id, of those that
    acknowledged its index; the others of the same index have no bar. *)
Theorem Majority_Describe_spec `{AckedIndexer L} (c : MajorityConfig) (l : L) (order : list N) :
  order ≡ₚ elements (keys c) →
  Majority_Describe_in order l = Majority_Describe c l ∧
  Sorted N.le (tu_id <$> Majority_info order l) ∧ tu_id <$> Majority_info order l ≡ₚ order ∧
  ∀ t, t ∈ Majority_info order l → ∃ id, id ∈ keys c ∧
    t = MkTup id (tu_idx (acked_tup l id)) (tu_ok (acked_tup l id))
          (bar_of (acked_tup l <$> order) id (tu_idx (acked_tup l id))).
Proof.
  intros Hp. assert (Hlen : length order = length (elements (keys c))) by (by rewrite Hp).
  set (tups := acked_tup l <$> order). set (srt := merge_sort tup_index_le tups).
  assert (Hsp : srt ≡ₚ tups) by apply merge_sort_Permutation.
  assert (Hids : ∀ pre i l0, tu_id <$> set_bars i pre l0 = tu_id <$> l0).
  { intros pre i l0. revert pre i. induction l0 as [|x l0 IH]; intros pre i; [done|]. cbn. f_equal. apply IH. }
  split; [|split; [|split]].
  - unfold Majority_Describe, Majority_Describe_in. rewrite Hlen.
    by rewrite (Majority_info_order l order (elements (keys c)) Hp).
  - unfold Majority_info. apply (Sorted_fmap tu_id tup_id_le N.le); [done|].
    apply Sorted_merge_sort. exact _.
  - unfold Majority_info. fold tups. fold srt. rewrite merge_sort_Permutation, Hids, Hsp. unfold tups. by rewrite (tu_id_acked l order).
  - intros t Ht. unfold Majority_info in Ht. fold tups in Ht. fold srt in Ht. rewrite merge_sort_Permutation in Ht.
    destruct (set_bars_spec [] srt t) as (x & Hx & ->); try done.
    + by apply StronglySorted_merge_sort; [exact _..].
    + cbn [app]. rewrite Hsp. unfold tups. rewrite (tu_id_acked l order), Hp. apply NoDup_elements.
    + intros x Hx. rewrite Hsp in Hx. by eapply acked_tup_bar.
    + rewrite Hsp in Hx. pose proof Hx as (id & -> & Hid)%list_elem_of_fmap.
      exists id. split; [rewrite Hp in Hid; by apply elem_of_elements in Hid|].
      assert (Htid : tu_id (acked_tup l id) = id) by (unfold acked_tup; by destruct (AckedIndex l id)).
      rewrite Htid. f_equal. cbn [app]. unfold bar_of.
      assert (He : ∀ f, existsb f srt = existsb f tups).
      { intros f. apply eq_true_iff_eq. rewrite !existsb_exists. setoid_rewrite <- list_elem_of_In.
        by setoid_rewrite Hsp. }
      assert (Hc : ∀ f, countb f srt = countb f tups) by (intros f; by apply countb_perm).
      by rewrite He, Hc.
Qed.

(** Voters 1 and 2 have acknowledged the same index. *)
Definition ex_acked : gmap N N := {[1 := 100; 2 := 100; 3 := 99]}.
Lemma Majority_Describe_spec_witness :
  Majority_Describe_in [3; 1; 2] ex_acked = Majority_Describe (Some {[1; 2; 3]}) ex_acked ∧
  Majority_info [3; 1; 2] ex_acked = [MkTup 1 100 true 1; MkTup 2 100 true 0; MkTup 3 99 true 0].
Proof.
  split; [|vm_compute; reflexivity].
  apply (Majority_Describe_spec (Some {[1; 2; 3]}) ex_acked [3; 1; 2]). vm_decide.
Defined.

Lemma string_length_app (s t : string) : String.length (s +:+ t) = (String.length s + String.length t)%nat.
Proof. induction s as [|c s IH]; [done|]. exact (f_equal Datatypes.S IH). Qed.

(** A Ready is described as empty exactly when it brings nothing. *)
Lemma DescribeReady_empty `{RaftPB} `{Renderings} (rd : Ready) (f : option (string → string)) :
  DescribeReady rd f = "<empty Ready>" ↔ containsUpdates rd = false.
Proof.
  assert (Hb : String.length (ready_body rd f) = 0%nat ↔ containsUpdates rd = false).
  { unfold ready_body, containsUpdates. rewrite !string_length_app.
    destruct (rd_SoftState rd) as [ss|].
    { rewrite bool_decide_eq_true_2 by done. rewrite !string_length_app. cbn. split; [lia|done]. }
    rewrite bool_decide_eq_false_2 by auto.
    destruct (IsEmptyHardState (rd_HardState rd)).
    2: { cbn [negb orb]. rewrite string_length_app. cbn. split; [lia|done]. }
    destruct (IsEmptySnap (rd_Snapshot rd)).
    2: { cbn [negb orb]. rewrite (string_length_app "Snapshot "). cbn. split; [lia|done]. }
    destruct (rd_ReadStates rd).
    2: { cbn [length Nat.ltb Nat.leb orb]. rewrite (string_length_app "ReadStates "). cbn. split; [lia|].
         rewrite orb_true_r. done. }
    destruct (rd_Entries rd).
    2: { cbn [length Nat.ltb Nat.leb orb]. rewrite (string_length_app "Entries:"). cbn. split; [lia|done]. }
    destruct (rd_CommittedEntries rd).
    2: { cbn [length Nat.ltb Nat.leb orb]. rewrite (string_length_app "CommittedEntries:"). cbn. split; [lia|done]. }
    destruct (rd_Messages rd); [done|].
    cbn [length Nat.ltb Nat.leb orb]. rewrite (string_length_app "Messages:"). cbn. split; [lia|done]. }
  rewrite <- Hb. unfold DescribeReady. destruct (Nat.ltb_spec 0 (String.length (ready_body rd f))).
  - split; [by intros ?|lia].
  - split; [lia|done].
Qed.
