(* ===== verification/Logger.v ===== *)
(** * The logger of the protocol (logger.go)

    [DefaultLogger] formats a line and hands it to a logger of the standard library,
    of which the flags and the lines written are kept.  The arguments of a call and
    their rendering are the operations of the class [Fmt].  The protocol's
    definitions log nothing; this file is the component by itself. *)

From S2P Require Import Prelude.

(** [fmt.Sprint] and [fmt.Sprintf] on the arguments of a call. *)
Class Fmt := {
  arg : Type;
  Sprint : list arg → string;
  Sprintf : string → list arg → string;
}.

(** [log.Logger]: its flags, and what it has written. *)
Record log_Logger := MkLogger { lg_flags : N; lg_out : list string }.
Record DefaultLogger := MkDefaultLogger { dl_Logger : log_Logger; dl_debug : bool }.

(** What a call does to the program: it goes on, ends, or panics with a message. *)
Inductive flow := Continue | Exit (code : Z) | Panics (msg : string).

(** [log.Ldate] and [log.Ltime]. *)
Definition Ldate : N := 1.
Definition Ltime : N := 2.

(** [header]. *)
Definition header (lvl msg : string) : string := lvl +:+ ": " +:+ msg.

(** [Output] of the standard library. *)
Definition Output (s : string) (l : DefaultLogger) : DefaultLogger :=
  MkDefaultLogger (MkLogger (lg_flags (dl_Logger l)) (lg_out (dl_Logger l) ++ [s])) (dl_debug l).

Definition EnableTimestamps (l : DefaultLogger) : DefaultLogger :=
  MkDefaultLogger (MkLogger (N.lor (N.lor (lg_flags (dl_Logger l)) Ldate) Ltime) (lg_out (dl_Logger l)))
    (dl_debug l).
Definition EnableDebug (l : DefaultLogger) : DefaultLogger := MkDefaultLogger (dl_Logger l) true.

Section Levels.
Context `{Fmt}.
Implicit Types (v : list arg) (l : DefaultLogger).

Definition Debug v l : flow * DefaultLogger :=
  (Continue, if dl_debug l then Output (header "DEBUG" (Sprint v)) l else l).
Definition Debugf format v l : flow * DefaultLogger :=
  (Continue, if dl_debug l then Output (header "DEBUG" (Sprintf format v)) l else l).
Definition Info v l : flow * DefaultLogger := (Continue, Output (header "INFO" (Sprint v)) l).
Definition Infof format v l : flow * DefaultLogger := (Continue, Output (header "INFO" (Sprintf format v)) l).
Definition Error v l : flow * DefaultLogger := (Continue, Output (header "ERROR" (Sprint v)) l).
Definition Errorf format v l : flow * DefaultLogger := (Continue, Output (header "ERROR" (Sprintf format v)) l).
Definition Warning v l : flow * DefaultLogger := (Continue, Output (header "WARN" (Sprint v)) l).
Definition Warningf format v l : flow * DefaultLogger := (Continue, Output (header "WARN" (Sprintf format v)) l).
Definition Fatal v l : flow * DefaultLogger := (Exit 1, Output (header "FATAL" (Sprint v)) l).
Definition Fatalf format v l : flow * DefaultLogger := (Exit 1, Output (header "FATAL" (Sprintf format v)) l).
(** [Logger.Panic] and [Logger.Panicf]: the message is written and panicked with. *)
Definition log_Panic v l : flow * DefaultLogger := (Panics (Sprint v), Output (Sprint v) l).
Definition log_Panicf format v l : flow * DefaultLogger :=
  (Panics (Sprintf format v), Output (Sprintf format v) l).

(** Without debugging, the debug level writes nothing; every other level writes one
    line, and only the last two levels do not return. *)
Lemma Debug_silent v l : dl_debug l = false → Debug v l = (Continue, l).
Proof. unfold Debug. by intros ->. Qed.
Lemma Debug_enabled v l :
  lg_out (dl_Logger (Debug v (EnableDebug l)).2) = lg_out (dl_Logger l) ++ [header "DEBUG" (Sprint v)].
Proof. done. Qed.
End Levels.

(** ** The logger of the package *)

(** [raftLogger], a pointer to one of the loggers; the mutex is held around every
    access. *)
Definition SetLogger {L} (l : L) (_ : L) : L := l.
Definition ResetDefaultLogger {L} (defaultLogger current : L) : L := SetLogger defaultLogger current.
Definition getLogger {L} (current : L) : L := current.
