(* ===== verification/RaftFrame.v ===== *)
(** * What most methods of the state machine leave alone

    Most methods of [raft] touch neither the identity, the term, the vote and the
    role nor, but for the committed index, the log, and only append messages that
    grant no vote; a [MsgApp] is built in one place only, [maybeSendAppend].
    [Frame R] says that the preorder [R] on states tolerates that much; every such
    method then moves the state along [R].  The files on safety, on the log and on
    elections instantiate the class with their relation. *)

From S2P Require Import Prelude Pb Quorum Inflights Progress Tracker Confchange.
From S2P Require Import Util Storage Unstable RaftLog ReadOnly Raft.

(** A granted vote. *)
Definition grants (m : Message) : bool :=
  bool_decide (m_Type m = MsgVoteResp) && negb (m_Reject m).

(** The fields that matter to the invariants of the state machine are equal. *)
Record same_core {S} (r r' : raft S) : Prop := {
  c_id : r_id r' = r_id r;
  c_term : r_Term r' = r_Term r;
  c_vote : r_Vote r' = r_Vote r;
  c_state : r_state r' = r_state r;
  c_log : r_raftLog r' = r_raftLog r;
  c_msgs : r_msgs r' = r_msgs r;
}.

(** A message that matters neither to elections nor to the log: no vote and no vote
    request, nothing that replicates, and no acknowledgement of an index. *)
Definition plain (m : Message) : bool :=
  match m_Type m with
  | MsgApp | MsgHeartbeat | MsgVote => false
  | MsgAppResp => m_Reject m || (m_Index m =? 0)
  | MsgVoteResp => m_Reject m
  | _ => true
  end.

(** The classes allow a relation to depend on more and more: a [Frame] looks at no
    field but those above; a [VoteFrame] on the configuration and the votes as
    well; a [SendFrame] on the progress of the followers, as long as it tolerates
    what a leader sends and commits; a [PlainFrame] not even that. *)
Class PlainFrame `{RaftPB} {S : Type} `{Storage S} (R : relation (raft S)) : Prop := {
  plain_preorder :: PreOrder R;
  plain_same r r' : same_core r r' → r_prs r' = r_prs r → R r r';
  plain_send r m : plain m = true → R r (r <| r_msgs ::= λ ms, ms ++ [m] |>);
}.
Class SendFrame `{RaftPB} {S : Type} `{Storage S} (R : relation (raft S)) : Prop := {
  send_plain_frame :: PlainFrame R;
  send_append to b : moves R (maybeSendAppend to b);
  send_heartbeat to ctx : moves R (sendHeartbeat to ctx);
  send_commit : moves R maybeCommit_r;
}.
Class VoteFrame `{RaftPB} {S : Type} `{Storage S} (R : relation (raft S)) : Prop := {
  frame_preorder :: PreOrder R;
  frame_votes r r' :
    same_core r r' → t_Config (r_prs r') = t_Config (r_prs r) →
    t_Votes (r_prs r') = t_Votes (r_prs r) → R r r';
  frame_send r m :
    grants m = false → m_Type m ≠ MsgApp → R r (r <| r_msgs ::= λ ms, ms ++ [m] |>);
  frame_append to b : moves R (maybeSendAppend to b);
  frame_maybeCommit i t : moves R (log_step (λ l, maybeCommit l i t));
  frame_commitTo i : moves R (log_step (λ l, commitTo l i));
}.
Class Frame `{RaftPB} {S : Type} `{Storage S} (R : relation (raft S)) : Prop := {
  frame_vote_frame :: VoteFrame R;
  frame_core r r' : same_core r r' → R r r';
}.

#[export] Hint Extern 0 (Frame _) => exact _ : moves.
#[export] Hint Extern 0 (VoteFrame _) => exact _ : moves.
#[export] Hint Extern 0 (SendFrame _) => exact _ : moves.
#[export] Hint Extern 0 (PlainFrame _) => exact _ : moves.
#[export] Hint Resolve frame_append frame_maybeCommit frame_commitTo : moves.
#[export] Hint Resolve send_append send_heartbeat send_commit : moves.

(** Goals [R r (r <| ... |>)] for a frame, or a record of facts on the fields. *)
Ltac frame_fields :=
  cbn; first [apply plain_same; [split; reflexivity|reflexivity]
             | apply frame_votes; [split; reflexivity|reflexivity|reflexivity]
             | apply frame_core; split; reflexivity
             | split; cbn; (done || lia || reflexivity)].

(** Walks through a method, leaving the calls no lemma covers. *)
Ltac walk :=
  repeat lazymatch goal with
  | |- moves _ (mbind _ _) => apply moves_bind; [exact _| |intros ?]
  | |- moves _ (mret _) => apply moves_ret; exact _
  | |- moves _ get => apply moves_get; exact _
  | |- moves _ (gets _) => apply moves_gets; exact _
  | |- moves _ panic => apply moves_panic
  | |- moves _ (lift _) => apply moves_lift; exact _
  | |- moves _ (log_read _) => apply moves_lift; exact _
  | |- moves _ (when _ _) => apply moves_when; [exact _|]
  | |- moves _ (forM _ _) => apply moves_forM; [exact _|intros ?]
  | |- moves _ (visit _) => unfold visit
  | |- moves _ (let '(_, _) := ?p in _) => destruct p
  | |- moves _ (match ?x with _ => _ end) => destruct x
  | |- moves _ ((λ _, _) _) => cbv beta
  | |- moves _ (modify _) => apply moves_modify; intros ?; try solve [frame_fields]
  | |- moves _ _ => first [solve [eauto with moves] | fail 1]
  end.

Section Send.
Context `{RaftPB} {S : Type} `{Storage S}.
Implicit Types r : raft S.

(** [send] appends one message, possibly completed with the sender and term. *)
Lemma send_spec m r :
  wp True (send m) r (λ _ r', ∃ m', r' = r <| r_msgs ::= λ ms, ms ++ [m'] |> ∧
    m_Type m' = m_Type m ∧ m_To m' = m_To m ∧ m_Reject m' = m_Reject m ∧
    (is_vote_type (m_Type m) = true → m_Term m' = m_Term m ∧ m_Term m ≠ 0)).
Proof.
  unfold send. apply wp_bind, wp_get.
  set (m1 := if m_From m =? None_id then m <| m_From := r_id r |> else m).
  assert (Hm1 : m_Type m1 = m_Type m ∧ m_To m1 = m_To m ∧ m_Reject m1 = m_Reject m ∧
    m_Term m1 = m_Term m) by (unfold m1; by destruct (m_From m =? None_id)).
  destruct Hm1 as (Ht & Hto & Hr & Htm). rewrite Ht, Htm.
  destruct (is_vote_type (m_Type m)).
  - destruct (N.eqb_spec (m_Term m) 0); [by apply wp_panic|]. apply wp_modify.
    exists m1. by split_and!.
  - destruct (negb _); [by apply wp_panic|]. apply wp_modify. eexists. split; [reflexivity|].
    by destruct (_ && _).
Qed.

Lemma send_completes m r :
  wp True (send m) r (λ _ r', ∃ from term,
    r' = r <| r_msgs ::= λ ms, ms ++ [m <| m_From := from |> <| m_Term := term |>] |>).
Proof.
  unfold send. apply wp_bind, wp_get.
  set (m1 := if m_From m =? None_id then m <| m_From := r_id r |> else m).
  assert (Hm1 : ∃ from, m1 = m <| m_From := from |>).
  { unfold m1. destruct (m_From m =? None_id); [by eexists|]. exists (m_From m). by destruct m. }
  destruct Hm1 as [from ->]. cbv zeta. assert (Hold : m <| m_From := from |> = m <| m_From := from |> <| m_Term := m_Term m |>) by by destruct m.
  destruct (is_vote_type _).
  - destruct (_ =? 0); [by apply wp_panic|]. apply wp_modify. exists from, (m_Term m). by rewrite <- Hold.
  - destruct (negb _); [by apply wp_panic|]. apply wp_modify. destruct (_ && _).
    + by exists from, (r_Term r).
    + exists from, (m_Term m). by rewrite <- Hold.
Qed.

(** A relation that tolerates every message but a granted vote. *)
Lemma mk_vote_frame (R : relation (raft S)) :
  PreOrder R →
  (∀ r r', same_core r r' → t_Config (r_prs r') = t_Config (r_prs r) →
     t_Votes (r_prs r') = t_Votes (r_prs r) → R r r') →
  (∀ r m, grants m = false → R r (r <| r_msgs ::= λ ms, ms ++ [m] |>)) →
  (∀ i t, moves R (log_step (λ l, maybeCommit l i t))) →
  (∀ i, moves R (log_step (λ l, commitTo l i))) → VoteFrame R.
Proof.
  intros HP Hc Hs Hm Ht. split; auto.
  assert (Hsend : ∀ m, grants m = false → moves R (send m)).
  { intros m Hg r. eapply wp_mono; [apply send_spec|]. intros [] r' (m' & -> & Hty & _ & Hr & _).
    apply Hs. unfold grants in *. by rewrite Hty, Hr. }
  assert (Hset : ∀ id pr, moves R (pr_set id pr)).
  { intros id pr. apply moves_modify. intros r. apply Hc; by try split. }
  intros to b. unfold maybeSendAppend, sent_entries, send_snapshot, pr_get.
  repeat first [apply Hset | apply Hsend; reflexivity | progress walk].
Qed.
Lemma mk_frame (R : relation (raft S)) :
  PreOrder R → (∀ r r', same_core r r' → R r r') →
  (∀ r m, grants m = false → R r (r <| r_msgs ::= λ ms, ms ++ [m] |>)) →
  (∀ i t, moves R (log_step (λ l, maybeCommit l i t))) →
  (∀ i, moves R (log_step (λ l, commitTo l i))) → Frame R.
Proof. intros HP Hc Hs Hm Ht. split; [apply mk_vote_frame|]; auto. Qed.
End Send.

Section VoteFrames.
Context `{RaftPB} {S : Type} `{Storage S} (R : relation (raft S)) `{!VoteFrame R}.
Implicit Types r : raft S.

Lemma pr_set_frame id pr : moves R (pr_set id pr).
Proof. apply moves_modify. intros r. apply frame_votes; by try split. Qed.
Lemma send_frame m : grants m = false → m_Type m ≠ MsgApp → moves R (send m).
Proof.
  intros Hg Ha r. eapply wp_mono; [apply send_spec|]. intros [] r' (m' & -> & Ht & _ & Hr & _).
  apply frame_send; [unfold grants in *; by rewrite Ht, Hr|by rewrite Ht].
Qed.
(** A [VoteFrame] is a [SendFrame]. *)
#[export] Instance vote_send_frame : SendFrame R.
Proof.
  split; [split; [exact _| |]| | |].
  - intros r r' Hc Hp. apply frame_votes; [done|by rewrite Hp..].
  - intros r m Hp. unfold plain in Hp. apply frame_send; [unfold grants|]; by destruct (m_Type m), (m_Reject m).
  - apply frame_append.
  - intros to ctx. unfold sendHeartbeat. apply moves_bind; [exact _|apply moves_lift; exact _|intros pr].
    apply moves_bind; [exact _|apply moves_get; exact _|intros r]. by apply send_frame.
  - apply moves_bind; [exact _|apply moves_get; exact _|intros r]. apply frame_maybeCommit.
Qed.
End VoteFrames.

#[export] Hint Resolve pr_set_frame : moves.

(** ** The methods *)

Section PlainMethods.
Context `{RaftPB} {S : Type} `{Storage S} (R : relation (raft S)) `{!PlainFrame R}.
Notation Q := (moves R).

Lemma pr_get_frame id : Q (pr_get id).
Proof. apply moves_lift. exact _. Qed.
Lemma ro_step_frame {A} (f : readOnly → outcome (A * readOnly)) : Q (ro_step f).
Proof.
  intros r. unfold wp, ro_step. destruct (f _) as [[a ro]|]; [|done]. apply plain_same; by try split.
Qed.
Lemma send_plain m : plain m = true → Q (send m).
Proof.
  intros Hp r. eapply wp_mono; [apply send_completes|]. intros [] r' (from & t & ->). by apply plain_send.
Qed.
#[local] Hint Resolve pr_get_frame ro_step_frame : moves.
#[local] Hint Extern 3 (moves _ (send _)) => (apply send_plain; reflexivity) : moves.

Lemma sendTimeoutNow_frame to : Q (sendTimeoutNow to).
Proof. unfold sendTimeoutNow. walk. Qed.
Lemma Intn_frame n : Q (Intn n).
Proof.
  intros r. unfold Intn. case_bool_decide; [by apply wp_panic|].
  apply wp_bind, wp_get, wp_bind, wp_put, wp_ret. frame_fields.
Qed.
#[local] Hint Resolve Intn_frame : moves.
Lemma resetRandomizedElectionTimeout_frame : Q resetRandomizedElectionTimeout.
Proof. unfold resetRandomizedElectionTimeout. walk. Qed.
Lemma abortLeaderTransfer_frame : Q abortLeaderTransfer.
Proof. unfold abortLeaderTransfer. walk. Qed.
Lemma increaseUncommittedSize_frame es : Q (increaseUncommittedSize es).
Proof. unfold increaseUncommittedSize. walk. Qed.
Lemma reduceUncommittedSize_frame es : Q (reduceUncommittedSize es).
Proof. unfold reduceUncommittedSize. walk. Qed.
Lemma committedEntryInCurrentTerm_frame : Q committedEntryInCurrentTerm.
Proof. unfold committedEntryInCurrentTerm. walk. Qed.
Lemma respond_frame req i : Q (respond req i).
Proof.
  intros r. unfold respond, responseToReadIndexReq. apply wp_bind, wp_bind, wp_get.
  destruct (_ || _).
  - apply wp_bind, wp_lift; [|done]. intros ctx _. apply wp_bind, wp_modify, wp_ret.
    cbn. frame_fields.
  - apply wp_ret. cbn. destruct (m_From req =? None_id); [apply wp_ret; reflexivity|].
    cbn [negb when]. by apply send_plain.
Qed.
Lemma check_proposals_frame i es : Q (check_proposals i es).
Proof. revert i. induction es as [|e es IH]; intros i; cbn [check_proposals]; walk. Qed.
Lemma reject_append_frame m : Q (reject_append m).
Proof. unfold reject_append. walk. Qed.
Lemma heard_from_frame id : Q (heard_from id).
Proof. unfold heard_from. walk. Qed.
Lemma forward_to_lead_frame m :
  m_Type m = MsgProp ∨ m_Type m = MsgTransferLeader ∨ m_Type m = MsgReadIndex →
  Q (forward_to_lead m).
Proof.
  intros Ht. unfold forward_to_lead. walk. apply send_plain. unfold plain. cbn.
  by destruct Ht as [-> | [-> | ->]].
Qed.
Lemma lower_term_frame m : Q (lower_term m).
Proof. unfold lower_term. walk. Qed.
Lemma send_fuel_frame to : Q (send_fuel to).
Proof. unfold send_fuel. walk. Qed.
Lemma request_prevote_frame t term id : Q (request_vote t MsgPreVote term id).
Proof. unfold request_vote. walk. Qed.
End PlainMethods.

#[export] Hint Resolve pr_get_frame ro_step_frame sendTimeoutNow_frame Intn_frame
  resetRandomizedElectionTimeout_frame abortLeaderTransfer_frame increaseUncommittedSize_frame
  reduceUncommittedSize_frame committedEntryInCurrentTerm_frame respond_frame
  check_proposals_frame reject_append_frame heard_from_frame lower_term_frame send_fuel_frame
  request_prevote_frame : moves.
#[export] Hint Extern 3 (moves _ (send _)) =>
  (apply send_plain; [exact _|reflexivity]) : moves.
#[export] Hint Extern 3 (moves _ (forward_to_lead _)) =>
  (apply forward_to_lead_frame; [exact _|by auto]) : moves.

Section SendMethods.
Context `{RaftPB} {S : Type} `{Storage S} (R : relation (raft S)) `{!SendFrame R}.
Notation Q := (moves R).

Lemma sendAppend_frame to : Q (sendAppend to).
Proof. unfold sendAppend. walk. Qed.
#[local] Hint Resolve sendAppend_frame : moves.
Lemma bcastAppend_frame : Q bcastAppend.
Proof. unfold bcastAppend. walk. Qed.
Lemma bcastHeartbeatWithCtx_frame ctx : Q (bcastHeartbeatWithCtx ctx).
Proof. unfold bcastHeartbeatWithCtx. walk. Qed.
#[local] Hint Resolve bcastAppend_frame bcastHeartbeatWithCtx_frame : moves.
Lemma bcastHeartbeat_frame : Q bcastHeartbeat.
Proof. unfold bcastHeartbeat. walk. Qed.
Lemma sendMsgReadIndexResponse_frame m : Q (sendMsgReadIndexResponse m).
Proof. unfold sendMsgReadIndexResponse. walk. Qed.
#[local] Hint Resolve sendMsgReadIndexResponse_frame : moves.
Lemma releasePendingReadIndexMessages_frame : Q releasePendingReadIndexMessages.
Proof. unfold releasePendingReadIndexMessages. walk. Qed.
Lemma leader_ReadIndex_frame m : Q (leader_ReadIndex m).
Proof. unfold leader_ReadIndex. walk. Qed.
Lemma send_appends_frame n to : Q (send_appends n to).
Proof. induction n as [|n IH]; cbn [send_appends]; walk. Qed.
End SendMethods.

#[export] Hint Resolve sendAppend_frame bcastAppend_frame bcastHeartbeatWithCtx_frame
  bcastHeartbeat_frame sendMsgReadIndexResponse_frame releasePendingReadIndexMessages_frame
  leader_ReadIndex_frame send_appends_frame : moves.

Section Methods.
Context `{RaftPB} {S : Type} `{Storage S} (R : relation (raft S)) `{!VoteFrame R}.
Notation Q := (moves R).

Lemma pr_modify_frame id f : Q (pr_modify id f).
Proof. unfold pr_modify. walk. Qed.
#[local] Hint Resolve pr_modify_frame : moves.
Lemma reset_progress_frame id : Q (reset_progress id).
Proof. unfold reset_progress. walk. Qed.
Lemma request_vote_frame t vm term id : vm = MsgVote ∨ vm = MsgPreVote → Q (request_vote t vm term id).
Proof.
  intros [-> | ->]; unfold request_vote; walk; apply send_frame; (exact _ || done).
Qed.
Lemma leader_AppResp_reject_frame m : Q (leader_AppResp_reject m).
Proof. unfold leader_AppResp_reject. walk. Qed.
Lemma leader_AppResp_accept_frame m : Q (leader_AppResp_accept m).
Proof. unfold leader_AppResp_accept. walk. Qed.
#[local] Hint Resolve leader_AppResp_reject_frame leader_AppResp_accept_frame : moves.
Lemma leader_AppResp_frame m : Q (leader_AppResp m).
Proof. unfold leader_AppResp. walk. Qed.
Lemma leader_HeartbeatResp_frame m : Q (leader_HeartbeatResp m).
Proof. unfold leader_HeartbeatResp. walk. Qed.
Lemma leader_SnapStatus_frame m : Q (leader_SnapStatus m).
Proof. unfold leader_SnapStatus. walk. Qed.
Lemma leader_Unreachable_frame m : Q (leader_Unreachable m).
Proof. unfold leader_Unreachable. walk. Qed.
Lemma leader_TransferLeader_frame m : Q (leader_TransferLeader m).
Proof. unfold leader_TransferLeader. walk. Qed.
Lemma leader_switched_frame : Q leader_switched.
Proof. unfold leader_switched. walk. Qed.
Lemma handleHeartbeat_frame m : Q (handleHeartbeat m).
Proof. unfold handleHeartbeat. walk. Qed.
End Methods.

#[export] Hint Resolve pr_modify_frame reset_progress_frame leader_AppResp_reject_frame
  leader_AppResp_accept_frame leader_AppResp_frame leader_HeartbeatResp_frame
  leader_SnapStatus_frame leader_Unreachable_frame leader_TransferLeader_frame
  leader_switched_frame handleHeartbeat_frame : moves.
#[export] Hint Extern 4 (moves _ (send _)) =>
  (apply send_frame; [exact _|reflexivity|discriminate]) : moves.

(** ** The methods that change the configuration or the votes *)

Section ConfigMethods.
Context `{RaftPB} {S : Type} `{Storage S} (R : relation (raft S)) `{!Frame R}.
Notation Q := (moves R).

Lemma poll_frame id v : Q (poll id v).
Proof. unfold poll. walk. Qed.
Lemma switchToConfig_frame cfg prs : Q (switchToConfig cfg prs).
Proof. unfold switchToConfig. walk. Qed.
#[local] Hint Resolve switchToConfig_frame : moves.
Lemma applyConfChange_frame cc : Q (applyConfChange cc).
Proof. unfold applyConfChange. walk. Qed.
Lemma restore_config_frame cs : Q (restore_config cs).
Proof. unfold restore_config. walk. Qed.
End ConfigMethods.

#[export] Hint Resolve poll_frame switchToConfig_frame applyConfChange_frame
  restore_config_frame : moves.
