(* ===== verification/RaftSafety.v ===== *)
(** * Monotonicity of the raft state machine

    Most methods of [raft] never touch the term, the vote or the applied index,
    never lower the committed index, and only append to the outgoing messages:
    they are [quiet].  What the others may do is stated by [progresses], the
    relation between the states before and after a call of [Step]. *)

From S2P Require Import Prelude Pb Quorum Inflights Progress Tracker Confchange.
From S2P Require Import Util Storage Unstable RaftLog ReadOnly Raft RaftFrame.

(** The state machine's messages so far followed by some without a granted vote. *)
Definition quiet_msgs (ms ms' : list Message) : Prop :=
  ∃ new, ms' = ms ++ new ∧ Forall (λ m, grants m = false) new.

Record quiet {S} (r r' : raft S) : Prop := {
  q_id : r_id r' = r_id r;
  q_term : r_Term r' = r_Term r;
  q_vote : r_Vote r' = r_Vote r;
  q_applied : l_applied (r_raftLog r') = l_applied (r_raftLog r);
  q_storage : l_storage (r_raftLog r') = l_storage (r_raftLog r);
  q_committed : l_committed (r_raftLog r) ≤ l_committed (r_raftLog r');
  q_msgs : quiet_msgs (r_msgs r) (r_msgs r');
}.

#[export] Instance quiet_msgs_preorder : PreOrder quiet_msgs.
Proof.
  split.
  - intros ms. exists []. by rewrite app_nil_r.
  - intros a b c (n & -> & Hn) (n' & -> & Hn'). exists (n ++ n'). rewrite app_assoc. split; [done|].
    by apply Forall_app.
Qed.

#[export] Instance quiet_preorder {S} : PreOrder (@quiet S).
Proof.
  split.
  - intros r. by split.
  - intros a b c [] []. split; try congruence; [lia|by etrans].
Qed.

Section Quiet.
Context `{RaftPB} {S : Type} `{Storage S}.
Notation R := (M (raft S)).
Implicit Types r : raft S.

(** A log method that keeps the applied index and the storage and does not
    lower the committed index. *)
Definition quiet_log {A} (f : raftLog S → outcome (A * raftLog S)) : Prop :=
  ∀ l a l', f l = Ok (a, l') → l_applied l' = l_applied l ∧ l_storage l' = l_storage l ∧
    l_committed l ≤ l_committed l'.

Lemma log_step_quiet {A} (f : raftLog S → outcome (A * raftLog S)) :
  quiet_log f → moves quiet (log_step f).
Proof.
  intros Hf r. unfold wp, log_step. destruct (f (r_raftLog r)) as [[a l]|] eqn:E; [|done].
  destruct (Hf _ _ _ E) as (? & ? & ?). frame_fields.
Qed.

Lemma maybeCommit_quiet mci term : quiet_log (λ l, maybeCommit l mci term).
Proof.
  intros l a l'. unfold maybeCommit, commitTo. destruct (N.ltb_spec (l_committed l) mci);
    [|intros [= <- <-]; by split_and!].
  destruct (log_term l mci) as [t|]; [|done]. cbn. destruct (zeroTermOnErrCompacted t); [|done].
  cbn. destruct (_ =? term); [|intros [= <- <-]; by split_and!].
  destruct (lastIndex l); [|done]. cbn. destruct (_ <? mci); intros [= <- <-]; split_and!; cbn; lia || done.
Qed.

Lemma commitTo_quiet c : quiet_log (λ l, commitTo l c).
Proof.
  intros l a l'. unfold commitTo. destruct (N.ltb_spec (l_committed l) c);
    [|intros [= <- <-]; by split_and!].
  destruct (lastIndex l); [|done]. cbn. destruct (_ <? c); intros [= <- <-]; split_and!; cbn; lia || done.
Qed.

Lemma log_append_quiet es : quiet_log (λ l, log_append l es).
Proof.
  intros l a l'. unfold log_append. destruct es as [|e es].
  - destruct (lastIndex l); [|done]. intros [= <- <-]. by split_and!.
  - destruct (_ <? _); [done|]. destruct (truncateAndAppend _ _); [|done].
    cbn [mbind outcome_bind]. destruct (lastIndex _); [|done]. intros [= <- <-]. by split_and!.
Qed.

Lemma maybeAppend_quiet index term c es : quiet_log (λ l, maybeAppend l index term c es).
Proof.
  intros l a l'. unfold maybeAppend. destruct (matchTerm _ _ _) as [[]|]; cbn [mbind outcome_bind];
    [|intros [= <- <-]; by split_and!|done].
  destruct (findConflict l es) as [ci|]; [|done]. cbn [mbind outcome_bind].
  set (X := if ci =? 0 then _ else _). destruct X as [l1|] eqn:HX; [|done]. cbn [mbind outcome_bind].
  assert (H1 : l_applied l1 = l_applied l ∧ l_storage l1 = l_storage l ∧
    l_committed l ≤ l_committed l1).
  { unfold X in HX. destruct (ci =? 0); [by injection HX as <-|].
    destruct (ci <=? _); [done|]. destruct (_ <? _); [done|].
    destruct (sliceN _ _ _) as [rest|]; [|done]. cbn [mbind outcome_bind] in HX.
    destruct (log_append l rest) as [[li l2]|] eqn:Ha; [|done]. injection HX as <-.
    by apply (log_append_quiet rest l li). }
  destruct (commitTo l1 _) as [[b l2]|] eqn:Hc; [|done]. cbn. intros [= <- <-].
  apply commitTo_quiet in Hc. destruct H1 as (? & ? & ?), Hc as (? & ? & ?).
  split_and!; [congruence|congruence|lia].
Qed.
End Quiet.

#[export] Hint Resolve log_step_quiet maybeCommit_quiet commitTo_quiet log_append_quiet
  maybeAppend_quiet : moves.

(** ** The quiet methods *)

Section QuietMethods.
Context `{RaftPB} {S : Type} `{Storage S}.
Notation Q := (moves (@quiet S)).

Lemma quiet_send (r : raft S) m : grants m = false → quiet r (r <| r_msgs ::= λ ms, ms ++ [m] |>).
Proof. intros Hg. split; cbn; try done. exists [m]. by repeat constructor. Qed.

#[export] Instance quiet_frame : Frame (@quiet S).
Proof.
  apply mk_frame; [exact _| | | |].
  - intros r r' Hc. split; rewrite ?(c_log _ _ Hc), ?(c_msgs _ _ Hc); (done || apply Hc).
  - apply quiet_send.
  - intros i t. eauto with moves.
  - intros i. eauto with moves.
Qed.

Lemma appendEntry_quiet es : Q (appendEntry es).
Proof. unfold appendEntry. walk. Qed.
#[local] Hint Resolve appendEntry_quiet : moves.
Lemma leader_Prop_quiet m : Q (leader_Prop m).
Proof. unfold leader_Prop. walk. Qed.
Lemma handleAppendEntries_quiet m : Q (handleAppendEntries m).
Proof. unfold handleAppendEntries. walk. Qed.
End QuietMethods.

#[export] Hint Resolve appendEntry_quiet leader_Prop_quiet handleAppendEntries_quiet : moves.

(** ** The methods that change the term or the vote *)

(** What a method may do that is not quiet: raise the term, and vote when no vote
    was cast in the term. *)
Record advances {S} (r r' : raft S) : Prop := {
  a_id : r_id r' = r_id r;
  a_applied : l_applied (r_raftLog r') = l_applied (r_raftLog r);
  a_storage : l_storage (r_raftLog r') = l_storage (r_raftLog r);
  a_committed : l_committed (r_raftLog r) ≤ l_committed (r_raftLog r');
  a_term : r_Term r ≤ r_Term r';
  a_vote : r_Term r' = r_Term r → r_Vote r ≠ None_id → r_Vote r' = r_Vote r;
  a_msgs : quiet_msgs (r_msgs r) (r_msgs r');
}.

#[export] Instance advances_preorder {S} : PreOrder (@advances S).
Proof.
  split.
  - intros r. by split.
  - intros a b c [] []. split; try congruence; [lia|lia| |by etrans].
    intros Ht Hv. assert (r_Term b = r_Term a) by lia. rewrite a_vote1; [by apply a_vote0|lia|].
    by rewrite a_vote0.
Qed.

Lemma quiet_advances {S} (r r' : raft S) : quiet r r' → advances r r'.
Proof. intros []. split; try done. lia. Qed.

(** [m] advances and raises the term by at most [n]. *)
Definition climbs {S A} (n : N) (m : M (raft S) A) (r : raft S) : Prop :=
  r_Term r + n < two64 →
  wp True m r (λ _ r', advances r r' ∧ r_Term r' ≤ r_Term r + n).

Section Climbs.
Context `{RaftPB} {S : Type} `{Storage S}.
Implicit Types r : raft S.

Lemma climbs_quiet {A} n (m : M (raft S) A) r : moves quiet m → climbs n m r.
Proof.
  intros Hm Hr. eapply wp_mono; [apply Hm|]. cbn. intros a r' Hq. split.
  - by apply quiet_advances.
  - rewrite (q_term _ _ Hq). lia.
Qed.

Lemma climbs_bind {A B} n n1 n2 (m : M (raft S) A) (f : A → M (raft S) B) r :
  n1 + n2 ≤ n → climbs n1 m r → (∀ a r', climbs n2 (f a) r') → climbs n (m ≫= f) r.
Proof.
  intros Hn Hm Hf Hr. apply wp_bind. eapply wp_mono; [apply Hm; lia|]. cbn.
  intros a r1 [Ha Hb]. eapply wp_mono; [apply Hf; lia|]. cbn. intros b r2 [Ha2 Hb2].
  split; [by etrans|lia].
Qed.

(** A read of the state, and quiet steps before or after. *)
Lemma climbs_get {B} n (f : raft S → M (raft S) B) r : climbs n (f r) r → climbs n (get ≫= f) r.
Proof. intros Hf Hr. apply wp_bind, wp_get. by apply Hf. Qed.
Lemma climbs_after {A B} n (m : M (raft S) A) (f : A → M (raft S) B) r :
  moves quiet m → (∀ a r', climbs n (f a) r') → climbs n (m ≫= f) r.
Proof. intros Hm Hf. apply (climbs_bind n 0 n); [lia|by apply climbs_quiet|done]. Qed.
Lemma climbs_before {A B} n (m : M (raft S) A) (f : A → M (raft S) B) r :
  climbs n m r → (∀ a, moves quiet (f a)) → climbs n (m ≫= f) r.
Proof.
  intros Hm Hf. apply (climbs_bind n n 0); [lia|done|]. intros. by apply climbs_quiet.
Qed.
Lemma climbs_le {A} n k (m : M (raft S) A) r : n ≤ k → climbs n m r → climbs k m r.
Proof.
  intros Hn Hm Hr. eapply wp_mono; [apply Hm; lia|]. cbn. intros ?? []. split; [done|lia].
Qed.

(** [reset] is quiet but for the change of term. *)
Definition settle (term : N) r : raft S :=
  if r_Term r =? term then r else r <| r_Term := term |> <| r_Vote := None_id |>.

Lemma reset_spec term r : wp True (reset term) r (λ _ r', quiet (settle term r) r').
Proof.
  unfold reset. apply wp_bind, wp_get, wp_bind.
  assert (Hw : wp True (when (negb (r_Term r =? term))
    (modify (λ r, r <| r_Term := term |> <| r_Vote := None_id |>))) r (λ _ r', r' = settle term r)).
  { unfold settle. by destruct (r_Term r =? term). }
  eapply wp_mono; [exact Hw|]. cbn. intros _ ? ->.
  match goal with |- wp True ?m _ _ => assert (Hm : moves (@quiet S) m) by walk end.
  apply Hm.
Qed.

Lemma settle_advances term r : r_Term r ≤ term → advances r (settle term r).
Proof.
  intros Ht. unfold settle. destruct (N.eqb_spec (r_Term r) term); [done|].
  by split; cbn.
Qed.
Lemma settle_term term r : r_Term (settle term r) = term.
Proof. unfold settle. by destruct (N.eqb_spec (r_Term r) term). Qed.

Lemma becomeFollower_spec term lead r :
  wp True (becomeFollower term lead) r (λ _ r', quiet (settle term r) r').
Proof.
  unfold becomeFollower. apply wp_bind. eapply wp_mono; [apply reset_spec|]. cbn.
  intros _ r' Hq. etrans; [exact Hq|]. frame_fields.
Qed.

Lemma becomeFollower_climbs term lead n r :
  r_Term r ≤ term ≤ r_Term r + n → climbs n (becomeFollower term lead) r.
Proof.
  intros Ht Hr. eapply wp_mono; [apply becomeFollower_spec|]. cbn. intros _ r' Hq. split.
  - transitivity (settle term r); [apply settle_advances; lia|by apply quiet_advances].
  - rewrite (q_term _ _ Hq), settle_term. lia.
Qed.

Lemma becomeCandidate_climbs r : climbs 1 becomeCandidate r.
Proof.
  unfold becomeCandidate. apply climbs_get. intros Hr. destruct (decide _); [by apply wp_panic|].
  apply wp_bind. eapply wp_mono; [apply reset_spec|]. cbn. intros _ r1 Hq.
  rewrite add64_small in Hq by lia. pose proof (q_term _ _ Hq) as Ht. rewrite settle_term in Ht.
  pose proof (settle_advances (r_Term r + 1) r ltac:(lia)) as Hs. destruct Hq, Hs. split.
  - split; cbn; try congruence; try lia. by etrans.
  - cbn. lia.
Qed.

Lemma becomePreCandidate_quiet : moves (@quiet S) becomePreCandidate.
Proof. unfold becomePreCandidate. walk. Qed.

Lemma becomeLeader_climbs r : climbs 0 becomeLeader r.
Proof.
  unfold becomeLeader. apply climbs_get. destruct (decide _); [by intros _; apply wp_panic|].
  apply climbs_before; [|intros []; walk].
  intros Hr. eapply wp_mono; [apply reset_spec|]. cbn. intros _ r' Hq.
  unfold settle in Hq. rewrite N.eqb_refl in Hq. split; [by apply quiet_advances|].
  rewrite (q_term _ _ Hq). lia.
Qed.

Lemma campaign_with_climbs after t n r :
  (∀ r', climbs n after r') → climbs (if decide (t = campaignPreElection) then n else 1)
    (campaign_with after t) r.
Proof.
  intros Hafter. unfold campaign_with.
  destruct (decide (t = campaignPreElection)) as [->|Hne].
  - rewrite bool_decide_eq_true_2 by done.
    apply climbs_after; [apply becomePreCandidate_quiet|]. intros _ r1. apply climbs_get.
    apply climbs_after; [walk|]. intros [[g rj] res] r2. destruct (decide (res = VoteWon)); [apply Hafter|].
    apply climbs_quiet. walk.
  - rewrite bool_decide_eq_false_2 by done.
    apply (climbs_bind 1 1 0); [lia|apply becomeCandidate_climbs|]. intros _ r1. apply climbs_get.
    apply climbs_after; [walk|]. intros [[g rj] res] r2.
    destruct (decide (res = VoteWon)); [apply becomeLeader_climbs|].
    apply climbs_quiet. walk. apply request_vote_frame; [exact _|]. by left.
Qed.

Lemma campaign_climbs t r : climbs 1 (campaign t) r.
Proof.
  unfold campaign. eapply climbs_le; [|apply (campaign_with_climbs _ t 1)].
  - by destruct (decide _).
  - intros r'. apply (campaign_with_climbs _ campaignElection 0). intros. apply climbs_quiet. walk.
Qed.

Lemma hup_climbs t r : climbs 1 (hup t) r.
Proof.
  unfold hup. apply climbs_get. destruct (decide _); [apply climbs_quiet; walk|].
  destruct (negb _); [apply climbs_quiet; walk|]. apply climbs_after; [walk|]. intros ents r'.
  destruct (_ && _); [apply climbs_quiet; walk|apply campaign_climbs].
Qed.
End Climbs.

(** ** The handlers of [Step] *)

Section Handlers.
Context `{RaftPB} {S : Type} `{Storage S}.
Implicit Types r : raft S.

(** The restored branch of [restore] raises the committed index. *)
Lemma restore_climbs s r : climbs 1 (restore s) r.
Proof.
  intros Hr. unfold restore. apply wp_bind, wp_get.
  destruct (N.leb_spec (s_Index s) (l_committed (r_raftLog r))) as [|Hc].
  { apply wp_ret. split; [done|lia]. }
  destruct (negb _).
  { rewrite add64_small by lia.
    assert (Hb : climbs 1 (becomeFollower (r_Term r + 1) None_id;; mret false) r).
    { apply climbs_before; [|intros; walk]. apply becomeFollower_climbs. lia. }
    by apply Hb. }
  destruct (negb _). { apply wp_ret. split; [done|lia]. }
  apply wp_bind, wp_lift; [|done]. intros b _. destruct b.
  { apply (climbs_quiet 1); [walk|done]. }
  apply wp_bind, wp_modify.
  set (r1 := r <| r_raftLog ::= _ |> <| r_prs ::= _ |>).
  assert (H1 : quiet r r1) by (split; cbn; try done; lia).
  match goal with |- wp True ?m _ _ => assert (Hm : moves (@quiet S) m) by walk end.
  eapply wp_mono; [apply Hm|]. cbn. intros a r2 Hq.
  assert (Hq2 : quiet r r2) by (by etrans). split; [by apply quiet_advances|].
  rewrite (q_term _ _ Hq2). lia.
Qed.

Lemma handleSnapshot_climbs m r : climbs 1 (handleSnapshot m) r.
Proof.
  unfold handleSnapshot. apply climbs_before; [apply restore_climbs|]. intros b. walk.
Qed.

Lemma stepFollower_climbs m r : climbs 1 (stepFollower m) r.
Proof.
  unfold stepFollower. apply climbs_get.
  destruct (m_Type m) eqn:Ht; try (apply climbs_quiet; walk; fail).
  - apply climbs_after; [walk|]. intros _ r1. apply climbs_before; [|intros; walk].
    apply handleSnapshot_climbs.
  - apply climbs_before; [|intros; walk]. apply hup_climbs.
Qed.

Lemma candidate_vote_climbs m r : climbs 1 (candidate_vote m) r.
Proof.
  unfold candidate_vote. apply climbs_after; [walk|]. intros [[g rj] res] r1. apply climbs_get.
  destruct res.
  - apply climbs_quiet. walk.
  - apply becomeFollower_climbs. lia.
  - destruct (decide _); [apply campaign_climbs|].
    apply (climbs_bind 1 0 1); [lia|apply becomeLeader_climbs|]. intros. apply climbs_quiet. walk.
Qed.

(** The messages of a leader carry its term. *)
Definition from_leader (t : MessageType) : bool :=
  match t with MsgApp | MsgHeartbeat | MsgSnap => true | _ => false end.

Lemma stepCandidate_climbs m r :
  (from_leader (m_Type m) = true → m_Term m = r_Term r) → climbs 1 (stepCandidate m) r.
Proof.
  intros Hterm. unfold stepCandidate. apply climbs_get.
  assert (Hbf : m_Term m = r_Term r → climbs 0 (becomeFollower (m_Term m) (m_From m)) r).
  { intros Ht. apply becomeFollower_climbs. lia. }
  destruct (m_Type m).
  all: try (apply climbs_quiet; walk; fail).
  all: try (case_decide; [apply climbs_before; [apply candidate_vote_climbs|intros; walk]
                         |apply climbs_quiet; walk]; fail).
  - apply (climbs_bind 1 0 1); [lia|by apply Hbf; auto|]. intros. apply climbs_quiet. walk.
  - apply (climbs_bind 1 0 1); [lia|by apply Hbf; auto|]. intros.
    apply climbs_before; [apply handleSnapshot_climbs|intros; walk].
  - apply (climbs_bind 1 0 1); [lia|by apply Hbf; auto|]. intros. apply climbs_quiet. walk.
Qed.

Lemma leader_CheckQuorum_climbs r : climbs 0 leader_CheckQuorum r.
Proof.
  unfold leader_CheckQuorum. apply climbs_get.
  intros Hr. apply wp_bind. 
  match goal with |- wp True ?m _ _ => assert (Hm : moves (@quiet S) m) by walk end.
  eapply wp_mono; [apply Hm|]. cbn -[when]. intros _ r1 Hq. apply wp_bind, wp_gets, wp_bind.
  assert (Hw : wp True (when (negb (QuorumActive (r_prs r1))) (becomeFollower (r_Term r) None_id)) r1
    (λ _ r2, advances r1 r2 ∧ r_Term r2 ≤ r_Term r1 + 0)).
  { rewrite <- (q_term _ _ Hq). destruct (negb _); cbn [when].
    - apply becomeFollower_climbs; [lia|]. rewrite (q_term _ _ Hq). lia.
    - apply wp_ret. split; [done|lia]. }
  eapply wp_mono; [exact Hw|]. cbn -[when]. intros _ r2 [Ha Hb].
  match goal with |- wp True ?m _ _ => assert (Hm2 : moves (@quiet S) m) by walk end.
  eapply wp_mono; [apply Hm2|]. cbn. intros _ r3 Hq3.
  rewrite (q_term _ _ Hq) in Hb. rewrite (q_term _ _ Hq3). split; [|lia].
  etrans; [by apply quiet_advances|]. etrans; [exact Ha|by apply quiet_advances].
Qed.

Lemma stepLeader_climbs m r : climbs 0 (stepLeader m) r.
Proof.
  unfold stepLeader. destruct (m_Type m).
  all: try (apply climbs_quiet; walk; fail).
  apply climbs_before; [apply leader_CheckQuorum_climbs|intros; walk].
Qed.

Lemma step_climbs m r :
  (from_leader (m_Type m) = true → m_Term m = r_Term r) → climbs 1 (step m) r.
Proof.
  intros Ht. unfold step. apply climbs_get. destruct (r_state r).
  - apply stepFollower_climbs.
  - by apply stepCandidate_climbs.
  - apply (climbs_le 0); [lia|]. apply stepLeader_climbs.
  - by apply stepCandidate_climbs.
Qed.

(** After the term is handled, a message of a leader or a vote request that is
    processed further has the current term, if any. *)
Lemma step_term_spec m r :
  wp True (step_term m) r (λ go r', advances r r' ∧
    r_Term r' ≤ N.max (r_Term r) (m_Term m) ∧
    (go = true → from_leader (m_Type m) = true ∨ m_Type m = MsgVote → m_Term m ≠ 0 →
     m_Term m = r_Term r')).
Proof.
  unfold step_term. apply wp_bind, wp_get.
  destruct (N.eqb_spec (m_Term m) 0) as [Hz|Hz].
  { apply wp_ret. split_and!; [done|lia|done]. }
  destruct (N.ltb_spec (r_Term r) (m_Term m)) as [Hlt|Hge].
  - unfold higher_term. apply wp_bind, wp_get. destruct (_ && _ && _).
    { apply wp_bind, wp_lift; [|done]. intros _ _. apply wp_ret. split_and!; [done|lia|done]. }
    apply wp_bind.
    assert (Hbf : ∀ lead, wp True (becomeFollower (m_Term m) lead) r
      (λ _ r', advances r r' ∧ r_Term r' = m_Term m)).
    { intros lead. eapply wp_mono; [apply becomeFollower_spec|]. cbn. intros _ r' Hq.
      rewrite (q_term _ _ Hq), settle_term. split; [|done].
      transitivity (settle (m_Term m) r); [apply settle_advances; lia|by apply quiet_advances]. }
    assert (Hret : wp True (mret ()) r (λ _ r', advances r r' ∧ r_Term r' = r_Term r)) by done.
    destruct (m_Type m); try destruct (m_Reject m);
      (eapply wp_mono; [first [apply Hbf|exact Hret]|]; cbn; intros _ r' [? ->]; split_and!;
       [done|lia|try done; by intros _ [|]]).
  - destruct (N.ltb_spec (m_Term m) (r_Term r)).
    + apply wp_bind. eapply wp_mono; [apply (lower_term_frame quiet)|]. cbn. intros _ r' Hq.
      split_and!; [by apply quiet_advances|rewrite (q_term _ _ Hq); lia|done].
    + apply wp_ret. split_and!; [done|lia|]. intros. lia.
Qed.

(** The answer to a vote request: a granted vote is recorded. *)
Lemma step_vote_spec m r :
  m_Type m = MsgVote ∨ m_Type m = MsgPreVote →
  wp True (step_vote m) r (λ _ r', ∃ reply,
    r_msgs r' = r_msgs r ++ [reply] ∧ r_id r' = r_id r ∧ r_Term r' = r_Term r ∧
    r_raftLog r' = r_raftLog r ∧
    ((r_Vote r' = r_Vote r ∧ grants reply = false) ∨
     (r_Vote r' = m_From m ∧ (r_Vote r = m_From m ∨ r_Vote r = None_id) ∧ m_Type m = MsgVote ∧
      m_Term m ≠ 0 ∧ m_Term reply = m_Term m ∧ m_To reply = m_From m))).
Proof.
  intros Htype. unfold step_vote. apply wp_bind, wp_get, wp_bind.
  assert (Hup : wp True (if can_vote r m then log_read (λ l, isUpToDate l (m_Index m) (m_LogTerm m))
      else mret false) r (λ up r', r' = r ∧ (up = true → can_vote r m = true))).
  { destruct (can_vote r m); [by apply wp_lift|done]. }
  eapply wp_mono; [exact Hup|]. cbn. intros up ? [-> Hcan].
  apply wp_bind, wp_lift; [|done]. intros _ _. apply wp_bind, wp_lift; [|done]. intros rt Hrt.
  assert (Hvt : is_vote_type rt = true ∧ (rt = MsgVoteResp → m_Type m = MsgVote)).
  { destruct Htype as [E|E]; rewrite E in *; cbn in Hrt; injection Hrt as <-; done. }
  destruct Hvt as [Hvt Hrv]. destruct up.
  - specialize (Hcan eq_refl). apply wp_bind. eapply wp_mono; [apply send_spec|].
    cbn. intros _ r1 (reply & -> & Ht & Hto & Hrej & Htm). specialize (Htm Hvt) as [Htm Hnz].
    destruct Htype as [E|E]; rewrite E in *.
    + cbn. exists reply. split_and!; try done. right. split_and!; try done.
      unfold can_vote in Hcan. rewrite E in Hcan. cbn in Hcan. rewrite orb_false_r in Hcan.
      apply orb_prop in Hcan as [->%N.eqb_eq|[->%N.eqb_eq _]%andb_prop]; auto.
    + cbn. exists reply. split_and!; try done. left. split; [done|]. cbn in Hrt.
      injection Hrt as <-. unfold grants. by rewrite Ht.
  - eapply wp_mono; [apply send_spec|]. cbn. intros _ r1 (reply & -> & Ht & Hto & Hrej & Htm).
    exists reply. split_and!; try done. left. split; [done|]. unfold grants. rewrite Hrej.
    by destruct (bool_decide _).
Qed.

(** What one call may do: everything [advances] allows, and grant a vote to the
    recorded candidate in the current term. *)
Record progresses (bound : N) r r' : Prop := {
  p_id : r_id r' = r_id r;
  p_applied : l_applied (r_raftLog r') = l_applied (r_raftLog r);
  p_storage : l_storage (r_raftLog r') = l_storage (r_raftLog r);
  p_committed : l_committed (r_raftLog r) ≤ l_committed (r_raftLog r');
  p_term : r_Term r ≤ r_Term r' ≤ bound;
  p_vote : r_Term r' = r_Term r → r_Vote r ≠ None_id → r_Vote r' = r_Vote r;
  p_msgs : ∃ new, r_msgs r' = r_msgs r ++ new ∧
    Forall (λ m, grants m = true →
                 m_Term m = r_Term r' ∧ m_To m = r_Vote r' ∧ r_Vote r' ≠ None_id) new;
}.

Lemma advances_progresses bound r r' :
  advances r r' → r_Term r' ≤ bound → progresses bound r r'.
Proof.
  intros Ha Hb. destruct (a_msgs _ _ Ha) as (new & Hm & Hn).
  split; try apply Ha. { split; [apply Ha|done]. }
  exists new. split; [done|]. eapply Forall_impl; [exact Hn|]. cbn. intros m -> [=].
Qed.

Lemma advances_progresses_trans bound r r1 r2 :
  advances r r1 → progresses bound r1 r2 → progresses bound r r2.
Proof.
  intros Ha Hp. pose proof (a_term _ _ Ha) as Ht1. pose proof (p_term _ _ _ Hp) as Ht2.
  split.
  - by rewrite (p_id _ _ _ Hp), (a_id _ _ Ha).
  - by rewrite (p_applied _ _ _ Hp), (a_applied _ _ Ha).
  - by rewrite (p_storage _ _ _ Hp), (a_storage _ _ Ha).
  - etrans; [apply (a_committed _ _ Ha)|apply (p_committed _ _ _ Hp)].
  - lia.
  - intros Ht Hv. assert (Hv1 : r_Vote r1 = r_Vote r) by (apply (a_vote _ _ Ha); [lia|done]).
    rewrite (p_vote _ _ _ Hp); [done|lia|by rewrite Hv1].
  - destruct (a_msgs _ _ Ha) as (n1 & Hm1 & Hn1), (p_msgs _ _ _ Hp) as (n2 & Hm2 & Hn2).
    exists (n1 ++ n2).
    rewrite Hm2, Hm1, app_assoc. split; [done|]. apply Forall_app. split; [|done].
    eapply Forall_impl; [exact Hn1|]. cbn. intros m -> [=].
Qed.

(** What no peer sends: a leader's message without a term, a vote request without a
    sender. *)
Definition sane (m : Message) : Prop :=
  (from_leader (m_Type m) = true → m_Term m ≠ 0) ∧
  (m_Type m = MsgVote → m_From m ≠ None_id).

Lemma Step_progresses m r bound :
  sane m → N.max (r_Term r) (m_Term m) + 1 ≤ bound → bound < two64 →
  wp True (Step m) r (λ _ r', progresses bound r r').
Proof.
  intros [Hl Hf] Hb Hbb. unfold Step. apply wp_bind. eapply wp_mono; [apply step_term_spec|].
  cbn. intros go r1 (Ha & Ht1 & Hgo). destruct go; cbn [negb].
  2:{ apply wp_ret. apply advances_progresses; [done|lia]. }
  specialize (Hgo eq_refl).
  assert (Hclimb : ∀ A (k : M (raft S) A), climbs 1 k r1 → wp True k r1 (λ _ r', progresses bound r r')).
  { intros A k Hk. eapply wp_mono; [apply Hk; lia|]. cbn. intros _ r2 [Ha2 Hb2].
    apply (advances_progresses_trans _ _ r1); [done|]. apply advances_progresses; [done|lia]. }
  assert (Hvote : m_Type m = MsgVote ∨ m_Type m = MsgPreVote →
    wp True (step_vote m;; mret (M := M (raft S)) (@None error)) r1 (λ _ r', progresses bound r r')).
  { intros Htype. apply wp_bind. eapply wp_mono; [by apply step_vote_spec|]. cbn.
    intros _ r2 (reply & Hm & Hid & Htm & Hlog & Hcase).
    apply (advances_progresses_trans _ _ r1); [done|]. split; rewrite ?Hlog, ?Htm; try done; try lia.
    exists [reply]. split; [done|]. constructor; [|done].
    destruct Hcase as [[_ ->]|(-> & _ & Hmv & Hnz & -> & ->)]; [done|]. intros _.
    split_and!; [apply Hgo; auto|done|by apply Hf]. }
  destruct (m_Type m) eqn:Htype; try (apply Hvote; auto; fail).
  1: { apply (Hclimb (option error)). apply climbs_get.
       apply climbs_before; [apply hup_climbs|intros; walk]. }
  all: apply (Hclimb (option error)); apply step_climbs; intros Hfl;
    rewrite Htype in Hfl; exact (Hgo (or_introl Hfl) (Hl Hfl)).
Qed.
End Handlers.

Section Ticks.
Context `{RaftPB} {S : Type} `{Storage S}.
Implicit Types r : raft S.

Lemma progresses_refl bound r : r_Term r ≤ bound → progresses bound r r.
Proof. intros Hb. apply advances_progresses; [done|done]. Qed.

Lemma wp_progresses_quiet {A} bound (m : M (raft S) A) r :
  moves quiet m → r_Term r ≤ bound → wp True m r (λ _ r', progresses bound r r').
Proof.
  intros Hm Hb. eapply wp_mono; [apply Hm|]. cbn. intros a r' Hq.
  apply advances_progresses; [by apply quiet_advances|]. by rewrite (q_term _ _ Hq).
Qed.

(** A local message has no term, so it never grants a vote. *)
Lemma local_msg_climbs t r :
  t = MsgHup ∨ t = MsgCheckQuorum ∨ t = MsgBeat → climbs 1 (local_msg t) r.
Proof.
  intros Ht Hr. unfold local_msg. apply wp_bind, wp_gets. unfold Step. apply wp_bind.
  set (m := (msg t 0) <| m_From := r_id r |>).
  assert (Hst : wp True (step_term m) r (λ go r', go = true ∧ r' = r)).
  { unfold step_term. by apply wp_bind, wp_get, wp_ret. }
  eapply wp_mono; [exact Hst|]. cbn. intros _ ? [-> ->].
  destruct Ht as [-> | [-> | ->]]; cbn.
  - assert (Hc : climbs 1 (r ← get; hup (if r_preVote r then campaignPreElection
                                          else campaignElection);; mret (@None error)) r).
    { apply climbs_get, climbs_before; [apply hup_climbs|intros; walk]. }
    by apply Hc.
  - by apply (step_climbs m).
  - by apply (step_climbs m).
Qed.

Lemma when_climbs n b (m : M (raft S) unit) r : climbs n m r → climbs n (when b m) r.
Proof. intros Hm. destruct b; [done|]. by apply climbs_quiet, moves_ret, _. Qed.

Lemma tick_climbs r : climbs 2 tick r.
Proof.
  unfold tick. apply climbs_get. destruct (decide _).
  - unfold tickHeartbeat. apply climbs_after; [walk|]. intros _ r1. apply climbs_get.
    apply (climbs_bind 2 1 1); [lia| |].
    + apply when_climbs. unfold leader_timeout. apply climbs_after; [walk|]. intros _ r2.
      apply climbs_get. apply climbs_before; [|intros; walk].
      apply when_climbs, climbs_before; [|intros; walk]. apply local_msg_climbs. auto.
    + intros _ r2. apply climbs_get. destruct (negb _); [apply climbs_quiet; walk|].
      case_bool_decide; [|apply climbs_quiet; walk].
      apply climbs_after; [walk|]. intros _ r3. apply climbs_before; [|intros; walk].
      apply local_msg_climbs. auto.
  - apply (climbs_le 1); [lia|]. unfold tickElection. apply climbs_after; [walk|]. intros _ r1.
    apply climbs_get. destruct (_ && _); [|apply climbs_quiet; walk].
    apply climbs_after; [walk|]. intros _ r2. apply climbs_before; [|intros; walk].
    apply local_msg_climbs. auto.
Qed.
End Ticks.

(** ** Properties *)

#[local] Existing Instance ex_pb.

Definition ex_vote : Message :=
  (msg MsgVote 1) <| m_From := 2 |> <| m_Term := 3 |> <| m_Index := 5 |> <| m_LogTerm := 2 |>.

(** A message that is not [sane]: a heartbeat without a term is taken for a local
    message, and a candidate steps down to its term.  A node that voted in term 5
    and then campaigned can be made to vote a second time in this way. *)
Definition ex_request5 (from : N) : Message :=
  (msg MsgVote 1) <| m_From := from |> <| m_Term := 5 |> <| m_Index := 9 |> <| m_LogTerm := 4 |>.
Definition ex_votes (ms : list Message) : option (N * list (N * N)) :=
  match forM ms (λ m, _ ← Step m; mret tt) ex_raft with
  | Ok (_, r) => Some (r_Term r, map (λ g, (m_Term g, m_To g)) (filter (λ g, grants g = true) (r_msgs r)))
  | Panic => None
  end.
Lemma insane_heartbeat : let campaign := [ex_request5 2; msg MsgHup 0] in
  ex_votes campaign = Some (6, [(5, 2)]) ∧ ex_votes (campaign ++ [msg MsgHeartbeat 1]) = Some (0, [(5, 2)]) ∧
  ex_votes (campaign ++ [msg MsgHeartbeat 1; ex_request5 3]) = Some (5, [(5, 2); (5, 3)]).
Proof. split_and!; vm_compute; reflexivity. Qed.

(** C5: the safety of one call of [Step].  On a [sane] message - one that has a term
    if it is of a kind that only leaders send, and a sender if it asks for a vote -
    and away from the end of the range of terms, the term and the committed index
    never decrease, the term is at most one above both terms,
    a vote cast in the current term is never changed, the applied index and the
    storage are not touched, earlier outgoing messages stay, and a vote that is
    granted carries the current term and goes to the candidate recorded as this
    term's vote. *)
Theorem Step_safety `{RaftPB} {S} `{Storage S} (m : Message) (r r' : raft S) (e : option error) :
  sane m → N.max (r_Term r) (m_Term m) + 1 < two64 → Step m r = Ok (e, r') →
  r_id r' = r_id r ∧
  r_Term r ≤ r_Term r' ≤ N.max (r_Term r) (m_Term m) + 1 ∧
  l_committed (r_raftLog r) ≤ l_committed (r_raftLog r') ∧
  l_applied (r_raftLog r') = l_applied (r_raftLog r) ∧
  l_storage (r_raftLog r') = l_storage (r_raftLog r) ∧
  (r_Term r' = r_Term r → r_Vote r ≠ None_id → r_Vote r' = r_Vote r) ∧
  ∃ new, r_msgs r' = r_msgs r ++ new ∧
    ∀ g, g ∈ new → grants g = true → m_Term g = r_Term r' ∧ m_To g = r_Vote r'.
Proof.
  intros Hs Hb Hstep.
  pose proof (Step_progresses m r (N.max (r_Term r) (m_Term m) + 1) Hs ltac:(lia) Hb) as Hp.
  unfold wp in Hp. rewrite Hstep in Hp. destruct (p_msgs _ _ _ Hp) as (new & Hnew & Hg).
  split_and!; try apply Hp. exists new. split; [done|]. intros g Hin Hgr.
  rewrite Forall_forall in Hg. destruct (Hg g Hin Hgr) as (? & ? & _). done.
Qed.

Lemma Step_safety_witness :
  ∃ r', Step ex_vote ex_raft = Ok (None, r') ∧ r_Vote r' = 2 ∧
    l_committed (r_raftLog ex_raft) ≤ l_committed (r_raftLog r').
Proof.
  destruct (Step ex_vote ex_raft) as [[e r']|] eqn:H; [|vm_compute in H; discriminate H].
  pose proof (Step_safety ex_vote ex_raft r' e) as Hs.
  assert (Hv : e = None ∧ r_Vote r' = 2) by (vm_compute in H; injection H as <- <-; done).
  destruct Hv as [-> Hv]. exists r'. split; [reflexivity|]. split; [exact Hv|].
  apply Hs; [|vm_compute; reflexivity|exact H].
  split; vm_compute; discriminate.
Defined.
