(* ===== verification/RaftElection.v ===== *)
(** * Elections: voting, winning, timing out

    The decision on a vote request as a function of the logs, the conditions under
    which a candidate becomes leader, what becoming leader does, and the range of
    the randomised election timeout. *)

From S2P Require Import Prelude Pb Quorum Inflights Progress Tracker Confchange.
From S2P Require Import Util Storage Unstable RaftLog ReadOnly Raft RaftFrame RaftSafety.

(** The candidate's log is at least as up to date (Raft, section 5.4.1). *)
Definition up_to_date (lg : Log) (index term : N) : bool :=
  let lt := default 0 (lg_term lg (lg_last lg)) in
  bool_decide (lt < term ∨ (term = lt ∧ lg_last lg ≤ index)).

Section Total.
Context `{RaftPB} {S : Type} `{!Storage S} `{!StorageLaws S}.
Implicit Types r : raft S.

Lemma wp_log_read {A} ok (f : raftLog S → outcome A) a r (Q : A → raft S → Prop) :
  f (r_raftLog r) = Ok a → Q a r → wp ok (log_read f) r Q.
Proof. intros Hf HQ. unfold log_read, lift, wp. by rewrite Hf. Qed.

Lemma wp_log_step {A} ok (f : raftLog S → outcome (A * raftLog S)) a l r (Q : A → raft S → Prop) :
  f (r_raftLog r) = Ok (a, l) → Q a (r <| r_raftLog := l |>) → wp ok (log_step f) r Q.
Proof. intros Hf HQ. unfold log_step, wp. by rewrite Hf. Qed.

Lemma wp_pr_get ok id pr r (Q : Progress → raft S → Prop) :
  t_Progress (r_prs r) !! id = Some pr → Q pr r → wp ok (pr_get id) r Q.
Proof. intros Hp HQ. unfold pr_get, lift, wp. by rewrite Hp. Qed.

(** [Intn] is below its bound. *)
Lemma wp_Intn n r (Q : Z → raft S → Prop) :
  (0 < n)%Z → (∀ v, (0 ≤ v < n)%Z → Q v (r <| r_draws ::= Datatypes.S |>)) → wp False (Intn n) r Q.
Proof.
  intros Hn HQ. unfold Intn. rewrite bool_decide_eq_false_2 by lia.
  apply wp_bind, wp_get, wp_bind, wp_put, wp_ret, HQ. apply Z.mod_pos_bound. lia.
Qed.

(** The progress a reset gives to a node. *)
Definition fresh_progress r (last id : N) (pr : Progress) : Progress :=
  MkProgress (if id =? r_id r then last else 0) (last +u 1) StateProbe 0 false false
    (NewInflights (t_MaxInflight (r_prs r))) (pr_IsLearner pr).

(** What [reset] leaves, up to the tracker's progress map. *)
Definition reset_state (term : N) (timeout : Z) (progress : gmap N Progress) r : raft S :=
  r <| r_Term := term |> <| r_Vote := if r_Term r =? term then r_Vote r else None_id |>
    <| r_lead := None_id |> <| r_electionElapsed := 0%Z |> <| r_heartbeatElapsed := 0%Z |>
    <| r_randomizedElectionTimeout := timeout |> <| r_draws ::= Datatypes.S |>
    <| r_leadTransferee := None_id |>
    <| r_prs ::= λ t, t <| t_Votes := ∅ |> <| t_Progress := progress |> |>
    <| r_pendingConfIndex := 0 |> <| r_uncommittedSize := 0 |>
    <| r_readOnly ::= λ ro, newReadOnly (ro_option ro) |>.

Lemma visit_reset last r :
  lastIndex (r_raftLog r) = Ok last →
  wp False (visit reset_progress) r (λ _ r', ∃ progress,
    r' = r <| r_prs ::= λ t, t <| t_Progress := progress |> |> ∧
    ∀ id, progress !! id = fresh_progress r last id <$> t_Progress (r_prs r) !! id).
Proof.
  intros Hl. unfold visit. apply wp_bind, wp_gets.
  set (I := λ (done : list N) (r' : raft S), ∃ progress,
    r' = r <| r_prs ::= λ t, t <| t_Progress := progress |> |> ∧
    ∀ id, progress !! id = (if bool_decide (id ∈ done) then fresh_progress r last id else λ p, p)
                           <$> t_Progress (r_prs r) !! id).
  assert (Hloop : ∀ todo dn r', (∀ id, id ∈ todo → is_Some (t_Progress (r_prs r) !! id)) →
    NoDup (dn ++ todo) → I dn r' → wp False (forM todo reset_progress) r' (λ _, I (dn ++ todo))).
  { induction todo as [|id todo IH]; intros dn r' Htr Hnd HI.
    { apply wp_ret. by rewrite app_nil_r. }
    cbn [forM]. destruct HI as (progress & -> & Hpr). apply wp_bind.
    destruct (Htr id) as [pr Hid]; [by left|].
    assert (Hni : id ∉ dn). { apply NoDup_app in Hnd as (_ & Hd & _). intros Hin.
      apply (Hd id Hin). by left. }
    unfold reset_progress. apply wp_bind, (wp_pr_get _ _ pr).
    { cbn. rewrite Hpr, bool_decide_eq_false_2, Hid by done. done. }
    apply wp_bind, (wp_log_read _ _ last); [done|]. apply wp_bind, wp_get. apply wp_modify.
    replace (dn ++ id :: todo) with ((dn ++ [id]) ++ todo) by (by rewrite <- app_assoc).
    apply IH.
    - intros j Hj. apply Htr. by right.
    - by rewrite <- app_assoc.
    - exists (<[id := fresh_progress r last id pr]> progress). split.
      + cbn. unfold fresh_progress. by destruct (id =? r_id r).
      + intros j. rewrite lookup_insert. case_decide as Hj.
        * subst j. rewrite bool_decide_eq_true_2, Hid by (apply elem_of_app; right; by left). done.
        * rewrite Hpr. f_equal. rewrite (bool_decide_ext (j ∈ dn ++ [id]) (j ∈ dn)); [done|].
          rewrite elem_of_app, list_elem_of_singleton. naive_solver. }
  eapply wp_mono.
  - apply (Hloop (Visit (r_prs r)) []).
    + intros id Hid. by apply elem_of_Visit.
    + cbn. apply NoDup_Visit.
    + exists (t_Progress (r_prs r)). split; [by destruct r as [??????? []]|].
      intros id. rewrite bool_decide_eq_false_2 by apply not_elem_of_nil.
      by destruct (_ !! id).
  - cbn. intros _ r' (progress & -> & Hpr). exists progress. split; [done|]. intros id.
    rewrite Hpr. destruct (t_Progress (r_prs r) !! id) eqn:E; [|done].
    rewrite bool_decide_eq_true_2; [done|]. apply elem_of_Visit. by eexists.
Qed.

(** [reset] always succeeds, and this is what it leaves. *)
Lemma reset_total term last r :
  lastIndex (r_raftLog r) = Ok last → (0 < r_electionTimeout r < 4611686018427387904)%Z →
  wp False (reset term) r (λ _ r', ∃ timeout progress,
    r' = reset_state term timeout progress r ∧
    (r_electionTimeout r ≤ timeout < 2 * r_electionTimeout r)%Z ∧
    ∀ id, progress !! id = fresh_progress r last id <$> t_Progress (r_prs r) !! id).
Proof.
  intros Hl He. unfold reset. apply wp_bind, wp_get, wp_bind.
  assert (Hw : wp False (when (negb (r_Term r =? term))
    (modify (λ r, r <| r_Term := term |> <| r_Vote := None_id |>))) r (λ _ r',
      r' = r <| r_Term := term |> <| r_Vote := if r_Term r =? term then r_Vote r else None_id |>)).
  { destruct (N.eqb_spec (r_Term r) term) as [<-|]; cbn; [by destruct r|done]. }
  eapply wp_mono; [exact Hw|]. intros _ ? ->. apply wp_bind, wp_modify, wp_bind.
  unfold resetRandomizedElectionTimeout. apply wp_bind, wp_gets, wp_bind, wp_Intn; [cbn; lia|].
  intros v Hv. apply wp_modify, wp_bind, wp_modify, wp_bind, wp_modify, wp_bind.
  cbn in Hv. cbn [r_electionTimeout]. eapply wp_mono; [apply (visit_reset last); done|].
  cbn -[reset_state]. intros _ r1 (progress & -> & Hpr). exists (r_electionTimeout r + v)%Z, progress.
  split_and!; [|lia|lia|].
  - cbn. rewrite i64_small by (unfold two63z; lia). reflexivity.
  - exact Hpr.
Qed.
End Total.

Section Vote.
Context `{RaftPB} {S : Type} `{!Storage S} `{!StorageLaws S}.
Implicit Types r : raft S.

(** The election timeouts are positive and far from the range of [int]. *)
Definition timeouts_ok r : Prop := (0 < r_electionTimeout r < 4611686018427387904)%Z.

(** [send] of a vote response. *)
Lemma send_vote_total m r :
  is_vote_type (m_Type m) = true → m_Term m ≠ 0 → m_From m = None_id →
  send m r = Ok (tt, r <| r_msgs ::= λ ms, ms ++ [m <| m_From := r_id r |>] |>).
Proof.
  intros Ht Hm Hf. unfold send, get, mbind, M_bind. rewrite Hf. cbn [N.eqb].
  change (None_id =? None_id) with true. cbn [m_Type m_Term update upd_m_From]. rewrite Ht.
  by rewrite (proj2 (N.eqb_neq _ _) Hm).
Qed.

Definition vote_reply r m (granted : bool) : Message :=
  (msg (if decide (m_Type m = MsgVote) then MsgVoteResp else MsgPreVoteResp) (m_From m))
    <| m_From := r_id r |> <| m_Term := if granted then m_Term m else r_Term r |>
    <| m_Reject := negb granted |>.

(** The decision on a vote request that passed the check of its term. *)
Lemma step_vote_total m r :
  rl_valid (r_raftLog r) → m_Type m = MsgVote ∨ m_Type m = MsgPreVote →
  m_Term m ≠ 0 → r_Term r ≠ 0 →
  let granted := can_vote r m && up_to_date (rl_log (r_raftLog r)) (m_Index m) (m_LogTerm m) in
  step_vote m r = Ok (tt,
    let r1 := r <| r_msgs ::= λ ms, ms ++ [vote_reply r m granted] |> in
    if granted && bool_decide (m_Type m = MsgVote)
    then r1 <| r_electionElapsed := 0%Z |> <| r_Vote := m_From m |> else r1).
Proof.
  intros Hv Ht Hm Hr granted.
  assert (Hw : wp False (step_vote m) r (λ _ r', r' =
    let r1 := r <| r_msgs ::= λ ms, ms ++ [vote_reply r m granted] |> in
    if granted && bool_decide (m_Type m = MsgVote)
    then r1 <| r_electionElapsed := 0%Z |> <| r_Vote := m_From m |> else r1)).
  2:{ apply wp_total in Hw as ([] & r' & -> & ->). done. }
  unfold step_vote. apply wp_bind, wp_get, wp_bind.
  assert (Hup : wp False (if can_vote r m then log_read (λ l, isUpToDate l (m_Index m) (m_LogTerm m))
      else mret false) r (λ up r', r' = r ∧ up = granted)).
  { unfold granted. destruct (can_vote r m); [|done].
    apply (wp_log_read _ _ _ _ _ (isUpToDate_valid _ _ _ Hv)). done. }
  eapply wp_mono; [exact Hup|]. cbn beta. intros up ? [-> ->].
  apply wp_bind, (wp_log_read _ _ _ _ _ (lastTerm_valid _ Hv)).
  assert (Hrt : voteRespMsgType (m_Type m) =
    Ok (if decide (m_Type m = MsgVote) then MsgVoteResp else MsgPreVoteResp)).
  { by destruct Ht as [-> | ->]. }
  apply wp_bind, wp_lift; rewrite Hrt; [|done]. intros rt [= <-].
  assert (Hsend : ∀ g : bool, send ((vote_reply r m g) <| m_From := 0 |>) r =
    Ok (tt, r <| r_msgs ::= λ ms, ms ++ [vote_reply r m g] |>)).
  { intros g. rewrite send_vote_total; [done| | |done].
    - cbn. by destruct (decide _).
    - cbn. by destruct g. }
  destruct granted.
  - apply wp_bind, wp_total. exists tt. eexists. split; [exact (Hsend true)|].
    case_bool_decide; done.
  - apply wp_total. exists tt. eexists. split; [exact (Hsend false)|done].
Qed.

(** [becomeFollower] always succeeds, and this is what it leaves. *)
Lemma becomeFollower_total term lead r :
  rl_valid (r_raftLog r) → timeouts_ok r →
  wp False (becomeFollower term lead) r (λ _ r', ∃ timeout progress,
    r' = (reset_state term timeout progress r) <| r_lead := lead |> <| r_state := StateFollower |> ∧
    (r_electionTimeout r ≤ timeout < 2 * r_electionTimeout r)%Z ∧
    ∀ id, progress !! id = fresh_progress r (lg_last (rl_log (r_raftLog r))) id
                           <$> t_Progress (r_prs r) !! id).
Proof.
  intros Hv Ht. unfold becomeFollower. apply wp_bind.
  eapply wp_mono; [by apply reset_total; [apply lastIndex_valid|]|].
  intros _ r' (timeout & progress & -> & Hb & Hp). apply wp_modify. by exists timeout, progress.
Qed.

(** A vote request of a higher term that the node ignores: it has heard from a
    leader within the election timeout and the request is no forced transfer. *)
Definition ignores_vote r m : bool :=
  (r_Term r <? m_Term m) && negb (bool_decide (m_Context m = CampaignType_String campaignTransfer)) &&
  (r_checkQuorum r && negb (r_lead r =? None_id) &&
   bool_decide (r_electionElapsed r < r_electionTimeout r)%Z).

(** The node may vote for the sender in the term of the request. *)
Definition free_to_vote r m : bool :=
  (r_Term r <? m_Term m) || (r_Vote r =? m_From m)
  || ((r_Vote r =? None_id) && (r_lead r =? None_id)).

(** Whichever term the request has, it is decided in that term. *)
Lemma step_term_vote m r :
  rl_valid (r_raftLog r) → timeouts_ok r → m_Type m = MsgVote → r_Term r ≤ m_Term m → m_Term m ≠ 0 →
  wp False (step_term m) r (λ go r', if ignores_vote r m then go = false ∧ r' = r
    else go = true ∧ r_raftLog r' = r_raftLog r ∧ r_Term r' = m_Term m ∧ r_msgs r' = r_msgs r ∧
      r_id r' = r_id r ∧ can_vote r' m = free_to_vote r m ∧
      r_Vote r' = (if r_Term r <? m_Term m then None_id else r_Vote r)).
Proof.
  intros Hv Ht Hm Hle Hnz. unfold step_term. apply wp_bind, wp_get.
  rewrite (proj2 (N.eqb_neq _ _) Hnz). unfold ignores_vote, free_to_vote.
  destruct (N.ltb_spec (r_Term r) (m_Term m)) as [Hlt|Hge].
  - unfold higher_term. apply wp_bind, wp_get. rewrite Hm. cbn [andb orb bool_decide].
    rewrite bool_decide_eq_true_2 by done. cbn [andb orb].
    set (ign := negb _ && _). destruct ign.
    { apply wp_bind, (wp_log_read _ _ _ _ _ (lastTerm_valid _ Hv)). done. }
    apply wp_bind. eapply wp_mono; [by apply becomeFollower_total|].
    intros _ r' (timeout & progress & -> & _ & _). apply wp_ret. split_and!; try done.
    + unfold can_vote. cbn. rewrite (proj2 (N.eqb_neq (r_Term r) _)) by lia.
      change (None_id =? None_id) with true. cbn. by rewrite orb_true_r.
    + cbn. by rewrite (proj2 (N.eqb_neq (r_Term r) _)) by lia.
  - rewrite (proj2 (N.ltb_ge (m_Term m) (r_Term r))) by lia. apply wp_ret. cbn [andb].
    split_and!; try done; [lia|]. unfold can_vote. rewrite Hm, bool_decide_eq_false_2 by done.
    cbn [andb orb]. by rewrite orb_false_r.
Qed.
(** The answer to a request that is not ignored. *)
Lemma vote_request_answered m r :
  rl_valid (r_raftLog r) → timeouts_ok r →
  m_Type m = MsgVote → r_Term r ≤ m_Term m → m_Term m ≠ 0 → ignores_vote r m = false →
  let granted := free_to_vote r m &&
                 up_to_date (rl_log (r_raftLog r)) (m_Index m) (m_LogTerm m) in
  ∃ r' reply, Step m r = Ok (None, r') ∧ r_msgs r' = r_msgs r ++ [reply] ∧
    m_Type reply = MsgVoteResp ∧ m_To reply = m_From m ∧ m_From reply = r_id r ∧
    m_Term reply = m_Term m ∧ m_Reject reply = negb granted ∧
    r_Term r' = m_Term m ∧ r_raftLog r' = r_raftLog r ∧
    r_Vote r' = if granted then m_From m
                else if r_Term r <? m_Term m then None_id else r_Vote r.
Proof.
  intros Hv Ht Hm Hle Hnz Hig granted. pose proof (step_term_vote m r Hv Ht Hm Hle Hnz) as Hst.
  apply wp_total in Hst as (go & r1 & Hst & Hr1). rewrite Hig in Hr1.
  destruct Hr1 as (-> & Hlog & Hterm & Hmsgs & Hid & Hcan & Hvote).
  assert (Hsv := step_vote_total m r1). rewrite Hlog, Hterm, Hcan in Hsv. fold granted in Hsv.
  specialize (Hsv Hv (or_introl Hm) Hnz Hnz).
  eexists _, (vote_reply r1 m granted). split.
  { unfold Step, mbind, M_bind. rewrite Hst. cbn [negb]. rewrite Hm, Hsv. reflexivity. }
  rewrite bool_decide_eq_true_2, andb_true_r by done.
  assert (Hty : m_Type (vote_reply r1 m granted) = MsgVoteResp) by (cbn; by rewrite Hm).
  assert (Htr : m_Term (vote_reply r1 m granted) = m_Term m) by (cbn; by destruct granted).
  destruct granted; cbn -[vote_reply]; rewrite Hmsgs, ?Hlog, ?Hterm; by split_and!.
Qed.
End Vote.

(** C15: the decision on a vote request of the current or a higher term.  A request
    of a higher term is ignored while the node hears from a leader (with CheckQuorum,
    unless the request is a forced transfer); one of the current term never is.
    Otherwise exactly one response goes back, in the term of the request, and the
    vote is granted iff the candidate's log is at least as up to date as the node's
    own and the term is new to the node, or its vote in this term already went to
    the sender, or it has not voted in it and knows no leader of it.  The vote is
    recorded iff it is granted, and the log is not touched. *)
Theorem vote_request_spec `{RaftPB} {S} `{!Storage S} `{!StorageLaws S} (m : Message) (r : raft S) :
  rl_valid (r_raftLog r) → timeouts_ok r →
  m_Type m = MsgVote → r_Term r ≤ m_Term m → m_Term m ≠ 0 →
  if ignores_vote r m then Step m r = Ok (None, r)
  else
    let granted := free_to_vote r m &&
                   up_to_date (rl_log (r_raftLog r)) (m_Index m) (m_LogTerm m) in
    ∃ r' reply, Step m r = Ok (None, r') ∧ r_msgs r' = r_msgs r ++ [reply] ∧
      m_Type reply = MsgVoteResp ∧ m_To reply = m_From m ∧ m_From reply = r_id r ∧
      m_Term reply = m_Term m ∧ m_Reject reply = negb granted ∧
      r_Term r' = m_Term m ∧ r_raftLog r' = r_raftLog r ∧
      r_Vote r' = if granted then m_From m
                  else if r_Term r <? m_Term m then None_id else r_Vote r.
Proof.
  intros Hv Ht Hm Hle Hnz. destruct (ignores_vote r m) eqn:Hig; [|by apply vote_request_answered].
  pose proof (step_term_vote m r Hv Ht Hm Hle Hnz) as Hst. rewrite Hig in Hst.
  apply wp_total in Hst as (go & r1 & Hst & -> & ->). unfold Step, mbind, M_bind. by rewrite Hst.
Qed.

#[local] Existing Instance ex_pb.

Lemma vote_request_spec_witness :
  ∃ r' reply, Step ex_vote ex_raft = Ok (None, r') ∧ r_msgs r' = [reply] ∧
    m_Reject reply = false ∧ r_Vote r' = 2 ∧ r_Term r' = 3.
Proof.
  assert (Hi : ignores_vote ex_raft ex_vote = false) by (vm_compute; reflexivity).
  assert (Hg : free_to_vote ex_raft ex_vote && up_to_date (rl_log (r_raftLog ex_raft))
                 (m_Index ex_vote) (m_LogTerm ex_vote) = true) by (vm_compute; reflexivity).
  assert (Hm : r_msgs ex_raft = []) by (vm_compute; reflexivity).
  pose proof (vote_request_spec ex_vote ex_raft ex_raft_valid) as H.
  rewrite Hi, Hg, Hm in H. cbv zeta in H.
  destruct H as (r' & reply & Hs & Hms & _ & _ & _ & _ & Hr & Ht & _ & Hv).
  - vm_compute. split; reflexivity.
  - reflexivity.
  - vm_compute. discriminate.
  - discriminate.
  - exists r', reply. split; [exact Hs|]. split; [exact Hms|]. split; [exact Hr|].
    split; [exact Hv|exact Ht].
Defined.

(** ** Winning an election *)

(** No method but [becomeLeader] makes a node a leader. *)
Definition no_new_leader {S} (r r' : raft S) : Prop :=
  r_state r' = StateLeader → r_state r = StateLeader.

#[export] Instance no_new_leader_preorder {S} : PreOrder (@no_new_leader S).
Proof. unfold no_new_leader. split; [by intros r|]. intros a b c Hab Hbc Hc. auto. Qed.

(** The identity, the configuration and the votes received. *)
Record same_config {S} (r r' : raft S) : Prop := {
  sc_id : r_id r' = r_id r;
  sc_config : t_Config (r_prs r') = t_Config (r_prs r);
}.
Record same_ballot {S} (r r' : raft S) : Prop := {
  sb_config : same_config r r';
  sb_votes : t_Votes (r_prs r') = t_Votes (r_prs r);
}.
#[export] Instance same_config_preorder {S} : PreOrder (@same_config S).
Proof. split; [by split|]. intros a b c [] []. split; congruence. Qed.
#[export] Instance same_ballot_preorder {S} : PreOrder (@same_ballot S).
Proof. split; [by split|]. intros a b c [] []. split; [by etrans|congruence]. Qed.

Section Winning.
Context `{RaftPB} {S : Type} `{Storage S}.
Implicit Types r : raft S.

Lemma log_step_no_leader {A} (f : raftLog S → outcome (A * raftLog S)) :
  moves no_new_leader (log_step f).
Proof. intros r. unfold wp, log_step. destruct (f _) as [[]|]; [by intros ?|done]. Qed.

#[export] Instance no_new_leader_frame : Frame (@no_new_leader S).
Proof.
  apply mk_frame; try exact _; try (intros; apply log_step_no_leader).
  - intros r r' Hc. unfold no_new_leader. by rewrite (c_state _ _ Hc).
  - intros r m _ Hl. exact Hl.
Qed.
#[local] Hint Resolve log_step_no_leader : moves.

Lemma appendEntry_no_leader es : moves (@no_new_leader S) (appendEntry es).
Proof. unfold appendEntry. walk. Qed.
Lemma reset_no_leader term : moves (@no_new_leader S) (reset term).
Proof. unfold reset. walk; intros Hl; exact Hl. Qed.
#[local] Hint Resolve reset_no_leader : moves.

Lemma becomeFollower_spec_state term lead r :
  wp True (becomeFollower term lead) r (λ _ r', r_state r' = StateFollower).
Proof.
  unfold becomeFollower. apply wp_bind. eapply wp_mono; [apply reset_no_leader|]. done.
Qed.
Lemma becomeFollower_no_leader term lead : moves (@no_new_leader S) (becomeFollower term lead).
Proof.
  intros r. eapply wp_mono; [apply becomeFollower_spec_state|]. unfold no_new_leader. by intros _ r' ->.
Qed.
#[local] Hint Resolve becomeFollower_no_leader : moves.
Lemma handleAppendEntries_no_leader m : moves (@no_new_leader S) (handleAppendEntries m).
Proof. unfold handleAppendEntries. walk. Qed.
Lemma restore_no_leader s : moves (@no_new_leader S) (restore s).
Proof. unfold restore. walk. intros Hl; exact Hl. Qed.
#[local] Hint Resolve handleAppendEntries_no_leader restore_no_leader : moves.
Lemma handleSnapshot_no_leader m : moves (@no_new_leader S) (handleSnapshot m).
Proof. unfold handleSnapshot. walk. Qed.
#[local] Hint Resolve handleSnapshot_no_leader : moves.

(** [reset] keeps the configuration and forgets the votes. *)
Lemma pr_get_ballot id : moves (@same_ballot S) (pr_get id).
Proof. apply moves_lift. exact _. Qed.
Lemma pr_set_ballot id pr : moves (@same_ballot S) (pr_set id pr).
Proof. apply moves_modify. by intros r. Qed.
Lemma reset_progress_ballot id : moves (@same_ballot S) (reset_progress id).
Proof.
  unfold reset_progress. apply moves_bind; [exact _|apply pr_get_ballot|intros pr].
  walk. apply pr_set_ballot.
Qed.
Lemma Intn_config n : moves (@same_config S) (Intn n).
Proof.
  intros r. unfold Intn. case_bool_decide; [by apply wp_panic|].
  by apply wp_bind, wp_get, wp_bind, wp_put, wp_ret.
Qed.

Lemma reset_votes term r :
  wp True (reset term) r (λ _ r', same_config r r' ∧ t_Votes (r_prs r') = ∅).
Proof.
  unfold reset. apply wp_bind, wp_get, wp_bind.
  match goal with |- wp True (when ?b ?m) _ _ =>
    assert (Hw : moves (@same_config S) (when b m)) by (walk; done) end.
  eapply wp_mono; [apply Hw|]. cbn. intros _ r1 H1. apply wp_bind, wp_modify, wp_bind.
  unfold resetRandomizedElectionTimeout. apply wp_bind, wp_gets, wp_bind.
  eapply wp_mono; [apply Intn_config|]. cbn beta. intros v r2 H2. apply wp_modify, wp_bind, wp_modify.
  apply wp_bind, wp_modify. set (r3 := update r_prs _ _).
  assert (H3 : same_config r r3).
  { transitivity r1; [exact H1|]. transitivity r2; [destruct H2; by split|by split]. }
  match goal with |- wp True ?m _ _ => assert (Hm : moves (@same_ballot S) m) end.
  { apply moves_bind; [exact _| |intros _; by apply moves_modify].
    unfold visit. apply moves_bind; [exact _|apply moves_gets; exact _|intros t].
    apply moves_forM; [exact _|]. apply reset_progress_ballot. }
  eapply wp_mono; [apply Hm|]. cbn. intros _ r4 [Hc Hv]. split; [by transitivity r3|].
  by rewrite Hv.
Qed.

Lemma becomeCandidate_votes r :
  wp True becomeCandidate r (λ _ r', same_config r r' ∧ t_Votes (r_prs r') = ∅ ∧
    r_state r' = StateCandidate).
Proof.
  unfold becomeCandidate. apply wp_bind, wp_get. destruct (decide _); [by apply wp_panic|].
  apply wp_bind. eapply wp_mono; [apply reset_votes|]. cbn. intros _ r' [[] ?]. by split_and!.
Qed.

Lemma becomePreCandidate_votes r :
  wp True becomePreCandidate r (λ _ r', same_config r r' ∧ t_Votes (r_prs r') = ∅ ∧
    r_state r' = StatePreCandidate).
Proof.
  unfold becomePreCandidate. apply wp_bind, wp_get. destruct (decide _); [by apply wp_panic|].
  by apply wp_modify.
Qed.

(** A postcondition that holds whatever the method does. *)
Lemma wp_whatever {A} (m : M (raft S) A) r Q : (∀ a r', Q a r') → wp True m r Q.
Proof. intros HQ. unfold wp. by destruct (m r) as [[]|]. Qed.

(** The node's own vote is a quorum. *)
Definition elected_alone r : Prop :=
  JointVoteResult (Voters (t_Config (r_prs r))) {[r_id r := true]} = VoteWon.

(** A vote response that completes a quorum for the candidate. *)
Definition elected_by (m : Message) r : Prop :=
  r_state r = StateCandidate ∧ m_Type m = MsgVoteResp ∧ (m_Term m = 0 ∨ m_Term m = r_Term r) ∧
  JointVoteResult (Voters (t_Config (r_prs r)))
    (t_Votes (RecordVote (r_prs r) (m_From m) (negb (m_Reject m)))) = VoteWon.

Lemma elected_alone_config r r' : same_config r r' → elected_alone r' → elected_alone r.
Proof. unfold elected_alone. by intros [-> ->]. Qed.

(** A loop of vote requests elects nobody. *)
Lemma requests_no_leader ids t vm term self :
  vm = MsgVote ∨ vm = MsgPreVote →
  moves (@no_new_leader S) (forM ids (λ id, if id =? self then mret tt else request_vote t vm term id)).
Proof. intros Hvm. walk. apply request_vote_frame; [exact _|done]. Qed.

Lemma TallyVotes_result p g rj res :
  TallyVotes p = (g, rj, res) → JointVoteResult (Voters (t_Config p)) (t_Votes p) = res.
Proof. unfold TallyVotes. destruct (foldl _ _ _). by intros [= _ _ <-]. Qed.

Lemma campaign_with_elects after t r :
  wp True (campaign_with after t) r (λ _ r', r_state r' = StateLeader → elected_alone r).
Proof.
  unfold campaign_with. apply wp_bind.
  set (Q := λ r1 : raft S, same_config r r1 ∧ t_Votes (r_prs r1) = ∅ ∧ r_state r1 ≠ StateLeader).
  assert (Hb : wp True (if bool_decide (t = campaignPreElection) then becomePreCandidate
                        else becomeCandidate) r (λ _, Q)).
  { destruct (bool_decide _).
    - eapply wp_mono; [apply becomePreCandidate_votes|]. cbn. intros _ r1 (? & ? & E). split_and!; [done..|].
      by rewrite E.
    - eapply wp_mono; [apply becomeCandidate_votes|]. cbn. intros _ r1 (? & ? & E). split_and!; [done..|].
      by rewrite E. }
  eapply wp_mono; [exact Hb|]. clear Hb. cbn beta. intros _ r1 (Hc & Hv & Hs).
  apply wp_bind, wp_get, wp_bind, wp_bind, wp_modify, wp_gets.
  assert (Hrec : RecordVote (r_prs r1) (r_id r1) true = (r_prs r1) <| t_Votes := {[r_id r1 := true]} |>).
  { unfold RecordVote. rewrite Hv, lookup_empty. destruct (r_prs r1).
    cbn in Hv. by subst. }
  cbn [r_prs update upd_r_prs]. rewrite Hrec.
  destruct (TallyVotes _) as [[g rj] res] eqn:Htally. apply TallyVotes_result in Htally.
  destruct (decide (res = VoteWon)) as [->|_].
  - assert (Ha : elected_alone r) by (by apply (elected_alone_config r r1)).
    destruct (bool_decide _); by apply wp_whatever.
  - apply wp_bind, wp_gets. eapply wp_mono; [apply requests_no_leader|].
    + destruct (bool_decide _); auto.
    + cbn. intros _ r2 Hnl Hl. by apply Hnl in Hl.
Qed.

Lemma campaign_elects t r :
  wp True (campaign t) r (λ _ r', r_state r' = StateLeader → elected_alone r).
Proof. apply campaign_with_elects. Qed.

Lemma hup_elects t r :
  wp True (hup t) r (λ _ r', r_state r' = StateLeader → r_state r = StateLeader ∨ elected_alone r).
Proof.
  unfold hup. apply wp_bind, wp_get. destruct (decide _) as [Hl|_]; [apply wp_ret; auto|].
  destruct (negb _); [apply wp_ret; auto|]. apply wp_bind, wp_lift; [|done]. intros ents _.
  destruct (_ && _); [apply wp_ret; auto|]. eapply wp_mono; [apply campaign_elects|]. auto.
Qed.

(** A method that makes nobody a leader, and one whose result is ignored. *)
Lemma no_leader_elects {A} (m : M (raft S) A) r (P : Prop) :
  moves no_new_leader m →
  wp True m r (λ _ r', r_state r' = StateLeader → r_state r = StateLeader ∨ P).
Proof. intros Hm. eapply wp_mono; [apply Hm|]. cbn. intros _ r' Hn Hl. left. auto. Qed.
Lemma wp_then_ret {A B} (m : M (raft S) A) (b : B) r (Q : B → raft S → Prop) :
  wp True m r (λ _, Q b) → wp True (m;; mret b) r Q.
Proof. intros Hm. by apply wp_bind. Qed.

Lemma stepFollower_elects m r :
  wp True (stepFollower m) r (λ _ r', r_state r' = StateLeader → r_state r = StateLeader ∨ elected_alone r).
Proof.
  unfold stepFollower. apply wp_bind, wp_get.
  destruct (m_Type m) eqn:Ht; try (apply no_leader_elects; walk; by intros ?).
  apply wp_then_ret, hup_elects.
Qed.

Lemma candidate_vote_elects m r :
  m_Type m = (if decide (r_state r = StatePreCandidate) then MsgPreVoteResp else MsgVoteResp) →
  r_state r = StateCandidate ∨ r_state r = StatePreCandidate →
  m_Type m = MsgPreVoteResp ∨ m_Term m = 0 ∨ m_Term m = r_Term r →
  wp True (candidate_vote m) r (λ _ r', r_state r' = StateLeader → elected_alone r ∨ elected_by m r).
Proof.
  intros Ht Hs Hterm. unfold candidate_vote, poll. apply wp_bind, wp_bind, wp_modify, wp_gets.
  destruct (TallyVotes _) as [[g rj] res] eqn:Htally. apply TallyVotes_result in Htally.
  apply wp_bind, wp_get. set (r1 := update r_prs _ r) in *.
  assert (Hc : same_config r r1).
  { split; [done|]. cbn. unfold RecordVote. by destruct (t_Votes _ !! _). }
  assert (Hs1 : r_state r1 = r_state r) by done.
  assert (Hnl : r_state r1 ≠ StateLeader) by (rewrite Hs1; by destruct Hs as [-> | ->]).
  destruct res.
  - apply wp_ret. by intros ?.
  - eapply wp_mono; [apply becomeFollower_spec_state|]. by cbn; intros _ r2 ->.
  - rewrite Hs1. destruct (decide (r_state r = StatePreCandidate)) as [Hp|Hp].
    + eapply wp_mono; [apply campaign_elects|]. cbn. intros _ r2 Hl He. left.
      apply (elected_alone_config r r1); auto.
    + apply wp_whatever. intros _ r2 _. right. destruct Hs as [Hs|]; [|done].
      split_and!; [done|done| |].
      * destruct Hterm as [E|?]; [|done]. by rewrite Ht in E.
      * rewrite <- Htally. cbn. f_equal. unfold RecordVote. by destruct (t_Votes _ !! _).
Qed.

Lemma stepCandidate_elects m r :
  r_state r = StateCandidate ∨ r_state r = StatePreCandidate →
  m_Type m = MsgPreVoteResp ∨ m_Type m = MsgPreVote ∨ m_Term m = 0 ∨ m_Term m = r_Term r →
  wp True (stepCandidate m) r (λ _ r', r_state r' = StateLeader →
    r_state r = StateLeader ∨ elected_alone r ∨ elected_by m r).
Proof.
  intros Hs Hterm. unfold stepCandidate. apply wp_bind, wp_get.
  assert (Hcv : m_Type m = (if decide (r_state r = StatePreCandidate) then MsgPreVoteResp else MsgVoteResp) →
    wp True (candidate_vote m;; mret (M := M (raft S)) (@None error)) r (λ _ r', r_state r' = StateLeader →
      r_state r = StateLeader ∨ elected_alone r ∨ elected_by m r)).
  { intros Ht. apply wp_then_ret. eapply wp_mono; [apply candidate_vote_elects; try done|].
    - destruct Hterm as [?|[Hf|[?|?]]]; auto. rewrite Ht in Hf. by destruct (decide _).
    - cbn. intros _ r2 Hl He. right. auto. }
  revert Hcv. generalize (if decide (r_state r = StatePreCandidate) then MsgPreVoteResp else MsgVoteResp).
  intros rt Hcv. destruct (m_Type m); try (apply no_leader_elects; walk; done).
  all: case_decide as Hd; [by apply Hcv|apply no_leader_elects; walk].
Qed.

Lemma becomeFollower_config term lead r :
  wp True (becomeFollower term lead) r (λ _ r', r_state r' = StateFollower ∧ same_config r r').
Proof.
  unfold becomeFollower. apply wp_bind. eapply wp_mono; [apply reset_votes|]. cbn.
  intros _ r' [[] _]. by split.
Qed.

(** The handling of the term leaves the node as it is or a follower. *)
Lemma step_term_elects m r :
  wp True (step_term m) r (λ go r1, r_state r1 = StateFollower ∧ same_config r r1 ∨
    no_new_leader r r1 ∧ (go = true → r1 = r ∧
      (m_Type m = MsgPreVoteResp ∨ m_Type m = MsgPreVote ∨ m_Term m = 0 ∨ m_Term m = r_Term r))).
Proof.
  assert (Hstay : ∀ P : Prop, P → no_new_leader r r ∧ (true = true → r = r ∧ P)) by (by split).
  unfold step_term. apply wp_bind, wp_get.
  destruct (N.eqb_spec (m_Term m) 0) as [Hz|Hz]; [apply wp_ret; right; apply Hstay; auto|].
  destruct (N.ltb_spec (r_Term r) (m_Term m)) as [Hlt|Hge].
  - unfold higher_term. apply wp_bind, wp_get. destruct (_ && _ && _).
    { apply wp_bind, wp_lift; [|done]. intros _ _. apply wp_ret. by right. }
    apply wp_then_ret. 
    assert (Hbf : ∀ lead, wp True (becomeFollower (m_Term m) lead) r (λ _ r1,
      r_state r1 = StateFollower ∧ same_config r r1 ∨ no_new_leader r r1 ∧ (true = true → r1 = r ∧
      (m_Type m = MsgPreVoteResp ∨ m_Type m = MsgPreVote ∨ m_Term m = 0 ∨ m_Term m = r_Term r)))).
    { intros lead. eapply wp_mono; [apply becomeFollower_config|]. auto. }
    destruct (m_Type m); try apply Hbf; try (apply wp_ret; right; apply Hstay; auto).
    destruct (m_Reject m); [apply Hbf|apply wp_ret; right; apply Hstay; auto].
  - destruct (N.ltb_spec (m_Term m) (r_Term r)).
    + apply wp_then_ret. eapply wp_mono; [apply (lower_term_frame no_new_leader)|]. by right.
    + apply wp_ret. right. apply Hstay. do 3 right. lia.
Qed.

Lemma send_no_leader m : moves (@no_new_leader S) (send m).
Proof. intros r. eapply wp_mono; [apply send_spec|]. intros [] r1 (? & -> & _) Hl. exact Hl. Qed.
#[local] Hint Resolve send_no_leader : moves.
Lemma step_vote_no_leader m : moves (@no_new_leader S) (step_vote m).
Proof. unfold step_vote. walk. intros Hl. exact Hl. Qed.

Lemma Step_elects m r :
  wp True (Step m) r (λ _ r', r_state r' = StateLeader →
    r_state r = StateLeader ∨ elected_alone r ∨ elected_by m r).
Proof.
  unfold Step. apply wp_bind. eapply wp_mono; [apply step_term_elects|]. cbn.
  intros go r1 Hst. destruct go; cbn [negb].
  2:{ apply wp_ret. destruct Hst as [[-> _]|[Hn _]]; [done|]. left. auto. }
  assert (Hvote : wp True (step_vote m;; mret (M := M (raft S)) (@None error)) r1 (λ _ r', r_state r' = StateLeader →
    r_state r = StateLeader ∨ elected_alone r ∨ elected_by m r)).
  { apply wp_then_ret. eapply wp_mono; [apply step_vote_no_leader|]. cbn. intros _ r2 Hn Hl.
    apply Hn in Hl. destruct Hst as [[E _]|[Hn1 _]]; [by rewrite E in Hl|]. left. auto. }
  assert (Hhup : ∀ t, wp True (hup t;; mret (M := M (raft S)) (@None error)) r1 (λ _ r', r_state r' = StateLeader →
    r_state r = StateLeader ∨ elected_alone r ∨ elected_by m r)).
  { intros t. apply wp_then_ret. eapply wp_mono; [apply hup_elects|]. cbn. intros _ r2 Hu Hl.
    destruct (Hu Hl) as [Hl1|He].
    - destruct Hst as [[E _]|[Hn1 _]]; [by rewrite E in Hl1|]. left. auto.
    - destruct Hst as [[_ Hc]|[_ Hst]]; [|destruct (Hst eq_refl) as [-> _]; auto].
      right. left. by apply (elected_alone_config r r1). }
  assert (Hstep : wp True (step m) r1 (λ _ r', r_state r' = StateLeader →
    r_state r = StateLeader ∨ elected_alone r ∨ elected_by m r)).
  { unfold step. apply wp_bind, wp_get. destruct Hst as [[E Hc]|[Hn1 Hst]].
    - rewrite E. eapply wp_mono; [apply stepFollower_elects|]. cbn. rewrite E. intros _ r2 Hl He.
      destruct (Hl He) as [|Ha]; [done|]. right. left. by apply (elected_alone_config r r1).
    - destruct (Hst eq_refl) as [-> Ht]. destruct (r_state r) eqn:E; rewrite <- E.
      + eapply wp_mono; [apply stepFollower_elects|]. cbn. intros _ r2 Hl He.
        destruct (Hl He); auto.
      + eapply wp_mono; [by apply stepCandidate_elects; auto|auto].
      + apply wp_whatever. auto.
      + eapply wp_mono; [by apply stepCandidate_elects; auto|auto]. }
  destruct (m_Type m); first [exact Hstep|exact Hvote|idtac].
  by apply wp_bind, wp_get.
Qed.
End Winning.

(** The votes a node may count when it handles [m]: its own alone, or those recorded
    and the one in a response of its term. *)
Definition votes_at_hand `{RaftPB} {S} (m : Message) (r : raft S) (votes : gmap N bool) : Prop :=
  votes = {[r_id r := true]} ∨
  r_state r = StateCandidate ∧ m_Type m = MsgVoteResp ∧ (m_Term m = 0 ∨ m_Term m = r_Term r) ∧
  votes = t_Votes (RecordVote (r_prs r) (m_From m) (negb (m_Reject m))).

(** C7: a node becomes leader only by an election: if a call of [Step] makes a
    leader of a node that was none, then a quorum of each half of its
    configuration voted for it, counting either its own vote alone or, for a
    candidate, the votes recorded so far and the one of the response in the
    current term it was called with. *)
Theorem leader_has_quorum `{RaftPB} {S} `{Storage S} (m : Message) (r r' : raft S) (e : option error) :
  Step m r = Ok (e, r') → r_state r' = StateLeader → r_state r ≠ StateLeader →
  ∃ votes, joint_quorum (Voters (t_Config (r_prs r))) (voted_yes votes) ∧ votes_at_hand m r votes.
Proof.
  intros Hstep Hl Hn. pose proof (Step_elects m r) as Hw. unfold wp in Hw. rewrite Hstep in Hw.
  destruct (Hw Hl) as [?|[Ha|(Hs & Ht & Hterm & Hwon)]]; [done|..].
  - exists {[r_id r := true]}. split; [by apply JointVoteResult_iff|by left].
  - eexists. split; [by apply JointVoteResult_iff|]. right. by split_and!.
Qed.

(** Node 1 after its election timeout, and the vote of node 2 for it. *)
Definition ex_candidate : raft MemoryStorage :=
  match Step (msg MsgHup 0) ex_raft with Ok (_, r) => r | Panic => ex_raft end.
Definition ex_vote_resp : Message :=
  (msg MsgVoteResp 1) <| m_From := 2 |> <| m_Term := 3 |>.

Lemma leader_has_quorum_witness :
  ∃ r', Step ex_vote_resp ex_candidate = Ok (None, r') ∧ r_state r' = StateLeader ∧
  ∃ votes, joint_quorum (Voters (t_Config (r_prs ex_candidate))) (voted_yes votes) ∧
           votes !! 2 = Some true.
Proof.
  destruct (Step ex_vote_resp ex_candidate) as [[e r']|] eqn:H; [|vm_compute in H; discriminate H].
  pose proof (leader_has_quorum ex_vote_resp ex_candidate r' e H) as Hq.
  assert (Hv : e = None ∧ r_state r' = StateLeader) by (vm_compute in H; injection H as <- <-; done).
  destruct Hv as [-> Hl]. exists r'. split; [reflexivity|]. split; [exact Hl|].
  destruct (Hq Hl) as (votes & Hj & Hvotes); [vm_compute; discriminate|].
  exists votes. split; [exact Hj|]. destruct Hvotes as [E|(_ & _ & _ & E)].
  - exfalso. subst votes. revert Hj. vm_compute. intros [[Hj|Hj] _]; [discriminate Hj|]. lia.
  - rewrite E. vm_compute. reflexivity.
Defined.

(** ** Appending on the leader, and becoming one *)

Section Append.
Context `{RaftPB} {S : Type} `{!Storage S} `{!StorageLaws S}.
Implicit Types r : raft S.

Lemma length_stamp term li es : length (stamp term li es) = length es.
Proof. apply length_imap. Qed.

Lemma stamp_contiguous term li es :
  li + lenN es + 1 < two64 → contiguous li (stamp term li es).
Proof.
  intros Hb k e Hk. unfold stamp in Hk. rewrite list_lookup_imap in Hk.
  destruct (es !! k) as [e0|] eqn:E; [|done]. injection Hk as <-. cbn.
  apply lookup_lt_Some in E. unfold lenN in Hb. nowrap. done.
Qed.

Lemma stamp_term term li es e : e ∈ stamp term li es → e_Term e = term.
Proof.
  intros (k & Hk)%list_elem_of_lookup. unfold stamp in Hk. rewrite list_lookup_imap in Hk.
  destruct (es !! k); [|done]. by injection Hk as <-.
Qed.

Lemma payload_sum_stamp term li es : payload_sum (stamp term li es) = payload_sum es.
Proof.
  assert (Hd : ∀ l s, foldl (λ s e, s +u Z.to_N (PayloadSize e)) s l =
    foldl (λ s d, s +u Z.to_N (Z.of_nat (String.length d))) s (e_Data <$> l)).
  { induction l as [|e l IH]; intros s; [done|]. apply IH. }
  unfold payload_sum. rewrite !Hd. f_equal. unfold stamp. rewrite fmap_imap.
  apply list_eq. intros i. rewrite list_lookup_imap, list_lookup_fmap. by destruct (es !! i).
Qed.

(** The size limit refuses the entries. *)
Definition over_limit r (es : list Entry) : bool :=
  (0 <? r_uncommittedSize r) && (0 <? payload_sum es) &&
  (r_maxUncommittedSize r <? r_uncommittedSize r +u payload_sum es).

(** What a leader may have committed: nothing new, or an entry of its term. *)
Definition commits_own term (l l' : raftLog S) : Prop :=
  l_committed l ≤ l_committed l' ∧
  (term ≠ 0 →
   l_committed l' = l_committed l ∨ lg_term (rl_log l') (l_committed l') = Some term).

Lemma maybeCommit_keeps l i t b l' :
  rl_valid l → maybeCommit l i t = Ok (b, l') →
  rl_valid l' ∧ rl_log l' = rl_log l ∧ rl_frame l l' ∧ commits_own t l l'.
Proof.
  intros Hv Hm.
  assert (Hle : l' = l ∨ ∃ c, commitTo l i = Ok (c, l') ∧ l_committed l < i).
  { revert Hm. unfold maybeCommit. rewrite log_term_valid by done. cbn [mbind outcome_bind].
    destruct (N.ltb_spec (l_committed l) i); [|intros [= _ <-]; by left].
    destruct (zeroTermOnErrCompacted _); [|done]. cbn. destruct (_ =? t); [|intros [= _ <-]; by left].
    destruct (commitTo l i) as [[c l2]|]; [|done]. intros [= _ <-]. right. by exists c. }
  assert (Hown : t ≠ 0 → l_committed l' = l_committed l ∨ lg_term (rl_log l') (l_committed l') = Some t).
  { intros Ht. pose proof (maybeCommit_valid l i t Hv ltac:(lia)) as Hmc.
    case_bool_decide as Hc.
    - destruct Hmc as (l2 & Hm2 & _ & Hlog & _ & Hcm). rewrite Hm in Hm2. injection Hm2 as _ <-.
      right. rewrite Hlog, Hcm. apply Hc.
    - rewrite Hm in Hmc. injection Hmc as _ <-. by left. }
  destruct Hle as [->|(c & Hc & Hlt)].
  { split_and!; try done; by (split; [lia|]). }
  pose proof (commitTo_valid l i Hv) as Hct. destruct (_ <? i).
  { rewrite Hc in Hct. injection Hct as _ ->. split_and!; try done; by (split; [lia|]). }
  destruct Hct as (l2 & Hc2 & Hv2 & Hlog & Hf & Hcm). rewrite Hc in Hc2. injection Hc2 as _ <-.
  split_and!; try done; by (split; [lia|]).
Qed.

Lemma maybeCommit_r_spec ok r :
  rl_valid (r_raftLog r) →
  wp ok maybeCommit_r r (λ _ r', ∃ l', r' = r <| r_raftLog := l' |> ∧ rl_valid l' ∧
    rl_log l' = rl_log (r_raftLog r) ∧ rl_frame (r_raftLog r) l' ∧
    commits_own (r_Term r) (r_raftLog r) l').
Proof.
  intros Hv. unfold maybeCommit_r. apply wp_bind, wp_get.
  destruct (maybeCommit (r_raftLog r) (Committed (r_prs r)) (r_Term r)) as [[b l']|] eqn:Hm.
  - apply (wp_log_step _ _ b l'); [done|]. exists l'. split; [done|]. by eapply maybeCommit_keeps.
  - exfalso. pose proof (commitTo_valid (r_raftLog r) (Committed (r_prs r)) Hv) as Hc. revert Hm.
    unfold maybeCommit. destruct (N.ltb_spec (l_committed (r_raftLog r)) (Committed (r_prs r))); [|discriminate]. rewrite log_term_valid by done.
    cbn [mbind outcome_bind zeroTermOnErrCompacted]. destruct (_ =? r_Term r); [|done].
    destruct (_ <? Committed _); [by rewrite Hc|]. by destruct Hc as (? & -> & _).
Qed.

(** [appendEntry], in a state with room for the indexes. *)
Lemma appendEntry_spec ok es r :
  rl_valid (r_raftLog r) → es ≠ [] →
  (t_Progress (r_prs r) !! r_id r = None → ok) →
  let lg := rl_log (r_raftLog r) in let new := stamp (r_Term r) (lg_last lg) es in
  lg_last lg + 1 + lenN es < 9223372036854775808 →
  wp ok (appendEntry es) r (λ accepted r', if accepted : bool then
      over_limit r es = false ∧
      ∃ pr l', t_Progress (r_prs r) !! r_id r = Some pr ∧
        r' = r <| r_uncommittedSize ::= λ u, u +u payload_sum new |> <| r_raftLog := l' |>
               <| r_prs ::= λ t, t <| t_Progress ::=
                    <[r_id r := (MaybeUpdate pr (lg_last lg + lenN es)).2]> |> |> ∧
        rl_valid l' ∧ rl_log l' = lg_append lg (lg_last lg + 1) new ∧
        rl_frame (r_raftLog r) l' ∧ commits_own (r_Term r) (r_raftLog r) l'
    else over_limit r es = true ∧ r' = r).
Proof.
  intros Hv Hne Hok lg new Hb. unfold appendEntry.
  apply wp_bind, (wp_log_read _ _ _ _ _ (lastIndex_valid _ Hv)), wp_bind, wp_get. fold lg. cbv zeta.
  change (stamp (r_Term r) (lg_last lg) es) with new. apply wp_bind.
  unfold increaseUncommittedSize. apply wp_bind, wp_get. cbv zeta.
  rewrite (payload_sum_stamp (r_Term r) (lg_last lg) es : payload_sum new = _).
  destruct (over_limit r es) eqn:Ho; unfold over_limit in Ho; rewrite Ho; [by apply wp_ret|].
  apply wp_bind, wp_modify, wp_ret. cbn [negb]. apply wp_bind.
  assert (Hlen : lenN new = lenN es) by (unfold lenN, new; by rewrite length_stamp).
  assert (Hc : contiguous (lg_last lg) new) by (apply stamp_contiguous; unfold two64; lia).
  destruct new as [|e0 rest] eqn:Hnew.
  { destruct es; [done|]. rewrite lenN_cons in Hlen. unfold lenN in Hlen. cbn in Hlen. lia. }
  assert (He0 : e_Index e0 = lg_last lg + 1) by (apply contiguous_cons in Hc as [-> _]; lia).
  pose proof (rv_committed _ Hv) as Hcm. fold lg in Hcm.
  destruct (log_append_valid (r_raftLog r) e0 rest Hv) as (l1 & Happ & Hv1 & Hlog1 & Hf1 & Hc1);
    rewrite ?He0; fold lg.
  { by replace (lg_last lg + 1 - 1) with (lg_last lg) by lia. }
  { lia. } { lia. } { lia. }
  rewrite Hlen, He0 in Happ. rewrite He0 in Hlog1. fold lg in Hlog1.
  eapply wp_log_step; [exact Happ|]. apply wp_bind. unfold pr_get at 1.
  apply wp_lift; cbn [r_prs update upd_r_raftLog upd_r_uncommittedSize r_id];
    destruct (t_Progress (r_prs r) !! r_id r) as [pr|] eqn:Hpr; try done; [|by auto].
  intros _ [= <-]. apply wp_bind, wp_modify, wp_bind.
  eapply wp_mono; [by apply maybeCommit_r_spec|]. cbn beta.
  intros b r' (l' & -> & Hv' & Hlog' & Hf' & Hown). apply wp_ret. split; [done|].
  exists pr, l'. split; [done|]. split.
  { replace (lg_last lg + lenN es) with (lg_last lg + 1 + lenN es - 1) by lia. done. }
  cbn in Hlog', Hf', Hown. split_and!; [done|by rewrite Hlog'|by transitivity l1|].
  destruct Hown as [Hle Hown]. rewrite Hc1 in *. by split.
Qed.
End Append.

Section Leading.
Context `{RaftPB} {S : Type} `{!Storage S} `{!StorageLaws S}.
Implicit Types r : raft S.

(** The progress of a node right after the election of [r]. *)
Definition leader_progress r (last id : N) (pr : Progress) : Progress :=
  if id =? r_id r
  then MkProgress (last + 1) (last + 2) StateReplicate 0 false false
         (NewInflights (t_MaxInflight (r_prs r))) (pr_IsLearner pr)
  else MkProgress 0 (last + 1) StateProbe 0 false false
         (NewInflights (t_MaxInflight (r_prs r))) (pr_IsLearner pr).

Lemma reduce_nothing es r : r_uncommittedSize r = 0 → reduceUncommittedSize es r = Ok (tt, r).
Proof. intros Hu. unfold reduceUncommittedSize, mbind, M_bind, get. by rewrite Hu. Qed.

Lemma own_progress r last pr :
  last + 2 < two64 →
  (MaybeUpdate (BecomeReplicate (fresh_progress r last (r_id r) pr)) (last + 1)).2 =
  MkProgress (last + 1) (last + 2) StateReplicate 0 false false
    (NewInflights (t_MaxInflight (r_prs r))) (pr_IsLearner pr).
Proof.
  intros Hb. unfold fresh_progress. rewrite N.eqb_refl. unfold MaybeUpdate. cbn.
  destruct (N.ltb_spec last (last + 1)); [|lia]. cbn. nowrap. rewrite max_spec.
  by replace (N.max (last + 1) (last + 1 + 1)) with (last + 2) by lia.
Qed.

Lemma becomeLeader_total r :
  rl_valid (r_raftLog r) → timeouts_ok r → r_state r ≠ StateFollower → r_Term r ≠ 0 →
  is_Some (t_Progress (r_prs r) !! r_id r) →
  let lg := rl_log (r_raftLog r) in let last := lg_last lg in
  last + 2 < 9223372036854775808 →
  wp False becomeLeader r (λ _ r',
    r_state r' = StateLeader ∧ r_lead r' = r_id r ∧ r_id r' = r_id r ∧
    r_Term r' = r_Term r ∧ r_Vote r' = r_Vote r ∧ r_msgs r' = r_msgs r ∧
    r_pendingConfIndex r' = last ∧ r_uncommittedSize r' = 0 ∧
    rl_valid (r_raftLog r') ∧
    rl_log (r_raftLog r') = lg_append lg (last + 1) [MkEntry (r_Term r) (last + 1) EntryNormal ""] ∧
    commits_own (r_Term r) (r_raftLog r) (r_raftLog r') ∧
    ∀ id, t_Progress (r_prs r') !! id = leader_progress r last id <$> t_Progress (r_prs r) !! id).
Proof.
  intros Hv Ht Hs Hnz [pr Hpr] lg last Hb. pose proof (lastIndex_valid _ Hv) as Hlast.
  unfold becomeLeader. apply wp_bind, wp_get. destruct (decide _); [done|].
  apply wp_bind. eapply wp_mono; [by apply reset_total|]. fold lg last in Hlast |- *.
  intros _ r1 (timeout & progress & -> & _ & Hp).
  apply wp_bind, wp_modify, wp_bind. unfold pr_modify.
  assert (Hp1 : progress !! r_id r = Some (fresh_progress r last (r_id r) pr)) by (by rewrite Hp, Hpr).
  apply wp_bind, (wp_pr_get _ _ (fresh_progress r last (r_id r) pr)); [done|]. apply wp_modify, wp_bind, (wp_log_read _ _ last); [exact Hlast|].
  apply wp_bind, wp_modify.
  apply wp_bind. set (r2 := update r_pendingConfIndex _ _).
  eapply wp_mono.
  { apply (appendEntry_spec False [Entry_zero] r2); try done.
    - cbn. by rewrite lookup_insert_eq.
    - unfold lenN. cbn -[rl_log]. fold lg last. lia. }
  cbn beta. intros acc r3 Hacc. 
  assert (Hu : over_limit r2 [Entry_zero] = false) by done. rewrite Hu in Hacc.
  assert (Hlog2 : r_raftLog r2 = r_raftLog r) by done. rewrite Hlog2 in Hacc. fold lg last in Hacc.
  destruct acc; [|by destruct Hacc].
  destruct Hacc as (_ & pr2 & l' & Hpr2 & -> & Hv' & Hlog' & Hf & Hown).
  assert (Hlast64 : last + 2 < two64) by (unfold two64; lia).
  assert (Hnew : stamp (r_Term r2) last [Entry_zero] = [MkEntry (r_Term r) (last + 1) EntryNormal ""]).
  { cbn. nowrap. by rewrite N.add_0_r. }
  rewrite Hnew in Hlog'. cbn [negb]. apply wp_total. exists tt. eexists. split; [by apply reduce_nothing|].
  split_and!; try done; [by cbn; rewrite N.eqb_refl|]. intros id.
  cbn -[MaybeUpdate BecomeReplicate fresh_progress lenN] in Hpr2 |- *.
  rewrite lookup_insert. unfold leader_progress.
  rewrite lookup_insert_eq in Hpr2. injection Hpr2 as <-.
  case_decide as Hid.
  - subst id. rewrite Hpr, N.eqb_refl. cbn [fmap option_fmap option_map].
    change (lenN [Entry_zero]) with 1. by rewrite own_progress.
  - rewrite lookup_insert_ne, Hp by done. destruct (t_Progress (r_prs r) !! id); [|done]. cbn.
    unfold fresh_progress. rewrite (proj2 (N.eqb_neq id (r_id r))) by done. nowrap. done.
Qed.
End Leading.

(** C17: stepping down always succeeds and leaves a follower of the given leader
    in the given term, which keeps its vote only if the term stays, forgets the
    votes it collected, waits for a random time of at least one and less than two
    election timeouts from now, has the same log and messages, and every progress
    reset. *)
Theorem becomeFollower_resets `{RaftPB} {S} `{!Storage S} `{!StorageLaws S} (term lead : N) (r : raft S) :
  rl_valid (r_raftLog r) → timeouts_ok r →
  ∃ r', becomeFollower term lead r = Ok (tt, r') ∧
    r_state r' = StateFollower ∧ r_lead r' = lead ∧ r_Term r' = term ∧
    r_Vote r' = (if r_Term r =? term then r_Vote r else None_id) ∧
    r_electionElapsed r' = 0%Z ∧
    (r_electionTimeout r ≤ r_randomizedElectionTimeout r' < 2 * r_electionTimeout r)%Z ∧
    r_raftLog r' = r_raftLog r ∧ r_msgs r' = r_msgs r ∧ t_Votes (r_prs r') = ∅ ∧
    t_Config (r_prs r') = t_Config (r_prs r) ∧
    ∀ id, t_Progress (r_prs r') !! id =
      fresh_progress r (lg_last (rl_log (r_raftLog r))) id <$> t_Progress (r_prs r) !! id.
Proof.
  intros Hv Ht. pose proof (becomeFollower_total term lead r Hv Ht) as Hw.
  apply wp_total in Hw as ([] & r' & -> & timeout & progress & -> & Hb & Hp).
  eexists. split; [reflexivity|]. split_and!; try done; apply Hb.
Qed.

Lemma becomeFollower_resets_witness :
  ∃ r', becomeFollower 7 2 ex_candidate = Ok (tt, r') ∧ r_Term r' = 7 ∧ r_Vote r' = 0 ∧
    (10 ≤ r_randomizedElectionTimeout r' < 20)%Z.
Proof.
  assert (Hlog : r_raftLog ex_candidate = r_raftLog ex_raft) by (vm_compute; reflexivity).
  destruct (becomeFollower_resets 7 2 ex_candidate)
    as (r' & H & _ & _ & Ht & Hv & _ & Hb & _).
  - rewrite Hlog. exact ex_raft_valid.
  - vm_compute. split; reflexivity.
  - exists r'. split; [exact H|]. split; [exact Ht|]. split; [exact Hv|exact Hb].
Defined.

(** C16: becoming leader always succeeds, in the same term, and leaves what a new
    leader must start from: an empty entry of its term appended to its otherwise
    unchanged log, a configuration change only allowed past the old log's end,
    nothing known of what the others have ([Match] 0, probing from its own last
    entry on), itself replicated up to the new entry, and nothing newly committed
    but up to an entry of its term. *)
Theorem becomeLeader_spec `{RaftPB} {S} `{!Storage S} `{!StorageLaws S} (r : raft S) :
  rl_valid (r_raftLog r) → timeouts_ok r → r_state r ≠ StateFollower → r_Term r ≠ 0 →
  is_Some (t_Progress (r_prs r) !! r_id r) →
  let lg := rl_log (r_raftLog r) in let last := lg_last lg in
  last + 2 < 9223372036854775808 →
  ∃ r', becomeLeader r = Ok (tt, r') ∧
    r_state r' = StateLeader ∧ r_lead r' = r_id r ∧ r_id r' = r_id r ∧
    r_Term r' = r_Term r ∧ r_Vote r' = r_Vote r ∧ r_msgs r' = r_msgs r ∧
    r_pendingConfIndex r' = last ∧ rl_valid (r_raftLog r') ∧
    rl_log (r_raftLog r') = lg_append lg (last + 1) [MkEntry (r_Term r) (last + 1) EntryNormal ""] ∧
    l_committed (r_raftLog r) ≤ l_committed (r_raftLog r') ∧
    (l_committed (r_raftLog r') = l_committed (r_raftLog r) ∨
     l_committed (r_raftLog r') = last + 1 ∨
     lg_term lg (l_committed (r_raftLog r')) = Some (r_Term r)) ∧
    ∀ id, t_Progress (r_prs r') !! id = leader_progress r last id <$> t_Progress (r_prs r) !! id.
Proof.
  intros Hv Ht Hs Hnz Hpr lg last Hb.
  pose proof (becomeLeader_total r Hv Ht Hs Hnz Hpr Hb) as Hw. fold lg last in Hw.
  apply wp_total in Hw as ([] & r' & -> & ? & ? & ? & ? & ? & ? & ? & _ & Hv' & Hlog & [Hc Hcm] & ?).
  exists r'. split_and!; try done. destruct (Hcm Hnz) as [|Hcm']; [by left|right]. clear Hcm. rename Hcm' into Hcm.
  destruct (decide (l_committed (r_raftLog r') = last + 1)) as [|Hne]; [by left|right].
  pose proof (rv_committed _ Hv') as Hr. pose proof (rv_committed _ Hv) as Hr0.
  fold lg last in Hr0. rewrite Hlog in Hcm, Hr.
  rewrite lg_last_append in Hr by (unfold last in *; lia). change (lenN [_]) with 1 in Hr.
  rewrite lg_term_append_old in Hcm; [done|..]; unfold last in *; lia.
Qed.

Lemma becomeLeader_spec_witness :
  ∃ r', becomeLeader ex_candidate = Ok (tt, r') ∧ r_state r' = StateLeader ∧
    lg_ents (rl_log (r_raftLog r')) = [ex_entry 1 4; ex_entry 2 5; ex_entry 3 6].
Proof.
  assert (Hlog : r_raftLog ex_candidate = r_raftLog ex_raft) by (vm_compute; reflexivity).
  destruct (becomeLeader_spec ex_candidate)
    as (r' & H & Hs & _ & _ & _ & _ & _ & _ & _ & Hl & _).
  - rewrite Hlog. exact ex_raft_valid.
  - vm_compute. split; reflexivity.
  - vm_compute. discriminate.
  - vm_compute. discriminate.
  - vm_compute. eexists. reflexivity.
  - vm_compute. reflexivity.
  - exists r'. split; [exact H|]. split; [exact Hs|]. rewrite Hl. vm_compute. reflexivity.
Defined.
