(* ===== verification/RaftBallot.v ===== *)
(** * The votes behind a leader

    For a fixed set of voters, [ballot_ok] says what a candidate and a leader may
    rely on: they voted for themselves, and every other vote they count was really
    granted to them in their term ([granted]).  Every method keeps it; the one
    fact from outside that is used is that a vote response tells the truth. *)

From S2P Require Import Prelude Pb Quorum Inflights Progress Tracker Confchange.
From S2P Require Import Util Storage Unstable RaftLog ReadOnly Raft RawNode Node.
From S2P Require Import RaftFrame RaftSafety RaftElection.

Section Ballot.
Context `{RaftPB} {S : Type} `{Storage S}.
Variables (self : N) (voters : JointConfig) (granted : N → N → Prop).
Implicit Types r : raft S.

(** The votes of [votes] for the node [self] in term [term]. *)
Definition counted (term : N) (votes : gmap N bool) : Prop :=
  ∀ id, votes !! id = Some true → id = self ∨ granted term id.

Record ballot_ok r : Prop := {
  bo_id : r_id r = self ∧ self ≠ None_id;
  bo_voters : Voters (t_Config (r_prs r)) = voters;
  bo_own : r_state r = StateCandidate ∨ r_state r = StateLeader → r_Vote r = self;
  bo_votes : r_state r = StateCandidate → counted (r_Term r) (t_Votes (r_prs r));
  bo_lead : r_state r = StateLeader → ∃ votes,
    JointVoteResult voters votes = VoteWon ∧ counted (r_Term r) votes;
}.

Definition keeps_ballot r r' : Prop := ballot_ok r → ballot_ok r'.
#[export] Instance keeps_ballot_preorder : PreOrder keeps_ballot.
Proof. unfold keeps_ballot. split; [by intros r|]. intros a b c Hab Hbc Ha. auto. Qed.
Notation K := (moves keeps_ballot).

(** The fields [ballot_ok] is about. *)
Lemma keeps_ballot_same r r' :
  r_id r' = r_id r → r_Term r' = r_Term r → r_Vote r' = r_Vote r → r_state r' = r_state r →
  t_Config (r_prs r') = t_Config (r_prs r) → t_Votes (r_prs r') = t_Votes (r_prs r) →
  keeps_ballot r r'.
Proof.
  intros Hi Ht Hv Hs Hc Hvo [H0' H1 H2 H3 H4].
  split; rewrite ?Hi, ?Ht, ?Hv, ?Hs, ?Hc, ?Hvo; done.
Qed.

Lemma log_step_ballot {A} (f : raftLog S → outcome (A * raftLog S)) : K (log_step f).
Proof.
  intros r. unfold wp, log_step. destruct (f _) as [[a l]|]; [|done]. by apply keeps_ballot_same.
Qed.

#[export] Instance keeps_ballot_frame : VoteFrame keeps_ballot.
Proof.
  apply mk_vote_frame; [exact _| | | |].
  - intros r r' [] ? ?. by apply keeps_ballot_same.
  - intros r m _. by apply keeps_ballot_same.
  - intros i t. apply log_step_ballot.
  - intros i. apply log_step_ballot.
Qed.
#[local] Hint Resolve log_step_ballot : moves.

Lemma appendEntry_ballot es : K (appendEntry es).
Proof. unfold appendEntry. walk. Qed.
Lemma leader_Prop_ballot m : K (leader_Prop m).
Proof. unfold leader_Prop. walk. by apply appendEntry_ballot. Qed.
Lemma handleAppendEntries_ballot m : K (handleAppendEntries m).
Proof. unfold handleAppendEntries. walk. Qed.
#[local] Hint Resolve appendEntry_ballot leader_Prop_ballot handleAppendEntries_ballot : moves.

(** A follower and a pre-candidate rely on nothing. *)
Lemma idle_ballot r :
  r_id r = self ∧ self ≠ None_id → Voters (t_Config (r_prs r)) = voters → r_state r = StateFollower ∨ r_state r = StatePreCandidate →
  ballot_ok r.
Proof. intros Hi Hv Hs. split; [done|done|intros Hc..]; destruct Hs as [Hs|Hs]; rewrite Hs in Hc; naive_solver. Qed.

Lemma becomeFollower_ballot term lead : K (becomeFollower term lead).
Proof.
  intros r. eapply wp_mono; [apply becomeFollower_config|]. cbn. intros _ r' [Hs [Hi Hc]] Hok.
  apply idle_ballot; [rewrite Hi|rewrite Hc|by left]; apply Hok.
Qed.
#[local] Hint Resolve becomeFollower_ballot : moves.
Lemma becomePreCandidate_ballot : K becomePreCandidate.
Proof.
  intros r. eapply wp_mono; [apply becomePreCandidate_votes|]. cbn. intros _ r' ([Hi Hc] & _ & Hs) Hok.
  apply idle_ballot; [rewrite Hi|rewrite Hc|by right]; apply Hok.
Qed.
#[local] Hint Resolve becomePreCandidate_ballot : moves.

Lemma becomeCandidate_ballot : K becomeCandidate.
Proof.
  intros r. unfold becomeCandidate. apply wp_bind, wp_get. destruct (decide _); [by apply wp_panic|].
  apply wp_bind. eapply wp_mono; [apply reset_votes|]. cbn. intros _ r' [[Hi Hc] Hv] Hok.
  split; cbn; [rewrite Hi; apply Hok|rewrite Hc; apply Hok| | |done].
  { intros _. rewrite Hi. apply Hok. } intros _ id. rewrite Hv. by rewrite lookup_empty.
Qed.

(** The settings of a node in its term, once [reset] has kept them. *)
Lemma reset_same r :
  wp True (reset (r_Term r)) r (λ _ r', r_Term r' = r_Term r ∧ r_Vote r' = r_Vote r ∧ same_config r r').
Proof.
  pose proof (reset_spec (r_Term r) r) as H1. pose proof (reset_votes (r_Term r) r) as H2.
  unfold wp in *. destruct (reset _ r) as [[[] r']|]; [|done].
  destruct H2 as [Hc _]. unfold settle in H1. rewrite N.eqb_refl in H1. by destruct H1.
Qed.

Lemma becomeLeader_ballot r votes :
  ballot_ok r → r_Vote r = self → JointVoteResult voters votes = VoteWon →
  counted (r_Term r) votes → wp True becomeLeader r (λ _ r', ballot_ok r').
Proof.
  intros Hok Hv Hwon Hc. unfold becomeLeader. apply wp_bind, wp_get.
  destruct (decide _); [by apply wp_panic|]. apply wp_bind. eapply wp_mono; [apply reset_same|].
  cbn beta. intros _ r1 (Ht1 & Hv1 & [Hi1 Hc1]). apply wp_bind, wp_modify.
  set (r2 := update r_state _ _).
  assert (H2 : ballot_ok r2).
  { split; cbn; [rewrite Hi1; apply Hok|rewrite Hc1; apply Hok|by intros _; rewrite Hv1|done|].
    intros _. exists votes. by rewrite Ht1. }
  match goal with |- wp True ?m r2 _ => assert (Hm : K m) by walk end.
  eapply wp_mono; [apply Hm|]. cbn. intros _ r3 H3. by apply H3.
Qed.

(** ** Elections *)

(** Recording a vote that was really granted. *)
Lemma poll_ballot id v r :
  ballot_ok r → (r_state r = StateCandidate → v = true → id = self ∨ granted (r_Term r) id) →
  wp True (poll id v) r (λ '(_, _, res) r', ballot_ok r' ∧ r_state r' = r_state r ∧ r_id r' = r_id r ∧
    r_Term r' = r_Term r ∧ (res = VoteWon → JointVoteResult voters (t_Votes (r_prs r')) = VoteWon)).
Proof.
  intros [Hi0 Hv Ho Hvo Hl] Hid. unfold poll. apply wp_bind, wp_modify, wp_gets.
  destruct (TallyVotes _) as [[g rj] res] eqn:Ht. apply TallyVotes_result in Ht.
  assert (Hc : t_Config (RecordVote (r_prs r) id v) = t_Config (r_prs r)).
  { unfold RecordVote. by destruct (t_Votes _ !! _). }
  split_and!; [|done|done|done|].
  - split; cbn; [done|by rewrite Hc|done| |done]. intros Hs k. unfold RecordVote.
    destruct (t_Votes (r_prs r) !! id) eqn:Hk; [by apply Hvo|]. cbn.
    intros [(<- & ->)|[_ Hl2]]%lookup_insert_Some; [by apply Hid|by apply Hvo].
  - intros ->. rewrite <- Hv, <- Hc. exact Ht.
Qed.

Lemma requests_ballot ids t vm term me :
  vm = MsgVote ∨ vm = MsgPreVote →
  K (forM ids (λ id, if id =? me then mret tt else request_vote t vm term id)).
Proof. intros Hvm. walk. apply request_vote_frame; [exact _|done]. Qed.

(** It is enough to look at the runs from states that satisfy the invariant. *)
Lemma wp_keeps {A} (m : M (raft S) A) r :
  (ballot_ok r → wp True m r (λ _, ballot_ok)) → wp True m r (λ _, keeps_ballot r).
Proof. unfold wp, keeps_ballot. destruct (m r) as [[a r']|]; auto. Qed.
Lemma K_wp {A} (m : M (raft S) A) r : K m → ballot_ok r → wp True m r (λ _, ballot_ok).
Proof. intros Hm Hok. eapply wp_mono; [apply Hm|]. cbn. intros _ r' Hk. by apply Hk. Qed.

Lemma campaign_with_ballot after t : K after → K (campaign_with after t).
Proof.
  intros Ha r. apply wp_keeps. intros Hok. unfold campaign_with. apply wp_bind.
  assert (Hs : wp True (if bool_decide (t = campaignPreElection) then becomePreCandidate else becomeCandidate) r
    (λ _ r1, ballot_ok r1 ∧ (bool_decide (t = campaignPreElection) = false → r_state r1 = StateCandidate))).
  { destruct (bool_decide _).
    - eapply wp_mono; [apply (K_wp _ _ becomePreCandidate_ballot Hok)|done].
    - apply wp_and; [apply (K_wp _ _ becomeCandidate_ballot Hok)|].
      eapply wp_mono; [apply becomeCandidate_votes|]. by cbn; intros _ r1 (_ & _ & ?). }
  eapply wp_mono; [exact Hs|]. clear Hs. cbn beta. intros _ r1 [Hok1 Hs1].
  apply wp_bind, wp_get, wp_bind. eapply wp_mono; [apply (poll_ballot (r_id r1) true r1 Hok1); left; apply Hok1|].
  cbn beta. intros [[g rj] res] r2 (Hok2 & Hs2 & Hi2 & Ht2 & Hw2).
  destruct (decide (res = VoteWon)) as [->|_].
  - destruct (bool_decide _) eqn:Ht; [by apply K_wp|].
    rewrite (Hs1 eq_refl) in Hs2.
    apply (becomeLeader_ballot r2 (t_Votes (r_prs r2))); [done| |by apply Hw2|by apply (bo_votes _ Hok2)].
    apply (bo_own _ Hok2). by left.
  - apply wp_bind, wp_gets. apply K_wp; [|done]. apply requests_ballot. destruct (bool_decide _); auto.
Qed.
Lemma campaign_ballot t : K (campaign t).
Proof. unfold campaign. do 2 apply campaign_with_ballot. walk. Qed.
#[local] Hint Resolve campaign_ballot : moves.
Lemma hup_ballot t : K (hup t).
Proof. unfold hup. walk. Qed.
#[local] Hint Resolve hup_ballot : moves.

(** ** The handlers *)

(** A vote response tells the truth. *)
Definition truthful (m : Message) : Prop :=
  m_Type m = MsgVoteResp → m_Term m ≠ 0 ∧ (m_Reject m = false → granted (m_Term m) (m_From m)).

Lemma stepFollower_ballot m : m_Type m ≠ MsgSnap → K (stepFollower m).
Proof.
  intros Hm. unfold stepFollower. apply moves_bind; [exact _|apply moves_get, _|intros r].
  destruct (m_Type m) eqn:Ht; try done; walk.
Qed.

Lemma candidate_vote_ballot m r :
  truthful m → m_Type m = (if decide (r_state r = StatePreCandidate) then MsgPreVoteResp else MsgVoteResp) →
  r_state r = StateCandidate ∨ r_state r = StatePreCandidate →
  m_Type m = MsgPreVoteResp ∨ m_Term m = 0 ∨ m_Term m = r_Term r →
  wp True (candidate_vote m) r (λ _, keeps_ballot r).
Proof.
  intros Htr Hty Hst Htm. apply wp_keeps. intros Hok. unfold candidate_vote. apply wp_bind.
  assert (Hid : r_state r = StateCandidate → negb (m_Reject m) = true →
    m_From m = self ∨ granted (r_Term r) (m_From m)).
  { intros Hs Hr%negb_true_iff. right. rewrite Hs in Hty. cbn in Hty. destruct (Htr Hty) as [Hnz Hg].
    destruct Htm as [Ht|[?|Ht]]; [by rewrite Hty in Ht|done|]. rewrite <- Ht. by apply Hg. }
  eapply wp_mono; [apply (poll_ballot _ _ _ Hok Hid)|]. cbn beta.
  intros [[g rj] res] r1 (Hok1 & Hs1 & Hi1 & Ht1 & Hw1). apply wp_bind, wp_get.
  destruct res.
  - by apply wp_ret.
  - apply K_wp; [apply becomeFollower_ballot|done].
  - destruct (decide (r_state r1 = StatePreCandidate)) as [Hp|Hp]; [apply K_wp; [apply campaign_ballot|done]|].
    assert (Hc : r_state r1 = StateCandidate) by (rewrite Hs1 in *; by destruct Hst).
    apply wp_bind. eapply wp_mono.
    { apply (becomeLeader_ballot r1 (t_Votes (r_prs r1))); [done| |by apply Hw1|by apply (bo_votes _ Hok1)].
      apply (bo_own _ Hok1). by left. }
    cbn beta. intros _ r2 Hok2. apply K_wp; [walk|done].
Qed.

Lemma stepCandidate_ballot m r :
  truthful m → m_Type m ≠ MsgSnap → r_state r = StateCandidate ∨ r_state r = StatePreCandidate →
  m_Type m = MsgPreVoteResp ∨ m_Type m = MsgPreVote ∨ m_Term m = 0 ∨ m_Term m = r_Term r →
  wp True (stepCandidate m) r (λ _, keeps_ballot r).
Proof.
  intros Htr Hsn Hs Hterm. unfold stepCandidate. apply wp_bind, wp_get.
  assert (Hcv : m_Type m = (if decide (r_state r = StatePreCandidate) then MsgPreVoteResp else MsgVoteResp) →
    wp True (candidate_vote m;; mret (M := M (raft S)) (@None error)) r (λ _, keeps_ballot r)).
  { intros Ht. apply wp_then_ret. apply candidate_vote_ballot; try done.
    destruct Hterm as [?|[Hf|?]]; auto. rewrite Ht in Hf. by destruct (decide _). }
  revert Hcv. generalize (if decide (r_state r = StatePreCandidate) then MsgPreVoteResp else MsgVoteResp).
  intros rt Hcv.
  destruct (m_Type m) eqn:Ht; try done; try (match goal with |- wp True ?k _ _ => assert (Hk : K k) by walk end; apply Hk).
  all: case_decide as Hd; [by apply Hcv|].
  all: match goal with |- wp True ?k _ _ => assert (Hk : K k) by walk end; apply Hk.
Qed.

Lemma leader_CheckQuorum_ballot : K leader_CheckQuorum.
Proof. unfold leader_CheckQuorum. walk. Qed.
#[local] Hint Resolve leader_CheckQuorum_ballot : moves.
Lemma stepLeader_ballot m : K (stepLeader m).
Proof. unfold stepLeader. walk. Qed.

(** The handling of the term. *)
Lemma step_term_ballot m : K (step_term m).
Proof. unfold step_term, higher_term. walk. Qed.

(** A candidate or a leader has voted, so it does not change its vote. *)
Lemma step_vote_ballot m : K (step_vote m).
Proof.
  intros r. apply wp_keeps. intros Hok. unfold step_vote. apply wp_bind, wp_get, wp_bind.
  assert (Hup : wp True (if can_vote r m then log_read (λ l, isUpToDate l (m_Index m) (m_LogTerm m))
      else mret false) r (λ up r', r' = r ∧ (up = true → can_vote r m = true))).
  { destruct (can_vote r m); [by apply wp_lift|done]. }
  eapply wp_mono; [exact Hup|]. cbn. intros up ? [-> Hcan].
  apply wp_bind, wp_lift; [|done]. intros _ _. apply wp_bind, wp_lift; [|done]. intros rt _.
  destruct up.
  - apply wp_bind. eapply wp_mono; [apply send_spec|]. cbn beta. intros _ r1 (reply & -> & _).
    specialize (Hcan eq_refl). apply wp_when; [intros Hv%bool_decide_eq_true|intros _; by apply (keeps_ballot_same r)].
    apply wp_modify. destruct Hok as [[Hi1 Hi] Hvt Ho Hvo Hl]. split; cbn; [done|done| |done|done].
    intros Hs. specialize (Ho Hs). unfold can_vote in Hcan. rewrite Hv, orb_false_r, Ho in Hcan.
    rewrite (proj2 (N.eqb_neq _ _) Hi), orb_false_r in Hcan. by apply N.eqb_eq in Hcan.
  - eapply wp_mono; [apply send_spec|]. cbn beta. intros _ r1 (reply & -> & _).
    by apply (keeps_ballot_same r).
Qed.

(** [Step] keeps the invariant, provided a vote response tells the truth and the
    message does not bring another configuration. *)
Lemma Step_ballot m : truthful m → m_Type m ≠ MsgSnap → K (Step m).
Proof.
  intros Htr Hsn r. apply wp_keeps. intros Hok. unfold Step. apply wp_bind.
  eapply wp_mono; [apply wp_and; [apply (step_term_elects m)|apply (K_wp _ _ (step_term_ballot m) Hok)]|].
  cbn beta. intros go r1 [Hst Hok1]. destruct go; cbn [negb]; [|by apply wp_ret].
  assert (Hstep : wp True (step m) r1 (λ _, ballot_ok)).
  { unfold step. apply wp_bind, wp_get. destruct (r_state r1) eqn:Hs.
    - apply K_wp; [by apply stepFollower_ballot|done].
    - eapply wp_mono; [apply stepCandidate_ballot; [done|done|by left|]|cbn; auto].
      destruct Hst as [[E _]|[_ Hst]]; [congruence|]. by destruct (Hst eq_refl) as [-> ?].
    - apply K_wp; [apply stepLeader_ballot|done].
    - eapply wp_mono; [apply stepCandidate_ballot; [done|done|by right|]|cbn; auto].
      destruct Hst as [[E _]|[_ Hst]]; [congruence|]. by destruct (Hst eq_refl) as [-> ?]. }
  assert (Hvote : wp True (step_vote m;; mret (M := M (raft S)) (@None error)) r1 (λ _, ballot_ok)).
  { apply wp_then_ret, K_wp; [apply step_vote_ballot|done]. }
  destruct (m_Type m); first [exact Hstep|exact Hvote|idtac].
  apply wp_bind, wp_get, wp_then_ret, K_wp; [apply hup_ballot|done].
Qed.

(** ** The other calls of a node *)

Lemma local_msg_ballot t : t ≠ MsgVoteResp → t ≠ MsgSnap → K (local_msg t).
Proof.
  intros Hv Hs. unfold local_msg. apply moves_bind; [exact _|apply moves_gets; exact _|intros i].
  by apply Step_ballot.
Qed.

Lemma tick_ballot : K tick.
Proof.
  assert (Hh : K (local_msg MsgHup)) by by apply local_msg_ballot.
  assert (Hb : K (local_msg MsgBeat)) by by apply local_msg_ballot.
  assert (Hc : K (local_msg MsgCheckQuorum)) by by apply local_msg_ballot.
  unfold tick, tickHeartbeat, tickElection, leader_timeout. walk.
Qed.

Lemma prop_ballot m : m_Type m = MsgProp → K (prop m).
Proof.
  intros Ht. unfold prop. apply moves_bind; [exact _|apply moves_gets; exact _|intros i].
  apply Step_ballot; unfold truthful; cbn; by rewrite Ht.
Qed.
Lemma recv_ballot m : truthful m → m_Type m ≠ MsgSnap → K (recv m).
Proof. intros Ht Hs. pose proof (Step_ballot m Ht Hs). unfold recv. walk. Qed.

Lemma advance_applied_ballot i : K (advance_applied i).
Proof. unfold advance_applied, auto_leave. walk. Qed.
#[local] Hint Resolve advance_applied_ballot : moves.
Lemma advance_ballot rd : K (advance rd).
Proof. unfold advance. walk. Qed.
End Ballot.

(** More votes may turn out to have been granted. *)
Lemma ballot_ok_mono {S} self voters (granted granted' : N → N → Prop) (r : raft S) :
  (∀ t id, granted t id → granted' t id) → ballot_ok self voters granted r →
  ballot_ok self voters granted' r.
Proof.
  intros Hg [Hi Hv Ho Hvo Hl].
  assert (Hc : ∀ t votes, counted self granted t votes → counted self granted' t votes).
  { intros t votes Hc id Hid. destruct (Hc id Hid) as [?|?]; auto. }
  split; [done|done|done|auto|]. intros Hs. destruct (Hl Hs) as (votes & ? & ?). exists votes. auto.
Qed.
