(* ===== verification/RaftRoles.v ===== *)
(** * Roles and terms

    A node becomes a candidate only by raising its term, and a leader only of a
    term in which it is a candidate.  Together with the vote this makes it lead a
    term at most once between two crashes. *)

From S2P Require Import Prelude Pb Quorum Inflights Progress Tracker Confchange.
From S2P Require Import Util Storage Unstable RaftLog ReadOnly Raft RawNode Node.
From S2P Require Import RaftFrame RaftSafety RaftElection.

(** Without a change of term, no candidate appears, and a leader only in place of
    a candidate. *)
Record turns {S} (r r' : raft S) : Prop := {
  tn_term : r_Term r ≤ r_Term r';
  tn_candidate : r_Term r' = r_Term r → r_state r' = StateCandidate → r_state r = StateCandidate;
  tn_leader : r_Term r' = r_Term r → r_state r' = StateLeader →
    r_state r = StateCandidate ∨ r_state r = StateLeader;
}.
(** Neither the term nor the role changes. *)
Definition settled {S} (r r' : raft S) : Prop := r_Term r' = r_Term r ∧ r_state r' = r_state r.

#[export] Instance turns_preorder {S} : PreOrder (@turns S).
Proof.
  split; [by split; auto|]. intros a b c [Ht1 Hc1 Hl1] [Ht2 Hc2 Hl2]. split; [lia| |]; intros Ht Hs.
  - apply Hc1; [lia|]. apply Hc2; [lia|done].
  - destruct (Hl2 ltac:(lia) Hs) as [?|?]; [left; apply Hc1; [lia|done]|apply Hl1; [lia|done]].
Qed.
#[export] Instance settled_preorder {S} : PreOrder (@settled S).
Proof. unfold settled. split; [by intros r|]. intros a b c [] []. split; congruence. Qed.

Lemma settled_turns {S} (r r' : raft S) : settled r r' → turns r r'.
Proof. intros [Ht Hs]. split; rewrite ?Ht, ?Hs; auto. Qed.
Lemma raised_turns {S} (r r' : raft S) : r_Term r < r_Term r' → turns r r'.
Proof. intros Ht. split; [lia|intros; lia..]. Qed.
(** A follower and a pre-candidate can appear at any time. *)
Lemma idle_turns {S} (r r' : raft S) :
  r_Term r ≤ r_Term r' → r_state r' = StateFollower ∨ r_state r' = StatePreCandidate → turns r r'.
Proof. intros Ht Hs. split; [done|intros _ E; rewrite E in Hs; by destruct Hs..]. Qed.

(** [m] changes the role in that way and raises the term by at most [n]. *)
Definition turning {S A} (n : N) (m : M (raft S) A) (r : raft S) : Prop :=
  r_Term r + n < two64 → wp True m r (λ _ r', turns r r' ∧ r_Term r' ≤ r_Term r + n).

Section Roles.
Context `{RaftPB} {S : Type} `{Storage S}.
Implicit Types r : raft S.
Notation Q := (moves (@settled S)).

Lemma log_step_settled {A} (f : raftLog S → outcome (A * raftLog S)) : Q (log_step f).
Proof. intros r. unfold wp, log_step. by destruct (f _) as [[]|]. Qed.
#[export] Instance settled_frame : Frame (@settled S).
Proof.
  apply mk_frame; try exact _; try (intros; apply log_step_settled); [by intros r r' []|by intros r m _].
Qed.
#[local] Hint Resolve log_step_settled : moves.

Lemma appendEntry_settled es : Q (appendEntry es).
Proof. unfold appendEntry. walk. Qed.
#[local] Hint Resolve appendEntry_settled : moves.
Lemma leader_Prop_settled m : Q (leader_Prop m).
Proof. unfold leader_Prop. walk. Qed.
Lemma handleAppendEntries_settled m : Q (handleAppendEntries m).
Proof. unfold handleAppendEntries. walk. Qed.
Lemma advance_applied_settled i : Q (advance_applied i).
Proof. unfold advance_applied, auto_leave. walk. Qed.
Lemma send_settled m : Q (send m).
Proof. intros r. eapply wp_mono; [apply send_spec|]. by intros [] r1 (? & -> & _). Qed.
#[local] Hint Resolve leader_Prop_settled handleAppendEntries_settled send_settled : moves.
Lemma step_vote_settled m : Q (step_vote m).
Proof. unfold step_vote. walk. Qed.

Lemma turning_settled {A} n (m : M (raft S) A) r : Q m → turning n m r.
Proof.
  intros Hm Hr. eapply wp_mono; [apply Hm|]. cbn. intros _ r' Hs. split; [by apply settled_turns|].
  destruct Hs as [-> _]. lia.
Qed.
Lemma turning_bind {A B} n n1 n2 (m : M (raft S) A) (f : A → M (raft S) B) r :
  n1 + n2 ≤ n → turning n1 m r → (∀ a r', turning n2 (f a) r') → turning n (m ≫= f) r.
Proof.
  intros Hn Hm Hf Hr. apply wp_bind. eapply wp_mono; [apply Hm; lia|]. cbn.
  intros a r1 [Ha Hb]. eapply wp_mono; [apply Hf; lia|]. cbn. intros b r2 [Ha2 Hb2].
  split; [by etrans|lia].
Qed.
Lemma turning_get {B} n (f : raft S → M (raft S) B) r : turning n (f r) r → turning n (get ≫= f) r.
Proof. intros Hf Hr. apply wp_bind, wp_get. by apply Hf. Qed.
Lemma turning_after {A B} n (m : M (raft S) A) (f : A → M (raft S) B) r :
  Q m → (∀ a r', settled r r' → turning n (f a) r') → turning n (m ≫= f) r.
Proof.
  intros Hm Hf Hr. apply wp_bind. eapply wp_mono; [apply Hm|]. cbn. intros a r1 Hs.
  pose proof Hs as [Ht _]. eapply wp_mono; [apply Hf; [done|lia]|]. cbn. intros b r2 [Ha Hb].
  split; [|lia]. etrans; [by apply settled_turns|done].
Qed.
Lemma turning_before {A B} n (m : M (raft S) A) (f : A → M (raft S) B) r :
  turning n m r → (∀ a, Q (f a)) → turning n (m ≫= f) r.
Proof.
  intros Hm Hf. apply (turning_bind n n 0); [lia|done|]. intros. by apply turning_settled.
Qed.
Lemma turning_le {A} n k (m : M (raft S) A) r : n ≤ k → turning n m r → turning k m r.
Proof.
  intros Hn Hm Hr. eapply wp_mono; [apply Hm; lia|]. cbn. intros ?? []. split; [done|lia].
Qed.
Lemma turning_panic {A} n r : turning n (panic (A:=A)) r.
Proof. intros Hr. by apply wp_panic. Qed.

(** ** The changes of role *)

Lemma becomeFollower_turning term lead n r :
  r_Term r ≤ term ≤ r_Term r + n → turning n (becomeFollower term lead) r.
Proof.
  intros Ht Hr. eapply wp_mono.
  { apply wp_and; [by apply (becomeFollower_climbs term lead n)|apply becomeFollower_spec_state]. }
  cbn. intros _ r' [[Ha Hb] Hs]. split; [|done]. apply idle_turns; [apply Ha|by left].
Qed.

(** A campaign raises the term or makes a pre-candidate. *)
Lemma becomeCandidate_raises r :
  r_Term r + 1 < two64 → wp True becomeCandidate r (λ _ r', r_Term r' = r_Term r + 1).
Proof.
  intros Hr. unfold becomeCandidate. apply wp_bind, wp_get. destruct (decide _); [by apply wp_panic|].
  apply wp_bind. eapply wp_mono; [apply reset_spec|]. cbn. intros _ r1 Hq.
  rewrite add64_small in Hq by lia. by rewrite (q_term _ _ Hq), settle_term.
Qed.
Lemma campaign_with_turning after t r :
  (∀ r', turning 1 after r') → turning 1 (campaign_with after t) r.
Proof.
  intros Hafter Hr. unfold campaign_with. destruct (decide (t = campaignPreElection)) as [->|Hne].
  - rewrite bool_decide_eq_true_2 by done. revert Hr. apply (turning_bind 1 0 1); [lia| |].
    { intros Hr. eapply wp_mono.
      { apply wp_and; [apply becomePreCandidate_quiet|apply becomePreCandidate_votes]. }
      cbn. intros _ r1 (Hq & _ & _ & Hs). rewrite (q_term _ _ Hq). split; [|lia].
      apply idle_turns; [rewrite (q_term _ _ Hq); lia|by right]. }
    intros _ r1. apply turning_get, turning_after; [walk|]. intros [[g rj] res] r2 _.
    destruct (decide (res = VoteWon)); [apply Hafter|]. apply turning_settled. walk.
  - pose proof (campaign_with_climbs after t 1 r) as Hc. rewrite decide_False in Hc by done.
    rewrite bool_decide_eq_false_2 by done.
    apply wp_bind. eapply wp_mono; [by apply becomeCandidate_raises|]. cbn beta. intros _ r1 Ht1.
    assert (Hrest : climbs 0 (r ← get; '(_, _, res) ← poll (r_id r) true;
      (if decide (res = VoteWon) then becomeLeader
       else ids ← gets (λ r, insertionSort (elements (IDs (Voters (t_Config (r_prs r))))));
            forM ids (λ id, if id =? r_id r then mret tt else request_vote t MsgVote (r_Term r) id))) r1).
    { apply climbs_get, climbs_after; [walk|]. intros [[g rj] res] r2.
      destruct (decide (res = VoteWon)); [apply becomeLeader_climbs|]. apply climbs_quiet. walk.
      apply request_vote_frame; [exact _|by left]. }
    eapply wp_mono; [apply Hrest; lia|]. cbn. intros _ r' [Ha Hb]. pose proof (a_term _ _ Ha).
    split; [apply raised_turns; lia|lia].
Qed.
Lemma campaign_turning t r : turning 1 (campaign t) r.
Proof. unfold campaign. do 2 (apply campaign_with_turning; intros ?). apply turning_settled. walk. Qed.
Lemma hup_turning t r : turning 1 (hup t) r.
Proof.
  unfold hup. apply turning_get. destruct (decide _); [apply turning_settled; walk|].
  destruct (negb _); [apply turning_settled; walk|]. apply turning_after; [walk|]. intros ents r' _.
  destruct (_ && _); [apply turning_settled; walk|apply campaign_turning].
Qed.

(** A candidate may become a leader. *)
Lemma becomeLeader_turning r : r_state r = StateCandidate → turning 0 becomeLeader r.
Proof.
  intros Hs Hr. eapply wp_mono; [by apply (becomeLeader_climbs r)|]. cbn. intros _ r' [Ha Hb].
  split; [|done]. split; [apply Ha|by intros _ _|by intros _ _; left].
Qed.
Lemma candidate_vote_turning m r :
  r_state r = StateCandidate ∨ r_state r = StatePreCandidate → turning 1 (candidate_vote m) r.
Proof.
  intros Hs. unfold candidate_vote. apply turning_after; [walk|]. intros [[g rj] res] r1 [Ht1 Hs1].
  apply turning_get. destruct res.
  - apply turning_settled. walk.
  - apply becomeFollower_turning. lia.
  - destruct (decide _) as [|Hne]; [apply campaign_turning|].
    apply (turning_bind 1 0 1); [lia|apply becomeLeader_turning|intros; apply turning_settled; walk].
    rewrite Hs1 in *. by destruct Hs.
Qed.

(** ** The handlers *)

Lemma stepFollower_turning m r : m_Type m ≠ MsgSnap → turning 1 (stepFollower m) r.
Proof.
  intros Hm. unfold stepFollower. apply turning_get.
  destruct (m_Type m) eqn:Ht; try done; try (apply turning_settled; walk; fail).
  - apply turning_before; [apply hup_turning|intros; walk].
Qed.
Lemma stepCandidate_turning m r :
  m_Type m ≠ MsgSnap → r_state r = StateCandidate ∨ r_state r = StatePreCandidate →
  (from_leader (m_Type m) = true → m_Term m = r_Term r) → turning 1 (stepCandidate m) r.
Proof.
  intros Hm Hs Hterm. unfold stepCandidate. apply turning_get.
  assert (Hbf : m_Term m = r_Term r → turning 0 (becomeFollower (m_Term m) (m_From m)) r).
  { intros Ht. apply becomeFollower_turning. lia. }
  generalize (if decide (r_state r = StatePreCandidate) then MsgPreVoteResp else MsgVoteResp). intros rt.
  destruct (m_Type m) eqn:Ht; try done.
  all: try (apply turning_settled; walk; fail).
  all: try (case_decide; [apply turning_before; [by apply candidate_vote_turning|intros; walk]
                         |apply turning_settled; walk]; fail).
  all: apply (turning_bind 1 0 1); [lia|by apply Hbf; auto|]; intros; apply turning_settled; walk.
Qed.
Lemma leader_CheckQuorum_turning r : turning 0 leader_CheckQuorum r.
Proof.
  unfold leader_CheckQuorum. apply turning_get, turning_after; [walk|]. intros _ r1 [Ht1 _].
  apply turning_after; [walk|]. intros t r2 [Ht2 _]. apply turning_before; [|intros; walk].
  destruct (negb _); [|apply turning_settled; cbn; walk]. cbn [when]. apply becomeFollower_turning. lia.
Qed.
Lemma stepLeader_turning m r : turning 0 (stepLeader m) r.
Proof.
  unfold stepLeader. destruct (m_Type m); try (apply turning_settled; walk; fail).
  apply turning_before; [apply leader_CheckQuorum_turning|intros; walk].
Qed.
Lemma step_turning m r :
  m_Type m ≠ MsgSnap → (from_leader (m_Type m) = true → m_Term m = r_Term r) → turning 1 (step m) r.
Proof.
  intros Hm Ht. unfold step. apply turning_get. destruct (r_state r) eqn:Hs.
  - by apply stepFollower_turning.
  - apply stepCandidate_turning; auto.
  - apply (turning_le 0); [lia|]. apply stepLeader_turning.
  - apply stepCandidate_turning; auto.
Qed.

Lemma step_term_turns m r : wp True (step_term m) r (λ _ r', turns r r').
Proof.
  assert (Hq : ∀ A (k : M (raft S) A), Q k → wp True k r (λ _ r', turns r r')).
  { intros A k Hk. eapply wp_mono; [apply Hk|]. cbn. intros _ r'. apply settled_turns. }
  unfold step_term. apply wp_bind, wp_get. destruct (_ =? 0); [apply Hq; walk|].
  destruct (N.ltb_spec (r_Term r) (m_Term m)) as [Hlt|Hge]; [|destruct (_ <? _); apply Hq; walk].
  assert (Hbf : ∀ lead, wp True (becomeFollower (m_Term m) lead) r (λ _ r', turns r r')).
  { intros lead. eapply wp_mono; [apply becomeFollower_spec|]. cbn. intros _ r' Hq'.
    apply raised_turns. by rewrite (q_term _ _ Hq'), settle_term. }
  unfold higher_term. apply wp_bind, wp_get. destruct (_ && _ && _); [apply Hq; walk|].
  apply wp_then_ret. destruct (m_Type m); try destruct (m_Reject m); try apply Hbf; apply Hq; walk.
Qed.

(** [Step] on anything but a snapshot. *)
Lemma Step_turns m r :
  sane m → m_Type m ≠ MsgSnap → N.max (r_Term r) (m_Term m) + 1 < two64 →
  wp True (Step m) r (λ _ r', turns r r').
Proof.
  intros [Hl _] Hm Hb. unfold Step. apply wp_bind.
  eapply wp_mono; [apply wp_and; [apply (step_term_spec m)|apply (step_term_turns m)]|].
  cbn beta. intros go r1 [(_ & Ht1 & Hgo) Ht]. destruct go; cbn [negb]; [|by apply wp_ret].
  specialize (Hgo eq_refl).
  assert (Hk : ∀ A (k : M (raft S) A), turning 1 k r1 → wp True k r1 (λ _ r', turns r r')).
  { intros A k Hk. eapply wp_mono; [apply Hk; lia|]. cbn. intros _ r2 [Ha _]. by etrans. }
  destruct (m_Type m) eqn:Hty; try done.
  all: try (apply Hk, turning_settled; walk; apply step_vote_settled).
  all: try (apply Hk, step_turning; rewrite ?Hty; try done; intros Hfl; apply Hgo; auto; fail).
  apply Hk, turning_get, turning_before; [apply hup_turning|intros; walk].
Qed.

Lemma local_msg_turning t r :
  t = MsgHup ∨ t = MsgCheckQuorum ∨ t = MsgBeat → turning 1 (local_msg t) r.
Proof.
  intros Ht Hr. unfold local_msg. apply wp_bind, wp_gets. set (m := (msg t 0) <| m_From := r_id r |>).
  pose proof (local_msg_climbs t r Ht Hr) as Hc. unfold local_msg in Hc.
  apply wp_and; [|eapply wp_mono; [exact Hc|by cbn; intros _ r' [_ ?]]].
  apply Step_turns; [by split; destruct Ht as [-> | [-> | ->]]|by destruct Ht as [-> | [-> | ->]]|cbn; lia].
Qed.
Lemma tick_turning r : turning 2 tick r.
Proof.
  unfold tick. apply turning_get. destruct (decide _).
  - unfold tickHeartbeat. apply turning_after; [walk|]. intros _ r1 _. apply turning_get.
    apply (turning_bind 2 1 1); [lia| |].
    + destruct (bool_decide _); [|apply turning_settled; cbn; walk]. cbn [when]. unfold leader_timeout.
      apply turning_after; [walk|]. intros _ r2 _. apply turning_get. apply turning_before; [|intros; walk].
      destruct (r_checkQuorum r2); [|apply turning_settled; cbn; walk]. cbn [when].
      apply turning_before; [|intros; walk]. apply local_msg_turning. auto.
    + intros _ r2. apply turning_get. destruct (negb _); [apply turning_settled; walk|].
      case_bool_decide; [|apply turning_settled; walk].
      apply turning_after; [walk|]. intros _ r3 _. apply turning_before; [|intros; walk].
      apply local_msg_turning. auto.
  - apply (turning_le 1); [lia|]. unfold tickElection. apply turning_after; [walk|]. intros _ r1 _.
    apply turning_get. destruct (_ && _); [|apply turning_settled; walk].
    apply turning_after; [walk|]. intros _ r2 _. apply turning_before; [|intros; walk].
    apply local_msg_turning. auto.
Qed.
End Roles.
