(* ===== verification/RaftInvariant.v ===== *)
(** * The log invariant of the state machine

    Every call of [Step] keeps the raft log well formed and never changes a committed
    entry; [growth] and [reach] bound what it adds to the log. *)

From S2P Require Import Prelude Pb Quorum Inflights Progress Tracker Confchange.
From S2P Require Import Util Storage Unstable RaftLog ReadOnly Raft.
From S2P Require Import RaftFrame RaftSafety RaftElection.

(** The entry with index [i]. *)
Definition lg_entry (lg : Log) (i : N) : option Entry :=
  if lg_prev lg <? i then lg_ents lg !! lg_pos lg i else None.

Lemma lg_entry_append_old lg after ents i :
  i < after → after ≤ lg_last lg + 1 → lg_entry (lg_append lg after ents) i = lg_entry lg i.
Proof.
  unfold lg_entry, lg_append, lg_last, lg_pos, lenN. cbn. intros Hi Ha.
  destruct (N.ltb_spec (lg_prev lg) i); [|done].
  rewrite lookup_app_l by (rewrite length_take; lia). by rewrite lookup_take_lt by lia.
Qed.

Section Kept.
Context `{RaftPB} {S : Type} `{!Storage S} `{!StorageLaws S}.
Implicit Types r : raft S.
Implicit Types l : raftLog S.

(** A well-formed log; the entry before the first index has no term. *)
Record log_inv l : Prop := {
  li_valid : rl_valid l;
  li_zero : lg_prev (rl_log l) = 0 → lg_prev_term (rl_log l) = 0;
}.

(** The committed entries that are not compacted stay as they are. *)
Record log_kept l l' : Prop := {
  lk_committed : l_committed l ≤ l_committed l';
  lk_prev : lg_prev (rl_log l) ≤ lg_prev (rl_log l');
  lk_entry i : lg_prev (rl_log l') < i → i ≤ l_committed l →
    lg_entry (rl_log l') i = lg_entry (rl_log l) i;
}.

#[export] Instance log_kept_preorder : PreOrder log_kept.
Proof.
  split; [by split|]. intros a b c [Hc1 Hp1 He1] [Hc2 Hp2 He2]. split; [lia|lia|].
  intros i Hi Hc. rewrite He2, He1 by lia. done.
Qed.

(** The log did not change but for the committed index. *)
Lemma log_kept_same l l' :
  rl_log l' = rl_log l → l_committed l ≤ l_committed l' → log_kept l l'.
Proof. intros Hl Hc. split; [done|by rewrite Hl|by rewrite Hl]. Qed.

Lemma log_kept_append l l' after ents :
  rl_valid l → rl_log l' = lg_append (rl_log l) after ents → l_committed l < after →
  after ≤ lg_last (rl_log l) + 1 → l_committed l ≤ l_committed l' → log_kept l l'.
Proof.
  intros Hv Hl Ha Hal Hc. split; rewrite ?Hl; [done|done|].
  intros i _ Hi. apply lg_entry_append_old; lia.
Qed.

(** The methods that do not append, the rest being well formed. *)
Definition keeps r r' : Prop :=
  log_inv (r_raftLog r) → log_inv (r_raftLog r') ∧ log_kept (r_raftLog r) (r_raftLog r') ∧
  rl_log (r_raftLog r') = rl_log (r_raftLog r).

#[export] Instance keeps_preorder : PreOrder keeps.
Proof.
  split; [intros r Hi; by split_and!|]. intros a b c Hab Hbc Ha. destruct (Hab Ha) as (Hb & Hk & Hl).
  destruct (Hbc Hb) as (Hc & Hk' & Hl'). split_and!; [done|by etrans|by rewrite Hl'].
Qed.

Lemma keeps_log r r' : r_raftLog r' = r_raftLog r → keeps r r'.
Proof. intros Hl Hi. by rewrite Hl. Qed.

Lemma keeps_committed r l' :
  (rl_valid (r_raftLog r) → rl_valid l' ∧ rl_log l' = rl_log (r_raftLog r) ∧
     l_committed (r_raftLog r) ≤ l_committed l') →
  keeps r (r <| r_raftLog := l' |>).
Proof.
  intros Hc [Hv Hz]. destruct (Hc Hv) as (Hv' & Hlog & Hle). cbn. split_and!; [|by apply log_kept_same|done].
  split; [done|by rewrite Hlog].
Qed.

#[export] Instance keeps_frame : Frame keeps.
Proof.
  apply mk_frame; [exact _| | | |].
  - intros r r' Hc. apply keeps_log, c_log, Hc.
  - intros r m _. by apply keeps_log.
  - intros i t r. unfold wp, log_step. destruct (maybeCommit _ i t) as [[b l']|] eqn:Hm; [|done].
    apply keeps_committed. intros Hv.
    destruct (maybeCommit_keeps _ _ _ _ _ Hv Hm) as (? & ? & _ & []). done.
  - intros i r. unfold wp, log_step. destruct (commitTo _ i) as [[b l']|] eqn:Hc; [|done].
    apply keeps_committed. intros Hv. pose proof (commitTo_valid _ i Hv) as Hct.
    destruct (_ <? i); rewrite Hct in Hc || destruct Hct as (l2 & Hct & ? & ? & _ & ?).
    + injection Hc as _ <-. by split_and!.
    + rewrite Hct in Hc. injection Hc as _ <-. split_and!; [done|done|lia].
Qed.
End Kept.

(** [walk] where changes of other fields than the log are no matter. *)
Ltac walk_log := walk; try (apply keeps_log; reflexivity).

Section Grows.
Context `{RaftPB} {S : Type} `{!Storage S} `{!StorageLaws S}.
Implicit Types r : raft S.
Notation K := (moves (@keeps _ S _ _)).

Lemma reset_keeps term : K (reset term).
Proof. unfold reset. walk_log. Qed.
#[local] Hint Resolve reset_keeps : moves.
Lemma becomeFollower_keeps term lead : K (becomeFollower term lead).
Proof. unfold becomeFollower. walk_log. Qed.
Lemma becomeCandidate_keeps : K becomeCandidate.
Proof. unfold becomeCandidate. walk_log. Qed.
Lemma becomePreCandidate_keeps : K becomePreCandidate.
Proof. unfold becomePreCandidate. walk_log. Qed.
#[local] Hint Resolve becomeFollower_keeps becomeCandidate_keeps becomePreCandidate_keeps : moves.
Lemma leader_CheckQuorum_keeps : K leader_CheckQuorum.
Proof. unfold leader_CheckQuorum. walk_log. Qed.
Lemma step_term_keeps m : K (step_term m).
Proof. unfold step_term, higher_term. walk_log. Qed.
Lemma send_keeps m : K (send m).
Proof. intros r. eapply wp_mono; [apply send_spec|]. intros [] r1 (? & -> & _). by apply keeps_log. Qed.
#[local] Hint Resolve send_keeps : moves.
Lemma step_vote_keeps m : K (step_vote m).
Proof. unfold step_vote. walk_log. Qed.
Lemma check_proposals_keeps i es : K (check_proposals i es).
Proof. apply check_proposals_frame. exact _. Qed.

Definition log_last r : N := lg_last (rl_log (r_raftLog r)).

(** From a last index of at most [a], [m] keeps the log and ends with a last
    index of at most [b]. *)
Definition grows {A} (a b : N) (m : M (raft S) A) r : Prop :=
  log_inv (r_raftLog r) → log_last r ≤ a →
  wp True m r (λ _ r', log_inv (r_raftLog r') ∧ log_kept (r_raftLog r) (r_raftLog r') ∧ log_last r' ≤ b).

Lemma grows_keeps {A} a b (m : M (raft S) A) r : a ≤ b → K m → grows a b m r.
Proof.
  intros Hab Hm Hi Ha. eapply wp_mono; [apply Hm|]. cbn. intros x r' Hk.
  destruct (Hk Hi) as (? & ? & Hl). split_and!; try done. unfold log_last in *. rewrite Hl. lia.
Qed.

Lemma grows_bind {A B} a b c (m : M (raft S) A) (f : A → M (raft S) B) r :
  grows a b m r → (∀ x r', grows b c (f x) r') → grows a c (m ≫= f) r.
Proof.
  intros Hm Hf Hi Ha. apply wp_bind. eapply wp_mono; [by apply Hm|]. cbn.
  intros x r1 (Hi1 & Hk1 & Hb). eapply wp_mono; [by apply Hf|]. cbn.
  intros y r2 (Hi2 & Hk2 & Hc). split_and!; [done|by etrans|done].
Qed.

Lemma grows_get {B} a b (f : raft S → M (raft S) B) r : grows a b (f r) r → grows a b (get ≫= f) r.
Proof. intros Hf Hi Ha. apply wp_bind, wp_get. by apply Hf. Qed.
(** Steps that keep the log, before and after. *)
Lemma grows_after {A B} a b (m : M (raft S) A) (f : A → M (raft S) B) r :
  K m → (∀ x r', grows a b (f x) r') → grows a b (m ≫= f) r.
Proof. intros Hm Hf. apply (grows_bind a a b); [by apply grows_keeps|done]. Qed.
Lemma grows_before {A B} a b (m : M (raft S) A) (f : A → M (raft S) B) r :
  grows a b m r → (∀ x, K (f x)) → grows a b (m ≫= f) r.
Proof. intros Hm Hf. apply (grows_bind a b b); [done|]. intros. by apply grows_keeps. Qed.
Lemma grows_le {A} a a' b b' (m : M (raft S) A) r : a ≤ a' → b' ≤ b → grows a' b' m r → grows a b m r.
Proof.
  intros Ha Hb Hm Hi Hl. eapply wp_mono; [apply Hm; [done|lia]|]. cbn. intros ? ? (? & ? & ?).
  split_and!; [done|done|lia].
Qed.
Lemma grows_panic {A} a b r : grows a b (panic (A:=A)) r.
Proof. intros Hi Ha. by apply wp_panic. Qed.

Lemma appendEntry_grows a es r :
  es ≠ [] → a + 1 + lenN es < 9223372036854775808 → grows a (a + lenN es) (appendEntry es) r.
Proof.
  intros Hne Hb [Hv Hz] Ha. unfold log_last in Ha.
  eapply wp_mono; [by apply (appendEntry_spec True); [..|lia]|]. cbn beta zeta. intros acc r' Hacc.
  destruct acc; [|destruct Hacc as [_ ->]; split_and!; [done|done|unfold log_last; lia]].
  destruct Hacc as (_ & pr & l' & _ & -> & Hv' & Hlog & _ & Hown). unfold log_last. cbn.
  pose proof (rv_committed _ Hv). split_and!.
  - split; [done|]. rewrite Hlog. exact Hz.
  - apply (log_kept_append _ _ _ _ Hv Hlog); [lia|lia|apply Hown].
  - rewrite Hlog, lg_last_append by lia. unfold lenN. rewrite length_stamp. unfold lenN in *. lia.
Qed.

Lemma becomeLeader_grows a r : a + 2 < 9223372036854775808 → grows a (a + 1) becomeLeader r.
Proof.
  intros Hb. unfold becomeLeader. apply grows_get. destruct (decide _); [apply grows_panic|].
  do 5 (apply grows_after; [walk_log|intros ? ?]).
  apply (grows_before a (a + 1)); [|intros []; walk_log].
  by apply (appendEntry_grows a [Entry_zero]); [done|unfold lenN; cbn; lia].
Qed.

Lemma campaign_with_grows a after t r :
  a + 2 < 9223372036854775808 → (∀ r', grows a (a + 1) after r') →
  grows a (a + 1) (campaign_with after t) r.
Proof.
  intros Hb Hafter. unfold campaign_with.
  apply grows_after; [destruct (bool_decide _); eauto with moves|]. intros _ r1. apply grows_get.
  apply grows_after; [walk_log|]. intros [[g rj] res] r2. destruct (decide (res = VoteWon)).
  - destruct (bool_decide _); [apply Hafter|by apply becomeLeader_grows].
  - apply grows_keeps; [lia|]. destruct (bool_decide _); walk_log; (apply request_vote_frame; [exact _|auto]).
Qed.

Lemma campaign_grows a t r : a + 2 < 9223372036854775808 → grows a (a + 1) (campaign t) r.
Proof.
  intros Hb. unfold campaign. apply campaign_with_grows; [done|]. intros r'.
  apply campaign_with_grows; [done|]. intros. apply grows_keeps; [lia|]. walk_log.
Qed.

Lemma hup_grows a t r : a + 2 < 9223372036854775808 → grows a (a + 1) (hup t) r.
Proof.
  intros Hb. assert (Hret : ∀ r, grows a (a + 1) (mret tt) r) by (intros; apply grows_keeps; [lia|walk_log]).
  unfold hup. apply grows_get. destruct (decide _); [apply Hret|]. destruct (negb _); [apply Hret|].
  apply grows_after; [walk_log|]. intros ents r1. destruct (_ && _); [apply Hret|by apply campaign_grows].
Qed.

Lemma candidate_vote_grows a m r : a + 2 < 9223372036854775808 → grows a (a + 1) (candidate_vote m) r.
Proof.
  intros Hb. unfold candidate_vote. apply grows_after; [walk_log|]. intros [[g rj] res] r1.
  apply grows_get. destruct res; [apply grows_keeps; [lia|walk_log]..|].
  destruct (decide _); [by apply campaign_grows|]. apply grows_before; [by apply becomeLeader_grows|].
  intros. walk_log.
Qed.

(** What the log relies on in a message: the entries of an append follow the
    index it names and have terms, and so does the entry before them unless the
    append starts the log; nothing goes beyond [a]. *)
Record log_msg (a : N) (m : Message) : Prop := {
  lm_app : m_Type m = MsgApp → contiguous (m_Index m) (m_Entries m) ∧ has_terms (m_Entries m) ∧
    (m_Entries m ≠ [] → m_LogTerm m = 0 → m_Index m = 0) ∧ m_Index m + lenN (m_Entries m) ≤ a;
  lm_snap : m_Type m = MsgSnap → s_Index (m_Snapshot m) ≤ a;
}.

Lemma maybeAppend_nothing l index logTerm committed res l' :
  rl_valid l → maybeAppend l index logTerm committed [] = Ok (res, l') →
  rl_valid l' ∧ rl_log l' = rl_log l ∧ l_committed l ≤ l_committed l'.
Proof.
  intros Hv. unfold maybeAppend. rewrite matchTerm_valid by done. cbn [mbind outcome_bind].
  destruct (_ =? logTerm); [|by intros [= _ <-]]. cbn [findConflict mbind outcome_bind N.eqb].
  pose proof (commitTo_valid l (min committed (index +u lenN (@nil Entry))) Hv) as Hc.
  destruct (_ <? _); [by rewrite Hc; intros [= _ <-]|].
  destruct Hc as (l2 & -> & ? & ? & _ & Hcm). intros [= _ <-]. split_and!; [done|done|lia].
Qed.

Lemma log_append_case l a index logTerm committed ents l' res :
  log_inv l → l_committed l ≤ index → (ents ≠ [] → logTerm = 0 → index = 0) → contiguous index ents →
  has_terms ents → index + lenN ents ≤ a → a + 2 < 9223372036854775808 →
  lg_last (rl_log l) ≤ a → maybeAppend l index logTerm committed ents = Ok (res, l') →
  log_inv l' ∧ log_kept l l' ∧ lg_last (rl_log l') ≤ a.
Proof.
  intros [Hv Hz] Hci Hlt Hc Ht Hia Hb Hla Hm. pose proof (rv_committed _ Hv) as Hcm.
  assert (Hsame : l' = l → log_inv l' ∧ log_kept l l' ∧ lg_last (rl_log l') ≤ a) by (by intros ->).
  destruct (decide (ents = [])) as [->|Hne].
  { apply maybeAppend_nothing in Hm as (? & Hl & ?); [|done].
    split_and!; [split; [done|by rewrite Hl]|by apply log_kept_same|by rewrite Hl]. }
  specialize (Hlt Hne).
  destruct (decide (lg_term (rl_log l) index = Some logTerm)) as [Hin|Hin].
  - pose proof (maybeAppend_match l index logTerm committed ents Hv Hin Hc Ht ltac:(lia)) as Hma.
    cbn zeta in Hma. case_bool_decide as Hbd; [by rewrite Hm in Hma|].
    destruct Hma as (l2 & Hm2 & Hv2 & _ & Hcm2 & Hlog). rewrite Hm in Hm2. injection Hm2 as _ <-.
    destruct (N.eqb_spec (lg_conflict (rl_log l) ents) 0) as [H0|H0].
    { split_and!; [split; [done|by rewrite Hlog]|apply log_kept_same; [done|lia]|by rewrite Hlog]. }
    destruct (lg_conflict_spec (rl_log l) index ents Hc Ht) as [[? _]|(k & e & Hk & Hce & Hle & _)].
    { assert (Hs : is_Some (lg_term (rl_log l) index)) by (by eexists).
      apply lg_term_is_Some in Hs. lia. }
    { done. }
    apply lookup_lt_Some in Hk.
    split_and!.
    + split; [done|]. by rewrite Hlog.
    + apply (log_kept_append _ _ _ _ Hv Hlog); lia.
    + rewrite Hlog, lg_last_append, lenN_drop by lia. lia.
  - apply Hsame. revert Hm. unfold maybeAppend. rewrite matchTerm_valid by done.
    cbn [mbind outcome_bind].
    destruct (N.eqb_spec (default 0 (lg_term (rl_log l) index)) logTerm) as [He|]; [|by intros [= _ <-]].
    destruct (lg_term (rl_log l) index) as [t|] eqn:Eq; [by destruct Hin; subst|].
    cbn in He. subst logTerm. rewrite Hlt in * by done.
    assert (Hn : ¬ is_Some (lg_term (rl_log l) 0)) by (rewrite Eq; by intros [? ?]).
    rewrite lg_term_is_Some in Hn. lia.
Qed.

Lemma handleAppendEntries_grows a m r :
  m_Type m = MsgApp → log_msg a m → a + 2 < 9223372036854775808 →
  grows a a (handleAppendEntries m) r.
Proof.
  intros Hm [Happ _] Hb Hi Ha. destruct (Happ Hm) as (Hc & Ht & H0 & Hia).
  unfold handleAppendEntries. apply wp_bind, wp_get.
  destruct (N.ltb_spec (m_Index m) (l_committed (r_raftLog r))) as [Hlt|Hge].
  { by apply (grows_keeps a a); [|walk_log|..]. }
  apply wp_bind, (wp_log_read _ _ _ _ _ (lastIndex_valid _ (li_valid _ Hi))).
  revert Hi Ha. apply (grows_before a a); [|intros; walk_log].
  intros Hi Ha. unfold wp, log_step. destruct (maybeAppend _ _ _ _ _) as [[res l']|] eqn:Hma; [|done].
  unfold log_last. cbn. by eapply log_append_case.
Qed.

Lemma restore_grows a s r :
  s_Index s ≤ a → a + 2 < 9223372036854775808 → grows a a (restore s) r.
Proof.
  intros Hs Hb Hi Ha. unfold restore. apply wp_bind, wp_get.
  assert (Hk : ∀ k : M (raft S) bool, K k → wp True k r (λ _ r', log_inv (r_raftLog r') ∧
    log_kept (r_raftLog r) (r_raftLog r') ∧ log_last r' ≤ a)).
  { intros k Hk. by apply (grows_keeps a a). }
  destruct (N.leb_spec (s_Index s) (l_committed (r_raftLog r))) as [|Hc]; [apply Hk; walk_log|].
  destruct (negb _); [apply Hk; walk_log|]. destruct (negb _); [apply Hk; walk_log|].
  apply wp_bind, wp_lift; [|done]. intros b _. destruct b; [apply Hk; walk_log|].
  apply wp_bind, wp_modify. set (r1 := update r_prs _ _).
  destruct Hi as [Hv Hz]. pose proof (rv_committed _ Hv). pose proof (rv_applied _ Hv).
  destruct (log_restore_valid (r_raftLog r) s Hv) as (Hv1 & Hlog1 & Hc1 & _); [lia|unfold two64; lia|].
  assert (Hr1 : log_inv (r_raftLog r1) ∧ log_kept (r_raftLog r) (r_raftLog r1) ∧ log_last r1 ≤ a).
  { unfold log_last. change (r_raftLog r1) with (log_restore (r_raftLog r) s). split_and!.
    - split; [done|]. rewrite Hlog1. cbn [lg_prev]. lia.
    - split; rewrite ?Hc1, ?Hlog1; cbn [lg_prev]; lia.
    - rewrite Hlog1. unfold lg_last, lenN. cbn [lg_prev lg_ents length]. lia. }
  destruct Hr1 as (Hi1 & Hk1 & Ha1). eapply wp_mono.
  { apply (grows_keeps a a); [done| |exact Hi1|exact Ha1]. walk_log. }
  cbn. intros x r2 (? & ? & ?). split_and!; [done|by etrans|done].
Qed.

Lemma handleSnapshot_grows a m r :
  m_Type m = MsgSnap → log_msg a m → a + 2 < 9223372036854775808 → grows a a (handleSnapshot m) r.
Proof.
  intros Hm [_ Hs] Hb. unfold handleSnapshot. apply grows_before; [by apply restore_grows; [apply Hs|]|].
  intros b. walk_log.
Qed.

(** What a handler may add at the end of the log: a leader the entries proposed, a
    node that may win its election by the message the empty entry of a leader. *)
Definition growth (m : Message) : N :=
  match m_Type m with
  | MsgProp => lenN (m_Entries m)
  | MsgHup | MsgTimeoutNow | MsgVoteResp | MsgPreVoteResp => 1
  | _ => 0
  end.
Notation room a m := (a + growth m).

Lemma stepFollower_grows a m r :
  log_msg a m → room a m + 2 < 9223372036854775808 → grows a (room a m) (stepFollower m) r.
Proof.
  intros Hm Hb. unfold stepFollower. apply grows_get.
  assert (Hk : ∀ k : M (raft S) (option error), K k → grows a (room a m) k r).
  { intros k Hk. apply grows_keeps; [lia|done]. }
  assert (Hf : K (forward_to_lead m)) by (unfold forward_to_lead; walk_log).
  destruct (m_Type m) eqn:Ht; try (apply Hk; walk_log; exact Hf).
  - apply (grows_le a a _ a); [lia|lia|]. apply grows_after; [walk_log|]. intros _ r1.
    apply grows_before; [by apply handleAppendEntries_grows; [..|lia]|intros; walk_log].
  - apply (grows_le a a _ a); [lia|lia|]. apply grows_after; [walk_log|]. intros _ r1.
    apply grows_before; [by apply handleSnapshot_grows; [..|lia]|intros; walk_log].
  - apply (grows_le a a _ (a + 1)); [lia|unfold growth; rewrite Ht; lia|].
    apply grows_before; [apply hup_grows; unfold growth in Hb; rewrite Ht in Hb; lia|intros; walk_log].
Qed.

Lemma stepCandidate_grows a m r :
  log_msg a m → room a m + 2 < 9223372036854775808 → grows a (room a m) (stepCandidate m) r.
Proof.
  intros Hm Hb. unfold stepCandidate. apply grows_get.
  assert (Hk : ∀ k : M (raft S) (option error), K k → grows a (room a m) k r).
  { intros k Hk. apply grows_keeps; [lia|done]. }
  assert (Hcv : m_Type m = MsgPreVoteResp ∨ m_Type m = MsgVoteResp →
    grows a (room a m) (candidate_vote m;; mret (M := M (raft S)) (@None error)) r).
  { intros Hty. assert (Hg : growth m = 1) by (unfold growth; by destruct Hty as [-> | ->]).
    rewrite Hg in *. apply grows_before; [apply candidate_vote_grows; lia|intros; walk_log]. }
  assert (Hrt : (if decide (r_state r = StatePreCandidate) then MsgPreVoteResp else MsgVoteResp) = MsgPreVoteResp ∨
    (if decide (r_state r = StatePreCandidate) then MsgPreVoteResp else MsgVoteResp) = MsgVoteResp)
    by (case_decide; auto).
  revert Hrt. generalize (if decide (r_state r = StatePreCandidate) then MsgPreVoteResp else MsgVoteResp). intros rt Hrt.
  destruct (m_Type m) eqn:Ht; try (case_decide; [apply Hcv; naive_solver|apply Hk; walk_log]);
    try (apply Hk; walk_log; fail).
  - apply (grows_le a a _ a); [lia|lia|]. apply grows_after; [walk_log|]. intros _ r1.
    apply grows_before; [by apply handleAppendEntries_grows; [..|lia]|intros; walk_log].
  - apply (grows_le a a _ a); [lia|lia|]. apply grows_after; [walk_log|]. intros _ r1.
    apply grows_before; [by apply handleSnapshot_grows; [..|lia]|intros; walk_log].
Qed.

Lemma check_proposals_length i es r :
  wp True (check_proposals i es) r (λ es' _, length es' = length es).
Proof.
  revert i r. induction es as [|e es IH]; intros i r; cbn [check_proposals]; [done|].
  apply wp_bind, wp_lift; [|done]. intros cc _. apply wp_bind, wp_get, wp_bind.
  apply (wp_mono _ _ _ (λ _ _, True)); [by apply wp_whatever|]. intros e' r1 _.
  apply wp_bind. eapply wp_mono; [apply IH|]. cbn beta. intros es' r2 Hl. apply wp_ret. cbn [length]. by f_equal.
Qed.

Lemma leader_Prop_grows a m r :
  m_Type m = MsgProp → room a m + 2 < 9223372036854775808 → grows a (room a m) (leader_Prop m) r.
Proof.
  intros Hty Hb. unfold leader_Prop. apply grows_get.
  assert (Hk : ∀ k : M (raft S) (option error), K k → grows a (room a m) k r).
  { intros k Hk. apply grows_keeps; [lia|done]. }
  destruct (length (m_Entries m) =? 0)%nat eqn:He; [apply grows_panic|]. apply Nat.eqb_neq in He.
  destruct (t_Progress (r_prs r) !! r_id r); [|apply Hk; walk_log].
  destruct (negb _); [apply Hk; walk_log|].
  intros Hi Ha. apply wp_bind. eapply wp_mono.
  { apply wp_and; [apply check_proposals_keeps|apply (check_proposals_length 0)]. }
  cbn beta. intros es r1 [Hk1 Hl]. destruct (Hk1 Hi) as (Hi1 & Hlk & Hlog).
  assert (Hn : lenN es = lenN (m_Entries m)) by (unfold lenN; by rewrite Hl).
  assert (Ha1 : log_last r1 ≤ a) by (unfold log_last in *; by rewrite Hlog).
  eapply wp_mono.
  { revert Hi1 Ha1. apply (grows_before a (room a m)); [|intros; walk_log].
    assert (Hg : growth m = lenN (m_Entries m)) by (unfold growth; by rewrite Hty).
    apply (grows_le a a _ (a + lenN es)); [lia|lia|]. apply appendEntry_grows; [by intros ->|lia]. }
  cbn. intros x r2 (? & ? & ?). split_and!; [done|by etrans|done].
Qed.

Lemma stepLeader_grows a m r :
  room a m + 2 < 9223372036854775808 → grows a (room a m) (stepLeader m) r.
Proof.
  intros Hb. unfold stepLeader.
  assert (Hk : ∀ k : M (raft S) (option error), K k → grows a (room a m) k r).
  { intros k Hk. apply grows_keeps; [lia|done]. }
  pose proof leader_CheckQuorum_keeps as Hcq.
  destruct (m_Type m) eqn:Ht; first [by apply leader_Prop_grows | apply Hk; walk_log; apply Hcq].
Qed.

Lemma step_grows a m r :
  log_msg a m → room a m + 2 < 9223372036854775808 → grows a (room a m) (step m) r.
Proof.
  intros Hm Hb. unfold step. apply grows_get. destruct (r_state r).
  - by apply stepFollower_grows.
  - by apply stepCandidate_grows.
  - by apply stepLeader_grows.
  - by apply stepCandidate_grows.
Qed.

Lemma Step_grows a m r :
  log_msg a m → room a m + 2 < 9223372036854775808 → grows a (room a m) (Step m) r.
Proof.
  intros Hm Hb. unfold Step. apply grows_after; [apply step_term_keeps|]. intros go r1.
  assert (Hk : ∀ k : M (raft S) (option error), K k → grows a (room a m) k r1).
  { intros k Hk. apply grows_keeps; [lia|done]. }
  destruct (negb go); [apply Hk; walk_log|].
  destruct (m_Type m) eqn:Ht; try (by apply step_grows);
    try (apply Hk; walk_log; apply step_vote_keeps).
  apply grows_get. assert (Hg : growth m = 1) by (unfold growth; by rewrite Ht). rewrite Hg in *.
  apply grows_before; [apply hup_grows; lia|intros; walk_log].
Qed.

Lemma local_msg_grows a t r :
  t = MsgHup ∨ t = MsgCheckQuorum ∨ t = MsgBeat → a + 3 < 9223372036854775808 →
  grows a (a + 1) (local_msg t) r.
Proof.
  intros Ht Hb. unfold local_msg. apply grows_after; [walk_log|]. intros id r1.
  set (m := (msg t 0) <| m_From := id |>).
  assert (Hl : growth m ≤ 1) by (unfold growth; cbn; by destruct Ht as [-> | [-> | ->]]).
  apply (grows_le a a _ (room a m)); [lia|lia|]. apply Step_grows; [|lia].
  split; intros E; exfalso; cbn in E; subst t; by destruct Ht as [?|[?|?]].
Qed.

(** A tick makes at most two local messages, of which one may make a leader. *)
Lemma tick_grows a r : a + 5 < 9223372036854775808 → grows a (a + 2) tick r.
Proof.
  intros Hb. unfold tick. apply grows_get. destruct (decide _).
  - unfold tickHeartbeat. apply grows_after; [walk_log|]. intros _ r1. apply grows_get.
    apply (grows_bind a (a + 1) (a + 2)).
    + destruct (bool_decide _); cbn [when]; [|apply grows_keeps; [lia|walk_log]].
      unfold leader_timeout. apply grows_after; [walk_log|]. intros _ r2. apply grows_get.
      apply grows_before; [|intros; walk_log].
      destruct (r_checkQuorum r2); cbn [when]; [|apply grows_keeps; [lia|walk_log]].
      apply grows_before; [|intros; walk_log]. apply local_msg_grows; [auto|lia].
    + intros _ r2. apply grows_get. destruct (negb _); [apply grows_keeps; [lia|walk_log]|].
      destruct (bool_decide _); [|apply grows_keeps; [lia|walk_log]].
      apply grows_after; [walk_log|]. intros _ r3. apply grows_before; [|intros; walk_log].
      replace (a + 2) with (a + 1 + 1) by lia. apply local_msg_grows; [auto|lia].
  - unfold tickElection. apply grows_after; [walk_log|]. intros _ r1. apply grows_get.
    destruct (_ && _); [|apply grows_keeps; [lia|walk_log]].
    apply grows_after; [walk_log|]. intros _ r2. apply (grows_le a a _ (a + 1)); [lia|lia|].
    apply grows_before; [|intros; walk_log]. apply local_msg_grows; [auto|lia].
Qed.
End Grows.

(** ** Properties *)

(** How far an append or a snapshot reaches. *)
Definition reach (m : Message) : N :=
  match m_Type m with
  | MsgApp => m_Index m + lenN (m_Entries m)
  | MsgSnap => s_Index (m_Snapshot m)
  | _ => 0
  end.
Lemma log_msg_mono a b m : a ≤ b → log_msg a m → log_msg b m.
Proof.
  intros Hab [H1 H2]. split.
  - intros Hm. destruct (H1 Hm) as (? & ? & ? & ?). split_and!; try done. lia.
  - intros Hm. specialize (H2 Hm). lia.
Qed.

(** C8: committed entries never change.  Whatever well-formed message a node
    handles, in any role, its log stays well formed with the applied and
    committed indexes inside it, the committed index does not decrease, and every
    committed entry that is not compacted away is the same before and after.  After
    an append or a snapshot the last index is at most the greater of the one before
    and the index at which the message ends; a proposal adds at most its entries, a
    message by which an election may be won at most one, and any other message
    nothing. *)
Theorem Step_log_safety `{RaftPB} {S} `{!Storage S} `{!StorageLaws S} (m : Message)
    (r r' : raft S) (e : option error) :
  let limit := N.max (lg_last (rl_log (r_raftLog r))) (reach m) in
  log_inv (r_raftLog r) → log_msg (reach m) m → limit + growth m + 2 < 9223372036854775808 →
  Step m r = Ok (e, r') →
  log_inv (r_raftLog r') ∧
  l_committed (r_raftLog r) ≤ l_committed (r_raftLog r') ∧
  (∀ i, lg_prev (rl_log (r_raftLog r')) < i → i ≤ l_committed (r_raftLog r) →
     lg_entry (rl_log (r_raftLog r')) i = lg_entry (rl_log (r_raftLog r)) i) ∧
  lg_last (rl_log (r_raftLog r')) ≤ limit + growth m.
Proof.
  intros limit Hi Hm Hb Hstep. apply (log_msg_mono _ limit) in Hm; [|lia].
  pose proof (Step_grows limit m r Hm Hb Hi ltac:(unfold log_last; lia)) as Hw.
  unfold wp in Hw. rewrite Hstep in Hw. destruct Hw as (? & [] & ?). by split_and!.
Qed.

#[local] Existing Instance ex_pb.

(** A leader at term 3 sends entry 6 after entry 5 of term 2. *)
Definition ex_append : Message :=
  (msg MsgApp 1) <| m_From := 2 |> <| m_Term := 3 |> <| m_Index := 5 |> <| m_LogTerm := 2 |>
    <| m_Entries := [ex_entry 3 6] |> <| m_Commit := 6 |>.

Lemma Step_log_safety_witness :
  ∃ r', Step ex_append ex_raft = Ok (None, r') ∧ l_committed (r_raftLog r') = 6 ∧
    lg_entry (rl_log (r_raftLog r')) 5 = Some (ex_entry 2 5).
Proof.
  destruct (Step ex_append ex_raft) as [[e r']|] eqn:H; [|vm_compute in H; discriminate H].
  pose proof (Step_log_safety ex_append ex_raft r' e) as Hs. cbn zeta in Hs.
  assert (Hv : e = None ∧ l_committed (r_raftLog r') = 6 ∧ lg_prev (rl_log (r_raftLog r')) = 3)
    by (vm_compute in H; injection H as <- <-; vm_compute; done).
  destruct Hv as (-> & Hc & Hp). exists r'. split; [reflexivity|]. split; [exact Hc|].
  destruct Hs as (_ & _ & He & _).
  - split; [exact ex_raft_valid|vm_compute; discriminate].
  - split; [|vm_compute; discriminate]. intros _. split.
    { apply contiguous_cons; split; [reflexivity|apply contiguous_nil]. }
    split; [|split]; vm_compute; [|discriminate|discriminate].
    apply Forall_cons; split; [reflexivity|apply Forall_nil; exact I].
  - vm_compute. reflexivity.
  - exact H.
  - rewrite He; [vm_compute; reflexivity|rewrite Hp; vm_compute; reflexivity|].
    vm_compute. discriminate.
Defined.
