(* ===== verification/RaftTotal.v ===== *)
(** * A well-formed state machine never panics

    The methods of [raft] panic, dereference nil pointers and index slices when
    what they rely on does not hold.  [raft_ok] is what a node relies on between
    calls, [acceptable] what it relies on in a message; [Step] then returns, and
    leaves a well-formed state.  Most methods are [safe]: they return and keep
    [raft_ok], the identity, the term, the role, the tracked nodes and the log but
    for the committed index. *)

From S2P Require Import Prelude Pb Quorum Inflights Progress Tracker Confchange Peers.
From S2P Require Import Util Storage Unstable RaftLog ReadOnly Raft.
From S2P Require Import RaftFrame RaftSafety RaftElection RaftInvariant.

(** ** Well-formed states *)

(** The progress of a node: the flow-control invariant, and a window with room. *)
Record peer_ok (pr : Progress) : Prop := {
  po_progress : progress_ok pr;
  po_pending : pr_PendingSnapshot pr < maxUint64;
  po_size : (0 < in_size (pr_Inflights pr))%Z;
}.

Section State.
Context `{RaftPB} {S : Type} `{!Storage S} `{!StorageLaws S}.
Implicit Types r : raft S.
Implicit Types l : raftLog S.

(** A compacted log has a snapshot to send instead of the missing entries. *)
Definition snapshot_ready l : Prop :=
  lg_prev (rl_log l) = 0 ∨ log_snapshot l = Ok (Err ErrSnapshotTemporarilyUnavailable) ∨
  ∃ s, log_snapshot l = Ok (Val s) ∧ 0 < s_Index s < maxUint64.

(** The entries to apply are at hand unless a snapshot is to be applied first. *)
Record log_safe l : Prop := {
  ls_inv : log_inv l;
  ls_ready : hasPendingSnapshot l = false → lg_prev (rl_log l) ≤ l_applied l;
  ls_snapshot : snapshot_ready l;
}.

Record raft_ok r : Prop := {
  ok_log : log_safe (r_raftLog r);
  ok_timeouts : timeouts_ok r;
  ok_inflight : (0 < t_MaxInflight (r_prs r) < 4611686018427387904)%Z;
  ok_config : config_wf (t_Config (r_prs r)) (t_Progress (r_prs r));
  ok_peers : map_Forall (λ _, peer_ok) (t_Progress (r_prs r));
  ok_candidate : r_state r = StateCandidate ∨ r_state r = StatePreCandidate →
    is_Some (t_Progress (r_prs r) !! r_id r);
  ok_term : r_Term r = 0 → lg_last (rl_log (r_raftLog r)) = 0 ∧
    ¬ (r_state r = StateCandidate ∨ r_state r = StateLeader);
  ok_reads : readOnly_ok (r_readOnly r);
  ok_waiting : Forall (λ m, m_Entries m ≠ []) (r_pendingReadIndexMessages r);
}.

(** What the methods that are safe leave alone. *)
Record calm r r' : Prop := {
  ca_id : r_id r' = r_id r;
  ca_term : r_Term r' = r_Term r;
  ca_state : r_state r' = r_state r;
  ca_dom : dom (t_Progress (r_prs r')) = dom (t_Progress (r_prs r));
  ca_log : rl_log (r_raftLog r') = rl_log (r_raftLog r);
}.

#[export] Instance calm_preorder : PreOrder calm.
Proof. split; [by split|]. intros a b c [] []. split; congruence. Qed.

Lemma calm_tracked r r' id :
  calm r r' → is_Some (t_Progress (r_prs r) !! id) → is_Some (t_Progress (r_prs r') !! id).
Proof. intros Hc. rewrite <- !elem_of_dom. by rewrite (ca_dom _ _ Hc). Qed.

Definition safe {A} (m : M (raft S) A) r : Prop :=
  raft_ok r → wp False m r (λ _ r', raft_ok r' ∧ calm r r').

(** ** Rules *)

Lemma safe_ret {A} (a : A) r : safe (mret a) r.
Proof. intros Hr. by apply wp_ret. Qed.

Lemma safe_bind {A B} (m : M (raft S) A) (f : A → M (raft S) B) r :
  safe m r → (∀ a r', calm r r' → safe (f a) r') → safe (m ≫= f) r.
Proof.
  intros Hm Hf Hr. apply wp_bind. eapply wp_mono; [by apply Hm|]. cbn beta. intros a r1 [Hr1 Hc1].
  eapply wp_mono; [by apply (Hf a r1)|]. cbn beta. intros b r2 [Hr2 Hc2]. split; [done|by etrans].
Qed.

Lemma safe_get {B} (f : raft S → M (raft S) B) r : safe (f r) r → safe (get ≫= f) r.
Proof. intros Hf Hr. by apply wp_bind, wp_get, Hf. Qed.
Lemma safe_gets {A B} (g : raft S → A) (f : A → M (raft S) B) r : safe (f (g r)) r → safe (gets g ≫= f) r.
Proof. intros Hf Hr. by apply wp_bind, wp_gets, Hf. Qed.

(** A read that returns in a well-formed state. *)
Lemma safe_read {A} (f : raft S → outcome A) r :
  (raft_ok r → is_Some (match f r with Ok a => Some a | Panic => None end)) → safe (lift f) r.
Proof.
  intros Hf Hr. unfold wp, lift. destruct (f r) as [a|]; [by split|]. by destruct (Hf Hr).
Qed.
Lemma safe_log_read {A} (f : raftLog S → outcome A) r :
  (log_safe (r_raftLog r) → ∃ a, f (r_raftLog r) = Ok a) → safe (log_read f) r.
Proof. intros Hf. apply safe_read. intros Hr. destruct (Hf (ok_log _ Hr)) as [a ->]. by eexists. Qed.

Lemma safe_when b (m : M (raft S) unit) r : (b = true → safe m r) → safe (when b m) r.
Proof. intros Hm. destruct b; [by apply Hm|apply safe_ret]. Qed.

Lemma safe_forM {A} (xs : list A) (f : A → M (raft S) unit) r :
  (∀ x r', x ∈ xs → calm r r' → safe (f x) r') → safe (forM xs f) r.
Proof.
  revert r. induction xs as [|x xs IH]; intros r Hf; cbn [forM]; [apply safe_ret|].
  apply safe_bind; [apply Hf; [by left|done]|]. intros _ r1 Hc1. apply IH.
  intros y r2 Hy Hc2. apply Hf; [by right|by etrans].
Qed.

(** A loop over the tracked nodes. *)
Lemma safe_visit (f : N → M (raft S) unit) r :
  (∀ id r', is_Some (t_Progress (r_prs r') !! id) → calm r r' → safe (f id) r') → safe (visit f) r.
Proof.
  intros Hf. unfold visit. apply safe_gets, safe_forM. intros id r' Hid Hc. apply Hf; [|done].
  apply (calm_tracked r); [done|by apply elem_of_Visit].
Qed.

(** An update of fields that [raft_ok] and [calm] do not look at. *)
Record same_ok r r' : Prop := {
  so_id : r_id r' = r_id r;
  so_term : r_Term r' = r_Term r;
  so_state : r_state r' = r_state r;
  so_log : r_raftLog r' = r_raftLog r;
  so_timeout : r_electionTimeout r' = r_electionTimeout r;
  so_inflight : t_MaxInflight (r_prs r') = t_MaxInflight (r_prs r);
  so_config : t_Config (r_prs r') = t_Config (r_prs r);
  so_progress : t_Progress (r_prs r') = t_Progress (r_prs r);
  so_reads : r_readOnly r' = r_readOnly r;
  so_waiting : r_pendingReadIndexMessages r' = r_pendingReadIndexMessages r;
}.

Lemma same_ok_ok r r' : same_ok r r' → raft_ok r → raft_ok r' ∧ calm r r'.
Proof.
  intros [Hid Ht Hst Hl Hto Hmi Hcf Hp Hro Hw] [? Hti ? ? ? ? ? ? ?].
  split; [|split; congruence]. split; rewrite ?Hid, ?Ht, ?Hst, ?Hl, ?Hmi, ?Hcf, ?Hp, ?Hro, ?Hw; try done.
  unfold timeouts_ok. by rewrite Hto.
Qed.

Lemma safe_modify f r : same_ok r (f r) → safe (modify f) r.
Proof. intros Hs Hr. apply wp_modify. by apply same_ok_ok. Qed.

(** The progress of a tracked node. *)
Lemma wp_peer {B} id (f : Progress → M (raft S) B) r Q :
  raft_ok r → is_Some (t_Progress (r_prs r) !! id) →
  (∀ pr, t_Progress (r_prs r) !! id = Some pr → peer_ok pr → wp False (f pr) r Q) →
  wp False (pr_get id ≫= f) r Q.
Proof.
  intros Hr [pr Hpr] Hf. apply wp_bind, (wp_pr_get _ _ pr); [done|]. apply Hf; [done|].
  exact (map_Forall_lookup_1 _ _ _ _ (ok_peers _ Hr) Hpr).
Qed.

Lemma safe_pr_get {B} id (f : Progress → M (raft S) B) r :
  is_Some (t_Progress (r_prs r) !! id) →
  (∀ pr, t_Progress (r_prs r) !! id = Some pr → peer_ok pr → safe (f pr) r) →
  safe (pr_get id ≫= f) r.
Proof. intros Hid Hf Hr. apply wp_peer; [done|done|]. intros pr Hpr Hok. by apply Hf. Qed.

Lemma insert_learners cfg (prs : ProgressMap) id pr pr' :
  config_wf cfg prs → prs !! id = Some pr → pr_IsLearner pr' = pr_IsLearner pr →
  config_wf cfg (<[id := pr']> prs).
Proof.
  intros [Hi Hd Hn Hni Hl Hf Hne Hs] Hpr Hfl. split; try done.
  - rewrite dom_insert_lookup_L; [done|by eexists].
  - intros i p [[<- <-]|[_ Hp]]%lookup_insert_Some; [|by apply Hf].
    rewrite Hfl. by apply Hf.
Qed.

Lemma wp_pr_set id pr pr' r Q :
  raft_ok r → t_Progress (r_prs r) !! id = Some pr → peer_ok pr' →
  pr_IsLearner pr' = pr_IsLearner pr →
  (let r' := r <| r_prs ::= λ t, t <| t_Progress ::= <[id := pr']> |> |> in
   raft_ok r' → calm r r' → Q tt r') →
  wp False (pr_set id pr') r Q.
Proof.
  intros Hr Hpr Hok Hl HQ. assert (Hs : is_Some (t_Progress (r_prs r) !! id)) by by eexists.
  apply wp_modify, HQ; [|split; cbn; try done; by rewrite dom_insert_lookup_L].
  destruct Hr. split; cbn; try done.
  - by eapply insert_learners.
  - by apply map_Forall_insert_2.
  - intros Hst. rewrite lookup_insert. case_decide; [by eexists|auto].
Qed.

Lemma safe_pr_set id pr pr' r :
  t_Progress (r_prs r) !! id = Some pr → peer_ok pr' → pr_IsLearner pr' = pr_IsLearner pr →
  safe (pr_set id pr') r.
Proof. intros Hpr Hok Hl Hr. by eapply wp_pr_set. Qed.
End State.

(** ** Sending *)

(** A total and a partial statement about the same run. *)
Lemma wp_also {St A} (m : M St A) s Q Q' :
  wp False m s Q → wp True m s Q' → wp False m s (λ a s', Q a s' ∧ Q' a s').
Proof. unfold wp. destruct (m s) as [[a s']|]; auto. Qed.

Section Sending.
Context `{RaftPB} {S : Type} `{!Storage S} `{!StorageLaws S}.
Implicit Types r : raft S.
Implicit Types l : raftLog S.

Lemma safe_send m r :
  (if is_vote_type (m_Type m) then m_Term m ≠ 0 else m_Term m = 0) → safe (send m) r.
Proof.
  intros Hm. unfold send. apply safe_get.
  set (m1 := if m_From m =? None_id then _ else m).
  assert (Hm1 : m_Type m1 = m_Type m ∧ m_Term m1 = m_Term m) by (unfold m1; by destruct (_ =? _)).
  destruct Hm1 as [-> ->]. destruct (is_vote_type (m_Type m)).
  - destruct (N.eqb_spec (m_Term m) 0); [done|]. by apply safe_modify.
  - rewrite Hm. cbn [N.eqb negb]. by apply safe_modify.
Qed.

Lemma send_tracker m r : wp True (send m) r (λ _ r', r_prs r' = r_prs r).
Proof. eapply wp_mono; [apply send_spec|]. by intros [] r' (m' & -> & _). Qed.

(** ** The entries and the snapshots that are sent *)

Lemma log_entries_above l i maxsize :
  rl_valid l → lg_last (rl_log l) < i → log_entries l i maxsize = Ok (Val []).
Proof.
  intros Hv Hi. unfold log_entries. rewrite lastIndex_valid by done. cbn [mbind outcome_bind].
  by rewrite (proj2 (N.ltb_lt _ _)).
Qed.

Lemma log_entries_compacted l i maxsize :
  rl_valid l → i ≤ lg_prev (rl_log l) → i ≤ lg_last (rl_log l) →
  log_entries l i maxsize = Ok (Err ErrCompacted).
Proof.
  intros Hv Hi Hl. unfold log_entries, log_slice, mustCheckOutOfBounds.
  rewrite lastIndex_valid, firstIndex_valid by done. cbn [mbind outcome_bind].
  pose proof (log_last_small l Hv). rewrite (proj2 (N.ltb_ge _ _)) by done. nowrap.
  destruct (N.ltb_spec (lg_last (rl_log l) + 1) i); [lia|].
  by destruct (N.ltb_spec i (lg_prev (rl_log l) + 1)); [|lia].
Qed.

Lemma log_entries_valid l i maxsize :
  rl_valid l → lg_prev (rl_log l) < i → i ≤ lg_last (rl_log l) →
  log_entries l i maxsize =
    Ok (Val (limitSize (lg_slice (rl_log l) i (lg_last (rl_log l) + 1)) maxsize)).
Proof.
  intros Hv Hi Hl. unfold log_entries. rewrite lastIndex_valid by done. cbn [mbind outcome_bind].
  pose proof (log_last_small l Hv). rewrite (proj2 (N.ltb_ge _ _)) by done. nowrap.
  apply log_slice_valid; [done|lia|lia|lia].
Qed.

(** The last entry sent lies between the next index and the end of the log. *)
Lemma last_sent l i maxsize es e :
  rl_valid l → log_entries l i maxsize = Ok (Val es) → last es = Some e →
  i ≤ e_Index e ≤ lg_last (rl_log l).
Proof.
  intros Hv He Hl. destruct (decide (lg_last (rl_log l) < i)) as [|Hi].
  { rewrite log_entries_above in He by done. by injection He as <-. }
  destruct (decide (i ≤ lg_prev (rl_log l))) as [|Hp].
  { rewrite log_entries_compacted in He by (done || lia). done. }
  rewrite log_entries_valid in He by (done || lia). injection He as <-.
  set (lg := rl_log l) in *. set (sl := lg_slice lg i (lg_last lg + 1)) in *.
  assert (Hsl : lenN sl = lg_last lg + 1 - i) by (apply length_lg_slice; lia).
  pose proof (length_limitSize sl maxsize) as Hlen. rewrite last_lookup in Hl.
  destruct (limitSize_prefix sl maxsize) as (k & Hk & _). set (out := limitSize sl maxsize) in *.
  assert (Hin : sl !! Nat.pred (length out) = Some e).
  { revert Hl. generalize (Nat.pred (length out)). rewrite Hk. intros j Hl.
    by apply lookup_take_Some in Hl as [? _]. }
  unfold sl, lg_slice in Hin. apply lookup_take_Some in Hin as [Hin _]. rewrite lookup_drop in Hin.
  apply (log_contiguous _ (rv_log _ Hv)) in Hin. fold lg in Hin.
  apply lookup_lt_Some in Hl. unfold lenN, lg_pos in *. lia.
Qed.

(** A snapshot is sent when there is one. *)
Lemma send_snapshot_total to pr r :
  raft_ok r → t_Progress (r_prs r) !! to = Some pr → peer_ok pr →
  0 < lg_prev (rl_log (r_raftLog r)) →
  wp False (send_snapshot to pr) r (λ sent r', raft_ok r' ∧ calm r r' ∧
    (sent = true → ∃ pr', t_Progress (r_prs r') !! to = Some pr' ∧ pr_State pr' = StateSnapshot)).
Proof.
  intros Hr Hpr Hok Hprev. unfold send_snapshot. destruct (negb _); [by apply wp_ret|].
  destruct (ok_log _ Hr) as [[Hv Hz] _ Hsn].
  destruct Hsn as [Hsn|[Hsn|(s & Hsn & Hs)]].
  - lia.
  - apply wp_bind, (wp_log_read _ _ (Err ErrSnapshotTemporarilyUnavailable)); [done|].
    by apply wp_ret.
  - apply wp_bind, (wp_log_read _ _ (Val s)); [done|]. unfold IsEmptySnap.
    destruct (N.eqb_spec (s_Index s) 0); [lia|]. apply wp_bind.
    eapply wp_log_read; [by apply firstIndex_valid|]. apply wp_bind.
    assert (Hpo : peer_ok (BecomeSnapshot pr (s_Index s))).
    { destruct Hok. split; [by apply BecomeSnapshot_ok|cbn; lia|done]. }
    eapply wp_pr_set; [done|exact Hpr|exact Hpo|done|]. intros r1 Hr1 Hc1. apply wp_bind. eapply wp_mono.
    { apply wp_also; [by apply (safe_send _ r1)|apply send_tracker]. }
    cbn beta. intros _ r2 [[Hr2 Hc2] Hp2]. apply wp_ret. split; [done|]. split; [by etrans|].
    intros _. eexists. rewrite Hp2. cbn. by rewrite lookup_insert_eq.
Qed.

(** ** Appends *)

(** How many more appends may be sent to a node before it is paused. *)
Definition sends_left r (pr : Progress) : nat :=
  match pr_State pr with
  | StateReplicate => N.to_nat (lg_last (rl_log (r_raftLog r)) + 1 - pr_Next pr) + 1
  | StateProbe => if pr_ProbeSent pr then 0 else 1
  | StateSnapshot => 0
  end.

Definition peer_sends_left r (id : N) : nat :=
  match t_Progress (r_prs r) !! id with Some pr => sends_left r pr | None => 0 end.

Lemma sent_entries_total to pr es r :
  raft_ok r → t_Progress (r_prs r) !! to = Some pr → peer_ok pr → IsPaused pr = false →
  (∀ e, last es = Some e → pr_Next pr ≤ e_Index e ≤ lg_last (rl_log (r_raftLog r))) →
  wp False (sent_entries to pr es) r (λ _ r', raft_ok r' ∧ calm r r' ∧
    (es ≠ [] → (peer_sends_left r' to < peer_sends_left r to)%nat)).
Proof.
  intros Hr Hpr Hok Hpause He. unfold sent_entries.
  destruct (last es) as [e|] eqn:El.
  2:{ apply last_None in El as ->. by apply wp_ret. }
  specialize (He e eq_refl). pose proof (log_last_small _ (li_valid _ (ls_inv _ (ok_log _ Hr)))) as Hb.
  unfold two64 in Hb.
  assert (Hset : ∀ pr', peer_ok pr' → pr_IsLearner pr' = pr_IsLearner pr →
    (sends_left r pr' < sends_left r pr)%nat →
    wp False (pr_set to pr') r (λ _ r', raft_ok r' ∧ calm r r' ∧
      (es ≠ [] → (peer_sends_left r' to < peer_sends_left r to)%nat))).
  { intros pr' Hok' Hl Hlt. eapply wp_pr_set; [done|exact Hpr|done|done|].
    intros r' Hr' Hc'. split; [done|]. split; [done|]. intros _.
    unfold peer_sends_left at 2. rewrite Hpr. unfold peer_sends_left. cbn. by rewrite lookup_insert_eq. }
  destruct Hok as [Hp Hpe Hsz]. unfold IsPaused in Hpause. unfold sends_left in Hset.
  destruct (pr_State pr) eqn:Hst; [| |done].
  - apply Hset; [|done|cbn; rewrite Hst, Hpause; lia].
    split; [by apply (flags_ok pr Hp true)|done|done].
  - apply wp_bind. pose proof (Add_valid (pr_Inflights pr) (e_Index e) (pok_inflights _ Hp)) as Ha.
    rewrite Hpause in Ha. destruct Ha as (infl & Ha & Hi & Hsize & _).
    apply wp_lift; cbn; [|by rewrite Ha]. rewrite Ha. intros ? [= <-].
    pose proof (pok_replicate _ Hp Hst) as Hm.
    apply Hset; [|done|].
    + split; [|done|cbn; by rewrite Hsize]. apply (window_ok (OptimisticUpdate pr (e_Index e))); [|done|done].
      apply OptimisticUpdate_ok; [done|lia|unfold maxUint64; lia].
    + cbn. rewrite Hst. unfold two64 in *. nowrap. lia.
Qed.

Lemma maybeSendAppend_total to b r :
  raft_ok r → is_Some (t_Progress (r_prs r) !! to) →
  wp False (maybeSendAppend to b) r (λ sent r', raft_ok r' ∧ calm r r' ∧
    (b = false → sent = true → (peer_sends_left r' to < peer_sends_left r to)%nat)).
Proof.
  intros Hr Hid. unfold maybeSendAppend. apply wp_peer; [done|done|]. intros pr Hpr Hok.
  destruct (IsPaused pr) eqn:Hpause; [by apply wp_ret|].
  pose proof (ls_inv _ (ok_log _ Hr)) as [Hv Hz]. pose proof (po_progress _ Hok) as Hp.
  apply wp_bind. eapply wp_log_read; [by apply log_term_valid|]. apply wp_bind, wp_get, wp_bind.
  assert (Hnone : wp False (mret false) r (λ (sent : bool) r', raft_ok r' ∧ calm r r' ∧
    (b = false → sent = true → (peer_sends_left r' to < peer_sends_left r to)%nat))).
  { by apply wp_ret. }
  assert (Hents : ∀ es, log_entries (r_raftLog r) (pr_Next pr) (r_maxMsgSize r) = Ok (Val es) →
    ∀ e, last es = Some e → pr_Next pr ≤ e_Index e ≤ lg_last (rl_log (r_raftLog r))).
  { intros es Hes e He. by eapply last_sent. }
  assert (Hcases : (∃ es, log_entries (r_raftLog r) (pr_Next pr) (r_maxMsgSize r) = Ok (Val es)) ∨
    log_entries (r_raftLog r) (pr_Next pr) (r_maxMsgSize r) = Ok (Err ErrCompacted) ∧
    0 < lg_prev (rl_log (r_raftLog r))).
  { destruct (decide (lg_last (rl_log (r_raftLog r)) < pr_Next pr)).
    - left. exists []. by apply log_entries_above.
    - destruct (decide (pr_Next pr ≤ lg_prev (rl_log (r_raftLog r)))).
      + right. pose proof (pok_next _ Hp). split; [apply log_entries_compacted; (done || lia)|lia].
      + left. eexists. apply log_entries_valid; [done|lia|lia]. }
  destruct Hcases as [[es Hes]|[Hes Hprev]]; (eapply wp_log_read; [exact Hes|]); cbv zeta beta.
  - destruct ((length es =? 0)%nat && negb b) eqn:Hempty; [exact Hnone|]. apply wp_bind.
    eapply wp_mono; [apply (sent_entries_total to pr es r Hr Hpr Hok Hpause (Hents es Hes))|].
    cbn beta. intros _ r1 (Hr1 & Hc1 & Hlt). apply wp_bind. eapply wp_mono.
    { apply wp_also; [by apply (safe_send _ r1)|apply send_tracker]. }
    cbn beta. intros _ r2 [[Hr2 Hc2] Hp2]. apply wp_ret. split; [done|]. split; [by etrans|].
    intros -> _. assert (Hne : es ≠ []) by (by intros ->). specialize (Hlt Hne).
    unfold peer_sends_left, sends_left in *. rewrite Hp2, (ca_log _ _ Hc2). exact Hlt.
  - cbn [length Nat.eqb]. destruct (negb b) eqn:Hb; [exact Hnone|]. cbn [andb].
    eapply wp_mono; [by apply send_snapshot_total|]. cbn beta. intros sent r1 (Hr1 & Hc1 & Hs).
    split; [done|]. split; [done|]. by intros ->.
Qed.
End Sending.

(** ** The log *)

Section Logs.
Context `{RaftPB} {S : Type} `{!Storage S} `{!StorageLaws S}.
Implicit Types r : raft S.
Implicit Types l : raftLog S.

(** A log that was appended to or committed. *)
Lemma log_safe_frame l l' :
  log_safe l → rl_valid l' → lg_prev (rl_log l') = lg_prev (rl_log l) →
  lg_prev_term (rl_log l') = lg_prev_term (rl_log l) → rl_frame l l' → log_safe l'.
Proof.
  intros [[Hv Hz] Hre Hsn] Hv' Hp Hpt [Hst Ha _ Hu]. split.
  - split; [done|]. by rewrite Hp, Hpt.
  - unfold hasPendingSnapshot. by rewrite Hu, Hp, Ha.
  - unfold snapshot_ready, log_snapshot. by rewrite Hu, Hp, Hst.
Qed.

(** A step of the log that changes the committed index at most. *)
Lemma safe_log_step {A} (f : raftLog S → outcome (A * raftLog S)) r :
  (log_safe (r_raftLog r) → ∃ a l', f (r_raftLog r) = Ok (a, l') ∧ log_safe l' ∧
     rl_log l' = rl_log (r_raftLog r)) →
  safe (log_step f) r.
Proof.
  intros Hf Hr. destruct (Hf (ok_log _ Hr)) as (a & l' & Hfl & Hs & Hl).
  eapply wp_log_step; [exact Hfl|]. split; [|by split]. destruct Hr. split; cbn; try done. by rewrite Hl.
Qed.

Lemma safe_commitTo i r : safe (log_step (λ l, commitTo l i)) r.
Proof.
  apply safe_log_step. intros Hs. pose proof (commitTo_valid _ i (li_valid _ (ls_inv _ Hs))) as Hc.
  destruct (_ <? i).
  - eexists _, _. split; [exact Hc|]. by split.
  - destruct Hc as (l' & Hc & Hv & Hl & Hf & _). eexists _, _. split; [exact Hc|].
    split; [|done]. by apply (log_safe_frame (r_raftLog r)); rewrite ?Hl.
Qed.

Lemma safe_maybeCommit_r r : safe maybeCommit_r r.
Proof.
  unfold maybeCommit_r. apply safe_get, safe_log_step. intros Hs.
  pose proof (li_valid _ (ls_inv _ Hs)) as Hv.
  destruct (wp_total maybeCommit_r r (λ _ _, True)) as [Hw _].
  destruct Hw as (b & r' & Hm & _).
  { eapply wp_mono; [by apply maybeCommit_r_spec|]. done. }
  unfold maybeCommit_r, mbind, M_bind, get, log_step in Hm.
  destruct (maybeCommit _ _ _) as [[b' l']|] eqn:E; [|done]. exists b', l'. split; [done|].
  destruct (maybeCommit_keeps _ _ _ _ _ Hv E) as (Hv' & Hl & Hf & _). split; [|done].
  by apply (log_safe_frame (r_raftLog r)); rewrite ?Hl.
Qed.

Lemma safe_lastIndex r : safe (log_read lastIndex) r.
Proof. apply safe_log_read. intros Hs. eexists. apply lastIndex_valid, Hs. Qed.
Lemma safe_lastTerm r : safe (log_read lastTerm) r.
Proof. apply safe_log_read. intros Hs. eexists. apply lastTerm_valid, Hs. Qed.
Lemma safe_term_of (i : raftLog S → N) r :
  safe (log_read (λ l, res ← log_term l (i l); zeroTermOnErrCompacted res)) r.
Proof.
  apply safe_log_read. intros Hs. eexists. rewrite log_term_valid by apply Hs. reflexivity.
Qed.
End Logs.

(** Walks through a safe method; leaves what no rule or hint covers. *)
Create HintDb safe.
#[export] Hint Resolve safe_ret safe_lastIndex safe_lastTerm safe_term_of safe_commitTo safe_maybeCommit_r : safe.
#[export] Hint Extern 2 (safe (send _) _) => (apply safe_send; (reflexivity || discriminate)) : safe.
Ltac walk_safe :=
  repeat lazymatch goal with
  | |- safe (mbind _ get) _ => apply safe_get
  | |- safe (mbind _ (gets _)) _ => apply safe_gets
  | |- safe (mbind _ _) _ => apply safe_bind; [|intros ? ? ?]
  | |- safe (modify _) _ => apply safe_modify; split; reflexivity
  | |- safe (when _ _) _ => apply safe_when; intros ?
  | |- safe (forM _ _) _ => apply safe_forM; intros ? ? ? ?
  | |- safe (visit _) _ => apply safe_visit; intros ? ? ? ?
  | |- safe (let '(_, _) := ?p in _) _ => destruct p
  | |- safe (match ?x with _ => _ end) _ => destruct x
  | |- safe ((λ _, _) _) _ => cbv beta
  | |- safe _ _ => first [solve [eauto with safe] | fail 1]
  end.

Section Broadcast.
Context `{RaftPB} {S : Type} `{!Storage S} `{!StorageLaws S}.
Implicit Types r : raft S.

Lemma safe_maybeSendAppend to b r :
  is_Some (t_Progress (r_prs r) !! to) → safe (maybeSendAppend to b) r.
Proof.
  intros Hid Hr. eapply wp_mono; [by apply maybeSendAppend_total|]. cbn beta. intros ? ? (? & ? & _). done.
Qed.
#[local] Hint Resolve safe_maybeSendAppend : safe.

Lemma safe_sendAppend to r : is_Some (t_Progress (r_prs r) !! to) → safe (sendAppend to) r.
Proof. intros Hid. unfold sendAppend. walk_safe. Qed.
Lemma safe_sendHeartbeat to ctx r : is_Some (t_Progress (r_prs r) !! to) → safe (sendHeartbeat to ctx) r.
Proof. intros Hid. unfold sendHeartbeat. apply safe_pr_get; [done|]. intros pr _ _. walk_safe. Qed.
Lemma safe_sendTimeoutNow to r : safe (sendTimeoutNow to) r.
Proof. unfold sendTimeoutNow. walk_safe. Qed.
#[local] Hint Resolve safe_sendAppend safe_sendHeartbeat safe_sendTimeoutNow : safe.
Lemma safe_bcastAppend r : safe bcastAppend r.
Proof. unfold bcastAppend. walk_safe. Qed.
Lemma safe_bcastHeartbeatWithCtx ctx r : safe (bcastHeartbeatWithCtx ctx) r.
Proof. unfold bcastHeartbeatWithCtx. walk_safe. Qed.
#[local] Hint Resolve safe_bcastAppend safe_bcastHeartbeatWithCtx : safe.
Lemma safe_bcastHeartbeat r : safe bcastHeartbeat r.
Proof. unfold bcastHeartbeat. walk_safe. Qed.

(** The loop [for r.maybeSendAppend(m.From, false) {}] ends: every turn that sends
    something leaves fewer appends to send. *)
Lemma send_appends_total fuel to r :
  raft_ok r → is_Some (t_Progress (r_prs r) !! to) → (peer_sends_left r to < fuel)%nat →
  wp False (send_appends fuel to) r (λ ended r', ended = true ∧ raft_ok r' ∧ calm r r').
Proof.
  revert r. induction fuel as [|fuel IH]; intros r Hr Hid Hf; [lia|]. cbn [send_appends].
  apply wp_bind. eapply wp_mono; [by apply maybeSendAppend_total|]. cbn beta.
  intros sent r1 (Hr1 & Hc1 & Hlt). destruct sent; [|by apply wp_ret].
  specialize (Hlt eq_refl eq_refl). eapply wp_mono.
  { apply IH; [done|by apply (calm_tracked r)|lia]. }
  cbn beta. intros ended r2 (? & ? & ?). split_and!; [done|done|by etrans].
Qed.

Lemma send_fuel_enough to r :
  raft_ok r → is_Some (t_Progress (r_prs r) !! to) →
  wp False (send_fuel to) r (λ fuel r', r' = r ∧ (peer_sends_left r to < fuel)%nat).
Proof.
  intros Hr Hid. unfold send_fuel. apply wp_peer; [done|done|]. intros pr Hpr Hok.
  apply wp_bind. eapply wp_log_read; [apply lastIndex_valid, (ok_log _ Hr)|]. apply wp_ret.
  split; [done|]. unfold peer_sends_left. rewrite Hpr. unfold sends_left.
  destruct (pr_State pr); [destruct (pr_ProbeSent pr)|..]; lia.
Qed.

Lemma safe_send_all to r :
  is_Some (t_Progress (r_prs r) !! to) → safe (fuel ← send_fuel to; send_appends fuel to) r.
Proof.
  intros Hid Hr. apply wp_bind. eapply wp_mono; [by apply send_fuel_enough|]. cbn beta.
  intros fuel ? [-> Hf]. eapply wp_mono; [by apply send_appends_total|]. by intros ? ? (_ & ? & ?).
Qed.
End Broadcast.

#[export] Hint Resolve safe_maybeSendAppend safe_sendAppend safe_sendHeartbeat safe_sendTimeoutNow
  safe_bcastAppend safe_bcastHeartbeatWithCtx safe_bcastHeartbeat : safe.

(** ** The leader's handlers *)

Section Leader.
Context `{RaftPB} {S : Type} `{!Storage S} `{!StorageLaws S}.
Implicit Types r : raft S.

Lemma safe_abortLeaderTransfer r : safe abortLeaderTransfer r.
Proof. unfold abortLeaderTransfer. walk_safe. Qed.
#[local] Hint Resolve safe_abortLeaderTransfer : safe.

(** A step of the read-only queue. *)
Lemma safe_ro_step {A} (f : readOnly → outcome (A * readOnly)) r :
  (readOnly_ok (r_readOnly r) → ∃ a ro', f (r_readOnly r) = Ok (a, ro') ∧ readOnly_ok ro') →
  safe (ro_step f) r.
Proof.
  intros Hf Hr. destruct (Hf (ok_reads _ Hr)) as (a & ro' & Hfr & Hok).
  unfold wp, ro_step. rewrite Hfr. split; [|by split]. destruct Hr. by split.
Qed.

Lemma request_ctx_ok m : m_Entries m ≠ [] → ∃ s, request_ctx m = Ok s.
Proof. unfold request_ctx. destruct (m_Entries m); [done|]. intros _. by eexists. Qed.

Lemma safe_recvAck id ctx r : safe (ro_step (λ ro, Ok (recvAck ro id ctx))) r.
Proof.
  apply safe_ro_step. intros Hro. pose proof (recvAck_ok _ id ctx Hro) as Hra.
  destruct (recvAck _ id ctx) as [acks ro']. exists acks, ro'. split; [done|apply Hra].
Qed.
#[local] Hint Resolve safe_recvAck : safe.

Lemma safe_respond req i r : m_Entries req ≠ [] → safe (respond req i) r.
Proof.
  intros Hne Hr. unfold respond, responseToReadIndexReq. apply wp_bind, wp_bind, wp_get.
  destruct (request_ctx_ok req Hne) as [s Hs]. destruct (_ || _) eqn:E.
  - apply wp_bind, wp_lift; rewrite Hs; [|done]. intros ? [= <-]. apply wp_bind, wp_modify, wp_ret.
    cbn. by apply same_ok_ok.
  - apply wp_ret. cbn [m_To update upd_m_Index upd_m_Entries msg]. 
    assert (Hw : safe (when (negb (m_From req =? None_id)) (send
      ((msg MsgReadIndexResp (m_From req)) <| m_Index := i |> <| m_Entries := m_Entries req |>))) r) by walk_safe.
    by apply Hw.
Qed.
#[local] Hint Resolve safe_respond : safe.

Lemma safe_sendMsgReadIndexResponse m r : m_Entries m ≠ [] → safe (sendMsgReadIndexResponse m) r.
Proof.
  intros Hne. destruct (request_ctx_ok m Hne) as [s Hs]. unfold sendMsgReadIndexResponse.
  apply safe_get. destruct (ro_option _); [|by apply safe_respond].
  apply safe_bind; [|intros _ r1 _]; [|apply safe_bind; [|intros ctx r2 _]].
  - apply safe_ro_step. intros Hro.
    destruct (addRequest_ok _ (l_committed (r_raftLog r)) m s Hro Hs) as (ro' & Ha & Hok & _).
    exists tt, ro'. by rewrite Ha.
  - apply safe_read. rewrite Hs. by eexists.
  - walk_safe.
Qed.
#[local] Hint Resolve safe_sendMsgReadIndexResponse : safe.

Lemma safe_committedEntryInCurrentTerm r : safe committedEntryInCurrentTerm r.
Proof. unfold committedEntryInCurrentTerm. walk_safe. Qed.
#[local] Hint Resolve safe_committedEntryInCurrentTerm : safe.

Lemma safe_releasePendingReadIndexMessages r : safe releasePendingReadIndexMessages r.
Proof.
  unfold releasePendingReadIndexMessages. apply safe_bind; [auto with safe|]. intros b r1 _.
  destruct (negb b); [apply safe_ret|]. apply safe_gets. intros Hr1. pose proof (ok_waiting _ Hr1) as Hw.
  rewrite Forall_forall in Hw. revert Hr1. apply safe_bind.
  - intros Hr1. apply wp_modify. split; [|by split]. destruct Hr1. by split.
  - intros _ r2 _. apply safe_forM. intros m r3 Hm _. auto with safe.
Qed.
#[local] Hint Resolve safe_releasePendingReadIndexMessages : safe.

Lemma safe_leader_ReadIndex m r : m_Entries m ≠ [] → safe (leader_ReadIndex m) r.
Proof.
  intros Hne. unfold leader_ReadIndex. apply safe_get. destruct (IsSingleton _); [by apply safe_respond|].
  apply safe_bind; [auto with safe|]. intros b r1 _. destruct (negb b); [|auto with safe].
  intros Hr1. apply wp_modify. split; [|by split]. destruct Hr1. split; cbn; try done.
  apply Forall_app. by repeat constructor.
Qed.

(** ** Responses *)

Lemma peer_ok_MaybeUpdate pr n : peer_ok pr → n < maxUint64 → peer_ok (MaybeUpdate pr n).2.
Proof.
  intros [Hp Hpe Hs] Hn. split; [by apply MaybeUpdate_ok|..];
    unfold MaybeUpdate; by destruct (_ <? _).
Qed.
Lemma peer_ok_MaybeDecrTo pr i h : peer_ok pr → peer_ok (MaybeDecrTo pr i h).2.
Proof.
  intros [Hp Hpe Hs]. split; [by apply MaybeDecrTo_ok|..]; unfold MaybeDecrTo;
    (case_decide; [destruct (_ <=? _)|destruct (negb _)]); done.
Qed.
Lemma peer_ok_BecomeProbe pr : peer_ok pr → peer_ok (BecomeProbe pr).
Proof.
  intros [Hp Hpe Hs]. split; [by apply BecomeProbe_ok|..]; unfold BecomeProbe; by case_decide.
Qed.
Lemma peer_ok_BecomeReplicate pr : peer_ok pr → peer_ok (BecomeReplicate pr).
Proof. intros [Hp Hpe Hs]. by split; [apply BecomeReplicate_ok|..]. Qed.
Lemma peer_ok_flags pr active sent :
  peer_ok pr → peer_ok (pr <| pr_RecentActive := active |>) ∧ peer_ok (pr <| pr_ProbeSent := sent |>) ∧
  peer_ok (pr <| pr_RecentActive := active |> <| pr_ProbeSent := sent |>).
Proof. intros [Hp Hpe Hs]. destruct (flags_ok pr Hp active sent) as (? & ? & ?). split_and!; by split. Qed.
Lemma peer_ok_window pr infl :
  peer_ok pr → pr_State pr = StateReplicate → inflights_ok infl →
  in_size infl = in_size (pr_Inflights pr) → peer_ok (pr <| pr_Inflights := infl |>).
Proof. intros [Hp Hpe Hs] Hst Hi Hsz. split; [by apply window_ok|done|cbn; by rewrite Hsz]. Qed.

Lemma learner_MaybeUpdate pr n : pr_IsLearner (MaybeUpdate pr n).2 = pr_IsLearner pr.
Proof. unfold MaybeUpdate. by destruct (_ <? _). Qed.
Lemma learner_MaybeDecrTo pr i h : pr_IsLearner (MaybeDecrTo pr i h).2 = pr_IsLearner pr.
Proof. unfold MaybeDecrTo. case_decide; [destruct (_ <=? _)|destruct (negb _)]; done. Qed.
Lemma learner_BecomeProbe pr : pr_IsLearner (BecomeProbe pr) = pr_IsLearner pr.
Proof. unfold BecomeProbe. by case_decide. Qed.

Lemma safe_pr_modify id f r :
  is_Some (t_Progress (r_prs r) !! id) →
  (∀ pr, peer_ok pr → peer_ok (f pr)) → (∀ pr, pr_IsLearner (f pr) = pr_IsLearner pr) →
  safe (pr_modify id f) r.
Proof.
  intros Hid Hf Hl. unfold pr_modify. apply safe_pr_get; [done|]. intros pr Hpr Hok.
  by apply (safe_pr_set id pr); auto.
Qed.

Lemma safe_findConflictByTerm i t r : safe (log_read (λ l, findConflictByTerm l i t)) r.
Proof.
  apply safe_log_read. intros [[Hv Hz] _ _]. destruct (findConflictByTerm_valid _ i t Hv Hz) as (c & Hc & _).
  by exists (Some c).
Qed.
#[local] Hint Resolve safe_findConflictByTerm : safe.

Lemma safe_leader_AppResp_reject m r :
  is_Some (t_Progress (r_prs r) !! m_From m) → safe (leader_AppResp_reject m) r.
Proof.
  intros Hid. unfold leader_AppResp_reject. apply safe_bind; [walk_safe|]. intros probe r1 Hc1.
  apply safe_pr_get; [by apply (calm_tracked r)|]. intros pr Hpr Hok.
  pose proof (peer_ok_MaybeDecrTo pr (m_Index m) probe Hok) as Hok'.
  pose proof (learner_MaybeDecrTo pr (m_Index m) probe) as Hl.
  destruct (MaybeDecrTo _ _ _) as [dec pr']. cbn in Hok', Hl. destruct dec; [|apply safe_ret].
  apply safe_bind.
  - apply (safe_pr_set _ pr); [done|..]; case_decide; try done.
    + by apply peer_ok_BecomeProbe.
    + by rewrite learner_BecomeProbe.
  - intros _ r2 Hc2. apply safe_sendAppend. apply (calm_tracked r1); [done|]. by eexists.
Qed.

Lemma appResp_progress_ok pr i :
  peer_ok pr → ∃ pr', appResp_progress pr i = Ok pr' ∧ peer_ok pr' ∧ pr_IsLearner pr' = pr_IsLearner pr.
Proof.
  intros Hok. unfold appResp_progress. destruct (pr_State pr) eqn:Hs.
  - eexists. split; [done|]. split; [by apply peer_ok_BecomeReplicate|done].
  - destruct (FreeLE_valid (pr_Inflights pr) i (pok_inflights _ (po_progress _ Hok))) as (infl & -> & Hi & Hz & _).
    eexists. split; [done|]. split; [by apply peer_ok_window|done].
  - destruct (_ <=? _); [|by exists pr]. eexists. split; [done|].
    split; [by apply peer_ok_BecomeReplicate, peer_ok_BecomeProbe|]. exact (learner_BecomeProbe pr).
Qed.
End Leader.

Section LeaderResponses.
Context `{RaftPB} {S : Type} `{!Storage S} `{!StorageLaws S}.
Implicit Types r : raft S.

Lemma safe_leader_AppResp_accept m r :
  is_Some (t_Progress (r_prs r) !! m_From m) → m_Index m < maxUint64 →
  safe (leader_AppResp_accept m) r.
Proof.
  intros Hid Hi Hr. unfold leader_AppResp_accept. apply wp_peer; [done|done|]. intros pr Hpr Hok.
  pose proof (peer_ok_MaybeUpdate pr _ Hok Hi) as Hok1.
  pose proof (learner_MaybeUpdate pr (m_Index m)) as Hl1.
  destruct (MaybeUpdate pr (m_Index m)) as [updated pr1]. cbn in Hok1, Hl1. apply wp_bind.
  eapply wp_pr_set; [done|exact Hpr|done|done|]. intros r1 Hr1 Hc1.
  destruct (negb updated); [by apply wp_ret|].
  destruct (appResp_progress_ok pr1 (m_Index m) Hok1) as (pr2 & Hp2 & Hok2 & Hl2).
  apply wp_bind, wp_lift; rewrite Hp2; [|done]. intros ? [= <-]. apply wp_bind.
  assert (Hpr1 : t_Progress (r_prs r1) !! m_From m = Some pr1) by (cbn; by rewrite lookup_insert_eq).
  eapply wp_pr_set; [done|exact Hpr1|done|done|]. intros r2 Hr2 Hc2.
  assert (Hid2 : is_Some (t_Progress (r_prs r2) !! m_From m)).
  { apply (calm_tracked r1); [done|by eexists]. }
  assert (Hc : calm r r2) by (by etrans). clearbody r2.
  eapply (wp_mono _ _ _ (λ _ r', raft_ok r' ∧ calm r2 r')); [|intros ? ? [? ?]; split; [done|by etrans]].
  revert Hr2. clear -Hid2. apply safe_bind; [auto with safe|]. intros committed r3 Hc3.
  apply safe_bind.
  { destruct committed; [|apply safe_when; intros _; apply safe_sendAppend; by apply (calm_tracked r2)].
    apply safe_bind; [apply safe_releasePendingReadIndexMessages|]. intros. auto with safe. }
  intros _ r4 Hc4. assert (Hid4 : is_Some (t_Progress (r_prs r4) !! m_From m)).
  { apply (calm_tracked r3); [done|]. by apply (calm_tracked r2). }
  intros Hr4. apply wp_bind. eapply wp_mono; [by apply send_fuel_enough|]. cbn beta.
  intros fuel ? [-> Hf]. apply wp_bind. eapply wp_mono; [by apply send_appends_total|]. cbn beta.
  intros ended r5 (_ & Hr5 & Hc5).
  eapply (wp_mono _ _ _ (λ _ r', raft_ok r' ∧ calm r5 r')); [|intros ? ? [? ?]; split; [done|by etrans]].
  revert Hr5. apply safe_get, safe_pr_get; [by apply (calm_tracked r4)|]. intros pr5 _ _.
  apply safe_bind; [auto with safe|]. intros last r6 _. apply safe_when. auto with safe.
Qed.

Lemma safe_leader_AppResp m r :
  is_Some (t_Progress (r_prs r) !! m_From m) → m_Index m < maxUint64 → safe (leader_AppResp m) r.
Proof.
  intros Hid Hi. unfold leader_AppResp. apply safe_bind.
  - apply safe_pr_modify; [done| |done]. intros pr Hok. by apply (peer_ok_flags pr true true).
  - intros _ r1 Hc1. destruct (m_Reject m).
    + apply safe_leader_AppResp_reject. by apply (calm_tracked r).
    + apply safe_leader_AppResp_accept; [by apply (calm_tracked r)|done].
Qed.

(** Freeing the first slot of a window that is full. *)
Lemma full_window pr :
  peer_ok pr → Full (pr_Inflights pr) = true →
  ∃ infl, FreeFirstOne (pr_Inflights pr) = Ok infl ∧ inflights_ok infl ∧
    in_size infl = in_size (pr_Inflights pr).
Proof.
  intros [Hp _ Hs] Hf. pose proof (pok_inflights _ Hp) as Hi. unfold Full in Hf. apply Z.eqb_eq in Hf.
  pose proof (contents_length _ Hi) as Hl. pose proof (FreeFirstOne_valid _ Hi) as Hff.
  destruct (contents (pr_Inflights pr)) as [|x q]; [unfold lenZ in Hl; cbn in Hl; lia|].
  destruct Hff as (infl & ? & ? & ? & _). by exists infl.
Qed.

Lemma safe_leader_HeartbeatResp m r :
  is_Some (t_Progress (r_prs r) !! m_From m) → safe (leader_HeartbeatResp m) r.
Proof.
  intros Hid. unfold leader_HeartbeatResp. apply safe_pr_get; [done|]. intros pr Hpr Hok. cbv zeta.
  destruct (peer_ok_flags pr true false Hok) as (_ & _ & Hok1). set (pr1 := pr <| pr_RecentActive := true |> <| pr_ProbeSent := false |>) in *.
  assert (Hl1 : pr_IsLearner pr1 = pr_IsLearner pr) by done. clearbody pr1.
  assert (Hfree : ∃ pr2, (if bool_decide (pr_State pr1 = StateReplicate) && Full (pr_Inflights pr1)
      then infl ← lift (λ _, FreeFirstOne (pr_Inflights pr1)); mret (pr1 <| pr_Inflights := infl |>)
      else mret pr1) r = Ok (pr2, r) ∧ peer_ok pr2 ∧ pr_IsLearner pr2 = pr_IsLearner pr).
  { case_bool_decide as Hs; [|by exists pr1]. destruct (Full (pr_Inflights pr1)) eqn:Hf; [|by exists pr1].
    destruct (full_window pr1 Hok1 Hf) as (infl & Hff & Hi & Hz). cbn [andb].
    unfold lift, mbind, M_bind. rewrite Hff. eexists. split; [reflexivity|].
    split; [by apply peer_ok_window|done]. }
  destruct Hfree as (pr2 & Hf2 & Hok2 & Hl2). intros Hr. apply wp_bind. unfold wp at 1. rewrite Hf2.
  revert Hr. apply safe_bind; [by apply (safe_pr_set _ pr)|]. intros _ r1 Hc1.
  apply safe_bind; [auto with safe|]. intros last r2 Hc2.
  assert (Hid2 : is_Some (t_Progress (r_prs r2) !! m_From m)).
  { apply (calm_tracked r1); [done|]. by apply (calm_tracked r). }
  apply safe_bind; [walk_safe|]. intros _ r3 Hc3. apply safe_get. destruct (_ || _); [apply safe_ret|].
  apply safe_bind; [apply safe_recvAck|]. intros acks r4 _. destruct (decide (_ = VoteWon)); [|apply safe_ret].
  intros Hr4. apply wp_bind.
  destruct (ro_advance_valid (r_readOnly r4) m (ok_reads _ Hr4)) as (rss & ro' & Hra & Hro' & Hcase).
  unfold wp at 1, ro_step. rewrite Hra.
  assert (Hr5 : raft_ok (r4 <| r_readOnly := ro' |>)) by (destruct Hr4; by split).
  assert (Hne : ∀ rs, rs ∈ rss → m_Entries (ri_req rs) ≠ []).
  { destruct Hcase as [(_ & -> & _)|(before & rest & _ & HF & _)]; [by intros rs ?%elem_of_nil|].
    intros rs [k Hk]%list_elem_of_lookup. destruct (Forall2_lookup_r _ _ _ _ _ HF Hk) as (s & _ & Hs).
    apply (ro_ctx _ (ok_reads _ Hr4)) in Hs. unfold request_ctx in Hs. by destruct (m_Entries (ri_req rs)). }
  eapply (wp_mono _ _ _ (λ _ r', raft_ok r' ∧ calm (r4 <| r_readOnly := ro' |>) r')).
  { revert Hr5. apply safe_forM. intros rs r5 Hrs _. apply safe_respond. by apply Hne. }
  intros ? ? [? []]. split; [done|]. by split.
Qed.

Lemma safe_leader_SnapStatus m r :
  is_Some (t_Progress (r_prs r) !! m_From m) → safe (leader_SnapStatus m) r.
Proof.
  intros Hid. unfold leader_SnapStatus. apply safe_pr_get; [done|]. intros pr Hpr Hok.
  case_bool_decide as Hst; [|apply safe_ret]. cbn [negb].
  assert (H0 : peer_ok (pr <| pr_PendingSnapshot := 0 |>)).
  { destruct Hok as [[] ? ?]. by repeat (split; try done). }
  apply (safe_pr_set _ pr); [done|..].
  - destruct (m_Reject m); apply (peer_ok_flags _ true true), peer_ok_BecomeProbe; done.
  - destruct (m_Reject m); cbn [pr_IsLearner update upd_pr_ProbeSent]; exact (learner_BecomeProbe _).
Qed.

Lemma safe_leader_Unreachable m r :
  is_Some (t_Progress (r_prs r) !! m_From m) → safe (leader_Unreachable m) r.
Proof.
  intros Hid. unfold leader_Unreachable. apply safe_pr_get; [done|]. intros pr Hpr Hok.
  case_decide; [|apply safe_ret]. apply (safe_pr_set _ pr); [done|by apply peer_ok_BecomeProbe|].
  apply learner_BecomeProbe.
Qed.

Lemma safe_leader_TransferLeader m r :
  is_Some (t_Progress (r_prs r) !! m_From m) → safe (leader_TransferLeader m) r.
Proof.
  intros Hid. unfold leader_TransferLeader. apply safe_pr_get; [done|]. intros pr Hpr Hok. apply safe_get.
  cbv zeta. destruct (pr_IsLearner pr); [apply safe_ret|]. destruct (_ && _); [apply safe_ret|].
  apply safe_bind; [apply safe_when; intros _; apply safe_abortLeaderTransfer|]. intros _ r1 Hc1.
  destruct (_ =? _); [apply safe_ret|]. apply safe_bind; [by apply safe_modify|]. intros _ r2 Hc2.
  apply safe_bind; [auto with safe|]. intros last r3 Hc3. destruct (_ =? _); [auto with safe|].
  apply safe_sendAppend, (calm_tracked r2); [done|]. apply (calm_tracked r1); [done|].
  by apply (calm_tracked r).
Qed.
End LeaderResponses.

(** ** Role changes *)

Section Roles.
Context `{RaftPB} {S : Type} `{!Storage S} `{!StorageLaws S}.
Implicit Types r : raft S.

(** What a change of role leaves alone. *)
Record role_kept r r' : Prop := {
  rk_id : r_id r' = r_id r;
  rk_log : r_raftLog r' = r_raftLog r;
  rk_dom : dom (t_Progress (r_prs r')) = dom (t_Progress (r_prs r));
}.
#[export] Instance role_kept_preorder : PreOrder role_kept.
Proof. split; [by split|]. intros a b c [] []. split; congruence. Qed.

Lemma role_tracked r r' id :
  role_kept r r' → is_Some (t_Progress (r_prs r) !! id) → is_Some (t_Progress (r_prs r') !! id).
Proof. intros Hc. rewrite <- !elem_of_dom. by rewrite (rk_dom _ _ Hc). Qed.

Lemma fresh_progress_ok r last id pr :
  last < maxUint64 → (0 < t_MaxInflight (r_prs r) < 4611686018427387904)%Z →
  peer_ok (fresh_progress r last id pr).
Proof.
  intros Hl Hm. unfold fresh_progress, maxUint64 in *. split; [split|..]; cbn; try done; try lia.
  - apply NewInflights_ok. lia.
  - nowrap. lia.
  - unfold maxUint64. destruct (_ =? _); lia.
Qed.

(** The state a reset leaves, in any role that the term and the tracker allow. *)
Lemma reset_state_ok term timeout progress st r :
  raft_ok r →
  (∀ id, progress !! id = fresh_progress r (lg_last (rl_log (r_raftLog r))) id <$> t_Progress (r_prs r) !! id) →
  (term = 0 → lg_last (rl_log (r_raftLog r)) = 0 ∧ ¬ (st = StateCandidate ∨ st = StateLeader)) →
  (st = StateCandidate ∨ st = StatePreCandidate → is_Some (t_Progress (r_prs r) !! r_id r)) →
  ∀ r', same_ok ((reset_state term timeout progress r) <| r_state := st |>) r' →
  raft_ok r' ∧ role_kept r r'.
Proof.
  intros Hr Hp Ht Hc r' Hso. assert (Hdom : dom progress = dom (t_Progress (r_prs r))).
  { apply set_eq. intros id. rewrite !elem_of_dom, Hp. by rewrite fmap_is_Some. }
  set (r1 := (reset_state term timeout progress r) <| r_state := st |>) in *.
  assert (Hr1 : raft_ok r1 ∧ role_kept r r1).
  2:{ destruct Hr1 as [Hr1 Hk]. destruct (same_ok_ok r1 r' Hso Hr1) as [Hr' Hc']. split; [done|].
      etrans; [exact Hk|]. split; [apply Hso|apply Hso|apply Hc']. }
  split; [|by split]. destruct Hr as [Hlog Hti Hin Hcf Hpe Hca Hte Hre Hwa].
  pose proof (log_last_small _ (li_valid _ (ls_inv _ Hlog))) as Hb. unfold two64 in Hb.
  split; cbn; try done.
  - destruct Hcf as [Hi Hd Hn Hni Hl Hf Hne Hs]. split; try done.
    + by rewrite Hdom.
    + intros id pr Hpr. rewrite Hp in Hpr. apply fmap_Some in Hpr as (pr0 & Hpr0 & ->). exact (Hf id pr0 Hpr0).
  - intros id pr Hpr. rewrite Hp in Hpr. apply fmap_Some in Hpr as (pr0 & Hpr0 & ->).
    apply fresh_progress_ok; [unfold maxUint64; lia|done].
  - intros Hst. rewrite <- elem_of_dom, Hdom, elem_of_dom. by apply Hc.
  - apply newReadOnly_ok.
Qed.

(** After a reset, in any such role. *)
Definition resets term r r1 : Prop :=
  r_uncommittedSize r1 = 0 ∧ r_Term r1 = term ∧
  ∀ st r2, (term = 0 → lg_last (rl_log (r_raftLog r)) = 0 ∧ ¬ (st = StateCandidate ∨ st = StateLeader)) →
    (st = StateCandidate ∨ st = StatePreCandidate → is_Some (t_Progress (r_prs r) !! r_id r)) →
    same_ok (r1 <| r_state := st |>) r2 → raft_ok r2 ∧ role_kept r r2.

Lemma reset_resets term r : raft_ok r → wp False (reset term) r (λ _ r1, resets term r r1).
Proof.
  intros Hr. eapply wp_mono.
  { apply reset_total; [apply lastIndex_valid, (ok_log _ Hr)|apply (ok_timeouts _ Hr)]. }
  cbn beta. intros _ r1 (timeout & progress & -> & _ & Hp). split; [done|]. split; [done|].
  intros st r2 Ht Hc. by apply reset_state_ok.
Qed.

Lemma becomeFollower_ok term lead r :
  raft_ok r → (term = 0 → lg_last (rl_log (r_raftLog r)) = 0) →
  wp False (becomeFollower term lead) r (λ _ r', raft_ok r' ∧ role_kept r r' ∧
    r_Term r' = term ∧ r_state r' = StateFollower ∧ r_lead r' = lead).
Proof.
  intros Hr Ht. unfold becomeFollower. apply wp_bind. eapply wp_mono; [by apply reset_resets|].
  cbn beta. intros _ r1 (_ & Htm & Hok). apply wp_modify. apply Logic.and_assoc. split; [|done].
  apply (Hok StateFollower); [|by intros [|]|by split]. intros E. split; [by apply Ht|by intros [|]].
Qed.

Lemma becomeCandidate_ok r :
  raft_ok r → r_state r ≠ StateLeader → is_Some (t_Progress (r_prs r) !! r_id r) → r_Term r + 1 < two64 →
  wp False becomeCandidate r (λ _ r', raft_ok r' ∧ role_kept r r' ∧
    r_Term r' = r_Term r + 1 ∧ r_state r' = StateCandidate).
Proof.
  intros Hr Hst Hid Hb. unfold becomeCandidate. apply wp_bind, wp_get. destruct (decide _); [done|].
  apply wp_bind. rewrite add64_small by done. eapply wp_mono; [by apply reset_resets|].
  cbn beta. intros _ r1 (_ & Htm & Hok). apply wp_modify. apply Logic.and_assoc. split; [|done].
  apply (Hok StateCandidate); [lia|done|by split].
Qed.

Lemma becomePreCandidate_ok r :
  raft_ok r → r_state r ≠ StateLeader → is_Some (t_Progress (r_prs r) !! r_id r) →
  wp False becomePreCandidate r (λ _ r', raft_ok r' ∧ role_kept r r' ∧
    r_Term r' = r_Term r ∧ r_state r' = StatePreCandidate).
Proof.
  intros Hr Hst Hid. unfold becomePreCandidate. apply wp_bind, wp_get. destruct (decide _); [done|].
  apply wp_modify. split; [|by split]. destruct Hr. split; cbn; try done.
  intros E. split; [by apply ok_term0|by intros [|]].
Qed.

(** ** Appending *)

(** What an append keeps. *)
Record append_kept r r' : Prop := {
  ak_id : r_id r' = r_id r;
  ak_term : r_Term r' = r_Term r;
  ak_state : r_state r' = r_state r;
  ak_dom : dom (t_Progress (r_prs r')) = dom (t_Progress (r_prs r));
}.

Lemma appendEntry_ok es r :
  raft_ok r → r_Term r ≠ 0 → es ≠ [] → is_Some (t_Progress (r_prs r) !! r_id r) →
  lg_last (rl_log (r_raftLog r)) + 1 + lenN es < 9223372036854775808 →
  wp False (appendEntry es) r (λ acc r', raft_ok r' ∧ append_kept r r' ∧
    (acc = false → over_limit r es = true)).
Proof.
  intros Hr Ht Hne [pr Hpr] Hb. pose proof (ls_inv _ (ok_log _ Hr)) as [Hv Hz].
  eapply wp_mono; [apply (appendEntry_spec False es r Hv Hne); [by rewrite Hpr|done]|]. cbn beta zeta.
  intros acc r' Hacc. destruct acc; [|by destruct Hacc as [? ->]].
  destruct Hacc as (_ & pr' & l' & Hpr' & -> & Hv' & Hlog & Hf & _).
  split; [|split; [split; cbn; try done; by rewrite dom_insert_lookup_L|done]].
  rewrite Hpr in Hpr'. injection Hpr' as <-. set (n := lg_last (rl_log (r_raftLog r)) + lenN es).
  assert (Hpo : peer_ok (MaybeUpdate pr n).2).
  { apply peer_ok_MaybeUpdate; [exact (map_Forall_lookup_1 _ _ _ _ (ok_peers _ Hr) Hpr)|].
    unfold n, maxUint64. lia. }
  destruct Hr. split; cbn; try done.
  - apply (log_safe_frame (r_raftLog r)); [done|done|by rewrite Hlog..|done].
  - apply (insert_learners _ _ _ pr); [done|done|apply learner_MaybeUpdate].
  - by apply map_Forall_insert_2.
  - intros Hst. rewrite lookup_insert. case_decide; [by eexists|auto].
Qed.

Lemma becomeLeader_ok r :
  raft_ok r → r_state r = StateCandidate → is_Some (t_Progress (r_prs r) !! r_id r) →
  lg_last (rl_log (r_raftLog r)) + 2 < 9223372036854775808 →
  wp False becomeLeader r (λ _ r', raft_ok r').
Proof.
  intros Hr Hst Hid Hb. assert (Ht : r_Term r ≠ 0). { intros Ht. destruct (ok_term _ Hr Ht) as [_ []]. by left. }
  unfold becomeLeader. apply wp_bind, wp_get. destruct (decide _); [congruence|].
  apply wp_bind. eapply wp_mono; [by apply reset_resets|]. cbn beta. intros _ r0 (Hu0 & Ht0 & Hok).
  apply wp_bind, wp_modify. set (r1 := update r_state _ _).
  destruct (Hok StateLeader r1) as [Hr1 Hk1]; [done|by intros [|]|by split|].
  unfold pr_modify. apply wp_bind.
  apply wp_peer; [done|by apply (role_tracked r)|]. intros pr1 Hpr1 Hok1.
  eapply wp_pr_set; [done|exact Hpr1|by apply peer_ok_BecomeReplicate|done|].
  intros r2 Hr2 Hc2. assert (Hu2 : r_uncommittedSize r2 = 0 ∧ r_Term r2 = r_Term r) by done.
  clearbody r2 r1. apply wp_bind. eapply wp_log_read; [apply lastIndex_valid, (ok_log _ Hr2)|].
  apply wp_bind, wp_modify. set (r3 := update r_pendingConfIndex _ r2).
  destruct (same_ok_ok r2 r3) as [Hr3 Hc3]; [split; cbn; reflexivity|done|].
  assert (Hu3 : over_limit r3 [Entry_zero] = false ∧ r_Term r3 ≠ 0).
  { destruct Hu2 as [Hu2 Ht2]. split; [|change (r_Term r2 ≠ 0); by rewrite Ht2].
    unfold over_limit. change (r_uncommittedSize r3) with (r_uncommittedSize r2). by rewrite Hu2. }
  destruct Hu3 as [Hu3 Ht3]. clearbody r3.
  apply wp_bind. eapply wp_mono.
  { apply (appendEntry_ok [Entry_zero] r3); [done|done|done| |].
    - rewrite (ca_id _ _ Hc3), (ca_id _ _ Hc2), (rk_id _ _ Hk1). apply (calm_tracked r2); [done|].
      apply (calm_tracked r1); [done|]. by apply (role_tracked r).
    - rewrite (ca_log _ _ Hc3), (ca_log _ _ Hc2), (rk_log _ _ Hk1). unfold lenN. cbn [length]. lia. }
  cbn beta. intros acc r4 (Hr4 & _ & Hacc). destruct acc; [|specialize (Hacc eq_refl); congruence].
  cbn [negb]. unfold reduceUncommittedSize. apply wp_bind, wp_get. destruct (_ =? 0); [by apply wp_ret|].
  apply wp_modify. apply (same_ok_ok r4); [split; cbn; reflexivity|done].
Qed.
End Roles.

(** ** Elections *)

Section Elections.
Context `{RaftPB} {S : Type} `{!Storage S} `{!StorageLaws S}.
Implicit Types r : raft S.

(** The method returns and leaves a well-formed state. *)
Definition returns {A} (m : M (raft S) A) r : Prop :=
  raft_ok r → wp False m r (λ _ r', raft_ok r').

Lemma safe_returns {A} (m : M (raft S) A) r : safe m r → returns m r.
Proof. intros Hm Hr. eapply wp_mono; [by apply Hm|]. by intros ? ? []. Qed.
Lemma returns_bind {A B} (m : M (raft S) A) (f : A → M (raft S) B) r :
  returns m r → (∀ a r', returns (f a) r') → returns (m ≫= f) r.
Proof.
  intros Hm Hf Hr. apply wp_bind. eapply wp_mono; [by apply Hm|]. cbn beta. intros a r' Hr'. by apply Hf.
Qed.
Lemma returns_after {A B} (m : M (raft S) A) (f : A → M (raft S) B) r :
  safe m r → (∀ a r', calm r r' → returns (f a) r') → returns (m ≫= f) r.
Proof.
  intros Hm Hf Hr. apply wp_bind. eapply wp_mono; [by apply Hm|]. cbn beta. intros a r' [Hr' Hc].
  by apply Hf.
Qed.
Lemma returns_get {B} (f : raft S → M (raft S) B) r : returns (f r) r → returns (get ≫= f) r.
Proof. intros Hf Hr. by apply wp_bind, wp_get, Hf. Qed.
Lemma returns_ret {A} (a : A) r : returns (mret a) r.
Proof. by intros Hr. Qed.

Lemma returns_stepDown r lead : returns (becomeFollower (r_Term r) lead) r.
Proof.
  intros Hr. eapply wp_mono; [apply becomeFollower_ok; [done|]|by intros ? ? []].
  intros Ht. by apply (ok_term _ Hr).
Qed.

Lemma safe_poll id v r : safe (poll id v) r.
Proof.
  unfold poll. apply safe_bind; [|by intros _ r1 _ Hr1; apply wp_gets].
  apply safe_modify. split; try reflexivity; cbn; unfold RecordVote; by destruct (t_Votes _ !! _).
Qed.

Lemma safe_request_vote t vm term id r :
  vm = MsgVote ∨ vm = MsgPreVote → term ≠ 0 → safe (request_vote t vm term id) r.
Proof.
  intros Hvm Ht. unfold request_vote. apply safe_bind; [auto with safe|]. intros last r1 _.
  apply safe_bind; [auto with safe|]. intros lt r2 _. apply safe_send. destruct Hvm as [-> | ->]; exact Ht.
Qed.

(** A node that may campaign. *)
Record can_campaign r : Prop := {
  cc_state : r_state r ≠ StateLeader;
  cc_tracked : is_Some (t_Progress (r_prs r) !! r_id r);
  cc_last : lg_last (rl_log (r_raftLog r)) + 2 < 9223372036854775808;
}.

Lemma campaign_with_returns after t r :
  can_campaign r → r_Term r + 1 < two64 →
  (∀ r', can_campaign r' → r_Term r' + 1 < two64 → returns after r') →
  returns (campaign_with after t) r.
Proof.
  intros [Hst Hid Hl] Ht Hafter Hr. unfold campaign_with. apply wp_bind.
  set (pre := bool_decide (t = campaignPreElection)).
  assert (Hbecome : wp False (if pre then becomePreCandidate else becomeCandidate) r (λ _ r1,
    raft_ok r1 ∧ role_kept r r1 ∧ r_state r1 = (if pre then StatePreCandidate else StateCandidate) ∧
    r_Term r1 = (if pre then r_Term r else r_Term r + 1))).
  { destruct pre; (eapply wp_mono; [by apply becomePreCandidate_ok || by apply becomeCandidate_ok|]);
      cbn beta; intros ? ? (? & ? & ? & ?); by split_and!. }
  eapply wp_mono; [exact Hbecome|]. cbn beta. intros _ r1 (Hr1 & Hk1 & Hst1 & Ht1). clear Hbecome.
  assert (Hid1 : is_Some (t_Progress (r_prs r1) !! r_id r1)).
  { rewrite (rk_id _ _ Hk1). by apply (role_tracked r). }
  apply wp_bind, wp_get, wp_bind. eapply wp_mono; [by apply safe_poll|]. cbn beta.
  intros [[g rj] res] r2 [Hr2 Hc2].
  assert (Hcc : can_campaign r2).
  { split.
    - rewrite (ca_state _ _ Hc2), Hst1. by destruct pre.
    - rewrite (ca_id _ _ Hc2). by apply (calm_tracked r1).
    - by rewrite (ca_log _ _ Hc2), (rk_log _ _ Hk1). }
  assert (Ht2 : r_Term r2 = r_Term r1) by apply Hc2.
  destruct (decide (res = VoteWon)).
  - destruct pre; [apply Hafter; [done|lia|done]|].
    apply becomeLeader_ok; [done|by rewrite (ca_state _ _ Hc2)|apply Hcc|apply Hcc].
  - revert Hr2. apply safe_returns, safe_gets, safe_forM. intros id r3 _ _. destruct (_ =? _); [apply safe_ret|].
    apply safe_request_vote; [destruct pre; auto|]. destruct pre; [rewrite add64_small; lia|lia].
Qed.

Lemma campaign_returns t r : can_campaign r → r_Term r + 1 < two64 → returns (campaign t) r.
Proof.
  intros Hc Ht. apply campaign_with_returns; [done|done|]. intros r1 Hc1 Ht1.
  apply campaign_with_returns; [done|done|]. intros. apply returns_ret.
Qed.

Lemma hup_returns t r :
  r_Term r + 1 < two64 → lg_last (rl_log (r_raftLog r)) + 2 < 9223372036854775808 → returns (hup t) r.
Proof.
  intros Ht Hl. unfold hup. apply returns_get. destruct (decide _) as [|Hst]; [apply returns_ret|].
  destruct (promotable r) eqn:Hp; cbn [negb]; [|apply returns_ret].
  assert (Hcc : can_campaign r ∧ hasPendingSnapshot (r_raftLog r) = false).
  { unfold promotable in Hp. destruct (t_Progress (r_prs r) !! r_id r) eqn:E; [|done].
    apply andb_prop in Hp as [_ Hp%negb_true_iff]. split; [|done]. split; [done|by rewrite E|done]. }
  destruct Hcc as [Hcc Hps]. intros Hr. destruct (ok_log _ Hr) as [[Hv Hz] Hre _]. specialize (Hre Hps).
  pose proof (rv_committed _ Hv). pose proof (rv_applied _ Hv). pose proof (log_last_small _ Hv).
  apply wp_bind. eapply wp_log_read.
  { rewrite log_slice_valid; [reflexivity|done|..]; nowrap; lia. }
  cbv beta. destruct (_ && _); [by apply returns_ret|]. by apply campaign_returns.
Qed.

Lemma candidate_vote_returns m r :
  can_campaign r → r_state r = StateCandidate ∨ r_state r = StatePreCandidate →
  r_Term r + 1 < two64 → returns (candidate_vote m) r.
Proof.
  intros [Hst Hid Hl] Hcand Ht. unfold candidate_vote. apply returns_after; [apply safe_poll|].
  intros [[g rj] res] r1 Hc1. apply returns_get.
  assert (Hcc : can_campaign r1).
  { split; [by rewrite (ca_state _ _ Hc1)|rewrite (ca_id _ _ Hc1); by apply (calm_tracked r)|by rewrite (ca_log _ _ Hc1)]. }
  destruct res; [apply returns_ret|apply returns_stepDown|].
  destruct (decide _) as [Hpre|Hpre].
  - apply campaign_returns; [done|]. by rewrite (ca_term _ _ Hc1).
  - intros Hr1. rewrite (ca_state _ _ Hc1) in Hpre. apply wp_bind. eapply wp_mono.
    { apply becomeLeader_ok; [done|rewrite (ca_state _ _ Hc1); by destruct Hcand|apply Hcc|apply Hcc]. }
    cbn beta. intros _ r2. apply safe_returns, safe_bcastAppend.
Qed.
End Elections.

(** ** Messages *)

Section Messages.
Context `{RaftPB} {S : Type} `{!Storage S} `{!StorageLaws S}.
Implicit Types r : raft S.

(** A proposed entry that can be decoded. *)
Definition decodable (e : Entry) : Prop := ∃ cc, decode_ConfChange e = Ok cc.

(** The [ConfState] of a well-formed tracker with a voter. *)
Definition restorable (cs : ConfState) : Prop :=
  ∃ t, cs = tracker_ConfState t ∧ config_wf (t_Config t) (t_Progress t) ∧
    inc (t_Config t) ≠ ∅ ∧ t_Progress t !! 0 = None.

(** The entries of an append agree with the committed entries. *)
Definition agrees (l : raftLog S) (ents : list Entry) : Prop :=
  ∀ e, e ∈ ents → e_Index e ≤ l_committed l → lg_term (rl_log l) (e_Index e) = Some (e_Term e).

(** What is relied on in a message: an append follows its index, agrees with the
    committed entries and comes with a term; a snapshot can be restored; a
    proposal can be decoded; what a follower forwards has no term; nothing is near
    the end of the range of its type. *)
Record acceptable r (m : Message) : Prop := {
  ac_terms : N.max (r_Term r) (m_Term m) + 2 < two64;
  ac_last : lg_last (rl_log (r_raftLog r)) + lenN (m_Entries m) + 2 < 9223372036854775808;
  ac_index : m_Type m = MsgAppResp → m_Index m < maxUint64;
  ac_term : from_leader (m_Type m) = true ∨ m_Type m = MsgVote ∨ m_Type m = MsgPreVote →
    m_Term m ≠ 0;
  ac_app : m_Type m = MsgApp → contiguous (m_Index m) (m_Entries m) ∧ has_terms (m_Entries m) ∧
    (m_LogTerm m = 0 → m_Index m = 0) ∧
    m_Index m + lenN (m_Entries m) + 1 < 9223372036854775808 ∧ agrees (r_raftLog r) (m_Entries m);
  ac_snap : m_Type m = MsgSnap → restorable (s_ConfState (m_Snapshot m)) ∧
    s_Index (m_Snapshot m) + 1 < 9223372036854775808;
  ac_prop : m_Type m = MsgProp → m_Entries m ≠ [] ∧ Forall decodable (m_Entries m);
  ac_read : m_Type m = MsgReadIndex → m_Entries m ≠ [];
  ac_forward : m_Type m = MsgProp ∨ m_Type m = MsgReadIndex ∨ m_Type m = MsgTransferLeader →
    r_state r = StateFollower → r_lead r ≠ None_id → m_Term m = 0;
}.

(** ** The leader *)

Lemma returns_leader_CheckQuorum r : returns leader_CheckQuorum r.
Proof.
  unfold leader_CheckQuorum. apply returns_get, returns_after.
  - destruct (t_Progress (r_prs r) !! r_id r) eqn:E; [|apply safe_ret].
    apply safe_pr_modify; [by rewrite E| |done]. intros pr Hok. by apply (peer_ok_flags pr true true).
  - intros _ r1 Hc1. intros Hr1. apply wp_bind, wp_gets. revert Hr1. apply returns_bind.
    + destruct (negb _); cbn [when]; [|apply returns_ret]. rewrite <- (ca_term _ _ Hc1).
      apply returns_stepDown.
    + intros _ r2. apply safe_returns, safe_visit. intros id r3 Hid _. destruct (_ =? _); [apply safe_ret|].
      apply safe_pr_modify; [done| |done]. intros pr Hok. by apply (peer_ok_flags pr false true).
Qed.

Lemma safe_check_proposals i es r : Forall decodable es → safe (check_proposals i es) r.
Proof.
  intros Hd. revert i r. induction Hd as [|e es [cc Hcc] _ IH]; intros i r; cbn [check_proposals]; [apply safe_ret|].
  apply safe_bind; [apply safe_read; rewrite Hcc; by eexists|]. intros cc' r1 _. apply safe_get, safe_bind.
  - destruct cc' as [cc'|]; [|apply safe_ret]. destruct (refuses r1 cc'); [apply safe_ret|]. walk_safe.
  - intros e' r2 _. apply safe_bind; [apply IH|]. intros rest r3 _. apply safe_ret.
Qed.

Lemma returns_leader_Prop m r :
  r_state r = StateLeader → m_Entries m ≠ [] → Forall decodable (m_Entries m) →
  lg_last (rl_log (r_raftLog r)) + lenN (m_Entries m) + 2 < 9223372036854775808 →
  returns (leader_Prop m) r.
Proof.
  intros Hst Hne Hd Hb. unfold leader_Prop. apply returns_get.
  destruct (length (m_Entries m) =? 0)%nat eqn:E; [apply Nat.eqb_eq in E; by destruct (m_Entries m)|].
  destruct (t_Progress (r_prs r) !! r_id r) eqn:Hpr; [|apply returns_ret].
  destruct (negb _); [apply returns_ret|]. intros Hr. apply wp_bind. eapply wp_mono.
  { apply wp_also; [by apply (safe_check_proposals 0 (m_Entries m) r)|].
    apply (check_proposals_length 0). }
  cbn beta. intros es r1 [[Hr1 Hc1] Hlen]. apply wp_bind.
  assert (Hlen' : lenN es = lenN (m_Entries m)) by (unfold lenN; by rewrite Hlen).
  eapply wp_mono.
  { apply (appendEntry_ok es r1); [done|..].
    - rewrite (ca_term _ _ Hc1). intros Ht. destruct (ok_term _ Hr Ht) as [_ []]. by right.
    - intros ->. by destruct (m_Entries m).
    - rewrite (ca_id _ _ Hc1). apply (calm_tracked r); [done|]. by rewrite Hpr.
    - rewrite (ca_log _ _ Hc1), Hlen'. lia. }
  cbn beta. intros acc r2 (Hr2 & _ & _). destruct (negb acc); [by apply wp_ret|]. revert Hr2.
  apply safe_returns, safe_bind; [auto with safe|]. intros. apply safe_ret.
Qed.

Lemma returns_stepLeader m r :
  r_state r = StateLeader → acceptable r m → returns (stepLeader m) r.
Proof.
  intros Hst Hac. unfold stepLeader.
  assert (Hret : ∀ k : M (raft S) unit, returns k r → returns (k;; mret (M := M (raft S)) (@None error)) r).
  { intros k Hk. apply returns_bind; [done|]. intros. apply returns_ret. }
  assert (Hdefault : ∀ k : M (raft S) unit, (is_Some (t_Progress (r_prs r) !! m_From m) → safe k r) →
    returns (r ← get; match t_Progress (r_prs r) !! m_From m with
      | None => mret (@None error) | Some _ => k;; mret (@None error) end) r).
  { intros k Hk. apply returns_get. destruct (_ !! _) eqn:E; [|apply returns_ret].
    apply Hret, safe_returns, Hk. by eexists. }
  destruct (m_Type m) eqn:Ht; try (apply Hdefault; intros Hid; apply safe_ret).
  - apply Hret, safe_returns. auto with safe.
  - destruct (ac_prop _ _ Hac Ht). apply returns_leader_Prop; [done|done|done|apply (ac_last _ _ Hac)].
  - apply Hdefault. intros Hid. apply safe_leader_AppResp; [done|by apply (ac_index _ _ Hac)].
  - apply Hdefault. intros Hid. by apply safe_leader_HeartbeatResp.
  - apply Hdefault. intros Hid. by apply safe_leader_Unreachable.
  - apply Hdefault. intros Hid. by apply safe_leader_SnapStatus.
  - apply Hret, returns_leader_CheckQuorum.
  - apply Hdefault. intros Hid. by apply safe_leader_TransferLeader.
  - apply Hret, safe_returns, safe_leader_ReadIndex. by apply (ac_read _ _ Hac).
Qed.
End Messages.

(** ** The follower and the candidate *)

Section Follower.
Context `{RaftPB} {S : Type} `{!Storage S} `{!StorageLaws S}.
Context (Hequiv : ∀ cs, ConfState_Equivalent cs cs = None).
Implicit Types r : raft S.

Lemma safe_reject_append m r : safe (reject_append m) r.
Proof.
  unfold reject_append. apply safe_bind; [auto with safe|]. intros t r1 _.
  apply safe_bind; [auto with safe|]. intros last r2 _. cbv zeta.
  apply safe_bind; [apply safe_findConflictByTerm|]. intros hint r3 _.
  apply safe_bind; [|intros ht r4 _; auto with safe].
  apply safe_log_read. intros Hs. rewrite log_term_valid by apply Hs. by eexists.
Qed.

Lemma raft_ok_log r l' :
  raft_ok r → log_safe l' → r_Term r ≠ 0 → raft_ok (r <| r_raftLog := l' |>).
Proof. intros [] Hs Ht. split; cbn; done. Qed.

Lemma append_safe l m :
  log_safe l → contiguous (m_Index m) (m_Entries m) → has_terms (m_Entries m) →
  (m_LogTerm m = 0 → m_Index m = 0) → m_Index m + lenN (m_Entries m) + 1 < 9223372036854775808 →
  agrees l (m_Entries m) → l_committed l ≤ m_Index m →
  ∃ res l', maybeAppend l (m_Index m) (m_LogTerm m) (m_Commit m) (m_Entries m) = Ok (res, l') ∧ log_safe l'.
Proof.
  intros Hs Hc Ht H0 Hb Hag Hci. pose proof (ls_inv _ Hs) as [Hv Hz]. pose proof (rv_committed _ Hv) as Hcm.
  destruct (decide (lg_term (rl_log l) (m_Index m) = Some (m_LogTerm m))) as [Hin|Hni].
  - pose proof (maybeAppend_match l (m_Index m) (m_LogTerm m) (m_Commit m) (m_Entries m) Hv Hin Hc Ht Hb) as Hma.
    cbn zeta in Hma. assert (Hok : ¬ (lg_conflict (rl_log l) (m_Entries m) ≠ 0 ∧
      lg_conflict (rl_log l) (m_Entries m) ≤ l_committed l)).
    { intros [Hne Hle]. assert (Hir : is_Some (lg_term (rl_log l) (m_Index m))) by by eexists.
      apply lg_term_is_Some in Hir.
      destruct (lg_conflict_spec (rl_log l) (m_Index m) (m_Entries m) Hc Ht) as [[? _]|(k & e & Hk & Hce & _ & Hd & _)];
        [lia|done|]. apply Hd.
      assert (Hei : e_Index e = lg_conflict (rl_log l) (m_Entries m)) by (rewrite (Hc k e Hk); lia).
      apply Hag; [by eapply list_elem_of_lookup_2|by rewrite Hei]. }
    rewrite bool_decide_eq_false_2 in Hma by done. destruct Hma as (l' & Hma & Hv' & Hf & _ & Hlog).
    eexists _, l'. split; [exact Hma|]. apply (log_safe_frame l); [done|done|..|done];
      rewrite Hlog; by destruct (_ =? 0).
  - destruct (decide (m_LogTerm m = 0)) as [Hlt|Hlt].
    + exfalso. apply Hni. rewrite Hlt, H0 in * by done. assert (Hp : lg_prev (rl_log l) = 0) by lia.
      rewrite <- Hp at 1. by rewrite lg_term_prev, Hz.
    + exists None, l. split; [|done]. apply maybeAppend_mismatch; [done|lia|done].
Qed.

Lemma returns_handleAppendEntries m r :
  r_Term r ≠ 0 → contiguous (m_Index m) (m_Entries m) → has_terms (m_Entries m) →
  (m_LogTerm m = 0 → m_Index m = 0) → m_Index m + lenN (m_Entries m) + 1 < 9223372036854775808 →
  agrees (r_raftLog r) (m_Entries m) → returns (handleAppendEntries m) r.
Proof.
  intros Htm Hc Ht H0 Hb Hag. unfold handleAppendEntries. apply returns_get.
  destruct (N.ltb_spec (m_Index m) (l_committed (r_raftLog r))); [apply safe_returns; auto with safe|].
  intros Hr. apply wp_bind. eapply wp_log_read; [apply lastIndex_valid, (ok_log _ Hr)|].
  destruct (append_safe (r_raftLog r) m (ok_log _ Hr)) as (res & l' & Hma & Hs); try done.
  apply wp_bind. eapply wp_log_step; [exact Hma|].
  pose proof (raft_ok_log r l' Hr Hs Htm) as Hr1. revert Hr1. apply safe_returns.
  destruct res; [auto with safe|apply safe_reject_append].
Qed.

Lemma safe_handleHeartbeat m r : safe (handleHeartbeat m) r.
Proof. unfold handleHeartbeat. walk_safe. Qed.

(** The tracker that [Restore] makes of a [ConfState]. *)
Lemma restored_tracker t m last :
  config_wf (t_Config t) (t_Progress t) → inc (t_Config t) ≠ ∅ → t_Progress t !! 0 = None →
  (0 < m < 4611686018427387904)%Z → 0 < last < maxUint64 →
  ∃ prs, Restore (MkChanger (MakeProgressTracker m) last) (tracker_ConfState t) =
           Ok (Val (t_Config t, prs)) ∧
    config_wf (t_Config t) prs ∧ map_Forall (λ _, peer_ok) prs ∧
    map_Forall (λ _ pr, pr_Next pr = last) prs.
Proof.
  intros Hwf Hne H0 Hm Hl. destruct (Restore_wf t m last Hwf Hne H0) as (prs & Hres & Hwf').
  exists prs. split; [done|]. split; [done|].
  pose proof (Restore_peers (λ pr, peer_ok pr ∧ pr_Next pr = last)) as HP.
  specialize (HP ltac:(intros pr b [[[] ? ?] ?]; split; [|done]; by repeat (split; try done))
    (MkChanger (MakeProgressTracker m) last) (tracker_ConfState t)).
  rewrite Hres in HP. cbn [peers_after] in HP.
  assert (Hall : map_Forall (λ _ pr, peer_ok pr ∧ pr_Next pr = last) prs).
  { apply HP; [|apply map_Forall_empty]. intros b. split; [|done]. split; [split|..]; cbn; try done; try lia.
    apply NewInflights_ok. lia. }
  split; intros id pr Hpr; apply (Hall id pr Hpr).
Qed.

Lemma returns_restore s r :
  restorable (s_ConfState s) → s_Index s + 1 < 9223372036854775808 → r_Term r ≠ 0 →
  r_Term r + 1 < two64 → returns (restore s) r.
Proof.
  intros (t & Hcs & Hwf & Hne & H0) Hb Hnz Htm. unfold restore. apply returns_get. cbv zeta.
  destruct (N.leb_spec (s_Index s) (l_committed (r_raftLog r))) as [|Hlt]; [apply returns_ret|].
  case_bool_decide as Hst; cbn [negb].
  2:{ apply returns_bind; [|intros; apply returns_ret]. intros Hr. eapply wp_mono.
      - apply becomeFollower_ok; [done|]. rewrite add64_small by done. lia.
      - by intros ? ? []. }
  case_bool_decide as Hin; cbn [negb]; [|apply returns_ret].
  intros Hr. destruct (ok_log _ Hr) as [[Hv Hz] Hre Hsn]. pose proof (rv_applied _ Hv).
  apply wp_bind. eapply wp_log_read; [by apply matchTerm_valid|]. destruct (_ =? s_Term s).
  { revert Hr. apply safe_returns, safe_bind; [auto with safe|]. intros lt r1 _.
    apply safe_bind; [auto with safe|]. intros. apply safe_ret. }
  apply wp_bind, wp_modify.
  destruct (log_restore_valid (r_raftLog r) s Hv) as (Hv1 & Hlog1 & Hc1 & Hst1 & Ha1 & Hs1);
    [lia|unfold two64; lia|]. set (l1 := log_restore (r_raftLog r) s) in *.
  assert (Hsafe1 : log_safe l1).
  { split.
    - split; [done|]. rewrite Hlog1. cbn. lia.
    - unfold hasPendingSnapshot. rewrite Hs1. unfold IsEmptySnap.
      destruct (N.eqb_spec (s_Index s) 0); [lia|done].
    - right. right. exists s. unfold log_snapshot. rewrite Hs1. split; [done|]. unfold maxUint64. lia. }
  set (mi := t_MaxInflight (r_prs r)) in *. set (r1 := update r_prs _ _).
  apply wp_bind. unfold restore_config. apply wp_bind, wp_get, wp_bind.
  assert (Hlast : lastIndex (r_raftLog r1) = Ok (s_Index s)).
  { change (r_raftLog r1) with l1. rewrite lastIndex_valid, Hlog1 by done. unfold lg_last. cbn.
    by rewrite N.add_0_r. }
  eapply wp_log_read; [exact Hlast|]. apply wp_bind.
  destruct (restored_tracker t mi (s_Index s) Hwf Hne H0 (ok_inflight _ Hr)) as (prs & Hres & Hwf' & Hpe & Hnx);
    [unfold maxUint64; lia|].
  change (r_prs r1) with (MakeProgressTracker mi). rewrite Hcs, Hres.
  apply wp_lift; [|done]. intros ? [= <-]. cbn [fst snd].
  apply wp_bind. unfold switchToConfig. apply wp_bind, wp_modify, wp_bind, wp_get. cbv zeta.
  apply wp_bind, wp_modify. set (r2 := update r_isLearner _ _).
  assert (Hst2 : r_state r2 = StateFollower) by exact Hst.
  change (r_state (update r_prs _ r1)) with (r_state r). rewrite (bool_decide_eq_false_2 (r_state r = StateLeader)) by congruence.
  rewrite andb_false_r. cbn [negb orb]. apply wp_ret, wp_lift.
  2:{ unfold assertConfStatesEquivalent. cbn [r_prs tracker_ConfState]. intros E. exfalso. revert E.
      change (tracker_ConfState (r_prs (update r_prs _ r1))) with (tracker_ConfState t). by rewrite Hequiv. }
  intros [] _. 
  assert (Hr2 : raft_ok r2).
  { destruct Hr. split; try done. intros [E|E]; rewrite Hst2 in E; done. }
  assert (Hid2 : is_Some (t_Progress (r_prs r2) !! r_id r)).
  { change (t_Progress (r_prs r2)) with prs. rewrite <- elem_of_dom, (wf_dom _ _ Hwf').
    rewrite Hcs in Hin. cbn in Hin. rewrite !elem_of_Slice in Hin. unfold inc, out, lrn. set_solver. }
  apply wp_peer; [done|done|]. intros pr Hpr Hok. apply wp_bind.
  eapply wp_mono.
  { apply (safe_pr_set _ pr); [done| |apply learner_MaybeUpdate|done].
    apply peer_ok_MaybeUpdate; [done|]. rewrite (Hnx _ _ Hpr). unfold maxUint64 in *. nowrap. lia. }
  cbn beta. intros _ r3 [Hr3 Hc3]. revert Hr3. apply safe_returns, safe_bind; [auto with safe|].
  intros. apply safe_ret.
Qed.

Lemma returns_handleSnapshot m r :
  restorable (s_ConfState (m_Snapshot m)) → s_Index (m_Snapshot m) + 1 < 9223372036854775808 →
  r_Term r ≠ 0 → r_Term r + 1 < two64 → returns (handleSnapshot m) r.
Proof.
  intros Hcs Hb Hnz Ht. unfold handleSnapshot. apply returns_bind; [by apply returns_restore|].
  intros b r1. apply safe_returns, safe_bind; [|intros; auto with safe].
  destruct b; [auto with safe|]. intros Hr1. by apply wp_gets.
Qed.
End Follower.

(** ** Steps *)

Section Steps.
Context `{RaftPB} {S : Type} `{!Storage S} `{!StorageLaws S}.
Context (Hequiv : ∀ cs, ConfState_Equivalent cs cs = None).
Implicit Types r : raft S.

(** What the handling of the term leaves for the rest of [Step]. *)
Record term_handled r (m : Message) r' : Prop := {
  th_kept : role_kept r r';
  th_term : r_Term r' ≤ N.max (r_Term r) (m_Term m);
  th_same : from_leader (m_Type m) = true ∨ m_Type m = MsgVote → r_Term r' = m_Term m;
  th_role : (r_state r' = r_state r ∧ r_lead r' = r_lead r) ∨
    (r_state r' = StateFollower ∧
     (r_lead r' = None_id ∨ from_leader (m_Type m) = true));
}.

Lemma acceptable_handled r m r' : acceptable r m → term_handled r m r' → acceptable r' m.
Proof.
  intros [Hts Hla Hix Htm Hap Hsn Hpr Hre Hfo] [[_ Hl _] Ht _ Hro]. split; rewrite ?Hl; try done; [lia|].
  intros Hin Hst Hle. destruct Hro as [[Hs Hd]|[_ [Hn|Hty]]]; [|done|].
  - apply Hfo; [done|congruence|congruence].
  - exfalso. by destruct Hin as [Hin|[Hin|Hin]]; rewrite Hin in Hty.
Qed.

Lemma step_term_total m r :
  raft_ok r → acceptable r m →
  wp False (step_term m) r (λ go r', raft_ok r' ∧ (go = true → term_handled r m r')).
Proof.
  intros Hr Hac. pose proof (ac_terms _ _ Hac) as Hb. pose proof (ac_term _ _ Hac) as Hnz.
  unfold step_term. apply wp_bind, wp_get. destruct (N.eqb_spec (m_Term m) 0) as [H0|H0].
  { apply wp_ret. split; [done|]. intros _. split; [done|lia| |by left]. intros Hin. destruct Hnz; [|done].
    destruct Hin; auto. }
  destruct (N.ltb_spec (r_Term r) (m_Term m)) as [Hlt|Hge].
  - unfold higher_term. apply wp_bind, wp_get. cbv zeta. destruct (_ && _).
    { apply wp_bind. eapply wp_log_read; [apply lastTerm_valid, (ok_log _ Hr)|]. by apply wp_ret. }
    assert (Hdown : ∀ lead, lead = None_id ∨ from_leader (m_Type m) = true →
      wp False (becomeFollower (m_Term m) lead) r (λ _ r', raft_ok r' ∧ term_handled r m r')).
    { intros lead Hl. eapply wp_mono; [by apply becomeFollower_ok|]. cbn beta.
      intros _ r' (Hr' & Hk & Ht & Hs & Hle). split; [done|]. split; [done|lia|done|right]. by rewrite Hle. }
    assert (Hstay : m_Type m = MsgPreVote ∨ m_Type m = MsgPreVoteResp →
      wp False (mret tt) r (λ _ r', raft_ok r' ∧ term_handled r m r')).
    { intros Hin. apply wp_ret. split; [done|]. split; [done|lia| |by left]. intros Hin'. exfalso.
      by destruct Hin as [Hin|Hin]; rewrite Hin in Hin'; destruct Hin' as [|]. }
    apply wp_bind. eapply (wp_mono _ _ _ (λ _ r', raft_ok r' ∧ term_handled r m r')).
    + destruct (m_Type m) eqn:Ht; try (apply Hdown; by auto); try (apply Hstay; by auto).
      destruct (m_Reject m); [apply Hdown; by auto|apply Hstay; by auto].
    + intros [] r' [Hr' Hh]. by apply wp_ret.
  - destruct (N.ltb_spec (m_Term m) (r_Term r)) as [Hlt|Hge2].
    + apply wp_bind. eapply wp_mono.
      { assert (Hs : safe (lower_term m) r); [|by apply Hs]. unfold lower_term. apply safe_get.
        destruct (_ && _); [auto with safe|]. destruct (decide _); [|apply safe_ret].
        apply safe_bind; [auto with safe|]. intros lt r1 _. apply safe_send. cbn. lia. }
      cbn beta. intros _ r' [Hr' _]. by apply wp_ret.
    + apply wp_ret. split; [done|]. intros _. split; [done|lia|intros _; lia|by left].
Qed.

Lemma safe_step_vote m r :
  m_Type m = MsgVote ∧ r_Term r = m_Term m ∨ m_Type m = MsgPreVote → m_Term m ≠ 0 →
  safe (step_vote m) r.
Proof.
  intros Hty Hnz Hr. pose proof (ls_inv _ (ok_log _ Hr)) as [Hv Hz]. unfold step_vote.
  apply wp_bind, wp_get, wp_bind.
  assert (Hup : ∃ up, (if can_vote r m then log_read (λ l, isUpToDate l (m_Index m) (m_LogTerm m))
    else mret false) r = Ok (up, r) ∧ (up = false → r_Term r ≠ 0)).
  { destruct (can_vote r m) eqn:Hcv.
    - unfold log_read, lift. rewrite isUpToDate_valid by done. eexists. split; [reflexivity|].
      case_bool_decide as Hbd; [done|]. intros _ Ht0. destruct (ok_term _ Hr Ht0) as [Hl0 _]. apply Hbd.
      rewrite Hl0. pose proof (rv_committed _ Hv). assert (Hp : lg_prev (rl_log (r_raftLog r)) = 0) by lia.
      pose proof (lg_term_prev (rl_log (r_raftLog r))) as Htp. rewrite Hp, (Hz Hp) in Htp. rewrite Htp. cbn.
      unfold id. lia.
    - eexists. split; [reflexivity|]. intros _ Ht0. unfold can_vote in Hcv.
      destruct Hty as [[_ Ht]|Hty]; [lia|]. rewrite Hty in Hcv. rewrite bool_decide_eq_true_2 in Hcv by done.
      rewrite (proj2 (N.ltb_lt _ _)) in Hcv by lia. by rewrite orb_true_r in Hcv. }
  destruct Hup as (up & Hup & Hrej). unfold wp at 1. rewrite Hup. revert Hr.
  apply safe_bind; [auto with safe|]. intros lt r1 Hc1.
  assert (Hresp : ∃ rt, voteRespMsgType (m_Type m) = Ok rt ∧ is_vote_type rt = true).
  { destruct Hty as [[-> _]| ->]; by eexists. }
  destruct Hresp as (rt & Hrt & Hvt). intros Hr1. apply wp_bind, wp_lift; rewrite Hrt; [|done].
  intros ? [= <-]. revert Hr1. destruct up.
  - apply safe_bind; [apply safe_send; cbn; by rewrite Hvt|]. intros _ r2 _. walk_safe.
  - apply safe_send. cbn. rewrite Hvt. by apply Hrej.
Qed.

Lemma returns_stepFollower m r :
  r_state r = StateFollower → acceptable r m → (from_leader (m_Type m) = true → r_Term r = m_Term m) →
  returns (stepFollower m) r.
Proof.
  intros Hst Hac Hterm. pose proof (ac_terms _ _ Hac) as Hb. pose proof (ac_last _ _ Hac) as Hl.
  unfold stepFollower. apply returns_get.
  assert (Hfwd : m_Type m = MsgProp ∨ m_Type m = MsgReadIndex ∨ m_Type m = MsgTransferLeader →
    r_lead r ≠ None_id → returns (forward_to_lead m;; mret (M := M (raft S)) (@None error)) r).
  { intros Hty Hle. apply safe_returns, safe_bind; [|intros; apply safe_ret]. unfold forward_to_lead.
    apply safe_gets, safe_send. cbn. rewrite (ac_forward _ _ Hac Hty Hst Hle).
    by destruct Hty as [->|[-> | ->]]. }
  assert (Hret : ∀ k : M (raft S) unit, (∀ r', calm r r' → r_raftLog r' = r_raftLog r → returns k r') →
    returns (heard_from (m_From m);; k;; mret (M := M (raft S)) (@None error)) r).
  { intros k Hk Hr. apply wp_bind, wp_modify. set (r1 := update r_lead _ _).
    destruct (same_ok_ok r r1) as [Hr1 Hc1]; [by split|done|]. assert (Hl1 : r_raftLog r1 = r_raftLog r) by done.
    clearbody r1. revert Hr1. apply returns_bind; [by apply Hk|]. intros. apply returns_ret. }
  assert (Hlead : from_leader (m_Type m) = true → ∀ r', calm r r' → r_Term r' = m_Term m ∧ m_Term m ≠ 0).
  { intros Hf r' Hc. rewrite (ca_term _ _ Hc). split; [by apply Hterm|]. apply (ac_term _ _ Hac). by left. }
  destruct (m_Type m) eqn:Ht; try apply returns_ret.
  - destruct (N.eqb_spec (r_lead r) None_id); [apply returns_ret|].
    destruct (r_disableProposalForwarding r); [apply returns_ret|]. by apply Hfwd; [auto|].
  - apply Hret. intros r' Hc Hlog. destruct (Hlead eq_refl r' Hc) as [Htm Hnz].
    destruct (ac_app _ _ Hac Ht) as (? & ? & ? & ? & ?).
    apply returns_handleAppendEntries; try done; [by rewrite Htm|by rewrite Hlog].
  - apply Hret. intros r' Hc Hlog. destruct (Hlead eq_refl r' Hc) as [Htm Hnz].
    destruct (ac_snap _ _ Hac Ht). apply returns_handleSnapshot; try done; [by rewrite Htm|lia].
  - apply Hret. intros r' Hc Hlog. apply safe_returns, safe_handleHeartbeat.
  - destruct (N.eqb_spec (r_lead r) None_id); [apply returns_ret|]. by apply Hfwd; [auto|].
  - apply returns_bind; [apply hup_returns; lia|intros; apply returns_ret].
  - destruct (N.eqb_spec (r_lead r) None_id); [apply returns_ret|]. by apply Hfwd; [auto|].
  - destruct (m_Entries m) as [|e [|]]; [apply returns_ret| |apply returns_ret].
    apply safe_returns. walk_safe.
Qed.

Lemma returns_stepCandidate m r :
  r_state r = StateCandidate ∨ r_state r = StatePreCandidate → acceptable r m →
  returns (stepCandidate m) r.
Proof.
  intros Hst Hac. pose proof (ac_terms _ _ Hac) as Hb. pose proof (ac_last _ _ Hac) as Hl.
  unfold stepCandidate. apply returns_get.
  assert (Hret : ∀ k : M (raft S) unit, from_leader (m_Type m) = true →
    (∀ r', r_Term r' = m_Term m → m_Term m ≠ 0 → r_raftLog r' = r_raftLog r → returns k r') →
    returns (becomeFollower (m_Term m) (m_From m);; k;; mret (M := M (raft S)) (@None error)) r).
  { intros k Hf Hk Hr. pose proof (ac_term _ _ Hac (or_introl Hf)) as Hnz. apply wp_bind.
    eapply wp_mono; [by apply becomeFollower_ok|]. cbn beta. intros _ r1 (Hr1 & Hkept & Ht1 & _).
    revert Hr1. apply returns_bind; [apply Hk; [done|done|apply Hkept]|]. intros. apply returns_ret. }
  assert (Hvote : returns (candidate_vote m;; mret (M := M (raft S)) (@None error)) r).
  { intros Hr. assert (Hcc : can_campaign r).
    { split; [by destruct Hst; congruence|by apply (ok_candidate _ Hr)|lia]. }
    revert Hr. apply returns_bind; [|intros; apply returns_ret]. by apply candidate_vote_returns; [..|lia]. }
  generalize (if decide (r_state r = StatePreCandidate) then MsgPreVoteResp else MsgVoteResp). intros rt.
  destruct (m_Type m) eqn:Ht; try (destruct (decide _); [exact Hvote|apply returns_ret]); try apply returns_ret.
  - apply Hret; [done|]. intros r' Ht' Hnz Hlog. destruct (ac_app _ _ Hac Ht) as (? & ? & ? & ? & ?).
    apply returns_handleAppendEntries; try done; [by rewrite Ht'|by rewrite Hlog].
  - apply Hret; [done|]. intros r' Ht' Hnz Hlog. destruct (ac_snap _ _ Hac Ht).
    apply returns_handleSnapshot; try done; [by rewrite Ht'|lia].
  - apply Hret; [done|]. intros. apply safe_returns, safe_handleHeartbeat.
Qed.

Lemma Step_returns m r : acceptable r m → returns (Step m) r.
Proof.
  intros Hac Hr. unfold Step. apply wp_bind. eapply wp_mono; [by apply step_term_total|]. cbn beta.
  intros go r1 [Hr1 Hgo]. destruct go; [|by apply wp_ret]. specialize (Hgo eq_refl). cbn [negb].
  pose proof (acceptable_handled _ _ _ Hac Hgo) as Hac1. destruct Hgo as [Hk Hle Hsame Hro].
  assert (Hstep : returns (step m) r1).
  { unfold step. apply returns_get. destruct (r_state r1) eqn:Hst.
    - apply returns_stepFollower; [done|done|]. intros Hf. apply Hsame. by left.
    - apply returns_stepCandidate; [by left|done].
    - by apply returns_stepLeader.
    - apply returns_stepCandidate; [by right|done]. }
  pose proof (ac_terms _ _ Hac1). pose proof (ac_last _ _ Hac1). revert Hr1.
  destruct (m_Type m) eqn:Ht; try exact Hstep.
  - apply returns_get, returns_bind; [apply hup_returns; lia|intros; apply returns_ret].
  - apply safe_returns, safe_bind; [|intros; apply safe_ret]. apply safe_step_vote.
    + left. split; [done|]. apply Hsame. by right.
    + apply (ac_term _ _ Hac). rewrite Ht. auto.
  - apply safe_returns, safe_bind; [|intros; apply safe_ret]. apply safe_step_vote; [by right|].
    apply (ac_term _ _ Hac). rewrite Ht. auto.
Qed.
End Steps.

(** ** Ticks *)

Section Ticks.
Context `{RaftPB} {S : Type} `{!Storage S} `{!StorageLaws S}.
Implicit Types r : raft S.

Lemma acceptable_hup r self :
  r_Term r + 2 < two64 → lg_last (rl_log (r_raftLog r)) + 2 < 9223372036854775808 →
  acceptable r ((msg MsgHup 0) <| m_From := self |>).
Proof.
  intros Ht Hl. split; cbn; try done; try lia.
  - unfold lenN. cbn [length]. lia.
  - intros [|[|]]; done.
Qed.

(** A message of the node to itself goes straight to the handler of its role. *)
Lemma local_Step t r :
  t = MsgBeat ∨ t = MsgCheckQuorum →
  local_msg t r = step ((msg t 0) <| m_From := r_id r |>) r.
Proof. by intros [-> | ->]. Qed.

Lemma local_returns t r : t = MsgBeat ∨ t = MsgCheckQuorum → returns (local_msg t) r.
Proof.
  intros Ht Hr. unfold wp. rewrite local_Step by done.
  change (wp False (step ((msg t 0) <| m_From := r_id r |>)) r (λ _ r', raft_ok r')).
  revert Hr. unfold step. apply returns_get.
  assert (Hty : m_Type ((msg t 0) <| m_From := r_id r |>) = t) by done.
  destruct (r_state r) eqn:Hst.
  - unfold stepFollower. apply returns_get. rewrite Hty. by destruct Ht as [-> | ->]; apply returns_ret.
  - unfold stepCandidate. apply returns_get. rewrite Hty, Hst. by destruct Ht as [-> | ->]; apply returns_ret.
  - unfold stepLeader. rewrite Hty. destruct Ht as [-> | ->]; (apply returns_bind; [|intros; apply returns_ret]).
    + apply safe_returns. auto with safe.
    + apply returns_leader_CheckQuorum.
  - unfold stepCandidate. apply returns_get. rewrite Hty, Hst. by destruct Ht as [-> | ->]; apply returns_ret.
Qed.

Lemma tick_returns r :
  (∀ cs, ConfState_Equivalent cs cs = None) →
  r_Term r + 2 < two64 → lg_last (rl_log (r_raftLog r)) + 2 < 9223372036854775808 → returns tick r.
Proof.
  intros Heq Ht Hl. unfold tick. apply returns_get. destruct (decide _) as [Hst|Hst].
  - unfold tickHeartbeat. apply returns_after; [walk_safe|]. intros _ r1 _. apply returns_get, returns_bind.
    + destruct (bool_decide _); cbn [when]; [|apply returns_ret]. unfold leader_timeout.
      apply returns_after; [walk_safe|]. intros _ r2 _. apply returns_get, returns_bind.
      * destruct (r_checkQuorum r2); cbn [when]; [|apply returns_ret].
        apply returns_bind; [apply local_returns; by right|]. intros. apply returns_ret.
      * intros _ r3. apply returns_get, safe_returns, safe_when. intros _. apply safe_abortLeaderTransfer.
    + intros _ r2. apply returns_get. destruct (negb _); [apply returns_ret|].
      destruct (bool_decide _); [|apply returns_ret]. apply returns_after; [walk_safe|]. intros _ r3 _.
      apply returns_bind; [apply local_returns; by left|]. intros. apply returns_ret.
  - unfold tickElection. apply returns_after; [walk_safe|]. intros _ r1 Hc1. apply returns_get.
    destruct (_ && _); [|apply returns_ret]. apply returns_after; [walk_safe|]. intros _ r2 Hc2.
    apply returns_bind; [|intros; apply returns_ret]. unfold local_msg. intros Hr2. apply wp_bind, wp_gets.
    apply Step_returns; [done| |done]. apply acceptable_hup.
    + by rewrite (ca_term _ _ Hc2), (ca_term _ _ Hc1).
    + by rewrite (ca_log _ _ Hc2), (ca_log _ _ Hc1).
Qed.
End Ticks.

(** ** The sending loop *)

Section Loop.
Context `{RaftPB} {S : Type} `{!Storage S} `{!StorageLaws S}.
Implicit Types r : raft S.

(** Nothing happens when nothing is sent. *)
Lemma maybeSendAppend_idle to r r' : maybeSendAppend to false r = Ok (false, r') → r' = r.
Proof.
  intros Hm. assert (Hw : wp True (maybeSendAppend to false) r (λ sent r', sent = false → r' = r)).
  2:{ unfold wp in Hw. rewrite Hm in Hw. by apply Hw. }
  unfold maybeSendAppend. apply wp_bind, wp_lift; [|done]. intros pr _. destruct (IsPaused pr); [done|].
  apply wp_bind, wp_lift; [|done]. intros t _. apply wp_bind, wp_get, wp_bind, wp_lift; [|done].
  intros ents _. cbv zeta. destruct (_ && _); [done|].
  assert (Htrue : ∀ (k k' : M (raft S) unit) r0,
    wp True (k;; k';; mret true) r0 (λ (sent : bool) r', sent = false → r' = r)).
  { intros k k' r0. apply wp_bind, (wp_mono _ _ _ (λ _ _, True)); [by apply wp_whatever|]. intros _ r1 _.
    apply wp_bind, (wp_mono _ _ _ (λ _ _, True)); [by apply wp_whatever|]. by intros _ r2 _. }
  destruct t, ents; try (by apply Htrue).
  all: unfold send_snapshot; destruct (negb _); [done|]; apply wp_bind, wp_lift; [|done].
  all: intros [s|er] _; [|by destruct er]; destruct (IsEmptySnap s); [done|].
  all: apply wp_bind, wp_lift; [|done]; intros i _; by apply Htrue.
Qed.

(** More fuel does not change the result, and the loop stops where nothing more is
    sent. *)
Lemma send_appends_more n n' to r r' :
  (n ≤ n')%nat → send_appends n to r = Ok (true, r') → send_appends n' to r = Ok (true, r').
Proof.
  revert n' r. induction n as [|n IH]; intros n' r Hn; cbn [send_appends]; [done|].
  destruct n' as [|n']; [lia|]. cbn [send_appends]. unfold mbind, M_bind.
  destruct (maybeSendAppend to false r) as [[[] r1]|]; [|done..]. apply IH. lia.
Qed.

Lemma send_appends_result n n' to r (f : raft S → nat) x k :
  match send_appends n to r with Ok (true, y) => f y = k | _ => False end →
  send_appends n' to r = Ok (true, x) → f x = k.
Proof.
  intros Hn Hn'. destruct (send_appends n to r) as [[[] y]|] eqn:E; [|done..].
  apply (send_appends_more n (n + n')) in E; [|lia]. apply (send_appends_more n' (n + n')) in Hn'; [|lia].
  congruence.
Qed.

Lemma send_appends_idle n to r r' :
  send_appends n to r = Ok (true, r') → maybeSendAppend to false r' = Ok (false, r').
Proof.
  revert r. induction n as [|n IH]; intros r; cbn [send_appends]; [done|]. unfold mbind, M_bind.
  destruct (maybeSendAppend to false r) as [[[] r1]|] eqn:E; [by apply IH| |done].
  intros [= <-]. pose proof (maybeSendAppend_idle _ _ _ E) as ->. exact E.
Qed.
End Loop.

(** ** Properties *)

#[local] Existing Instance ex_pb.

(** The state after a step. *)
Definition stepped `{RaftPB} {S} `{Storage S} (m : Message) (r : raft S) : raft S :=
  match Step m r with Ok (_, r') => r' | Panic => r end.

Lemma stepped_ok `{RaftPB} {S} `{!Storage S} `{!StorageLaws S} (m : Message) (r : raft S) :
  (∀ cs, ConfState_Equivalent cs cs = None) → raft_ok r → acceptable r m → raft_ok (stepped m r).
Proof.
  intros Heq Hr Hac. pose proof (Step_returns Heq m r Hac Hr) as Hw. unfold stepped, wp in *.
  by destruct (Step m r) as [[]|].
Qed.

Lemma ex_equivalent cs : ConfState_Equivalent cs cs = None.
Proof. cbn. by rewrite bool_decide_eq_true_2. Qed.

(** Node 1 of three as it starts, and the progress of its peers. *)
Definition ex_peer (learner : bool) (m n : N) : Progress :=
  MkProgress m n StateProbe 0 false false (NewInflights 4) learner.
Lemma ex_peer_ok b m n : m < maxUint64 → 1 ≤ n → peer_ok (ex_peer b m n).
Proof.
  intros Hm Hn. split; [split|..]; cbn; try done.
Qed.

Lemma ex_raft_ok : raft_ok ex_raft.
Proof.
  assert (Hp : map_Forall (λ _ pr, pr ∈ [ex_peer false 5 6; ex_peer false 0 6]) (t_Progress (r_prs ex_raft))).
  { vm_decide. }
  split.
  - split.
    + split; [exact ex_raft_valid|]. vm_compute. discriminate.
    + intros _. vm_compute. discriminate.
    + right. right. exists (MkSnapshot "" (MkConfState [1; 2; 3] [] [] [] false) 3 1).
      split; [vm_compute; reflexivity|]. vm_compute. by split.
  - vm_compute. by split.
  - vm_compute. by split.
  - apply config_ok_wf. vm_compute. reflexivity.
  - intros id pr Hpr. specialize (Hp id pr Hpr). cbn in Hp.
    rewrite !elem_of_cons, elem_of_nil in Hp. destruct Hp as [->|[->|[]]]; by apply ex_peer_ok.
  - intros [E|E]; vm_compute in E; discriminate E.
  - intros E. vm_compute in E. discriminate E.
  - assert (Hro : r_readOnly ex_raft = newReadOnly ReadOnlySafe) by (vm_compute; reflexivity).
    rewrite Hro. apply newReadOnly_ok.
  - assert (Hw : r_pendingReadIndexMessages ex_raft = []) by (vm_compute; reflexivity).
    rewrite Hw. constructor.
Qed.

(** The node campaigns and wins the vote of node 2. *)
Definition ex_hup : Message := (msg MsgHup 0) <| m_From := 1 |>.
Definition ex_granted : Message := (msg MsgVoteResp 1) <| m_From := 2 |> <| m_Term := 3 |>.
Definition ex_campaigning : raft MemoryStorage := stepped ex_hup ex_raft.
Definition ex_leading : raft MemoryStorage := stepped ex_granted ex_campaigning.

Lemma acceptable_vote_resp {S} `{!Storage S} `{!StorageLaws S} (r : raft S) (m : Message) :
  m_Type m = MsgVoteResp → N.max (r_Term r) (m_Term m) + 2 < two64 →
  lg_last (rl_log (r_raftLog r)) + lenN (m_Entries m) + 2 < 9223372036854775808 → acceptable r m.
Proof.
  intros Hty Ht Hl. split; try done; rewrite Hty; try done.
  all: intros [|[|]]; done.
Qed.

Lemma ex_campaigning_ok : raft_ok ex_campaigning.
Proof.
  apply stepped_ok; [exact ex_equivalent|exact ex_raft_ok|].
  apply acceptable_hup; vm_compute; reflexivity.
Qed.

Lemma ex_leading_ok : raft_ok ex_leading.
Proof.
  apply stepped_ok; [exact ex_equivalent|exact ex_campaigning_ok|].
  apply acceptable_vote_resp; vm_compute; reflexivity.
Qed.

(** C10: A node never panics on what a correct cluster sends it: a well-formed node
    handles every acceptable message and every tick, and stays well-formed. *)
Theorem Step_never_panics `{RaftPB} {S} `{!Storage S} `{!StorageLaws S} (m : Message) (r : raft S) :
  (∀ cs, ConfState_Equivalent cs cs = None) → raft_ok r → acceptable r m →
  (∃ e r', Step m r = Ok (e, r') ∧ raft_ok r') ∧ (∃ r', tick r = Ok (tt, r') ∧ raft_ok r').
Proof.
  intros Heq Hr Hac. pose proof (ac_terms _ _ Hac). pose proof (ac_last _ _ Hac). split.
  - apply wp_total. by apply Step_returns.
  - destruct (proj1 (wp_total _ _ _) (tick_returns r Heq ltac:(lia) ltac:(lia) Hr)) as ([] & r' & ?).
    by exists r'.
Qed.

(** The vote that makes the candidate a leader: it then sends its first entry. *)
Lemma Step_never_panics_witness :
  ∃ r', Step ex_granted ex_campaigning = Ok (None, r') ∧ r_state r' = StateLeader ∧
    r_Term r' = 3 ∧ raft_ok r'.
Proof.
  destruct (Step_never_panics ex_granted ex_campaigning) as [(e & r' & Hs & Hr') _].
  - exact ex_equivalent.
  - exact ex_campaigning_ok.
  - apply acceptable_vote_resp; vm_compute; reflexivity.
  - exists r'.
    assert (Hl : ex_leading = r') by (unfold ex_leading, stepped; by rewrite Hs).
    assert (He : match Step ex_granted ex_campaigning with Ok (e, _) => e | Panic => None end = None)
      by (vm_compute; reflexivity).
    rewrite Hs in He. rewrite He in Hs. split; [exact Hs|]. rewrite <- Hl.
    split; [vm_compute; reflexivity|]. split; [vm_compute; reflexivity|exact ex_leading_ok].
Defined.

(** C12: The loop that sends the pending entries to a node ends: from some number of
    rounds on its result no longer changes, and a further append then sends
    nothing.  [send_fuel] is such a number. *)
Theorem send_loop_ends `{RaftPB} {S} `{!Storage S} `{!StorageLaws S} (to : N) (r : raft S) :
  raft_ok r → is_Some (t_Progress (r_prs r) !! to) →
  ∃ fuel r', send_fuel to r = Ok (fuel, r) ∧ raft_ok r' ∧
    (∀ n, (fuel ≤ n)%nat → send_appends n to r = Ok (true, r')) ∧
    maybeSendAppend to false r' = Ok (false, r').
Proof.
  intros Hr Hid. pose proof (send_fuel_enough to r Hr Hid) as Hf.
  apply wp_total in Hf as (fuel & ? & Hf & -> & Hlt).
  pose proof (send_appends_total fuel to r Hr Hid Hlt) as Hs.
  apply wp_total in Hs as (ended & r' & Hs & -> & Hr' & _). exists fuel, r'.
  split; [done|]. split; [done|]. split; [intros n Hn; by eapply send_appends_more|].
  by eapply send_appends_idle.
Qed.


(** Node 2 answers again, so that it may be probed. *)
Definition ex_unpaused : raft MemoryStorage :=
  match pr_modify 2 (λ pr, pr <| pr_ProbeSent := false |>) ex_leading with
  | Ok (_, r') => r' | Panic => ex_leading
  end.

Lemma ex_unpaused_ok : raft_ok ex_unpaused.
Proof.
  assert (Hs : safe (pr_modify 2 (λ pr, pr <| pr_ProbeSent := false |>)) ex_leading).
  { apply safe_pr_modify.
    - vm_compute. by eexists.
    - intros pr Hok. by apply (peer_ok_flags pr false false).
    - done. }
  specialize (Hs ex_leading_ok). unfold ex_unpaused, wp in *.
  destruct (pr_modify 2 _ ex_leading) as [[[] r']|]; [apply Hs|exact ex_leading_ok].
Qed.

(** One append is sent to it, and the loop stops. *)
Lemma send_loop_ends_witness :
  ∃ fuel r', send_fuel 2 ex_unpaused = Ok (fuel, ex_unpaused) ∧
    send_appends fuel 2 ex_unpaused = Ok (true, r') ∧
    length (r_msgs r') = Datatypes.S (length (r_msgs ex_unpaused)) ∧
    maybeSendAppend 2 false r' = Ok (false, r').
Proof.
  destruct (send_loop_ends 2 ex_unpaused ex_unpaused_ok) as (fuel & r' & Hf & _ & Hs & Hi).
  - vm_compute. eexists. reflexivity.
  - exists fuel, r'. split; [exact Hf|]. split; [by apply Hs|]. split; [|exact Hi].
    rewrite (send_appends_result 5 fuel 2 ex_unpaused (λ x, length (r_msgs x)) r' 5);
      [vm_compute; reflexivity|vm_compute; reflexivity|apply Hs; lia].
Defined.
