(* ===== verification/RaftAppend.v ===== *)
(** * How the log of a node evolves in one call

    A leader only appends, entries of its own term, at the end of its log; a
    follower cuts its log where the entries it is sent conflict with it and takes
    these instead; and every [MsgApp] that is sent is a segment of the sender's log.
    These are the facts about one call that make the logs of a cluster match. *)

From S2P Require Import Prelude Pb Quorum Inflights Progress Tracker Confchange.
From S2P Require Import Util Storage Unstable RaftLog ReadOnly Raft RawNode Node.
From S2P Require Import RaftFrame RaftSafety RaftElection RaftInvariant RaftTotal.

(** ** Segments *)

(** The entries of an append are those of the log at their indexes, and the entry
    before them has the term the append names. *)
Definition segment (lg : Log) (m : Message) : Prop :=
  m_Entries m = [] ∨
  contiguous (m_Index m) (m_Entries m) ∧ lg_term lg (m_Index m) = Some (m_LogTerm m) ∧
  ∀ e, e ∈ m_Entries m → lg_entry lg (e_Index e) = Some e.
Definition carries (lg : Log) (m : Message) : Prop := m_Type m = MsgApp → segment lg m.

Lemma lg_entry_index lg i e :
  contiguous (lg_prev lg) (lg_ents lg) → lg_entry lg i = Some e → e_Index e = i ∧ lg_prev lg < i.
Proof.
  intros Hc. unfold lg_entry, lg_pos. destruct (N.ltb_spec (lg_prev lg) i); [|done].
  intros He. rewrite (Hc _ _ He). split; lia.
Qed.
Lemma lg_entry_lookup lg k :
  lg_entry lg (lg_prev lg + 1 + N.of_nat k) = lg_ents lg !! k.
Proof.
  unfold lg_entry, lg_pos. destruct (N.ltb_spec (lg_prev lg) (lg_prev lg + 1 + N.of_nat k)); [|lia].
  f_equal. lia.
Qed.
Lemma lg_term_entry lg i e : lg_entry lg i = Some e → lg_term lg i = Some (e_Term e).
Proof.
  unfold lg_entry, lg_term. destruct (N.ltb_spec (lg_prev lg) i); [|done]. intros He.
  destruct (N.eqb_spec i (lg_prev lg)); [lia|]. destruct (N.ltb_spec i (lg_prev lg)); [lia|].
  by rewrite He.
Qed.
Lemma lg_entry_is_Some lg i : is_Some (lg_entry lg i) ↔ lg_prev lg < i ≤ lg_last lg.
Proof.
  unfold lg_entry, lg_last, lg_pos, lenN. destruct (N.ltb_spec (lg_prev lg) i).
  - rewrite lookup_lt_is_Some. lia.
  - split; [by intros [? ?]|lia].
Qed.
Lemma lg_entry_term lg i t :
  lg_term lg i = Some t → lg_prev lg < i → ∃ e, lg_entry lg i = Some e ∧ e_Term e = t.
Proof.
  intros Ht Hi. assert (Hs : is_Some (lg_term lg i)) by by eexists. apply lg_term_is_Some in Hs.
  destruct (proj2 (lg_entry_is_Some lg i)) as [e He]; [lia|]. exists e. split; [done|].
  apply lg_term_entry in He. congruence.
Qed.
Lemma lg_entry_append_new lg after ents k :
  lg_prev lg < after → after ≤ lg_last lg + 1 →
  lg_entry (lg_append lg after ents) (after + N.of_nat k) = ents !! k.
Proof.
  unfold lg_entry, lg_append, lg_last, lg_pos, lenN. cbn. intros Hp Ha.
  destruct (N.ltb_spec (lg_prev lg) (after + N.of_nat k)); [|lia].
  rewrite lookup_app_r by (rewrite length_take; lia). rewrite length_take. f_equal. lia.
Qed.

Section Reads.
Context `{RaftPB} {S : Type} `{!Storage S} `{!StorageLaws S}.
Implicit Types l : raftLog S.

(** What [raftLog.entries] reads are entries of the log. *)
Lemma log_entries_read l i maxsize es :
  rl_valid l → log_entries l i maxsize = Ok (Val es) → es ≠ [] →
  lg_prev (rl_log l) < i ∧ i ≤ lg_last (rl_log l) ∧ contiguous (i - 1) es ∧
  ∀ e, e ∈ es → lg_entry (rl_log l) (e_Index e) = Some e.
Proof.
  intros Hv He Hne. destruct (decide (lg_last (rl_log l) < i)) as [|Hi].
  { rewrite log_entries_above in He by done. by injection He as <-. }
  destruct (decide (i ≤ lg_prev (rl_log l))) as [|Hp].
  { rewrite log_entries_compacted in He by (done || lia). done. }
  rewrite log_entries_valid in He by (done || lia). injection He as <-.
  pose proof (log_contiguous _ (rv_log _ Hv)) as Hc. set (lg := rl_log l) in *.
  set (sl := lg_slice lg i (lg_last lg + 1)) in *. split; [lia|]. split; [lia|].
  destruct (limitSize_prefix sl maxsize) as (k & -> & _ & _).
  assert (Hl : ∀ j e, take k sl !! j = Some e → lg_ents lg !! (lg_pos lg i + j)%nat = Some e).
  { intros j e [Hj _]%lookup_take_Some. apply lookup_take_Some in Hj as [Hj _].
    by rewrite lookup_drop in Hj. }
  split.
  - intros j e Hj%Hl. rewrite (Hc _ _ Hj). unfold lg_pos. lia.
  - intros e (j & Hj)%list_elem_of_lookup. apply Hl in Hj. rewrite (Hc _ _ Hj). by rewrite lg_entry_lookup.
Qed.
End Reads.

(** ** Methods that keep the log *)

(** The log, the term and the role stay, and what is sent comes from the log. *)
Record relays `{RaftPB} {S} `{!Storage S} `{!StorageLaws S} (r r' : raft S) : Prop := {
  rs_log : log_inv (r_raftLog r');
  rs_same : rl_log (r_raftLog r') = rl_log (r_raftLog r);
  rs_term : r_Term r' = r_Term r;
  rs_state : r_state r' = r_state r;
  rs_msgs : ∃ new, r_msgs r' = r_msgs r ++ new ∧ Forall (carries (rl_log (r_raftLog r))) new;
}.

Section Relays.
Context `{RaftPB} {S : Type} `{!Storage S} `{!StorageLaws S}.
Implicit Types r : raft S.

Definition relaying r r' : Prop := log_inv (r_raftLog r) → relays r r'.
(** The same where the term and the role may change. *)
Definition calm r r' : Prop :=
  log_inv (r_raftLog r) → log_inv (r_raftLog r') ∧ rl_log (r_raftLog r') = rl_log (r_raftLog r) ∧
  ∃ new, r_msgs r' = r_msgs r ++ new ∧ Forall (carries (rl_log (r_raftLog r))) new.

Lemma relaying_calm r r' : relaying r r' → calm r r'.
Proof. intros Hr Hi. destruct (Hr Hi). by split_and!. Qed.

#[export] Instance relaying_preorder : PreOrder relaying.
Proof.
  split.
  - intros r Hi. split; try done. exists []. by rewrite app_nil_r.
  - intros a b c Hab Hbc Ha. destruct (Hab Ha) as [Hb Hl Ht Hs (n & Hm & Hn)].
    destruct (Hbc Hb) as [Hc Hl2 Ht2 Hs2 (n2 & Hm2 & Hn2)]. split; [done|congruence..|].
    exists (n ++ n2). rewrite Hm2, Hm, app_assoc. split; [done|]. apply Forall_app. by rewrite <- Hl at 2.
Qed.
#[export] Instance calm_preorder : PreOrder calm.
Proof.
  split.
  - intros r Hi. split_and!; [done..|]. exists []. by rewrite app_nil_r.
  - intros a b c Hab Hbc Ha. destruct (Hab Ha) as (Hb & Hl & n & Hm & Hn).
    destruct (Hbc Hb) as (Hc & Hl2 & n2 & Hm2 & Hn2). split_and!; [done|congruence|].
    exists (n ++ n2). rewrite Hm2, Hm, app_assoc. split; [done|]. apply Forall_app. by rewrite <- Hl at 2.
Qed.

Lemma moves_calm {A} (m : M (raft S) A) : moves relaying m → moves calm m.
Proof. intros Hm r. eapply wp_mono; [apply Hm|]. cbn. intros ? ?. apply relaying_calm. Qed.

Lemma relaying_same r r' :
  r_raftLog r' = r_raftLog r → r_Term r' = r_Term r → r_state r' = r_state r →
  r_msgs r' = r_msgs r → relaying r r'.
Proof.
  intros Hl Ht Hs Hm Hi. split; rewrite ?Hl; try done. exists []. by rewrite app_nil_r.
Qed.
Lemma calm_same r r' : r_raftLog r' = r_raftLog r → r_msgs r' = r_msgs r → calm r r'.
Proof.
  intros Hl Hm Hi. rewrite Hl. split_and!; [done..|]. exists []. by rewrite app_nil_r.
Qed.

(** A message that is no append, or one that is a segment of the log. *)
Lemma relaying_send r m :
  (log_inv (r_raftLog r) → carries (rl_log (r_raftLog r)) m) →
  relaying r (r <| r_msgs ::= λ ms, ms ++ [m] |>).
Proof. intros Hc Hi. split; try done. exists [m]. split; [done|]. constructor; auto. Qed.

(** A log method that keeps the abstract log. *)
Lemma log_step_relaying {A} (f : raftLog S → outcome (A * raftLog S)) :
  (∀ l a l', rl_valid l → f l = Ok (a, l') → rl_valid l' ∧ rl_log l' = rl_log l) →
  moves relaying (log_step f).
Proof.
  intros Hf r. unfold wp, log_step. destruct (f (r_raftLog r)) as [[a l]|] eqn:E; [|done].
  intros [Hv Hz]. destruct (Hf _ _ _ Hv E) as [Hv' Hl].
  split; cbn; try done; [split; [done|by rewrite Hl]|]. exists []. by rewrite app_nil_r.
Qed.
End Relays.

Section Sending.
Context `{RaftPB} {S : Type} `{!Storage S} `{!StorageLaws S}.
Implicit Types r : raft S.

Lemma maybeSendAppend_relaying to b : moves (@relaying _ S _ _) (maybeSendAppend to b).
Proof.
  assert (Hset : ∀ id pr, moves (@relaying _ S _ _) (pr_set id pr)).
  { intros id pr. apply moves_modify. intros r. by apply relaying_same. }
  assert (Hsend : ∀ m, m_Type m ≠ MsgApp → moves (@relaying _ S _ _) (send m)).
  { intros m Hm r. eapply wp_mono; [apply send_spec|]. intros [] r' (m' & -> & Ht & _).
    apply relaying_send. intros _ Ha. congruence. }
  assert (Hsn : ∀ pr, moves (@relaying _ S _ _) (send_snapshot to pr)).
  { intros pr. unfold send_snapshot. repeat first [apply Hset|apply Hsend; discriminate|progress walk]. }
  assert (Hse : ∀ pr es, moves (@relaying _ S _ _) (sent_entries to pr es)).
  { intros pr es. unfold sent_entries. repeat first [apply Hset|progress walk]. }
  intros r. unfold maybeSendAppend, pr_get. apply wp_bind, wp_lift; [|done]. intros pr _.
  destruct (IsPaused pr); [apply wp_ret; reflexivity|].
  apply wp_bind, wp_lift; [|done]. intros term Hterm. apply wp_bind, wp_get, wp_bind, wp_lift; [|done].
  intros ents Hents. cbv zeta. destruct (_ && _); [apply wp_ret; reflexivity|].
  destruct term as [t|]; [|apply Hsn]. destruct ents as [es|]; [|apply Hsn].
  apply wp_bind. eapply wp_mono; [apply Hse|]. cbn beta. intros _ r1 Hr1.
  apply wp_bind. eapply wp_mono; [apply send_completes|]. cbn beta. intros _ r2 (from & tm & ->).
  apply wp_ret. intros Hi. destruct (Hr1 Hi) as [_ Hl1 _ _ _].
  match goal with |- relays r ?x => assert (Hx : relaying r1 x); [|by apply (transitivity Hr1 Hx)] end.
  apply relaying_send. intros _ _. rewrite Hl1. unfold segment. cbn.
  destruct (decide (es = [])) as [|Hne]; [by left|right]. destruct Hi as [Hv _].
  destruct (log_entries_read _ _ _ _ Hv Hents Hne) as (Hp & Hle & Hc & He).
  pose proof (log_last_small _ Hv). rewrite sub64_small in * by lia. split_and!; [done| |done].
  rewrite log_term_valid in Hterm by done. injection Hterm as <-.
  destruct (proj2 (lg_term_is_Some (rl_log (r_raftLog r)) (pr_Next pr - 1))) as [t ->]; [lia|done].
Qed.

#[export] Instance relaying_frame : Frame (@relaying _ S _ _).
Proof.
  split; [split; [exact _| | | | |]|].
  - intros r r' [] _ _. by apply relaying_same.
  - intros r m _ Hm. apply relaying_send. by intros _ ?.
  - apply maybeSendAppend_relaying.
  - intros i t. apply log_step_relaying. intros l b l' Hv Hm.
    destruct (maybeCommit_keeps _ _ _ _ _ Hv Hm) as (? & ? & _). done.
  - intros i. apply log_step_relaying. intros l b l' Hv Hc. pose proof (commitTo_valid l i Hv) as Hct.
    destruct (_ <? i); rewrite Hct in Hc || destruct Hct as (l2 & Hct & ? & ? & _).
    + by injection Hc as _ <-.
    + rewrite Hct in Hc. by injection Hc as _ <-.
  - intros r r' []. by apply relaying_same.
Qed.

#[export] Instance calm_frame : Frame (@calm _ S _ _).
Proof.
  split; [split; [exact _| | | | |]|].
  - intros r r' Hc _ _. by apply relaying_calm, frame_core.
  - intros r m Hg Hm. by apply relaying_calm, frame_send.
  - intros. apply moves_calm, frame_append.
  - intros. apply moves_calm, frame_maybeCommit.
  - intros. apply moves_calm, frame_commitTo.
  - intros r r' Hc. by apply relaying_calm, frame_core.
Qed.
End Sending.

(** [walk] where changes of other fields than the log and the messages are no matter. *)
Ltac walk_calm := walk; try (by apply calm_same); try (by apply relaying_same).

Section Calm.
Context `{RaftPB} {S : Type} `{!Storage S} `{!StorageLaws S}.
Implicit Types r : raft S.
Notation K := (moves (@calm _ S _ _)).

Lemma reset_calm term : K (reset term).
Proof. unfold reset. walk_calm. Qed.
#[local] Hint Resolve reset_calm : moves.
Lemma becomeFollower_calm term lead : K (becomeFollower term lead).
Proof. unfold becomeFollower. walk_calm. Qed.
Lemma becomeCandidate_calm : K becomeCandidate.
Proof. unfold becomeCandidate. walk_calm. Qed.
Lemma becomePreCandidate_calm : K becomePreCandidate.
Proof. unfold becomePreCandidate. walk_calm. Qed.
#[local] Hint Resolve becomeFollower_calm becomeCandidate_calm becomePreCandidate_calm : moves.
Lemma leader_CheckQuorum_calm : K leader_CheckQuorum.
Proof. unfold leader_CheckQuorum. walk_calm. Qed.
Lemma step_term_calm m : K (step_term m).
Proof. unfold step_term, higher_term. walk_calm. Qed.
Lemma step_vote_calm m : K (step_vote m).
Proof.
  assert (Hs : ∀ m, m_Type m ≠ MsgApp → K (send m)).
  { intros m' Hm r. eapply wp_mono; [apply send_spec|]. intros [] r' (m2 & -> & Ht & _).
    apply relaying_calm, relaying_send. intros _ Ha. congruence. }
  unfold step_vote. do 3 (apply moves_bind; [exact _|walk|intros ?]). intros r1.
  apply wp_bind, wp_lift; [|done]. intros rt Hrt.
  assert (Hne : rt ≠ MsgApp) by (intros ->; by destruct (m_Type m)).
  revert r1. match goal with |- ∀ r1, wp True ?k r1 _ => change (K k) end.
  walk_calm; by apply Hs.
Qed.
End Calm.


(** ** What one call does to the log *)

(** A leader's own entries at the end; the entries of an append from the first
    conflict on; or the position of a snapshot. *)
Inductive log_change {S} `{!Storage S} `{RaftPB} `{!StorageLaws S} (m : Message) (lg : Log)
    (r' : raft S) : Prop :=
| change_append es :
    rl_log (r_raftLog r') = lg_append lg (lg_last lg + 1) es → contiguous (lg_last lg) es →
    (∀ e, e ∈ es → e_Term e = r_Term r') → (es ≠ [] → r_state r' = StateLeader) →
    log_change m lg r'
| change_conflict :
    m_Type m = MsgApp → r_state r' = StateFollower → lg_term lg (m_Index m) = Some (m_LogTerm m) →
    lg_conflict lg (m_Entries m) ≠ 0 →
    rl_log (r_raftLog r') = lg_append lg (lg_conflict lg (m_Entries m))
      (drop (N.to_nat (lg_conflict lg (m_Entries m) - m_Index m - 1)) (m_Entries m)) →
    log_change m lg r'
| change_restore :
    m_Type m = MsgSnap → r_state r' ≠ StateLeader →
    rl_log (r_raftLog r') = MkLog (s_Index (m_Snapshot m)) (s_Term (m_Snapshot m)) [] →
    log_change m lg r'.

Record evolved {S} `{!Storage S} `{RaftPB} `{!StorageLaws S} (m : Message) (r r' : raft S) : Prop := {
  ev_log : log_inv (r_raftLog r');
  ev_change : log_change m (rl_log (r_raftLog r)) r';
  ev_msgs : ∃ new, r_msgs r' = r_msgs r ++ new ∧
    Forall (λ g, carries (rl_log (r_raftLog r)) g ∨ carries (rl_log (r_raftLog r')) g) new;
}.

Lemma log_change_same {S} `{!Storage S} `{RaftPB} `{!StorageLaws S} m lg (r' : raft S) :
  rl_log (r_raftLog r') = lg → log_change m lg r'.
Proof.
  intros Hl. apply (change_append _ _ _ []); [|apply contiguous_nil|by intros ? ?%elem_of_nil|done].
  rewrite lg_append_end, app_nil_r, Hl. by destruct lg.
Qed.

Section Evolves.
Context `{RaftPB} {S : Type} `{!Storage S} `{!StorageLaws S}.
Implicit Types r : raft S.
Notation C := (moves (@calm _ S _ _)).
Notation R := (moves (@relaying _ S _ _)).

(** A message handled with room for its entries after the index [a]. *)
Variables (a : N) (m : Message).
Hypothesis Hmsg : log_msg a m.
Hypothesis Hroom : a + lenN (m_Entries m) + 3 < 9223372036854775808.

Definition evolves {A} (k : M (raft S) A) r : Prop :=
  log_inv (r_raftLog r) → log_last r ≤ a → wp True k r (λ _ r', evolved m r r').

Lemma evolves_calm {A} (k : M (raft S) A) r : C k → evolves k r.
Proof.
  intros Hk Hi _. eapply wp_mono; [apply Hk|]. cbn. intros _ r' Hc. destruct (Hc Hi) as (Hi' & Hl & n & Hm & Hn).
  split; [done|by apply log_change_same|]. exists n. split; [done|]. eapply Forall_impl; [exact Hn|]. auto.
Qed.
Lemma evolves_relaying {A} (k : M (raft S) A) r : R k → evolves k r.
Proof. intros Hk. by apply evolves_calm, moves_calm. Qed.

Lemma calm_evolved r r1 r' : log_inv (r_raftLog r) → calm r r1 → evolved m r1 r' → evolved m r r'.
Proof.
  intros Hi Hc [He Hch (n2 & Hm2 & Hn2)]. destruct (Hc Hi) as (_ & Hl & n1 & Hm1 & Hn1).
  rewrite Hl in Hch, Hn2. split; [done|done|]. exists (n1 ++ n2). rewrite Hm2, Hm1, app_assoc.
  split; [done|]. apply Forall_app. split; [|done]. eapply Forall_impl; [exact Hn1|]. auto.
Qed.
Lemma evolved_relays r r1 r' : evolved m r r1 → relays r1 r' → evolved m r r'.
Proof.
  intros [Hi Hch (n1 & Hm1 & Hn1)] [Hi' Hl Ht Hs (n2 & Hm2 & Hn2)].
  split; [done| |].
  - destruct Hch as [es H1 H2 H3 H4|H1 H2 H3 H4 H5|H1 H2 H3].
    + apply (change_append _ _ _ es); rewrite ?Hl, ?Ht, ?Hs; done.
    + apply change_conflict; rewrite ?Hl, ?Ht, ?Hs; done.
    + apply change_restore; rewrite ?Hl, ?Ht, ?Hs; done.
  - exists (n1 ++ n2). rewrite Hm2, Hm1, app_assoc, Hl. split; [done|]. apply Forall_app. split; [done|].
    eapply Forall_impl; [exact Hn2|]. auto.
Qed.

Lemma evolves_get {B} (f : raft S → M (raft S) B) r : evolves (f r) r → evolves (get ≫= f) r.
Proof. intros Hf Hi Ha. apply wp_bind, wp_get. by apply Hf. Qed.
(** Steps that keep the log before, and steps that only relay before and after. *)
Lemma evolves_after {A B} (k : M (raft S) A) (f : A → M (raft S) B) r :
  C k → (∀ x r', evolves (f x) r') → evolves (k ≫= f) r.
Proof.
  intros Hk Hf Hi Ha. apply wp_bind. eapply wp_mono; [apply Hk|]. cbn beta. intros x r1 Hc.
  destruct (Hc Hi) as (Hi1 & Hl & _). eapply wp_mono; [apply Hf; [done|unfold log_last in *; by rewrite Hl]|].
  cbn. intros _ r2. by apply calm_evolved.
Qed.
Lemma evolves_relay {A B} (k : M (raft S) A) (f : A → M (raft S) B) r :
  R k → (∀ x r', r_state r' = r_state r → evolves (f x) r') → evolves (k ≫= f) r.
Proof.
  intros Hk Hf Hi Ha. apply wp_bind. eapply wp_mono; [apply Hk|]. cbn beta. intros x r1 Hc.
  destruct (Hc Hi) as [Hi1 Hl _ Hs _]. eapply wp_mono; [apply Hf; [done|done|unfold log_last in *; by rewrite Hl]|].
  cbn. intros _ r2. apply calm_evolved; [done|]. by apply relaying_calm.
Qed.
Lemma evolves_before {A B} (k : M (raft S) A) (f : A → M (raft S) B) r :
  evolves k r → (∀ x, R (f x)) → evolves (k ≫= f) r.
Proof.
  intros Hk Hf Hi Ha. apply wp_bind. eapply wp_mono; [by apply Hk|]. cbn beta. intros x r1 He.
  eapply wp_mono; [apply Hf|]. cbn. intros _ r2 Hr. apply (evolved_relays r r1); [done|]. apply Hr, He.
Qed.
Lemma evolves_panic {A} r : evolves (panic (A:=A)) r.
Proof. intros Hi Ha. by apply wp_panic. Qed.

Lemma appendEntry_evolves es r :
  r_state r = StateLeader → es ≠ [] → lenN es ≤ lenN (m_Entries m) + 1 → evolves (appendEntry es) r.
Proof.
  intros Hs Hne Hle [Hv Hz] Ha. unfold log_last in Ha.
  eapply wp_mono; [by apply (appendEntry_spec True); [..|lia]|]. cbn beta zeta. intros acc r' Hacc.
  destruct acc; [|destruct Hacc as [_ ->]; split; [done|by apply log_change_same|]; exists []; by rewrite app_nil_r].
  destruct Hacc as (_ & pr & l' & _ & -> & Hv' & Hlog & _). split; cbn.
  - split; [done|]. rewrite Hlog. exact Hz.
  - apply (change_append _ _ _ (stamp (r_Term r) (lg_last (rl_log (r_raftLog r))) es)); cbn; [done| | |done].
    + apply stamp_contiguous. unfold two64. lia.
    + intros e. apply stamp_term.
  - exists []. by rewrite app_nil_r.
Qed.

Lemma becomeLeader_evolves r : evolves becomeLeader r.
Proof.
  unfold becomeLeader. apply evolves_get. destruct (decide _); [apply evolves_panic|].
  apply evolves_after; [apply reset_calm|]. intros _ r1 Hi Ha. apply wp_bind, wp_modify.
  set (r2 := update r_state _ _).
  assert (He : evolves (pr_modify (r_id r) BecomeReplicate;; last ← log_read lastIndex;
    modify (λ r, r <| r_pendingConfIndex := last |>);; ok ← appendEntry [Entry_zero];
    if negb ok then panic else reduceUncommittedSize [Entry_zero]) r2).
  { apply evolves_relay; [walk_calm|]. intros _ r3 H3. apply evolves_relay; [walk_calm|]. intros last r4 H4.
    apply evolves_relay; [walk_calm|]. intros _ r5 H5. apply evolves_before; [|intros []; walk_calm].
    apply appendEntry_evolves; [by rewrite H5, H4, H3|done|unfold lenN at 1; cbn; lia]. }
  eapply wp_mono; [by apply He|]. cbn beta. intros _ r' Hev. apply (calm_evolved r1 r2); [done|by apply calm_same|done].
Qed.

Lemma campaign_with_evolves after t r :
  (∀ r', evolves after r') → evolves (campaign_with after t) r.
Proof.
  intros Hafter. unfold campaign_with.
  apply evolves_after; [destruct (bool_decide _); [apply becomePreCandidate_calm|apply becomeCandidate_calm]|].
  intros _ r1. apply evolves_get. apply evolves_after; [walk_calm|]. intros [[g rj] res] r2.
  destruct (decide (res = VoteWon)).
  - destruct (bool_decide _); [apply Hafter|apply becomeLeader_evolves].
  - apply evolves_calm. destruct (bool_decide _); walk_calm; (apply request_vote_frame; [exact _|auto]).
Qed.
Lemma campaign_evolves t r : evolves (campaign t) r.
Proof.
  unfold campaign. do 2 (apply campaign_with_evolves; intros ?). apply evolves_calm. walk_calm.
Qed.
Lemma hup_evolves t r : evolves (hup t) r.
Proof.
  assert (Hret : ∀ r, evolves (mret tt) r) by (intros; apply evolves_calm; walk_calm).
  unfold hup. apply evolves_get. destruct (decide _); [apply Hret|]. destruct (negb _); [apply Hret|].
  apply evolves_after; [walk_calm|]. intros ents r1. destruct (_ && _); [apply Hret|apply campaign_evolves].
Qed.
Lemma candidate_vote_evolves g r : evolves (candidate_vote g) r.
Proof.
  unfold candidate_vote. apply evolves_after; [walk_calm|]. intros [[gr rj] res] r1.
  apply evolves_get. destruct res; [apply evolves_calm; walk_calm; apply becomeFollower_calm..|].
  destruct (decide _); [apply campaign_evolves|]. apply evolves_before; [apply becomeLeader_evolves|].
  intros. walk_calm.
Qed.

(** ** Followers *)

Lemma handleAppendEntries_evolves r :
  m_Type m = MsgApp → r_state r = StateFollower → evolves (handleAppendEntries m) r.
Proof.
  intros Hm Hs Hi Ha. destruct (lm_app _ _ Hmsg Hm) as (Hc & Ht & H0 & Hia).
  unfold handleAppendEntries. apply wp_bind, wp_get.
  destruct (N.ltb_spec (m_Index m) (l_committed (r_raftLog r))) as [Hlt|Hge].
  { apply evolves_calm; [walk_calm|done|done]. }
  apply wp_bind, (wp_log_read _ _ _ _ _ (lastIndex_valid _ (li_valid _ Hi))).
  revert Hi Ha. apply evolves_before; [|intros; walk_calm].
  intros Hi Ha. unfold wp, log_step. destruct (maybeAppend _ _ _ _ _) as [[res l']|] eqn:Hma; [|done].
  destruct (log_append_case _ a _ _ _ _ _ _ Hi Hge H0 Hc Ht Hia ltac:(lia) Ha Hma) as (Hi' & _ & _).
  split; cbn; [done| |exists []; by rewrite app_nil_r].
  destruct (decide (lg_term (rl_log (r_raftLog r)) (m_Index m) = Some (m_LogTerm m))) as [Hin|Hin].
  - pose proof (maybeAppend_match (r_raftLog r) _ _ (m_Commit m) _ (li_valid _ Hi) Hin Hc Ht ltac:(lia)) as Hm2.
    cbn zeta in Hm2. destruct (bool_decide _); [by rewrite Hma in Hm2|].
    destruct Hm2 as (l2 & Hm2 & _ & _ & _ & Hlog). rewrite Hma in Hm2. injection Hm2 as _ <-.
    destruct (N.eqb_spec (lg_conflict (rl_log (r_raftLog r)) (m_Entries m)) 0).
    + by apply log_change_same.
    + by apply change_conflict.
  - apply log_change_same. cbn. destruct (decide (m_Entries m = [])) as [He|He].
    { rewrite He in Hma. by apply maybeAppend_nothing in Hma as (_ & ? & _); [|apply Hi]. }
    destruct (decide (m_LogTerm m = 0)) as [Hz|Hz].
    + revert Hma. unfold maybeAppend. rewrite matchTerm_valid by apply Hi. cbn [mbind outcome_bind].
      destruct (N.eqb_spec (default 0 (lg_term (rl_log (r_raftLog r)) (m_Index m))) (m_LogTerm m)) as [Heq|];
        [|by intros [= _ <-]].
      exfalso. pose proof (rv_committed _ (li_valid _ Hi)).
      assert (Hp : lg_prev (rl_log (r_raftLog r)) = 0) by (rewrite H0 in Hge by done; lia).
      pose proof (li_zero _ Hi Hp) as Hpt.
      apply Hin. rewrite Hz, (H0 He Hz). rewrite <- Hp at 1. by rewrite lg_term_prev, Hpt.
    + rewrite maybeAppend_mismatch in Hma by (apply Hi || done || lia). by injection Hma as _ <-.
Qed.

Lemma restore_evolves r :
  m_Type m = MsgSnap → r_state r = StateFollower → evolves (restore (m_Snapshot m)) r.
Proof.
  intros Hm Hf Hi Ha. pose proof (lm_snap _ _ Hmsg Hm) as Hsa. unfold restore. apply wp_bind, wp_get.
  assert (Hk : ∀ k : M (raft S) bool, C k → wp True k r (λ _ r', evolved m r r')).
  { intros k Hk. by apply evolves_calm. }
  destruct (N.leb_spec (s_Index (m_Snapshot m)) (l_committed (r_raftLog r))) as [|Hc]; [apply Hk; walk_calm|].
  rewrite bool_decide_eq_true_2 by done. cbn [negb]. destruct (negb _); [apply Hk; walk_calm|].
  apply wp_bind, wp_lift; [|done]. intros b _. destruct b; [apply Hk; walk_calm|].
  apply wp_bind, wp_modify. set (r1 := update r_prs _ _).
  destruct Hi as [Hv Hz]. pose proof (rv_committed _ Hv). pose proof (rv_applied _ Hv).
  destruct (log_restore_valid (r_raftLog r) (m_Snapshot m) Hv) as (Hv1 & Hlog1 & Hc1 & _); [lia|unfold two64; lia|].
  assert (Hr1 : evolved m r r1).
  { split; cbn.
    - split; [done|]. change (r_raftLog r1) with (log_restore (r_raftLog r) (m_Snapshot m)).
      rewrite Hlog1. cbn [lg_prev]. lia.
    - apply change_restore; cbn; [done|by rewrite Hf|done].
    - exists []. by rewrite app_nil_r. }
  match goal with |- wp True ?k _ _ => assert (Hk1 : R k) by walk_calm end.
  eapply wp_mono; [apply Hk1|]. cbn. intros _ r2 Hr. apply (evolved_relays r r1); [done|]. apply Hr, Hr1.
Qed.
Lemma handleSnapshot_evolves r :
  m_Type m = MsgSnap → r_state r = StateFollower → evolves (handleSnapshot m) r.
Proof.
  intros Hm Hf. unfold handleSnapshot. apply evolves_before; [by apply restore_evolves|]. intros b. walk_calm.
Qed.

(** [becomeFollower] and a handler of a follower. *)
Lemma evolves_follower {B} term lead (f : unit → M (raft S) B) r :
  (∀ r', r_state r' = StateFollower → evolves (f tt) r') → evolves (becomeFollower term lead ≫= f) r.
Proof.
  intros Hf Hi Ha. apply wp_bind. eapply wp_mono.
  { apply wp_and; [apply becomeFollower_calm|apply becomeFollower_spec_state]. }
  cbn beta. intros [] r1 [Hc Hs]. destruct (Hc Hi) as (Hi1 & Hl & _).
  eapply wp_mono; [apply Hf; [done..|unfold log_last in *; by rewrite Hl]|].
  cbn. intros _ r2. by apply calm_evolved.
Qed.

Lemma stepFollower_evolves r : r_state r = StateFollower → evolves (stepFollower m) r.
Proof.
  intros Hs. unfold stepFollower. apply evolves_get.
  destruct (m_Type m) eqn:Ht; try (apply evolves_calm; walk_calm; fail).
  - apply evolves_relay; [walk_calm|]. intros _ r1 H1. rewrite Hs in H1.
    apply evolves_before; [by apply handleAppendEntries_evolves|intros; walk_calm].
  - apply evolves_relay; [walk_calm|]. intros _ r1 H1. rewrite Hs in H1.
    apply evolves_before; [by apply handleSnapshot_evolves|intros; walk_calm].
  - apply evolves_before; [apply hup_evolves|intros; walk_calm].
Qed.

Lemma stepCandidate_evolves r : evolves (stepCandidate m) r.
Proof.
  unfold stepCandidate. apply evolves_get.
  assert (Hcv : evolves (candidate_vote m;; mret (M := M (raft S)) (@None error)) r).
  { apply evolves_before; [apply candidate_vote_evolves|intros; walk_calm]. }
  generalize (if decide (r_state r = StatePreCandidate) then MsgPreVoteResp else MsgVoteResp). intros rt.
  destruct (m_Type m) eqn:Ht; try (case_decide; [exact Hcv|apply evolves_calm; walk_calm]);
    try (apply evolves_calm; walk_calm; fail).
  - apply evolves_follower. intros r1 H1.
    apply evolves_before; [by apply handleAppendEntries_evolves|intros; walk_calm].
  - apply evolves_follower. intros r1 H1.
    apply evolves_before; [by apply handleSnapshot_evolves|intros; walk_calm].
  - apply evolves_calm. walk_calm. apply becomeFollower_calm.
Qed.

(** ** Leaders *)

Lemma leader_Prop_evolves r : r_state r = StateLeader → evolves (leader_Prop m) r.
Proof.
  intros Hs. unfold leader_Prop. apply evolves_get.
  destruct (length (m_Entries m) =? 0)%nat eqn:He; [apply evolves_panic|]. apply Nat.eqb_neq in He.
  destruct (t_Progress (r_prs r) !! r_id r); [|apply evolves_calm; walk_calm].
  destruct (negb _); [apply evolves_calm; walk_calm|].
  intros Hi Ha. apply wp_bind. eapply wp_mono.
  { apply wp_and; [apply (check_proposals_frame (@relaying _ S _ _))|apply (check_proposals_length 0)]. }
  cbn beta. intros es r1 [Hr1 Hl]. pose proof (Hr1 Hi) as [Hi1 Hlog _ Hs1 _].
  assert (Ha1 : log_last r1 ≤ a) by (unfold log_last in *; by rewrite Hlog).
  eapply wp_mono.
  - revert Hi1 Ha1. apply evolves_before; [|intros []; walk_calm].
    apply appendEntry_evolves; [by rewrite Hs1|by intros ->|unfold lenN; rewrite Hl; lia].
  - cbn. intros _ r2. apply calm_evolved; [done|]. by apply relaying_calm.
Qed.

Lemma stepLeader_evolves r : r_state r = StateLeader → evolves (stepLeader m) r.
Proof.
  intros Hs. unfold stepLeader. pose proof leader_CheckQuorum_calm as Hcq.
  destruct (m_Type m); first [by apply leader_Prop_evolves | apply evolves_calm; walk_calm; apply Hcq].
Qed.

Lemma step_evolves r : evolves (step m) r.
Proof.
  unfold step. apply evolves_get. destruct (r_state r) eqn:Hs.
  - by apply stepFollower_evolves.
  - apply stepCandidate_evolves.
  - by apply stepLeader_evolves.
  - apply stepCandidate_evolves.
Qed.

Lemma Step_evolves r : evolves (Step m) r.
Proof.
  unfold Step. apply evolves_after; [apply step_term_calm|]. intros go r1.
  destruct (negb go); [apply evolves_calm; walk_calm|].
  destruct (m_Type m) eqn:Ht; try apply step_evolves;
    try (apply evolves_calm; walk_calm; apply step_vote_calm).
  apply evolves_get, evolves_before; [apply hup_evolves|intros; walk_calm].
Qed.

(** ** The other calls of a node *)

Lemma local_msg_calm t : t = MsgCheckQuorum ∨ t = MsgBeat → C (local_msg t).
Proof.
  intros Ht. unfold local_msg. apply moves_bind; [exact _|walk_calm|intros self].
  unfold Step. apply moves_bind; [exact _|apply step_term_calm|intros go].
  destruct (negb go); [walk_calm|]. pose proof leader_CheckQuorum_calm as Hcq.
  destruct Ht as [-> | ->]; cbn; unfold step, stepFollower, stepCandidate, stepLeader; cbn;
    (apply moves_bind; [exact _|apply moves_get; exact _|intros r]; destruct (r_state r));
    try (apply moves_bind; [exact _|apply moves_get; exact _|intros r1]); walk_calm;
    repeat case_decide; try discriminate; walk_calm; apply Hcq.
Qed.
Lemma local_hup_evolves r : evolves (local_msg MsgHup) r.
Proof.
  unfold local_msg. apply evolves_after; [walk_calm|]. intros self r1. unfold Step.
  apply evolves_after; [apply step_term_calm|]. intros go r2. destruct (negb go); [apply evolves_calm; walk_calm|].
  cbn. apply evolves_get, evolves_before; [apply hup_evolves|intros; walk_calm].
Qed.

Lemma tick_evolves r : evolves tick r.
Proof.
  assert (Hq : C (local_msg MsgCheckQuorum)) by (apply local_msg_calm; auto).
  assert (Hb : C (local_msg MsgBeat)) by (apply local_msg_calm; auto).
  unfold tick. apply evolves_get. destruct (decide _).
  - apply evolves_calm. unfold tickHeartbeat, leader_timeout. walk_calm.
  - unfold tickElection. apply evolves_after; [walk_calm|]. intros _ r1. apply evolves_get.
    destruct (_ && _); [|apply evolves_calm; walk_calm].
    apply evolves_after; [walk_calm|]. intros _ r2. apply evolves_before; [apply local_hup_evolves|intros; walk_calm].
Qed.

Lemma recv_evolves r : evolves (recv m) r.
Proof.
  unfold recv. apply evolves_get. destruct (_ || _); [|apply evolves_calm; walk_calm].
  apply evolves_before; [apply Step_evolves|intros; walk_calm].
Qed.

Lemma appliedTo_relaying i : R (log_step (λ l, l' ← appliedTo l i; Ok (tt, l'))).
Proof.
  apply log_step_relaying. intros l x l' Hv. unfold appliedTo.
  destruct (i =? 0); [by intros [= _ <-]|]. destruct (N.ltb_spec (l_committed l) i); [done|].
  destruct (i <? l_applied l); [done|]. intros [= _ <-]. split; [|done]. destruct Hv. split; try done.
Qed.
Lemma advance_applied_evolves i r : evolves (advance_applied i) r.
Proof.
  unfold advance_applied. apply evolves_relay; [walk_calm|]. intros old r1 H1.
  apply evolves_relay; [apply appliedTo_relaying|]. intros _ r2 H2. apply evolves_get.
  destruct (bool_decide (r_state r2 = StateLeader)) eqn:Hl; [|rewrite andb_false_r; by apply evolves_calm, moves_ret, _].
  apply bool_decide_eq_true in Hl. rewrite andb_true_r. destruct (_ && _); [|by apply evolves_calm, moves_ret, _].
  cbn [when]. unfold auto_leave. apply evolves_before.
  - apply appendEntry_evolves; [done|done|unfold lenN at 1; cbn; lia].
  - intros []; walk_calm.
Qed.
End Evolves.
