(* ===== verification/RaftLeads.v ===== *)
(** * What a leader tells the others and commits

    The file RaftAppend says what a call does to the log; this one and RaftActs say
    what it commits and what the messages it sends claim.  [mute] calls claim
    nothing.  [told] is the claim of a message in the state of its sender after the
    call: an append is a piece of the leader's log, an acknowledgement is of what is
    committed already or of an append that fits the log, a vote goes to a candidate
    whose log is as good.  [leads] is the part of a leader that goes on: whatever it
    does with answers, it commits only an entry of its own term that a quorum has
    acknowledged. *)

From S2P Require Import Prelude Pb Quorum Inflights Progress Tracker Confchange.
From S2P Require Import Util Storage Unstable RaftLog ReadOnly Raft RawNode Node.
From S2P Require Import RaftFrame RaftSafety RaftElection RaftRoles RaftInvariant RaftTotal RaftAppend.

(** ** Calls that tell nothing *)

Record mute {S} (r r' : raft S) : Prop := {
  mu_log : r_raftLog r' = r_raftLog r;
  mu_id : r_id r' = r_id r;
  mu_config : t_Config (r_prs r') = t_Config (r_prs r);
  mu_msgs : ∃ new, r_msgs r' = r_msgs r ++ new ∧ Forall (λ g, plain g = true) new;
}.

#[export] Instance mute_preorder {S} : PreOrder (@mute S).
Proof.
  split; [by split; try done; exists []; rewrite app_nil_r|].
  intros a b c [H1 H2 H3 (n & H4 & H5)] [H6 H7 H8 (n' & H9 & H10)]. split; [congruence..|].
  exists (n ++ n'). rewrite H9, H4, app_assoc. split; [done|]. by apply Forall_app.
Qed.

Lemma mute_same {S} (r r' : raft S) :
  r_raftLog r' = r_raftLog r → r_id r' = r_id r → t_Config (r_prs r') = t_Config (r_prs r) →
  r_msgs r' = r_msgs r → mute r r'.
Proof. intros Hl Hi Hc Hm. split; try done. exists []. by rewrite app_nil_r. Qed.

(** [walk] where only the fields of [mute] matter. *)
Ltac walk_mute := walk; try (by apply mute_same).

Section Mute.
Context `{RaftPB} {S : Type} `{Storage S}.
Implicit Types r : raft S.
Notation Q := (moves (@mute S)).

#[export] Instance mute_frame : PlainFrame (@mute S).
Proof.
  split; [exact _| |].
  - intros r r' [] Hp. by apply mute_same; [..|rewrite Hp|].
  - intros r m Hm. split; try done. exists [m]. split; [done|]. by constructor.
Qed.

Lemma pr_set_mute id pr : Q (pr_set id pr).
Proof. apply moves_modify. intros r. by apply mute_same. Qed.
#[local] Hint Resolve pr_set_mute : moves.
Lemma pr_modify_mute id f : Q (pr_modify id f).
Proof. unfold pr_modify. walk. Qed.
Lemma reset_progress_mute id : Q (reset_progress id).
Proof. unfold reset_progress. walk. Qed.
#[local] Hint Resolve pr_modify_mute reset_progress_mute : moves.
Lemma reset_mute term : Q (reset term).
Proof. unfold reset. walk_mute. Qed.
#[local] Hint Resolve reset_mute : moves.
Lemma becomeFollower_mute term lead : Q (becomeFollower term lead).
Proof. unfold becomeFollower. walk_mute. Qed.
Lemma becomeCandidate_mute : Q becomeCandidate.
Proof. unfold becomeCandidate. walk_mute. Qed.
Lemma becomePreCandidate_mute : Q becomePreCandidate.
Proof. unfold becomePreCandidate. walk_mute. Qed.
Lemma poll_mute id v : Q (poll id v).
Proof.
  unfold poll. walk_mute. apply mute_same; try done. cbn. unfold RecordVote. by case_match.
Qed.
#[local] Hint Resolve becomeFollower_mute becomeCandidate_mute becomePreCandidate_mute poll_mute : moves.
Lemma leader_CheckQuorum_mute : Q leader_CheckQuorum.
Proof. unfold leader_CheckQuorum. walk_mute. Qed.
Lemma step_term_mute m : Q (step_term m).
Proof. unfold step_term, higher_term. walk_mute. Qed.

(** After a reset nothing is known of the followers. *)
Lemma reset_fresh term r last :
  lastIndex (r_raftLog r) = Ok last →
  wp True (reset term) r (λ _ r', ∀ id pr, t_Progress (r_prs r') !! id = Some pr →
    pr_Match pr = (if id =? r_id r then last else 0) ∧ pr_Next pr = last +u 1 ∧ pr_State pr = StateProbe).
Proof.
  intros Hl. unfold reset. apply wp_bind, wp_get. apply wp_bind.
  assert (H1 : Q (when (negb (r_Term r =? term)) (modify (λ r, r <| r_Term := term |> <| r_Vote := None_id |>))))
    by walk_mute.
  eapply wp_mono; [apply H1|]. cbn beta. intros _ r1 M1. apply wp_bind, wp_modify.
  set (r1' := update r_heartbeatElapsed _ _). assert (M1' : mute r r1') by (by etrans; [exact M1|apply mute_same]).
  apply wp_bind. eapply wp_mono; [apply resetRandomizedElectionTimeout_frame, mute_frame|]. cbn beta. intros _ r2 M2.
  apply wp_bind, wp_modify. set (r2' := update r_leadTransferee _ _).
  assert (M2' : mute r1' r2') by (by etrans; [exact M2|apply mute_same]).
  apply wp_bind, wp_modify. set (r3 := update r_prs _ _).
  assert (M3 : mute r r3) by (etrans; [exact M1'|]; etrans; [exact M2'|]; by apply mute_same).
  apply wp_bind. assert (Hl3 : lastIndex (r_raftLog r3) = Ok last) by (by rewrite (mu_log _ _ M3)).
  pose proof (visit_reset last r3 Hl3) as Hv.
  unfold wp in *. destruct (visit reset_progress r3) as [[a r4]|]; [|done].
  destruct Hv as (progress & -> & Hp). cbn. intros id pr. rewrite Hp.
  destruct (t_Progress (r_prs r3) !! id); [|done]. intros [= <-]. cbn. by rewrite <- (mu_id _ _ M3).
Qed.
End Mute.
#[export] Hint Resolve pr_modify_mute reset_mute becomeFollower_mute becomeCandidate_mute
  becomePreCandidate_mute poll_mute leader_CheckQuorum_mute step_term_mute : moves.

(** ** A leader *)

(** A message that holds a piece of a log, or only a position of it. *)
Definition piece (lg : Log) (m : Message) : Prop :=
  contiguous (m_Index m) (m_Entries m) ∧ lg_term lg (m_Index m) = Some (m_LogTerm m) ∧
  ∀ e, e ∈ m_Entries m → lg_entry lg (e_Index e) = Some e.

(** The receiver's log has what such a message names, by the terms. *)
Definition fits (lg : Log) (m : Message) : Prop :=
  lg_term lg (m_Index m) = Some (m_LogTerm m) ∧
  ∀ e, e ∈ m_Entries m → lg_term lg (e_Index e) = Some (e_Term e).

(** A candidate's log against that of a voter. *)
Definition good_for (m : Message) (lg : Log) : Prop :=
  let lt := default 0 (lg_term lg (lg_last lg)) in
  lt < m_LogTerm m ∨ (m_LogTerm m = lt ∧ lg_last lg ≤ m_Index m).

(** What is known of the followers: [B id n] says that [id] has acknowledged [n]. *)
Record peer_fact (B : N → N → Prop) (last self id : N) (pr : Progress) : Prop := {
  pf_next : 1 ≤ pr_Next pr ≤ last + 1;
  pf_match : pr_Match pr ≤ last;
  pf_acked : id ≠ self → B id (pr_Match pr);
  pf_snapshot : pr_State pr = StateSnapshot → pr_PendingSnapshot pr ≤ last;
}.

Section Claims.
Context `{RaftPB} {S : Type} `{!Storage S} `{!StorageLaws S}.
Implicit Types r : raft S.
Variable B : N → N → Prop.

Definition peers_ok r : Prop :=
  ∀ id pr, t_Progress (r_prs r) !! id = Some pr → peer_fact B (log_last r) (r_id r) id pr.
Definition snap_low (l : raftLog S) : Prop :=
  ∀ s, log_snapshot l = Ok (Val s) → s_Index s ≤ lg_last (rl_log l).

(** A quorum has acknowledged the index [c] of an entry of the leader's term. *)
Definition quorum_at r (c : N) : Prop :=
  joint_quorum (Voters (t_Config (r_prs r))) (has_acked (t_Progress (r_prs r)) c) ∧
  lg_term (rl_log (r_raftLog r)) c = Some (r_Term r).

(** What a message of a call on [m] says of the state [r] its sender is then in. *)
Definition told (m : Message) r (g : Message) : Prop :=
  match m_Type g with
  | MsgApp => r_state r = StateLeader ∧ m_Term g = r_Term r ∧ piece (rl_log (r_raftLog r)) g ∧
      m_Commit g ≤ l_committed (r_raftLog r)
  | MsgHeartbeat => r_state r = StateLeader ∧ m_Term g = r_Term r ∧ m_Commit g ≤ l_committed (r_raftLog r) ∧
      (m_To g = r_id r ∨ ∃ n, m_Commit g ≤ n ∧ B (m_To g) n)
  | MsgVote => r_state r = StateCandidate ∧ m_Term g = r_Term r ∧ m_Index g = log_last r ∧
      lg_term (rl_log (r_raftLog r)) (log_last r) = Some (m_LogTerm g)
  | MsgAppResp => m_Reject g = true ∨ m_Index g = 0 ∨
      (m_Type m = MsgApp ∧ m_Term m = r_Term r ∧ m_Term g = r_Term r ∧ r_state r ≠ StateLeader ∧
       (m_Index g ≤ l_committed (r_raftLog r) ∨
        m_Index g = m_Index m + lenN (m_Entries m) ∧ fits (rl_log (r_raftLog r)) m))
  | MsgVoteResp => m_Reject g = true ∨
      (m_Type m = MsgVote ∧ m_To g = m_From m ∧ m_Term g = m_Term m ∧ m_Term m = r_Term r ∧
       good_for m (rl_log (r_raftLog r)))
  | _ => True
  end.

Lemma told_plain m r g : plain g = true → told m r g.
Proof.
  unfold told, plain. destruct (m_Type g); try done.
  - intros [?|?%N.eqb_eq]%orb_true_iff; auto.
  - auto.
Qed.

Record lead_inv r : Prop := {
  le_log : log_inv (r_raftLog r);
  le_state : r_state r = StateLeader;
  le_term : r_Term r ≠ 0;
  le_peers : peers_ok r;
  le_snap : snap_low (r_raftLog r);
}.

(** The progress of the followers only grows. *)
Definition gains r r' : Prop :=
  ∀ id pr, t_Progress (r_prs r) !! id = Some pr →
    ∃ pr', t_Progress (r_prs r') !! id = Some pr' ∧ pr_Match pr ≤ pr_Match pr'.
#[export] Instance gains_preorder : PreOrder gains.
Proof.
  split.
  - intros r id pr Hp. by exists pr.
  - intros a b c Hab Hbc id pr Hp. destruct (Hab id pr Hp) as (p1 & H1 & ?).
    destruct (Hbc id p1 H1) as (p2 & H2 & ?). exists p2. split; [done|lia].
Qed.

Record led r r' : Prop := {
  ld_inv : lead_inv r';
  ld_term : r_Term r' = r_Term r;
  ld_id : r_id r' = r_id r;
  ld_config : t_Config (r_prs r') = t_Config (r_prs r);
  ld_log : rl_log (r_raftLog r') = rl_log (r_raftLog r);
  ld_commit : l_committed (r_raftLog r) ≤ l_committed (r_raftLog r');
  ld_quorum : l_committed (r_raftLog r') = l_committed (r_raftLog r) ∨ quorum_at r' (l_committed (r_raftLog r'));
  ld_gains : gains r r';
  ld_msgs : ∃ new, r_msgs r' = r_msgs r ++ new ∧ ∀ m, Forall (told m r') new;
}.
Definition leads r r' : Prop := lead_inv r → led r r'.

Lemma quorum_gains r r' c :
  gains r r' → t_Config (r_prs r') = t_Config (r_prs r) →
  lg_term (rl_log (r_raftLog r')) c = lg_term (rl_log (r_raftLog r)) c → r_Term r' = r_Term r →
  quorum_at r c → quorum_at r' c.
Proof.
  intros Hg Hc Hl Ht [[H1 H2] H3]. split; [|by rewrite Hl, Ht]. rewrite Hc.
  assert (Hm : ∀ j, has_acked (t_Progress (r_prs r)) c j = true → has_acked (t_Progress (r_prs r')) c j = true).
  { intros j. unfold has_acked, acked, AckedIndex, matchAckIndexer. rewrite !N.leb_le.
    destruct (t_Progress (r_prs r) !! j) as [pr|] eqn:Hp.
    - destruct (Hg j pr Hp) as (pr' & -> & ?). cbn. unfold id. lia.
    - cbn. unfold id. intros Hle. replace c with 0 by lia. lia. }
  split; (eapply quorum_of_mono; [|eassumption]); auto.
Qed.

Lemma told_led m r r' g :
  r_state r = StateLeader → lead_inv r' → r_Term r' = r_Term r → r_id r' = r_id r →
  rl_log (r_raftLog r') = rl_log (r_raftLog r) → l_committed (r_raftLog r) ≤ l_committed (r_raftLog r') →
  told m r g → told m r' g.
Proof.
  intros Hs [_ Hs' _ _ _] Ht Hi Hl Hc. unfold told. destruct (m_Type g); try done; rewrite ?Ht, ?Hl, ?Hi.
  - intros (_ & ? & ? & ?). split_and!; try done. lia.
  - intros [?|[?|(_ & _ & _ & ? & _)]]; [by left|by right; left|done].
  - intros (? & _). congruence.
  - done.
  - intros (_ & ? & ? & ?). split_and!; try done. lia.
Qed.

#[export] Instance leads_preorder : PreOrder leads.
Proof.
  split.
  - intros r Hi. split; try done; [by left|]. exists []. rewrite app_nil_r. split; [done|]. by intros m.
  - intros a b c Hab Hbc Ha. destruct (Hab Ha) as [Hb T1 I1 C1 L1 Cm1 Q1 G1 (n1 & M1 & N1)].
    destruct (Hbc Hb) as [Hc T2 I2 C2 L2 Cm2 Q2 G2 (n2 & M2 & N2)]. split; try congruence.
    + lia.
    + destruct Q2 as [Hq|?]; [|by right]. rewrite Hq. destruct Q1 as [?|Hq1]; [by left|right].
      revert Hq1. by apply quorum_gains; [..|rewrite L2|].
    + by etrans.
    + exists (n1 ++ n2). rewrite M2, M1, app_assoc. split; [done|]. intros m. apply Forall_app. split; [|done].
      eapply Forall_impl; [apply N1|]. intros g. apply told_led; try done. apply Hb.
Qed.

Lemma leads_same r r' :
  r_raftLog r' = r_raftLog r → r_Term r' = r_Term r → r_state r' = r_state r → r_id r' = r_id r →
  r_msgs r' = r_msgs r → t_Config (r_prs r') = t_Config (r_prs r) →
  (peers_ok r → peers_ok r') → gains r r' → leads r r'.
Proof.
  intros Hl Ht Hs Hi Hm Hc Hp Hg [I1 I2 I3 I4 I5].
  split; rewrite ?Hl; try done; [|by left|].
  - split; rewrite ?Hl, ?Hs, ?Ht; auto.
  - exists []. rewrite Hm, app_nil_r. split; [done|]. by intros m.
Qed.
Lemma leads_send r m : (lead_inv r → ∀ m', told m' r m) → leads r (r <| r_msgs ::= λ ms, ms ++ [m] |>).
Proof.
  intros Hm Hi. pose proof Hi as [I1 I2 I3 I4 I5]. split; try done; [by left|by intros j p Hj; exists p|].
  exists [m]. split; [done|]. intros m'. constructor; [|done]. exact (Hm Hi m').
Qed.
Lemma leads_plain r m : plain m = true → leads r (r <| r_msgs ::= λ ms, ms ++ [m] |>).
Proof. intros Hp. apply leads_send. intros _ m'. by apply told_plain. Qed.

(** A change of the progress of one follower. *)
Lemma leads_set id pr pr' r :
  t_Progress (r_prs r) !! id = Some pr → pr_Match pr ≤ pr_Match pr' →
  (lead_inv r → peer_fact B (log_last r) (r_id r) id pr → peer_fact B (log_last r) (r_id r) id pr') →
  leads r (r <| r_prs ::= λ t, t <| t_Progress ::= <[id := pr']> |> |>).
Proof.
  intros Hp Hm Hf Hi. revert Hi. intros Hi. apply leads_same; try done.
  - intros Hok j p. cbn. intros [(<- & <-)|[_ Hj]]%lookup_insert_Some; [|by apply Hok].
    apply Hf; [done|]. by apply Hok.
  - intros j p Hj. cbn. destruct (decide (id = j)) as [<-|].
    + rewrite lookup_insert_eq. rewrite Hp in Hj. injection Hj as <-. by exists pr'.
    + rewrite lookup_insert_ne by done. by exists p.
Qed.
End Claims.

Section Leading.
Context `{RaftPB} {S : Type} `{!Storage S} `{!StorageLaws S}.
Implicit Types r : raft S.
Variable B : N → N → Prop.
Notation L := (moves (leads (S:=S) B)).

Lemma send_completes_term m r :
  is_vote_type (m_Type m) = false → m_Type m ≠ MsgProp → m_Type m ≠ MsgReadIndex →
  wp True (send m) r (λ _ r', ∃ from,
    r' = r <| r_msgs ::= λ ms, ms ++ [m <| m_From := from |> <| m_Term := r_Term r |>] |>).
Proof.
  intros Hv Hp Hi. unfold send. apply wp_bind, wp_get.
  set (m1 := if m_From m =? None_id then m <| m_From := r_id r |> else m).
  assert (Hm1 : ∃ from, m1 = m <| m_From := from |>).
  { unfold m1. destruct (m_From m =? None_id); [by eexists|]. exists (m_From m). by destruct m. }
  destruct Hm1 as [from ->]. cbv zeta. cbn [m_Type m_Term]. 
  change (m_Type (m <| m_From := from |>)) with (m_Type m).
  rewrite Hv. destruct (negb _); [by apply wp_panic|].
  rewrite !bool_decide_eq_true_2 by done. apply wp_modify. by exists from.
Qed.

(** A message of the leader's. *)
Lemma send_leads m r :
  is_vote_type (m_Type m) = false → m_Type m ≠ MsgProp → m_Type m ≠ MsgReadIndex →
  (lead_inv B r → ∀ m' from, told B m' r (m <| m_From := from |> <| m_Term := r_Term r |>)) →
  wp True (send m) r (λ _ r', leads B r r').
Proof.
  intros Hv Hp Hi Ht. eapply wp_mono; [by apply send_completes_term|]. cbn beta.
  intros _ r' (from & ->). apply leads_send. intros Hl m'. by apply Ht.
Qed.

Lemma leads_of (P : Prop) {A} (k : M (raft S) A) r :
  (lead_inv B r → wp True k r (λ _ r', leads B r r')) → wp True k r (λ _ r', leads B r r').
Proof.
  intros Hk. unfold wp in *. destruct (k r) as [[a r']|]; [|done]. intros Hi. by apply (Hk Hi).
Qed.

Lemma entries_position (l : raftLog S) i maxsize es :
  rl_valid l → log_entries l i maxsize = Ok (Val es) → i ≤ lg_last (rl_log l) + 1 → lg_prev (rl_log l) < i.
Proof.
  intros Hv He Hi. destruct (decide (i ≤ lg_prev (rl_log l))) as [Hp|]; [|lia].
  rewrite log_entries_compacted in He; [done|done|done|unfold lg_last in *; lia].
Qed.

Lemma sent_entries_leads to pr es maxsize r :
  t_Progress (r_prs r) !! to = Some pr → log_entries (r_raftLog r) (pr_Next pr) maxsize = Ok (Val es) →
  wp True (sent_entries to pr es) r (λ _ r', leads B r r').
Proof.
  intros Hp He. apply (leads_of True). intros Hi. pose proof (le_log _ _ Hi) as [Hv _].
  pose proof (log_last_small _ Hv) as Hb. unfold sent_entries.
  destruct (last es) as [e|] eqn:El; [|by apply wp_ret].
  pose proof (last_sent _ _ _ _ _ Hv He El) as Hle. destruct (pr_State pr) eqn:Hs.
  - apply wp_modify. apply (leads_set _ _ pr); [done|done|]. intros _ [F1 F2 F3 F4]. by split.
  - apply wp_bind, wp_lift; [|done]. intros infl _. apply wp_modify, (leads_set _ _ pr); [done|done|].
    intros _ [F1 F2 F3 F4]. split; [|done|done|cbn; by rewrite Hs].
    cbn. unfold log_last. nowrap. lia.
  - by apply wp_panic.
Qed.

Lemma send_snapshot_leads to pr r :
  t_Progress (r_prs r) !! to = Some pr → wp True (send_snapshot to pr) r (λ _ r', leads B r r').
Proof.
  intros Hp. apply (leads_of True). intros Hi. unfold send_snapshot.
  destruct (negb _); [by apply wp_ret|]. apply wp_bind, wp_lift; [|done]. intros s Hs.
  destruct s as [snap|[]]; try (by apply wp_panic); [|by apply wp_ret].
  destruct (IsEmptySnap snap); [by apply wp_panic|]. apply wp_bind, wp_lift; [|done]. intros fi _.
  pose proof (le_snap _ _ Hi snap Hs) as Hlow.
  assert (Hset : leads B r (r <| r_prs ::= λ t, t <| t_Progress ::= <[to := BecomeSnapshot pr (s_Index snap)]> |> |>)).
  { apply (leads_set _ _ pr); [done|done|]. intros _ [F1 F2 F3 F4]. by split. }
  apply wp_bind, wp_modify, wp_bind. eapply wp_mono; [apply send_completes|]. cbn beta. intros _ r2 (from & t & ->).
  apply wp_ret. etrans; [exact Hset|]. by apply leads_plain.
Qed.

Lemma maybeSendAppend_leads to b : L (maybeSendAppend to b).
Proof.
  intros r. apply (leads_of True). intros Hi. pose proof (le_log _ _ Hi) as [Hv _].
  pose proof (log_last_small _ Hv) as Hb.
  unfold maybeSendAppend, pr_get. apply wp_bind, wp_lift; [|done]. intros pr Hpr.
  destruct (t_Progress (r_prs r) !! to) as [pr0|] eqn:Hp; [|done]. injection Hpr as ->.
  destruct (IsPaused pr); [by apply wp_ret|].
  apply wp_bind, wp_lift; [|done]. intros term Hterm. apply wp_bind, wp_get, wp_bind, wp_lift; [|done].
  intros ents Hents. cbv zeta. destruct (_ && _); [by apply wp_ret|].
  pose proof (le_peers _ _ Hi to pr Hp) as [[Hn1 Hn2] _ _ _]. unfold log_last in Hn2.
  destruct term as [t|]; [|by apply send_snapshot_leads]. destruct ents as [es|]; [|by apply send_snapshot_leads].
  pose proof (entries_position _ _ _ _ Hv Hents Hn2) as Hpos.
  apply wp_bind. eapply wp_mono; [by apply (sent_entries_leads _ _ _ (r_maxMsgSize r))|]. cbn beta. intros _ r1 Hr1.
  apply wp_bind. destruct (Hr1 Hi) as [Hi1 T1 I1 C1 L1 Cm1 _ _ _].
  eapply wp_mono; [apply (send_leads _ r1); [done..|]|cbn beta; intros _ r2 Hr2; apply wp_ret; by etrans].
  intros _ m' from. unfold told. cbn. rewrite sub64_small in * by (unfold two64 in *; lia).
  split; [apply Hi1|]. split; [done|]. rewrite L1. split; [|done]. split; cbn.
  - destruct (decide (es = [])) as [->|Hne]; [apply contiguous_nil|].
    by apply (log_entries_read _ _ _ _ Hv Hents Hne).
  - split.
    + rewrite log_term_valid in Hterm by done. injection Hterm as <-.
      destruct (proj2 (lg_term_is_Some (rl_log (r_raftLog r)) (pr_Next pr - 1))) as [t ->]; [lia|done].
    + intros e He. assert (Hne : es ≠ []) by (intros ->; by apply elem_of_nil in He).
      by apply (log_entries_read _ _ _ _ Hv Hents Hne).
Qed.

Lemma sendHeartbeat_leads to ctx : L (sendHeartbeat to ctx).
Proof.
  intros r. unfold sendHeartbeat, pr_get. apply wp_bind, wp_lift; [|done]. intros pr Hpr.
  destruct (t_Progress (r_prs r) !! to) as [pr0|] eqn:Hp; [|done]. injection Hpr as ->.
  apply wp_bind, wp_get. apply send_leads; [done..|]. intros Hi m' from. unfold told. cbn.
  rewrite min_spec. split; [apply Hi|]. split; [done|]. split; [lia|].
  destruct (decide (to = r_id r)) as [|Hne]; [by left|right]. exists (pr_Match pr). split; [lia|].
  by apply (pf_acked _ _ _ _ _ (le_peers _ _ Hi to pr Hp)).
Qed.

(** The commit rule. *)
Lemma maybeCommit_leads : L maybeCommit_r.
Proof.
  intros r. apply (leads_of True). intros Hi. pose proof (le_log _ _ Hi) as [Hv Hz].
  unfold maybeCommit_r. apply wp_bind, wp_get. unfold wp, log_step.
  destruct (maybeCommit (r_raftLog r) _ _) as [[b l']|] eqn:Hm; [|done]. intros _.
  destruct (maybeCommit_keeps _ _ _ _ _ Hv Hm) as (Hv' & Hlog & Hf & Hle & _).
  pose proof (maybeCommit_valid (r_raftLog r) (Committed (r_prs r)) (r_Term r) Hv) as Hmc.
  assert (Hq : l_committed l' = l_committed (r_raftLog r) ∨
    (l_committed l' = Committed (r_prs r) ∧ lg_term (rl_log (r_raftLog r)) (l_committed l') = Some (r_Term r))).
  { pose proof (le_term _ _ Hi). specialize (Hmc ltac:(lia)). case_bool_decide as Hc; rewrite Hm in Hmc.
    - destruct Hmc as (l2 & [= _ <-] & _ & _ & _ & Hcm). right. rewrite Hcm. split; [done|apply Hc].
    - injection Hmc as _ <-. by left. }
  pose proof Hi as [I1 I2 I3 I4 I5]. split; cbn; try done.
  - split; cbn; try done.
    + split; [done|by rewrite Hlog].
    + intros id pr Hp. unfold log_last. cbn. rewrite Hlog. by apply I4.
    + unfold snap_low, log_snapshot. rewrite (rf_snapshot _ _ Hf), (rf_storage _ _ Hf), Hlog. exact I5.
  - destruct Hq as [?|[Hq Ht]]; [by left|right]. split; cbn; [|by rewrite Hlog].
    assert (Hmax : l_committed l' ≤ maxUint64).
    { assert (Hsome : is_Some (lg_term (rl_log (r_raftLog r)) (l_committed l'))) by by eexists.
      apply lg_term_is_Some in Hsome. pose proof (log_last_small _ Hv). unfold two64, maxUint64 in *. lia. }
    apply JointCommittedIndex_ge; [done|]. rewrite Hq. done.
  - intros id pr Hp. by exists pr.
  - exists []. rewrite app_nil_r. split; [done|]. by intros m.
Qed.

#[export] Instance leads_frame : SendFrame (leads B).
Proof.
  split; [split; [exact _| |]| | |].
  - intros r r' [] Hp. apply leads_same; try done; [by rewrite Hp| |].
    + intros Hok id pr. rewrite Hp. unfold log_last. rewrite c_id, c_log. apply Hok.
    + intros id pr Hpr. exists pr. by rewrite Hp.
  - intros r m Hm. by apply leads_plain.
  - apply maybeSendAppend_leads.
  - apply sendHeartbeat_leads.
  - apply maybeCommit_leads.
Qed.
End Leading.

(** ** What a leader does with the answers *)

Section Handlers.
Context `{RaftPB} {S : Type} `{!Storage S} `{!StorageLaws S}.
Implicit Types r : raft S.
Variable B : N → N → Prop.
Notation L := (moves (leads (S:=S) B)).
Notation leading k r := (wp True k r (λ _ r', leads B r r')).

Lemma leading_bind {A C} (k : M (raft S) A) (f : A → M (raft S) C) r :
  leading k r → (∀ a r1, leads B r r1 → leading (f a) r1) → leading (k ≫= f) r.
Proof.
  intros Hk Hf. apply wp_bind. eapply wp_mono; [exact Hk|]. cbn beta. intros a r1 H1.
  eapply wp_mono; [by apply Hf|]. cbn beta. intros _ r2 H2. by etrans.
Qed.
Lemma leading_pr {A} id (f : Progress → M (raft S) A) r :
  (∀ pr, t_Progress (r_prs r) !! id = Some pr → leading (f pr) r) → leading (pr_get id ≫= f) r.
Proof.
  intros Hf. unfold pr_get. apply wp_bind, wp_lift; [|done]. intros pr Hpr.
  destruct (t_Progress (r_prs r) !! id) as [pr0|]; [|done]. injection Hpr as ->. by apply Hf.
Qed.
Lemma leading_get {A} (f : raft S → M (raft S) A) r : leading (f r) r → leading (get ≫= f) r.
Proof. intros Hf. by apply wp_bind, wp_get. Qed.
Lemma leading_ret {A} (a : A) r : leading (mret a) r.
Proof. by apply wp_ret. Qed.
(** A change of the progress of one follower, under the invariant. *)
Lemma leading_set id pr pr' r :
  t_Progress (r_prs r) !! id = Some pr → pr_Match pr ≤ pr_Match pr' →
  (lead_inv B r → log_last r + 1 < two64 → peer_fact B (log_last r) (r_id r) id pr →
     peer_fact B (log_last r) (r_id r) id pr') → leading (pr_set id pr') r.
Proof.
  intros Hp Hm Hf. apply wp_modify, (leads_set _ _ pr); [done|done|]. intros Hi. apply Hf; [done|].
  apply log_last_small, (le_log _ _ Hi).
Qed.

Lemma peer_fact_flags last self id pr active sent :
  peer_fact B last self id pr →
  peer_fact B last self id (pr <| pr_RecentActive := active |> <| pr_ProbeSent := sent |>).
Proof. by intros []. Qed.
Lemma peer_fact_probe last self id pr :
  last + 1 < two64 → peer_fact B last self id pr → peer_fact B last self id (BecomeProbe pr).
Proof.
  intros Hb [F1 F2 F3 F4]. unfold BecomeProbe. destruct (decide _) as [Hs|Hs]; split; cbn; try done.
  - specialize (F4 Hs). nowrap. rewrite max_spec. lia.
  - nowrap. lia.
Qed.
Lemma peer_fact_replicate last self id pr :
  last + 1 < two64 → peer_fact B last self id pr → peer_fact B last self id (BecomeReplicate pr).
Proof. intros Hb [F1 F2 F3 F4]. split; cbn; try done. nowrap. lia. Qed.
Lemma peer_fact_decr last self id pr i h :
  last + 1 < two64 → peer_fact B last self id pr → peer_fact B last self id (MaybeDecrTo pr i h).2.
Proof.
  intros Hb [F1 F2 F3 F4]. unfold MaybeDecrTo. destruct (decide _).
  - destruct (_ <=? _); split; cbn; try done. nowrap. lia.
  - rewrite sub64_small by (unfold two64 in *; lia). destruct (N.eqb_spec (pr_Next pr - 1) i) as [<-|]; cbn; [|by split].
    split; cbn; try done. rewrite max_spec, min_spec. lia.
Qed.
Lemma peer_fact_update last self id pr n :
  last + 1 < two64 → n ≤ last → (id ≠ self → B id n) → peer_fact B last self id pr →
  peer_fact B last self id (MaybeUpdate pr n).2.
Proof.
  intros Hb Hn Ha [F1 F2 F3 F4]. unfold MaybeUpdate. cbn. nowrap. rewrite max_spec.
  destruct (N.ltb_spec (pr_Match pr) n); split; cbn; try done; lia.
Qed.

Lemma decr_match pr i h : pr_Match (MaybeDecrTo pr i h).2 = pr_Match pr.
Proof. unfold MaybeDecrTo. repeat case_match; done. Qed.
Lemma update_match pr n : pr_Match pr ≤ pr_Match (MaybeUpdate pr n).2.
Proof. unfold MaybeUpdate. cbn. destruct (N.ltb_spec (pr_Match pr) n); cbn; lia. Qed.
Lemma probe_match pr : pr_Match (BecomeProbe pr) = pr_Match pr.
Proof. unfold BecomeProbe. by case_match. Qed.

Lemma pr_active_leads id : L (pr_modify id (λ pr, pr <| pr_RecentActive := true |>)).
Proof.
  intros r. unfold pr_modify. apply leading_pr. intros pr Hp. apply (leading_set _ pr); [done|done|].
  by intros _ _ [].
Qed.

Lemma leader_AppResp_reject_leads m : L (leader_AppResp_reject m).
Proof.
  intros r. unfold leader_AppResp_reject. apply leading_bind.
  { match goal with |- wp True ?k _ _ => assert (Hk : L k) by walk end. apply Hk. }
  intros idx r1 _. apply leading_pr. intros pr Hp. pose proof (decr_match pr (m_Index m) idx) as Hdm.
  pose proof (λ last self id Hb, peer_fact_decr last self id pr (m_Index m) idx Hb) as Hd.
  destruct (MaybeDecrTo pr (m_Index m) idx) as [dec pr']. cbn in Hdm, Hd.
  destruct dec; [|apply leading_ret]. apply leading_bind; [|intros _ r2 _; apply sendAppend_frame, leads_frame].
  apply (leading_set _ pr); [done|destruct (decide _); [rewrite probe_match|]; lia|].
  intros _ Hb Hf. destruct (decide _); [apply peer_fact_probe|]; auto.
Qed.

Lemma peer_fact_response last self id pr n pr' :
  last + 1 < two64 → appResp_progress pr n = Ok pr' → peer_fact B last self id pr →
  pr_Match pr' = pr_Match pr ∧ peer_fact B last self id pr'.
Proof.
  intros Hb Hr Hf. unfold appResp_progress in Hr. destruct (pr_State pr) eqn:Hs.
  - injection Hr as <-. split; [done|]. by apply peer_fact_replicate.
  - destruct (FreeLE _ _) as [infl|]; [|done]. injection Hr as <-. split; [done|].
    destruct Hf. by split.
  - destruct (_ <=? _); injection Hr as <-; [|done]. split; [apply probe_match|].
    by apply peer_fact_replicate, peer_fact_probe.
Qed.

Lemma leader_AppResp_accept_leads m r :
  (lead_inv B r → m_Index m ≤ log_last r ∧ (m_From m ≠ r_id r → B (m_From m) (m_Index m))) →
  leading (leader_AppResp_accept m) r.
Proof.
  intros Hack. apply (leads_of B True). intros Hi. destruct (Hack Hi) as [Hle Hb]. clear Hack.
  pose proof (log_last_small _ (li_valid _ (le_log _ _ Hi))) as Hlast. change (lg_last _) with (log_last r) in Hlast.
  unfold leader_AppResp_accept. apply leading_pr. intros pr Hp.
  pose proof (update_match pr (m_Index m)) as Hum. pose proof (le_peers _ _ Hi _ _ Hp) as Hpf.
  pose proof (peer_fact_update _ _ _ pr (m_Index m) Hlast Hle Hb Hpf) as Hpf1.
  destruct (MaybeUpdate pr (m_Index m)) as [upd pr1]. cbn [snd] in *. cbv zeta.
  assert (Hset : ∀ pr2, peer_fact B (log_last r) (r_id r) (m_From m) pr2 → pr_Match pr ≤ pr_Match pr2 →
    leads B r (r <| r_prs ::= λ t, t <| t_Progress ::= <[m_From m := pr2]> |> |>)).
  { intros pr2 Hf2 Hm2. by apply (leads_set _ _ pr). }
  apply wp_bind, wp_modify. set (r1 := update r_prs _ r).
  destruct upd; cbn [negb]; [|apply wp_ret; by apply Hset].
  apply wp_bind, wp_lift; [|done]. intros pr2 Hpr2.
  destruct (peer_fact_response _ _ _ _ _ _ Hlast Hpr2 Hpf1) as [Hm2 Hpf2].
  apply wp_bind, wp_modify. set (r2 := update r_prs _ r1).
  assert (H2 : leads B r r2).
  { assert (Hr2 : r2 = r <| r_prs ::= λ t, t <| t_Progress ::= <[m_From m := pr2]> |> |>).
    { unfold r2, r1. destruct r as [? ? ? ? ? ? ? [cfg prs vs mx] ? ? ? ? ? ? ? ? ? ? ? ? ? ? ? ? ? ? ?].
      cbn. unfold update, upd_r_prs, upd_t_Progress. cbn. by rewrite insert_insert_eq. }
    rewrite Hr2. apply Hset; [done|lia]. }
  assert (Hrest : L (committed ← maybeCommit_r;
    (if committed : bool then releasePendingReadIndexMessages;; bcastAppend
     else when (IsPaused pr) (sendAppend (m_From m)));;
    fuel ← send_fuel (m_From m); _ ← send_appends fuel (m_From m); r ← get;
    pr ← pr_get (m_From m); last ← log_read lastIndex;
    when ((m_From m =? r_leadTransferee r) && (pr_Match pr =? last)) (sendTimeoutNow (m_From m)))) by walk.
  eapply wp_mono; [apply Hrest|]. cbn beta. intros _ r3 H3. by etrans.
Qed.

Lemma leader_AppResp_leads m r :
  (m_Reject m = false → lead_inv B r →
   m_Index m ≤ log_last r ∧ (m_From m ≠ r_id r → B (m_From m) (m_Index m))) →
  leading (leader_AppResp m) r.
Proof.
  intros Hack. unfold leader_AppResp. apply (leads_of B True). intros Hi.
  apply leading_bind; [apply pr_active_leads|]. intros _ r1 H1.
  destruct (H1 Hi) as [_ _ Hid _ Hl _ _ _ _].
  destruct (m_Reject m) eqn:Hr; [apply leader_AppResp_reject_leads|].
  apply leader_AppResp_accept_leads. intros _. unfold log_last. rewrite Hl, Hid. by apply Hack.
Qed.

Lemma leader_HeartbeatResp_leads m : L (leader_HeartbeatResp m).
Proof.
  intros r. unfold leader_HeartbeatResp. apply leading_pr. intros pr Hp. cbv zeta.
  set (pr1 := pr <| pr_RecentActive := true |> <| pr_ProbeSent := false |>).
  apply wp_bind.
  assert (Hfree : wp True (if bool_decide (pr_State pr1 = StateReplicate) && Full (pr_Inflights pr1)
    then infl ← lift (λ _ : raft S, FreeFirstOne (pr_Inflights pr1)); mret (pr1 <| pr_Inflights := infl |>)
    else mret pr1) r (λ pr2 r', r' = r ∧ ∃ infl, pr2 = pr1 <| pr_Inflights := infl |>)).
  { destruct (_ && _).
    - apply wp_bind, wp_lift; [|done]. intros infl _. apply wp_ret. split; [done|]. by exists infl.
    - apply wp_ret. split; [done|]. exists (pr_Inflights pr1). by destruct pr. }
  eapply wp_mono; [exact Hfree|]. cbn beta. intros pr2 r' (-> & infl & ->).
  apply leading_bind.
  { apply (leading_set _ pr); [done|done|]. by intros _ _ []. }
  intros _ r1 _. match goal with |- wp True ?k _ _ => assert (Hk : L k) by walk end. apply Hk.
Qed.

Lemma leader_SnapStatus_leads m : L (leader_SnapStatus m).
Proof.
  intros r. unfold leader_SnapStatus. apply leading_pr. intros pr Hp. destruct (negb _); [apply leading_ret|].
  apply (leading_set _ pr); [done|destruct (m_Reject m); cbn; by rewrite probe_match|].
  intros _ Hb Hf.
  assert (Hp0 : peer_fact B (log_last r) (r_id r) (m_From m) (if m_Reject m
    then BecomeProbe (pr <| pr_PendingSnapshot := 0 |>) else BecomeProbe pr)).
  { destruct (m_Reject m); apply peer_fact_probe; try done. destruct Hf. split; cbn; try done. intros _. lia. }
  destruct Hp0. by split.
Qed.
Lemma leader_Unreachable_leads m : L (leader_Unreachable m).
Proof.
  intros r. unfold leader_Unreachable. apply leading_pr. intros pr Hp.
  destruct (decide _); [|apply leading_ret]. apply (leading_set _ pr); [done|by rewrite probe_match|].
  intros _. apply peer_fact_probe.
Qed.
Lemma leader_TransferLeader_leads m : L (leader_TransferLeader m).
Proof. unfold leader_TransferLeader. walk. Qed.
End Handlers.
