(* ===== verification/RaftActs.v ===== *)
(** * What one call commits and promises

    [acts B m r r'] is what the call on the message [m] may do: the committed index
    only grows, by the commit rule of a leader or as far as an append or a heartbeat
    of the node's term allows, and every message sent says what [told] lists.  [B]
    is what the followers are known to have acknowledged to a leader.  [Step_acts],
    [recv_acts], [prop_acts], [tick_acts] and [advance_applied_acts] prove it of the
    calls of a node.  With what RaftAppend says of its log, this is what a leader
    does in a call. *)

From S2P Require Import Prelude Pb Quorum Inflights Progress Tracker Confchange.
From S2P Require Import Util Storage Unstable RaftLog ReadOnly Raft RawNode Node.
From S2P Require Import RaftFrame RaftSafety RaftElection RaftRoles RaftInvariant RaftTotal RaftAppend.
From S2P Require Import RaftLeads.

(** ** One call *)

Section Acts.
Context `{RaftPB} {S : Type} `{!Storage S} `{!StorageLaws S}.
Implicit Types r : raft S.
Variable B : N → N → Prop.

(** What the call on [m] may commit as a follower. *)
Definition allowed_commit (m : Message) r (c : N) : Prop :=
  r_state r ≠ StateLeader ∧ m_Term m = r_Term r ∧
  ((m_Type m = MsgApp ∧ fits (rl_log (r_raftLog r)) m ∧ c ≤ m_Commit m ∧ c ≤ m_Index m + lenN (m_Entries m)) ∨
   (m_Type m = MsgHeartbeat ∧ c = m_Commit m)).

Record acts (m : Message) r r' : Prop := {
  ac_id : r_id r' = r_id r;
  ac_config : t_Config (r_prs r') = t_Config (r_prs r);
  ac_msgs : ∃ new, r_msgs r' = r_msgs r ++ new ∧ Forall (told B m r') new;
  ac_commit : l_committed (r_raftLog r') = l_committed (r_raftLog r) ∨
    (r_state r' = StateLeader ∧ quorum_at r' (l_committed (r_raftLog r'))) ∨
    allowed_commit m r' (l_committed (r_raftLog r'));
  ac_mono : l_committed (r_raftLog r) ≤ l_committed (r_raftLog r');
  ac_lead : r_state r' = StateLeader → lead_inv B r';
  ac_term : m_Type m = MsgApp → rl_log (r_raftLog r') = rl_log (r_raftLog r) ∨ m_Term m = r_Term r';
}.

(** A call in a state from which a leader goes on as one. *)
Record ready_to_act r : Prop := {
  ra_log : log_inv (r_raftLog r);
  ra_lead : r_state r = StateLeader → lead_inv B r;
  ra_role : r_state r = StateCandidate → r_Term r ≠ 0;
  ra_snap : snap_low (r_raftLog r);
}.

Lemma mute_told m r r' : mute r r' → ∃ new, r_msgs r' = r_msgs r ++ new ∧ Forall (told B m r') new.
Proof.
  intros [_ _ _ (new & -> & Hn)]. exists new. split; [done|]. eapply Forall_impl; [exact Hn|].
  intros g. apply told_plain.
Qed.
Lemma acts_mute m r r' : mute r r' → (r_state r' = StateLeader → lead_inv B r') → acts m r r'.
Proof.
  intros Hm Hl. pose proof (mute_told m _ _ Hm) as Hmsgs. destruct Hm as [Hlog Hi Hc _].
  split; rewrite ?Hlog; auto.
Qed.
Lemma acts_refl m r : (r_state r = StateLeader → lead_inv B r) → acts m r r.
Proof. apply acts_mute. reflexivity. Qed.
Lemma acts_after_mute m r r1 r' : mute r r1 → acts m r1 r' → acts m r r'.
Proof.
  intros [Hl Hi Hc (n1 & M1 & N1)] [Hi2 Hc2 (n2 & M2 & N2) Hcm Hmo Hle Ht]. rewrite Hl in *.
  split; try done; [congruence..|]. exists (n1 ++ n2). rewrite M2, M1, app_assoc. split; [done|].
  apply Forall_app. split; [|done]. eapply Forall_impl; [exact N1|]. intros g. apply told_plain.
Qed.
Lemma acts_led m r r' : led B r r' → acts m r r'.
Proof.
  intros [Hi Ht Hid Hc Hl Hcm Hq Hg (n & M & Hn)]. split; auto.
  - exists n. split; [done|]. apply Hn.
  - destruct Hq; [by left|right; left]. split; [apply Hi|done].
Qed.
(** A leader that goes on. *)
Lemma acts_then_led m r r1 r' : acts m r r1 → r_state r1 = StateLeader → leads B r1 r' → acts m r r'.
Proof.
  intros [Hi1 Hc1 (n1 & M1 & N1) Hcm1 Hmo1 Hle1 Ht1] Hs Hl. specialize (Hle1 Hs).
  destruct (Hl Hle1) as [Hi2 Ht2 Hid2 Hc2 Hl2 Hcm2 Hq2 Hg2 (n2 & M2 & N2)]. split; try congruence.
  - exists (n1 ++ n2). rewrite M2, M1, app_assoc. split; [done|]. apply Forall_app. split; [|done].
    eapply Forall_impl; [exact N1|]. intros g. by apply told_led.
  - destruct Hq2 as [Hq2|Hq2]; [|right; left; split; [apply Hi2|done]]. rewrite Hq2.
    destruct Hcm1 as [?|[[_ Hq1]|[? _]]]; [by left|right; left|done].
    split; [apply Hi2|]. revert Hq1. apply quorum_gains; [done|done|by rewrite Hl2|done].
  - lia.
  - intros Hm. rewrite Hl2, Ht2. auto.
Qed.

Definition acting {A} m (k : M (raft S) A) r : Prop := wp True k r (λ _ r', acts m r r').

Lemma acting_ret {A} m (a : A) r : ready_to_act r → acting m (mret a) r.
Proof. intros Hr. apply wp_ret, acts_refl, Hr. Qed.
Lemma acting_get {A} m (f : raft S → M (raft S) A) r : acting m (f r) r → acting m (get ≫= f) r.
Proof. intros Hf. by apply wp_bind, wp_get. Qed.
Lemma acting_leads {A} m (k : M (raft S) A) r :
  lead_inv B r → wp True k r (λ _ r', leads B r r') → acting m k r.
Proof. intros Hi Hk. eapply wp_mono; [exact Hk|]. cbn beta. intros _ r' Hl. by apply acts_led, Hl. Qed.
Lemma acting_then {A C} m (k : M (raft S) A) (c : C) r : acting m k r → acting m (k;; mret c) r.
Proof. intros Hk. apply wp_bind. eapply wp_mono; [exact Hk|]. cbn beta. intros _ r' Ha. by apply wp_ret. Qed.
(** The call is mute and leaves no leader. *)
Lemma acting_mute {A} m (k : M (raft S) A) r :
  moves mute k → wp True k r (λ _ r', r_state r' ≠ StateLeader) → acting m k r.
Proof.
  intros Hk Hs. eapply wp_mono; [apply wp_and; [apply Hk|exact Hs]|]. cbn beta. intros _ r' [Hm Hn].
  by apply acts_mute.
Qed.

(** ** Appending *)

Lemma peer_fact_grow last last' self id pr :
  last ≤ last' → peer_fact B last self id pr → peer_fact B last' self id pr.
Proof. intros Hl [F1 F2 F3 F4]. split; try done; [lia..|]. intros Hs. specialize (F4 Hs). lia. Qed.

Lemma appendEntry_acts m es r :
  m_Type m ≠ MsgApp → lead_inv B r → es ≠ [] → log_last r + 1 + lenN es < 9223372036854775808 →
  wp True (appendEntry es) r (λ _ r', acts m r r' ∧ r_state r' = StateLeader).
Proof.
  intros Hm Hi Hne Hb. pose proof Hi as [[Hv Hz] Hs Ht Hp Hsn]. pose proof (rv_committed _ Hv) as Hcm.
  unfold log_last in *. set (lg := rl_log (r_raftLog r)) in *. set (new := stamp (r_Term r) (lg_last lg) es).
  unfold appendEntry. apply wp_bind, (wp_log_read _ _ _ _ _ (lastIndex_valid _ Hv)), wp_bind, wp_get. fold lg. cbv zeta.
  change (stamp (r_Term r) (lg_last lg) es) with new. apply wp_bind.
  unfold increaseUncommittedSize. apply wp_bind, wp_get. cbv zeta.
  destruct (_ && _ && _); [apply wp_ret; cbn [negb]; apply wp_ret; split; [by apply acts_refl|done]|].
  apply wp_bind, wp_modify, wp_ret. cbn [negb]. apply wp_bind.
  assert (Hlen : lenN new = lenN es) by (unfold lenN, new; by rewrite length_stamp).
  assert (Hc : contiguous (lg_last lg) new) by (apply stamp_contiguous; unfold two64; lia).
  destruct new as [|e0 rest] eqn:Hnew.
  { destruct es; [done|]. rewrite lenN_cons in Hlen. unfold lenN in Hlen. cbn in Hlen. lia. }
  assert (He0 : e_Index e0 = lg_last lg + 1) by (apply contiguous_cons in Hc as [-> _]; lia).
  fold lg in Hcm.
  destruct (log_append_valid (r_raftLog r) e0 rest Hv) as (l1 & Happ & Hv1 & Hlog1 & Hf1 & Hc1);
    rewrite ?He0; fold lg.
  { by replace (lg_last lg + 1 - 1) with (lg_last lg) by lia. }
  { lia. } { lia. } { lia. }
  rewrite Hlen, He0 in Happ. rewrite He0 in Hlog1. fold lg in Hlog1.
  assert (Hlast1 : lg_last (rl_log l1) = lg_last lg + lenN es).
  { rewrite Hlog1, lg_last_append by (unfold lg_last; lia). lia. }
  apply (wp_log_step _ _ (lg_last lg + 1 + lenN es - 1) l1); [done|]. apply wp_bind.
  unfold pr_get. apply wp_lift; [|done]. intros pr Hpr. cbn in Hpr.
  destruct (t_Progress (r_prs r) !! r_id r) as [pr0|] eqn:Hself; [|done]. injection Hpr as ->.
  apply wp_bind, wp_modify. set (r3 := update r_prs _ _).
  assert (Hi3 : lead_inv B r3).
  { split; try done.
    - split; [done|]. change (rl_log (r_raftLog r3)) with (rl_log l1). rewrite Hlog1. exact Hz.
    - intros id p. unfold log_last. change (rl_log (r_raftLog r3)) with (rl_log l1). rewrite Hlast1.
      change (r_id r3) with (r_id r). cbn. intros [(<- & <-)|[_ Hj]]%lookup_insert_Some.
      + apply peer_fact_update; [unfold two64; lia|lia|done|].
        apply (peer_fact_grow (lg_last lg)); [lia|by apply Hp].
      + apply (peer_fact_grow (lg_last lg)); [lia|by apply Hp].
    - intros s. change (r_raftLog r3) with l1. unfold log_snapshot. rewrite (rf_snapshot _ _ Hf1), (rf_storage _ _ Hf1), Hlast1.
      intros Hs1%Hsn. fold lg in Hs1. lia. }
  assert (Ha3 : acts m r r3).
  { split; try done.
    - exists []. by rewrite app_nil_r.
    - left. exact Hc1.
    - change (l_committed (r_raftLog r) ≤ l_committed l1). by rewrite Hc1. }
  apply wp_bind. eapply wp_mono; [apply (maybeCommit_leads B)|]. cbn beta. intros _ r4 H4. apply wp_ret.
  split; [by apply (acts_then_led _ _ r3)|]. apply (ld_inv _ _ _ (H4 Hi3)).
Qed.

Hypothesis B0 : ∀ id, B id 0.

Lemma becomeLeader_acts m r :
  m_Type m ≠ MsgApp → ready_to_act r → r_Term r ≠ 0 → log_last r + 2 < 9223372036854775808 →
  wp True becomeLeader r (λ _ r', acts m r r' ∧ r_state r' = StateLeader).
Proof.
  intros Hm Hr Hnz Hb. pose proof (ra_log _ Hr) as [Hv Hz]. unfold becomeLeader. apply wp_bind, wp_get.
  destruct (decide _); [by apply wp_panic|]. apply wp_bind.
  pose proof (log_last_small _ Hv) as Hsm.
  eapply wp_mono.
  { apply wp_and; [apply (reset_mute (r_Term r))|]. apply wp_and; [apply (reset_spec (r_Term r))|].
    apply (reset_fresh (r_Term r) r _ (lastIndex_valid _ Hv)). }
  cbn beta. intros _ r1 (Hmu & Hq & Hfr). apply wp_bind, wp_modify. set (r2 := update r_state _ _).
  pose proof (mu_log _ _ Hmu) as Hl1.
  assert (Ht1 : r_Term r1 = r_Term r) by (by rewrite (q_term _ _ Hq), settle_term).
  assert (Hi2 : lead_inv B r2).
  { split; [| | | |].
    - change (r_raftLog r2) with (r_raftLog r1). by rewrite Hl1.
    - done.
    - change (r_Term r1 ≠ 0). by rewrite Ht1.
    - intros id pr Hp. destruct (Hfr id pr Hp) as (Hma & Hne & Hst). unfold log_last.
      change (r_raftLog r2) with (r_raftLog r1). change (r_id r2) with (r_id r1).
      rewrite Hl1, (mu_id _ _ Hmu). rewrite add64_small in Hne by done. split.
      + lia.
      + rewrite Hma. destruct (_ =? _); lia.
      + intros Hn. rewrite Hma, (proj2 (N.eqb_neq _ _) Hn). apply B0.
      + by rewrite Hst.
    - change (r_raftLog r2) with (r_raftLog r1). rewrite Hl1. exact (ra_snap _ Hr). }
  assert (H12 : mute r r2) by (etrans; [exact Hmu|by apply mute_same]).
  apply wp_bind. eapply wp_mono.
  { apply wp_and; [apply (pr_modify_mute (r_id r) BecomeReplicate)|]. unfold pr_modify.
    apply leading_pr. intros pr Hp. apply (leading_set B _ pr); [done|done|]. intros _. apply peer_fact_replicate. }
  cbn beta. intros _ r3 [M3 H3]. apply wp_bind, wp_lift; [|done]. intros last _.
  apply wp_bind, wp_modify. set (r4 := update r_pendingConfIndex _ r3).
  assert (M4 : mute r r4) by (etrans; [exact H12|]; etrans; [exact M3|by apply mute_same]).
  assert (Hi4 : lead_inv B r4).
  { destruct (H3 Hi2) as [Hi3 _ _ _ _ _ _ _ _]. destruct Hi3. by split. }
  apply wp_bind. eapply wp_mono.
  { apply (appendEntry_acts m [Entry_zero] r4 Hm Hi4); [done|]. unfold log_last. rewrite (mu_log _ _ M4).
    unfold log_last in Hb. unfold lenN. cbn. lia. }
  cbn beta. intros ok r5 [H5 Hs5]. destruct ok; cbn [negb]; [|by apply wp_panic].
  eapply wp_mono; [apply (reduceUncommittedSize_frame (leads B))|]. cbn beta. intros _ r6 H6.
  split; [|apply (ld_inv _ _ _ (H6 (ac_lead _ _ _ H5 Hs5)))].
  apply (acts_after_mute _ _ r4); [done|]. by apply (acts_then_led _ _ r5).
Qed.
End Acts.

(** ** Elections *)

Section Campaign.
Context `{RaftPB} {S : Type} `{!Storage S} `{!StorageLaws S}.
Implicit Types r : raft S.
Variable B : N → N → Prop.
Hypothesis B0 : ∀ id, B id 0.
Notation acting := (acting B).
Notation ready_to_act := (ready_to_act B).

Lemma ready_mute r r1 :
  mute r r1 → ready_to_act r → r_state r1 ≠ StateLeader →
  (r_state r1 = StateCandidate → r_Term r1 ≠ 0) → ready_to_act r1.
Proof. intros Hm [H1 H2 H3 H4] Hs Ht. split; rewrite ?(mu_log _ _ Hm); done. Qed.

Lemma acting_past {A} r1 m (k : M (raft S) A) r : mute r r1 → acting m k r1 → wp True k r1 (λ _ r', acts B m r r').
Proof.
  intros Hm Hk. eapply wp_mono; [exact Hk|]. cbn beta. intros _ r'. by apply acts_after_mute.
Qed.

(** A call that is mute and leaves the term and the role, and what goes on. *)
Lemma acting_after {A C} m (k : M (raft S) A) (f : A → M (raft S) C) r :
  moves mute k → moves settled k → (∀ a r1, mute r r1 → settled r r1 → acting m (f a) r1) →
  acting m (k ≫= f) r.
Proof.
  intros Hk Hs Hf. apply wp_bind. eapply wp_mono; [apply wp_and; [apply Hk|apply Hs]|]. cbn beta.
  intros a r1 [Hm Hse]. eapply wp_mono; [by apply Hf|]. cbn beta. intros _ r2. by apply acts_after_mute.
Qed.
(** A mute call in a role that is not the leader's. *)
Lemma acting_quiet {A} m (k : M (raft S) A) r :
  moves mute k → moves settled k → r_state r ≠ StateLeader → acting m k r.
Proof.
  intros Hk Hs Hn. apply acting_mute; [done|]. eapply wp_mono; [apply Hs|]. cbn. intros _ r' [_ ->]. done.
Qed.

Lemma becomeCandidate_result r :
  r_Term r + 1 < two64 →
  wp True becomeCandidate r (λ _ r', mute r r' ∧ r_state r' = StateCandidate ∧ r_Term r' = r_Term r + 1).
Proof.
  intros Hb. pose proof (becomeCandidate_raises r Hb) as Ht.
  assert (Hs : wp True becomeCandidate r (λ _ r', r_state r' = StateCandidate)).
  { unfold becomeCandidate. apply wp_bind, wp_get. destruct (decide _); [by apply wp_panic|].
    apply wp_bind. eapply wp_mono; [apply reset_mute|]. cbn beta. intros _ r1 _. by apply wp_modify. }
  eapply wp_mono; [apply wp_and; [apply becomeCandidate_mute|apply wp_and; [exact Hs|exact Ht]]|]. done.
Qed.
Lemma becomePreCandidate_result r :
  wp True becomePreCandidate r (λ _ r', mute r r' ∧ r_state r' = StatePreCandidate ∧ r_Term r' = r_Term r).
Proof.
  unfold becomePreCandidate. apply wp_bind, wp_get. destruct (decide _); [by apply wp_panic|].
  apply wp_modify. split; [by apply mute_same|done].
Qed.

(** The vote requests of a candidate. *)
Record asks (r r' : raft S) : Prop := {
  as_log : r_raftLog r' = r_raftLog r;
  as_term : r_Term r' = r_Term r;
  as_state : r_state r' = r_state r;
  as_id : r_id r' = r_id r;
  as_config : t_Config (r_prs r') = t_Config (r_prs r);
  as_msgs : r_state r = StateCandidate →
    ∃ new, r_msgs r' = r_msgs r ++ new ∧ ∀ m, Forall (told B m r) new;
}.
#[local] Instance asks_preorder : PreOrder asks.
Proof.
  split.
  - intros r. split; try done. intros _. exists []. rewrite app_nil_r. split; [done|]. by intros m.
  - intros a b c [L1 T1 S1 I1 C1 M1] [L2 T2 S2 I2 C2 M2]. split; try congruence. intros Hs.
    destruct (M1 Hs) as (n1 & E1 & F1), (M2 ltac:(congruence)) as (n2 & E2 & F2).
    exists (n1 ++ n2). rewrite E2, E1, app_assoc. split; [done|]. intros m. apply Forall_app. split; [done|].
    eapply Forall_impl; [apply F2|]. intros g. unfold told, log_last. by rewrite L1, T1, S1, I1.
Qed.

Lemma send_vote_completes m r :
  is_vote_type (m_Type m) = true →
  wp True (send m) r (λ _ r', m_Term m ≠ 0 ∧ ∃ from, r' = r <| r_msgs ::= λ ms, ms ++ [m <| m_From := from |>] |>).
Proof.
  intros Hv. unfold send. apply wp_bind, wp_get.
  set (m1 := if m_From m =? None_id then m <| m_From := r_id r |> else m).
  assert (Hm1 : ∃ from, m1 = m <| m_From := from |>).
  { unfold m1. destruct (m_From m =? None_id); [by eexists|]. exists (m_From m). by destruct m. }
  destruct Hm1 as [from ->]. cbv zeta. change (m_Type (m <| m_From := from |>)) with (m_Type m).
  change (m_Term (m <| m_From := from |>)) with (m_Term m). rewrite Hv.
  destruct (N.eqb_spec (m_Term m) 0); [by apply wp_panic|]. apply wp_modify. split; [done|]. by exists from.
Qed.

Lemma last_term_Some (l : raftLog S) :
  rl_valid l → lg_term (rl_log l) (lg_last (rl_log l)) = Some (default 0 (lg_term (rl_log l) (lg_last (rl_log l)))).
Proof.
  intros Hv. destruct (proj2 (lg_term_is_Some (rl_log l) (lg_last (rl_log l)))) as [t ->]; [|done].
  unfold lg_last. lia.
Qed.

Lemma vote_request_asks t id term r :
  log_inv (r_raftLog r) → term = r_Term r → wp True (request_vote t MsgVote term id) r (λ _ r', asks r r').
Proof.
  intros [Hv _] ->. unfold request_vote.
  apply wp_bind, (wp_log_read _ _ _ _ _ (lastIndex_valid _ Hv)).
  apply wp_bind, (wp_log_read _ _ _ _ _ (lastTerm_valid _ Hv)). cbv zeta.
  eapply wp_mono; [by apply send_vote_completes|]. cbn beta. intros _ r' (_ & from & ->).
  split; try done. intros Hs. eexists. split; [reflexivity|]. intros m'. constructor; [|done].
  unfold told. cbn. split_and!; try done. by apply last_term_Some.
Qed.

Lemma requests_asks ids t term self r :
  log_inv (r_raftLog r) → term = r_Term r →
  wp True (forM ids (λ id, if id =? self then mret tt else request_vote t MsgVote term id)) r (λ _ r', asks r r').
Proof.
  intros Hi ->. assert (Hloop : ∀ ids r1, asks r r1 →
    wp True (forM ids (λ id, if id =? self then mret tt else request_vote t MsgVote (r_Term r) id)) r1 (λ _ r', asks r r')).
  { clear ids. intros ids. induction ids as [|id ids IH]; intros r1 H1; [by apply wp_ret|]. cbn [forM]. apply wp_bind.
    assert (Hone : wp True (if id =? self then mret tt else request_vote t MsgVote (r_Term r) id) r1 (λ _ r', asks r r')).
    { destruct (id =? self); [by apply wp_ret|].
      eapply wp_mono; [apply vote_request_asks; [by rewrite (as_log _ _ H1)|by rewrite (as_term _ _ H1)]|].
      cbn beta. intros _ r2 H2. by etrans. }
    eapply wp_mono; [exact Hone|]. cbn beta. intros _ r2 H2. by apply IH. }
  by apply Hloop.
Qed.
Lemma acts_asks m r r' : r_state r = StateCandidate → asks r r' → acts B m r r'.
Proof.
  intros Hs [L1 T1 S1 I1 C1 M1]. destruct (M1 Hs) as (n & E & F). split; rewrite ?L1; auto.
  - exists n. split; [done|]. eapply Forall_impl; [apply F|]. intros g. unfold told, log_last. by rewrite L1, T1, S1, I1.
  - intros Hl. congruence.
Qed.

Lemma campaign_with_acts m after t r :
  m_Type m ≠ MsgApp → ready_to_act r → r_Term r + 1 < two64 → log_last r + 2 < 9223372036854775808 →
  (∀ r1, mute r r1 → r_Term r1 = r_Term r → r_state r1 = StatePreCandidate → acting m after r1) →
  acting m (campaign_with after t) r.
Proof.
  intros Hm Hr Hb Hlast Hafter. unfold campaign_with. destruct (bool_decide _).
  - apply wp_bind. eapply wp_mono; [apply becomePreCandidate_result|]. cbn beta. intros _ r1 (M1 & S1 & T1).
    apply (acting_past r1); [exact M1|].
    change (acting m (r ← get; '(_, _, res) ← poll (r_id r) true;
      (if decide (res = VoteWon) then after
       else ids ← gets (λ r, insertionSort (elements (IDs (Voters (t_Config (r_prs r))))));
            forM ids (λ id, if id =? r_id r then mret tt else request_vote t MsgPreVote (r_Term r +u 1) id))) r1).
    apply acting_get, acting_after; [walk|walk|]. intros [[g rj] res] r2 M2 [T2 S2].
    destruct (decide (res = VoteWon)).
    + apply Hafter; [by etrans|congruence|congruence].
    + apply acting_quiet; [walk|walk|congruence].
  - apply wp_bind. eapply wp_mono; [by apply becomeCandidate_result|]. cbn beta. intros _ r1 (M1 & S1 & T1).
    apply (acting_past r1); [exact M1|].
    change (acting m (r ← get; '(_, _, res) ← poll (r_id r) true;
      (if decide (res = VoteWon) then becomeLeader
       else ids ← gets (λ r, insertionSort (elements (IDs (Voters (t_Config (r_prs r))))));
            forM ids (λ id, if id =? r_id r then mret tt else request_vote t MsgVote (r_Term r) id))) r1).
    apply acting_get, acting_after; [walk|walk|]. intros [[g rj] res] r2 M2 [T2 S2].
    assert (M02 : mute r r2) by by etrans.
    destruct (decide (res = VoteWon)).
    + eapply wp_mono; [apply (becomeLeader_acts B B0 m r2 Hm)|by cbn; intros _ r' [? _]].
      * apply (ready_mute r); [done|done|congruence|]. intros _. lia.
      * lia.
      * unfold log_last. by rewrite (mu_log _ _ M02).
    + apply wp_bind, wp_gets. eapply wp_mono.
      { apply requests_asks; [rewrite (mu_log _ _ M02); apply Hr|congruence]. }
      cbn beta. intros _ r' Ha. apply acts_asks; [congruence|done].
Qed.
Lemma campaign_acts m t r :
  m_Type m ≠ MsgApp → ready_to_act r → r_Term r + 1 < two64 → log_last r + 2 < 9223372036854775808 →
  acting m (campaign t) r.
Proof.
  intros Hm Hr Hb Hl. unfold campaign. apply campaign_with_acts; try done. intros r1 M1 T1 S1.
  assert (Hr1 : ready_to_act r1) by (apply (ready_mute r); [done|done|congruence|congruence]).
  apply campaign_with_acts; [done|done|congruence|by unfold log_last; rewrite (mu_log _ _ M1)|].
  intros r2 M2 T2 S2. apply wp_ret, acts_refl. congruence.
Qed.
Lemma hup_acts m t r :
  m_Type m ≠ MsgApp → ready_to_act r → r_Term r + 1 < two64 → log_last r + 2 < 9223372036854775808 →
  acting m (hup t) r.
Proof.
  intros Hm Hr Hb Hl. unfold hup. apply acting_get.
  destruct (decide _); [by apply acting_ret|]. destruct (negb _); [by apply acting_ret|].
  apply wp_bind, wp_lift; [|done]. intros ents _. destruct (_ && _); [by apply acting_ret|by apply campaign_acts].
Qed.
Lemma candidate_vote_acts m r :
  m_Type m ≠ MsgApp → ready_to_act r → r_state r = StateCandidate ∨ r_state r = StatePreCandidate →
  r_Term r + 1 < two64 → log_last r + 2 < 9223372036854775808 → acting m (candidate_vote m) r.
Proof.
  intros Hm Hr Hs Hb Hl. unfold candidate_vote. apply acting_after; [walk|walk|].
  intros [[g rj] res] r1 M1 [T1 S1]. apply acting_get.
  assert (Hn : r_state r1 ≠ StateLeader) by (rewrite S1; by destruct Hs as [-> | ->]).
  assert (Hr1 : ready_to_act r1).
  { apply (ready_mute r); [done|done|done|]. intros Hc. rewrite T1. apply (ra_role _ _ Hr). by rewrite <- S1. }
  assert (Hl1 : log_last r1 + 2 < 9223372036854775808) by (unfold log_last; by rewrite (mu_log _ _ M1)).
  destruct res.
  - apply acting_ret. exact Hr1.
  - apply acting_mute; [walk|]. eapply wp_mono; [apply becomeFollower_spec_state|]. cbn. by intros _ r' ->.
  - destruct (decide _) as [|Hnp]; [apply campaign_acts; [done|done|by rewrite T1|done]|].
    apply wp_bind. eapply wp_mono.
    { apply (becomeLeader_acts B B0 m r1 Hm Hr1); [|done]. apply (ra_role _ _ Hr1). rewrite S1 in *. by destruct Hs. }
    cbn beta. intros _ r2 [H2 S2]. eapply wp_mono; [apply (bcastAppend_frame (leads B))|].
    cbn beta. intros _ r3 H3. by apply (acts_then_led _ _ _ r2).
Qed.
End Campaign.

(** ** Followers *)

Section Following.
Context `{RaftPB} {S : Type} `{!Storage S} `{!StorageLaws S}.
Implicit Types r : raft S.
Variable B : N → N → Prop.
Hypothesis B0 : ∀ id, B id 0.
Notation acting := (acting B).
Notation ready_to_act := (ready_to_act B).

Lemma maybeAppend_None (l : raftLog S) i t c es l' : maybeAppend l i t c es = Ok (None, l') → l' = l.
Proof.
  unfold maybeAppend. destruct (matchTerm l i t) as [[]|]; cbn [mbind outcome_bind]; [|by intros [= <-]|done].
  destruct (findConflict l es) as [ci|]; [|done]. cbn [mbind outcome_bind].
  match goal with |- context [mbind _ ?X = _] => destruct X as [l1|]; [|done] end. cbn [mbind outcome_bind].
  destruct (commitTo l1 _) as [[b l2]|]; [|done]. by intros [= ].
Qed.

(** After a match the log fits the append. *)
Lemma fits_append lg m :
  contiguous (m_Index m) (m_Entries m) → has_terms (m_Entries m) → log_ok lg →
  lg_term lg (m_Index m) = Some (m_LogTerm m) →
  fits (if lg_conflict lg (m_Entries m) =? 0 then lg
        else lg_append lg (lg_conflict lg (m_Entries m))
               (drop (N.to_nat (lg_conflict lg (m_Entries m) - m_Index m - 1)) (m_Entries m))) m.
Proof.
  intros Hc Ht Hok Hi. assert (Hs : is_Some (lg_term lg (m_Index m))) by by eexists. apply lg_term_is_Some in Hs.
  destruct (lg_conflict_spec lg (m_Index m) (m_Entries m) Hc Ht) as [[-> Hall]|(k & e & Hk & Hci & Hkl & _ & Hbef)].
  { lia. } { by split. }
  set (ci := lg_conflict lg (m_Entries m)) in *. rewrite (proj2 (N.eqb_neq ci 0)) by lia.
  replace (N.to_nat (ci - m_Index m - 1)) with k by lia. split.
  - by rewrite lg_term_append_old by lia.
  - intros e' (j & Hj)%list_elem_of_lookup. pose proof (Hc _ _ Hj) as Hi'.
    destruct (decide (j < k)%nat) as [Hlt|Hge].
    + rewrite lg_term_append_old by lia. by apply (Hbef j).
    + replace (e_Index e') with (ci + N.of_nat (j - k)) by lia.
      rewrite lg_term_append_new by lia. rewrite lookup_drop.
      replace (k + (j - k))%nat with j by lia. by rewrite Hj.
Qed.

Lemma same_log r : r <| r_raftLog := r_raftLog r |> = r.
Proof. by destruct r. Qed.
Lemma acts_msg m r r1 g :
  acts B m r r1 → told B m r1 g → acts B m r (r1 <| r_msgs ::= λ ms, ms ++ [g] |>).
Proof.
  intros [Hi Hc (new & Hm & Hn) Hcm Hmo Hl Ht] Hg. split; try done.
  - exists (new ++ [g]). cbn. rewrite Hm, app_assoc. split; [done|]. apply Forall_app. split; [done|]. by constructor.
  - intros Hs. destruct (Hl Hs). by split.
Qed.

(** An answer of a follower. *)
Lemma acts_respond m r r1 g :
  m_Type g = MsgAppResp → acts B m r r1 → (∀ from, told B m r1 (g <| m_From := from |> <| m_Term := r_Term r1 |>)) →
  wp True (send g) r1 (λ _ r', acts B m r r').
Proof.
  intros Hg Ha Ht. eapply wp_mono; [apply send_completes_term; by rewrite Hg|]. cbn beta.
  intros _ r' (from & ->). by apply acts_msg.
Qed.

Lemma handleAppendEntries_acts m r :
  m_Type m = MsgApp → r_state r = StateFollower → m_Term m = r_Term r → contiguous (m_Index m) (m_Entries m) →
  has_terms (m_Entries m) → (m_LogTerm m = 0 → m_Index m = 0) →
  m_Index m + lenN (m_Entries m) + 1 < 9223372036854775808 → ready_to_act r →
  acting m (handleAppendEntries m) r.
Proof.
  intros Hm Hs Ht Hc Hts H0 Hb Hr. pose proof (ra_log _ _ Hr) as [Hv Hz]. pose proof (rv_committed _ Hv) as Hcm.
  unfold handleAppendEntries. apply wp_bind, wp_get.
  assert (Hn : r_state r ≠ StateLeader) by (by rewrite Hs).
  destruct (N.ltb_spec (m_Index m) (l_committed (r_raftLog r))) as [Hlt|Hge].
  { apply acts_respond; [done|by apply acts_refl|]. intros from. unfold told. cbn. right; right. split_and!; try done. by left. }
  apply wp_bind, (wp_log_read _ _ _ _ _ (lastIndex_valid _ Hv)), wp_bind.
  unfold wp at 1. unfold log_step. destruct (maybeAppend _ _ _ _ _) as [[res l']|] eqn:Hma; [|done].
  destruct res as [last|].
  2:{ apply maybeAppend_None in Hma as ->. rewrite (same_log r). apply acting_quiet; [walk|walk|done]. }
  assert (Hin : lg_term (rl_log (r_raftLog r)) (m_Index m) = Some (m_LogTerm m)).
  { revert Hma. unfold maybeAppend. rewrite matchTerm_valid by done. cbn [mbind outcome_bind].
    destruct (N.eqb_spec (default 0 (lg_term (rl_log (r_raftLog r)) (m_Index m))) (m_LogTerm m)) as [He|]; [|done].
    intros _. destruct (decide (m_LogTerm m = 0)) as [Hz0|]; [|apply (proj1 (default_term_pos _ (m_LogTerm m) ltac:(lia)) He)].
    specialize (H0 Hz0). assert (Hp : lg_prev (rl_log (r_raftLog r)) = 0) by lia.
    rewrite Hz0, H0. rewrite <- Hp at 1. by rewrite lg_term_prev, Hz. }
  pose proof (maybeAppend_match (r_raftLog r) _ _ (m_Commit m) _ Hv Hin Hc Hts Hb) as Hm2.
  cbn zeta in Hm2. destruct (bool_decide _); [by rewrite Hma in Hm2|].
  destruct Hm2 as (l2 & Hm2 & Hv2 & Hf & Hcm2 & Hlog). rewrite Hma in Hm2. injection Hm2 as -> <-.
  assert (Hfit : fits (rl_log l') m) by (rewrite Hlog; apply fits_append; try done; apply (rv_log _ Hv)).
  set (r1 := r <| r_raftLog := l' |>).
  apply acts_respond; [done| |].
  - split; try done.
    + exists []. by rewrite app_nil_r.
    + cbn. destruct (decide (l_committed l' = l_committed (r_raftLog r))) as [|Hne]; [by left|right; right].
      split; [done|]. split; [done|]. left. cbn. split_and!; [done|done|lia|lia].
    + cbn. lia.
    + intros _. by right.
  - intros from. unfold told. cbn. right; right. split_and!; try done. by right.
Qed.

Lemma handleHeartbeat_acts m r :
  m_Type m = MsgHeartbeat → r_state r = StateFollower → m_Term m = r_Term r → ready_to_act r →
  acting m (handleHeartbeat m) r.
Proof.
  intros Hm Hs Ht Hr. pose proof (ra_log _ _ Hr) as [Hv Hz].
  assert (Hn : r_state r ≠ StateLeader) by (by rewrite Hs).
  unfold handleHeartbeat. apply wp_bind. unfold wp at 1. unfold log_step.
  pose proof (commitTo_valid (r_raftLog r) (m_Commit m) Hv) as Hcv.
  destruct (_ <? _).
  { rewrite Hcv, (same_log r). apply acting_quiet; [walk|walk|done]. }
  destruct Hcv as (l' & -> & Hv' & Hlog & Hf & Hcm). cbn [when].
  eapply wp_mono; [by apply send_completes_term|]. cbn beta. intros _ r' (from & ->).
  apply acts_msg; [|by apply told_plain]. split; try done.
  - exists []. by rewrite app_nil_r.
  - cbn. destruct (decide (l_committed l' = l_committed (r_raftLog r))) as [|Hne]; [by left|right; right].
    split; [done|]. split; [done|]. right. split; [done|]. cbn. lia.
  - cbn. lia.
  - intros _. by left.
Qed.

(** [becomeFollower] and a handler. *)
Lemma becomeFollower_result term lead r :
  wp True (becomeFollower term lead) r (λ _ r', mute r r' ∧ r_state r' = StateFollower ∧ r_Term r' = term).
Proof.
  eapply wp_mono; [apply wp_and; [apply becomeFollower_mute|apply wp_and;
    [apply becomeFollower_spec_state|apply becomeFollower_spec]]|].
  cbn beta. intros _ r' (Hm & Hs & Hq). split_and!; [done|done|]. by rewrite (q_term _ _ Hq), settle_term.
Qed.
Lemma acting_follower {A} m lead (f : unit → M (raft S) A) r :
  ready_to_act r →
  (∀ r1, ready_to_act r1 → r_state r1 = StateFollower → m_Term m = r_Term r1 → acting m (f tt) r1) →
  acting m (becomeFollower (m_Term m) lead ≫= f) r.
Proof.
  intros Hr Hf. apply wp_bind. eapply wp_mono; [apply becomeFollower_result|]. cbn beta.
  intros [] r1 (Hm & Hs & Ht). apply acting_past; [done|]. apply Hf; [|done|done].
  apply (ready_mute _ r); [done|done|by rewrite Hs|by rewrite Hs].
Qed.

(** What a call needs of the message. *)
Record app_ok (m : Message) : Prop := {
  ak_entries : contiguous (m_Index m) (m_Entries m);
  ak_terms : has_terms (m_Entries m);
  ak_start : m_LogTerm m = 0 → m_Index m = 0;
  ak_room : m_Index m + lenN (m_Entries m) + 1 < 9223372036854775808;
}.

Lemma stepFollower_acts m r :
  m_Type m ≠ MsgSnap → (m_Type m = MsgApp → app_ok m) →
  (m_Type m = MsgApp ∨ m_Type m = MsgHeartbeat → m_Term m = r_Term r) → r_state r = StateFollower →
  ready_to_act r → r_Term r + 1 < two64 → log_last r + 2 < 9223372036854775808 →
  acting m (stepFollower m) r.
Proof.
  intros Hsn Happ Ht Hs Hr Hb Hl. assert (Hn : r_state r ≠ StateLeader) by (by rewrite Hs).
  assert (Hheard : ∀ (k : M (raft S) unit), (∀ r1, ready_to_act r1 → r_state r1 = StateFollower →
      r_Term r1 = r_Term r → acting m k r1) →
    acting m (heard_from (m_From m);; k;; mret (M := M (raft S)) (@None error)) r).
  { intros k Hk. apply acting_after; [walk|walk|]. intros _ r1 Hm [H1 H2]. apply acting_then, Hk; [|congruence..].
    apply (ready_mute _ r); [done|done|congruence|congruence]. }
  unfold stepFollower. apply acting_get.
  destruct (m_Type m) eqn:Hty; try done; try (apply acting_quiet; [walk|walk|done]; fail).
  - apply Hheard. intros r1 Hr1 Hs1 Ht1. destruct (Happ eq_refl).
    apply handleAppendEntries_acts; try done. rewrite Ht1. auto.
  - apply Hheard. intros r1 Hr1 Hs1 Ht1. apply handleHeartbeat_acts; try done. rewrite Ht1. auto.
  - apply acting_then, hup_acts; try done. by rewrite Hty.
Qed.

Lemma stepCandidate_acts m r :
  m_Type m ≠ MsgSnap → (m_Type m = MsgApp → app_ok m) →
  r_state r = StateCandidate ∨ r_state r = StatePreCandidate →
  ready_to_act r → r_Term r + 1 < two64 → log_last r + 2 < 9223372036854775808 →
  acting m (stepCandidate m) r.
Proof.
  intros Hsn Happ Hs Hr Hb Hl. unfold stepCandidate. apply acting_get.
  assert (Hret : acting m (mret (M := M (raft S)) (@None error)) r) by by apply acting_ret.
  assert (Hcv : m_Type m ≠ MsgApp → acting m (candidate_vote m;; mret (M := M (raft S)) (@None error)) r).
  { intros Hm. by apply acting_then, candidate_vote_acts. }
  generalize (if decide (r_state r = StatePreCandidate) then MsgPreVoteResp else MsgVoteResp). intros rt.
  destruct (m_Type m) eqn:Hty; try done; try (case_decide; [by apply Hcv|done]); try (by apply acting_ret).
  - apply acting_follower; [done|]. intros r1 Hr1 Hs1 Ht1. destruct (Happ eq_refl).
    by apply acting_then, handleAppendEntries_acts.
  - apply acting_follower; [done|]. intros r1 Hr1 Hs1 Ht1. by apply acting_then, handleHeartbeat_acts.
Qed.
End Following.

(** ** Leaders, and the whole step *)

Section Stepping.
Context `{RaftPB} {S : Type} `{!Storage S} `{!StorageLaws S}.
Implicit Types r : raft S.
Variable B : N → N → Prop.
Hypothesis B0 : ∀ id, B id 0.
Notation acting := (acting B).
Notation ready_to_act := (ready_to_act B).

(** A call that only says what is plain, in any role. *)
Lemma acting_frame {A} m (k : M (raft S) A) r :
  moves mute k → moves settled k → moves (leads B) k → ready_to_act r → acting m k r.
Proof.
  intros Hm Hs Hl Hr. destruct (decide (r_state r = StateLeader)) as [Hst|Hst].
  - by apply acting_leads; [apply Hr|].
  - by apply acting_quiet.
Qed.

Lemma pr_inactive_leads id : moves (leads B) (pr_modify id (λ pr, pr <| pr_RecentActive := false |>)).
Proof.
  intros r. unfold pr_modify. apply leading_pr. intros pr Hp. apply (leading_set B _ pr); [done|done|].
  by intros _ _ [].
Qed.
Lemma leader_CheckQuorum_acts m r : lead_inv B r → acting m leader_CheckQuorum r.
Proof.
  intros Hi. pose proof (pr_active_leads B) as Hact. pose proof pr_inactive_leads as Hin.
  assert (Hl : wp True leader_CheckQuorum r (λ _ r', r_state r' = StateLeader → lead_inv B r')).
  { unfold leader_CheckQuorum. apply wp_bind, wp_get, wp_bind.
    match goal with |- wp True ?k _ _ => assert (Hk : moves (leads B) k) by (walk; apply Hact) end.
    eapply wp_mono; [apply Hk|]. cbn beta. intros _ r1 H1. pose proof (ld_inv _ _ _ (H1 Hi)) as Hi1.
    apply wp_bind, wp_gets, wp_bind. destruct (negb _); cbn [when].
    - eapply wp_mono; [apply becomeFollower_spec_state|]. cbn beta. intros _ r2 Hs.
      match goal with |- wp True ?k _ _ => assert (Hk2 : moves settled k) by walk end.
      eapply wp_mono; [apply Hk2|]. cbn beta. intros _ r3 [_ ->]. congruence.
    - apply wp_ret. match goal with |- wp True ?k _ _ => assert (Hk2 : moves (leads B) k) by (walk; apply Hin) end.
      eapply wp_mono; [apply Hk2|]. cbn beta. intros _ r3 H3 _. by apply (ld_inv _ _ _ (H3 Hi1)). }
  eapply wp_mono; [apply wp_and; [apply leader_CheckQuorum_mute|exact Hl]|]. cbn beta. intros _ r' [H1 H2].
  by apply acts_mute.
Qed.

Lemma leader_Prop_acts m r :
  m_Type m = MsgProp → lead_inv B r → log_last r + 1 + lenN (m_Entries m) < 9223372036854775808 →
  acting m (leader_Prop m) r.
Proof.
  intros Hm Hi Hb. assert (Hret : ∀ x : option error, acting m (mret x) r).
  { intros x. apply acting_leads; [done|]. by apply wp_ret. }
  unfold leader_Prop. apply acting_get. destruct (length (m_Entries m) =? 0)%nat eqn:He; [by apply wp_panic|].
  apply Nat.eqb_neq in He. destruct (t_Progress (r_prs r) !! r_id r); [|apply Hret].
  destruct (negb _); [apply Hret|]. apply wp_bind. eapply wp_mono.
  { apply wp_and; [apply (check_proposals_frame (leads B))|].
    apply wp_and; [apply (check_proposals_frame mute)|apply (check_proposals_length 0)]. }
  cbn beta. intros es r1 (Hl1 & Hmu & Hlen). pose proof (ld_inv _ _ _ (Hl1 Hi)) as Hi1. apply wp_bind. eapply wp_mono.
  { apply (appendEntry_acts B m es r1); [by rewrite Hm|done|by intros ->|]. unfold log_last in *.
    rewrite (mu_log _ _ Hmu). unfold lenN in *. by rewrite Hlen. }
  cbn beta. intros ok r2 [H2 S2]. pose proof (acts_after_mute _ _ _ _ _ Hmu H2) as H02.
  destruct ok; cbn [negb].
  - apply wp_bind. eapply wp_mono; [apply (bcastAppend_frame (leads B))|]. cbn beta. intros _ r3 H3. apply wp_ret.
    by apply (acts_then_led _ _ _ r2).
  - by apply wp_ret.
Qed.

Lemma stepLeader_acts m r :
  lead_inv B r → log_last r + 1 + lenN (m_Entries m) < 9223372036854775808 →
  (m_Type m = MsgAppResp → m_Reject m = false →
   m_Index m ≤ log_last r ∧ (m_From m ≠ r_id r → B (m_From m) (m_Index m))) →
  acting m (stepLeader m) r.
Proof.
  intros Hi Hb Hack. unfold stepLeader.
  assert (Hleads : ∀ k : M (raft S) (option error), moves (leads B) k → acting m k r).
  { intros k Hk. by apply acting_leads; [|apply Hk]. }
  destruct (m_Type m) eqn:Hty; try (by apply leader_Prop_acts); try (apply Hleads; walk; fail);
    try (apply acting_get; destruct (t_Progress (r_prs r) !! m_From m); [|apply Hleads; walk]).
  - apply acting_then. apply acting_leads; [done|]. apply leader_AppResp_leads. auto.
  - apply acting_then, acting_leads; [done|]. apply leader_HeartbeatResp_leads.
  - apply acting_then, acting_leads; [done|]. apply leader_Unreachable_leads.
  - apply acting_then, acting_leads; [done|]. apply leader_SnapStatus_leads.
  - by apply acting_then, leader_CheckQuorum_acts.
  - apply acting_then, acting_leads; [done|]. apply leader_TransferLeader_leads.
Qed.

(** The acknowledgement a leader is given was made to it. *)
Definition ack_fact m r : Prop :=
  m_Type m = MsgAppResp → m_Reject m = false → r_state r = StateLeader →
  m_Index m ≤ log_last r ∧ (m_From m ≠ r_id r → B (m_From m) (m_Index m)).

Lemma step_acts m r :
  m_Type m ≠ MsgSnap → (m_Type m = MsgApp → app_ok m) →
  (m_Type m = MsgApp ∨ m_Type m = MsgHeartbeat → m_Term m = r_Term r) → ack_fact m r →
  ready_to_act r → r_Term r + 1 < two64 → log_last r + lenN (m_Entries m) + 2 < 9223372036854775808 →
  acting m (step m) r.
Proof.
  intros Hsn Happ Ht Hack Hr Hb Hl. unfold step. apply acting_get. destruct (r_state r) eqn:Hs.
  - apply (stepFollower_acts B B0); try done. lia.
  - apply (stepCandidate_acts B B0); try done; [by left|lia].
  - apply stepLeader_acts; [by apply Hr|lia|]. intros H1 H2. by apply Hack.
  - apply (stepCandidate_acts B B0); try done; [by right|lia].
Qed.
End Stepping.

(** ** Step *)

Section Calls.
Context `{RaftPB} {S : Type} `{!Storage S} `{!StorageLaws S}.
Implicit Types r : raft S.
Variable B : N → N → Prop.
Hypothesis B0 : ∀ id, B id 0.
Notation acting := (acting B).
Notation ready_to_act := (ready_to_act B).

(** The handling of the term either ends the call or leaves the state, or a
    follower that has said nothing. *)
Lemma step_term_acts m r :
  ready_to_act r →
  wp True (step_term m) r (λ go r1,
    if go then
      (r1 = r ∧ (m_Term m = 0 ∨ m_Term m = r_Term r ∨ m_Type m = MsgPreVote ∨ m_Type m = MsgPreVoteResp)) ∨
      (mute r r1 ∧ r_state r1 = StateFollower)
    else acts B m r r1).
Proof.
  intros Hr. unfold step_term. apply wp_bind, wp_get.
  destruct (N.eqb_spec (m_Term m) 0); [apply wp_ret; left; auto|].
  destruct (N.ltb_spec (r_Term r) (m_Term m)) as [Hlt|Hge].
  - unfold higher_term. apply wp_bind, wp_get. destruct (_ && _ && _).
    { apply wp_bind, wp_lift; [|done]. intros _ _. apply wp_ret, acts_refl, Hr. }
    apply wp_bind.
    assert (Hbf : ∀ lead, wp True (becomeFollower (m_Term m) lead) r (λ _ r1, wp True (mret true) r1 (λ go r1,
      if (go : bool) then
        (r1 = r ∧ (m_Term m = 0 ∨ m_Term m = r_Term r ∨ m_Type m = MsgPreVote ∨ m_Type m = MsgPreVoteResp)) ∨
        (mute r r1 ∧ r_state r1 = StateFollower)
      else acts B m r r1))).
    { intros lead. eapply wp_mono; [apply becomeFollower_result|]. cbn beta. intros _ r1 (Hm & Hs & _).
      apply wp_ret. by right. }
    destruct (m_Type m) eqn:Hty; try apply Hbf.
    + apply wp_ret, wp_ret. left. auto.
    + destruct (m_Reject m); [apply Hbf|]. apply wp_ret, wp_ret. left. auto.
  - destruct (N.ltb_spec (m_Term m) (r_Term r)).
    + apply wp_bind. assert (Hk : acting m (lower_term m) r) by (apply acting_frame; [walk|walk|walk|done]).
      eapply wp_mono; [exact Hk|]. cbn beta. intros _ r1 H1. by apply wp_ret.
    + apply wp_ret. left. split; [done|]. right; left. lia.
Qed.

Lemma step_vote_acts m r :
  (m_Type m = MsgVote → m_Term m ≠ 0 → m_Term m = r_Term r) → m_Type m = MsgVote ∨ m_Type m = MsgPreVote →
  ready_to_act r → acting m (step_vote m) r.
Proof.
  intros Ht Hty Hr. pose proof (ra_log _ _ Hr) as [Hv Hz]. unfold step_vote. apply acting_get.
  assert (Hrefl : acts B m r r) by apply acts_refl, Hr.
  apply wp_bind.
  assert (Hup : wp True (if can_vote r m then log_read (λ l, isUpToDate l (m_Index m) (m_LogTerm m))
      else mret false) r (λ up r1, r1 = r ∧ (up = true → good_for m (rl_log (r_raftLog r))))).
  { destruct (can_vote r m); [|done]. apply (wp_log_read _ _ _ _ _ (isUpToDate_valid _ _ _ Hv)).
    split; [done|]. by intros Hg%bool_decide_eq_true. }
  eapply wp_mono; [exact Hup|]. cbn beta. intros up r1 [-> Hgood].
  apply wp_bind, wp_lift; [|done]. intros _ _. apply wp_bind, wp_lift; [|done]. intros rt Hrt.
  assert (Hvt : is_vote_type rt = true ∧ (rt = MsgVoteResp ∧ m_Type m = MsgVote ∨ rt = MsgPreVoteResp ∧ m_Type m = MsgPreVote)).
  { destruct Hty as [E|E]; rewrite E in Hrt; cbn in Hrt; injection Hrt as <-; rewrite E; auto. }
  destruct Hvt as [Hvt Hrtm]. destruct up.
  - specialize (Hgood eq_refl). apply wp_bind. eapply wp_mono; [by apply send_vote_completes|]. cbn beta.
    intros _ r1 (Hnz & from & ->). cbn in Hnz.
    assert (Ha : acts B m r (r <| r_msgs ::= λ ms, ms ++ [(msg rt (m_From m)) <| m_Term := m_Term m |> <| m_From := from |>] |>)).
    { apply acts_msg; [done|]. unfold told. cbn. destruct Hrtm as [[-> Hmv]|[-> _]]; [right|done].
      split_and!; try done. by apply Ht. }
    assert (Hmod : ∀ r1, acts B m r r1 → acts B m r (r1 <| r_electionElapsed := 0%Z |> <| r_Vote := m_From m |>)).
    { clear. intros r1 [H1 H2 H3 H4 H5 H6 H7]. split; try done. intros Hs. destruct (H6 Hs). by split. }
    destruct (bool_decide _); cbn [when]; [|by apply wp_ret]. apply wp_modify. by apply Hmod.
  - eapply wp_mono; [by apply send_vote_completes|]. cbn beta. intros _ r1 (_ & from & ->).
    apply acts_msg; [done|]. apply told_plain. unfold plain. cbn. by destruct Hrtm as [[-> _]|[-> _]].
Qed.

(** What a call needs. *)
Record act_msg m r : Prop := {
  am_snap : m_Type m ≠ MsgSnap;
  am_app : m_Type m = MsgApp → app_ok m;
  am_lead : from_leader (m_Type m) = true → m_Term m ≠ 0;
  am_ack : m_Type m = MsgAppResp → m_Reject m = false → r_state r = StateLeader →
    m_Term m ≠ 0 ∧ (m_Term m = r_Term r → m_Index m ≤ log_last r ∧ (m_From m ≠ r_id r → B (m_From m) (m_Index m)));
  am_term : N.max (r_Term r) (m_Term m) + 1 < two64;
  am_room : log_last r + lenN (m_Entries m) + 2 < 9223372036854775808;
}.

Lemma Step_acts m r : act_msg m r → ready_to_act r → acting m (Step m) r.
Proof.
  intros [Hsn Happ Hlead Hack Hterm Hroom] Hr. unfold Step. apply wp_bind. eapply wp_mono.
  { apply wp_and; [by apply step_term_acts|apply step_term_spec]. }
  cbn beta. intros go r1 [Hgo (_ & Hb & Hsame)]. destruct go; cbn [negb]; [|by apply wp_ret].
  specialize (Hsame eq_refl).
  assert (Hr1 : mute r r1 ∧ ready_to_act r1 ∧ ack_fact B m r1).
  { destruct Hgo as [[-> Hc]|[Hm Hs]].
    - split; [reflexivity|]. split; [done|]. intros H1 H2 H3. destruct (Hack H1 H2 H3) as [Hnz Hf]. apply Hf.
      destruct Hc as [?|[?|[?|?]]]; congruence.
    - split; [done|]. split; [|intros _ _; congruence].
      apply (ready_mute _ r); [done|done|congruence|congruence]. }
  destruct Hr1 as (Hm & Hr1 & Hack1).
  assert (Hl1 : log_last r1 = log_last r) by (unfold log_last; by rewrite (mu_log _ _ Hm)).
  assert (Hb1 : r_Term r1 + 1 < two64) by lia.
  apply acting_past; [done|].
  assert (Hstep : m_Type m ≠ MsgVote → acting m (step m) r1).
  { intros _. apply (step_acts B B0); try done; [|by rewrite Hl1]. intros Ht. apply Hsame; [left; by destruct Ht as [-> | ->]|].
    apply Hlead. by destruct Ht as [-> | ->]. }
  assert (Hvote : m_Type m = MsgVote ∨ m_Type m = MsgPreVote → acting m (step_vote m;; mret (M := M (raft S)) (@None error)) r1).
  { intros Hty. apply acting_then, step_vote_acts; [|done|done]. intros Hv Hnz. apply Hsame; auto. }
  destruct (m_Type m) eqn:Hty; try (by apply Hstep).
  - apply acting_get, acting_then, (hup_acts B B0); try done; [by rewrite Hty|lia].
  - apply Hvote. by left.
  - apply Hvote. by right.
Qed.

Lemma recv_acts m r : act_msg m r → ready_to_act r → acting m (recv m) r.
Proof.
  intros Hm Hr. unfold recv. apply acting_get. destruct (_ || _); [|by apply acting_ret].
  by apply acting_then, Step_acts.
Qed.

(** A call on a message that brings in nothing. *)
Definition brings (m : Message) : bool :=
  match m_Type m with MsgApp | MsgHeartbeat | MsgVote => true | _ => false end.
Lemma acts_any m m' r r' : brings m = false → m_Type m' ≠ MsgApp → acts B m r r' → acts B m' r r'.
Proof.
  unfold brings. intros Hm Hm' [H1 H2 (new & H3 & H4) H5 H6 H7 H8]. split; try done.
  - exists new. split; [done|]. eapply Forall_impl; [exact H4|]. intros g. unfold told.
    destruct (m_Type g); try done.
    + intros [?|[?|(Ht & _)]]; [by left|by right; left|]. by rewrite Ht in Hm.
    + intros [?|(Ht & _)]; [by left|]. by rewrite Ht in Hm.
  - destruct H5 as [?|[?|(_ & _ & [(Ht & _)|(Ht & _)])]]; [by left|by right; left|..]; by rewrite Ht in Hm.
Qed.

Lemma prop_acts m r :
  m_Type m = MsgProp → N.max (r_Term r) (m_Term m) + 1 < two64 →
  log_last r + lenN (m_Entries m) + 2 < 9223372036854775808 → ready_to_act r → acting m (prop m) r.
Proof.
  intros Hm Hb Hl Hr. unfold prop. apply wp_bind, wp_gets. eapply wp_mono.
  { apply Step_acts; [|exact Hr]. by split; cbn; rewrite ?Hm. }
  cbn beta. intros _ r'. apply acts_any; [unfold brings; cbn; by rewrite Hm|by rewrite Hm].
Qed.

(** ** Ticks *)

Lemma acts_then_quiet m r r1 r' :
  acts B m r r1 → r_state r1 ≠ StateLeader → mute r1 r' → settled r1 r' → acts B m r r'.
Proof.
  intros [H1 H2 (n1 & M1 & N1) H5 H6 H7 H8] Hs [Hl Hi Hc (n2 & M2 & N2)] [Ht Hst].
  assert (Ht1 : ∀ g, told B m r1 g → told B m r' g).
  { intros g. unfold told, log_last. by rewrite Hl, Hi, Ht, Hst. }
  split; rewrite ?Hl; try congruence.
  - exists (n1 ++ n2). rewrite M2, M1, app_assoc. split; [done|]. apply Forall_app.
    split; (eapply Forall_impl; [eassumption|]); intros g; [apply Ht1|apply told_plain].
  - destruct H5 as [?|[[? _]|Ha]]; [by left|done|right; right]. unfold allowed_commit in *. by rewrite Hl, Ht, Hst.
  - intros Hm. rewrite Ht. auto.
Qed.
Lemma acts_then_frame {A} m r r1 (k : M (raft S) A) :
  acts B m r r1 → moves mute k → moves settled k → moves (leads B) k → wp True k r1 (λ _ r', acts B m r r').
Proof.
  intros Ha Hm Hs Hl. destruct (decide (r_state r1 = StateLeader)) as [Hst|Hst].
  - eapply wp_mono; [apply Hl|]. cbn beta. intros _ r'. by apply acts_then_led.
  - eapply wp_mono; [apply wp_and; [apply Hm|apply Hs]|]. cbn beta. intros _ r' [? ?]. by apply (acts_then_quiet m r r1).
Qed.

Definition tick_msg : Message := msg MsgHup 0.
Lemma local_acts t r :
  t = MsgHup ∨ t = MsgCheckQuorum → r_Term r + 1 < two64 → log_last r + 2 < 9223372036854775808 →
  ready_to_act r → acting tick_msg (local_msg t) r.
Proof.
  intros Ht Hb Hl Hr. unfold local_msg. apply wp_bind, wp_gets. eapply wp_mono.
  { apply Step_acts; [|exact Hr]. split; cbn; try (by destruct Ht as [-> | ->]).
    - by rewrite N.max_0_r.
    - unfold lenN. cbn. lia. }
  cbn beta. intros _ r'. apply acts_any; [by destruct Ht as [-> | ->]|done].
Qed.
Lemma local_beat_leads r :
  r_state r = StateLeader → wp True (local_msg MsgBeat) r (λ _ r', leads B r r').
Proof.
  intros Hs. unfold local_msg. apply wp_bind, wp_gets. unfold Step. apply wp_bind.
  unfold step_term. apply wp_bind, wp_get. set (m := (msg MsgBeat 0) <| m_From := r_id r |>).
  change (wp True (step m) r (λ _ r', leads B r r')). unfold step. apply wp_bind, wp_get. rewrite Hs.
  change (wp True (bcastHeartbeat;; mret (M := M (raft S)) (@None error)) r (λ _ r', leads B r r')).
  assert (Hk : moves (leads B) (bcastHeartbeat;; mret (M := M (raft S)) (@None error))) by walk. apply Hk.
Qed.

Lemma ready_same r r1 :
  same_core r r1 → r_prs r1 = r_prs r → ready_to_act r → mute r r1 ∧ ready_to_act r1.
Proof.
  intros Hc Hp [H1 H2 H3 H4]. pose proof (plain_same (R:=mute) r r1 Hc Hp) as Hm. split; [done|].
  assert (Hl : leads B r r1) by by apply plain_same. destruct Hc as [Hi Ht Hv Hs Hlog Hms].
  split; rewrite ?Hlog, ?Hs, ?Ht; try done. intros Hst. by apply (ld_inv _ _ _ (Hl (H2 Hst))).
Qed.

Lemma leader_timeout_acts r :
  r_Term r + 1 < two64 → log_last r + 2 < 9223372036854775808 → ready_to_act r →
  acting tick_msg leader_timeout r.
Proof.
  intros Hb Hl Hr. unfold leader_timeout. apply wp_bind, wp_modify. set (r1 := update r_electionElapsed _ _).
  destruct (ready_same r r1) as [Hm1 Hr1]; [split; reflexivity|reflexivity|done|].
  apply acting_past; [done|]. apply acting_get, wp_bind.
  assert (Hq : acting tick_msg (when (r_checkQuorum r1) (_ ← local_msg MsgCheckQuorum; mret tt)) r1).
  { destruct (r_checkQuorum r1); cbn [when]; [|by apply acting_ret]. apply acting_then, local_acts; auto. }
  eapply wp_mono; [exact Hq|]. cbn beta. intros _ r2 H2. apply (acts_then_frame _ _ r2); [done|walk..].
Qed.

Lemma tick_acts r :
  r_Term r + 2 < two64 → log_last r + 2 < 9223372036854775808 → ready_to_act r → acting tick_msg tick r.
Proof.
  intros Hb Hl Hr. unfold tick. apply acting_get. destruct (decide _) as [Hs|Hs].
  - unfold tickHeartbeat. apply wp_bind, wp_modify. set (r1 := update r_electionElapsed _ _).
    destruct (ready_same r r1) as [Hm1 Hr1]; [split; reflexivity|reflexivity|done|].
    apply acting_past; [done|]. apply acting_get, wp_bind.
    assert (Hto : acting tick_msg (when (bool_decide (r_electionTimeout r1 ≤ r_electionElapsed r1)%Z) leader_timeout) r1).
    { destruct (bool_decide _); cbn [when]; [|by apply acting_ret]. apply leader_timeout_acts; [|done|done].
      change (r_Term r1) with (r_Term r). lia. }
    eapply wp_mono; [exact Hto|]. cbn beta. intros _ r2 H2. apply wp_bind, wp_get.
    destruct (bool_decide (r_state r2 = StateLeader)) eqn:Hs2; cbn [negb]; [|done]. apply bool_decide_eq_true in Hs2.
    destruct (bool_decide (r_heartbeatTimeout r2 ≤ r_heartbeatElapsed r2)%Z); [|done]. apply wp_bind, wp_modify. set (r3 := update _ _ _).
    assert (Hl3 : leads B r2 r3) by (apply plain_same; [split; reflexivity|reflexivity]).
    apply wp_bind. eapply wp_mono; [apply local_beat_leads; exact Hs2|]. cbn beta. intros _ r4 H4. apply wp_ret.
    apply (acts_then_led _ _ _ r2); [done|done|]. by etrans.
  - unfold tickElection. apply wp_bind, wp_modify. set (r1 := update r_electionElapsed _ _).
    destruct (ready_same r r1) as [Hm1 Hr1]; [split; reflexivity|reflexivity|done|].
    apply acting_past; [done|]. apply acting_get. destruct (_ && _); [|by apply acting_ret].
    apply wp_bind, wp_modify. set (r2 := update r_electionElapsed _ r1).
    destruct (ready_same r1 r2) as [Hm2 Hr2]; [split; reflexivity|reflexivity|done|].
    apply acting_past; [done|]. apply acting_then, local_acts; [by left| |done|done].
    change (r_Term r2) with (r_Term r). lia.
Qed.

(** ** Acknowledging what was applied *)

Lemma acts_after_same m r r1 r' :
  rl_log (r_raftLog r1) = rl_log (r_raftLog r) → l_committed (r_raftLog r1) = l_committed (r_raftLog r) →
  r_id r1 = r_id r → t_Config (r_prs r1) = t_Config (r_prs r) → r_msgs r1 = r_msgs r →
  acts B m r1 r' → acts B m r r'.
Proof.
  intros Hl Hc Hi Hcf Hms [H1 H2 H3 H4 H5 H6 H7]. split; rewrite <- ?Hms, <- ?Hc, <- ?Hl; try done; congruence.
Qed.

Lemma advance_applied_acts i r :
  log_last r + 2 < 9223372036854775808 → ready_to_act r → acting tick_msg (advance_applied i) r.
Proof.
  intros Hl Hr. unfold advance_applied. apply wp_bind, wp_gets, wp_bind. unfold wp at 1. unfold log_step.
  destruct (appliedTo (r_raftLog r) i) as [l'|] eqn:Ha; [|done]. cbn [mbind outcome_bind].
  set (r1 := r <| r_raftLog := l' |>).
  assert (Hf : rl_log l' = rl_log (r_raftLog r) ∧ l_committed l' = l_committed (r_raftLog r) ∧ log_inv l' ∧
    log_snapshot l' = log_snapshot (r_raftLog r)).
  { pose proof (ra_log _ _ Hr) as [Hv Hz]. revert Ha. unfold appliedTo. destruct (i =? 0); [by intros [= <-]|].
    destruct (N.ltb_spec (l_committed (r_raftLog r)) i); [done|]. destruct (i <? _); [done|]. intros [= <-].
    split_and!; try done. split; [|done]. destruct Hv. by split. }
  destruct Hf as (Hlog & Hcm & Hi1 & Hsn).
  assert (Hsnl : snap_low l') by (intros s; rewrite Hsn, Hlog; apply (ra_snap _ _ Hr)).
  assert (Hr1 : ready_to_act r1).
  { split; [done| |by apply Hr|done]. intros Hs. destruct (ra_lead _ _ Hr Hs) as [I1 I2 I3 I4 I5]. split; try done.
    intros id pr Hp. unfold log_last. cbn. rewrite Hlog. by apply I4. }
  assert (Hk : acting tick_msg (x ← get; when (AutoLeave (t_Config (r_prs x)) && (l_applied (r_raftLog r) <=? r_pendingConfIndex x) &&
      (r_pendingConfIndex x <=? i) && bool_decide (r_state x = StateLeader)) auto_leave) r1).
  { apply acting_get. destruct (bool_decide (r_state r1 = StateLeader)) eqn:Hs; [|rewrite andb_false_r; by apply acting_ret].
    apply bool_decide_eq_true in Hs. rewrite andb_true_r. destruct (_ && _); [|by apply acting_ret].
    cbn [when]. unfold auto_leave. pose proof (ra_lead _ _ Hr1 Hs) as Hi2. apply wp_bind. eapply wp_mono.
    { apply (appendEntry_acts B tick_msg _ r1); [done|done|done|]. unfold log_last in *. cbn. rewrite Hlog.
      unfold lenN. cbn. lia. }
    cbn beta. intros ok r2 [H2 S2]. destruct ok; cbn [negb]; [|by apply wp_panic].
    apply (acts_then_frame _ _ r2); [done|walk_mute..]. }
  eapply wp_mono; [exact Hk|]. cbn beta. intros _ r'. by apply acts_after_same.
Qed.
End Calls.

(** ** Properties *)

#[local] Existing Instance ex_pb.


