(* ===== verification/RaftLiveness.v ===== *)
(** * Election timeouts

    [tick] is the only clock of a node.  A node that is not the leader and hears
    nothing counts its ticks, and campaigns when they reach its randomized
    election timeout: it becomes a candidate (or a pre-candidate) and asks every
    other voter for its vote. *)

From S2P Require Import Prelude Pb Quorum Inflights Progress Tracker Confchange Peers.
From S2P Require Import Util Storage Unstable RaftLog ReadOnly Raft.
From S2P Require Import RaftFrame RaftSafety RaftElection RaftInvariant RaftTotal.

(** The number of ticks, without anything else happening. *)
Fixpoint ticks `{RaftPB} {S} `{Storage S} (n : nat) : M (raft S) unit :=
  match n with
  | O => mret tt
  | Datatypes.S n => tick;; ticks n
  end.

Section Campaign.
Context `{RaftPB} {S : Type} `{!Storage S} `{!StorageLaws S}.
Implicit Types r : raft S.

(** The node [id] was asked for its vote in the term [term]. *)
Definition asked (vm : MessageType) (term id : N) r : Prop :=
  ∃ m, m ∈ r_msgs r ∧ m_To m = id ∧ m_From m = r_id r ∧ m_Type m = vm ∧ m_Term m = term.

(** What [campaign] leaves when the node's own vote does not decide. *)
Record soliciting (pre : bool) r r' : Prop := {
  so_state : r_state r' = if pre then StatePreCandidate else StateCandidate;
  so_term : r_Term r' = if pre then r_Term r else r_Term r +u 1;
  so_asked : ∀ id, id ∈ IDs (Voters (t_Config (r_prs r))) → id ≠ r_id r →
    asked (if pre then MsgPreVote else MsgVote) (r_Term r +u 1) id r';
}.

(** Vote requests only add messages. *)
Record adds_messages r r' : Prop := {
  am_id : r_id r' = r_id r;
  am_state : r_state r' = r_state r;
  am_term : r_Term r' = r_Term r;
  am_config : t_Config (r_prs r') = t_Config (r_prs r);
  am_msgs : ∃ ms, r_msgs r' = r_msgs r ++ ms;
}.
#[export] Instance adds_messages_preorder : PreOrder adds_messages.
Proof.
  split; [split; try done; exists []; by rewrite app_nil_r|].
  intros a b c [? ? ? ? [x Hx]] [? ? ? ? [y Hy]]. split; try congruence.
  exists (x ++ y). by rewrite Hy, Hx, app_assoc.
Qed.

Lemma asked_still vm term id r r' : adds_messages r r' → asked vm term id r → asked vm term id r'.
Proof.
  intros Ha (m & Hm & ? & ? & ?). destruct Ha as [Hid _ _ _ [ms Hms]]. exists m.
  rewrite Hid, Hms. split; [|done]. apply elem_of_app. by left.
Qed.

Lemma request_vote_asks t vm term id r :
  vm = MsgVote ∨ vm = MsgPreVote →
  wp True (request_vote t vm term id) r (λ _ r', adds_messages r r' ∧ asked vm term id r').
Proof.
  intros Hvm. unfold request_vote. apply wp_bind, wp_lift; [|done]. intros last _.
  apply wp_bind, wp_lift; [|done]. intros lt _. unfold send. apply wp_bind, wp_get. cbn.
  assert (Hv : is_vote_type vm = true) by (by destruct Hvm as [-> | ->]). rewrite Hv.
  destruct (_ =? 0); [by apply wp_panic|]. apply wp_modify. split.
  - split; try done. cbn. by eexists.
  - unfold asked. cbn. eexists. split; [apply elem_of_app; right; by left|]. done.
Qed.

Lemma requests_ask ids self t vm term r :
  vm = MsgVote ∨ vm = MsgPreVote →
  wp True (forM ids (λ id, if id =? self then mret tt else request_vote t vm term id)) r
    (λ _ r', adds_messages r r' ∧ ∀ id, id ∈ ids → id ≠ self → asked vm term id r').
Proof.
  intros Hvm. revert r. induction ids as [|id ids IH]; intros r; cbn [forM].
  { apply wp_ret. split; [done|]. intros id Hid. by apply elem_of_nil in Hid. }
  apply wp_bind, (wp_mono _ _ _ (λ _ r1, adds_messages r r1 ∧ (id ≠ self → asked vm term id r1))).
  { destruct (N.eqb_spec id self); [by apply wp_ret|].
    eapply wp_mono; [by apply request_vote_asks|]. cbn beta. by intros _ r1 []. }
  intros _ r1 [Ha1 Hid1]. eapply wp_mono; [apply IH|]. cbn beta. intros _ r2 [Ha2 Hids].
  split; [by etrans|]. intros i [->|Hi]%elem_of_cons Hne; [|by apply Hids].
  eapply asked_still; [exact Ha2|]. by apply Hid1.
Qed.

(** The step to the new role of [campaign]. *)
Lemma campaign_role (pre : bool) r :
  wp True (if pre then becomePreCandidate else becomeCandidate) r (λ _ r1,
    same_config r r1 ∧ t_Votes (r_prs r1) = ∅ ∧
    r_state r1 = (if pre then StatePreCandidate else StateCandidate) ∧
    r_Term r1 = (if pre then r_Term r else r_Term r +u 1)).
Proof.
  destruct pre.
  - unfold becomePreCandidate. apply wp_bind, wp_get. destruct (decide _); [by apply wp_panic|].
    apply wp_modify. by split_and!.
  - assert (Ht : wp True becomeCandidate r (λ _ r1, r_Term r1 = r_Term r +u 1)).
    { unfold becomeCandidate. apply wp_bind, wp_get. destruct (decide _); [by apply wp_panic|].
      apply wp_bind. eapply wp_mono; [apply reset_spec|]. cbn beta. intros _ r1 Hq. apply wp_modify.
      change (r_Term r1 = r_Term r +u 1). rewrite (q_term _ _ Hq). unfold settle.
      by destruct (N.eqb_spec (r_Term r) (r_Term r +u 1)). }
    eapply wp_mono; [apply wp_and; [apply becomeCandidate_votes|exact Ht]|].
    cbn beta. intros _ r1 [(? & ? & ?) ?]. by split_and!.
Qed.

Lemma campaign_with_asks after t r :
  ¬ elected_alone r →
  wp True (campaign_with after t) r (λ _, soliciting (bool_decide (t = campaignPreElection)) r).
Proof.
  intros Halone. unfold campaign_with. apply wp_bind. eapply wp_mono; [apply campaign_role|]. cbn beta.
  set (pre := bool_decide _). intros _ r1 (Hc & Hv & Hs & Ht). apply wp_bind, wp_get, wp_bind.
  unfold poll. apply wp_bind, wp_modify, wp_gets.
  assert (Hrec : RecordVote (r_prs r1) (r_id r1) true = (r_prs r1) <| t_Votes := {[r_id r1 := true]} |>).
  { unfold RecordVote. rewrite Hv, lookup_empty. destruct (r_prs r1). cbn in Hv. by subst. }
  cbn [r_prs update upd_r_prs]. rewrite Hrec. set (r2 := update r_prs _ r1).
  destruct (TallyVotes _) as [[g rj] res] eqn:Htally. apply TallyVotes_result in Htally.
  destruct (decide (res = VoteWon)) as [->|_].
  { destruct Halone. by apply (elected_alone_config r r1). }
  assert (H2 : adds_messages r1 r2) by (split; cbn; [done|done|done|by rewrite Hrec|exists []; by rewrite app_nil_r]).
  apply wp_bind, wp_gets. eapply wp_mono; [apply requests_ask; destruct pre; auto|]. cbn beta.
  intros _ r3 [Ha Hasked]. assert (Ha1 : adds_messages r1 r3) by (by transitivity r2).
  split.
  - by rewrite (am_state _ _ Ha1).
  - by rewrite (am_term _ _ Ha1).
  - intros id Hid Hne.
    assert (Hterm : (if pre then r_Term r1 +u 1 else r_Term r1) = r_Term r +u 1).
    { rewrite Ht. by destruct pre. }
    rewrite <- Hterm. apply Hasked.
    + rewrite insertionSort_perm. apply elem_of_elements. by rewrite (am_config _ _ H2), (sc_config _ _ Hc).
    + by rewrite (sc_id _ _ Hc).
Qed.
End Campaign.

Section Timeouts.
Context `{RaftPB} {S : Type} `{!Storage S} `{!StorageLaws S}.
Implicit Types r : raft S.

(** The node after [n] ticks that only counted. *)
Definition waited (n : nat) r : raft S := r <| r_electionElapsed ::= λ e, (e + Z.of_nat n)%Z |>.

Lemma waited_0 r : waited 0 r = r.
Proof.
  destruct r. unfold waited, update, upd_r_electionElapsed. cbn -[Z.add Z.of_nat].
  by replace (r_electionElapsed + Z.of_nat 0)%Z with r_electionElapsed by lia.
Qed.

(** A tick before the timeout. *)
Lemma tick_waits r :
  r_state r ≠ StateLeader → (0 ≤ r_electionElapsed r)%Z →
  (r_electionElapsed r + 1 < r_randomizedElectionTimeout r < two63z)%Z →
  tick r = Ok (tt, waited 1 r).
Proof.
  intros Hst H0 Hlt. unfold tick, mbind, M_bind, get. destruct (decide _); [done|].
  unfold tickElection, mbind, M_bind, modify, get. set (r1 := update r_electionElapsed _ r).
  assert (Hr1 : r1 = waited 1 r).
  { subst r1. unfold waited, update, upd_r_electionElapsed. rewrite i64_small by (unfold two63z in *; lia). done. }
  rewrite Hr1. clear r1 Hr1. unfold pastElectionTimeout. cbn.
  rewrite bool_decide_eq_false_2 by lia. by rewrite andb_false_r.
Qed.

Lemma ticks_wait n r :
  r_state r ≠ StateLeader → (0 ≤ r_electionElapsed r)%Z →
  (r_electionElapsed r + Z.of_nat n < r_randomizedElectionTimeout r < two63z)%Z →
  ticks n r = Ok (tt, waited n r).
Proof.
  revert r. induction n as [|n IH]; intros r Hst H0 Hlt; cbn [ticks]; [by rewrite waited_0|].
  unfold mbind, M_bind. rewrite tick_waits by (done || lia). rewrite IH; [|done|cbn; lia..].
  unfold waited, update, upd_r_electionElapsed. destruct r. cbn -[Z.add Z.of_nat]. by replace (r_electionElapsed + Z.of_nat 1 + Z.of_nat n)%Z
    with (r_electionElapsed + Z.of_nat (Datatypes.S n))%Z by lia.
Qed.

Lemma ticks_app n m r r' : ticks n r = Ok (tt, r') → ticks (n + m) r = ticks m r'.
Proof.
  revert r. induction n as [|n IH]; intros r; cbn [ticks Nat.add]; [by intros [= ->]|].
  unfold mbind, M_bind. destruct (tick r) as [[[] r1]|]; [|done]. apply IH.
Qed.

(** No committed configuration change waits to be applied. *)
Definition conf_settled r : Prop :=
  let l := r_raftLog r in
  l_applied l < l_committed l →
  numOfPendingConf (limitSize (lg_slice (rl_log l) (l_applied l + 1) (l_committed l + 1)) noLimit) = 0%nat.

(** The campaign of [MsgHup]. *)
Lemma hup_asks t r :
  raft_ok r → promotable r = true → conf_settled r → r_state r ≠ StateLeader → ¬ elected_alone r →
  wp True (hup t) r (λ _, soliciting (bool_decide (t = campaignPreElection)) r).
Proof.
  intros Hr Hp Ha Hst Halone. unfold hup. apply wp_bind, wp_get. destruct (decide _); [done|].
  rewrite Hp. cbn [negb]. destruct (ok_log _ Hr) as [[Hv Hz] Hre _].
  assert (Hps : hasPendingSnapshot (r_raftLog r) = false).
  { unfold promotable in Hp. destruct (t_Progress (r_prs r) !! r_id r); [|done].
    by apply andb_prop in Hp as [_ ?%negb_true_iff]. }
  specialize (Hre Hps). pose proof (rv_committed _ Hv). pose proof (rv_applied _ Hv).
  pose proof (log_last_small _ Hv). apply wp_bind. eapply wp_log_read.
  { rewrite log_slice_valid; [reflexivity|done|..]; nowrap; lia. }
  cbv beta. assert (Hno : negb (numOfPendingConf (limitSize (lg_slice (rl_log (r_raftLog r))
    (l_applied (r_raftLog r) +u 1) (l_committed (r_raftLog r) +u 1)) noLimit) =? 0)%nat &&
    (l_applied (r_raftLog r) <? l_committed (r_raftLog r)) = false).
  { destruct (N.ltb_spec (l_applied (r_raftLog r)) (l_committed (r_raftLog r))) as [Hlt|];
      [|by rewrite andb_false_r]. nowrap. by rewrite (Ha Hlt). }
  rewrite Hno. by apply campaign_with_asks.
Qed.

(** The tick that reaches the timeout. *)
Lemma tick_asks r :
  raft_ok r → promotable r = true → conf_settled r →
  r_state r ≠ StateLeader → ¬ elected_alone r → (0 ≤ r_electionElapsed r)%Z →
  (r_electionElapsed r + 1 = r_randomizedElectionTimeout r)%Z → (r_randomizedElectionTimeout r < two63z)%Z →
  wp True tick r (λ _, soliciting (r_preVote r) r).
Proof.
  intros Hr Hp Ha Hst Halone H0 Heq Hb. unfold tick. apply wp_bind, wp_get. destruct (decide _); [done|].
  unfold tickElection. apply wp_bind, wp_modify, wp_bind, wp_get.
  set (r1 := update r_electionElapsed _ r). assert (Hpast : promotable r1 && pastElectionTimeout r1 = true).
  { change (promotable r1) with (promotable r). rewrite Hp. unfold pastElectionTimeout. cbn.
    rewrite i64_small by (unfold two63z in *; lia). apply bool_decide_eq_true_2. lia. }
  rewrite Hpast. apply wp_bind, wp_modify, wp_bind. set (r2 := update r_electionElapsed _ r1).
  unfold local_msg. apply wp_bind, wp_gets. unfold Step.
  apply wp_bind, (wp_mono _ _ _ (λ go r', go = true ∧ r' = r2)); [by apply wp_bind, wp_get|].
  intros go ? [-> ->]. cbn [negb m_Type msg update upd_m_From]. apply wp_bind, wp_get, wp_bind.
  assert (Hd : bool_decide ((if r_preVote r then campaignPreElection else campaignElection) = campaignPreElection)
               = r_preVote r) by (by destruct (r_preVote r)).
  assert (Hr2 : raft_ok r2) by (apply (same_ok_ok r r2); [split; reflexivity|done]).
  eapply wp_mono; [by apply (hup_asks _ r2)|]. cbn beta. intros _ r3. change (r_preVote r2) with (r_preVote r).
  rewrite Hd. intros [Hs Ht Hask]. apply wp_ret, wp_ret. by split.
Qed.
End Timeouts.

(** ** Properties *)

(** C11: A node that hears nothing campaigns when its election timeout is reached: the
    ticks before only count, and the last one makes it a candidate of the next
    term, or with pre-vote a pre-candidate of its term, that has asked every other
    voter for its vote; the node stays well-formed. *)
Theorem election_timeout_fires `{RaftPB} {S} `{!Storage S} `{!StorageLaws S} (n : nat) (r : raft S) :
  (∀ cs, ConfState_Equivalent cs cs = None) → raft_ok r →
  r_Term r + 2 < two64 → lg_last (rl_log (r_raftLog r)) + 2 < 9223372036854775808 →
  promotable r = true → conf_settled r → r_state r ≠ StateLeader → ¬ elected_alone r →
  (0 ≤ r_electionElapsed r)%Z →
  (r_electionElapsed r + Z.of_nat n + 1 = r_randomizedElectionTimeout r)%Z → (r_randomizedElectionTimeout r < two63z)%Z →
  (∀ k, (k ≤ n)%nat → ticks k r = Ok (tt, waited k r)) ∧
  ∃ r', ticks (n + 1) r = Ok (tt, r') ∧ soliciting (r_preVote r) r r' ∧ raft_ok r'.
Proof.
  intros Heq Hr Ht Hl Hp Ha Hst Halone H0 Hn Hb.
  assert (Hw : ∀ k, (k ≤ n)%nat → ticks k r = Ok (tt, waited k r)) by (intros k Hk; apply ticks_wait; [done|lia..]).
  split; [exact Hw|]. specialize (Hw n ltac:(lia)). rewrite (ticks_app _ _ _ _ Hw).
  assert (Hok : raft_ok (waited n r)) by (apply (same_ok_ok r (waited n r)); [split; reflexivity|done]).
  assert (Hfire : wp False tick (waited n r) (λ _ r', raft_ok r' ∧ soliciting (r_preVote r) (waited n r) r')).
  { apply wp_also; [by apply tick_returns|]. apply (tick_asks (waited n r)); try done; cbn; lia. }
  apply wp_total in Hfire as ([] & r' & Hfire & Hr' & [Hs Htm Hask]). exists r'.
  split; [cbn [ticks]; unfold mbind, M_bind; by rewrite Hfire|]. split; [by split|done].
Qed.

#[local] Existing Instance ex_pb.

(** The node of the examples counts 16 ticks; with the 17th it asks nodes 2 and 3
    for their votes in term 3. *)
Lemma election_timeout_fires_witness :
  ticks 16 ex_raft = Ok (tt, waited 16 ex_raft) ∧
  ∃ r', ticks 17 ex_raft = Ok (tt, r') ∧ r_state r' = StateCandidate ∧ r_Term r' = 3 ∧
    asked MsgVote 3 2 r' ∧ asked MsgVote 3 3 r'.
Proof.
  destruct (election_timeout_fires 16 ex_raft) as [Hw (r' & Hr' & [Hs Ht Ha] & _)].
  - exact ex_equivalent.
  - exact ex_raft_ok.
  - vm_compute. reflexivity.
  - vm_compute. reflexivity.
  - vm_compute. reflexivity.
  - intros _. vm_compute. reflexivity.
  - vm_compute. discriminate.
  - intros E. vm_compute in E. discriminate E.
  - vm_compute. discriminate.
  - vm_compute. reflexivity.
  - vm_compute. reflexivity.
  - split; [apply Hw; lia|]. exists r'. split; [exact Hr'|].
    assert (Hp : r_preVote ex_raft = false ∧ r_Term ex_raft +u 1 = 3) by (split; vm_compute; reflexivity).
    destruct Hp as [Hp H3]. rewrite Hp in Hs, Ht, Ha. rewrite H3 in Ht, Ha.
    split; [exact Hs|]. split; [exact Ht|].
    split; (apply Ha; [vm_decide|vm_compute; discriminate]).
Defined.
