(* ===== verification/Runs.v ===== *)
(** * A node that is saved and restarted

    The guarantee that matters to a cluster is about what a node sends over its
    whole life, crashes included.  A [world] is a user of a [RawNode] (file Node)
    that follows the contract of [Ready]: it saves the hard state, the snapshot
    and the entries before it sends the messages, and acknowledges after that.  A
    crash may happen at any point; only the storage survives it.  [world_step] lists
    what can happen, and [vote_inv] is the invariant that makes the votes sent in
    one term all go to the same candidate. *)

From S2P Require Import Prelude Pb Quorum Inflights Progress Tracker Confchange.
From S2P Require Import Util Storage Unstable RaftLog ReadOnly Raft RawNode Node.
From S2P Require Import RaftFrame RaftSafety.

(** ** The world *)

Record world := MkWorld {
  w_user : user MemoryStorage;
  w_saved : bool;
  w_sent : list Message;
}.

Section World.
Context `{RaftPB}.

Definition w_raft (w : world) : raft MemoryStorage := rn_raft (us_rn (w_user w)).
Definition w_storage (w : world) : MemoryStorage := l_storage (r_raftLog (w_raft w)).

(** What the contract tells to write for a [Ready]. *)
Definition save_ready (rd : Ready) (st : MemoryStorage) : outcome (result MemoryStorage) :=
  let st := if IsEmptyHardState (rd_HardState rd) then st else SetHardState st (rd_HardState rd) in
  if IsEmptySnap (rd_Snapshot rd) then st ← Append st (rd_Entries rd); Ok (Val st)
  else match ApplySnapshot st (rd_Snapshot rd) with
       | Err e => Ok (Err e)
       | Val st => st ← Append st (rd_Entries rd); Ok (Val st)
       end.

(** The calls made between two acknowledgements, on messages that are [sane] and
    while the term is away from the end of its range.  A received message need not
    be genuine.  [insane_heartbeat] shows that [sane] is needed: a message that
    lowers the term makes room for a second vote in a term. *)
Definition admissible (w : world) (a : use) : Prop :=
  match a with
  | UProp m => m_Type m = MsgProp ∧ N.max (r_Term (w_raft w)) (m_Term m) + 1 < two64
  | URecv m => sane m ∧ N.max (r_Term (w_raft w)) (m_Term m) + 1 < two64
  | UTick => r_Term (w_raft w) + 2 < two64
  | UApply _ | UOffer => True
  | UAccept _ | UAdvance | UWrite => False
  end.

(** The events of a node's life. *)
Inductive event := EUse (a : use) | EAccept (rd : Ready) | ESave | ESend | EAdvance | ERestart.

Inductive world_step : world → event → world → Prop :=
| step_use w a u :
    admissible w a → uses1 (w_user w) a u → world_step w (EUse a) (MkWorld u (w_saved w) (w_sent w))
| step_accept w rd u :
    uses1 (w_user w) (UAccept rd) u → world_step w (EAccept rd) (MkWorld u false (w_sent w))
| step_save w rd st rn :
    us_pending (w_user w) = Some rd → w_saved w = false →
    save_ready rd (w_storage w) = Ok (Val st) →
    write_storage st (us_rn (w_user w)) = Ok (tt, rn) →
    world_step w ESave (MkWorld (MkUser rn (us_offered (w_user w)) (Some rd)) true (w_sent w))
| step_send w rd :
    us_pending (w_user w) = Some rd → w_saved w = true →
    world_step w ESend (MkWorld (w_user w) true (w_sent w ++ rd_Messages rd))
| step_advance w u :
    w_saved w = true → uses1 (w_user w) UAdvance u → world_step w EAdvance (MkWorld u false (w_sent w))
| step_restart w rand c rn :
    c_Storage c = Some (w_storage w) → NewRawNode rand c = Ok rn →
    world_step w ERestart (MkWorld (MkUser rn None None) false (w_sent w)).

Inductive world_steps : world → world → Prop :=
| steps_refl w : world_steps w w
| steps_snoc w w1 ev w2 : world_steps w w1 → world_step w1 ev w2 → world_steps w w2.

(** A node started on some storage, with nothing sent. *)
Definition initial (w : world) : Prop :=
  ∃ rand c st rn, c_Storage c = Some st ∧ NewRawNode rand c = Ok rn ∧
    w = MkWorld (MkUser rn None None) false [].
End World.

(** ** Ballots *)

(** A term and the vote cast in it. *)
Definition ballot : Type := N * N.
Definition ballot_le (b b' : ballot) : Prop :=
  b.1 ≤ b'.1 ∧ (b'.1 = b.1 → b.2 ≠ None_id → b'.2 = b.2).
#[export] Instance ballot_le_preorder : PreOrder ballot_le.
Proof.
  split; [by intros ?|]. intros a b c [H1 H2] [H3 H4]. split; [lia|]. intros He Hv.
  assert (Hb : b.2 = a.2) by (apply H2; [lia|done]). rewrite H4; [done|lia|by rewrite Hb].
Qed.

Definition hs_ballot (hs : HardState) : ballot := (hs_Term hs, hs_Vote hs).
Definition r_ballot {S} (r : raft S) : ballot := (r_Term r, r_Vote r).

(** The granted votes of [ms] are covered by a ballot, and those of one term go
    to one candidate. *)
Definition casts (b : ballot) (ms : list Message) : Prop :=
  ∀ g, g ∈ ms → grants g = true →
    m_Term g ≤ b.1 ∧ (m_Term g = b.1 → m_To g = b.2 ∧ b.2 ≠ None_id).
Definition single (ms : list Message) : Prop :=
  ∀ g h, g ∈ ms → h ∈ ms → grants g = true → grants h = true →
    m_Term g = m_Term h → m_To g = m_To h.

Lemma casts_mono b b' ms : ballot_le b b' → casts b ms → casts b' ms.
Proof.
  intros [Ht Hv] Hc g Hg Hgr. destruct (Hc g Hg Hgr) as [H1 H2]. split; [lia|].
  intros He. destruct H2 as [H3 H4]; [lia|]. rewrite Hv; [done|lia|done].
Qed.
Lemma casts_sub b ms ms' : ms ⊆ ms' → casts b ms' → casts b ms.
Proof. intros Hs Hc g Hg. by apply Hc, Hs. Qed.
Lemma single_sub ms ms' : ms ⊆ ms' → single ms' → single ms.
Proof. intros Hs Hc g h Hg Hh. apply Hc; by apply Hs. Qed.

Lemma casts_app b ms ms' : casts b (ms ++ ms') ↔ casts b ms ∧ casts b ms'.
Proof.
  unfold casts. setoid_rewrite elem_of_app. split.
  - intros Hc. split; intros g Hg; apply Hc; auto.
  - intros [H1 H2] g [Hg|Hg]; auto.
Qed.

(** New votes that are covered strictly, all for the ballot's candidate. *)
Lemma single_more b b' ms new :
  ballot_le b b' → casts b ms → single ms →
  (∀ g, g ∈ new → grants g = true → m_Term g = b'.1 ∧ m_To g = b'.2 ∧ b'.2 ≠ None_id) →
  casts b' (ms ++ new) ∧ single (ms ++ new).
Proof.
  intros Hb Hc Hs Hn. pose proof (casts_mono _ _ _ Hb Hc) as Hc'. split.
  - apply casts_app. split; [done|]. intros g Hg Hgr. destruct (Hn g Hg Hgr) as (-> & -> & ?). auto.
  - assert (Hon : ∀ g h, g ∈ ms → h ∈ new → grants g = true → grants h = true →
      m_Term g = m_Term h → m_To g = m_To h).
    { intros g h Hg Hh Hgg Hgh He. destruct (Hn h Hh Hgh) as (Ht & -> & _).
      destruct (Hc' g Hg Hgg) as [_ H2]. apply H2. congruence. }
    intros g h [Hg|Hg]%elem_of_app [Hh|Hh]%elem_of_app Hgg Hgh He.
    + by apply Hs.
    + by apply Hon.
    + symmetry. by apply Hon.
    + destruct (Hn g Hg Hgg) as (_ & -> & _). by destruct (Hn h Hh Hgh) as (_ & -> & _).
Qed.

(** ** What keeps the ballot *)

Record votes_kept {S} (r r' : raft S) : Prop := {
  vk_ballot : r_ballot r' = r_ballot r;
  vk_storage : l_storage (r_raftLog r') = l_storage (r_raftLog r);
  vk_msgs : quiet_msgs (r_msgs r) (r_msgs r');
}.

#[export] Instance votes_kept_preorder {S} : PreOrder (@votes_kept S).
Proof.
  split.
  - intros r. by split.
  - intros a b c [] []. split; [congruence|congruence|by etrans].
Qed.

Lemma quiet_votes {S} (r r' : raft S) : quiet r r' → votes_kept r r'.
Proof. intros []. split; [unfold r_ballot; congruence|done..]. Qed.

Section Kept.
Context `{RaftPB} {S : Type} `{Storage S}.
Implicit Types r : raft S.
Notation V := (moves (@votes_kept S)).

Lemma quiet_moves_votes {A} (m : M (raft S) A) : moves quiet m → V m.
Proof. intros Hm r. eapply wp_mono; [apply Hm|]. cbn. intros a r'. apply quiet_votes. Qed.

#[export] Instance votes_kept_frame : Frame (@votes_kept S).
Proof.
  apply mk_frame; [exact _| | | |].
  - intros r r' Hc. by apply quiet_votes, frame_core.
  - intros r m Hg. by apply quiet_votes, quiet_send.
  - intros i t. apply quiet_moves_votes, frame_maybeCommit.
  - intros i. apply quiet_moves_votes, frame_commitTo.
Qed.

(** A log method that keeps the storage. *)
Lemma log_step_votes {A} (f : raftLog S → outcome (A * raftLog S)) :
  (∀ l a l', f l = Ok (a, l') → l_storage l' = l_storage l) → V (log_step f).
Proof.
  intros Hf r. unfold wp, log_step. destruct (f (r_raftLog r)) as [[a l]|] eqn:E; [|done].
  split; cbn; [done|by apply Hf in E|reflexivity].
Qed.
Lemma appliedTo_votes i : V (log_step (λ l, l' ← appliedTo l i; Ok (tt, l'))).
Proof.
  apply log_step_votes. intros l a l'. unfold appliedTo.
  destruct (i =? 0); [by intros [= <- <-]|]. destruct (_ || _); [done|]. by intros [= <- <-].
Qed.
Lemma stableTo_votes i t : V (log_step (λ l, l' ← stableTo l i t; Ok (tt, l'))).
Proof.
  apply log_step_votes. intros l a l'. unfold stableTo.
  destruct (u_stableTo _ _ _); [|done]. by intros [= <- <-].
Qed.
Lemma stableSnapTo_votes i : V (log_step (λ l, Ok (tt, stableSnapTo l i))).
Proof. apply log_step_votes. by intros l a l' [= <- <-]. Qed.
#[local] Hint Resolve appliedTo_votes stableTo_votes stableSnapTo_votes : moves.

Lemma auto_leave_votes : V auto_leave.
Proof. unfold auto_leave. walk. apply quiet_moves_votes, appendEntry_quiet. Qed.
#[local] Hint Resolve auto_leave_votes : moves.
Lemma advance_applied_votes i : V (advance_applied i).
Proof. unfold advance_applied. walk. Qed.
#[local] Hint Resolve advance_applied_votes : moves.
Lemma advance_votes rd : V (advance rd).
Proof. unfold advance. walk. Qed.

(** A node starts from the ballot that was stored, with nothing to send. *)
Lemma newRaft_ballot rand (c : raft_Config S) r :
  newRaft rand c = Ok r →
  ∃ st hs cs, c_Storage c = Some st ∧ InitialState st = Ok (Val (hs, cs)) ∧
    r_ballot r = hs_ballot hs ∧ l_storage (r_raftLog r) = st ∧
    Forall (λ m, grants m = false) (r_msgs r).
Proof.
  unfold newRaft. destruct (validate c) as [c'|] eqn:Hval; [|done].
  assert (Hst : c_Storage c' = c_Storage c).
  { revert Hval. unfold validate. repeat case_match; intros [=]; subst; done. }
  rewrite Hst. destruct (c_Storage c) as [st|]; [|done].
  destruct (newLogWithSize _ _) as [l|] eqn:Hl; [|done]. cbn [mbind outcome_bind].
  assert (Hls : l_storage l = st).
  { revert Hl. unfold newLogWithSize. destruct (must (FirstIndex st)); [|done].
    cbn [mbind outcome_bind]. destruct (must (LastIndex st)); [|done].
    cbn [mbind outcome_bind]. by intros [= <-]. }
  destruct (InitialState st) as [[[hs cs]|]|] eqn:Hi; [|done..]. cbn [must mbind outcome_bind].
  set (r0 := MkRaft _ _ _ _ _ _ _ _ _ _ _ _ _ _ _ _ _ _ _ _ _ _ _ _ _ _ _).
  match goal with |- context [mbind ?f (?m r0)] => set (body := m) end.
  intros Hr. exists st, hs, cs. split; [done|]. split; [done|].
  assert (Hw : wp True body r0 (λ _ r', r_ballot r' = hs_ballot hs ∧
    l_storage (r_raftLog r') = st ∧ quiet_msgs [] (r_msgs r'))).
  { unfold body. apply wp_bind. eapply wp_mono; [apply (restore_config_frame votes_kept)|].
    cbn beta. intros _ r1 [Hb1 Hs1 Hm1]. apply wp_bind.
    assert (Hls2 : wp True (when (negb (IsEmptyHardState hs)) (loadState hs)) r1 (λ _ r2,
      r_ballot r2 = hs_ballot hs ∧ l_storage (r_raftLog r2) = st ∧ quiet_msgs [] (r_msgs r2))).
    { assert (Hs0 : l_storage (r_raftLog r1) = st) by (by rewrite Hs1).
      destruct (IsEmptyHardState hs) eqn:He; cbn [negb when].
      - apply wp_ret. split; [|done]. rewrite Hb1. destruct hs as [t v cm].
        unfold IsEmptyHardState, isHardStateEqual in He. cbn in He.
        by apply andb_prop in He as [[->%N.eqb_eq ->%N.eqb_eq]%andb_prop _].
      - unfold loadState. apply wp_bind, wp_lift; [|done]. intros last _. apply wp_bind, wp_get.
        destruct (_ || _); [by apply wp_panic|]. apply wp_modify. cbn. by split_and!. }
    eapply wp_mono; [exact Hls2|]. cbn beta. intros _ r2 (Hb2 & Hs2 & Hm2).
    apply wp_bind.
    match goal with |- wp True ?m r2 _ => assert (Hm : V m) by walk end.
    eapply wp_mono; [apply Hm|]. cbn beta. intros _ r3 [Hb3 Hs3 Hm3].
    apply wp_bind, wp_get, wp_bind. eapply wp_mono; [apply becomeFollower_spec|]. cbn beta.
    intros _ r4 Hq. unfold settle in Hq. rewrite N.eqb_refl in Hq.
    apply quiet_votes in Hq as [Hb4 Hs4 Hm4].
    apply wp_bind, wp_lift; [|done]. intros _ _. apply wp_ret.
    split_and!; [congruence|congruence|]. etrans; [exact Hm2|]. by etrans. }
  unfold wp in Hw. destruct (body r0) as [[[] r']|]; [|done]. injection Hr as <-.
  destruct Hw as (? & ? & (new & -> & Hn)). by split_and!.
Qed.
End Kept.

(** ** The invariant *)

(** What one call may do to the ballot and the outgoing votes. *)
Record vote_moves {S} (r r' : raft S) : Prop := {
  vm_ballot : ballot_le (r_ballot r) (r_ballot r');
  vm_storage : l_storage (r_raftLog r') = l_storage (r_raftLog r);
  vm_msgs : ∃ new, r_msgs r' = r_msgs r ++ new ∧
    ∀ g, g ∈ new → grants g = true →
      m_Term g = r_Term r' ∧ m_To g = r_Vote r' ∧ r_Vote r' ≠ None_id;
}.

Lemma votes_kept_moves {S} (r r' : raft S) : votes_kept r r' → vote_moves r r'.
Proof.
  intros [Hb Hs (new & Hm & Hn)]. split; [by rewrite Hb|done|]. exists new. split; [done|].
  intros g Hg Hgr. rewrite Forall_forall in Hn. rewrite (Hn g Hg) in Hgr. done.
Qed.
Lemma progresses_moves {S} bound (r r' : raft S) : progresses bound r r' → vote_moves r r'.
Proof.
  intros Hp. split.
  - split; cbn; [apply (p_term _ _ _ Hp)|apply (p_vote _ _ _ Hp)].
  - apply (p_storage _ _ _ Hp).
  - destruct (p_msgs _ _ _ Hp) as (new & Hm & Hn). exists new. split; [done|].
    rewrite Forall_forall in Hn. intros g Hg. by apply Hn.
Qed.

Lemma wp_Ok {St A} ok (m : M St A) s Q a s' : wp ok m s Q → m s = Ok (a, s') → Q a s'.
Proof. unfold wp. intros Hw Hm. by rewrite Hm in Hw. Qed.

Lemma on_raft_Ok {S A} `{Storage S} (m : M (raft S) A) (rn : RawNode S) a rn' :
  on_raft m rn = Ok (a, rn') → ∃ r', m (rn_raft rn) = Ok (a, r') ∧ rn' = rn <| rn_raft := r' |>.
Proof.
  unfold on_raft. destruct (m (rn_raft rn)) as [[x r']|]; [|done]. intros [= <- <-]. eauto.
Qed.

Section Invariant.
Context `{RaftPB}.
Implicit Types w : world.

Definition pending_msgs w : list Message :=
  match us_pending (w_user w) with Some rd => rd_Messages rd | None => [] end.
Definition prev_ballot w : ballot := hs_ballot (rn_prevHardSt (us_rn (w_user w))).
(** The ballot that is durable once [rd] has been saved. *)
Definition ready_ballot w (rd : Ready) : ballot :=
  if IsEmptyHardState (rd_HardState rd) then prev_ballot w else hs_ballot (rd_HardState rd).
Definition durable_ballot w : ballot := hs_ballot (ms_hardState (w_storage w)).
(** A [Ready] that covers the votes in its messages. *)
Definition ready_ok w (rd : Ready) : Prop :=
  ballot_le (prev_ballot w) (ready_ballot w rd) ∧
  ballot_le (ready_ballot w rd) (r_ballot (w_raft w)) ∧
  casts (ready_ballot w rd) (rd_Messages rd).

Record vote_inv w : Prop := {
  vi_prev : ballot_le (prev_ballot w) (r_ballot (w_raft w));
  vi_offered rd : us_offered (w_user w) = Some rd →
    ready_ok w rd ∧ rd_Messages rd ⊆ r_msgs (w_raft w);
  vi_pending rd : us_pending (w_user w) = Some rd → ready_ok w rd;
  vi_durable : durable_ballot w =
    match us_pending (w_user w) with
    | Some rd => if w_saved w then ready_ballot w rd else prev_ballot w
    | None => prev_ballot w
    end;
  vi_sent : casts (durable_ballot w) (w_sent w);
  vi_all : let all := w_sent w ++ pending_msgs w ++ r_msgs (w_raft w) in
    casts (r_ballot (w_raft w)) all ∧ single all;
}.

(** A call that moves only the state machine. *)
Lemma raft_moves_inv w r' rn' :
  vote_inv w → rn' = (us_rn (w_user w)) <| rn_raft := r' |> → vote_moves (w_raft w) r' →
  vote_inv (MkWorld (MkUser rn' (us_offered (w_user w)) (us_pending (w_user w))) (w_saved w) (w_sent w)).
Proof.
  intros [Hp Ho Hpe Hd Hs [Ha Hsi]] -> [Hb Hst (new & Hm & Hn)].
  assert (Hrd : ∀ rd, ready_ok w rd → ready_ok (MkWorld (MkUser ((us_rn (w_user w)) <| rn_raft := r' |>)
    (us_offered (w_user w)) (us_pending (w_user w))) (w_saved w) (w_sent w)) rd).
  { intros rd (H1 & H2 & H3). split_and!; [exact H1|by etrans|exact H3]. }
  split.
  - by etrans.
  - intros rd Hrd1. destruct (Ho rd Hrd1) as [Hok Hsub]. split; [by apply Hrd|].
    unfold w_raft. cbn. rewrite Hm. set_solver.
  - intros rd Hrd1. by apply Hrd, Hpe.
  - unfold durable_ballot, w_storage, w_raft. cbn. rewrite Hst. exact Hd.
  - unfold durable_ballot, w_storage, w_raft. cbn. rewrite Hst. exact Hs.
  - unfold w_raft, pending_msgs. cbn. rewrite Hm, !app_assoc, <- (app_assoc (w_sent w)).
    by apply (single_more (r_ballot (w_raft w))).
Qed.

Lemma moves_Ok {S A} `{Storage S} (R : relation (raft S)) (m : M (raft S) A) r a r' :
  moves R m → m r = Ok (a, r') → R r r'.
Proof. intros Hm. apply (wp_Ok _ _ _ _ _ _ (Hm r)). Qed.

Lemma Step_moves (r r' : raft MemoryStorage) m e :
  sane m → N.max (r_Term r) (m_Term m) + 1 < two64 → Step m r = Ok (e, r') → vote_moves r r'.
Proof.
  intros Hs Hb Hstep. eapply progresses_moves.
  eapply (wp_Ok _ _ _ _ _ _ (Step_progresses m r _ Hs (N.le_refl _) Hb) Hstep).
Qed.

(** What proposing and receiving come to. *)
Lemma prop_Ok {S} `{Storage S} m e (r r' : raft S) :
  prop m r = Ok (e, r') → Step (m <| m_From := r_id r |>) r = Ok (e, r').
Proof. unfold prop. by intros (? & ? & [= <- <-] & ?)%bind_Ok. Qed.
Lemma recv_Ok {S} `{Storage S} m (r r' : raft S) :
  recv m r = Ok (tt, r') → r' = r ∨ ∃ e, Step m r = Ok (e, r').
Proof.
  unfold recv. intros (? & ? & [= <- <-] & Hr)%bind_Ok.
  destruct (_ || _); [|injection Hr as <-; by left]. apply bind_Ok in Hr as (e & r1 & Hr & [= <-]).
  right. by exists e.
Qed.
Lemma prop_sane m from : m_Type m = MsgProp → sane (m <| m_From := from |>).
Proof. intros Ht. unfold sane. cbn. rewrite Ht. by split; intros [=]. Qed.

(** The calls between two acknowledgements. *)
Lemma use_moves w a u :
  admissible w a → uses1 (w_user w) a u → a ≠ UOffer →
  ∃ r', vote_moves (w_raft w) r' ∧
    u = MkUser ((us_rn (w_user w)) <| rn_raft := r' |>) (us_offered (w_user w)) (us_pending (w_user w)).
Proof.
  destruct w as [[rn o p] saved sent]. unfold w_raft. cbn. intros Had Hu Hne.
  inversion Hu; subst; cbn in Had; try done;
    match goal with Hx : _ = Ok (_, _) |- _ => apply on_raft_Ok in Hx as (r' & Hr & ->) end;
    exists r'; split; try done.
  - destruct Had as [Ht Hb]. apply (Step_moves _ _ _ e (prop_sane m _ Ht) Hb (prop_Ok _ _ _ _ Hr)).
  - destruct Had. apply recv_Ok in Hr as [->|[e Hr]]; [apply votes_kept_moves; reflexivity|].
    by apply (Step_moves _ _ m e).
  - apply votes_kept_moves, (moves_Ok _ _ _ _ _ (applyConfChange_frame votes_kept cc) Hr).
  - destruct (wp_Ok _ _ _ _ _ _ (tick_climbs (rn_raft rn) Had) Hr) as [Ha Hb].
    eapply (progresses_moves _). by apply advances_progresses.
Qed.

Lemma newReady_fields {S} `{Storage S} (r : raft S) s h rd :
  newReady r s h = Ok rd → rd_Messages rd = r_msgs r ∧
    rd_HardState rd = if isHardStateEqual (hardState r) h then emptyState else hardState r.
Proof.
  unfold newReady. destruct (nextEnts _) as [c|]; [|done]. cbn [mbind outcome_bind].
  by intros [= <-].
Qed.

(** A [Ready] at hand covers the current ballot. *)
Lemma ready_ballot_now w rd :
  ballot_le (prev_ballot w) (r_ballot (w_raft w)) →
  rd_HardState rd = (if isHardStateEqual (hardState (w_raft w)) (rn_prevHardSt (us_rn (w_user w)))
                     then emptyState else hardState (w_raft w)) →
  ready_ballot w rd = r_ballot (w_raft w).
Proof.
  intros [Ht Hv] Hrd. unfold ready_ballot. rewrite Hrd.
  destruct (isHardStateEqual _ _) eqn:He.
  - cbn. unfold isHardStateEqual in He. cbn in He.
    apply andb_prop in He as [[Hte%N.eqb_eq Hve%N.eqb_eq]%andb_prop _].
    unfold prev_ballot, hs_ballot, r_ballot. by rewrite Hte, Hve.
  - destruct (IsEmptyHardState _) eqn:Hem; [|done].
    unfold IsEmptyHardState, isHardStateEqual in Hem. cbn in Hem.
    apply andb_prop in Hem as [[Hte%N.eqb_eq Hve%N.eqb_eq]%andb_prop _].
    unfold r_ballot in *. cbn in Ht, Hv. rewrite Hte in Ht. rewrite Hte, Hve in Hv. rewrite Hte, Hve.
    unfold prev_ballot, hs_ballot in *. cbn in Ht, Hv.
    set (p := rn_prevHardSt _) in *. assert (Hp : hs_Term p = 0) by lia. rewrite Hp in *.
    destruct (decide (hs_Vote p = 0)) as [->|Hne]; [done|]. by rewrite <- (Hv eq_refl Hne).
Qed.

Lemma acceptReady_Ok {S} `{Storage S} rd (rn rn' : RawNode S) :
  acceptReady rd rn = Ok (tt, rn') →
  rn_prevHardSt rn' = rn_prevHardSt rn ∧ r_ballot (rn_raft rn') = r_ballot (rn_raft rn) ∧
  l_storage (r_raftLog (rn_raft rn')) = l_storage (r_raftLog (rn_raft rn)) ∧
  r_msgs (rn_raft rn') = [].
Proof.
  unfold acceptReady. intros ([] & rn1 & [= <-] & (r' & Hr & ->)%on_raft_Ok)%bind_Ok.
  apply bind_Ok in Hr as ([] & r1 & Hr & [= <-]).
  assert (Hr1 : r_ballot r1 = r_ballot (rn_raft rn) ∧
    l_storage (r_raftLog r1) = l_storage (r_raftLog (rn_raft rn))).
  { revert Hr. destruct (rd_SoftState rd), (negb _); cbn; by intros [= <-]. }
  destruct Hr1 as [Hb Hs]. cbn. split_and!; [by destruct (rd_SoftState rd)|done..].
Qed.

Lemma Append_hs ms es ms' : Append ms es = Ok ms' → ms_hardState ms' = ms_hardState ms.
Proof.
  unfold Append. intros Ha. repeat (case_match || (apply outcome_bind_Ok in Ha as (? & ? & Ha)));
    simplify_eq; done.
Qed.
Lemma ApplySnapshot_hs ms s ms' : ApplySnapshot ms s = Val ms' → ms_hardState ms' = ms_hardState ms.
Proof. unfold ApplySnapshot. case_match; [done|]. by intros [= <-]. Qed.

Lemma save_ready_hs rd st st' :
  save_ready rd st = Ok (Val st') →
  ms_hardState st' = if IsEmptyHardState (rd_HardState rd) then ms_hardState st else rd_HardState rd.
Proof.
  unfold save_ready. set (st1 := if IsEmptyHardState _ then _ else _).
  assert (H1 : ms_hardState st1 = if IsEmptyHardState (rd_HardState rd) then ms_hardState st
    else rd_HardState rd) by (unfold st1; by destruct (IsEmptyHardState _)).
  rewrite <- H1. destruct (IsEmptySnap _).
  - intros (st2 & Ha & [= <-])%outcome_bind_Ok. by apply Append_hs in Ha.
  - destruct (ApplySnapshot st1 _) as [st2|] eqn:Hs; [|done].
    intros (st3 & Ha & [= <-])%outcome_bind_Ok. apply Append_hs in Ha. by rewrite Ha, (ApplySnapshot_hs _ _ _ Hs).
Qed.
End Invariant.

Section Preserved.
Context `{RaftPB}.
Implicit Types w : world.

Lemma all_sub w ms :
  vote_inv w → ms ⊆ w_sent w ++ pending_msgs w ++ r_msgs (w_raft w) →
  casts (r_ballot (w_raft w)) ms ∧ single ms.
Proof.
  intros Hi Hs. destruct (vi_all _ Hi) as [Hc Hsi]. split; [by eapply casts_sub|by eapply single_sub].
Qed.

Lemma use_inv w a u :
  vote_inv w → admissible w a → uses1 (w_user w) a u → vote_inv (MkWorld u (w_saved w) (w_sent w)).
Proof.
  intros Hi Had Hu. assert (Hcase : a = UOffer ∨ a ≠ UOffer) by (destruct a; (by left) || (by right)).
  destruct Hcase as [->|Hne].
  2:{ destruct (use_moves w a u Had Hu Hne) as (r' & Hr & ->). by apply (raft_moves_inv w r'). }
  pose proof Hi as [Hp Ho Hpe Hd Hs Ha]. destruct w as [[rn o p] saved sent]. cbn in *.
  inversion Hu; subst.
  match goal with Hx : readyWithoutAccept _ = _ |- _ => apply readyWithoutAccept_Ok in Hx as [_ Hx];
    apply newReady_fields in Hx as [Hm Hh] end.
  split; try done. intros rd' [= <-]. unfold w_raft in *. cbn in *. split; [|by rewrite Hm].
  pose proof (ready_ballot_now (MkWorld (MkUser rn o None) saved sent) rd Hp Hh) as Hrb.
  unfold ready_ok. change (ready_ballot _ rd) with (ready_ballot (MkWorld (MkUser rn o None) saved sent) rd).
  rewrite Hrb. split_and!; [exact Hp|done|]. rewrite Hm. unfold w_raft. cbn.
  apply (all_sub _ _ Hi). set_solver.
Qed.

Lemma accept_inv w rd u :
  vote_inv w → uses1 (w_user w) (UAccept rd) u → vote_inv (MkWorld u false (w_sent w)).
Proof.
  intros Hi Hu. pose proof Hi as [Hp Ho Hpe Hd Hs Ha]. destruct w as [[rn o p] saved sent].
  cbn in *. inversion Hu; subst. destruct (Ho rd eq_refl) as [(H1 & H2 & H3) Hsub].
  match goal with Hx : acceptReady _ _ = _ |- _ => apply acceptReady_Ok in Hx as (Hpr & Hb & Hst & Hm) end.
  assert (Hrb : ready_ballot (MkWorld (MkUser rn' None (Some rd)) false sent) rd =
    ready_ballot (MkWorld (MkUser rn (Some rd) None) saved sent) rd).
  { unfold ready_ballot, prev_ballot. cbn. by rewrite Hpr. }
  unfold w_raft in *. split.
  - unfold prev_ballot, w_raft. cbn. rewrite Hpr, Hb. exact Hp.
  - done.
  - intros rd' [= <-]. unfold ready_ok. rewrite Hrb. unfold prev_ballot, w_raft. cbn.
    rewrite Hpr, Hb. by split_and!.
  - unfold durable_ballot, w_storage, w_raft, prev_ballot in *. cbn in *. by rewrite Hst, Hpr.
  - unfold durable_ballot, w_storage, w_raft in *. cbn in *. by rewrite Hst.
  - unfold w_raft. cbn. rewrite Hm, Hb, app_nil_r. apply (all_sub _ _ Hi). cbn.
    unfold w_raft. cbn. set_solver.
Qed.

Lemma save_inv w rd st rn :
  vote_inv w → us_pending (w_user w) = Some rd → w_saved w = false →
  save_ready rd (w_storage w) = Ok (Val st) → write_storage st (us_rn (w_user w)) = Ok (tt, rn) →
  vote_inv (MkWorld (MkUser rn (us_offered (w_user w)) (Some rd)) true (w_sent w)).
Proof.
  intros Hi Hrd Hsv Hst [= <-]. pose proof Hi as [Hp Ho Hpe Hd Hs Ha].
  apply save_ready_hs in Hst. destruct (Hpe rd Hrd) as (H1 & H2 & H3).
  rewrite Hrd, Hsv in Hd.
  assert (Hnew : hs_ballot (ms_hardState st) = ready_ballot w rd).
  { rewrite Hst. unfold ready_ballot. destruct (IsEmptyHardState _); [exact Hd|done]. }
  destruct w as [[rn o p] saved sent]. cbn in *. subst p saved.
  split; cbn; try done.
  - unfold durable_ballot, w_storage, w_raft. cbn. rewrite Hnew.
    eapply casts_mono; [|exact Hs]. rewrite Hd. exact H1.
Qed.

Lemma send_inv w rd :
  vote_inv w → us_pending (w_user w) = Some rd → w_saved w = true →
  vote_inv (MkWorld (w_user w) true (w_sent w ++ rd_Messages rd)).
Proof.
  intros Hi Hrd Hsv. pose proof Hi as [Hp Ho Hpe Hd Hs Ha]. destruct (Hpe rd Hrd) as (H1 & H2 & H3).
  rewrite Hrd, Hsv in Hd. destruct w as [u saved sent]. cbn in *. subst saved.
  split; try done.
  - cbn. rewrite Hrd. exact Hd.
  - cbn. apply casts_app. split; [exact Hs|].
    change (durable_ballot _) with (durable_ballot (MkWorld u true sent)). by rewrite Hd.
  - cbn. apply (all_sub _ _ Hi). unfold pending_msgs. cbn. rewrite Hrd. set_solver.
Qed.

Lemma advance_inv w u :
  vote_inv w → w_saved w = true → uses1 (w_user w) UAdvance u → vote_inv (MkWorld u false (w_sent w)).
Proof.
  intros Hi Hsv Hu. pose proof Hi as [Hp Ho Hpe Hd Hs Ha]. destruct w as [[rn o p] saved sent].
  cbn in *. subst saved. inversion Hu; subst. destruct (Hpe rd eq_refl) as (H1 & H2 & H3).
  match goal with Hx : Advance _ _ = _ |- _ => rename Hx into Hadv end.
  unfold Advance in Hadv. apply bind_Ok in Hadv as ([] & rn1 & [= <-] & (r' & Hr & ->)%on_raft_Ok).
  assert (Hrn1 : rn_raft (if IsEmptyHardState (rd_HardState rd) then rn
    else rn <| rn_prevHardSt := rd_HardState rd |>) = rn_raft rn) by (by destruct (IsEmptyHardState _)).
  rewrite Hrn1 in Hr. pose proof (moves_Ok _ _ _ _ _ (advance_votes rd) Hr) as Hk.
  destruct (votes_kept_moves _ _ Hk) as [_ _ (new & Hm & Hn)]. destruct Hk as [Hb Hstor _].
  assert (Hpb : prev_ballot (MkWorld (MkUser
    ((if IsEmptyHardState (rd_HardState rd) then rn else rn <| rn_prevHardSt := rd_HardState rd |>)
       <| rn_raft := r' |>) None None) false sent) =
    ready_ballot (MkWorld (MkUser rn None (Some rd)) true sent) rd).
  { unfold prev_ballot, ready_ballot. cbn. by destruct (IsEmptyHardState _). }
  unfold w_raft in *. cbn in *. split.
  - rewrite Hpb. unfold w_raft. cbn. by rewrite Hb.
  - done.
  - done.
  - cbn. rewrite Hpb, <- Hd. unfold durable_ballot, w_storage, w_raft. cbn. by rewrite Hstor.
  - unfold durable_ballot, w_storage, w_raft in *. cbn in *. by rewrite Hstor.
  - unfold w_raft, pending_msgs. cbn. rewrite Hm, app_assoc.
    destruct (all_sub _ (sent ++ r_msgs (rn_raft rn)) Hi) as [Hc Hsi].
    { unfold w_raft, pending_msgs. cbn. set_solver. }
    unfold w_raft in Hc. cbn in Hc. apply (single_more (r_ballot (rn_raft rn))); [by rewrite Hb|done..].
Qed.

(** A (re)started node keeps to the ballot in its storage. *)
Lemma restart_inv rand (c : raft_Config MemoryStorage) st rn sent :
  c_Storage c = Some st → NewRawNode rand c = Ok rn →
  casts (hs_ballot (ms_hardState st)) sent → single sent →
  vote_inv (MkWorld (MkUser rn None None) false sent).
Proof.
  intros Hst Hn Hc Hs. unfold NewRawNode in Hn.
  destruct (newRaft rand c) as [r|] eqn:Hr; [|done]. injection Hn as <-.
  destruct (newRaft_ballot _ _ _ Hr) as (st' & hs & cs & Hst' & Hi & Hb & Hls & Hm).
  rewrite Hst in Hst'. injection Hst' as <-. injection Hi as <- <-.
  assert (Hpb : hs_ballot (hardState r) = r_ballot r) by done.
  assert (Hd : hs_ballot (ms_hardState (l_storage (r_raftLog r))) = r_ballot r) by (by rewrite Hls, Hb).
  split; unfold w_storage, prev_ballot, durable_ballot, w_raft, pending_msgs; cbn; rewrite ?Hd; try done.
  - unfold w_storage, w_raft. cbn. rewrite Hd. by rewrite Hb.
  - destruct (single_more (hs_ballot (ms_hardState st)) (r_ballot r) sent (r_msgs r)); [by rewrite Hb|done..| |done].
    intros g Hg Hgr. rewrite Forall_forall in Hm. rewrite (Hm g Hg) in Hgr. done.
Qed.

Lemma step_inv w ev w' : vote_inv w → world_step w ev w' → vote_inv w'.
Proof.
  intros Hi Hs. destruct Hs as [w a u Had Hu|w rd u Hu|w rd st rn Hrd Hsv Hst Hw|w rd Hrd Hsv
    |w u Hsv Hu|w rand c rn Hst Hn].
  - by apply (use_inv w a).
  - by apply (accept_inv w rd).
  - by apply (save_inv w rd st rn).
  - by apply send_inv.
  - by apply advance_inv.
  - apply (restart_inv rand c (w_storage w)); [done|done|apply (vi_sent _ Hi)|].
    apply (all_sub _ _ Hi). set_solver.
Qed.

Lemma steps_inv w w' : initial w → world_steps w w' → vote_inv w'.
Proof.
  intros Hini. induction 1 as [w|w w1 ev w2 _ IH Hs].
  - destruct Hini as (rand & c & st & rn & Hst & Hn & ->).
    apply (restart_inv rand c st rn []); [done|done|by intros ? ?%elem_of_nil|by intros ? ? ?%elem_of_nil].
  - eapply step_inv; [by apply IH|exact Hs].
Qed.
End Preserved.

(** ** Properties *)

#[local] Existing Instance ex_pb.

(** The node of the file Node is asked for its vote, and the vote is saved and
    sent. *)
Definition ex_ok {St A} (m : M St A) (s : St) : St :=
  match m s with Ok (_, s') => s' | Panic => s end.
Definition ex_rn1 : RawNode MemoryStorage := ex_ok (on_raft (recv ex_vote)) ex_rn.
Definition ex_rd : Ready :=
  match readyWithoutAccept ex_rn1 with Ok (rd, _) => rd | Panic => Ready_zero end.
Definition ex_rn2 : RawNode MemoryStorage := ex_ok (acceptReady ex_rd) ex_rn1.
Definition ex_st3 : MemoryStorage :=
  match save_ready ex_rd (l_storage (r_raftLog (rn_raft ex_rn2))) with
  | Ok (Val st) => st
  | _ => NewMemoryStorage
  end.
Definition ex_rn3 : RawNode MemoryStorage := ex_ok (write_storage ex_st3) ex_rn2.
Definition ex_w0 : world := MkWorld (MkUser ex_rn None None) false [].
Definition ex_w3 : world := MkWorld (MkUser ex_rn3 None (Some ex_rd)) true (rd_Messages ex_rd).

Lemma ex_initial : initial ex_w0.
Proof. exists (λ _, 7%Z), ex_config, ex_node_storage, ex_rn. vm_compute. by split_and!. Qed.

Lemma ex_steps : world_steps ex_w0 ex_w3.
Proof.
  apply (steps_snoc _ (MkWorld (MkUser ex_rn3 None (Some ex_rd)) true []) ESend).
  2:{ exact (step_send (MkWorld (MkUser ex_rn3 None (Some ex_rd)) true []) ex_rd eq_refl eq_refl). }
  apply (steps_snoc _ (MkWorld (MkUser ex_rn2 None (Some ex_rd)) false []) ESave).
  2:{ refine (step_save (MkWorld (MkUser ex_rn2 None (Some ex_rd)) false []) ex_rd ex_st3 ex_rn3
        eq_refl eq_refl _ _); vm_compute; reflexivity. }
  apply (steps_snoc _ (MkWorld (MkUser ex_rn1 (Some ex_rd) None) false []) (EAccept ex_rd)).
  2:{ apply (step_accept (MkWorld (MkUser ex_rn1 (Some ex_rd) None) false []) ex_rd).
      apply uses_accept. vm_compute. reflexivity. }
  apply (steps_snoc _ (MkWorld (MkUser ex_rn1 None None) false []) (EUse UOffer)).
  2:{ apply (step_use (MkWorld (MkUser ex_rn1 None None) false []) UOffer); [exact I|].
      apply uses_offer; vm_compute; reflexivity. }
  apply (steps_snoc _ ex_w0 (EUse (URecv ex_vote))); [constructor|].
  apply (step_use ex_w0 (URecv ex_vote)).
  - split; [split; vm_compute; discriminate|vm_compute; reflexivity].
  - apply uses_recv. vm_compute. reflexivity.
Qed.

(** C6: One vote per term, crashes included.  A node that saves before it sends never
    sends granted votes to two different candidates in the same term, over its
    whole life: whatever messages it receives, forged ones included, as long as they
    are [sane] (a term on what only leaders send, a sender on a vote request) and
    keep the term below the end of its range, however its calls interleave with the
    handling of a [Ready], and however often it crashes and restarts from its
    storage.  Whatever was sent is, at any time, covered by the durable term and
    vote. *)
Theorem one_vote_per_term `{RaftPB} (w w' : world) (g h : Message) :
  initial w → world_steps w w' → g ∈ w_sent w' → grants g = true →
  m_Term g ≤ hs_Term (ms_hardState (w_storage w')) ∧
  (m_Term g = hs_Term (ms_hardState (w_storage w')) →
   m_To g = hs_Vote (ms_hardState (w_storage w'))) ∧
  (h ∈ w_sent w' → grants h = true → m_Term g = m_Term h → m_To g = m_To h).
Proof.
  intros Hi Hs Hg Hgr. pose proof (steps_inv _ _ Hi Hs) as Hinv.
  destruct (vi_sent _ Hinv g Hg Hgr) as [Ht Hv]. split; [done|]. split.
  - intros He. by apply Hv in He as [? _].
  - intros Hh Hgh He. destruct (vi_all _ Hinv) as [_ Hsi].
    apply Hsi; [apply elem_of_app; by left|apply elem_of_app; by left|done..].
Qed.

Lemma one_vote_per_term_witness :
  ∃ g, g ∈ w_sent ex_w3 ∧ grants g = true ∧ m_To g = 2 ∧
    m_Term g ≤ hs_Term (ms_hardState (w_storage ex_w3)).
Proof.
  destruct (w_sent ex_w3) as [|g l] eqn:Hs; [vm_compute in Hs; discriminate Hs|].
  assert (Hg : grants g = true ∧ m_To g = 2) by (vm_compute in Hs; injection Hs as <- _; done).
  assert (Hin : g ∈ w_sent ex_w3) by (rewrite Hs; left).
  exists g. split; [left|]. split; [apply Hg|]. split; [apply Hg|].
  destruct (one_vote_per_term ex_w0 ex_w3 g g ex_initial ex_steps Hin (proj1 Hg)) as [Ht _].
  exact Ht.
Defined.
