(* ===== verification/LogRuns.v ===== *)
(** * The log of a node over its life

    What is saved of the log, and when.  Between the offer of a [Ready] and its
    acknowledgement the node goes on working, so its unstable entries may already
    be others than those being saved; [stored] is the invariant of a [world] that
    makes the write succeed without touching the log of the node, and a restart
    find the log that was saved. *)

From S2P Require Import Prelude Pb Quorum Inflights Progress Tracker Confchange.
From S2P Require Import Util Storage Unstable RaftLog ReadOnly Raft RawNode Node.
From S2P Require Import RaftFrame RaftSafety RaftElection RaftInvariant RaftTotal RaftAppend Runs.

(** ** Unstable entries *)

(** The storage is not written, no snapshot comes or goes, and unstable entries
    are replaced but not dropped. *)
Record hoards {S} (l l' : raftLog S) : Prop := {
  hd_storage : l_storage l' = l_storage l;
  hd_snapshot : u_snapshot (l_unstable l') = u_snapshot (l_unstable l);
  hd_offset : u_offset (l_unstable l') ≤ u_offset (l_unstable l);
  hd_entries : u_entries (l_unstable l) ≠ [] → u_entries (l_unstable l') ≠ [];
}.
Definition hoarding {S} (r r' : raft S) : Prop := hoards (r_raftLog r) (r_raftLog r').

#[export] Instance hoards_preorder {S} : PreOrder (@hoards S).
Proof. split; [by split|]. intros a b c [] []. split; [congruence|congruence|lia|auto]. Qed.
#[export] Instance hoarding_preorder {S} : PreOrder (@hoarding S).
Proof. unfold hoarding. split; [by intros r|intros a b c Hab Hbc; by etrans]. Qed.

Section Hoarding.
Context `{RaftPB} {S : Type} `{Storage S}.
Notation K := (moves (@hoarding S)).

Lemma log_step_hoarding {A} (f : raftLog S → outcome (A * raftLog S)) :
  (∀ l a l', f l = Ok (a, l') → hoards l l') → K (log_step f).
Proof.
  intros Hf r. unfold wp, log_step. destruct (f (r_raftLog r)) as [[a l]|] eqn:E; [|done].
  by apply Hf in E.
Qed.
Lemma hoarding_same (r r' : raft S) : r_raftLog r' = r_raftLog r → hoarding r r'.
Proof. unfold hoarding. by intros ->. Qed.

Lemma commitTo_hoards l i b l' : commitTo l i = Ok (b, l') → hoards (S:=S) l l'.
Proof.
  unfold commitTo. destruct (_ <? i); [|by intros [= _ <-]]. destruct (lastIndex l); [|done].
  cbn [mbind outcome_bind]. destruct (_ <? i); by intros [= _ <-].
Qed.
Lemma log_append_hoards l es i l' : log_append l es = Ok (i, l') → hoards (S:=S) l l'.
Proof.
  unfold log_append. destruct es as [|e es]; [by destruct (lastIndex l); intros [= _ <-]|].
  destruct (_ <? _); [done|]. unfold truncateAndAppend. change (indexN (e :: es) 0) with (Ok e).
  cbn [mbind outcome_bind].
  destruct (_ =? _); cbn [mbind outcome_bind].
  { destruct (lastIndex _); [|done]. intros [= _ <-]. split; cbn; try done. by intros _ []%app_nil. }
  destruct (N.leb_spec (e_Index e) (u_offset (l_unstable l))); cbn [mbind outcome_bind].
  { destruct (lastIndex _); [|done]. intros [= _ <-]. by split. }
  destruct (u_slice _ _ _); [|done]. cbn [mbind outcome_bind]. destruct (lastIndex _); [|done].
  intros [= _ <-]. split; cbn; try done. by intros _ []%app_nil.
Qed.
Lemma maybeCommit_hoards l i t b l' : maybeCommit l i t = Ok (b, l') → hoards (S:=S) l l'.
Proof.
  unfold maybeCommit. destruct (_ <? i); [|by intros [= _ <-]]. destruct (log_term l i); [|done].
  cbn [mbind outcome_bind]. destruct (zeroTermOnErrCompacted _); [|done]. cbn [mbind outcome_bind].
  destruct (_ =? t); [|by intros [= _ <-]]. destruct (commitTo l i) as [[c l2]|] eqn:Hc; [|done].
  intros [= _ <-]. by apply commitTo_hoards in Hc.
Qed.
Lemma maybeAppend_hoards l index t c es res l' :
  maybeAppend l index t c es = Ok (res, l') → hoards (S:=S) l l'.
Proof.
  unfold maybeAppend. destruct (matchTerm _ _ _) as [[]|]; [|by intros [= _ <-]|done].
  cbn [mbind outcome_bind]. destruct (findConflict l es) as [ci|]; [|done]. cbn [mbind outcome_bind].
  set (X := if ci =? 0 then _ else _). destruct X as [l1|] eqn:HX; [|done]. cbn [mbind outcome_bind].
  destruct (commitTo l1 _) as [[b l2]|] eqn:Hc; [|done]. intros [= _ <-].
  apply commitTo_hoards in Hc. etrans; [|exact Hc]. revert HX. unfold X.
  destruct (ci =? 0); [by intros [= <-]|]. destruct (ci <=? _); [done|]. destruct (_ <? _); [done|].
  destruct (sliceN _ _ _) as [rest|]; [|done]. cbn [mbind outcome_bind].
  destruct (log_append l rest) as [[li l3]|] eqn:Ha; [|done]. intros [= <-]. by apply log_append_hoards in Ha.
Qed.
Lemma appliedTo_hoards l i l' : appliedTo l i = Ok l' → hoards (S:=S) l l'.
Proof.
  unfold appliedTo. destruct (i =? 0); [by intros [= <-]|]. destruct (_ || _); [done|]. by intros [= <-].
Qed.

#[export] Instance hoarding_frame : Frame (@hoarding S).
Proof.
  apply mk_frame; [exact _| | | |].
  - intros r r' []. by apply hoarding_same.
  - intros r m _. by apply hoarding_same.
  - intros i t. apply log_step_hoarding. intros ? ? ?. apply maybeCommit_hoards.
  - intros i. apply log_step_hoarding. intros ? ? ?. apply commitTo_hoards.
Qed.
End Hoarding.

(** [walk] where changes of other fields than the log are no matter. *)
Ltac walk_hoard := walk; try (by apply hoarding_same).

Section HoardingMethods.
Context `{RaftPB} {S : Type} `{Storage S}.
Notation K := (moves (@hoarding S)).

Lemma log_append_hoarding es : K (log_step (λ l, log_append l es)).
Proof. apply log_step_hoarding. intros ? ? ?. apply log_append_hoards. Qed.
Lemma maybeAppend_hoarding i t c es : K (log_step (λ l, maybeAppend l i t c es)).
Proof. apply log_step_hoarding. intros ? ? ?. apply maybeAppend_hoards. Qed.
Lemma appliedTo_hoarding i : K (log_step (λ l, l' ← appliedTo l i; Ok (tt, l'))).
Proof.
  apply log_step_hoarding. intros l a l'. destruct (appliedTo l i) as [l2|] eqn:E; [|done].
  intros [= _ <-]. by eapply appliedTo_hoards.
Qed.
Lemma reset_hoarding term : K (reset term).
Proof. unfold reset. walk_hoard. Qed.
#[local] Hint Resolve log_append_hoarding maybeAppend_hoarding appliedTo_hoarding reset_hoarding : moves.
Lemma appendEntry_hoarding es : K (appendEntry es).
Proof. unfold appendEntry. walk_hoard. Qed.
#[local] Hint Resolve appendEntry_hoarding : moves.
Lemma becomeFollower_hoarding term lead : K (becomeFollower term lead).
Proof. unfold becomeFollower. walk_hoard. Qed.
Lemma becomeCandidate_hoarding : K becomeCandidate.
Proof. unfold becomeCandidate. walk_hoard. Qed.
Lemma becomePreCandidate_hoarding : K becomePreCandidate.
Proof. unfold becomePreCandidate. walk_hoard. Qed.
Lemma becomeLeader_hoarding : K becomeLeader.
Proof. unfold becomeLeader. walk_hoard. Qed.
#[local] Hint Resolve becomeFollower_hoarding becomeCandidate_hoarding becomePreCandidate_hoarding
  becomeLeader_hoarding : moves.
Lemma campaign_with_hoarding after t : K after → K (campaign_with after t).
Proof.
  intros Ha. unfold campaign_with. walk_hoard.
  apply request_vote_frame; [exact _|destruct (bool_decide _); auto].
Qed.
Lemma campaign_hoarding t : K (campaign t).
Proof. unfold campaign. do 2 apply campaign_with_hoarding. walk_hoard. Qed.
#[local] Hint Resolve campaign_hoarding : moves.
Lemma hup_hoarding t : K (hup t).
Proof. unfold hup. walk_hoard. Qed.
Lemma candidate_vote_hoarding m : K (candidate_vote m).
Proof. unfold candidate_vote. walk_hoard. Qed.
Lemma handleAppendEntries_hoarding m : K (handleAppendEntries m).
Proof. unfold handleAppendEntries. walk_hoard. Qed.
Lemma leader_Prop_hoarding m : K (leader_Prop m).
Proof. unfold leader_Prop. walk_hoard. Qed.
Lemma leader_CheckQuorum_hoarding : K leader_CheckQuorum.
Proof. unfold leader_CheckQuorum. walk_hoard. Qed.
Lemma send_hoarding m : K (send m).
Proof. intros r. eapply wp_mono; [apply send_spec|]. intros [] r1 (? & -> & _). by apply hoarding_same. Qed.
#[local] Hint Resolve hup_hoarding candidate_vote_hoarding handleAppendEntries_hoarding
  leader_Prop_hoarding leader_CheckQuorum_hoarding send_hoarding : moves.
Lemma step_term_hoarding m : K (step_term m).
Proof. unfold step_term, higher_term. walk_hoard. Qed.
Lemma step_vote_hoarding m : K (step_vote m).
Proof. unfold step_vote. walk_hoard. Qed.
Lemma step_hoarding m : m_Type m ≠ MsgSnap → K (step m).
Proof.
  intros Hm. unfold step, stepFollower, stepCandidate, stepLeader.
  destruct (m_Type m) eqn:Ht; try done; walk_hoard.
Qed.

(** Only a snapshot does otherwise. *)
Lemma Step_hoarding m : m_Type m ≠ MsgSnap → K (Step m).
Proof.
  intros Hm. pose proof (step_hoarding m Hm) as Hs. pose proof (step_term_hoarding m) as Ht.
  pose proof (step_vote_hoarding m) as Hv. unfold Step.
  apply moves_bind; [exact _|exact Ht|intros go]. destruct (negb go); [walk_hoard|].
  destruct (m_Type m); try exact Hs; walk_hoard.
Qed.
Lemma tick_hoarding : K tick.
Proof.
  assert (Hl : ∀ t, t ≠ MsgSnap → K (local_msg t)).
  { intros t Ht. unfold local_msg. apply moves_bind; [exact _|walk_hoard|intros self]. by apply Step_hoarding. }
  unfold tick, tickHeartbeat, tickElection, leader_timeout. walk_hoard; by apply Hl.
Qed.
Lemma prop_hoarding m : m_Type m ≠ MsgSnap → K (prop m).
Proof. intros Hm. unfold prop. apply moves_bind; [exact _|walk_hoard|intros i]. by apply Step_hoarding. Qed.
Lemma recv_hoarding m : m_Type m ≠ MsgSnap → K (recv m).
Proof. intros Hm. pose proof (Step_hoarding m Hm). unfold recv. walk_hoard. Qed.
Lemma advance_applied_hoarding i : K (advance_applied i).
Proof. unfold advance_applied, auto_leave. walk_hoard. Qed.
End HoardingMethods.

(** ** Marking entries stable *)

Section Stable.
Context `{RaftPB} {S : Type} `{!Storage S} `{!StorageLaws S}.
Implicit Types l : raftLog S.

(** Two logs with the same position and the same entries up to the end of the
    first. *)
Lemma lg_split lg lg' :
  lg_prev lg = lg_prev lg' → lg_last lg ≤ lg_last lg' →
  (∀ k, lg_prev lg < k ≤ lg_last lg → lg_entry lg k = lg_entry lg' k) →
  lg_ents lg' = lg_ents lg ++ drop (length (lg_ents lg)) (lg_ents lg').
Proof.
  intros Hp Hl He. rewrite <- (take_drop (length (lg_ents lg)) (lg_ents lg')) at 1. f_equal.
  unfold lg_last, lenN in *. apply list_eq. intros j. destruct (decide (j < length (lg_ents lg))%nat) as [Hj|Hj].
  - rewrite lookup_take_lt by done. specialize (He (lg_prev lg + 1 + N.of_nat j) ltac:(lia)).
    rewrite lg_entry_lookup in He. rewrite He, Hp. by rewrite lg_entry_lookup.
  - rewrite (lookup_ge_None_2 (lg_ents lg)) by lia. apply lookup_ge_None_2. rewrite length_take. lia.
Qed.

Lemma u_stableTo_case u i t u' :
  unstable_ok u → u_snapshot u = None → u_stableTo u i t = Ok u' → u' = u ∨
  u_offset u ≤ i ∧ i < u_offset u + lenN (u_entries u) ∧
  e_Term <$> u_entries u !! N.to_nat (i - u_offset u) = Some t ∧
  u' = u <| u_entries := drop (N.to_nat (i + 1 - u_offset u)) (u_entries u) |> <| u_offset := i + 1 |>.
Proof.
  intros Hok Hs. unfold u_stableTo.
  destruct (decide (u_offset u ≤ i ∧ i < u_offset u + lenN (u_entries u))) as [[Hi Hlt]|Hout].
  - destruct (lookup_lt_is_Some_2 (u_entries u) (N.to_nat (i - u_offset u))) as [e He].
    { unfold lenN in *. lia. }
    rewrite (maybeTerm_entry u i e Hok Hi He). cbn [mbind outcome_bind].
    destruct (N.eqb_spec (e_Term e) t) as [<-|]; [|by intros [= <-]; left].
    rewrite (proj2 (N.leb_le _ _) Hi). cbn [andb]. pose proof (u_bound _ Hok).
    unfold sliceN. nowrap. rewrite bool_decide_eq_true_2 by lia. cbn [mbind outcome_bind].
    intros [= <-]. right. rewrite He. split_and!; [done..|]. do 2 f_equal.
    rewrite take_ge; [done|]. rewrite length_drop. unfold lenN. lia.
  - rewrite maybeTerm_None; [by intros [= <-]; left|done|].
    destruct (decide (i < u_offset u)); [left; split; [done|by rewrite Hs]|right; lia].
Qed.

(** [stableTo] up to the end of what is stored keeps the log, provided the storage
    holds the entries that are dropped. *)
Lemma stableTo_keeps l i t l' :
  rl_valid l → u_snapshot (l_unstable l) = None → stableTo l i t = Ok l' →
  i = lg_last (storage_log (l_storage l)) →
  (lg_term (rl_log l) i = Some t → ∀ k, lg_prev (rl_log l) < k ≤ i →
     lg_entry (storage_log (l_storage l)) k = lg_entry (rl_log l) k) →
  rl_valid l' ∧ rl_log l' = rl_log l ∧ l_storage l' = l_storage l ∧
  u_snapshot (l_unstable l') = None.
Proof.
  intros Hv Hs Hst -> Hag. unfold stableTo in Hst.
  destruct (u_stableTo _ _ _) as [u'|] eqn:Hu; [|done]. injection Hst as <-.
  pose proof Hv as [Hvs Hok Ho He Hlo Hc Ha]. pose proof (rl_last l Hv) as Hlast.
  destruct (u_stableTo_case _ _ _ _ Hok Hs Hu) as [->|(Hi & Hlt & Ht & ->)]; [by destruct l|].
  set (st := storage_log (l_storage l)) in *. set (u := l_unstable l) in *.
  specialize (Ho Hs). assert (Hp : lg_prev (rl_log l) = lg_prev st) by (unfold rl_log; fold u; by rewrite Hs).
  assert (Hpt : lg_prev_term (rl_log l) = lg_prev_term st) by (unfold rl_log; fold u; by rewrite Hs).
  pose proof (rl_term_unstable l (lg_last st) Hv Hi) as Hterm. fold u in Hterm. rewrite Ht in Hterm.
  specialize (Hag Hterm). rewrite Hp in Hag.
  assert (Hle : lg_last st ≤ lg_last (rl_log l)) by lia.
  pose proof (lg_split st (rl_log l) (eq_sym Hp) Hle Hag) as Hsplit.
  set (l2 := l <| l_unstable := _ |>).
  assert (Hl2 : rl_log l2 = rl_log l).
  { unfold rl_log at 1. cbn -[rl_log]. fold u. rewrite Hs. fold st. rewrite lg_append_end.
    destruct (rl_log l) as [p pt es] eqn:Hrl. cbn in Hp, Hpt, Hsplit. subst p pt. f_equal.
    rewrite Hsplit. f_equal. unfold rl_log in Hrl. fold u st in Hrl. rewrite Hs in Hrl.
    unfold lg_append in Hrl. injection Hrl as <-. unfold lg_last, lg_pos, lenN in *.
    rewrite drop_app_ge by (rewrite length_take; lia). rewrite length_take. f_equal. lia. }
  split; [|by split_and!]. split; rewrite ?Hl2; try done.
  - split; cbn; fold u.
    + lia.
    + pose proof (contiguous_drop _ (N.to_nat (lg_last st + 1 - u_offset u)) _ (u_contiguous _ Hok)) as Hcd.
      replace (lg_last st + 1 - 1) with (u_offset u - 1 + N.of_nat (N.to_nat (lg_last st + 1 - u_offset u)))
        by (pose proof (u_offset_pos _ Hok); lia).
      apply Hcd. unfold lenN in Hlt. fold u. lia.
    + pose proof (u_bound _ Hok). rewrite lenN_drop. lia.
    + by rewrite Hs.
  - intros _. cbn. fold st. unfold lg_last. lia.
Qed.
End Stable.

(** ** Starting from a storage *)

Section Start.
Context `{RaftPB} {S : Type} `{!Storage S} `{!StorageLaws S}.
Implicit Types r : raft S.

Lemma loadState_calm hs : moves (@calm _ S _ _) (loadState hs).
Proof.
  intros r. unfold loadState, log_read. apply wp_bind, wp_lift; [|done]. intros last Hlast.
  apply wp_bind, wp_get. destruct (_ || _) eqn:Hb; [by apply wp_panic|]. apply wp_modify.
  apply orb_false_elim in Hb as [H1%N.ltb_ge H2%N.ltb_ge]. intros [Hv Hz].
  rewrite lastIndex_valid in Hlast by done. injection Hlast as <-. split_and!; [|done|].
  - split; [|done]. destruct Hv as [? ? ? ? ? Hc Ha].
    split; try done; [change (lg_prev (rl_log (r_raftLog r)) ≤ hs_Commit hs ≤ lg_last (rl_log (r_raftLog r)))|cbn]; lia.
  - exists []. by rewrite app_nil_r.
Qed.
Lemma loadState_hoarding hs : moves (@hoarding S) (loadState hs).
Proof.
  unfold loadState. apply moves_bind; [exact _|walk_hoard|intros last].
  apply moves_bind; [exact _|walk_hoard|intros r]. destruct (_ || _); [walk_hoard|].
  apply moves_modify. by intros r'.
Qed.

Lemma newLog_valid st n l :
  storage_valid st → newLogWithSize st n = Ok l →
  rl_valid l ∧ rl_log l = storage_log st ∧ l_storage l = st ∧ u_snapshot (l_unstable l) = None.
Proof.
  intros Hv. unfold newLogWithSize. rewrite FirstIndex_law, LastIndex_law by done. cbn.
  pose proof (storage_log_ok _ Hv) as Hok. pose proof (log_bound _ Hok).
  assert (Hp : lg_prev (storage_log st) ≤ lg_last (storage_log st)) by (unfold lg_last; lia).
  nowrap. intros [= <-]. set (l := MkRaftLog _ _ _ _ _).
  assert (Hl : rl_log l = storage_log st).
  { unfold rl_log. cbn. rewrite lg_append_end, app_nil_r. by destruct (storage_log st). }
  split_and!; try done. split; rewrite ?Hl; cbn; try done; try lia.
  split; cbn; [lia|apply contiguous_nil| |done]. unfold lenN. cbn. lia.
Qed.

(** A node starts with the stored log, whatever it had before. *)
Lemma newRaft_log rand (c : raft_Config S) st r :
  c_Storage c = Some st → storage_valid st →
  (lg_prev (storage_log st) = 0 → lg_prev_term (storage_log st) = 0) → newRaft rand c = Ok r →
  log_inv (r_raftLog r) ∧ rl_log (r_raftLog r) = storage_log st ∧
  l_storage (r_raftLog r) = st ∧ u_snapshot (l_unstable (r_raftLog r)) = None ∧
  Forall (carries (storage_log st)) (r_msgs r).
Proof.
  intros Hst Hvs Hz. unfold newRaft. destruct (validate c) as [c'|] eqn:Hval; [|done].
  assert (Hst' : c_Storage c' = Some st).
  { rewrite <- Hst. revert Hval. unfold validate. repeat case_match; intros [=]; subst; done. }
  rewrite Hst'. destruct (newLogWithSize _ _) as [l|] eqn:Hl; [|done]. cbn [mbind outcome_bind].
  destruct (newLog_valid _ _ _ Hvs Hl) as (Hv & Hlog & Hls & Hsn).
  destruct (must (InitialState st)) as [[hs cs]|]; [|done]. cbn [mbind outcome_bind].
  set (r0 := MkRaft _ _ _ _ _ _ _ _ _ _ _ _ _ _ _ _ _ _ _ _ _ _ _ _ _ _ _).
  match goal with |- context [mbind ?f (?m r0)] => set (body := m) end. intros Hr.
  assert (Hc : moves (@calm _ S _ _) body).
  { pose proof (loadState_calm hs). pose proof (becomeFollower_calm (S:=S)).
    pose proof (moves_calm _ (appliedTo_relaying (S:=S) (c_Applied c'))). unfold body. walk_calm. }
  assert (Hh : moves (@hoarding S) body).
  { pose proof (loadState_hoarding hs). pose proof (becomeFollower_hoarding (S:=S)).
    pose proof (appliedTo_hoarding (S:=S) (c_Applied c')). unfold body. walk_hoard. }
  destruct (body r0) as [[[] r']|] eqn:Hb; [|done]. injection Hr as <-.
  apply (moves_Ok _ _ _ _ _ Hc) in Hb as Hc1. apply (moves_Ok _ _ _ _ _ Hh) in Hb as [Hs1 Hs2 _ _].
  destruct Hc1 as (Hi & Hl1 & new & Hm & Hn); [split; cbn; [done|by rewrite Hlog]|].
  cbn in Hl1, Hs1, Hs2, Hm, Hn. rewrite Hlog in *. split_and!; [done|done|congruence|congruence|by rewrite Hm].
Qed.
End Start.

(** ** The invariant of a world *)

Section Stored.
Context `{RaftPB}.
Implicit Types w : world.

Definition w_log w : raftLog MemoryStorage := r_raftLog (w_raft w).
(** The log that is saved. *)
Definition disk w : Log := ms_log (w_storage w).

(** What the saved log becomes with the entries of a [Ready]. *)
Definition saving (lg : Log) (rd : Ready) : Log :=
  match rd_Entries rd with [] => lg | e :: _ => lg_append lg (e_Index e) (rd_Entries rd) end.

(** A [Ready] that can be saved; what the node may do meanwhile; and what the saved
    log has afterwards. *)
Record savable (lg : Log) (rd : Ready) : Prop := {
  sv_snap : IsEmptySnap (rd_Snapshot rd) = true;
  sv_log : log_ok (saving lg rd);
  sv_entries e : head (rd_Entries rd) = Some e →
    lg_prev lg < e_Index e ≤ lg_last lg + 1 ∧ contiguous (e_Index e - 1) (rd_Entries rd);
}.
Definition ahead (l : raftLog MemoryStorage) (rd : Ready) : Prop :=
  ∀ e, head (rd_Entries rd) = Some e →
    u_offset (l_unstable l) ≤ e_Index e ∧ u_entries (l_unstable l) ≠ [].
Definition saved_as (lg : Log) (rd : Ready) : Prop :=
  IsEmptySnap (rd_Snapshot rd) = true ∧
  ∀ e, last (rd_Entries rd) = Some e → lg_last lg = e_Index e ∧ lg_term lg (e_Index e) = Some (e_Term e).

Record stored w : Prop := {
  sd_log : log_inv (w_log w);
  sd_nosnap : u_snapshot (l_unstable (w_log w)) = None;
  sd_one : us_pending (w_user w) ≠ None → us_offered (w_user w) = None;
  sd_offered rd : us_offered (w_user w) = Some rd → savable (disk w) rd ∧ ahead (w_log w) rd;
  sd_pending rd : us_pending (w_user w) = Some rd →
    if w_saved w then saved_as (disk w) rd else savable (disk w) rd ∧ ahead (w_log w) rd;
}.

(** A call that moves only the state machine. *)
Lemma stored_call w r' :
  stored w → log_inv (r_raftLog r') → hoarding (w_raft w) r' →
  stored (MkWorld (MkUser ((us_rn (w_user w)) <| rn_raft := r' |>) (us_offered (w_user w))
    (us_pending (w_user w))) (w_saved w) (w_sent w)).
Proof.
  intros [Hl Hs H1 Ho Hp] Hl' [Hst Hsn Hof Hen].
  set (w' := MkWorld _ _ _).
  assert (Hd : disk w' = disk w) by (unfold disk, w_storage; by rewrite <- Hst).
  assert (Ha : ∀ rd, ahead (w_log w) rd → ahead (w_log w') rd).
  { intros rd Ha e He. destruct (Ha e He) as [Hle Hne]. split; [|by apply Hen].
    unfold w_log, w_raft in *. cbn in *. lia. }
  split; [done|exact (eq_trans Hsn Hs)|done| |]; rewrite Hd; cbn.
  - intros rd Hrd. destruct (Ho rd Hrd). auto.
  - intros rd Hrd. specialize (Hp rd Hrd). destruct (w_saved w); [done|]. destruct Hp. auto.
Qed.

(** [Append] of the entries of a [Ready]. *)
Lemma save_ready_log rd st st' :
  ms_valid st → savable (ms_log st) rd → save_ready rd st = Ok (Val st') →
  ms_valid st' ∧ ms_log st' = saving (ms_log st) rd ∧ saved_as (ms_log st') rd.
Proof.
  intros Hv [Hsn Hlog He]. unfold save_ready. rewrite Hsn.
  set (st1 := if IsEmptyHardState _ then _ else _).
  assert (H1 : ms_log st1 = ms_log st ∧ ms_valid st1) by (unfold st1; by destruct (IsEmptyHardState _)).
  clearbody st1. destruct H1 as [Hl1 Hv1]. rewrite <- Hl1 in *. clear Hl1 Hv st. unfold saving in *.
  destruct (rd_Entries rd) as [|e0 rest] eqn:Hents.
  { cbn. intros [= <-]. split_and!; [done|done|]. split; [done|]. rewrite Hents. by intros e. }
  destruct (He e0 eq_refl) as [[Hp Hle] Hc]. set (ents := e0 :: rest) in *.
  assert (Hn : 1 ≤ lenN ents) by (unfold ents; rewrite lenN_cons; lia).
  pose proof (log_bound _ Hlog) as Hb. rewrite lg_last_append in Hb by lia.
  pose proof (log_length _ Hlog) as Hlen. cbn in Hlen. rewrite lenN_app, lenN_take in Hlen.
  destruct (Append_valid st1 e0 rest Hv1) as (ms & Ha & Hms & _ & _ & Hml); fold ents.
  { lia. } { done. } { lia. } { done. } { unfold lg_pos, lg_last in *. lia. }
  fold ents in Ha, Hml. rewrite Ha. cbn. intros [= <-].
  rewrite (proj2 (N.ltb_ge _ _)) in Hml by lia. rewrite N.max_l in Hml by lia.
  assert (Hfr : fresh_entries (lg_prev (ms_log st1)) ents = ents).
  { unfold ents, fresh_entries. replace (N.to_nat _) with 0%nat by lia. done. }
  rewrite Hfr in Hml. split_and!; [done|done|]. split; [done|]. rewrite Hents. fold ents.
  intros e Hlast. rewrite last_lookup in Hlast. pose proof (lookup_lt_Some _ _ _ Hlast) as Hlt.
  assert (Hei : e_Index e = e_Index e0 + N.of_nat (Nat.pred (length ents))) by (rewrite (Hc _ _ Hlast); lia).
  rewrite Hml, Hei. split.
  - rewrite lg_last_append by lia. unfold lenN in *. lia.
  - rewrite lg_term_append_new by lia. by rewrite Hlast.
Qed.

(** The write does not touch the log of the node. *)
Lemma save_keeps (l : raftLog MemoryStorage) rd st' :
  rl_valid l → u_snapshot (l_unstable l) = None → savable (ms_log (l_storage l)) rd → ahead l rd →
  ms_valid st' → ms_log st' = saving (ms_log (l_storage l)) rd →
  rl_valid (l <| l_storage := st' |>) ∧ rl_log (l <| l_storage := st' |>) = rl_log l.
Proof.
  intros Hv Hsn [_ Hlog He] Ha Hms Hml. unfold saving in *.
  pose proof Hv as [Hvs Hok Ho Hem Hlo Hc Hap]. specialize (Ho Hsn).
  set (l2 := l <| l_storage := st' |>).
  assert (Hcase : lg_prev (ms_log st') = lg_prev (ms_log (l_storage l)) ∧
    u_offset (l_unstable l) ≤ lg_last (ms_log st') + 1 ∧
    (u_entries (l_unstable l) = [] → u_offset (l_unstable l) = lg_last (ms_log st') + 1) ∧
    rl_log l2 = rl_log l).
  { unfold rl_log. cbn. rewrite Hsn, Hml. change (storage_log st') with (ms_log st'). rewrite ?Hml.
    cbn in Ho, Hem. destruct (rd_Entries rd) as [|e0 rest] eqn:Hents.
    { split_and!; [done|lia|auto|done]. }
    destruct (He e0 eq_refl) as [[Hp Hle] _], (Ha e0) as [Hof Hne]; [by rewrite Hents|].
    rewrite lg_last_append by lia. split_and!; [done| |done|].
    - rewrite lenN_cons. lia.
    - unfold lg_append, lg_pos, lg_last, lenN in *. cbn [lg_prev lg_prev_term lg_ents]. do 2 f_equal.
      rewrite take_app_le by (rewrite length_take; lia). rewrite take_take. f_equal. lia. }
  destruct Hcase as (Hp & Hl & He' & Hrl). split; [|done].
  split; rewrite ?Hrl; cbn; try done.
  - intros _. cbn in Ho. change (storage_log st') with (ms_log st'). rewrite Hp. lia.
Qed.

Lemma stored_save w rd st rn :
  stored w → us_pending (w_user w) = Some rd → w_saved w = false →
  save_ready rd (w_storage w) = Ok (Val st) → write_storage st (us_rn (w_user w)) = Ok (tt, rn) →
  let w' := MkWorld (MkUser rn (us_offered (w_user w)) (Some rd)) true (w_sent w) in
  stored w' ∧ rl_log (w_log w') = rl_log (w_log w) ∧ disk w' = saving (disk w) rd.
Proof.
  intros [Hl Hs H1 Ho Hp] Hrd Hsv Hsave [= <-] w'. specialize (Hp rd Hrd). rewrite Hsv in Hp.
  destruct Hp as [Hsav Hah]. destruct (save_ready_log _ _ _ (rv_storage _ (li_valid _ Hl)) Hsav Hsave) as (Hms & Hml & Has).
  destruct (save_keeps (w_log w) rd st (li_valid _ Hl) Hs Hsav Hah Hms Hml) as [Hv' Hrl].
  assert (Hlog : w_log w' = (w_log w) <| l_storage := st |>) by done.
  split; [|split; [by rewrite Hlog|done]].
  split; rewrite ?Hlog; cbn; try done.
  - split; [done|]. rewrite Hrl. apply Hl.
  - intros _. apply H1. by rewrite Hrd.
  - intros rd' Hrd'. rewrite H1 in Hrd' by (rewrite Hrd; done). done.
  - by intros rd' [= <-].
Qed.

(** ** The other events *)

Lemma newReady_log {S} `{Storage S} (r : raft S) s h rd :
  newReady r s h = Ok rd → rd_Entries rd = u_entries (l_unstable (r_raftLog r)) ∧
    rd_Snapshot rd = default Snapshot_zero (u_snapshot (l_unstable (r_raftLog r))).
Proof.
  unfold newReady. destruct (nextEnts _) as [c|]; [|done]. cbn [mbind outcome_bind].
  by intros [= <-].
Qed.

Lemma stored_offer w rd :
  stored w → us_pending (w_user w) = None →
  rd_Entries rd = u_entries (l_unstable (w_log w)) →
  rd_Snapshot rd = default Snapshot_zero (u_snapshot (l_unstable (w_log w))) →
  stored (MkWorld (MkUser (us_rn (w_user w)) (Some rd) None) (w_saved w) (w_sent w)) ∧
  (rd_Entries rd ≠ [] → saving (disk w) rd = rl_log (w_log w)).
Proof.
  intros [Hl Hs H1 Ho Hp] Hpe He Hsn. rewrite Hs in Hsn. pose proof Hl as [Hv _].
  pose proof (rv_offset _ Hv Hs) as Hof. pose proof (u_contiguous _ (rv_unstable _ Hv)) as Hc.
  pose proof (u_offset_pos _ (rv_unstable _ Hv)) as Hpos.
  assert (Hidx : ∀ e, head (rd_Entries rd) = Some e → e_Index e = u_offset (l_unstable (w_log w))).
  { intros e He0. rewrite head_lookup in He0. rewrite He in He0. rewrite (Hc _ _ He0). lia. }
  assert (Hsave : rd_Entries rd ≠ [] → saving (disk w) rd = rl_log (w_log w)).
  { intros Hne. unfold saving. destruct (rd_Entries rd) as [|e rest] eqn:Hents; [done|].
    rewrite (Hidx e eq_refl). unfold rl_log. rewrite Hs, <- He. done. }
  split; [|done]. split; cbn; [done|done|done| |done]. intros rd' [= <-]. split; [split|].
  - by rewrite Hsn.
  - unfold disk. change (log_ok (saving (disk w) rd)). destruct (decide (rd_Entries rd = [])) as [Hnil|Hne].
    + unfold saving. rewrite Hnil. exact (storage_log_ok _ (rv_storage _ Hv)).
    + rewrite Hsave by done. apply Hv.
  - intros e He0. rewrite (Hidx e He0). split; [exact Hof|by rewrite He].
  - intros e He0. rewrite (Hidx e He0). split; [apply N.le_refl|]. change (u_entries (l_unstable (w_log w)) ≠ []).
    rewrite <- He. by destruct (rd_Entries rd).
Qed.

Lemma acceptReady_log rd (rn rn' : RawNode MemoryStorage) :
  acceptReady rd rn = Ok (tt, rn') → r_raftLog (rn_raft rn') = r_raftLog (rn_raft rn) ∧
    r_msgs (rn_raft rn') = [] ∧ r_Term (rn_raft rn') = r_Term (rn_raft rn) ∧
    r_Vote (rn_raft rn') = r_Vote (rn_raft rn) ∧ r_state (rn_raft rn') = r_state (rn_raft rn).
Proof.
  unfold acceptReady. intros ([] & rn1 & [= <-] & (r' & Hr & ->)%on_raft_Ok)%bind_Ok.
  apply bind_Ok in Hr as ([] & r1 & Hr & [= <-]). cbn. revert Hr.
  destruct (rd_SoftState rd), (negb _); cbn; by intros [= <-].
Qed.

Lemma stored_accept w rd rn :
  stored w → us_offered (w_user w) = Some rd → r_raftLog (rn_raft rn) = w_log w →
  stored (MkWorld (MkUser rn None (Some rd)) false (w_sent w)).
Proof.
  intros [Hl Hs H1 Ho Hp] Hrd Hlog. destruct (Ho rd Hrd) as [Hsv Ha].
  split; unfold w_log, disk, w_storage, w_raft; cbn; rewrite ?Hlog; try done. by intros rd' [= <-].
Qed.
Lemma stored_send w ms : stored w → stored (MkWorld (w_user w) (w_saved w) (w_sent w ++ ms)).
Proof. by intros []. Qed.

(** What [Advance] does: the applied index moves, which may append the entry that
    leaves a joint configuration, and then the saved entries are marked stable. *)
Lemma Advance_split rd (rn rn' : RawNode MemoryStorage) :
  Advance rd rn = Ok (tt, rn') → IsEmptySnap (rd_Snapshot rd) = true →
  ∃ r1, (reduceUncommittedSize (rd_CommittedEntries rd);;
         when (0 <? appliedCursor rd) (advance_applied (appliedCursor rd))) (rn_raft rn) = Ok (tt, r1) ∧
    match last (rd_Entries rd) with
    | None => rn_raft rn' = r1
    | Some e => ∃ l, stableTo (r_raftLog r1) (e_Index e) (e_Term e) = Ok l ∧
                     rn_raft rn' = r1 <| r_raftLog := l |>
    end.
Proof.
  unfold Advance. intros ([] & rn1 & [= <-] & (r' & Hr & ->)%on_raft_Ok)%bind_Ok Hsn.
  assert (Hrn : rn_raft (if IsEmptyHardState (rd_HardState rd) then rn
    else rn <| rn_prevHardSt := rd_HardState rd |>) = rn_raft rn) by (by destruct (IsEmptyHardState _)).
  rewrite Hrn in Hr. unfold advance in Hr. apply bind_Ok in Hr as ([] & r0 & H0 & Hr).
  apply bind_Ok in Hr as ([] & r1 & H1 & Hr). exists r1. split.
  { unfold mbind, M_bind. by rewrite H0. }
  apply bind_Ok in Hr as ([] & r2 & H2 & Hr). rewrite Hsn in Hr. injection Hr as <-.
  destruct (last (rd_Entries rd)) as [e|]; [|by injection H2 as <-].
  unfold log_step in H2. destruct (stableTo _ _ _) as [l|]; [|done]. injection H2 as <-. by exists l.
Qed.

(** The part of [Advance] before the entries are marked. *)
Lemma applied_hoarding rd :
  moves (@hoarding MemoryStorage) (reduceUncommittedSize (rd_CommittedEntries rd);;
    when (0 <? appliedCursor rd) (advance_applied (appliedCursor rd))).
Proof. pose proof (advance_applied_hoarding (S:=MemoryStorage) (appliedCursor rd)). walk_hoard. Qed.
Lemma applied_evolves a m rd (r : raft MemoryStorage) :
  a + lenN (m_Entries m) + 3 < 9223372036854775808 →
  evolves a m (reduceUncommittedSize (rd_CommittedEntries rd);;
    when (0 <? appliedCursor rd) (advance_applied (appliedCursor rd))) r.
Proof.
  intros Hroom. apply evolves_relay; [walk_calm|]. intros _ r1 _.
  destruct (0 <? appliedCursor rd); [by apply advance_applied_evolves|]. apply evolves_calm, moves_ret, _.
Qed.

Lemma stored_stable w rd rn r' :
  stored w → us_pending (w_user w) = Some rd → w_saved w = true →
  match last (rd_Entries rd) with
  | None => r' = w_raft w
  | Some e => ∃ l, stableTo (w_log w) (e_Index e) (e_Term e) = Ok l ∧ r' = (w_raft w) <| r_raftLog := l |>
  end →
  (∀ i t, lg_term (disk w) i = Some t → lg_term (rl_log (w_log w)) i = Some t →
     ∀ k, lg_prev (rl_log (w_log w)) < k ≤ i → lg_entry (disk w) k = lg_entry (rl_log (w_log w)) k) →
  rn_raft rn = r' →
  let w' := MkWorld (MkUser rn None None) false (w_sent w) in
  stored w' ∧ rl_log (w_log w') = rl_log (w_log w) ∧ w_storage w' = w_storage w.
Proof.
  intros [Hl Hs H1 Ho Hp] Hrd Hsv Hr' Hag Hrn w'. specialize (Hp rd Hrd). rewrite Hsv in Hp.
  destruct Hp as [_ Has].
  assert (Hnew : rl_valid (w_log w') ∧ rl_log (w_log w') = rl_log (w_log w) ∧
    l_storage (w_log w') = l_storage (w_log w) ∧ u_snapshot (l_unstable (w_log w')) = None).
  { unfold w_log at 1 2 4 6, w_raft. cbn. rewrite Hrn. clear Hrn w'.
    destruct (last (rd_Entries rd)) as [e|]; [|subst r'; split_and!; [apply Hl|done|done|exact Hs]].
    destruct Hr' as (l & Hst & ->). destruct (Has e eq_refl) as [Hlast Hterm]. cbn.
    apply (stableTo_keeps _ _ _ _ (li_valid _ Hl) Hs Hst); [done|]. intros Ht. by apply (Hag _ _ Hterm Ht). }
  destruct Hnew as (Hv' & Hlog & Hst & Hsn'). split; [|by split].
  split; cbn; try done. split; [done|]. rewrite Hlog. apply Hl.
Qed.

Lemma stored_restart rand (c : raft_Config MemoryStorage) st rn sent :
  c_Storage c = Some st → ms_valid st → (lg_prev (ms_log st) = 0 → lg_prev_term (ms_log st) = 0) →
  NewRawNode rand c = Ok rn →
  let w' := MkWorld (MkUser rn None None) false sent in
  stored w' ∧ rl_log (w_log w') = ms_log st ∧ w_storage w' = st ∧
  Forall (carries (ms_log st)) (r_msgs (w_raft w')).
Proof.
  intros Hst Hv Hz Hn w'. unfold NewRawNode in Hn. apply outcome_bind_Ok in Hn as (r & Hr & [= <-]).
  assert (Hvs : storage_valid st) by exact Hv.
  destruct (newRaft_log rand c st r Hst Hvs Hz Hr) as (Hi & Hl & Hs & Hsn & Hm).
  split; [|by split_and!]. split; done.
Qed.
End Stored.
