(* ===== verification/Cluster.v ===== *)
(** * Election safety of a cluster

    Nodes with a fixed set of voters, each saved and restarted as in the file
    Runs, and a network that may delay, duplicate, reorder, drop and even invent
    messages, except that a vote response comes from the node it names.  No two
    nodes are leaders of the same term at the same time. *)

From S2P Require Import Prelude Pb Quorum Inflights Progress Tracker Confchange.
From S2P Require Import Util Storage Unstable RaftLog ReadOnly Raft RawNode Node.
From S2P Require Import RaftFrame RaftSafety RaftElection RaftBallot Runs.

Notation cluster := (gmap N world).

Section Cluster.
Context `{RaftPB}.
Variable voters : JointConfig.

(** The node [id] has sent its vote in [term] to [to]. *)
Definition sent_vote (C : cluster) (to term id : N) : Prop :=
  ∃ w g, C !! id = Some w ∧ g ∈ w_sent w ∧ grants g = true ∧ m_Term g = term ∧ m_To g = to.

(** What may happen to node [i]: no configuration is brought in, and a vote
    response was sent to it by the node it comes from. *)
Definition allowed (C : cluster) (i : N) (ev : event) (w' : world) : Prop :=
  match ev with
  | EUse (URecv m) =>
      m_Type m ≠ MsgSnap ∧
      (m_Type m = MsgVoteResp → m_Term m ≠ 0 ∧ m_To m = i ∧
        ∃ w, C !! m_From m = Some w ∧ m ∈ w_sent w)
  | EUse (UApply _) => False
  | ERestart => r_id (w_raft w') = i ∧ Voters (t_Config (r_prs (w_raft w'))) = voters
  | _ => True
  end.

Inductive cluster_steps : cluster → cluster → Prop :=
| cluster_refl C : cluster_steps C C
| cluster_snoc C C1 i w ev w' :
    cluster_steps C C1 → C1 !! i = Some w → world_step w ev w' → allowed C1 i ev w' →
    cluster_steps C (<[i := w']> C1).

Definition cluster_initial (C : cluster) : Prop :=
  ∀ i w, C !! i = Some w → initial w ∧ r_id (w_raft w) = i ∧ i ≠ None_id ∧
    Voters (t_Config (r_prs (w_raft w))) = voters.

Definition cluster_inv (C : cluster) : Prop :=
  ∀ i w, C !! i = Some w → vote_inv w ∧ ballot_ok i voters (sent_vote C i) (w_raft w).

(** ** One node *)

Lemma newRaft_follower {S} `{Storage S} rand (c : raft_Config S) r :
  newRaft rand c = Ok r → r_state r = StateFollower.
Proof.
  unfold newRaft. destruct (validate c) as [c'|]; [|done]. destruct (c_Storage c') as [st|]; [|done].
  destruct (newLogWithSize _ _) as [l|]; [|done]. cbn [mbind outcome_bind].
  destruct (must (InitialState st)) as [[hs cs]|]; [|done]. cbn [mbind outcome_bind].
  intros ([[] r1] & Hb & [= <-])%outcome_bind_Ok.
  apply bind_Ok in Hb as (? & ? & _ & (? & ? & _ & (? & ? & _ & Hb)%bind_Ok)%bind_Ok).
  apply bind_Ok in Hb as (r2 & ? & [= <- <-] & ([] & r3 & Hf & Hb)%bind_Ok).
  apply (wp_Ok _ _ _ _ _ _ (becomeFollower_spec_state _ _ _)) in Hf.
  apply bind_Ok in Hb as (t & r4 & Hl & [= <-]). unfold log_read, lift in Hl.
  destruct (lastTerm _); [|done]. by injection Hl as _ <-.
Qed.

Lemma start_ballot rand c rn i granted :
  NewRawNode rand c = Ok rn → r_id (rn_raft rn) = i → i ≠ None_id →
  Voters (t_Config (r_prs (rn_raft rn))) = voters → ballot_ok (S := MemoryStorage) i voters granted (rn_raft rn).
Proof.
  unfold NewRawNode. intros (r & Hr & [= <-])%outcome_bind_Ok Hi Hn Hv. cbn in *.
  apply idle_ballot; [done|done|]. left. by apply newRaft_follower in Hr.
Qed.

Lemma acceptReady_ballot i granted rd (rn rn' : RawNode MemoryStorage) :
  acceptReady rd rn = Ok (tt, rn') → ballot_ok i voters granted (rn_raft rn) →
  ballot_ok i voters granted (rn_raft rn').
Proof.
  unfold acceptReady. intros ([] & rn1 & [= <-] & (r' & Hr & ->)%on_raft_Ok)%bind_Ok Hok.
  cbn. match type of Hr with ?m ?r = _ => assert (Hm : moves (keeps_ballot i voters granted) m)
    by (walk; by apply keeps_ballot_same) end.
  apply (moves_Ok _ _ _ _ _ Hm) in Hr. apply Hr. by destruct (rd_SoftState rd).
Qed.

Lemma use_ballot (C : cluster) i w a u :
  admissible w a → uses1 (w_user w) a u → allowed C i (EUse a) (MkWorld u (w_saved w) (w_sent w)) →
  ballot_ok i voters (sent_vote C i) (w_raft w) → ballot_ok i voters (sent_vote C i) (rn_raft (us_rn u)).
Proof.
  destruct w as [[rn o p] saved sent]. unfold w_raft. cbn. intros Had Hu Hal Hok.
  inversion Hu; subst; cbn in Had, Hal; try done.
  - match goal with Hx : on_raft _ _ = _ |- _ => apply on_raft_Ok in Hx as (r' & Hr & ->) end.
    destruct Had as [Ht _]. apply (moves_Ok _ _ _ _ _ (prop_ballot i voters (sent_vote C i) m Ht)) in Hr. by apply Hr.
  - match goal with Hx : on_raft _ _ = _ |- _ => apply on_raft_Ok in Hx as (r' & Hr & ->) end.
    destruct Hal as [Hsn Hvr].
    assert (Htr : truthful (sent_vote C i) m).
    { intros Ht. destruct (Hvr Ht) as (Hz & Hto & w & Hw & Hin). split; [done|]. intros Hrej.
      exists w, m. split_and!; try done. unfold grants. by rewrite Ht, Hrej. }
    apply (moves_Ok _ _ _ _ _ (recv_ballot i voters (sent_vote C i) m Htr Hsn)) in Hr. by apply Hr.
  - match goal with Hx : Tick _ = _ |- _ => apply on_raft_Ok in Hx as (r' & Hr & ->) end.
    apply (moves_Ok _ _ _ _ _ (tick_ballot i voters (sent_vote C i))) in Hr. by apply Hr.
Qed.

Lemma world_step_ballot (C : cluster) i w ev w' :
  world_step w ev w' → allowed C i ev w' →
  ballot_ok i voters (sent_vote C i) (w_raft w) → ballot_ok i voters (sent_vote C i) (w_raft w').
Proof.
  intros Hs Hal Hok. destruct Hs as [w a u Had Hu|w rd u Hu|w rd st rn Hrd Hsv Hst Hw|w rd Hrd Hsv
    |w u Hsv Hu|w rand c rn Hst Hn].
  - by apply (use_ballot C i w a u).
  - destruct w as [[rn o p] saved sent]. unfold w_raft in *. cbn in *. inversion Hu; subst.
    by eapply acceptReady_ballot.
  - injection Hw as <-. unfold w_raft in *. cbn. by apply (keeps_ballot_same i voters _ (rn_raft (us_rn (w_user w)))).
  - done.
  - destruct w as [[rn o p] saved sent]. unfold w_raft in *. cbn in *. inversion Hu; subst.
    match goal with Hx : Advance _ _ = _ |- _ => unfold Advance in Hx;
      apply bind_Ok in Hx as ([] & rn1 & [= <-] & (r' & Hr & ->)%on_raft_Ok) end.
    apply (moves_Ok _ _ _ _ _ (advance_ballot i voters (sent_vote C i) rd)) in Hr. apply Hr.
    by destruct (IsEmptyHardState _).
  - destruct Hal as [Hi Hv]. unfold w_raft in *. cbn in *.
    apply (start_ballot rand c); [done|done| |done]. apply (bo_id _ _ _ _ Hok).
Qed.

(** Messages that were sent stay sent. *)
Lemma world_step_sent w ev w' : world_step w ev w' → w_sent w ⊆ w_sent w'.
Proof. destruct 1; cbn; set_solver. Qed.

Lemma sent_vote_mono C i w w' to term id :
  C !! i = Some w → w_sent w ⊆ w_sent w' → sent_vote C to term id →
  sent_vote (<[i := w']> C) to term id.
Proof.
  intros Hi Hs (x & g & Hx & Hg & Hgr). destruct (decide (id = i)) as [->|Hne].
  - exists w', g. rewrite lookup_insert_eq. split; [done|]. split; [|done].
    rewrite Hi in Hx. injection Hx as <-. by apply Hs.
  - exists x, g. by rewrite lookup_insert_ne.
Qed.

Lemma cluster_inv_insert C i w w' :
  cluster_inv C → C !! i = Some w → w_sent w ⊆ w_sent w' → vote_inv w' →
  ballot_ok i voters (sent_vote C i) (w_raft w') → cluster_inv (<[i := w']> C).
Proof.
  intros Hinv Hi Hsub Hvi Hbo.
  assert (Hmono : ∀ j x, ballot_ok j voters (sent_vote C j) (w_raft x) →
    ballot_ok j voters (sent_vote (<[i := w']> C) j) (w_raft x)).
  { intros j x. apply ballot_ok_mono. intros t id. by apply (sent_vote_mono C i w w'). }
  intros j x [(<- & <-)|[Hne Hx]]%lookup_insert_Some; [by auto|].
  destruct (Hinv j x Hx). auto.
Qed.

Lemma cluster_step_inv C i w ev w' :
  cluster_inv C → C !! i = Some w → world_step w ev w' → allowed C i ev w' → cluster_inv (<[i := w']> C).
Proof.
  intros Hinv Hi Hs Hal. destruct (Hinv i w Hi) as [Hvi Hbo].
  apply (cluster_inv_insert C i w w'); [done|done|by eapply world_step_sent|by eapply step_inv|].
  by apply (world_step_ballot C i w ev w').
Qed.

Lemma cluster_initial_inv C : cluster_initial C → cluster_inv C.
Proof.
  intros Hini i w Hw. destruct (Hini i w Hw) as ((rand & c & st & rn & Hst & Hn & ->) & Hid & Hne & Hv).
  unfold w_raft in *. cbn in *. split; [|by apply (start_ballot rand c)].
  apply (restart_inv rand c st rn []); [done|done|by intros ? ?%elem_of_nil|by intros ? ? ?%elem_of_nil].
Qed.
Lemma cluster_steps_inv C C' : cluster_initial C → cluster_steps C C' → cluster_inv C'.
Proof.
  intros Hini. induction 1 as [C|C C1 i w ev w' _ IH Hi Hs Hal]; [by apply cluster_initial_inv|].
  by apply (cluster_step_inv C1 i w ev w'); auto.
Qed.

(** The vote behind an election: the winner's own, or one that was sent. *)
Lemma counted_vote C i w id :
  cluster_inv C → C !! i = Some w → id = i ∨ sent_vote C i (r_Term (w_raft w)) id →
  r_state (w_raft w) = StateLeader →
  ∀ j term, sent_vote C j term id → term = r_Term (w_raft w) → j = i.
Proof.
  intros Hinv Hi Hid Hl j term (x & g & Hx & Hg & Hgr & Ht & Hto) ->.
  destruct (Hinv id x Hx) as [Hvx _]. destruct (vi_all _ Hvx) as [Hc Hsi].
  assert (Hin : ∀ g, g ∈ w_sent x → g ∈ w_sent x ++ pending_msgs x ++ r_msgs (w_raft x)) by set_solver.
  destruct Hid as [->|(y & h & Hy & Hh & Hhr & Hht & Hhto)].
  - rewrite Hi in Hx. injection Hx as <-. destruct (Hinv i w Hi) as [_ Hb].
    destruct (Hc g (Hin g Hg) Hgr) as [_ Hv]. destruct (Hv Ht) as [Hv2 _].
    cbn in Hv2. rewrite (bo_own _ _ _ _ Hb) in Hv2 by (by right). congruence.
  - rewrite Hx in Hy. injection Hy as <-. rewrite <- Hto, <- Hhto. apply Hsi; auto. congruence.
Qed.

Lemma one_leader C i j w x :
  keys (incoming voters) ≠ ∅ → cluster_inv C → C !! i = Some w → C !! j = Some x →
  r_state (w_raft w) = StateLeader → r_state (w_raft x) = StateLeader →
  r_Term (w_raft w) = r_Term (w_raft x) → i = j.
Proof.
  intros Hne Hinv Hi Hj Hli Hlj Ht.
  destruct (Hinv i w Hi) as [_ Hbi], (Hinv j x Hj) as [_ Hbj].
  destruct (bo_lead _ _ _ _ Hbi Hli) as (vi & Hwi & Hci), (bo_lead _ _ _ _ Hbj Hlj) as (vj & Hwj & Hcj).
  destruct (wins_share_voter voters vi vj Hne Hwi Hwj) as (id & _ & Hidi & Hidj).
  specialize (Hci id Hidi). specialize (Hcj id Hidj).
  destruct Hcj as [->|Hsj].
  - destruct Hci as [->|Hsi]; [done|].
    apply (counted_vote C j x j Hinv Hj (or_introl eq_refl) Hlj i (r_Term (w_raft w)) Hsi Ht).
  - symmetry. by apply (counted_vote C i w id Hinv Hi Hci Hli j (r_Term (w_raft x)) Hsj).
Qed.
End Cluster.

(** ** Properties *)

#[local] Existing Instance ex_pb.

(** Three voters, of which nodes 1 and 2 take part: node 1 campaigns, node 2 saves
    and sends its vote, and node 1 receives it. *)
Definition ex_voters : JointConfig := Voters (t_Config (r_prs ex_raft)).
Definition ex_config2 : raft_Config MemoryStorage :=
  MkRaftConfig 2 10 1 (Some ex_node_storage) 4 1024 0 0 4 false false ReadOnlySafe false.
Definition ex_two : RawNode MemoryStorage :=
  match NewRawNode (λ _, 7%Z) ex_config2 with Ok rn => rn | Panic => ex_rn end.
Definition ex_ask : Message :=
  (msg MsgVote 2) <| m_From := 1 |> <| m_Term := 3 |> <| m_Index := 5 |> <| m_LogTerm := 2 |>.
Definition ex_two1 : RawNode MemoryStorage := ex_ok (on_raft (recv ex_ask)) ex_two.
Definition ex_ready2 : Ready :=
  match readyWithoutAccept ex_two1 with Ok (rd, _) => rd | Panic => Ready_zero end.
Definition ex_two2 : RawNode MemoryStorage := ex_ok (acceptReady ex_ready2) ex_two1.
Definition ex_saved2 : MemoryStorage :=
  match save_ready ex_ready2 (l_storage (r_raftLog (rn_raft ex_two2))) with
  | Ok (Val st) => st
  | _ => NewMemoryStorage
  end.
Definition ex_two3 : RawNode MemoryStorage := ex_ok (write_storage ex_saved2) ex_two2.
Definition ex_one1 : RawNode MemoryStorage := ex_ok (on_raft (recv (msg MsgHup 0))) ex_rn.
Definition ex_answer : Message := default (msg MsgHup 0) (head (rd_Messages ex_ready2)).
Definition ex_one2 : RawNode MemoryStorage := ex_ok (on_raft (recv ex_answer)) ex_one1.

Definition ex_fresh (rn : RawNode MemoryStorage) : world := MkWorld (MkUser rn None None) false [].
Definition ex_world2 : world := MkWorld (MkUser ex_two3 None (Some ex_ready2)) true (rd_Messages ex_ready2).
Definition ex_C0 : cluster := <[1 := ex_fresh ex_rn]> {[2 := ex_fresh ex_two]}.

Lemma ex_cluster_initial : cluster_initial ex_voters ex_C0.
Proof.
  intros i w. unfold ex_C0. intros [(<- & <-)|[_ (<- & <-)%lookup_singleton_Some]]%lookup_insert_Some.
  - split; [|vm_compute; split_and!; done]. exists (λ _, 7%Z), ex_config, ex_node_storage, ex_rn.
    vm_compute. by split_and!.
  - split; [|vm_compute; split_and!; done]. exists (λ _, 7%Z), ex_config2, ex_node_storage, ex_two.
    vm_compute. by split_and!.
Qed.

(** The run, one event after the other. *)
Definition ex_b0 : world := ex_fresh ex_two.
Definition ex_b1 : world := ex_fresh ex_two1.
Definition ex_b2 : world := MkWorld (MkUser ex_two1 (Some ex_ready2) None) false [].
Definition ex_b3 : world := MkWorld (MkUser ex_two2 None (Some ex_ready2)) false [].
Definition ex_b4 : world := MkWorld (MkUser ex_two3 None (Some ex_ready2)) true [].
Definition ex_C1 : cluster := <[1 := ex_fresh ex_one1]> ex_C0.
Definition ex_C2 : cluster := <[2 := ex_b1]> ex_C1.
Definition ex_C3 : cluster := <[2 := ex_b2]> ex_C2.
Definition ex_C4 : cluster := <[2 := ex_b3]> ex_C3.
Definition ex_C5 : cluster := <[2 := ex_b4]> ex_C4.
Definition ex_C6 : cluster := <[2 := ex_world2]> ex_C5.
Definition ex_C7 : cluster := <[1 := ex_fresh ex_one2]> ex_C6.

Lemma ex_answer_sent : ex_answer ∈ w_sent ex_world2.
Proof. unfold ex_answer, ex_world2. cbn [w_sent]. vm_compute. left. Qed.

Lemma ex_recv (rn rn' : RawNode MemoryStorage) m :
  m_Type m ≠ MsgSnap → (from_leader (m_Type m) = true → m_Term m ≠ 0) →
  (m_Type m = MsgVote → m_From m ≠ None_id) → N.max (r_Term (rn_raft rn)) (m_Term m) + 1 < two64 →
  on_raft (recv m) rn = Ok (tt, rn') → ∀ o p saved sent,
  world_step (MkWorld (MkUser rn o p) saved sent) (EUse (URecv m)) (MkWorld (MkUser rn' o p) saved sent).
Proof.
  intros Hsn Hl Hv Hb Hr o p saved sent. apply (step_use (MkWorld (MkUser rn o p) saved sent) (URecv m)).
  - by split.
  - by apply uses_recv.
Qed.

Lemma ex_step1 : world_step (ex_fresh ex_rn) (EUse (URecv (msg MsgHup 0))) (ex_fresh ex_one1).
Proof. apply ex_recv; by vm_compute. Qed.
Lemma ex_step2 : world_step ex_b0 (EUse (URecv ex_ask)) ex_b1.
Proof. apply ex_recv; by vm_compute. Qed.
Lemma ex_step3 : world_step ex_b1 (EUse UOffer) ex_b2.
Proof. apply (step_use ex_b1 UOffer); [exact I|]. apply uses_offer; vm_compute; reflexivity. Qed.
Lemma ex_step4 : world_step ex_b2 (EAccept ex_ready2) ex_b3.
Proof. apply (step_accept ex_b2 ex_ready2). apply uses_accept. vm_compute. reflexivity. Qed.
Lemma ex_step5 : world_step ex_b3 ESave ex_b4.
Proof. refine (step_save ex_b3 ex_ready2 ex_saved2 ex_two3 eq_refl eq_refl _ _); vm_compute; reflexivity. Qed.
Lemma ex_step6 : world_step ex_b4 ESend ex_world2.
Proof. exact (step_send ex_b4 ex_ready2 eq_refl eq_refl). Qed.
Lemma ex_step7 : world_step (ex_fresh ex_one1) (EUse (URecv ex_answer)) (ex_fresh ex_one2).
Proof. apply ex_recv; by vm_compute. Qed.

Lemma ex_allowed_recv C i m w' :
  m_Type m ≠ MsgSnap → m_Type m ≠ MsgVoteResp → allowed ex_voters C i (EUse (URecv m)) w'.
Proof. by split. Qed.
Lemma ex_allowed7 : allowed ex_voters ex_C6 1 (EUse (URecv ex_answer)) (ex_fresh ex_one2).
Proof.
  split; [vm_compute; discriminate|]. intros _. split; [vm_compute; discriminate|].
  split; [vm_compute; reflexivity|]. exists ex_world2. split; [|exact ex_answer_sent].
  replace (m_From ex_answer) with 2 by (vm_compute; reflexivity). apply lookup_insert_eq.
Qed.
(** Node 1 after the first six events, and node 2 before it takes part. *)
Lemma ex_C6_one : ex_C6 !! 1 = Some (ex_fresh ex_one1).
Proof. unfold ex_C6, ex_C5, ex_C4, ex_C3, ex_C2, ex_C1. rewrite !lookup_insert_ne by done. apply lookup_insert_eq. Qed.
Lemma ex_C1_two : ex_C1 !! 2 = Some ex_b0.
Proof. unfold ex_C1, ex_C0. rewrite !lookup_insert_ne by done. apply lookup_singleton_eq. Qed.

Lemma ex_cluster_steps : cluster_steps ex_voters ex_C0 ex_C7.
Proof.
  apply (cluster_snoc _ _ ex_C6 1 (ex_fresh ex_one1) (EUse (URecv ex_answer)) _); [|exact ex_C6_one|exact ex_step7|exact ex_allowed7].
  apply (cluster_snoc _ _ ex_C5 2 ex_b4 ESend _); [|apply lookup_insert_eq|exact ex_step6|exact I].
  apply (cluster_snoc _ _ ex_C4 2 ex_b3 ESave _); [|apply lookup_insert_eq|exact ex_step5|exact I].
  apply (cluster_snoc _ _ ex_C3 2 ex_b2 (EAccept ex_ready2) _); [|apply lookup_insert_eq|exact ex_step4|exact I].
  apply (cluster_snoc _ _ ex_C2 2 ex_b1 (EUse UOffer) _); [|apply lookup_insert_eq|exact ex_step3|exact I].
  apply (cluster_snoc _ _ ex_C1 2 ex_b0 (EUse (URecv ex_ask)) _); [|exact ex_C1_two|exact ex_step2|by apply ex_allowed_recv].
  apply (cluster_snoc _ _ ex_C0 1 (ex_fresh ex_rn) (EUse (URecv (msg MsgHup 0))) _); [constructor|apply lookup_insert_eq|exact ex_step1|by apply ex_allowed_recv].
Qed.

(** C3: Election safety of a cluster with fixed voters.  A leader holds a winning set
    of votes of its term (in both halves of a joint configuration), each its own
    or one that was really sent to it, and no other node of the cluster is a
    leader of the same term: whatever is delivered, lost, reordered or duplicated,
    and whichever nodes crash and restart from what they saved. *)
Theorem election_safety `{RaftPB} (voters : JointConfig) (C C' : cluster) (i : N) (w : world) :
  keys (incoming voters) ≠ ∅ → cluster_initial voters C → cluster_steps voters C C' →
  C' !! i = Some w → r_state (w_raft w) = StateLeader →
  (∃ votes, JointVoteResult voters votes = VoteWon ∧
    ∀ id, votes !! id = Some true → id = i ∨ sent_vote C' i (r_Term (w_raft w)) id) ∧
  ∀ j x, C' !! j = Some x → r_state (w_raft x) = StateLeader →
    r_Term (w_raft x) = r_Term (w_raft w) → j = i.
Proof.
  intros Hne Hini Hs Hi Hl. pose proof (cluster_steps_inv voters C C' Hini Hs) as Hinv. split.
  - destruct (Hinv i w Hi) as [_ Hb]. apply (bo_lead _ _ _ _ Hb Hl).
  - intros j x Hj Hlx Ht. by apply (one_leader voters C' j i x w).
Qed.

Lemma election_safety_witness :
  r_state (w_raft (ex_fresh ex_one2)) = StateLeader ∧ sent_vote ex_C7 1 3 2 ∧
  ∀ j x, ex_C7 !! j = Some x → r_state (w_raft x) = StateLeader →
    r_Term (w_raft x) = r_Term (w_raft (ex_fresh ex_one2)) → j = 1.
Proof.
  assert (Hl : r_state (w_raft (ex_fresh ex_one2)) = StateLeader) by (vm_compute; reflexivity).
  split; [exact Hl|]. split.
  - exists ex_world2, ex_answer. split.
    { unfold ex_C7. rewrite lookup_insert_ne by done. apply lookup_insert_eq. }
    split; [exact ex_answer_sent|]. vm_compute. by split_and!.
  - apply (election_safety ex_voters ex_C0 ex_C7 1 (ex_fresh ex_one2)); [|exact ex_cluster_initial|exact ex_cluster_steps| |exact Hl].
    + vm_compute. discriminate.
    + apply lookup_insert_eq.
Defined.
