(* ===== verification/LogLinks.v ===== *)
(** * Links, and who answers for them

    The groundwork of log matching, which is proved in the file LogMatching.

    If two logs hold an entry of the same term at the same index, they hold the
    same entries up to there.  The argument is about links: an entry together with
    the term of the one before it.  A log and an append are made of links; if in
    the whole cluster an index and a term determine a link, the logs match.  A new
    link is made only by a leader, at an index above every link of its term, and
    [backed] is what makes sure of that: behind every link stands the node that won
    the election of its term, for as long as the link exists anywhere. *)

From S2P Require Import Prelude Pb Quorum Inflights Progress Tracker Confchange.
From S2P Require Import Util Storage Unstable RaftLog ReadOnly Raft RawNode Node.
From S2P Require Import RaftFrame RaftSafety RaftElection RaftBallot RaftRoles RaftInvariant.
From S2P Require Import RaftAppend Runs LogRuns Cluster.

(** ** Links *)

Record link := MkLink { k_prev : N; k_entry : Entry }.
Definition k_index (x : link) : N := e_Index (k_entry x).
Definition k_term (x : link) : N := e_Term (k_entry x).

Definition lg_link (lg : Log) (x : link) : Prop :=
  lg_entry lg (k_index x) = Some (k_entry x) ∧ lg_term lg (k_index x - 1) = Some (k_prev x).
(** An append is a piece of a log. *)
Definition msg_log (m : Message) : Log := MkLog (m_Index m) (m_LogTerm m) (m_Entries m).
Definition msg_link (m : Message) (x : link) : Prop := m_Type m = MsgApp ∧ lg_link (msg_log m) x.

Lemma link_eq x y : k_prev x = k_prev y → k_entry x = k_entry y → x = y.
Proof. destruct x, y. cbn. by intros -> ->. Qed.

Lemma lg_link_unique lg x y : lg_link lg x → lg_link lg y → k_index x = k_index y → x = y.
Proof. intros [Hx1 Hx2] [Hy1 Hy2] Hi. rewrite Hi in *. apply link_eq; congruence. Qed.

(** Every entry of a log is in a link. *)
Lemma lg_entry_link lg i e :
  contiguous (lg_prev lg) (lg_ents lg) → lg_entry lg i = Some e →
  ∃ x, lg_link lg x ∧ k_entry x = e ∧ k_index x = i.
Proof.
  intros Hc He. destruct (lg_entry_index _ _ _ Hc He) as [Hi Hp].
  assert (Hs : is_Some (lg_entry lg i)) by by eexists. apply lg_entry_is_Some in Hs.
  destruct (proj2 (lg_term_is_Some lg (i - 1))) as [t Ht]; [lia|].
  exists (MkLink t e). unfold lg_link, k_index. cbn. rewrite Hi. by split_and!.
Qed.
Lemma lg_link_range lg x : lg_link lg x → lg_prev lg < k_index x ≤ lg_last lg.
Proof. intros [He _]. apply lg_entry_is_Some. by eexists. Qed.

(** Logs that agree around an index have the same link there. *)
Lemma lg_link_ext lg lg' x :
  lg_entry lg (k_index x) = lg_entry lg' (k_index x) →
  lg_term lg (k_index x - 1) = lg_term lg' (k_index x - 1) → lg_link lg x → lg_link lg' x.
Proof. intros He Ht [H1 H2]. split; congruence. Qed.

Lemma segment_link lg m x : carries lg m → msg_link m x → lg_link lg x.
Proof.
  intros Hc [Hm Hl]. destruct (Hc Hm) as [He|(Hcg & Ht & Hents)].
  { destruct Hl as [Hl _]. unfold lg_entry, msg_log in Hl. cbn in Hl. rewrite He in Hl.
    by destruct (_ <? _). }
  assert (Hent : ∀ i e, lg_entry (msg_log m) i = Some e → lg_entry lg i = Some e).
  { intros i e Hi. destruct (lg_entry_index (msg_log m) i e Hcg Hi) as [<- _]. apply Hents.
    unfold lg_entry in Hi. destruct (_ <? _); [|done]. cbn in Hi. by eapply list_elem_of_lookup_2. }
  destruct Hl as [Hl1 Hl2]. split; [by apply Hent|].
  destruct (decide (k_index x - 1 = m_Index m)) as [Hi|Hi].
  - rewrite Hi in *. rewrite Ht. change (m_Index m) with (lg_prev (msg_log m)) in Hl2.
    rewrite lg_term_prev in Hl2. by injection Hl2 as <-.
  - assert (Hs : is_Some (lg_term (msg_log m) (k_index x - 1))) by by eexists.
    apply lg_term_is_Some in Hs. cbn [lg_prev msg_log] in Hs.
    destruct (lg_entry_term _ _ _ Hl2) as (e & He & <-); [cbn; lia|]. by apply lg_term_entry, Hent.
Qed.

(** Links before and from the cut of an append. *)
Lemma lg_link_append lg after ents x :
  lg_prev lg < after → after ≤ lg_last lg + 1 → lg_link (lg_append lg after ents) x →
  (k_index x < after ∧ lg_link lg x) ∨
  (after ≤ k_index x ∧ ents !! N.to_nat (k_index x - after) = Some (k_entry x)).
Proof.
  intros Hp Ha Hx. destruct (decide (k_index x < after)) as [Hlt|Hge].
  - left. split; [done|]. revert Hx. apply lg_link_ext.
    + by rewrite lg_entry_append_old.
    + by rewrite lg_term_append_old by lia.
  - right. split; [lia|]. destruct Hx as [He _].
    replace (k_index x) with (after + N.of_nat (N.to_nat (k_index x - after))) in He at 1 by lia.
    by rewrite lg_entry_append_new in He by done.
Qed.

(** Where the links of a log come from that changed in one call. *)
Lemma log_change_link {S} `{RaftPB} `{!Storage S} `{!StorageLaws S} m lg (r' : raft S) x :
  log_change m lg r' → m_Type m ≠ MsgSnap → log_ok lg →
  (m_Type m = MsgApp → contiguous (m_Index m) (m_Entries m) ∧ has_terms (m_Entries m)) →
  lg_link (rl_log (r_raftLog r')) x →
  lg_link lg x ∨ msg_link m x ∨
  (lg_last lg < k_index x ∧ k_term x = r_Term r' ∧ r_state r' = StateLeader).
Proof.
  intros Hch Hsn Hok Hwf Hx. destruct Hch as [es Hlog Hc Ht Hs|Hm _ Hidx Hne Hlog|Hm]; [| |done].
  - rewrite Hlog in Hx. assert (Hl : lg_prev lg < lg_last lg + 1) by (unfold lg_last; lia).
    apply lg_link_append in Hx as [[_ Hx]|[Hge Hx]]; [by left|right; right|done|lia].
    assert (Hin : k_entry x ∈ es) by by eapply list_elem_of_lookup_2.
    split; [lia|]. split; [by apply Ht|]. apply Hs. intros ->. by apply not_elem_of_nil in Hin.
  - destruct (Hwf Hm) as [Hc Hterms].
    assert (Hs : is_Some (lg_term lg (m_Index m))) by by eexists. apply lg_term_is_Some in Hs.
    destruct (lg_conflict_spec lg (m_Index m) (m_Entries m) Hc Hterms) as
      [[? _]|(k & e & Hk & Hci & Hkl & _ & Hbef)]; [lia|done|].
    set (ci := lg_conflict lg (m_Entries m)) in *. rewrite Hlog in Hx.
    replace (N.to_nat (ci - m_Index m - 1)) with k in Hx by lia.
    destruct (decide (k_index x < ci)) as [Hlt|Hge].
    + left. apply lg_link_append in Hx as [[_ Hx]|[? _]]; [done|lia|lia|lia].
    + right. left. split; [done|].
      assert (He : ∀ j, ci ≤ j → lg_entry (lg_append lg ci (drop k (m_Entries m))) j = lg_entry (msg_log m) j).
      { intros j Hj. replace j with (ci + N.of_nat (N.to_nat (j - ci))) at 1 by lia.
        rewrite lg_entry_append_new, lookup_drop by lia.
        replace j with (lg_prev (msg_log m) + 1 + N.of_nat (k + N.to_nat (j - ci))) at 2 by (cbn; lia).
        by rewrite lg_entry_lookup. }
      revert Hx. apply lg_link_ext; [apply He; lia|].
      destruct (decide (k_index x = ci)) as [->|Hne2].
      * rewrite lg_term_append_old by lia. destruct k as [|k].
        { replace (ci - 1) with (m_Index m) by lia. rewrite Hidx.
          change (m_Index m) with (lg_prev (msg_log m)). by rewrite lg_term_prev. }
        destruct (lookup_lt_is_Some_2 (m_Entries m) k) as [e' He']; [apply lookup_lt_Some in Hk; lia|].
        assert (Hi' : e_Index e' = ci - 1) by (rewrite (Hc _ _ He'); lia).
        rewrite <- Hi', (Hbef k e') by (lia || done). symmetry. apply lg_term_entry. rewrite (Hc _ _ He').
        change (m_Index m) with (lg_prev (msg_log m)). by rewrite lg_entry_lookup.
      * assert (Hp : ∀ lg2 j, lg_prev lg2 < j → lg_term lg2 j = e_Term <$> lg_entry lg2 j).
        { intros lg2 j Hj. unfold lg_term, lg_entry. rewrite (proj2 (N.ltb_lt _ _) Hj).
          by rewrite (proj2 (N.eqb_neq _ _)), (proj2 (N.ltb_ge _ _)) by lia. }
        rewrite !Hp by (cbn; lia). by rewrite He by lia.
Qed.

(** ** What a node holds *)

Section Holds.
Context `{RaftPB}.
Implicit Types w : world.

Definition all_msgs w : list Message := w_sent w ++ pending_msgs w ++ r_msgs (w_raft w).

(** The links a node holds, each with the ballot that will be saved before it
    outlives a crash: the current one for what is only in memory, the one of the
    [Ready] for what is being saved, and the saved one. *)
Inductive holds w : ballot → link → Prop :=
| holds_log x : lg_link (rl_log (w_log w)) x → holds w (r_ballot (w_raft w)) x
| holds_msg m x : m ∈ r_msgs (w_raft w) → msg_link m x → holds w (r_ballot (w_raft w)) x
| holds_offered rd x :
    us_offered (w_user w) = Some rd → lg_link (saving (disk w) rd) x → holds w (ready_ballot w rd) x
| holds_offered_msg rd m x :
    us_offered (w_user w) = Some rd → m ∈ rd_Messages rd → msg_link m x → holds w (ready_ballot w rd) x
| holds_pending rd x :
    us_pending (w_user w) = Some rd → w_saved w = false → lg_link (saving (disk w) rd) x →
    holds w (ready_ballot w rd) x
| holds_pending_msg rd m x :
    us_pending (w_user w) = Some rd → m ∈ rd_Messages rd → msg_link m x → holds w (ready_ballot w rd) x
| holds_disk x : lg_link (disk w) x → holds w (durable_ballot w) x
| holds_sent m x : m ∈ w_sent w → msg_link m x → holds w (durable_ballot w) x.

Lemma durable_le v : vote_inv v → ballot_le (durable_ballot v) (r_ballot (w_raft v)).
Proof.
  intros Hv. rewrite (vi_durable _ Hv). destruct (us_pending (w_user v)) as [rd|] eqn:Hrd; [|apply Hv].
  destruct (w_saved v); [apply (vi_pending _ Hv rd Hrd)|apply Hv].
Qed.

Lemma holds_ballot w b x : vote_inv w → holds w b x → ballot_le b (r_ballot (w_raft w)).
Proof.
  intros Hi Hx. pose proof (durable_le w Hi).
  destruct Hx; try done.
  - by apply (vi_offered _ Hi).
  - by apply (vi_offered _ Hi).
  - by apply (vi_pending _ Hi).
  - by apply (vi_pending _ Hi).
Qed.

(** A link only a leader makes: its own, at the end of its log. *)
Definition fresh w w' (x : link) : Prop :=
  k_term x = r_Term (w_raft w') ∧ r_state (w_raft w') = StateLeader ∧
  log_last (w_raft w) < k_index x ≤ log_last (w_raft w') ∧ lg_link (rl_log (w_log w')) x.

(** What an event may do to a node, if the links [inc] come in: it keeps the saved
    ballot, and its own one unless it crashes; a link it holds it held before, at
    a lower ballot, or it came in or is fresh. *)
Record carried (inc : link → Prop) w w' : Prop := {
  cr_stored : stored w';
  cr_votes : vote_inv w';
  cr_durable : ballot_le (durable_ballot w) (durable_ballot w');
  cr_ballot :
    (turns (w_raft w) (w_raft w') ∧ ballot_le (r_ballot (w_raft w)) (r_ballot (w_raft w')) ∧
     (r_state (w_raft w') = StateLeader → log_last (w_raft w) ≤ log_last (w_raft w'))) ∨
    (r_ballot (w_raft w') = durable_ballot w ∧ r_state (w_raft w') = StateFollower);
  cr_grants g : g ∈ all_msgs w' → grants g = true →
    g ∈ all_msgs w ∨ m_Term g = r_Term (w_raft w') ∧ m_To g = r_Vote (w_raft w');
  cr_sent : w_sent w ⊆ w_sent w';
  cr_wf m : m ∈ all_msgs w' → m_Type m = MsgApp →
    m ∈ all_msgs w ∨ contiguous (m_Index m) (m_Entries m);
  cr_position : lg_prev (disk w') = lg_prev (disk w) ∧ lg_prev_term (disk w') = lg_prev_term (disk w);
  cr_links b' x : holds w' b' x →
    (∃ b, holds w b x ∧ ballot_le b b') ∨ b' = r_ballot (w_raft w') ∧ (inc x ∨ fresh w w' x);
}.

Lemma rl_log_disk w :
  stored w → lg_prev (rl_log (w_log w)) = lg_prev (disk w) ∧
    lg_prev_term (rl_log (w_log w)) = lg_prev_term (disk w).
Proof. intros Hs. unfold rl_log. by rewrite (sd_nosnap _ Hs). Qed.
Lemma saving_position lg rd :
  lg_prev (saving lg rd) = lg_prev lg ∧ lg_prev_term (saving lg rd) = lg_prev_term lg.
Proof. unfold saving. by destruct (rd_Entries rd). Qed.
End Holds.

(** ** The cluster *)

Definition covers (b : ballot) (l t : N) : Prop := t < b.1 ∨ b = (t, l).
Lemma covers_mono b b' l t : l ≠ None_id → ballot_le b b' → covers b l t → covers b' l t.
Proof.
  intros Hl [Ht Hv] [Hlt|Heq]; [left; lia|]. subst b. cbn in *.
  destruct (decide (b'.1 = t)) as [He|]; [|left; lia]. right. destruct b' as [t' v]. cbn in *.
  subst t'. by rewrite Hv.
Qed.

Section Matching.
Context `{RaftPB}.
Variables (voters : JointConfig) (K : N).
Hypothesis Hvoters : keys (incoming voters) ≠ ∅.
Implicit Types C : cluster.

(** The node [l] has won the election of term [t] and has not forgotten it, and if
    it still is in that term it is not up for election again, and the link at
    [idx] is in its log if it leads. *)
Record owns C (l : N) wl (t idx : N) : Prop := {
  ow_won : ∃ votes, JointVoteResult voters votes = VoteWon ∧
    ∀ id, votes !! id = Some true → id = l ∨ sent_vote C l t id;
  ow_vote : covers (r_ballot (w_raft wl)) l t;
  ow_grants g : g ∈ all_msgs wl → grants g = true → m_Term g = t → m_To g = l;
  ow_role : r_Term (w_raft wl) = t → r_state (w_raft wl) ≠ StateCandidate ∧
    (r_state (w_raft wl) = StateLeader → idx ≤ log_last (w_raft wl));
}.

(** Behind a link of a term after the start is such a node; if it is another one
    than the holder it has saved its vote. *)
Definition backed C (i : N) (b : ballot) (x : link) : Prop :=
  k_term x ≤ K ∨ ∃ l wl, C !! l = Some wl ∧ l ≠ None_id ∧ owns C l wl (k_term x) (k_index x) ∧
    (l = i → covers b i (k_term x)) ∧ (l ≠ i → covers (durable_ballot wl) l (k_term x)).

Record match_inv C : Prop := {
  mi_stored i w : C !! i = Some w → stored w ∧ K ≤ (durable_ballot w).1;
  mi_role i w : C !! i = Some w →
    r_state (w_raft w) = StateCandidate ∨ r_state (w_raft w) = StateLeader → K < r_Term (w_raft w);
  mi_position i w : C !! i = Some w → lg_prev_term (disk w) = 0 ↔ lg_prev (disk w) = 0;
  mi_wf i w m : C !! i = Some w → m ∈ all_msgs w → m_Type m = MsgApp →
    contiguous (m_Index m) (m_Entries m);
  mi_backed i w b x : C !! i = Some w → holds w b x → backed C i b x;
  mi_good i w b x : C !! i = Some w → holds w b x → 0 < k_term x ∧ (k_prev x = 0 → k_index x = 1);
  mi_unique i j w v b c x y : C !! i = Some w → C !! j = Some v → holds w b x → holds v c y →
    k_index x = k_index y → k_term x = k_term y → x = y;
}.

(** Two winners of one term are one. *)
Lemma owners_same C l l' wl wl' t idx idx' :
  cluster_inv voters C → C !! l = Some wl → C !! l' = Some wl' →
  owns C l wl t idx → owns C l' wl' t idx' → l = l'.
Proof.
  intros Hinv Hl Hl' [(v1 & Hw1 & Hc1) _ Hg1 _] [(v2 & Hw2 & Hc2) _ Hg2 _].
  destruct (wins_share_voter voters v1 v2 Hvoters Hw1 Hw2) as (id & _ & H1 & H2).
  assert (Hin : ∀ x g, g ∈ w_sent x → g ∈ all_msgs x) by (intros; apply elem_of_app; by left).
  destruct (Hc1 id H1) as [->|(x & g & Hx & Hg & Hgr & Ht & Hto)].
  - destruct (Hc2 l H2) as [->|(y & h & Hy & Hh & Hhr & Hht & Hhto)]; [done|].
    rewrite Hl in Hy. injection Hy as <-. rewrite <- Hhto. symmetry. apply Hg1; auto.
  - destruct (Hc2 id H2) as [->|(y & h & Hy & Hh & Hhr & Hht & Hhto)].
    + rewrite Hl' in Hx. injection Hx as <-. rewrite <- Hto. apply Hg2; auto.
    + rewrite Hx in Hy. injection Hy as <-. rewrite <- Hto, <- Hhto.
      destruct (Hinv id x Hx) as [Hvi _]. destruct (vi_all _ Hvi) as [_ Hs].
      apply Hs; [by apply Hin|by apply Hin|done|done|congruence].
Qed.

(** A leader owns its term. *)
Lemma leader_owns C i w idx :
  cluster_inv voters C → C !! i = Some w → r_state (w_raft w) = StateLeader →
  idx ≤ log_last (w_raft w) → i ≠ None_id ∧ owns C i w (r_Term (w_raft w)) idx.
Proof.
  intros Hinv Hi Hs Hidx. destruct (Hinv i w Hi) as [Hvi Hb]. split; [apply (bo_id _ _ _ _ Hb)|].
  assert (Hv : r_Vote (w_raft w) = i) by (apply (bo_own _ _ _ _ Hb); by right).
  split.
  - apply (bo_lead _ _ _ _ Hb Hs).
  - right. unfold r_ballot. by rewrite Hv.
  - intros g Hg Hgr Ht. destruct (vi_all _ Hvi) as [Hc _]. destruct (Hc g Hg Hgr) as [_ Hto].
    destruct (Hto Ht) as [-> _]. exact Hv.
  - intros _. rewrite Hs. by split.
Qed.

(** ** One event *)

Section Event.
Variables (C : cluster) (i : N) (w w' : world) (inc : link → Prop).
Hypothesis Hinv : cluster_inv voters C.
Hypothesis Hinv' : cluster_inv voters (<[i := w']> C).
Hypothesis Hm : match_inv C.
Hypothesis Hi : C !! i = Some w.
Hypothesis Hcr : carried inc w w'.
Hypothesis Hinc : ∀ x, inc x → ∃ j v, C !! j = Some v ∧ holds v (durable_ballot v) x.

Lemma after_event j v : <[i := w']> C !! j = Some v → (j = i ∧ v = w') ∨ (j ≠ i ∧ C !! j = Some v).
Proof. intros [(<- & <-)|[Hne Hv]]%lookup_insert_Some; auto. Qed.

Lemma role_after : r_state (w_raft w') = StateCandidate ∨ r_state (w_raft w') = StateLeader →
  K < r_Term (w_raft w').
Proof.
  intros Hs. destruct (cr_ballot _ _ _ Hcr) as [([Ht Hc Hl] & _ & _)|[_ Hf]].
  2:{ rewrite Hf in Hs. by destruct Hs. }
  destruct (mi_stored _ Hm i w Hi) as [_ HK]. pose proof (mi_role _ Hm i w Hi) as HR.
  assert (Hd : (durable_ballot w).1 ≤ r_Term (w_raft w)) by apply (durable_le w (proj1 (Hinv i w Hi))).
  destruct (decide (r_Term (w_raft w') = r_Term (w_raft w))) as [He|]; [|lia].
  rewrite He. apply HR. destruct Hs as [Hs|Hs]; auto.
Qed.

(** The owner of a link remains one. *)
Lemma owns_event l wl t idx :
  C !! l = Some wl → l ≠ None_id → owns C l wl t idx →
  (l = i → covers (r_ballot (w_raft w')) i t) →
  ∃ wl', <[i := w']> C !! l = Some wl' ∧ owns (<[i := w']> C) l wl' t idx ∧
    ballot_le (durable_ballot wl) (durable_ballot wl').
Proof.
  intros Hl Hn [(votes & Hw & Hc) Hv Hg Hr] Hcov.
  assert (Hwon : ∃ votes, JointVoteResult voters votes = VoteWon ∧
    ∀ id, votes !! id = Some true → id = l ∨ sent_vote (<[i := w']> C) l t id).
  { exists votes. split; [done|]. intros id Hid. destruct (Hc id Hid) as [|Hs]; [by left|right].
    by apply (sent_vote_mono C i w w' l t id Hi (cr_sent _ _ _ Hcr)). }
  destruct (decide (l = i)) as [->|Hne].
  2:{ exists wl. rewrite lookup_insert_ne by done. split; [done|]. split; [by split|reflexivity]. }
  rewrite Hi in Hl. injection Hl as <-. specialize (Hcov eq_refl). exists w'.
  rewrite lookup_insert_eq. split; [done|]. split; [|apply (cr_durable _ _ _ Hcr)]. split; [done|done| |].
  - intros g Hin Hgr Ht. destruct (cr_grants _ _ _ Hcr g Hin Hgr) as [?|[Htg ->]]; [by apply Hg|].
    destruct Hcov as [Hlt|Heq]; [cbn in Hlt; lia|]. by injection Heq.
  - intros Ht. destruct (cr_ballot _ _ _ Hcr) as [([Ht1 Hc1 Hl1] & _ & Hlast)|[_ Hf]].
    2:{ by rewrite Hf. }
    assert (He : r_Term (w_raft w) = t).
    { destruct Hv as [Hlt|Heq]; [cbn in Hlt; lia|]. by injection Heq. }
    destruct (Hr He) as [Hrc Hrl]. split; [intros Hs; apply Hrc, Hc1; [lia|done]|].
    intros Hs. specialize (Hlast Hs). destruct (Hl1 ltac:(lia) Hs) as [?|Hls]; [done|].
    specialize (Hrl Hls). lia.
Qed.

(** Links that were held stay backed. *)
Lemma backed_event j v b j' b' x :
  C !! j = Some v → backed C j b x →
  (j' = j ∧ ballot_le b b' ∧ (j = i → ballot_le b' (r_ballot (w_raft w')))) ∨
  (j' = i ∧ b = durable_ballot v ∧ b' = r_ballot (w_raft w')) →
  backed (<[i := w']> C) j' b' x.
Proof.
  intros Hj [HK|(l & wl & Hl & Hn & Ho & Hown & Hoth)] Hcase; [by left|right].
  assert (Hd' : ballot_le (durable_ballot w) (r_ballot (w_raft w'))).
  { etrans; [apply (cr_durable _ _ _ Hcr)|]. apply durable_le, (cr_votes _ _ _ Hcr). }
  assert (Hcov : l = i → covers (r_ballot (w_raft w')) i (k_term x)).
  { intros ->. rewrite Hi in Hl. injection Hl as <-. destruct (decide (i = j)) as [<-|Hne].
    - specialize (Hown eq_refl). destruct Hcase as [(-> & Hb & Hb')|(-> & -> & ->)].
      + eapply covers_mono; [done| |exact Hown]. etrans; [exact Hb|by apply Hb'].
      + rewrite Hi in Hj. injection Hj as <-. by eapply covers_mono.
    - specialize (Hoth Hne). by eapply covers_mono. }
  destruct (owns_event l wl _ _ Hl Hn Ho Hcov) as (wl' & Hl' & Ho' & Hdl).
  exists l, wl'. split; [done|]. split; [done|]. split; [done|].
  destruct Hcase as [(-> & Hb & _)|(-> & -> & ->)].
  - split; [intros ->; eapply covers_mono; [done|exact Hb|auto]|].
    intros Hlj. eapply covers_mono; [done|exact Hdl|auto].
  - split; [intros ->; auto|]. intros _. eapply covers_mono; [done|exact Hdl|].
    destruct (decide (l = j)) as [->|Hne]; [|auto]. rewrite Hj in Hl. injection Hl as <-. auto.
Qed.

(** Every link was held before or is fresh. *)
Lemma link_event j v b x :
  <[i := w']> C !! j = Some v → holds v b x →
  (∃ j0 v0 b0, C !! j0 = Some v0 ∧ holds v0 b0 x) ∨ j = i ∧ fresh w w' x.
Proof.
  intros [[-> ->]|[_ Hj]]%after_event Hx; [|left; by exists j, v, b].
  destruct (cr_links _ _ _ Hcr b x Hx) as [(b0 & Hb & _)|[_ [(j0 & v0 & ? & ?)%Hinc|Hf]]].
  - left. by exists i, w, b0.
  - left. by exists j0, v0, (durable_ballot v0).
  - by right.
Qed.

Lemma backed_after j v b x :
  <[i := w']> C !! j = Some v → holds v b x → backed (<[i := w']> C) j b x.
Proof.
  intros Hj Hx. pose proof (Hinv' j v Hj) as [Hvj _]. pose proof (holds_ballot v b x Hvj Hx) as Hb.
  destruct (after_event j v Hj) as [[-> ->]|[Hne Hj0]].
  2:{ apply (backed_event j v b); [done|by apply (mi_backed _ Hm j v)|]. left. by split_and!. }
  destruct (cr_links _ _ _ Hcr b x Hx) as [(b0 & Hb0 & Hle)|[-> [(j0 & v0 & Hj0 & Hx0)%Hinc|Hf]]].
  - apply (backed_event i w b0); [done|by apply (mi_backed _ Hm i w)|]. left. by split_and!.
  - apply (backed_event j0 v0 (durable_ballot v0)); [done|by apply (mi_backed _ Hm j0 v0)|]. by right.
  - right. destruct Hf as (Ht & Hs & [_ Hidx] & _).
    destruct (leader_owns (<[i := w']> C) i w' (k_index x)) as [Hn Ho]; [done|by rewrite lookup_insert_eq|done|done|].
    exists i, w'. rewrite Ht. rewrite lookup_insert_eq. split_and!; [done|done|done| |done].
    intros _. apply Ho.
Qed.

(** A fresh link is above the older ones of its term. *)
Lemma fresh_above x j v b y :
  fresh w w' x → C !! j = Some v → holds v b y → k_term y = k_term x → k_index y < k_index x.
Proof.
  intros (Ht & Hs & [Hlast Hidx] & _) Hj Hy He. rewrite Ht in He.
  destruct (mi_backed _ Hm j v b y Hj Hy) as [HK|(l & wl & Hl & Hn & Ho & _)].
  { pose proof (role_after (or_intror Hs)). lia. }
  rewrite He in Ho. set (t := r_Term (w_raft w')) in *.
  destruct (leader_owns (<[i := w']> C) i w' (k_index x)) as [_ Ho']; [done|by rewrite lookup_insert_eq|done|done|].
  assert (l = i) as ->.
  { destruct (decide (l = i)) as [|Hne]; [done|].
    destruct (owns_event l wl _ _ Hl Hn Ho) as (wl2 & Hl2 & Ho2 & _); [done|].
    apply (owners_same (<[i := w']> C) l i wl2 w' t (k_index y) (k_index x)); try done.
    by rewrite lookup_insert_eq. }
  rewrite Hi in Hl. injection Hl as <-. destruct Ho as [_ Hv _ Hr].
  destruct (cr_ballot _ _ _ Hcr) as [([Ht1 _ Hl1] & _ & _)|[_ Hf]]; [|congruence].
  assert (Htw : r_Term (w_raft w) = t).
  { destruct Hv as [Hlt|Heq]; [cbn in Hlt; lia|]. by injection Heq. }
  destruct (Hr Htw) as [Hrc Hrl]. destruct (Hl1 ltac:(lia) Hs) as [?|Hls]; [done|]. specialize (Hrl Hls). lia.
Qed.

Lemma match_event : match_inv (<[i := w']> C).
Proof.
  destruct (mi_stored _ Hm i w Hi) as [Hst HK].
  assert (Hpos : ∀ j v b x, <[i := w']> C !! j = Some v → holds v b x → 0 < k_term x).
  { intros j v b x Hj Hx. destruct (link_event j v b x Hj Hx) as [(j0 & v0 & b0 & Hj0 & Hx0)|[_ (Ht & Hs & _)]].
    - by apply (mi_good _ Hm j0 v0 b0).
    - pose proof (role_after (or_intror Hs)). lia. }
  split.
  - intros j v [[-> ->]|[_ Hj]]%after_event; [|by apply (mi_stored _ Hm j)].
    split; [apply Hcr|]. pose proof (cr_durable _ _ _ Hcr) as [Hle _]. lia.
  - intros j v [[-> ->]|[_ Hj]]%after_event; [|by apply (mi_role _ Hm j)]. apply role_after.
  - intros j v [[-> ->]|[_ Hj]]%after_event; [|by apply (mi_position _ Hm j)].
    destruct (cr_position _ _ _ Hcr) as [-> ->]. by apply (mi_position _ Hm i).
  - intros j v m [[-> ->]|[_ Hj]]%after_event; [|by apply (mi_wf _ Hm j)]. intros Hin Hty.
    destruct (cr_wf _ _ _ Hcr m Hin Hty); [by apply (mi_wf _ Hm i w)|done].
  - apply backed_after.
  - intros j v b x Hj Hx. split; [by eapply Hpos|].
    destruct (link_event j v b x Hj Hx) as [(j0 & v0 & b0 & Hj0 & Hx0)|[-> Hf]]; [by apply (mi_good _ Hm j0 v0 b0)|].
    destruct Hf as (_ & _ & _ & Hl). intros Hz. pose proof Hl as [_ Hp]. rewrite Hz in Hp.
    pose proof (lg_link_range _ _ Hl) as [Hlo _]. pose proof (cr_stored _ _ _ Hcr) as Hst'.
    destruct (rl_log_disk w' Hst') as [Hpr Hpt], (cr_position _ _ _ Hcr) as [Hpr2 Hpt2].
    destruct (decide (k_index x - 1 = lg_prev (rl_log (w_log w')))) as [Heq|Hne].
    + rewrite Heq, lg_term_prev in Hp. injection Hp as Hp.
      assert (lg_prev (disk w) = 0) by (apply (mi_position _ Hm i w Hi); congruence). lia.
    + destruct (lg_entry_term _ _ _ Hp) as (e & He & Het); [lia|].
      destruct (lg_entry_link _ _ _ (log_contiguous _ (rv_log _ (li_valid _ (sd_log _ Hst')))) He) as (y & Hy & Hye & _).
      assert (Hpy : 0 < k_term y) by (eapply (Hpos i w'); [by rewrite lookup_insert_eq|by apply holds_log]).
      unfold k_term in Hpy. rewrite Hye in Hpy. lia.
  - intros i1 i2 v1 v2 b1 b2 x y H1 H2 Hx Hy Hidx Hterm.
    destruct (link_event i1 v1 b1 x H1 Hx) as [(j1 & u1 & c1 & Hj1 & Hx1)|[-> Hf1]],
      (link_event i2 v2 b2 y H2 Hy) as [(j2 & u2 & c2 & Hj2 & Hy2)|[-> Hf2]].
    + by apply (mi_unique _ Hm j1 j2 u1 u2 c1 c2).
    + pose proof (fresh_above y j1 u1 c1 x Hf2 Hj1 Hx1 Hterm). lia.
    + pose proof (fresh_above x j2 u2 c2 y Hf1 Hj2 Hy2 (eq_sym Hterm)). lia.
    + destruct Hf1 as (_ & _ & _ & Hl1), Hf2 as (_ & _ & _ & Hl2). by apply (lg_link_unique (rl_log (w_log w'))).
Qed.
End Event.
End Matching.
