(* ===== verification/LogMatching.v ===== *)
(** * The logs of a cluster match

    A run of a cluster as in the file Cluster, in which appends are not invented:
    whatever node crashes, restarts or loses messages, two logs that have the same
    term at an index hold the same entries up to there.  The events of a node are
    taken one by one, to show that each carries its links as [match_event] asks. *)

From S2P Require Import Prelude Pb Quorum Inflights Progress Tracker Confchange.
From S2P Require Import Util Storage Unstable RaftLog ReadOnly Raft RawNode Node.
From S2P Require Import RaftFrame RaftSafety RaftElection RaftBallot RaftRoles RaftInvariant.
From S2P Require Import RaftAppend Runs LogRuns Cluster LogLinks.

(** ** The events *)

Section Events.
Context `{RaftPB}.
Implicit Types w : world.

Lemma carries_wf lg m : carries lg m → m_Type m = MsgApp → contiguous (m_Index m) (m_Entries m).
Proof. intros Hc Hm. destruct (Hc Hm) as [->|[? _]]; [apply contiguous_nil|done]. Qed.

(** A call of the state machine. *)
Definition called w (r' : raft MemoryStorage) : world :=
  MkWorld (MkUser ((us_rn (w_user w)) <| rn_raft := r' |>) (us_offered (w_user w)) (us_pending (w_user w)))
    (w_saved w) (w_sent w).

(** The links of a node after a call: in its log, and in what it sends. *)
Lemma call_log_link m w r' x :
  evolved m (w_raft w) r' → stored w → m_Type m ≠ MsgSnap →
  (m_Type m = MsgApp → contiguous (m_Index m) (m_Entries m) ∧ has_terms (m_Entries m)) →
  lg_link (rl_log (r_raftLog r')) x →
  lg_link (rl_log (w_log w)) x ∨ msg_link m x ∨ (k_term x = r_Term r' ∧ r_state r' = StateLeader ∧
    log_last (w_raft w) < k_index x ≤ log_last r').
Proof.
  intros [Hi' Hch _] Hst Hm Hwf Hx. pose proof (lg_link_range _ _ Hx) as [_ Hle].
  destruct (log_change_link _ _ _ _ Hch Hm (rv_log _ (li_valid _ (sd_log _ Hst))) Hwf Hx) as [?|[?|(? & ? & ?)]]; auto.
  right. right. by split_and!.
Qed.
Lemma call_msg_link m w r' g x :
  evolved m (w_raft w) r' → g ∈ r_msgs r' → msg_link g x →
  g ∈ r_msgs (w_raft w) ∨ lg_link (rl_log (w_log w)) x ∨ lg_link (rl_log (r_raftLog r')) x.
Proof.
  intros [_ _ (new & -> & Hn)] [?|Hg]%elem_of_app Hx; [by left|right].
  rewrite Forall_forall in Hn. destruct (Hn g Hg) as [Hc|Hc]; [left|right]; by apply (segment_link _ g).
Qed.
Lemma call_wf m w r' g :
  evolved m (w_raft w) r' → g ∈ r_msgs r' → m_Type g = MsgApp →
  g ∈ r_msgs (w_raft w) ∨ contiguous (m_Index g) (m_Entries g).
Proof.
  intros [_ _ (new & -> & Hn)] [?|Hg]%elem_of_app Hty; [by left|right].
  rewrite Forall_forall in Hn. destruct (Hn g Hg) as [Hc|Hc]; by apply carries_wf in Hc.
Qed.
(** A leader's log only grows. *)
Lemma call_last m w r' :
  evolved m (w_raft w) r' → r_state r' = StateLeader → log_last (w_raft w) ≤ log_last r'.
Proof.
  intros [_ [es Hlog _ _ _|_ Hn|_ Hn] _] Hs; [|congruence|done]. unfold log_last. rewrite Hlog.
  rewrite lg_last_append; unfold lg_last; lia.
Qed.
Lemma call_grants (r r' : raft MemoryStorage) g :
  vote_moves r r' → g ∈ r_msgs r' → grants g = true →
  g ∈ r_msgs r ∨ m_Term g = r_Term r' ∧ m_To g = r_Vote r'.
Proof.
  intros [_ _ (new & -> & Hn)] [?|Hg]%elem_of_app Hgr; [by left|right]. by destruct (Hn g Hg Hgr) as (? & ? & _).
Qed.

Lemma call_carried (inc : link → Prop) m w r' :
  stored w → vote_inv w → evolved m (w_raft w) r' → hoarding (w_raft w) r' → turns (w_raft w) r' →
  vote_moves (w_raft w) r' → m_Type m ≠ MsgSnap →
  (m_Type m = MsgApp → contiguous (m_Index m) (m_Entries m) ∧ has_terms (m_Entries m)) →
  (∀ x, msg_link m x → inc x) → carried inc w (called w r').
Proof.
  intros Hst Hvi He Hho Ht Hv Hm Hwf Hinc. set (w' := called w r').
  assert (Hdisk : w_storage w' = w_storage w) by apply Hv.
  assert (Hdb : durable_ballot w' = durable_ballot w) by (unfold durable_ballot; by rewrite Hdisk).
  assert (Hds : disk w' = disk w) by (unfold disk; by rewrite Hdisk).
  assert (Hlog : ∀ x, lg_link (rl_log (r_raftLog r')) x → (∃ b, holds w b x ∧ ballot_le b (r_ballot (w_raft w'))) ∨
    r_ballot (w_raft w') = r_ballot (w_raft w') ∧ (inc x ∨ fresh w w' x)).
  { intros x Hx. destruct (call_log_link m w r' x He Hst Hm Hwf Hx) as [Ho|[Hi|(Hkt & Hks & Hki)]].
    - left. exists (r_ballot (w_raft w)). split; [by apply holds_log|apply Hv].
    - right. auto.
    - right. split; [done|]. right. exact (conj Hkt (conj Hks (conj Hki Hx))). }
  split.
  - apply stored_call; [done|apply He|done].
  - apply (raft_moves_inv w r'); done.
  - by rewrite Hdb.
  - left. split; [exact Ht|]. split; [apply Hv|]. apply (call_last m w r' He).
  - intros g. unfold all_msgs. cbn. rewrite !elem_of_app. intros [Hg|[Hg|Hg]] Hgr; [left; by left|left; right; by left|].
    destruct (call_grants _ _ _ Hv Hg Hgr); [left|right; done]. right. by right.
  - done.
  - intros g. unfold all_msgs. cbn. rewrite !elem_of_app. intros [Hg|[Hg|Hg]] Hty; [left; by left|left; right; by left|].
    destruct (call_wf _ _ _ _ He Hg Hty); [left|right; done]. right. by right.
  - by rewrite Hds.
  - assert (Hrb : ∀ rd, ready_ballot w' rd = ready_ballot w rd) by done.
    intros b' x Hx. destruct Hx as [x Hx|g x Hg Hx|rd x Hrd Hx|rd g x Hrd Hg Hx|rd x Hrd Hsv Hx|rd g x Hrd Hg Hx|x Hx|g x Hg Hx].
    + by apply Hlog.
    + destruct (call_msg_link m w r' g x He Hg Hx) as [Ho|[Ho|Ho]]; [left|left|by apply Hlog].
      * exists (r_ballot (w_raft w)). split; [by apply (holds_msg w g)|apply Hv].
      * exists (r_ballot (w_raft w)). split; [by apply holds_log|apply Hv].
    + left. rewrite Hrb. rewrite Hds in Hx. exists (ready_ballot w rd). split; [by apply holds_offered|done].
    + left. rewrite Hrb. exists (ready_ballot w rd). split; [by apply (holds_offered_msg w rd g)|done].
    + left. rewrite Hrb. rewrite Hds in Hx. exists (ready_ballot w rd). split; [by apply holds_pending|done].
    + left. rewrite Hrb. exists (ready_ballot w rd). split; [by apply (holds_pending_msg w rd g)|done].
    + left. rewrite Hdb. rewrite Hds in Hx. exists (durable_ballot w). split; [by apply holds_disk|done].
    + left. rewrite Hdb. exists (durable_ballot w). split; [by apply (holds_sent w g)|done].
Qed.

(** The events that leave the state machine alone: the term, the vote, the role
    and the log are the same, nothing is sent. *)
Lemma still_carried (inc : link → Prop) w w' :
  stored w' → vote_inv w' → ballot_le (durable_ballot w) (durable_ballot w') →
  settled (w_raft w) (w_raft w') → r_Vote (w_raft w') = r_Vote (w_raft w) →
  rl_log (w_log w') = rl_log (w_log w) → w_sent w ⊆ w_sent w' → all_msgs w' ⊆ all_msgs w →
  lg_prev (disk w') = lg_prev (disk w) ∧ lg_prev_term (disk w') = lg_prev_term (disk w) →
  (∀ b' x, holds w' b' x → ∃ b, holds w b x ∧ ballot_le b b') → carried inc w w'.
Proof.
  intros Hst Hvi Hd Hs Hv Hl Hsent Hall Hpos Hlinks.
  split; try done.
  - left. split; [by apply settled_turns|]. split.
    + unfold r_ballot. by rewrite Hv, (proj1 Hs).
    + intros _. unfold log_last. change (r_raftLog (w_raft w')) with (w_log w'). by rewrite Hl.
  - intros g Hg _. left. by apply Hall.
  - intros g Hg _. left. by apply Hall.
  - intros b' x Hx. left. by apply Hlinks.
Qed.

Lemma offer_carried inc rn o saved sent rd :
  let w := MkWorld (MkUser rn o None) saved sent in
  let w' := MkWorld (MkUser rn (Some rd) None) saved sent in
  stored w → vote_inv w → readyWithoutAccept rn = Ok (rd, rn) → vote_inv w' → carried inc w w'.
Proof.
  intros w w' Hst Hvi Hr Hvi'. apply readyWithoutAccept_Ok in Hr as [_ Hr].
  destruct (newReady_fields _ _ _ _ Hr) as [Hms Hhs], (newReady_log _ _ _ _ Hr) as [Hes Hsn].
  destruct (stored_offer w rd Hst eq_refl Hes Hsn) as [Hst' Hsave].
  pose proof (ready_ballot_now w rd (vi_prev _ Hvi) Hhs) as Hrb.
  apply still_carried; try done. intros b' x Hx.
  assert (Hdisk : lg_link (disk w) x → ∃ b, holds w b x ∧ ballot_le b (r_ballot (w_raft w))).
  { intros Hd. exists (durable_ballot w). split; [by apply holds_disk|]. by apply durable_le. }
  destruct Hx as [x Hx|g x Hg Hx|rd' x [= <-] Hx|rd' g x [= <-] Hg Hx|rd' x [=]|rd' g x [=]|x Hx|g x Hg Hx].
  - exists (r_ballot (w_raft w)). split; [by apply holds_log|done].
  - exists (r_ballot (w_raft w)). split; [by apply (holds_msg w g)|done].
  - change (ready_ballot w' rd) with (ready_ballot w rd). rewrite Hrb.
    destruct (decide (rd_Entries rd = [])) as [Hn|Hn].
    + unfold saving in Hx. rewrite Hn in Hx. by apply Hdisk.
    + change (disk w') with (disk w) in Hx. rewrite Hsave in Hx by done.
      exists (r_ballot (w_raft w)). split; [by apply holds_log|done].
  - change (ready_ballot w' rd) with (ready_ballot w rd). rewrite Hrb. rewrite Hms in Hg.
    exists (r_ballot (w_raft w)). split; [by apply (holds_msg w g)|done].
  - exists (durable_ballot w). split; [by apply holds_disk|done].
  - exists (durable_ballot w). split; [by apply (holds_sent w g)|done].
Qed.

Lemma accept_carried inc w rd rn :
  stored w → vote_inv w → us_offered (w_user w) = Some rd → us_pending (w_user w) = None →
  acceptReady rd (us_rn (w_user w)) = Ok (tt, rn) →
  let w' := MkWorld (MkUser rn None (Some rd)) false (w_sent w) in
  vote_inv w' → carried inc w w'.
Proof.
  intros Hst Hvi Hrd Hpe Ha w' Hvi'. destruct (acceptReady_log _ _ _ Ha) as (Hl & Hm & Ht & Hv & Hs).
  destruct (acceptReady_Ok _ _ _ Ha) as (Hpr & _).
  assert (Hl' : w_log w' = w_log w) by done. assert (Hwst : w_storage w' = w_storage w).
  { unfold w_storage. change (r_raftLog (w_raft w')) with (w_log w'). by rewrite Hl'. }
  assert (Hds : disk w' = disk w) by (unfold disk; by rewrite Hwst).
  assert (Hdb : durable_ballot w' = durable_ballot w) by (unfold durable_ballot; by rewrite Hwst).
  assert (Hrb : ready_ballot w' rd = ready_ballot w rd) by (unfold ready_ballot, prev_ballot; cbn; by rewrite Hpr).
  assert (Hmsgs : r_msgs (w_raft w') = []) by done.
  apply still_carried; try done.
  - by apply stored_accept.
  - by rewrite Hdb.
  - by rewrite Hl'.
  - intros g. unfold all_msgs. rewrite Hmsgs, app_nil_r, !elem_of_app. cbn. intros [Hg|Hg]; [by left|].
    right. right. by apply (vi_offered _ Hvi rd Hrd).
  - by rewrite Hds.
  - assert (Hrbal : r_ballot (w_raft w') = r_ballot (w_raft w)) by (unfold r_ballot, w_raft; cbn; by rewrite Ht, Hv).
    intros b' x Hx. destruct Hx as [x Hx|g x Hg Hx|rd' x [=]|rd' g x [=]|rd' x [= <-] _ Hx|rd' g x [= <-] Hg Hx|x Hx|g x Hg Hx].
    + exists (r_ballot (w_raft w)). split; [apply holds_log; by rewrite <- Hl'|by rewrite Hrbal].
    + rewrite Hmsgs in Hg. by apply elem_of_nil in Hg.
    + exists (ready_ballot w rd). rewrite Hds in Hx. split; [by apply holds_offered|by rewrite Hrb].
    + exists (ready_ballot w rd). split; [by apply (holds_offered_msg w rd g)|by rewrite Hrb].
    + exists (durable_ballot w). rewrite Hds in Hx. split; [by apply holds_disk|by rewrite Hdb].
    + exists (durable_ballot w). split; [by apply (holds_sent w g)|by rewrite Hdb].
Qed.

Lemma save_carried inc w rd st rn :
  stored w → vote_inv w → us_pending (w_user w) = Some rd → w_saved w = false →
  save_ready rd (w_storage w) = Ok (Val st) → write_storage st (us_rn (w_user w)) = Ok (tt, rn) →
  let w' := MkWorld (MkUser rn (us_offered (w_user w)) (Some rd)) true (w_sent w) in
  vote_inv w' → carried inc w w'.
Proof.
  intros Hst Hvi Hrd Hsv Hsave Hwr w' Hvi'.
  destruct (stored_save w rd st rn Hst Hrd Hsv Hsave Hwr) as (Hst' & Hlog & Hdisk). fold w' in Hst', Hlog, Hdisk.
  injection Hwr as <-. pose proof (vi_durable _ Hvi) as Hd. rewrite Hrd, Hsv in Hd.
  pose proof (vi_durable _ Hvi') as Hd'. cbn in Hd'.
  assert (Hrb : ready_ballot w' rd = ready_ballot w rd) by done. rewrite Hrb in Hd'.
  destruct (vi_pending _ Hvi rd Hrd) as (Hle & _ & _).
  assert (Hdle : ballot_le (durable_ballot w) (durable_ballot w')) by by rewrite Hd, Hd'.
  apply still_carried; try done.
  - intros g. unfold all_msgs, pending_msgs. cbn. by rewrite Hrd.
  - rewrite Hdisk. apply saving_position.
  - assert (Hoff : us_offered (w_user w) = None) by (apply (sd_one _ Hst); by rewrite Hrd).
    intros b' x Hx. destruct Hx as [x Hx|g x Hg Hx|rd' x Hr'|rd' g x Hr'|rd' x _ [=]|rd' g x [= <-] Hg Hx|x Hx|g x Hg Hx].
    + exists (r_ballot (w_raft w)). split; [apply holds_log; by rewrite <- Hlog|done].
    + exists (r_ballot (w_raft w)). split; [by apply (holds_msg w g)|done].
    + cbn in Hr'. by rewrite Hoff in Hr'.
    + cbn in Hr'. by rewrite Hoff in Hr'.
    + exists (ready_ballot w rd). split; [by apply (holds_pending_msg w rd g)|done].
    + rewrite Hd'. exists (ready_ballot w rd). rewrite Hdisk in Hx. split; [by apply holds_pending|done].
    + exists (durable_ballot w). split; [by apply (holds_sent w g)|done].
Qed.

Lemma send_carried inc w rd :
  stored w → vote_inv w → us_pending (w_user w) = Some rd → w_saved w = true →
  let w' := MkWorld (w_user w) true (w_sent w ++ rd_Messages rd) in vote_inv w' → carried inc w w'.
Proof.
  intros Hst Hvi Hrd Hsv w' Hvi'. pose proof (vi_durable _ Hvi) as Hd. rewrite Hrd, Hsv in Hd.
  destruct w as [u saved sent]. cbn in *. subst saved.
  set (w := MkWorld u true sent) in *.
  apply still_carried; try done.
  - by apply (stored_send w).
  - intros g Hg. by apply elem_of_app; left.
  - intros g. unfold all_msgs, pending_msgs. cbn. rewrite Hrd, !elem_of_app. tauto.
  - intros b' x Hx. destruct Hx as [x Hx|g x Hg Hx|rd' x Hr' Hx|rd' g x Hr' Hg Hx|rd' x _ [=]|rd' g x Hr' Hg Hx|x Hx|g x Hg Hx].
    + exists (r_ballot (w_raft w)). split; [by apply holds_log|done].
    + exists (r_ballot (w_raft w)). split; [by apply (holds_msg w g)|done].
    + exists (ready_ballot w rd'). split; [by apply holds_offered|done].
    + exists (ready_ballot w rd'). split; [by apply (holds_offered_msg w rd' g)|done].
    + exists (ready_ballot w rd'). split; [by apply (holds_pending_msg w rd' g)|done].
    + exists (durable_ballot w). split; [by apply holds_disk|done].
    + cbn in Hg. apply elem_of_app in Hg as [Hg|Hg].
      * exists (durable_ballot w). split; [by apply (holds_sent w g)|done].
      * exists (ready_ballot w rd). split; [by apply (holds_pending_msg w rd g)|].
        change (durable_ballot w') with (durable_ballot w). by rewrite Hd.
Qed.

Lemma restart_carried inc w rand c rn :
  stored w → vote_inv w → (lg_prev_term (disk w) = 0 ↔ lg_prev (disk w) = 0) →
  c_Storage c = Some (w_storage w) → NewRawNode rand c = Ok rn →
  let w' := MkWorld (MkUser rn None None) false (w_sent w) in vote_inv w' → carried inc w w'.
Proof.
  intros Hst Hvi Hpos Hc Hn w' Hvi'.
  destruct (stored_restart rand c (w_storage w) rn (w_sent w) Hc (rv_storage _ (li_valid _ (sd_log _ Hst))))
    as (Hst' & Hlog & Hwst & Hms); [apply Hpos|done|]. fold w' in Hst', Hlog, Hwst, Hms.
  assert (Hds : disk w' = disk w) by (unfold disk; by rewrite Hwst).
  assert (Hdb : durable_ballot w' = durable_ballot w) by (unfold durable_ballot; by rewrite Hwst).
  unfold NewRawNode in Hn. apply outcome_bind_Ok in Hn as (r & Hr & [= <-]).
  destruct (newRaft_ballot _ _ _ Hr) as (st' & hs & cs & Hst1 & Hin & Hb & _ & Hng).
  rewrite Hc in Hst1. injection Hst1 as <-. injection Hin as <- <-.
  assert (Hrb : r_ballot (w_raft w') = durable_ballot w) by done.
  split; try done.
  - by rewrite Hdb.
  - right. split; [done|]. by apply newRaft_follower in Hr.
  - intros g. unfold all_msgs, pending_msgs. cbn. rewrite !elem_of_app. intros [Hg|Hg] Hgr; [left; by left|].
    rewrite Forall_forall in Hng. by rewrite (Hng g Hg) in Hgr.
  - intros g. unfold all_msgs, pending_msgs. cbn. rewrite !elem_of_app. intros [Hg|Hg] Hty; [left; by left|right].
    rewrite Forall_forall in Hms. by apply (carries_wf _ _ (Hms g Hg)).
  - by rewrite Hds.
  - intros b' x Hx. left. exists (durable_ballot w).
    destruct Hx as [x Hx|g x Hg Hx|rd' x [=]|rd' g x [=]|rd' x [=]|rd' g x [=]|x Hx|g x Hg Hx]; rewrite ?Hrb, ?Hdb.
    + rewrite Hlog in Hx. split; [by apply holds_disk|done].
    + rewrite Forall_forall in Hms. split; [|done]. apply holds_disk. by apply (segment_link _ g), Hx; apply Hms.
    + rewrite Hds in Hx. split; [by apply holds_disk|done].
    + split; [by apply (holds_sent w g)|done].
Qed.
End Events.

(** ** Logs that match *)

(** Where two logs have the same term they agree, and so they do below, as far as
    neither was compacted. *)
Definition logs_match (lg lg' : Log) : Prop :=
  ∀ k t, lg_term lg k = Some t → lg_term lg' k = Some t →
    ∀ j, j ≤ k → lg_prev lg ≤ j → lg_prev lg' ≤ j →
      lg_term lg j = lg_term lg' j ∧
      (lg_prev lg < j → lg_prev lg' < j → lg_entry lg j = lg_entry lg' j).

Lemma links_match lg lg' :
  contiguous (lg_prev lg) (lg_ents lg) → contiguous (lg_prev lg') (lg_ents lg') →
  (∀ x y, lg_link lg x → lg_link lg' y → k_index x = k_index y → k_term x = k_term y → x = y) →
  logs_match lg lg'.
Proof.
  intros Hc Hc' Hu k t Ht Ht'.
  assert (Hstep : ∀ j s, lg_term lg j = Some s → lg_term lg' j = Some s → lg_prev lg < j → lg_prev lg' < j →
    lg_entry lg j = lg_entry lg' j ∧ lg_term lg (j - 1) = lg_term lg' (j - 1)).
  { intros j s Hj Hj' Hp Hp'. destruct (lg_entry_term _ _ _ Hj Hp) as (e & He & Het).
    destruct (lg_entry_term _ _ _ Hj' Hp') as (e' & He' & Het').
    destruct (lg_entry_link _ _ _ Hc He) as (x & Hx & Hxe & Hxi).
    destruct (lg_entry_link _ _ _ Hc' He') as (y & Hy & Hye & Hyi).
    assert (Hxy : x = y) by (apply Hu; unfold k_term; congruence). subst y.
    destruct Hx as [_ Hxp], Hy as [_ Hyp]. rewrite Hxi in Hxp, Hyp. split; congruence. }
  assert (Hd : ∀ d j, j + N.of_nat d = k → lg_prev lg ≤ j → lg_prev lg' ≤ j →
    ∃ s, lg_term lg j = Some s ∧ lg_term lg' j = Some s).
  { induction d as [|d IH]; intros j Hj Hp Hp'.
    { exists t. by replace j with k by lia. }
    destruct (IH (j + 1)) as (s & Hs & Hs'); [lia..|].
    destruct (Hstep (j + 1) s Hs Hs') as [_ He]; [lia..|].
    replace (j + 1 - 1) with j in He by lia.
    assert (Hsome : is_Some (lg_term lg (j + 1))) by by eexists. apply lg_term_is_Some in Hsome.
    destruct (proj2 (lg_term_is_Some lg j)) as [u Hu']; [lia|]. exists u. by rewrite <- He. }
  intros j Hj Hp Hp'. destruct (Hd (N.to_nat (k - j)) j) as (s & Hs & Hs'); [lia|done..|].
  split; [congruence|]. intros Hlt Hlt'. apply (Hstep j s Hs Hs' Hlt Hlt').
Qed.

Lemma match_links lg lg' x y :
  logs_match lg lg' → lg_link lg x → lg_link lg' y → k_index x = k_index y → k_term x = k_term y → x = y.
Proof.
  intros Hm Hx Hy Hi Ht. pose proof (lg_link_range _ _ Hx). pose proof (lg_link_range _ _ Hy).
  destruct Hx as [Hx1 Hx2], Hy as [Hy1 Hy2]. rewrite <- Hi in *.
  pose proof (lg_term_entry _ _ _ Hx1) as Htx. pose proof (lg_term_entry _ _ _ Hy1) as Hty.
  fold (k_term x) in Htx. fold (k_term y) in Hty. rewrite <- Ht in Hty.
  destruct (Hm _ _ Htx Hty (k_index x)) as [_ He]; [lia..|].
  destruct (Hm _ _ Htx Hty (k_index x - 1)) as [Hp _]; [lia..|].
  apply link_eq; [congruence|]. specialize (He ltac:(lia) ltac:(lia)). congruence.
Qed.

(** ** The steps of a cluster *)

Section Calls.
Context `{RaftPB}.
Implicit Types w : world.

(** The indexes stay away from the end of their range. *)
Definition has_room w (ev : event) : Prop :=
  match ev with
  | EUse (URecv m) =>
      N.max (log_last (w_raft w)) (m_Index m + lenN (m_Entries m)) + lenN (m_Entries m) + 3 < 9223372036854775808
  | EUse (UProp m) => log_last (w_raft w) + lenN (m_Entries m) + 3 < 9223372036854775808
  | EUse UTick | EAdvance => log_last (w_raft w) + 3 < 9223372036854775808
  | _ => True
  end.

(** An append that comes in is a well-formed piece of a log. *)
Definition sound_append (m : Message) : Prop :=
  m_Type m = MsgApp → contiguous (m_Index m) (m_Entries m) ∧ has_terms (m_Entries m) ∧
    (m_Entries m ≠ [] → m_LogTerm m = 0 → m_Index m = 0).

Lemma sound_append_links m :
  (m_Type m = MsgApp → contiguous (m_Index m) (m_Entries m)) →
  (∀ x, msg_link m x → 0 < k_term x ∧ (k_prev x = 0 → k_index x = 1)) → sound_append m.
Proof.
  intros Hc Hl Hm. specialize (Hc Hm).
  assert (Hlink : ∀ i e, m_Entries m !! i = Some e → ∃ x, msg_link m x ∧ k_entry x = e ∧
    k_index x = m_Index m + 1 + N.of_nat i).
  { intros i e He. destruct (lg_entry_link (msg_log m) (m_Index m + 1 + N.of_nat i) e) as (x & Hx & Hxe & Hxi).
    - exact Hc.
    - change (m_Index m) with (lg_prev (msg_log m)). by rewrite lg_entry_lookup.
    - by exists x. }
  split; [done|]. split.
  - apply Forall_forall. intros e [i He]%list_elem_of_lookup. destruct (Hlink i e He) as (x & Hx & <- & _).
    destruct (Hl x Hx) as [Hp _]. unfold k_term in Hp. lia.
  - intros Hne Hz. destruct (m_Entries m) as [|e es] eqn:Hes; [done|].
    destruct (Hlink 0%nat e eq_refl) as (x & Hx & _ & Hxi). destruct (Hl x Hx) as [_ Hp].
    destruct Hx as [_ [_ Hxp]]. replace (k_index x - 1) with (lg_prev (msg_log m)) in Hxp by (cbn; lia).
    rewrite lg_term_prev in Hxp. injection Hxp as Hxp. cbn in Hxp. rewrite Hz in Hxp.
    specialize (Hp (eq_sym Hxp)). lia.
Qed.

Definition incoming_link (ev : event) (x : link) : Prop :=
  match ev with EUse (URecv m) => msg_link m x | _ => False end.

(** A message that is handled by the state machine. *)
Lemma Step_call (r r' : raft MemoryStorage) m e a :
  log_inv (r_raftLog r) → sane m → m_Type m ≠ MsgSnap → sound_append m →
  N.max (r_Term r) (m_Term m) + 1 < two64 → log_last r ≤ a →
  (m_Type m = MsgApp → m_Index m + lenN (m_Entries m) ≤ a) →
  a + lenN (m_Entries m) + 3 < 9223372036854775808 → Step m r = Ok (e, r') →
  evolved m r r' ∧ hoarding r r' ∧ turns r r' ∧ vote_moves r r'.
Proof.
  intros Hi Hs Hsn Hm Hb Ha Hma Hroom Hr.
  assert (Hlm : log_msg a m).
  { split; [|done]. intros Ht. destruct (Hm Ht) as (H1 & H2 & H3). split_and!; auto. }
  split_and!.
  - by apply (wp_Ok _ _ _ _ _ _ (Step_evolves a m Hlm Hroom r Hi Ha) Hr).
  - by apply (moves_Ok _ _ _ _ _ (Step_hoarding m Hsn) Hr).
  - by apply (wp_Ok _ _ _ _ _ _ (Step_turns m r Hs Hsn Hb) Hr).
  - by apply (Step_moves _ _ m e).
Qed.

Lemma same_call m (r : raft MemoryStorage) :
  log_inv (r_raftLog r) → evolved m r r ∧ hoarding r r ∧ turns r r ∧ vote_moves r r.
Proof.
  intros Hi. split_and!; [|reflexivity..|by apply votes_kept_moves].
  split; [done|by apply log_change_same|]. exists []. by rewrite app_nil_r.
Qed.

Lemma use_carried w a u :
  stored w → vote_inv w → admissible w a → uses1 (w_user w) a u → has_room w (EUse a) →
  match a with URecv m => m_Type m ≠ MsgSnap ∧ sound_append m | UApply _ | UOffer => False | _ => True end →
  vote_inv (MkWorld u (w_saved w) (w_sent w)) →
  carried (incoming_link (EUse a)) w (MkWorld u (w_saved w) (w_sent w)).
Proof.
  intros Hst Hvi Had Hu Hroom Ha Hvi'. pose proof (sd_log _ Hst) as Hi.
  assert (Hcall : ∃ m r', u = w_user (called w r') ∧ m_Type m ≠ MsgSnap ∧ sound_append m ∧
    (∀ x, msg_link m x → incoming_link (EUse a) x) ∧
    evolved m (w_raft w) r' ∧ hoarding (w_raft w) r' ∧ turns (w_raft w) r' ∧ vote_moves (w_raft w) r').
  { destruct w as [[rn o p] saved sent]. unfold called, w_raft, w_log in *. cbn in *.
    inversion Hu; subst; cbn in Had, Hroom, Ha; try done;
      match goal with Hx : _ = Ok (_, _) |- _ => apply on_raft_Ok in Hx as (r' & Hr & ->) end.
    - destruct Had as [Ht Hb]. exists (m <| m_From := r_id (rn_raft rn) |>), r'. cbn [incoming_link].
      assert (Hna : m_Type (m <| m_From := r_id (rn_raft rn) |>) ≠ MsgApp) by (cbn; by rewrite Ht).
      split; [done|]. split; [cbn; by rewrite Ht|]. split; [by intros ?|]. split; [by intros x []|].
      apply (Step_call _ _ _ e (log_last (rn_raft rn))); try done; [by apply prop_sane|cbn; by rewrite Ht].
    - destruct Had as [Hs Hb], Ha as [Hsn Hsa]. exists m, r'. cbn [incoming_link].
      do 4 (split; [done|]). apply recv_Ok in Hr as [->|[e Hr]]; [by apply same_call|].
      by apply (Step_call _ _ m e (N.max (log_last (rn_raft rn)) (m_Index m + lenN (m_Entries m)))); try lia.
    - exists (msg MsgBeat 0), r'. do 2 (split; [done|]). split; [by intros ?|]. split; [by intros x []|].
      assert (Hroom' : log_last (rn_raft rn) + lenN (m_Entries (msg MsgBeat 0)) + 3 < 9223372036854775808) by by rewrite N.add_0_r.
      split_and!.
      + apply (wp_Ok _ _ _ _ _ _ (tick_evolves (log_last (rn_raft rn)) (msg MsgBeat 0) Hroom' (rn_raft rn) Hi (N.le_refl _)) Hr).
      + apply (moves_Ok _ _ _ _ _ tick_hoarding Hr).
      + apply (wp_Ok _ _ _ _ _ _ (tick_turning (rn_raft rn) Had) Hr).
      + destruct (wp_Ok _ _ _ _ _ _ (tick_climbs (rn_raft rn) Had) Hr) as [Hadv _].
        eapply (progresses_moves _). by apply advances_progresses. }
  destruct Hcall as (m & r' & -> & Hsn & Hsa & Hinc & He & Hh & Ht & Hv).
  apply (call_carried _ m w r'); try done. intros Hm. by destruct (Hsa Hm) as (? & ? & _).
Qed.
End Calls.

Section Faithful.
Context `{RaftPB}.
Variables (voters : JointConfig) (K : N).
Hypothesis Hvoters : keys (incoming voters) ≠ ∅.
Implicit Types C : cluster.

(** Appends are not invented: a node receives what another one has sent. *)
Definition authentic C (ev : event) : Prop :=
  match ev with
  | EUse (URecv m) => m_Type m = MsgApp → ∃ j v, C !! j = Some v ∧ m ∈ w_sent v
  | _ => True
  end.

Inductive faithful_steps : cluster → cluster → Prop :=
| faithful_refl C : faithful_steps C C
| faithful_snoc C C1 i w ev w' :
    faithful_steps C C1 → C1 !! i = Some w → world_step w ev w' →
    allowed voters C1 i ev w' → authentic C1 ev → has_room w ev →
    faithful_steps C (<[i := w']> C1).

Lemma faithful_cluster C C' : faithful_steps C C' → cluster_steps voters C C'.
Proof. induction 1; [constructor|by eapply cluster_snoc]. Qed.

Section Step.
Variables (C : cluster) (i : N) (w : world).
Hypothesis Hinv : cluster_inv voters C.
Hypothesis Hm : match_inv voters K C.
Hypothesis Hi : C !! i = Some w.

Lemma sent_holds j v m x :
  C !! j = Some v → m ∈ w_sent v → msg_link m x → holds v (durable_ballot v) x.
Proof. intros _ Hin Hx. by apply (holds_sent v m). Qed.

Lemma authentic_sound m : authentic C (EUse (URecv m)) → sound_append m.
Proof.
  intros Ha Ht. destruct (Ha Ht) as (j & v & Hj & Hin). revert Ht. apply sound_append_links.
  - apply (mi_wf _ _ _ Hm j v m Hj). apply elem_of_app. by left.
  - intros x Hx. apply (mi_good _ _ _ Hm j v (durable_ballot v) x Hj). by apply (sent_holds j v m x).
Qed.
Lemma authentic_held ev x :
  authentic C ev → incoming_link ev x → ∃ j v, C !! j = Some v ∧ holds v (durable_ballot v) x.
Proof.
  intros Ha Hx. destruct ev as [[]| | | | |]; try done. destruct (Ha (proj1 Hx)) as (j & v & Hj & Hin).
  exists j, v. split; [done|]. by apply (sent_holds j v m x).
Qed.

(** The log of a node and what it has saved agree. *)
Lemma disk_agrees j v n t :
  C !! j = Some v → lg_term (disk v) n = Some t → lg_term (rl_log (w_log v)) n = Some t →
  ∀ k, lg_prev (rl_log (w_log v)) < k ≤ n → lg_entry (disk v) k = lg_entry (rl_log (w_log v)) k.
Proof.
  intros Hj Hd Hl k Hk. destruct (mi_stored _ _ _ Hm j v Hj) as [Hst _].
  destruct (rl_log_disk v Hst) as [Hp _]. pose proof (li_valid _ (sd_log _ Hst)) as Hv.
  assert (Hlm : logs_match (disk v) (rl_log (w_log v))).
  { apply links_match.
    - exact (log_contiguous _ (storage_log_ok _ (rv_storage _ Hv))).
    - apply log_contiguous, Hv.
    - intros x y Hx Hy Hxi Hxt. apply (mi_unique _ _ _ Hm j j v v (durable_ballot v) (r_ballot (w_raft v)) x y); try done;
        [by apply holds_disk|by apply holds_log]. }
  apply (Hlm n t Hd Hl k); lia.
Qed.
End Step.

(** An event that only touches one node. *)
Lemma match_carried C i w ev w' inc :
  cluster_inv voters C → match_inv voters K C → C !! i = Some w → world_step w ev w' →
  allowed voters C i ev w' → carried inc w w' →
  (∀ x, inc x → ∃ j v, C !! j = Some v ∧ holds v (durable_ballot v) x) → match_inv voters K (<[i := w']> C).
Proof.
  intros Hinv Hm Hi Hs Hal Hcr Hinc.
  apply (match_event voters K Hvoters C i w w' inc); try done. by apply (cluster_step_inv voters C i w ev w').
Qed.

Lemma reduce_applied_ballot i granted rd :
  moves (keeps_ballot (S := MemoryStorage) i voters granted) (reduceUncommittedSize (rd_CommittedEntries rd);;
    when (0 <? appliedCursor rd) (advance_applied (appliedCursor rd))).
Proof. pose proof (advance_applied_ballot (S := MemoryStorage) i voters granted (appliedCursor rd)). walk. Qed.
Lemma reduce_applied_votes rd :
  moves (@votes_kept MemoryStorage) (reduceUncommittedSize (rd_CommittedEntries rd);;
    when (0 <? appliedCursor rd) (advance_applied (appliedCursor rd))).
Proof. pose proof (advance_applied_votes (S := MemoryStorage) (appliedCursor rd)). walk. Qed.
Lemma reduce_applied_settled rd :
  moves (@settled MemoryStorage) (reduceUncommittedSize (rd_CommittedEntries rd);;
    when (0 <? appliedCursor rd) (advance_applied (appliedCursor rd))).
Proof. pose proof (advance_applied_settled (S := MemoryStorage) (appliedCursor rd)). walk. Qed.

(** The first half of [Advance]: the applied index moves. *)
Lemma applied_carried w rd r1 :
  stored w → vote_inv w → log_last (w_raft w) + 3 < 9223372036854775808 →
  (reduceUncommittedSize (rd_CommittedEntries rd);;
    when (0 <? appliedCursor rd) (advance_applied (appliedCursor rd))) (w_raft w) = Ok (tt, r1) →
  carried (λ _, False) w (called w r1).
Proof.
  intros Hst Hvi Hroom Hr. set (m := msg MsgBeat 0).
  assert (Hroom' : log_last (w_raft w) + lenN (m_Entries m) + 3 < 9223372036854775808) by by rewrite N.add_0_r.
  apply (call_carried _ m w r1 Hst Hvi); try done.
  - apply (wp_Ok _ _ _ _ _ _ (applied_evolves (log_last (w_raft w)) m rd (w_raft w) Hroom' (sd_log _ Hst) (N.le_refl _)) Hr).
  - apply (moves_Ok _ _ _ _ _ (applied_hoarding rd) Hr).
  - apply settled_turns, (moves_Ok _ _ _ _ _ (reduce_applied_settled rd) Hr).
  - apply votes_kept_moves, (moves_Ok _ _ _ _ _ (reduce_applied_votes rd) Hr).
  - by intros x [].
Qed.

(** The second half: the entries that were saved are marked so. *)
Lemma stable_carried w rd rn :
  stored w → us_pending (w_user w) = Some rd → w_saved w = true →
  match last (rd_Entries rd) with
  | None => rn_raft rn = w_raft w
  | Some e => ∃ l, stableTo (w_log w) (e_Index e) (e_Term e) = Ok l ∧
                   rn_raft rn = (w_raft w) <| r_raftLog := l |>
  end →
  (∀ i t, lg_term (disk w) i = Some t → lg_term (rl_log (w_log w)) i = Some t →
     ∀ k, lg_prev (rl_log (w_log w)) < k ≤ i → lg_entry (disk w) k = lg_entry (rl_log (w_log w)) k) →
  let w' := MkWorld (MkUser rn None None) false (w_sent w) in
  vote_inv w' → carried (λ _, False) w w'.
Proof.
  intros Hst Hrd Hsv Hrn Hag w' Hvi'.
  destruct (stored_stable w rd rn (rn_raft rn) Hst Hrd Hsv Hrn Hag eq_refl) as (Hst' & Hlog & Hwst).
  fold w' in Hst', Hlog, Hwst.
  assert (Hsame : settled (w_raft w) (w_raft w') ∧ r_Vote (w_raft w') = r_Vote (w_raft w) ∧
    r_msgs (w_raft w') = r_msgs (w_raft w)).
  { unfold w' in *. unfold w_raft at 2 3 5. cbn. clear -Hrn. destruct (last (rd_Entries rd)).
    - destruct Hrn as (l & _ & ->). done.
    - by rewrite Hrn. }
  destruct Hsame as (Hse & Hvo & Hms).
  assert (Hds : disk w' = disk w) by (unfold disk; by rewrite Hwst).
  assert (Hdb : durable_ballot w' = durable_ballot w) by (unfold durable_ballot; by rewrite Hwst).
  assert (Hrb : r_ballot (w_raft w') = r_ballot (w_raft w)) by (unfold r_ballot; by rewrite Hvo, (proj1 Hse)).
  apply still_carried; try done.
  - by rewrite Hdb.
  - intros g. unfold all_msgs. rewrite Hms, !elem_of_app. cbn.
    intros [?|[?%elem_of_nil|?]]; [by left|done|right; by right].
  - by rewrite Hds.
  - intros b' x Hx. destruct Hx as [x Hx|g x Hg Hx|rd' x [=]|rd' g x [=]|rd' x [=]|rd' g x [=]|x Hx|g x Hg Hx].
    + exists (r_ballot (w_raft w)). rewrite Hrb. split; [apply holds_log; by rewrite <- Hlog|done].
    + exists (r_ballot (w_raft w)). rewrite Hrb. rewrite Hms in Hg. split; [by apply (holds_msg w g)|done].
    + exists (durable_ballot w). rewrite Hdb. rewrite Hds in Hx. split; [by apply holds_disk|done].
    + exists (durable_ballot w). rewrite Hdb. split; [by apply (holds_sent w g)|done].
Qed.

(** [Advance] in its two halves, the invariants in between included. *)
Lemma advance_half C i w u :
  cluster_inv voters C → match_inv voters K C → C !! i = Some w → w_saved w = true →
  uses1 (w_user w) UAdvance u → log_last (w_raft w) + 3 < 9223372036854775808 →
  ∃ rd r1, let w1 := called w r1 in
    us_pending (w_user w) = Some rd ∧ u = MkUser (us_rn u) None None ∧
    (reduceUncommittedSize (rd_CommittedEntries rd);;
      when (0 <? appliedCursor rd) (advance_applied (appliedCursor rd))) (w_raft w) = Ok (tt, r1) ∧
    match last (rd_Entries rd) with
    | None => rn_raft (us_rn u) = w_raft w1
    | Some e => ∃ l, stableTo (w_log w1) (e_Index e) (e_Term e) = Ok l ∧
                     rn_raft (us_rn u) = (w_raft w1) <| r_raftLog := l |>
    end ∧
    stored w1 ∧ cluster_inv voters (<[i := w1]> C) ∧ match_inv voters K (<[i := w1]> C).
Proof.
  intros Hinv Hm Hi Hsv Hu Hroom. destruct (Hinv i w Hi) as [Hvi Hbo].
  destruct (mi_stored _ _ _ Hm i w Hi) as [Hst _].
  assert (Hpend : ∃ rd, us_pending (w_user w) = Some rd ∧
    Advance rd (us_rn (w_user w)) = Ok (tt, us_rn u) ∧ u = MkUser (us_rn u) None None).
  { destruct w as [[rn o p] saved sent]. cbn in *. inversion Hu; subst. by exists rd. }
  destruct Hpend as (rd & Hrd & Hadv & Hue). clear Hu.
  pose proof (sd_pending _ Hst rd Hrd) as Has. rewrite Hsv in Has.
  destruct (Advance_split _ _ _ Hadv (proj1 Has)) as (r1 & Hr1 & Hlast).
  pose proof (applied_carried w rd r1 Hst Hvi Hroom Hr1) as Hc1. exists rd, r1. intros w1.
  assert (Hinv1 : cluster_inv voters (<[i := w1]> C)).
  { apply (cluster_inv_insert voters C i w w1); [done|done|done|apply Hc1|].
    apply (moves_Ok _ _ _ _ _ (reduce_applied_ballot i (sent_vote C i) rd) Hr1). exact Hbo. }
  assert (Hm1 : match_inv voters K (<[i := w1]> C)).
  { by apply (match_event voters K Hvoters C i w w1 (λ _, False)); [..|intros x []]. }
  split_and!; try done. apply Hc1.
Qed.

Lemma match_advance C i w u :
  cluster_inv voters C → match_inv voters K C → C !! i = Some w → w_saved w = true →
  uses1 (w_user w) UAdvance u → log_last (w_raft w) + 3 < 9223372036854775808 →
  let w' := MkWorld u false (w_sent w) in
  cluster_inv voters (<[i := w']> C) → match_inv voters K (<[i := w']> C).
Proof.
  intros Hinv Hm Hi Hsv Hu Hroom w' Hinv'. destruct (Hinv' i w') as [Hvi' _]; [apply lookup_insert_eq|].
  destruct (advance_half C i w u Hinv Hm Hi Hsv Hu Hroom) as (rd & r1 & Hrd & Hue & Hr1 & Hlast & Hst1 & Hinv1 & Hm1).
  set (w1 := called w r1) in *. assert (Hi1 : <[i := w1]> C !! i = Some w1) by apply lookup_insert_eq.
  assert (Hw' : w' = MkWorld (MkUser (us_rn u) None None) false (w_sent w1)) by (unfold w'; by rewrite Hue).
  assert (Hc2 : carried (λ _, False) w1 w').
  { rewrite Hw' in *. apply (stable_carried w1 rd (us_rn u)); [done|done|done|exact Hlast| |done].
    intros n t. by apply (disk_agrees (<[i := w1]> C) Hm1 i w1 n t). }
  rewrite <- (insert_insert_eq C i w' w1).
  apply (match_event voters K Hvoters (<[i := w1]> C) i w1 w' (λ _, False)); try done.
  by rewrite insert_insert_eq.
Qed.

Lemma match_step C i w ev w' :
  cluster_inv voters C → match_inv voters K C → C !! i = Some w → world_step w ev w' →
  allowed voters C i ev w' → authentic C ev → has_room w ev → match_inv voters K (<[i := w']> C).
Proof.
  intros Hinv Hm Hi Hs Hal Hau Hroom.
  destruct (Hinv i w Hi) as [Hvi _], (mi_stored _ _ _ Hm i w Hi) as [Hst _].
  pose proof (step_inv w ev w' Hvi Hs) as Hvi'.
  pose proof (cluster_step_inv voters C i w ev w' Hinv Hi Hs Hal) as Hinv'.
  assert (Hgo : ∀ inc, carried inc w w' →
    (∀ x, inc x → ∃ j v, C !! j = Some v ∧ holds v (durable_ballot v) x) → match_inv voters K (<[i := w']> C)).
  { intros inc Hcr Hinc. by apply (match_carried C i w ev w' inc). }
  destruct Hs as [w a u Had Hu|w rd u Hu|w rd st rn Hrd Hsv Hsave Hw|w rd Hrd Hsv|w u Hsv Hu|w rand c rn Hc Hn].
  - assert (Hcase : a = UOffer ∨ a ≠ UOffer) by (destruct a; (by left) || (by right)). destruct Hcase as [->|Hne].
    + apply (Hgo (λ _, False)); [|by intros x []]. destruct w as [[rn o p] saved sent]. cbn in *. inversion Hu; subst.
      by apply offer_carried.
    + apply (Hgo (incoming_link (EUse a))); [|intros x; by apply authentic_held].
      apply use_carried; try done. destruct a; try done. destruct Hal as [Hsn _]. split; [done|]. by eapply authentic_sound.
  - apply (Hgo (λ _, False)); [|by intros x []]. destruct w as [[rn o p] saved sent]. cbn in *. inversion Hu; subst.
    by apply (accept_carried _ (MkWorld (MkUser rn (Some rd) None) saved sent) rd).
  - apply (Hgo (λ _, False)); [|by intros x []]. by apply (save_carried _ w rd st rn).
  - apply (Hgo (λ _, False)); [|by intros x []]. by apply (send_carried _ w rd).
  - by apply match_advance.
  - apply (Hgo (λ _, False)); [|by intros x []]. apply (restart_carried _ w rand c rn); try done.
    by apply (mi_position _ _ _ Hm i w).
Qed.

(** ** The start *)

(** Nodes that start on saved logs that match, with no term above [K], and with no
    saved term below [K]; if nothing was saved, [K] is 0. *)
Record matching_start C : Prop := {
  ms_initial : cluster_initial voters C;
  ms_storages i w : C !! i = Some w → ms_valid (w_storage w) ∧
    (lg_prev_term (disk w) = 0 ↔ lg_prev (disk w) = 0);
  ms_terms i w : C !! i = Some w → K ≤ hs_Term (ms_hardState (w_storage w)) ∧
    ∀ e, e ∈ lg_ents (disk w) → 0 < e_Term e ≤ K;
  ms_match i j w v : C !! i = Some w → C !! j = Some v → logs_match (disk w) (disk v);
}.

(** All a node that has just started holds is what it has saved. *)
Lemma start_node w :
  initial w → ms_valid (w_storage w) → (lg_prev (disk w) = 0 → lg_prev_term (disk w) = 0) →
  stored w ∧ rl_log (w_log w) = disk w ∧ r_state (w_raft w) = StateFollower ∧
  w_user w = MkUser (us_rn (w_user w)) None None ∧ w_sent w = [] ∧
  Forall (carries (disk w)) (r_msgs (w_raft w)).
Proof.
  intros (rand & c & st & rn & Hc & Hn & ->) Hv Hz. unfold disk in *.
  assert (Hst : w_storage (MkWorld (MkUser rn None None) false []) = st).
  { unfold NewRawNode in Hn. apply outcome_bind_Ok in Hn as (r & Hr & [= <-]).
    destruct (newRaft_ballot _ _ _ Hr) as (st' & hs & cs & Hst' & _ & _ & Hls & _).
    rewrite Hc in Hst'. injection Hst' as <-. exact Hls. }
  rewrite Hst in *. destruct (stored_restart rand c st rn [] Hc Hv Hz Hn) as (H1 & H2 & _ & H4).
  split_and!; try done. unfold NewRawNode in Hn. apply outcome_bind_Ok in Hn as (r & Hr & [= <-]).
  by apply newRaft_follower in Hr.
Qed.

Lemma start_holds w b x :
  initial w → ms_valid (w_storage w) → (lg_prev (disk w) = 0 → lg_prev_term (disk w) = 0) →
  holds w b x → lg_link (disk w) x.
Proof.
  intros Hini Hv Hz. destruct (start_node w Hini Hv Hz) as (_ & Hl & _ & Hu & Hs & Hm).
  rewrite Forall_forall in Hm.
  destruct 1 as [x Hx|g x Hg Hx|rd x Hr|rd g x Hr|rd x Hr|rd g x Hr|x Hx|g x Hg Hx];
    try (rewrite Hu in Hr; discriminate Hr).
  - by rewrite <- Hl.
  - apply (segment_link _ g); [by apply Hm|done].
  - done.
  - rewrite Hs in Hg. by apply elem_of_nil in Hg.
Qed.

Lemma start_inv C : matching_start C → match_inv voters K C.
Proof.
  intros [Hini Hst Hterm Hmat].
  assert (Hn : ∀ i w, C !! i = Some w → initial w ∧ ms_valid (w_storage w) ∧
    (lg_prev (disk w) = 0 → lg_prev_term (disk w) = 0)).
  { intros i w Hi. destruct (Hini i w Hi) as [? _], (Hst i w Hi) as [? Hz]. split_and!; [done..|]. by apply Hz. }
  assert (Hnode : ∀ i w, C !! i = Some w → _) by (intros i w Hi; destruct (Hn i w Hi) as (H1 & H2 & H3);
    exact (start_node w H1 H2 H3)).
  assert (Hheld : ∀ i w b x, C !! i = Some w → holds w b x → lg_link (disk w) x ∧ 0 < k_term x ≤ K).
  { intros i w b x Hi Hx. destruct (Hn i w Hi) as (H1 & H2 & H3). pose proof (start_holds w b x H1 H2 H3 Hx) as Hl.
    split; [done|]. apply (Hterm i w Hi). destruct Hl as [He _]. unfold lg_entry in He.
    destruct (_ <? _); [|done]. by eapply list_elem_of_lookup_2. }
  split.
  - intros i w Hi. split; [by apply (Hnode i w Hi)|]. by apply (Hterm i w Hi).
  - intros i w Hi. destruct (Hnode i w Hi) as (_ & _ & -> & _). by intros [|].
  - intros i w Hi. by apply (Hst i w Hi).
  - intros i w m Hi Hin. destruct (Hnode i w Hi) as (_ & _ & _ & Hu & Hs & Hm). revert Hin.
    unfold all_msgs, pending_msgs. rewrite Hs, Hu. cbn. intros Hin. rewrite Forall_forall in Hm.
    by apply (carries_wf _ _ (Hm m Hin)).
  - intros i w b x Hi Hx. left. by apply (Hheld i w b x Hi Hx).
  - intros i w b x Hi Hx. destruct (Hheld i w b x Hi Hx) as [Hl Ht]. split; [lia|].
    intros Hz. pose proof (lg_link_range _ _ Hl) as [Hlo _]. destruct Hl as [_ Hp]. rewrite Hz in Hp.
    destruct (decide (k_index x - 1 = lg_prev (disk w))) as [Heq|Hne].
    + rewrite Heq, lg_term_prev in Hp. injection Hp as Hp.
      assert (lg_prev (disk w) = 0) by by apply (Hst i w Hi). lia.
    + destruct (lg_entry_term _ _ _ Hp) as (e & He & Het); [lia|].
      assert (Hin : e ∈ lg_ents (disk w)).
      { unfold lg_entry in He. destruct (_ <? _); [|done]. by eapply list_elem_of_lookup_2. }
      apply (Hterm i w Hi) in Hin. lia.
  - intros i j w v b c x y Hi Hj Hx Hy. apply (match_links (disk w) (disk v)); [by apply (Hmat i j)|..].
    + by apply (Hheld i w b x Hi Hx).
    + by apply (Hheld j v c y Hj Hy).
Qed.

Lemma faithful_inv C C' :
  matching_start C → faithful_steps C C' → cluster_inv voters C' ∧ match_inv voters K C'.
Proof.
  intros Hst Hs. induction Hs as [C|C C1 i w ev w' Hs IH Hi Hw Hal Hau Hr].
  - split; [by apply cluster_initial_inv, ms_initial|by apply start_inv].
  - destruct (IH Hst) as [Hinv Hm]. split; [by apply (cluster_step_inv voters C1 i w ev w')|].
    by apply (match_step C1 i w ev w').
Qed.

(** Logs whose links are held match. *)
Lemma held_match C i j w v b c lg lg' :
  match_inv voters K C → C !! i = Some w → C !! j = Some v →
  contiguous (lg_prev lg) (lg_ents lg) → contiguous (lg_prev lg') (lg_ents lg') →
  (∀ x, lg_link lg x → holds w b x) → (∀ x, lg_link lg' x → holds v c x) → logs_match lg lg'.
Proof.
  intros Hm Hi Hj Hc Hc' Hx Hy. apply links_match; [done|done|]. intros x y Hlx Hly Hxi Hxt.
  by apply (mi_unique _ _ _ Hm i j w v b c x y); auto.
Qed.
End Faithful.

(** ** Properties *)

#[local] Existing Instance ex_pb.

(** The run of the file Cluster goes on: the new leader saves and sends its first
    append, and node 2 receives it. *)
Definition ex_ready1 : Ready :=
  match readyWithoutAccept ex_one2 with Ok (rd, _) => rd | Panic => Ready_zero end.
Definition ex_one3 : RawNode MemoryStorage := ex_ok (acceptReady ex_ready1) ex_one2.
Definition ex_saved1 : MemoryStorage :=
  match save_ready ex_ready1 (l_storage (r_raftLog (rn_raft ex_one3))) with
  | Ok (Val st) => st
  | _ => NewMemoryStorage
  end.
Definition ex_one4 : RawNode MemoryStorage := ex_ok (write_storage ex_saved1) ex_one3.
Definition ex_append : Message := nth 2 (rd_Messages ex_ready1) (msg MsgHup 0).
Definition ex_two4 : RawNode MemoryStorage := ex_ok (on_raft (recv ex_append)) ex_two3.

Definition ex_a1 : world := MkWorld (MkUser ex_one2 (Some ex_ready1) None) false [].
Definition ex_a2 : world := MkWorld (MkUser ex_one3 None (Some ex_ready1)) false [].
Definition ex_a3 : world := MkWorld (MkUser ex_one4 None (Some ex_ready1)) true [].
Definition ex_a4 : world := MkWorld (MkUser ex_one4 None (Some ex_ready1)) true ([] ++ rd_Messages ex_ready1).
Definition ex_b5 : world := MkWorld (MkUser ex_two4 None (Some ex_ready2)) true (rd_Messages ex_ready2).
Definition ex_C8 : cluster := <[1 := ex_a1]> ex_C7.
Definition ex_C9 : cluster := <[1 := ex_a2]> ex_C8.
Definition ex_C10 : cluster := <[1 := ex_a3]> ex_C9.
Definition ex_C11 : cluster := <[1 := ex_a4]> ex_C10.
Definition ex_C12 : cluster := <[2 := ex_b5]> ex_C11.

Lemma ex_step8 : world_step (ex_fresh ex_one2) (EUse UOffer) ex_a1.
Proof. apply (step_use (ex_fresh ex_one2) UOffer); [exact I|]. apply uses_offer; vm_compute; reflexivity. Qed.
Lemma ex_step9 : world_step ex_a1 (EAccept ex_ready1) ex_a2.
Proof. apply (step_accept ex_a1 ex_ready1). apply uses_accept. vm_compute. reflexivity. Qed.
Lemma ex_step10 : world_step ex_a2 ESave ex_a3.
Proof. refine (step_save ex_a2 ex_ready1 ex_saved1 ex_one4 eq_refl eq_refl _ _); vm_compute; reflexivity. Qed.
Lemma ex_step11 : world_step ex_a3 ESend ex_a4.
Proof. exact (step_send ex_a3 ex_ready1 eq_refl eq_refl). Qed.
Lemma ex_step12 : world_step ex_world2 (EUse (URecv ex_append)) ex_b5.
Proof. apply ex_recv; by vm_compute. Qed.

Lemma ex_append_sent : ex_append ∈ w_sent ex_a4.
Proof.
  apply (list_elem_of_lookup_2 _ 2). vm_compute. reflexivity.
Qed.
Lemma ex_C11_two : ex_C11 !! 2 = Some ex_world2.
Proof. unfold ex_C11, ex_C10, ex_C9, ex_C8, ex_C7. rewrite !lookup_insert_ne by done. apply lookup_insert_eq. Qed.

Lemma ex_C12_one : ex_C12 !! 1 = Some ex_a4.
Proof. unfold ex_C12. rewrite lookup_insert_ne by done. apply lookup_insert_eq. Qed.
Lemma ex_C12_two : ex_C12 !! 2 = Some ex_b5.
Proof. apply lookup_insert_eq. Qed.

Lemma ex_authentic C m : m_Type m ≠ MsgApp → authentic C (EUse (URecv m)).
Proof. by intros Hm ?. Qed.
Lemma ex_authentic12 : authentic ex_C11 (EUse (URecv ex_append)).
Proof. intros _. exists 1, ex_a4. split; [apply lookup_insert_eq|exact ex_append_sent]. Qed.

Lemma ex_allowed12 : allowed ex_voters ex_C11 2 (EUse (URecv ex_append)) ex_b5.
Proof. apply ex_allowed_recv; vm_compute; discriminate. Qed.
Lemma ex_room12 : has_room ex_world2 (EUse (URecv ex_append)).
Proof. vm_compute. reflexivity. Qed.
Lemma ex_authentic7 : authentic ex_C6 (EUse (URecv ex_answer)).
Proof. apply ex_authentic. vm_compute. discriminate. Qed.

Lemma ex_faithful_steps : faithful_steps ex_voters ex_C0 ex_C12.
Proof.
  apply (faithful_snoc _ _ ex_C11 2 ex_world2 (EUse (URecv ex_append)) _);
    [|exact ex_C11_two|exact ex_step12|exact ex_allowed12|exact ex_authentic12|exact ex_room12].
  apply (faithful_snoc _ _ ex_C10 1 ex_a3 ESend _); [|apply lookup_insert_eq|exact ex_step11|exact I..].
  apply (faithful_snoc _ _ ex_C9 1 ex_a2 ESave _); [|apply lookup_insert_eq|exact ex_step10|exact I..].
  apply (faithful_snoc _ _ ex_C8 1 ex_a1 (EAccept ex_ready1) _); [|apply lookup_insert_eq|exact ex_step9|exact I..].
  apply (faithful_snoc _ _ ex_C7 1 (ex_fresh ex_one2) (EUse UOffer) _); [|apply lookup_insert_eq|exact ex_step8|exact I..].
  apply (faithful_snoc _ _ ex_C6 1 (ex_fresh ex_one1) (EUse (URecv ex_answer)) _);
    [|exact ex_C6_one|exact ex_step7|exact ex_allowed7|exact ex_authentic7|by vm_compute].
  apply (faithful_snoc _ _ ex_C5 2 ex_b4 ESend _); [|apply lookup_insert_eq|exact ex_step6|exact I..].
  apply (faithful_snoc _ _ ex_C4 2 ex_b3 ESave _); [|apply lookup_insert_eq|exact ex_step5|exact I..].
  apply (faithful_snoc _ _ ex_C3 2 ex_b2 (EAccept ex_ready2) _); [|apply lookup_insert_eq|exact ex_step4|exact I..].
  apply (faithful_snoc _ _ ex_C2 2 ex_b1 (EUse UOffer) _); [|apply lookup_insert_eq|exact ex_step3|exact I..].
  apply (faithful_snoc _ _ ex_C1 2 ex_b0 (EUse (URecv ex_ask)) _);
    [|exact ex_C1_two|exact ex_step2|by apply ex_allowed_recv|by apply ex_authentic|by vm_compute].
  apply (faithful_snoc _ _ ex_C0 1 (ex_fresh ex_rn) (EUse (URecv (msg MsgHup 0))) _);
    [constructor|apply lookup_insert_eq|exact ex_step1|by apply ex_allowed_recv|by apply ex_authentic|by vm_compute].
Qed.

Lemma ex_matching_start : matching_start ex_voters 2 ex_C0.
Proof.
  assert (Hn : ∀ i w, ex_C0 !! i = Some w → w_storage w = ex_node_storage).
  { intros i w. unfold ex_C0. intros [(<- & <-)|[_ (<- & <-)%lookup_singleton_Some]]%lookup_insert_Some;
      vm_compute; reflexivity. }
  assert (Hd : ∀ i w, ex_C0 !! i = Some w → disk w = ms_log ex_node_storage).
  { intros i w Hi. unfold disk. by rewrite (Hn i w Hi). }
  split.
  - exact ex_cluster_initial.
  - intros i w Hi. rewrite (Hn i w Hi), (Hd i w Hi). split; [|by vm_compute].
    split; [done|]. split; [|vm_compute; done..].
    cbn. repeat (apply contiguous_cons; split; [done|]). apply contiguous_nil.
  - intros i w Hi. rewrite (Hn i w Hi), (Hd i w Hi). split; [by vm_compute|].
    intros e He. assert (Hall : Forall (λ e, 0 < e_Term e ≤ 2) (lg_ents (ms_log ex_node_storage))) by vm_decide.
    rewrite Forall_forall in Hall. by apply Hall.
  - intros i j w v Hi Hj. rewrite (Hd i w Hi), (Hd j v Hj). by intros k t _ _ l _ _ _.
Qed.

(** C4: Log matching in a cluster with fixed voters.  Wherever the logs of two nodes
    have the same term at an index, they hold the same entries from there down to
    where one of them was compacted; the same goes for what they have saved and for
    every append that was sent.  This holds in every run in which appends are not
    invented: messages may be lost, delayed, duplicated and reordered, and nodes
    may crash at any time, between saving and sending too. *)
Theorem log_matching `{RaftPB} (voters : JointConfig) (K : N) (C C' : cluster) (i j : N) (w v : world) :
  keys (incoming voters) ≠ ∅ → matching_start voters K C → faithful_steps voters C C' →
  C' !! i = Some w → C' !! j = Some v →
  logs_match (rl_log (w_log w)) (rl_log (w_log v)) ∧
  logs_match (rl_log (w_log w)) (ms_log (w_storage v)) ∧
  logs_match (ms_log (w_storage w)) (ms_log (w_storage v)) ∧
  ∀ m, m ∈ w_sent v → m_Type m = MsgApp →
    logs_match (rl_log (w_log w)) (MkLog (m_Index m) (m_LogTerm m) (m_Entries m)).
Proof.
  intros Hv Hst Hs Hi Hj. destruct (faithful_inv voters K Hv C C' Hst Hs) as [_ Hm].
  assert (Hc : ∀ n u, C' !! n = Some u → contiguous (lg_prev (rl_log (w_log u))) (lg_ents (rl_log (w_log u))) ∧
    contiguous (lg_prev (disk u)) (lg_ents (disk u))).
  { intros n u Hn. destruct (mi_stored _ _ _ Hm n u Hn) as [Hsd _]. pose proof (li_valid _ (sd_log _ Hsd)) as Hrv.
    split; [apply log_contiguous, Hrv|]. exact (log_contiguous _ (storage_log_ok _ (rv_storage _ Hrv))). }
  destruct (Hc i w Hi) as [Hwl Hwd], (Hc j v Hj) as [Hvl Hvd].
  pose proof (held_match voters K C' i j w v) as Hmatch. split_and!.
  - eapply Hmatch; [done..|apply holds_log|apply holds_log].
  - eapply Hmatch; [done..|apply holds_log|apply holds_disk].
  - eapply Hmatch; [done..|apply holds_disk|apply holds_disk].
  - intros m Hin Ht. eapply Hmatch; [done..| |apply holds_log|intros x Hx; by apply (holds_sent v m)].
    apply (mi_wf _ _ _ Hm j v m Hj); [apply elem_of_app; by left|done].
Qed.

(** Both nodes have the leader's entry, so they agree on all the entries before. *)
Lemma log_matching_witness :
  ∃ lg lg', rl_log (w_log ex_a4) = lg ∧ rl_log (w_log ex_b5) = lg' ∧
    lg_term lg 6 = Some 3 ∧ lg_term lg' 6 = Some 3 ∧ lg_entry lg 4 ≠ None ∧ lg_entry lg 4 = lg_entry lg' 4.
Proof.
  exists (rl_log (w_log ex_a4)), (rl_log (w_log ex_b5)).
  assert (H1 : lg_term (rl_log (w_log ex_a4)) 6 = Some 3) by (vm_compute; reflexivity).
  assert (H2 : lg_term (rl_log (w_log ex_b5)) 6 = Some 3) by (vm_compute; reflexivity).
  split; [reflexivity|]. split; [reflexivity|]. split; [exact H1|]. split; [exact H2|].
  split; [vm_compute; discriminate|].
  destruct (log_matching ex_voters 2 ex_C0 ex_C12 1 2 ex_a4 ex_b5) as [Hm _].
  - vm_compute. discriminate.
  - exact ex_matching_start.
  - exact ex_faithful_steps.
  - exact ex_C12_one.
  - exact ex_C12_two.
  - destruct (Hm 6 3 H1 H2 4) as [_ He]; [vm_compute; discriminate..|]. apply He; vm_compute; reflexivity.
Defined.
