(* ===== verification/Levels.v ===== *)
(** * The levels of a node, and the events that keep still

    What a node has in memory outlives a crash only once it is saved.  A [level] is
    a state of the node as one of its stages would leave it: its memory, what it has
    saved with what it has sent, and the [Ready] in between.  The events that call
    no method of the state machine ([still]) bring in no level of their own: each one
    after the event was there before, with a higher ballot at most. *)

From S2P Require Import Prelude Pb Quorum Inflights Progress Tracker Confchange.
From S2P Require Import Util Storage Unstable RaftLog ReadOnly Raft RawNode Node.
From S2P Require Import RaftFrame RaftSafety RaftElection RaftBallot RaftRoles RaftInvariant RaftTotal RaftAppend.
From S2P Require Import RaftLeads RaftActs Runs LogRuns Cluster LogLinks LogMatching.

(** ** Levels *)

Record level := MkLevel { v_log : Log; v_msgs : list Message; v_commit : N; v_ballot : ballot }.

Section Levels.
Context `{RaftPB}.
Implicit Types w : world.

Definition durable_commit w : N := hs_Commit (ms_hardState (w_storage w)).
(** What a [Ready] may leave as the saved commit index. *)
Definition ready_commit w (rd : Ready) : N := N.max (durable_commit w) (hs_Commit (rd_HardState rd)).

Definition mem_level w : level :=
  MkLevel (rl_log (w_log w)) (all_msgs w) (l_committed (w_log w)) (r_ballot (w_raft w)).
Definition ready_level w (rd : Ready) : level :=
  MkLevel (saving (disk w) rd) (w_sent w ++ rd_Messages rd) (ready_commit w rd) (ready_ballot w rd).
Definition saved_level w (rd : Ready) : level :=
  MkLevel (disk w) (w_sent w ++ rd_Messages rd) (durable_commit w) (durable_ballot w).
Definition disk_level w : level := MkLevel (disk w) (w_sent w) (durable_commit w) (durable_ballot w).

Inductive at_level w : level → Prop :=
| at_mem : at_level w (mem_level w)
| at_offered rd : us_offered (w_user w) = Some rd → at_level w (ready_level w rd)
| at_pending rd : us_pending (w_user w) = Some rd → w_saved w = false → at_level w (ready_level w rd)
| at_saved rd : us_pending (w_user w) = Some rd → w_saved w = true → at_level w (saved_level w rd)
| at_disk : at_level w (disk_level w).

(** A level that is no more than another one was. *)
Record below (p0 : N) (v' v : level) : Prop := {
  bl_log : v_log v' = v_log v;
  bl_msgs : v_msgs v' ⊆ v_msgs v;
  bl_commit : v_commit v' ≤ N.max p0 (v_commit v);
  bl_ballot : ballot_le (v_ballot v) (v_ballot v');
}.

(** The commit index in memory is ahead of the others. *)
Definition behind w : Prop := ∀ v, at_level w v → v_commit v ≤ l_committed (w_log w).

(** The leader goes on as it was. *)
Definition same_lead (r r' : raft MemoryStorage) : Prop :=
  r_state r' = r_state r ∧ r_Term r' = r_Term r ∧ r_prs r' = r_prs r ∧ r_id r' = r_id r ∧
  rl_log (r_raftLog r') = rl_log (r_raftLog r).

Record still (p0 : N) w w' : Prop := {
  st_sent : w_sent w ⊆ w_sent w';
  st_all : all_msgs w' ⊆ all_msgs w;
  st_durable : ballot_le (durable_ballot w) (durable_ballot w');
  st_levels v' : at_level w' v' → ∃ v, at_level w v ∧ below p0 v' v;
  st_behind : behind w';
  st_role : same_lead (w_raft w) (w_raft w') ∨ r_state (w_raft w') = StateFollower;
  st_snapshot : ms_snapshot (w_storage w') = ms_snapshot (w_storage w);
}.

Lemma below_same p0 v v' :
  v_log v' = v_log v → v_msgs v' ⊆ v_msgs v → v_commit v' ≤ v_commit v → v_ballot v' = v_ballot v → below p0 v' v.
Proof. intros Hl Hm Hc Hb. split; [done|done|lia|by rewrite Hb]. Qed.

(** ** The events *)

Lemma unsaved_log (l : raftLog MemoryStorage) :
  rl_valid l → u_snapshot (l_unstable l) = None → u_entries (l_unstable l) = [] →
  rl_log l = ms_log (l_storage l).
Proof.
  intros Hv Hs He. pose proof (rv_empty _ Hv Hs He) as Hn. unfold rl_log. rewrite Hs, He, Hn, lg_append_end, app_nil_r.
  change (storage_log (l_storage l)) with (ms_log (l_storage l)). by destruct (ms_log (l_storage l)).
Qed.

Lemma behind_durable w : behind w → durable_commit w ≤ l_committed (w_log w).
Proof. intros Hb. apply (Hb _ (at_disk w)). Qed.

Lemma offer_still p0 rn o saved sent rd :
  let w := MkWorld (MkUser rn o None) saved sent in
  let w' := MkWorld (MkUser rn (Some rd) None) saved sent in
  stored w → vote_inv w → behind w → readyWithoutAccept rn = Ok (rd, rn) → still p0 w w'.
Proof.
  intros w w' Hst Hvi Hb Hr. apply readyWithoutAccept_Ok in Hr as [_ Hr].
  destruct (newReady_fields _ _ _ _ Hr) as [Hms Hhs], (newReady_log _ _ _ _ Hr) as [Hes Hsn].
  destruct (stored_offer w rd Hst eq_refl Hes Hsn) as [Hst' Hsave].
  pose proof (ready_ballot_now w rd (vi_prev _ Hvi) Hhs) as Hrb. pose proof (behind_durable w Hb) as Hd.
  assert (Hlog : saving (disk w) rd = rl_log (w_log w)).
  { destruct (decide (rd_Entries rd = [])) as [Hn|Hn]; [|by apply Hsave]. unfold saving. rewrite Hn.
    symmetry. apply unsaved_log; [apply Hst|apply Hst|]. exact (eq_trans (eq_sym Hes) Hn). }
  assert (Hc : ready_commit w rd ≤ l_committed (w_log w)).
  { unfold ready_commit. rewrite Hhs. destruct (isHardStateEqual _ _); cbn; [lia|].
    change (l_committed (r_raftLog (rn_raft rn))) with (l_committed (w_log w)). lia. }
  split; try done.
  - intros v' Hv. destruct Hv as [|rd' [= <-]|rd' [=]|rd' [=]|].
    + exists (mem_level w). split; [constructor|by apply below_same].
    + exists (mem_level w). split; [constructor|]. apply below_same; [done| |done|done].
      cbn. rewrite Hms. unfold all_msgs, pending_msgs. cbn. set_solver.
    + exists (disk_level w). split; [constructor|by apply below_same].
  - intros v' Hv. destruct Hv as [|rd' [= <-]|rd' [=]|rd' [=]|]; done.
  - by left.
Qed.

Lemma accept_still p0 w rd rn :
  vote_inv w → behind w → us_offered (w_user w) = Some rd → us_pending (w_user w) = None →
  acceptReady rd (us_rn (w_user w)) = Ok (tt, rn) →
  still p0 w (MkWorld (MkUser rn None (Some rd)) false (w_sent w)).
Proof.
  intros Hvi Hb Hrd Hpe Ha. set (w' := MkWorld _ _ _).
  destruct (acceptReady_log _ _ _ Ha) as (Hl & Hm & Ht & Hv & Hs).
  destruct (acceptReady_Ok _ _ _ Ha) as (Hpr & _).
  assert (Hl' : w_log w' = w_log w) by done. assert (Hwst : w_storage w' = w_storage w).
  { unfold w_storage. change (r_raftLog (w_raft w')) with (w_log w'). by rewrite Hl'. }
  assert (Hds : disk w' = disk w) by (unfold disk; by rewrite Hwst).
  assert (Hdb : durable_ballot w' = durable_ballot w) by (unfold durable_ballot; by rewrite Hwst).
  assert (Hdc : durable_commit w' = durable_commit w) by (unfold durable_commit; by rewrite Hwst).
  assert (Hrb : ready_ballot w' rd = ready_ballot w rd) by (unfold ready_ballot, prev_ballot; cbn; by rewrite Hpr).
  assert (Hrl : ready_level w' rd = ready_level w rd) by (unfold ready_level, ready_commit; by rewrite Hds, Hdc, Hrb).
  assert (Hdl : disk_level w' = disk_level w) by (unfold disk_level; by rewrite Hds, Hdc, Hdb).
  assert (Hall : all_msgs w' ⊆ all_msgs w).
  { unfold all_msgs. change (r_msgs (w_raft w')) with (r_msgs (rn_raft rn)). rewrite Hm, app_nil_r.
    intros g. rewrite !elem_of_app. cbn. intros [Hg|Hg]; [by left|]. right; right. by apply (vi_offered _ Hvi rd Hrd). }
  assert (Hrbal : r_ballot (w_raft w') = r_ballot (w_raft w)) by (unfold r_ballot, w_raft; cbn; by rewrite Ht, Hv).
  split; try done.
  - by rewrite Hdb.
  - intros v' Hx. destruct Hx as [|rd' [=]|rd' [= <-] _|rd' _ [=]|].
    + exists (mem_level w). split; [constructor|]. apply below_same; cbn; [by rewrite Hl'|done|by rewrite Hl'|done].
    + exists (ready_level w rd). split; [by apply at_offered|]. rewrite Hrl. by apply below_same.
    + exists (disk_level w). split; [constructor|]. rewrite Hdl. by apply below_same.
  - intros v' Hx. rewrite Hl'. destruct Hx as [|rd' [=]|rd' [= <-] _|rd' _ [=]|].
    + cbn. by rewrite Hl'.
    + rewrite Hrl. apply Hb. by apply at_offered.
    + rewrite Hdl. apply Hb. constructor.
  - left. unfold same_lead. change (r_raftLog (w_raft w')) with (w_log w'). rewrite Hl'. unfold w_raft. cbn.
    clear -Ha Ht Hs. revert Ha. unfold acceptReady. intros ([] & rn1 & [= <-] & (r' & Hr & ->)%on_raft_Ok)%bind_Ok.
    apply bind_Ok in Hr as ([] & r1 & Hr & [= <-]). cbn in *. revert Hr.
    destruct (rd_SoftState rd), (negb _); cbn; by intros [= <-].
  - by rewrite Hwst.
Qed.

Lemma save_ready_snapshot rd st st' :
  IsEmptySnap (rd_Snapshot rd) = true → save_ready rd st = Ok (Val st') → ms_snapshot st' = ms_snapshot st.
Proof.
  intros Hs. unfold save_ready. rewrite Hs. set (st1 := if IsEmptyHardState _ then _ else _).
  assert (H1 : ms_snapshot st1 = ms_snapshot st) by (unfold st1; by destruct (IsEmptyHardState _)).
  rewrite <- H1. clearbody st1. intros (st2 & Ha & [= <-])%outcome_bind_Ok. clear -Ha. revert Ha. unfold Append.
  intros Ha. repeat (case_match || (apply outcome_bind_Ok in Ha as (? & ? & Ha))); simplify_eq; done.
Qed.

Lemma save_still p0 w rd st rn :
  stored w → vote_inv w → behind w → us_pending (w_user w) = Some rd → w_saved w = false →
  save_ready rd (w_storage w) = Ok (Val st) → write_storage st (us_rn (w_user w)) = Ok (tt, rn) →
  let w' := MkWorld (MkUser rn (us_offered (w_user w)) (Some rd)) true (w_sent w) in
  vote_inv w' → still p0 w w'.
Proof.
  intros Hst Hvi Hb Hrd Hsv Hsave Hwr w' Hvi'.
  destruct (stored_save w rd st rn Hst Hrd Hsv Hsave Hwr) as (Hst' & Hlog & Hdisk). fold w' in Hst', Hlog, Hdisk.
  pose proof (sd_pending _ Hst rd Hrd) as Hsav. rewrite Hsv in Hsav. destruct Hsav as [[Hsn _ _] _].
  injection Hwr as <-. pose proof (vi_durable _ Hvi) as Hd. rewrite Hrd, Hsv in Hd.
  pose proof (vi_durable _ Hvi') as Hd'. cbn in Hd'.
  assert (Hrb : ready_ballot w' rd = ready_ballot w rd) by done. rewrite Hrb in Hd'.
  destruct (vi_pending _ Hvi rd Hrd) as (Hle & _ & _).
  assert (Hoff : us_offered (w_user w) = None) by (apply (sd_one _ Hst); by rewrite Hrd).
  assert (Hdc : durable_commit w' ≤ ready_commit w rd).
  { unfold durable_commit, ready_commit. change (w_storage w') with st. rewrite (save_ready_hs _ _ _ Hsave).
    unfold durable_commit. destruct (IsEmptyHardState _); lia. }
  assert (Hrl : at_level w (ready_level w rd)) by by apply at_pending.
  split; try done.
  - unfold all_msgs, pending_msgs. cbn. by rewrite Hrd.
  - by rewrite Hd, Hd'.
  - intros v' Hx. destruct Hx as [|rd' Hr'|rd' _ [=]|rd' [= <-] _|].
    + exists (mem_level w). split; [constructor|]. apply below_same; cbn; [done| |done|done].
      unfold all_msgs, pending_msgs. cbn. by rewrite Hrd.
    + cbn in Hr'. by rewrite Hoff in Hr'.
    + exists (ready_level w rd). split; [done|]. split; cbn; [done|done|lia|by rewrite Hd'].
    + exists (ready_level w rd). split; [done|]. split; cbn; [done|set_solver|lia|by rewrite Hd'].
  - assert (Hrc : ready_commit w rd ≤ l_committed (w_log w)) by exact (Hb _ Hrl).
    assert (Hdl : durable_commit w' ≤ l_committed (w_log w)) by lia.
    intros v' Hx. destruct Hx as [|rd' Hr'|rd' _ [=]|rd' [= <-] _|]; [done|cbn in Hr'; by rewrite Hoff in Hr'|exact Hdl..].
  - by left.
  - by apply (save_ready_snapshot rd).
Qed.

Lemma send_still p0 w rd :
  stored w → behind w → us_pending (w_user w) = Some rd → w_saved w = true →
  still p0 w (MkWorld (w_user w) true (w_sent w ++ rd_Messages rd)).
Proof.
  intros Hst Hb Hrd Hsv. pose proof (sd_one _ Hst ltac:(by rewrite Hrd)) as Hoff. clear Hst.
  destruct w as [u saved sent]. cbn in *. subst saved. set (w := MkWorld u true sent) in *.
  set (w' := MkWorld _ _ _). assert (Hsl : at_level w (saved_level w rd)) by by apply at_saved.
  assert (Hp : pending_msgs w = rd_Messages rd) by (unfold pending_msgs; cbn; by rewrite Hrd).
  assert (Hall : all_msgs w' ⊆ all_msgs w).
  { unfold all_msgs. change (pending_msgs w') with (pending_msgs w). rewrite Hp. cbn. set_solver. }
  split; try done.
  - cbn. set_solver.
  - intros v' Hx. destruct Hx as [|rd' Hr'|rd' _ [=]|rd' Hr' _|].
    + exists (mem_level w). split; [constructor|]. by apply below_same.
    + cbn in Hr'. by rewrite Hoff in Hr'.
    + cbn in Hr'. rewrite Hrd in Hr'. injection Hr' as <-. exists (saved_level w rd). split; [done|].
      apply below_same; cbn; [done|set_solver|done|done].
    + exists (saved_level w rd). split; [done|]. by apply below_same.
  - intros v' Hx. change (l_committed (w_log w')) with (l_committed (w_log w)).
    destruct Hx as [|rd' Hr'|rd' _ [=]|rd' Hr' _|]; [done|cbn in Hr'; by rewrite Hoff in Hr'|..];
      apply (Hb (disk_level w)); constructor.
  - by left.
Qed.

Lemma stable_still p0 w rd rn :
  stored w → behind w → us_pending (w_user w) = Some rd → w_saved w = true →
  match last (rd_Entries rd) with
  | None => rn_raft rn = w_raft w
  | Some e => ∃ l, stableTo (w_log w) (e_Index e) (e_Term e) = Ok l ∧
                   rn_raft rn = (w_raft w) <| r_raftLog := l |>
  end →
  (∀ i t, lg_term (disk w) i = Some t → lg_term (rl_log (w_log w)) i = Some t →
     ∀ k, lg_prev (rl_log (w_log w)) < k ≤ i → lg_entry (disk w) k = lg_entry (rl_log (w_log w)) k) →
  still p0 w (MkWorld (MkUser rn None None) false (w_sent w)).
Proof.
  intros Hst Hb Hrd Hsv Hrn Hag. set (w' := MkWorld _ _ _).
  destruct (stored_stable w rd rn (rn_raft rn) Hst Hrd Hsv Hrn Hag eq_refl) as (Hst' & Hlog & Hwst).
  fold w' in Hst', Hlog, Hwst.
  assert (Hsame : same_lead (w_raft w) (w_raft w') ∧ r_Vote (w_raft w') = r_Vote (w_raft w) ∧
    r_msgs (w_raft w') = r_msgs (w_raft w) ∧ l_committed (w_log w') = l_committed (w_log w)).
  { unfold same_lead. change (rl_log (r_raftLog (w_raft w'))) with (rl_log (w_log w')). rewrite Hlog.
    change (w_raft w') with (rn_raft rn). change (l_committed (w_log w')) with (l_committed (r_raftLog (rn_raft rn))).
    clear -Hrn. destruct (last (rd_Entries rd)); [|by rewrite Hrn].
    destruct Hrn as (l & Hs & ->). cbn. split_and!; try done. unfold stableTo in Hs.
    destruct (u_stableTo _ _ _); [|done]. by injection Hs as <-. }
  destruct Hsame as (Hse & Hvo & Hms & Hcm).
  assert (Hdl : disk_level w' = disk_level w).
  { unfold disk_level, disk, durable_commit, durable_ballot. by rewrite Hwst. }
  assert (Hrb : r_ballot (w_raft w') = r_ballot (w_raft w)) by (unfold r_ballot; by rewrite Hvo, (proj1 (proj2 Hse))).
  assert (Hall : all_msgs w' ⊆ all_msgs w).
  { unfold all_msgs. rewrite Hms. intros g. rewrite !elem_of_app. cbn.
    intros [?|[?%elem_of_nil|?]]; [by left|done|right; by right]. }
  split; try done.
  - change (ballot_le (v_ballot (disk_level w)) (v_ballot (disk_level w'))). by rewrite Hdl.
  - intros v' Hx. destruct Hx as [|rd' [=]|rd' [=]|rd' [=]|].
    + exists (mem_level w). split; [constructor|]. by apply below_same; cbn; rewrite ?Hcm.
    + exists (disk_level w). split; [constructor|]. rewrite Hdl. by apply below_same.
  - intros v' Hx. rewrite Hcm. destruct Hx as [|rd' [=]|rd' [=]|rd' [=]|].
    + cbn. by rewrite Hcm.
    + rewrite Hdl. apply Hb. constructor.
  - by left.
  - by rewrite Hwst.
Qed.

(** ** Starting *)

(** Starting sends nothing and takes the commit index from the storage. *)
Definition hushed (r r' : raft MemoryStorage) : Prop := r_msgs r' = r_msgs r ∧ r_raftLog r' = r_raftLog r.
#[local] Instance hushed_preorder : PreOrder hushed.
Proof. split; [by split|]. intros a b c [] []. split; congruence. Qed.
Lemma Intn_hushed n : moves hushed (Intn n).
Proof.
  intros r. unfold Intn. case_bool_decide; [by apply wp_panic|]. by apply wp_bind, wp_get, wp_bind, wp_put, wp_ret.
Qed.
Lemma becomeFollower_hushed term lead : moves hushed (becomeFollower term lead).
Proof.
  pose proof Intn_hushed. unfold becomeFollower, reset, reset_progress, abortLeaderTransfer,
    resetRandomizedElectionTimeout, pr_modify, pr_set, pr_get. walk.
Qed.
Lemma restore_config_hushed cs r :
  r_state r = StateFollower → wp True (restore_config cs) r (λ _ r', hushed r r').
Proof.
  intros Hs. unfold restore_config. apply wp_bind, wp_get, wp_bind, wp_lift; [|done]. intros last _.
  apply wp_bind, wp_lift; [|done]. intros res _. apply wp_bind.
  assert (Hsw : wp True (switchToConfig res.1 res.2) r (λ _ r', hushed r r')).
  { unfold switchToConfig. apply wp_bind, wp_modify, wp_bind, wp_get, wp_bind, wp_modify. cbn. rewrite Hs.
    rewrite !(bool_decide_eq_false_2 (StateFollower = StateLeader)) by done. rewrite andb_false_r. by apply wp_ret. }
  eapply wp_mono; [exact Hsw|]. cbn beta. intros cs' r1 H1. apply wp_lift; [|done]. done.
Qed.
Lemma newRaft_hushed rand (c : raft_Config MemoryStorage) st r :
  c_Storage c = Some st → newRaft rand c = Ok r →
  r_msgs r = [] ∧ (l_committed (r_raftLog r) = hs_Commit (ms_hardState st) ∨
    hs_Commit (ms_hardState st) = 0 ∧ ∃ n l, newLogWithSize st n = Ok l ∧ l_committed (r_raftLog r) = l_committed l).
Proof.
  intros Hst. unfold newRaft. destruct (validate c) as [c'|] eqn:Hval; [|done].
  assert (Hst' : c_Storage c' = Some st).
  { rewrite <- Hst. revert Hval. unfold validate. repeat case_match; intros [=]; subst; done. }
  rewrite Hst'. destruct (newLogWithSize _ _) as [l|] eqn:Hl; [|done]. cbn [mbind outcome_bind].
  change (must (InitialState st)) with (Ok (ms_hardState st, s_ConfState (ms_snapshot st))). cbn [mbind outcome_bind].
  set (hs := ms_hardState st). set (r0 := MkRaft _ _ _ _ _ _ _ _ _ _ _ _ _ _ _ _ _ _ _ _ _ _ _ _ _ _ _).
  match goal with |- context [mbind ?f (?m r0)] => set (body := m) end. intros Hr.
  assert (Hw : wp True body r0 (λ _ r', r_msgs r' = [] ∧ (l_committed (r_raftLog r') = hs_Commit hs ∨
    hs_Commit hs = 0 ∧ l_committed (r_raftLog r') = l_committed l))).
  { unfold body. apply wp_bind. eapply wp_mono; [by apply restore_config_hushed|].
    cbn beta. intros _ r1 [Hm1 Hl1]. apply wp_bind.
    assert (Hls2 : wp True (when (negb (IsEmptyHardState hs)) (loadState hs)) r1 (λ _ r2,
      r_msgs r2 = [] ∧ (l_committed (r_raftLog r2) = hs_Commit hs ∨ hs_Commit hs = 0 ∧ l_committed (r_raftLog r2) = l_committed l))).
    { destruct (IsEmptyHardState hs) eqn:He; cbn [negb when].
      - apply wp_ret. split; [done|]. right. rewrite Hl1. split; [|done]. destruct hs as [t v cm].
        unfold IsEmptyHardState, isHardStateEqual in He. cbn in He. by apply andb_prop in He as [_ ->%N.eqb_eq].
      - unfold loadState. apply wp_bind, wp_lift; [|done]. intros last _. apply wp_bind, wp_get.
        destruct (_ || _); [by apply wp_panic|]. apply wp_modify. cbn. split; [done|by left]. }
    eapply wp_mono; [exact Hls2|]. cbn beta. intros _ r2 (Hm2 & Hc2). apply wp_bind.
    assert (Hap : wp True (when (0 <? c_Applied c') (log_step (λ l, l' ← appliedTo l (c_Applied c'); Ok (tt, l')))) r2
      (λ _ r3, r_msgs r3 = r_msgs r2 ∧ l_committed (r_raftLog r3) = l_committed (r_raftLog r2))).
    { destruct (0 <? _); cbn [when]; [|by apply wp_ret]. unfold wp, log_step.
      destruct (appliedTo _ _) as [l'|] eqn:Ha; [|done]. cbn. split; [done|]. revert Ha. unfold appliedTo.
      destruct (_ =? 0); [by intros [= <-]|]. destruct (_ || _); [done|]. by intros [= <-]. }
    eapply wp_mono; [exact Hap|]. cbn beta. intros _ r3 [Hm3 Hc3].
    apply wp_bind, wp_get, wp_bind. eapply wp_mono; [apply becomeFollower_hushed|]. cbn beta. intros _ r4 [Hm4 Hl4].
    apply wp_bind, wp_lift; [|done]. intros _ _. apply wp_ret. rewrite Hm4, Hl4, Hm3, Hc3. by split. }
  unfold wp in Hw. destruct (body r0) as [[[] r']|]; [|done]. injection Hr as <-.
  destruct Hw as [Hm [Hc|[Hc Hc']]]; (split; [done|]); [by left|right]. split; [done|]. by exists (c_MaxCommittedSizePerReady c'), l.
Qed.

Lemma newRaft_commit rand (c : raft_Config MemoryStorage) st r :
  ms_valid st → c_Storage c = Some st → newRaft rand c = Ok r →
  r_msgs r = [] ∧ hs_Commit (ms_hardState st) ≤ l_committed (r_raftLog r) ≤
    N.max (lg_prev (ms_log st)) (hs_Commit (ms_hardState st)).
Proof.
  intros Hvs Hst Hr. destruct (newRaft_hushed _ _ _ _ Hst Hr) as [Hms Hcm]. split; [done|].
  destruct Hcm as [->|[-> (n & l & Hl & ->)]]; [lia|].
  revert Hl. unfold newLogWithSize. rewrite FirstIndex_law, LastIndex_law by done. cbn.
  assert (Hlb : lg_last (ms_log st) + 1 < two64) by exact (log_bound _ (storage_log_ok _ Hvs)).
  assert (Hp : lg_prev (ms_log st) ≤ lg_last (ms_log st)) by (unfold lg_last; lia).
  intros [= <-]. cbn. nowrap. lia.
Qed.

Lemma restart_still w rand c rn :
  stored w → vote_inv w → (lg_prev (disk w) = 0 → lg_prev_term (disk w) = 0) →
  c_Storage c = Some (w_storage w) → NewRawNode rand c = Ok rn →
  still (lg_prev (disk w)) w (MkWorld (MkUser rn None None) false (w_sent w)).
Proof.
  intros Hst Hvi Hz Hc Hn. set (w' := MkWorld _ _ _).
  pose proof (rv_storage _ (li_valid _ (sd_log _ Hst))) as Hvs.
  destruct (stored_restart rand c (w_storage w) rn (w_sent w) Hc Hvs Hz Hn) as (Hst' & Hlog & Hwst & _).
  fold w' in Hst', Hlog, Hwst.
  assert (Hdl : disk_level w' = disk_level w).
  { unfold disk_level, disk, durable_commit, durable_ballot. by rewrite Hwst. }
  unfold NewRawNode in Hn. apply outcome_bind_Ok in Hn as (r & Hr & [= <-]).
  destruct (newRaft_ballot _ _ _ Hr) as (st' & hs & cs & Hst1 & Hin & Hb & _ & _).
  rewrite Hc in Hst1. injection Hst1 as <-. injection Hin as <- <-.
  destruct (newRaft_commit _ _ _ _ Hvs Hc Hr) as [Hms Hcommit].
  assert (Hall : all_msgs w' = w_sent w).
  { unfold all_msgs. change (r_msgs (w_raft w')) with (r_msgs r). by rewrite Hms, !app_nil_r. }
  split; try done.
  - rewrite Hall. unfold all_msgs. set_solver.
  - change (ballot_le (v_ballot (disk_level w)) (v_ballot (disk_level w'))). by rewrite Hdl.
  - intros v' Hx. exists (disk_level w). split; [constructor|].
    destruct Hx as [|rd' [=]|rd' [=]|rd' [=]|]; [|rewrite Hdl; by apply below_same].
    split; [exact Hlog|change (all_msgs w' ⊆ w_sent w); by rewrite Hall|exact (proj2 Hcommit)|].
    change (ballot_le (durable_ballot w) (r_ballot r)). by rewrite Hb.
  - intros v' Hx. destruct Hx as [|rd' [=]|rd' [=]|rd' [=]|]; [done|]. rewrite Hdl. exact (proj1 Hcommit).
  - right. by apply newRaft_follower in Hr.
  - by rewrite Hwst.
Qed.
End Levels.
