(* ===== verification/Agreement.v ===== *)
(** * Agreement of logs, and what it takes to be chosen

    The definitions behind the safety of the replicated state machine, which the
    file StateMachine proves.  Every log of the cluster starts after the same
    entry.  [agree] relates two logs up to an index.  The argument needs two pieces
    of history no node holds: the winner of each term and the log it leads with
    ([ghost]).  From the messages of a cluster it is then defined which entries a
    quorum has acknowledged ([chosen]) and which it can still acknowledge
    ([can_commit]); a commit index is justified ([claimed]) by a chosen entry. *)

From S2P Require Import Prelude Pb Quorum Inflights Progress Tracker Confchange.
From S2P Require Import Util Storage Unstable RaftLog ReadOnly Raft RawNode Node.
From S2P Require Import RaftFrame RaftSafety RaftElection RaftBallot RaftRoles RaftInvariant RaftTotal RaftAppend.
From S2P Require Import RaftLeads RaftActs Runs LogRuns Cluster LogLinks LogMatching Levels.

(** ** Agreement *)

Definition agree (lg lg' : Log) (n : N) : Prop := ∀ k, k ≤ n → lg_entry lg k = lg_entry lg' k.

Lemma agree_refl lg n : agree lg lg n.
Proof. by intros k _. Qed.
Lemma agree_sym lg lg' n : agree lg lg' n → agree lg' lg n.
Proof. intros H k Hk. symmetry. by apply H. Qed.
Lemma agree_trans lg1 lg2 lg3 n : agree lg1 lg2 n → agree lg2 lg3 n → agree lg1 lg3 n.
Proof. intros H1 H2 k Hk. rewrite H1 by done. by apply H2. Qed.
Lemma agree_le lg lg' m n : m ≤ n → agree lg lg' n → agree lg lg' m.
Proof. intros Hm H k Hk. apply H. lia. Qed.

Lemma lg_term_above lg k : lg_prev lg < k → lg_term lg k = e_Term <$> lg_entry lg k.
Proof.
  intros Hk. unfold lg_term, lg_entry. rewrite (proj2 (N.ltb_lt _ _) Hk).
  by rewrite (proj2 (N.eqb_neq _ _)), (proj2 (N.ltb_ge _ _)) by lia.
Qed.
Lemma lg_entry_below lg k : k ≤ lg_prev lg → lg_entry lg k = None.
Proof. intros Hk. unfold lg_entry. by rewrite (proj2 (N.ltb_ge _ _)). Qed.

Section Based.
Variables (c0 : N) (lg0 : Log).

(** The log starts where the common log [lg0] does, and has its first entries. *)
Record based (lg : Log) : Prop := {
  bs_prev : lg_prev lg = lg_prev lg0;
  bs_term : lg_prev_term lg = lg_prev_term lg0;
  bs_agree : agree lg lg0 c0;
  bs_range : lg_prev lg0 ≤ c0 ≤ lg_last lg;
}.

Lemma agree_append lg after es k :
  lg_prev lg < after → after ≤ lg_last lg + 1 → k < after → agree lg (lg_append lg after es) k.
Proof. intros Hp Ha Hk j Hj. symmetry. apply lg_entry_append_old; lia. Qed.
Lemma based_append lg after es : c0 < after → after ≤ lg_last lg + 1 → based lg → based (lg_append lg after es).
Proof.
  intros Hc Ha [H1 H2 H3 H4]. split; [done|done| |].
  - apply (agree_trans _ lg); [|done]. apply agree_sym, agree_append; lia.
  - rewrite lg_last_append by lia. lia.
Qed.
Lemma agree_base lg lg' n : based lg → based lg' → n ≤ c0 → agree lg lg' n.
Proof. intros [_ _ H1 _] [_ _ H2 _] Hn k Hk. rewrite H1, H2 by lia. done. Qed.
Lemma agree_term lg lg' n k :
  based lg → based lg' → agree lg lg' n → k ≤ n → lg_term lg k = lg_term lg' k.
Proof.
  intros [H1 H2 _ _] [H3 H4 _ _] Ha Hk. destruct (decide (lg_prev lg0 < k)) as [Hlt|Hge].
  { rewrite !lg_term_above by lia. by rewrite Ha. }
  destruct (decide (k = lg_prev lg0)) as [->|Hne].
  - rewrite <- H1 at 1. rewrite <- H3. by rewrite !lg_term_prev, H2, H4.
  - destruct (lg_term lg k) eqn:E1.
    { assert (Hs : is_Some (lg_term lg k)) by by eexists. apply lg_term_is_Some in Hs. lia. }
    destruct (lg_term lg' k) eqn:E2; [|done].
    assert (Hs : is_Some (lg_term lg' k)) by by eexists. apply lg_term_is_Some in Hs. lia.
Qed.
Lemma based_term lg k : based lg → is_Some (lg_term lg k) ↔ lg_prev lg0 ≤ k ≤ lg_last lg.
Proof. intros [<- _ _ _]. apply lg_term_is_Some. Qed.
Lemma based_last lg : based lg → c0 ≤ lg_last lg.
Proof. intros H. apply H. Qed.
Lemma agree_last lg lg' n : based lg → based lg' → agree lg lg' n → n ≤ lg_last lg' → n ≤ lg_last lg.
Proof.
  intros [H1 _ _ H1'] [H2 _ _ H2'] Ha Hn. destruct (decide (n ≤ c0)); [lia|].
  assert (Hs : is_Some (lg_entry lg' n)) by (apply lg_entry_is_Some; lia).
  rewrite <- (Ha n) in Hs by lia. apply lg_entry_is_Some in Hs. lia.
Qed.

(** ** An append that is a piece of another log *)

Definition matching (lg lg' : Log) : Prop :=
  ∀ k u, c0 < k → lg_term lg k = Some u → lg_term lg' k = Some u → agree lg lg' k.

Lemma piece_last lg m : based lg → piece lg m → lg_prev lg0 ≤ m_Index m ∧ m_Index m + lenN (m_Entries m) ≤ lg_last lg.
Proof.
  intros Hb (Hc & Ht & He). assert (Hs : is_Some (lg_term lg (m_Index m))) by by eexists.
  apply based_term in Hs; [|done]. split; [lia|]. destruct (decide (m_Entries m = [])) as [->|Hne].
  { unfold lenN. cbn. lia. }
  destruct (lookup_lt_is_Some_2 (m_Entries m) (pred (length (m_Entries m)))) as [e Hl].
  { destruct (m_Entries m); [done|cbn; lia]. }
  pose proof (Hc _ _ Hl) as Hi. apply list_elem_of_lookup_2 in Hl.
  assert (Hse : is_Some (lg_entry lg (e_Index e))) by (exists e; by apply He). apply lg_entry_is_Some in Hse.
  unfold lenN. destruct (m_Entries m); [done|]. cbn [length pred] in *. lia.
Qed.

Lemma fits_agree lg lgT m :
  based lg → based lgT → matching lg lgT → piece lgT m → fits lg m →
  agree lg lgT (m_Index m + lenN (m_Entries m)).
Proof.
  intros Hb HbT Hm (Hc & Ht & He) [Hf1 Hf2]. destruct (decide (m_Entries m = [])) as [->|Hne].
  { unfold lenN. cbn. rewrite N.add_0_r. destruct (decide (m_Index m ≤ c0)); [by apply agree_base|].
    apply (Hm _ (m_LogTerm m)); [lia|done..]. }
  destruct (lookup_lt_is_Some_2 (m_Entries m) (pred (length (m_Entries m)))) as [e Hl].
  { destruct (m_Entries m); [done|cbn; lia]. }
  assert (Hi : e_Index e = m_Index m + lenN (m_Entries m)).
  { rewrite (Hc _ _ Hl). unfold lenN. destruct (m_Entries m); [done|]. cbn [length pred]. lia. }
  apply list_elem_of_lookup_2 in Hl. rewrite <- Hi.
  assert (Hse : is_Some (lg_entry lgT (e_Index e))) by (exists e; by apply He). apply lg_entry_is_Some in Hse.
  destruct (decide (e_Index e ≤ c0)); [by apply agree_base|].
  apply (Hm _ (e_Term e)); [lia|by apply Hf2|]. apply lg_term_entry. by apply He.
Qed.

(** The log after the entries from the first conflict on were taken over: it is the
    other log, and it keeps what the two logs had in common. *)
Lemma splice lg lgT m new :
  based lg → based lgT → matching lg lgT → piece lgT m → has_terms (m_Entries m) →
  lg_term lg (m_Index m) = Some (m_LogTerm m) → lg_conflict lg (m_Entries m) ≠ 0 →
  new = lg_append lg (lg_conflict lg (m_Entries m))
    (drop (N.to_nat (lg_conflict lg (m_Entries m) - m_Index m - 1)) (m_Entries m)) →
  based new ∧ lg_last new = m_Index m + lenN (m_Entries m) ∧ agree new lgT (lg_last new) ∧
  ∀ x, agree lg lgT x → agree lg new x.
Proof.
  intros Hb HbT Hm (Hc & Ht & He) Hts Hidx Hne ->. assert (Hs : is_Some (lg_term lg (m_Index m))) by by eexists.
  apply based_term in Hs; [|done]. pose proof (bs_prev _ Hb) as Hpb. pose proof (bs_range _ Hb) as Hrb.
  destruct (lg_conflict_spec lg (m_Index m) (m_Entries m) Hc Hts) as
    [[? _]|(k & e & Hk & Hci & Hkl & Hdiff & Hbef)]; [lia|done|].
  set (ci := lg_conflict lg (m_Entries m)) in *. replace (N.to_nat (ci - m_Index m - 1)) with k by lia.
  pose proof (lookup_lt_Some _ _ _ Hk) as Hkn. assert (Hei : e_Index e = ci) by (rewrite (Hc _ _ Hk); lia).
  assert (Hlast : lg_last (lg_append lg ci (drop k (m_Entries m))) = m_Index m + lenN (m_Entries m)).
  { rewrite lg_last_append by lia. rewrite lenN_drop. unfold lenN. lia. }
  rewrite Hlast.
  assert (Hci0 : c0 < ci).
  { destruct (decide (ci ≤ c0)) as [Hle|]; [|lia]. exfalso. apply Hdiff. rewrite Hei.
    rewrite (agree_term lg lgT ci ci Hb HbT) by (by apply agree_base || lia).
    rewrite <- Hei. apply lg_term_entry, He. by eapply list_elem_of_lookup_2. }
  assert (Hlow : agree lg lgT (ci - 1)).
  { destruct k as [|k].
    - replace (ci - 1) with (m_Index m) by lia. destruct (decide (m_Index m ≤ c0)); [by apply agree_base|].
      apply (Hm _ (m_LogTerm m)); [lia|done..].
    - destruct (lookup_lt_is_Some_2 (m_Entries m) k) as [e' He']; [lia|].
      assert (Hi' : e_Index e' = ci - 1) by (rewrite (Hc _ _ He'); lia). rewrite <- Hi'.
      destruct (decide (e_Index e' ≤ c0)); [by apply agree_base|].
      apply (Hm _ (e_Term e')); [lia|apply (Hbef k); [lia|done]|].
      apply lg_term_entry, He. by eapply list_elem_of_lookup_2. }
  split; [apply based_append; [lia|lia|done]|]. split; [done|]. split.
  - intros j Hj. destruct (decide (j < ci)) as [Hlt|Hge].
    + rewrite lg_entry_append_old by lia. apply Hlow. lia.
    + replace j with (ci + N.of_nat (N.to_nat (j - ci))) at 1 by lia.
      rewrite lg_entry_append_new by lia. rewrite lookup_drop.
      destruct (lookup_lt_is_Some_2 (m_Entries m) (k + N.to_nat (j - ci))) as [e' He']; [unfold lenN in Hj; lia|].
      rewrite He'. assert (Hi' : e_Index e' = j) by (rewrite (Hc _ _ He'); lia). rewrite <- Hi'.
      symmetry. apply He. by eapply list_elem_of_lookup_2.
  - intros x Hx. destruct (decide (x < ci)) as [Hlt|Hge]; [apply agree_append; lia|].
    exfalso. apply Hdiff. rewrite (agree_term lg lgT x) by (done || lia).
    apply lg_term_entry, He. by eapply list_elem_of_lookup_2.
Qed.
End Based.

(** ** Quorums *)

Lemma joint_share_voter (c : JointConfig) (votes : gmap N bool) (p : N → bool) :
  keys (incoming c) ≠ ∅ → JointVoteResult c votes = VoteWon → joint_quorum c p →
  ∃ id, votes !! id = Some true ∧ p id = true.
Proof.
  intros Hne [Hw _]%JointVoteResult_iff [Hp _]. destruct (quorum_of_overlap _ _ _ Hne Hw Hp) as (id & _ & Hv & Hid).
  exists id. by apply bool_decide_eq_true in Hv.
Qed.

Lemma countb_one (f : N → bool) x l : NoDup l → (∀ y, f y = true → y = x) → (countb f l ≤ 1)%nat.
Proof.
  intros Hnd Hf. induction Hnd as [|y l Hy Hnd IH]; [cbn; lia|]. rewrite countb_cons.
  destruct (f y) eqn:E; [|lia]. apply Hf in E as ->.
  assert (H0 : countb f l = 0%nat); [|lia]. clear IH Hnd. induction l as [|z l IH]; [done|].
  rewrite countb_cons. apply not_elem_of_cons in Hy as [Hz Hy]. rewrite IH by done.
  destruct (f z) eqn:E; [|done]. apply Hf in E. congruence.
Qed.
(** With two voters a quorum is never one node alone. *)
Lemma quorum_other (c : JointConfig) (p : N → bool) self :
  (2 ≤ size (keys (incoming c)))%nat → joint_quorum c p → ∃ id, id ≠ self ∧ p id = true.
Proof.
  intros Hsz [[He|Hq] _]; [rewrite He in Hsz; by rewrite size_empty in Hsz; lia|].
  set (l := elements (keys (incoming c))) in *.
  destruct (List.existsb (λ id, negb (id =? self) && p id) l) eqn:Hex.
  { apply List.existsb_exists in Hex as (id & _ & [Hn Hid]%andb_prop). exists id. split; [|done].
    by apply negb_true_iff, N.eqb_neq in Hn. }
  exfalso. assert (Hle : (countb p l ≤ countb (λ id : N, (id =? self)%N) l)%nat).
  { apply countb_mono. intros id Hin Hp. destruct (id =? self) eqn:E; [done|].
    assert (Ht : List.existsb (λ id, negb (id =? self) && p id) l = true); [|congruence].
    apply List.existsb_exists. exists id. split; [by apply list_elem_of_In|]. by rewrite E, Hp. }
  pose proof (countb_one (λ id, id =? self) self l (NoDup_elements _) (λ y, proj1 (N.eqb_eq y self))).
  unfold majority in Hq. pose proof (Nat.div_le_mono 2 (size (keys (incoming c))) 2 ltac:(lia) Hsz). cbn in *. lia.
Qed.

(** ** What was sent, and what follows *)

(** The message says that its sender has the log of term [T] up to [n]. *)
Definition acks (m : Message) (T n : N) : Prop :=
  m_Term m = T ∧
  match m_Type m with
  | MsgAppResp => m_Reject m = false ∧ n ≤ m_Index m
  | MsgApp => n ≤ m_Index m + lenN (m_Entries m)
  | MsgHeartbeat => n ≤ m_Commit m
  | _ => False
  end.
Lemma acks_le m T n n' : n' ≤ n → acks m T n → acks m T n'.
Proof. unfold acks. intros Hle [? Hm]. split; [done|]. destruct (m_Type m); try done; [lia|split; [apply Hm|lia]|lia]. Qed.

(** The winner of each term, and the log it leads with, as far as it got. *)
Record ghost := MkGhost { gl : N → Log; gw : N → option N }.

Section Chosen.
Context `{RaftPB}.
Variables (voters : JointConfig) (K c0 : N) (lg0 : Log).
Implicit Types (C : cluster) (g : ghost).
Notation based := (based c0 lg0).

(** [id] has acknowledged, with a message that left it or is still in its memory. *)
Definition acked C (id T n : N) : Prop := ∃ w m, C !! id = Some w ∧ m ∈ all_msgs w ∧ acks m T n.
Definition acked_sent C (id T n : N) : Prop := ∃ w m, C !! id = Some w ∧ m ∈ w_sent w ∧ acks m T n.
Definition low C (id t : N) : Prop := ∃ w, C !! id = Some w ∧ (durable_ballot w).1 ≤ t.

(** An entry of the leader's own term in its log. *)
Definition own g (t i : N) : Prop := gw g t ≠ None ∧ c0 < i ∧ lg_term (gl g t) i = Some t.
Definition by_quorum (P : N → Prop) : Prop := ∃ p, joint_quorum voters p ∧ ∀ id, p id = true → P id.
Definition chosen g C (t i : N) : Prop := own g t i ∧ by_quorum (λ id, acked_sent C id t i).
Definition can_commit g C (t i : N) : Prop := own g t i ∧ by_quorum (λ id, acked C id t i ∨ low C id t).

(** A commit index a node of term [T] with the log [lg] may have. *)
Definition claimed g C (T : N) (lg : Log) (c : N) : Prop :=
  c ≤ c0 ∨ ∃ t i, t ≤ T ∧ chosen g C t i ∧ c ≤ i ∧ agree lg (gl g t) c.

Definition known g (t : N) : Prop := t ≤ K ∨ gw g t ≠ None.
Definition superseded g (T : N) : Prop := ∃ T', T < T' ∧ gw g T' ≠ None.
(** Where a log has an entry of a term it is the log of that term up to there. *)
Definition sound g (lg : Log) : Prop :=
  ∀ k u, c0 < k → lg_term lg k = Some u → known g u ∧ agree lg (gl g u) k.

Lemma acked_le C id T n n' : n' ≤ n → acked C id T n → acked C id T n'.
Proof. intros Hn (w & m & Hw & Hm & Ha). exists w, m. split_and!; try done. by apply (acks_le _ _ n). Qed.
Lemma acked_sent_le C id T n n' : n' ≤ n → acked_sent C id T n → acked_sent C id T n'.
Proof. intros Hn (w & m & Hw & Hm & Ha). exists w, m. split_and!; try done. by apply (acks_le _ _ n). Qed.
Lemma acked_sent_acked C id T n : acked_sent C id T n → acked C id T n.
Proof. intros (w & m & Hw & Hm & Ha). exists w, m. split_and!; try done. unfold all_msgs. set_solver. Qed.
Lemma by_quorum_mono (P Q : N → Prop) : (∀ id, P id → Q id) → by_quorum P → by_quorum Q.
Proof. intros H1 (p & Hp & Hid). exists p. split; [done|]. auto. Qed.
Lemma chosen_can g C t i : chosen g C t i → can_commit g C t i.
Proof. intros [Ho Hq]. split; [done|]. revert Hq. apply by_quorum_mono. intros id Ha. left. by apply acked_sent_acked. Qed.

Lemma claimed_le g C T lg c c' : c' ≤ c → claimed g C T lg c → claimed g C T lg c'.
Proof.
  intros Hc [?|(t & i & Ht & Hch & Hi & Ha)]; [left; lia|right]. exists t, i. split_and!; try done; [lia|].
  by apply (agree_le _ _ c' c).
Qed.
Lemma claimed_agree g C T T' lg lg' c : T ≤ T' → agree lg lg' c → claimed g C T lg c → claimed g C T' lg' c.
Proof.
  intros HT Hl [?|(t & i & Ht & Hch & Hi & Ha)]; [by left|right]. exists t, i. split_and!; try done; [lia|].
  apply (agree_trans _ lg); [by apply agree_sym|done].
Qed.

(** Sound logs with the same term at an index agree up to there. *)
Lemma sound_matching g lg lg' : sound g lg → sound g lg' → matching c0 lg lg'.
Proof.
  intros H1 H2 k u Hk Hu Hu'. destruct (H1 k u Hk Hu) as [_ Ha], (H2 k u Hk Hu') as [_ Ha'].
  apply (agree_trans _ (gl g u)); [done|]. by apply agree_sym.
Qed.
(** A prefix of a sound log is sound. *)
Lemma sound_prefix g lg lg' :
  based lg → based lg' → sound g lg' → agree lg lg' (lg_last lg) → sound g lg.
Proof.
  intros Hb Hb' Hs Ha k u Hk Hu. assert (Hsome : is_Some (lg_term lg k)) by by eexists.
  apply (based_term c0 lg0) in Hsome; [|done].
  assert (Ha' : agree lg lg' k) by (apply (agree_le _ _ _ (lg_last lg)); [lia|done]).
  rewrite (agree_term c0 lg0 lg lg' k k Hb Hb' Ha') in Hu by lia. destruct (Hs k u Hk Hu) as [Hkn Hau].
  split; [done|]. by apply (agree_trans _ lg').
Qed.
End Chosen.
