(* ===== verification/History.v ===== *)
(** * The history of a cluster

    The invariant behind the safety of the replicated state machine.  [core] ties
    the winners of the terms and the logs they lead with ([ghost], file Agreement)
    to what the nodes hold at each level (file Levels) and have sent: a winner has
    the votes of a quorum and has saved its own; its log has every entry that can be
    committed in a term before ([co_complete]); a node that acknowledged entries
    keeps them ([lo_acks]); a commit index is justified by a chosen entry
    ([lo_commit]); a vote goes only to a log that has what the voter acknowledged
    ([mk_vote]).

    [core_grow] lets the history grow while the nodes rest, [core_change] lets one
    node change while the history rests.  [lead_on_fine] is about a leader's log
    that gets longer, and [won_complete] is the heart of the matter: whoever wins an
    election has every entry that can be committed. *)

From S2P Require Import Prelude Pb Quorum Inflights Progress Tracker Confchange.
From S2P Require Import Util Storage Unstable RaftLog ReadOnly Raft RawNode Node.
From S2P Require Import RaftFrame RaftSafety RaftElection RaftBallot RaftRoles RaftInvariant RaftTotal RaftAppend.
From S2P Require Import RaftLeads RaftActs Runs LogRuns Cluster LogLinks LogMatching Levels Agreement.

(** ** The invariant *)

Section Core.
Context `{RaftPB}.
Variables (voters : JointConfig) (K c0 : N) (lg0 : Log).
Implicit Types (C : cluster) (g : ghost) (v : level) (m : Message).
Notation based := (based c0 lg0).
Notation own := (own c0).
Notation chosen := (chosen voters c0).
Notation can_commit := (can_commit voters c0).
Notation claimed := (claimed voters c0).
Notation known := (known K).
Notation sound := (sound K c0).

(** The log of a term: its terms never decrease, and end with the term itself. *)
Record log_fine g (t : N) : Prop := {
  lf_based : based (gl g t);
  lf_sound : sound g (gl g t);
  lf_start k : lg_term (gl g t) k = Some 0 → k = 0;
  lf_sorted k k' u u' : k ≤ k' → lg_term (gl g t) k = Some u → lg_term (gl g t) k' = Some u' → u ≤ u';
  lf_top k u : gw g t ≠ None → lg_term (gl g t) k = Some u → u ≤ t;
}.

(** The winner has saved its vote for itself, as have those that made it win. *)
Record elected C (T o : N) : Prop := {
  el_term : K < T;
  el_id : o ≠ None_id;
  el_node : ∃ w, C !! o = Some w ∧ ballot_le (T, o) (durable_ballot w) ∧
    ∀ m, m ∈ all_msgs w → grants m = true → m_Term m = T → m_To m = o;
  el_votes : ∃ votes, JointVoteResult voters votes = VoteWon ∧
    ∀ id, votes !! id = Some true → id = o ∨ sent_vote C o T id;
}.

(** A message of node [i]. *)
Definition owner_sent g C (T n : N) : Prop := ∃ o, gw g T = Some o ∧ acked_sent C o T n.
Definition older g C (T n : N) : Prop := ∃ t i, t < T ∧ chosen g C t i ∧ n ≤ i.
Definition beats (q : Message) (t i : N) : Prop := t < m_LogTerm q ∨ (m_LogTerm q = t ∧ i ≤ m_Index q).
Record msg_ok g C (i : N) m : Prop := {
  mk_app : m_Type m = MsgApp → gw g (m_Term m) = Some i ∧ piece (gl g (m_Term m)) m ∧
    claimed g C (m_Term m) (gl g (m_Term m)) (m_Commit m);
  mk_beat : m_Type m = MsgHeartbeat → gw g (m_Term m) = Some i ∧
    claimed g C (m_Term m) (gl g (m_Term m)) (m_Commit m) ∧
    (m_To m = i ∨ m_Commit m ≤ c0 ∨ acked_sent C (m_To m) (m_Term m) (m_Commit m));
  mk_ack T n : c0 < n → acks m T n → gw g T ≠ None ∧ n ≤ lg_last (gl g T) ∧
    (gw g T = Some i ∨ owner_sent g C T n ∨ older g C T n);
  mk_vote : grants m = true → ∃ w q, C !! m_To m = Some w ∧ q ∈ w_sent w ∧ m_Type q = MsgVote ∧
    m_Term q = m_Term m ∧
    ∀ t j n, t < m_Term m → acked C i t n → j ≤ n → can_commit g C t j → beats q t j;
}.

(** What a level of node [i] holds. *)
Record level_ok g C (i : N) v : Prop := {
  lo_based : based (v_log v);
  lo_sound : sound g (v_log v);
  lo_top k u : lg_term (v_log v) k = Some u → u ≤ (v_ballot v).1;
  lo_acks m T n t j : m ∈ v_msgs v → acks m T n → c0 < n → t ≤ T → can_commit g C t j →
    agree (v_log v) (gl g t) (N.min n j);
  lo_whole m T n : m ∈ v_msgs v → acks m T n → c0 < n → agree (v_log v) (gl g T) n ∨ superseded g T;
  lo_commit : claimed g C (v_ballot v).1 (v_log v) (v_commit v);
  lo_ack_terms m T n : m ∈ v_msgs v → acks m T n → c0 < n → T ≤ (v_ballot v).1;
  lo_requests m : m ∈ v_msgs v → m_Type m = MsgVote → ballot_le (m_Term m, i) (v_ballot v);
}.

Record core g C : Prop := {
  co_logs t : log_fine g t;
  co_elected T o : gw g T = Some o → elected C T o;
  co_complete t T i : t < T → gw g T ≠ None → can_commit g C t i → agree (gl g T) (gl g t) i;
  co_level i w v : C !! i = Some w → at_level w v → level_ok g C i v;
  co_msg i w m : C !! i = Some w → m ∈ all_msgs w → msg_ok g C i m;
}.

(** ** Simple consequences *)

Lemma own_last g t i : log_fine g t → own g t i → i ≤ lg_last (gl g t).
Proof.
  intros Hf (_ & _ & Ht). assert (Hs : is_Some (lg_term (gl g t) i)) by by eexists.
  apply (based_term c0 lg0) in Hs; [lia|apply Hf].
Qed.
Lemma claimed_last g C T lg c : (∀ t, log_fine g t) → based lg → claimed g C T lg c → c ≤ lg_last lg.
Proof.
  intros Hf Hb [?|(t & i & _ & [Ho _] & Hc & Ha)].
  - pose proof (based_last _ _ _ Hb). lia.
  - pose proof (own_last g t i (Hf t) Ho). apply (agree_last c0 lg0 lg (gl g t) c); [done|apply Hf|done|lia].
Qed.

(** The terms of a sound log never decrease. *)
Lemma sound_sorted g lg k k' u u' :
  (∀ t, log_fine g t) → based lg → sound g lg → k ≤ k' → lg_term lg k = Some u → lg_term lg k' = Some u' → u ≤ u'.
Proof.
  intros Hf Hb Hs Hk Hu Hu'. destruct (decide (k' ≤ c0)).
  { apply (lf_sorted _ _ (Hf 0) k k'); [done|..].
    - rewrite <- Hu. apply (agree_term c0 lg0 _ _ c0); [apply Hf|done|apply (agree_base c0 lg0); [apply Hf|done..]|lia].
    - rewrite <- Hu'. apply (agree_term c0 lg0 _ _ c0); [apply Hf|done|apply (agree_base c0 lg0); [apply Hf|done..]|lia]. }
  destruct (Hs k' u') as [_ Ha]; [lia|done|].
  rewrite (agree_term c0 lg0 lg (gl g u') k' k Hb (lf_based _ _ (Hf u')) Ha) in Hu by done.
  rewrite (agree_term c0 lg0 lg (gl g u') k' k' Hb (lf_based _ _ (Hf u')) Ha) in Hu' by done.
  by apply (lf_sorted _ _ (Hf u') k k').
Qed.

Lemma vote_durable C T o id :
  cluster_inv voters C → sent_vote C o T id → ∃ w, C !! id = Some w ∧ T ≤ (durable_ballot w).1.
Proof.
  intros Hinv (w & m & Hw & Hm & Hg & Ht & _). exists w. split; [done|].
  destruct (Hinv id w Hw) as [Hvi _]. destruct (vi_sent _ Hvi m Hm Hg) as [Hle _]. lia.
Qed.

(** Once a later term has a winner, only what is acknowledged already can be
    committed. *)
Lemma elected_acked g C T o t i :
  keys (incoming voters) ≠ ∅ → cluster_inv voters C → elected C T o → t < T → can_commit g C t i →
  ∃ id, (id = o ∨ sent_vote C o T id) ∧ acked C id t i.
Proof.
  intros Hne Hinv [_ _ (w & Hw & Hd & _) (votes & Hwon & Hv)] Ht [_ (p & Hp & Hid)].
  destruct (joint_share_voter voters votes p Hne Hwon Hp) as (id & Hvid & Hpid).
  exists id. split; [by apply Hv|]. destruct (Hid id Hpid) as [|(x & Hx & Hlow)]; [done|exfalso].
  destruct (Hv id Hvid) as [->|Hs].
  - rewrite Hw in Hx. injection Hx as <-. destruct Hd as [Hd _]. cbn in Hd, Hlow. lia.
  - destruct (vote_durable _ _ _ _ Hinv Hs) as (y & Hy & Hle). rewrite Hy in Hx. injection Hx as <-. lia.
Qed.

(** ** The history grows *)

Record extends g g' : Prop := {
  ex_winner t o : gw g t = Some o → gw g' t = Some o;
  ex_log t : known g t → lg_last (gl g t) ≤ lg_last (gl g' t) ∧ agree (gl g t) (gl g' t) (lg_last (gl g t));
}.
Lemma extends_refl g : extends g g.
Proof. split; [done|]. intros t _. split; [lia|apply agree_refl]. Qed.
Lemma extends_trans g1 g2 g3 : (∀ t, known g1 t → known g2 t) → extends g1 g2 → extends g2 g3 → extends g1 g3.
Proof.
  intros Hk [W1 L1] [W2 L2]. split; [auto|]. intros t Ht. destruct (L1 t Ht) as [H1 H2], (L2 t (Hk t Ht)) as [H3 H4].
  split; [lia|]. apply (agree_trans _ (gl g2 t)); [done|]. by apply (agree_le _ _ _ (lg_last (gl g2 t))).
Qed.
Lemma extends_known g g' t : extends g g' → known g t → known g' t.
Proof.
  intros [He _] [?|Hw]; [by left|right]. destruct (gw g t) as [o|] eqn:E; [|done]. by rewrite (He t o E).
Qed.
Lemma extends_gw g g' t : extends g g' → gw g t ≠ None → gw g' t ≠ None.
Proof. intros [He _] Hw. destruct (gw g t) as [o|] eqn:E; [|done]. by rewrite (He t o E). Qed.

Section Grow.
Variables (g g' : ghost) (C : cluster).
Hypothesis Hne : keys (incoming voters) ≠ ∅.
Hypothesis Hinv : cluster_inv voters C.
Hypothesis Hc : core g C.
Hypothesis Hex : extends g g'.
Hypothesis Hf' : ∀ t, log_fine g' t.

Lemma grow_agree t lg n : known g t → based lg → agree lg (gl g t) n → n ≤ lg_last (gl g t) → agree lg (gl g' t) n.
Proof.
  intros Hk _ Ha Hn. apply (agree_trans _ (gl g t)); [done|].
  apply (agree_le _ _ _ (lg_last (gl g t))); [done|]. by apply Hex.
Qed.
Lemma grow_own t i : own g t i → own g' t i.
Proof.
  intros (Hw & Hi & Ht). assert (Ho : own g t i) by done. split; [by apply (extends_gw g)|]. split; [done|].
  rewrite <- Ht. symmetry. apply (agree_term c0 lg0 _ _ i); [apply (co_logs _ _ Hc)|apply Hf'| |lia].
  apply (agree_le _ _ _ (lg_last (gl g t))); [apply own_last; [apply (co_logs _ _ Hc)|done]|].
  apply Hex. by right.
Qed.
Lemma grow_own_back t i : own g' t i → gw g t ≠ None → i ≤ lg_last (gl g t) → own g t i.
Proof.
  intros (Hw & Hi & Ht) Hg Hl. split; [done|]. split; [done|]. rewrite <- Ht.
  apply (agree_term c0 lg0 _ _ i); [apply (co_logs _ _ Hc)|apply Hf'| |lia].
  apply (agree_le _ _ _ (lg_last (gl g t))); [done|]. apply Hex. by right.
Qed.
Lemma grow_chosen t i : chosen g C t i → chosen g' C t i.
Proof. intros [Ho Hq]. split; [by apply grow_own|done]. Qed.
Lemma grow_can t i : can_commit g' C t i → own g t i → can_commit g C t i.
Proof. by intros [_ Hq] Ho. Qed.

Lemma grow_claimed T lg c : based lg → claimed g C T lg c → claimed g' C T lg c.
Proof.
  intros Hb [?|(t & i & Ht & Hch & Hi & Ha)]; [by left|right]. exists t, i. split; [done|].
  split; [by apply grow_chosen|]. split; [done|]. pose proof (own_last g t i (co_logs _ _ Hc t) (proj1 Hch)).
  apply grow_agree; [right; apply Hch|done|done|lia].
Qed.
Lemma grow_claimed_log T c : gw g T ≠ None → claimed g C T (gl g T) c → claimed g' C T (gl g' T) c.
Proof.
  intros Hw Hcl. assert (Hb : based (gl g T)) by apply (co_logs _ _ Hc).
  apply (claimed_agree _ _ _ _ T T (gl g T)); [lia| |by apply grow_claimed].
  apply (agree_le _ _ _ (lg_last (gl g T))); [by apply (claimed_last g C T); [apply (co_logs _ _ Hc)|..]|].
  apply Hex. by right.
Qed.
Lemma grow_sound lg : based lg → sound g lg → sound g' lg.
Proof.
  intros Hb Hs k u Hk Hu. destruct (Hs k u Hk Hu) as [Hkn Ha]. split; [by apply (extends_known g)|].
  apply grow_agree; [done|done|done|]. apply (agree_last c0 lg0 (gl g u) lg k); [apply (co_logs _ _ Hc)|done|by apply agree_sym|].
  assert (Hsm : is_Some (lg_term lg k)) by by eexists. apply (based_term c0 lg0) in Hsm; [lia|done].
Qed.
Lemma grow_piece T m : gw g T ≠ None → piece (gl g T) m → piece (gl g' T) m.
Proof.
  intros Hw Hp. assert (Hb : based (gl g T)) by apply (co_logs _ _ Hc).
  destruct (piece_last c0 lg0 _ _ Hb Hp) as [Hp0 Hl].
  destruct Hp as (Hcg & Ht & He). pose proof (proj2 (ex_log _ _ Hex T (or_intror Hw))) as Ha. split; [done|]. split.
  - rewrite <- Ht. symmetry. apply (agree_term c0 lg0 _ _ (lg_last (gl g T))); [done|apply Hf'|done|lia].
  - intros e Hin. rewrite <- (He e Hin). symmetry. apply Ha.
    assert (Hs : is_Some (lg_entry (gl g T) (e_Index e))) by (rewrite (He e Hin); by eexists).
    apply lg_entry_is_Some in Hs. lia.
Qed.

Hypothesis Hel' : ∀ T o, gw g' T = Some o → elected C T o.

Lemma acked_known id t n : c0 < n → acked C id t n → gw g t ≠ None ∧ n ≤ lg_last (gl g t).
Proof.
  intros Hn (w & m & Hw & Hm & Ha). destruct (mk_ack _ _ _ _ (co_msg _ _ Hc id w m Hw Hm) t n Hn Ha) as (? & ? & _). done.
Qed.
(** Nobody can commit a new entry of a term that is over. *)
Lemma grow_over t T i : t < T → gw g' T ≠ None → can_commit g' C t i → can_commit g C t i.
Proof.
  intros Ht Hw Hcc. destruct (gw g' T) as [o|] eqn:E; [|done].
  destruct (elected_acked g' C T o t i Hne Hinv (Hel' T o E) Ht Hcc) as (id & _ & Ha).
  assert (Hi : c0 < i) by apply Hcc. destruct (acked_known id t i Hi Ha) as [Hg Hl].
  apply grow_can; [done|]. apply grow_own_back; [apply Hcc|done|done].
Qed.

Lemma grow_level i v w : C !! i = Some w → v_msgs v ⊆ all_msgs w → level_ok g C i v → level_ok g' C i v.
Proof.
  intros Hi Hsub [H1 H2 H3 H4 H5 H6 H7 H8].
  assert (Hack : ∀ m T n, m ∈ v_msgs v → acks m T n → c0 < n → gw g T ≠ None ∧ n ≤ lg_last (gl g T)).
  { intros m T n Hm Ha Hn. apply (acked_known i); [done|]. exists w, m. auto. }
  split; try done.
  - by apply grow_sound.
  - intros m T n t j Hm Ha Hn Ht Hcc. destruct (Hack m T n Hm Ha Hn) as [HgT HlT].
    assert (Hold : can_commit g C t j → agree (v_log v) (gl g' t) (N.min n j)).
    { intros Ho. apply grow_agree; [right; apply Ho|done|by apply (H4 m T)|].
      pose proof (own_last g t j (co_logs _ _ Hc t) (proj1 Ho)). lia. }
    destruct (decide (t < T)) as [Hlt|Hge].
    { apply Hold, (grow_over t T); [done|by apply (extends_gw g)|done]. }
    replace t with T in * by lia. destruct (decide (j ≤ lg_last (gl g T))) as [Hj|Hj].
    { apply Hold, grow_can; [done|]. apply grow_own_back; [apply Hcc|done|done]. }
    destruct (H5 m T n Hm Ha Hn) as [Hw|(T' & HT' & Hsup)].
    + apply (agree_le _ _ _ n); [lia|]. apply grow_agree; [by right|done..].
    + apply Hold, (grow_over T T'); [done|by apply (extends_gw g)|done].
  - intros m T n Hm Ha Hn. destruct (Hack m T n Hm Ha Hn) as [HgT HlT].
    destruct (H5 m T n Hm Ha Hn) as [Hw|(T' & HT' & Hsup)]; [left|right].
    + apply grow_agree; [by right|done..].
    + exists T'. split; [done|]. by apply (extends_gw g).
  - by apply grow_claimed.
Qed.

Lemma grow_msg i w m : C !! i = Some w → m ∈ all_msgs w → msg_ok g C i m → msg_ok g' C i m.
Proof.
  intros Hi Hm [H1 H2 H3 H4]. split.
  - intros Hty. destruct (H1 Hty) as (Hw & Hp & Hcl).
    assert (Hnw : gw g (m_Term m) ≠ None) by (by rewrite Hw).
    split_and!; [by apply (ex_winner _ _ Hex)|by apply grow_piece|by apply grow_claimed_log].
  - intros Hty. destruct (H2 Hty) as (Hw & Hcl & Hto).
    assert (Hnw : gw g (m_Term m) ≠ None) by (by rewrite Hw).
    split_and!; [by apply (ex_winner _ _ Hex)|by apply grow_claimed_log|done].
  - intros T n Hn Ha. destruct (H3 T n Hn Ha) as (Hw & Hl & Hcase).
    destruct (ex_log _ _ Hex T (or_intror Hw)) as [Hle _].
    split; [by apply (extends_gw g)|]. split; [lia|].
    destruct Hcase as [Ho|[(o & Ho & Hs)|(t & j & Ht & Hch & Hj)]].
    + left. by apply (ex_winner _ _ Hex).
    + right; left. exists o. split; [by apply (ex_winner _ _ Hex)|done].
    + right; right. exists t, j. split; [done|]. split; [by apply grow_chosen|done].
  - intros Hg. destruct (H4 Hg) as (x & q & Hx & Hq & Hqt & Hqm & Hb). exists x, q. split_and!; try done.
    intros t j n Ht Ha Hj Hcc. apply (Hb t j n Ht Ha Hj). assert (Hpj : c0 < j) by apply Hcc.
    destruct (acked_known i t n ltac:(lia) Ha) as [Hgt Hlt].
    apply grow_can; [done|]. apply grow_own_back; [apply Hcc|done|lia].
Qed.

Hypothesis Hlevels : ∀ i w v, C !! i = Some w → at_level w v → v_msgs v ⊆ all_msgs w.
Hypothesis Hnew : ∀ t T i, t < T → gw g' T ≠ None → gw g T = None → can_commit g C t i →
  agree (gl g' T) (gl g t) i.

Lemma core_grow : core g' C.
Proof.
  split.
  - done.
  - done.
  - intros t T i Ht Hw Hcc. pose proof (grow_over t T i Ht Hw Hcc) as Ho.
    pose proof (own_last g t i (co_logs _ _ Hc t) (proj1 Ho)) as Hl.
    apply grow_agree; [right; apply Ho|apply Hf'| |done].
    destruct (gw g T) as [o|] eqn:E.
    + assert (HwT : gw g T ≠ None) by (by rewrite E).
      pose proof (co_complete _ _ Hc t T i Ht HwT Ho) as Ha.
      apply (agree_trans _ (gl g T)); [|done]. apply agree_sym.
      apply (agree_le _ _ _ (lg_last (gl g T))); [|apply Hex; by right].
      apply (agree_last c0 lg0 _ (gl g t)); [apply (co_logs _ _ Hc)..|done|done].
    + by apply Hnew.
  - intros i w v Hi Hv. apply (grow_level i v w); [done|by apply (Hlevels i)|by apply (co_level _ _ Hc i w)].
  - intros i w m Hi Hm. apply (grow_msg i w); [done|done|by apply (co_msg _ _ Hc i w)].
Qed.
End Grow.
End Core.

(** ** A node changes *)

Section Change.
Context `{RaftPB}.
Variables (voters : JointConfig) (K c0 : N) (lg0 : Log) (g : ghost) (C : cluster) (i : N) (w w' : world).
Notation core := (core voters K c0 lg0).
Notation level_ok := (level_ok voters K c0 lg0).
Notation msg_ok := (msg_ok voters c0).
Notation chosen := (chosen voters c0).
Notation can_commit := (can_commit voters c0).
Notation claimed := (claimed voters c0).
Notation C' := (<[i := w']> C).
Hypothesis Hc : core g C.
Hypothesis Hi : C !! i = Some w.
Hypothesis Hvi : vote_inv w.
Hypothesis Hvi' : vote_inv w'.
Hypothesis Hsent : w_sent w ⊆ w_sent w'.
Hypothesis Hdur : ballot_le (durable_ballot w) (durable_ballot w').
Hypothesis Hacks : ∀ m T n, m ∈ all_msgs w' → acks m T n → c0 < n → m ∈ all_msgs w ∨ r_Term (w_raft w) ≤ T.
Hypothesis Hgrants : ∀ m, m ∈ all_msgs w' → grants m = true →
  m ∈ all_msgs w ∨ m_Term m = r_Term (w_raft w') ∧ m_To m = r_Vote (w_raft w').

Lemma change_lookup j x : C !! j = Some x → ∃ y, C' !! j = Some y ∧ w_sent x ⊆ w_sent y.
Proof.
  intros Hx. destruct (decide (j = i)) as [->|Hne].
  - exists w'. rewrite lookup_insert_eq. split; [done|]. rewrite Hi in Hx. by injection Hx as <-.
  - exists x. by rewrite lookup_insert_ne.
Qed.
Lemma change_acked_sent id T n : acked_sent C id T n → acked_sent C' id T n.
Proof.
  intros (x & m & Hx & Hm & Ha). destruct (change_lookup id x Hx) as (y & Hy & Hs). exists y, m. auto.
Qed.
Lemma change_acked id T n :
  c0 < n → acked C' id T n → acked C id T n ∨ id = i ∧ r_Term (w_raft w) ≤ T.
Proof.
  intros Hn (x & m & [(<- & <-)|[Hne Hx]]%lookup_insert_Some & Hm & Ha); [|left; by exists x, m].
  destruct (Hacks m T n Hm Ha Hn); [left; by exists w, m|by right].
Qed.
Lemma change_low id T : low C' id T → low C id T.
Proof.
  intros (x & [(<- & <-)|[Hne Hx]]%lookup_insert_Some & Hl); [|by exists x].
  exists w. split; [done|]. destruct Hdur. lia.
Qed.
Lemma change_can t j : can_commit g C' t j → can_commit g C t j.
Proof.
  intros [Ho Hq]. split; [done|]. revert Hq. apply by_quorum_mono. intros id [Ha|Hl]; [|right; by apply change_low].
  destruct (change_acked id t j (proj1 (proj2 Ho)) Ha) as [?|[-> Ht]]; [by left|right]. exists w. split; [done|].
  destruct (durable_le w Hvi) as [Hd _]. cbn in *. lia.
Qed.
Lemma change_chosen t j : chosen g C t j → chosen g C' t j.
Proof. intros [Ho Hq]. split; [done|]. revert Hq. apply by_quorum_mono. intros id. apply change_acked_sent. Qed.
Lemma change_claimed T lg c : claimed g C T lg c → claimed g C' T lg c.
Proof. intros [?|(t & j & Ht & Hch & ?)]; [by left|right]. exists t, j. split; [done|]. split; [by apply change_chosen|done]. Qed.

Lemma change_elected T o : elected voters K C T o → elected voters K C' T o.
Proof.
  intros [H1 H2 (x & Hx & Hd & Hg) (votes & Hw & Hv)]. split; [done|done| |].
  - destruct (decide (o = i)) as [->|Hne].
    + rewrite Hi in Hx. injection Hx as <-. exists w'. rewrite lookup_insert_eq. split; [done|].
      assert (Hd' : ballot_le (T, i) (durable_ballot w')) by by etrans. split; [done|].
      intros m Hm Hgr Ht. destruct (Hgrants m Hm Hgr) as [Ho|[Hmt ->]]; [by apply Hg|].
      assert (Hb : ballot_le (T, i) (r_ballot (w_raft w'))) by (etrans; [exact Hd'|by apply durable_le]).
      destruct Hb as [_ Hb]. apply Hb; [cbn; congruence|done].
    + exists x. by rewrite lookup_insert_ne.
  - exists votes. split; [done|]. intros id Hid. destruct (Hv id Hid) as [|Hs]; [by left|right].
    by apply (sent_vote_mono C i w w').
Qed.

Lemma change_level j v : level_ok g C j v → level_ok g C' j v.
Proof.
  intros [H1 H2 H3 H4 H5 H6 H7 H8]. split; try done; [|by apply change_claimed].
  intros m T n t k Hm Ha Hn Ht Hcc. apply (H4 m T); [done..|]. by apply change_can.
Qed.

Lemma level_below j v v' : lg_prev lg0 ≤ c0 → level_ok g C j v → below (lg_prev lg0) v' v → level_ok g C j v'.
Proof.
  intros Hc0 [H1 H2 H3 H4 H5 H6 H7 H8] [Hl Hm Hcm Hb]. split; rewrite ?Hl; try done.
  - intros k u Hu. etrans; [by apply (H3 k)|apply Hb].
  - intros m T n t k Hin. apply (H4 m T). by apply Hm.
  - intros m T n Hin. apply H5. by apply Hm.
  - destruct (decide (v_commit v' ≤ c0)); [by left|].
    apply (claimed_agree voters c0 g C (v_ballot v).1 _ (v_log v)); [apply Hb|apply agree_refl|].
    apply (claimed_le _ _ _ _ _ _ (v_commit v)); [lia|done].
  - intros m T n Hin Ha Hn. etrans; [by apply (H7 m T n); [apply Hm|..]|apply Hb].
  - intros m Hin Hty. etrans; [apply H8; [by apply Hm|done]|done].
Qed.

Lemma change_msg j m :
  (grants m = true → ∀ t n, t < m_Term m → c0 < n → acked C' j t n → acked C j t n) →
  msg_ok g C j m → msg_ok g C' j m.
Proof.
  intros Hback [H1 H2 H3 H4]. split.
  - intros Ht. destruct (H1 Ht) as (? & ? & ?). split_and!; try done. by apply change_claimed.
  - intros Ht. destruct (H2 Ht) as (? & ? & Hto). split_and!; try done; [by apply change_claimed|].
    destruct Hto as [?|[?|?]]; [by left|by right; left|right; right]. by apply change_acked_sent.
  - intros T n Hn Ha. destruct (H3 T n Hn Ha) as (? & ? & Hcase). split_and!; try done.
    destruct Hcase as [?|[(o & Ho & Hs)|(t & k & ? & Hch & ?)]]; [by left|right; left|right; right].
    + exists o. split; [done|]. by apply change_acked_sent.
    + exists t, k. split_and!; try done. by apply change_chosen.
  - intros Hgr. destruct (H4 Hgr) as (y & q & Hy & Hq & Hqt & Hqm & Hb).
    destruct (change_lookup _ _ Hy) as (z & Hz & Hs). exists z, q. split_and!; auto.
    intros t k n Ht Ha Hk Hcc. apply (Hb t k n Ht); [|done|by apply change_can].
    assert (Hk0 : c0 < k) by apply Hcc. apply Hback; [done|done|lia|done].
Qed.
Lemma change_msg_old j x m : C !! j = Some x → m ∈ all_msgs x → msg_ok g C j m → msg_ok g C' j m.
Proof.
  intros Hx Hm. apply change_msg. intros Hgr t n Ht Hn Ha.
  destruct (change_acked j t n Hn Ha) as [?|[-> Hle]]; [done|exfalso].
  rewrite Hi in Hx. injection Hx as <-. destruct (vi_all _ Hvi) as [Hca _].
  destruct (Hca m Hm Hgr) as [Hmt _]. cbn in Hmt. lia.
Qed.

Hypothesis Hlevels : ∀ v', at_level w' v' → level_ok g C' i v'.
Hypothesis Hmsgs : ∀ m, m ∈ all_msgs w' → m ∈ all_msgs w ∨ msg_ok g C' i m.

Lemma core_change : core g C'.
Proof.
  split.
  - apply Hc.
  - intros T o Ho. by apply change_elected, (co_elected _ _ _ _ _ _ Hc).
  - intros t T k Ht Hw Hcc. by apply (co_complete _ _ _ _ _ _ Hc), change_can.
  - intros j x v [(<- & <-)|[Hne Hx]]%lookup_insert_Some Hv; [by apply Hlevels|].
    by apply change_level, (co_level _ _ _ _ _ _ Hc j x).
  - intros j x m [(<- & <-)|[Hne Hx]]%lookup_insert_Some Hm.
    + destruct (Hmsgs m Hm) as [Ho|]; [|done]. apply (change_msg_old i w); [done|done|]. by apply (co_msg _ _ _ _ _ _ Hc i w).
    + apply (change_msg_old j x); [done|done|]. by apply (co_msg _ _ _ _ _ _ Hc j x).
Qed.
End Change.

(** An event that calls no method. *)
Lemma core_still `{RaftPB} voters K c0 lg0 g C i w w' :
  lg_prev lg0 ≤ c0 → core voters K c0 lg0 g C → C !! i = Some w → vote_inv w → vote_inv w' →
  still (lg_prev lg0) w w' → core voters K c0 lg0 g (<[i := w']> C).
Proof.
  intros Hc0 Hc Hi Hvi Hvi' [S1 S2 S3 S4 S5 S6 S7].
  apply (core_change voters K c0 lg0 g C i w w'); try done.
  - intros m T n Hm _. left. by apply S2.
  - intros m Hm _. left. by apply S2.
  - intros v' Hv'. destruct (S4 v' Hv') as (v & Hv & Hb). apply (level_below _ _ _ _ _ _ i v v'); [done| |done].
    apply (change_level voters K c0 lg0 g C i w w'); try done.
    + intros m T n Hm _. left. by apply S2.
    + by apply (co_level _ _ _ _ _ _ Hc i w).
  - intros m Hm. left. by apply S2.
Qed.

(** ** A leader's log grows *)

(** The log [lg'] is [lg] with entries of the term [T] at its end. *)
Record appended (T : N) (lg lg' : Log) : Prop := {
  ap_prev : lg_prev lg' = lg_prev lg ∧ lg_prev_term lg' = lg_prev_term lg;
  ap_last : lg_last lg ≤ lg_last lg';
  ap_agree : agree lg lg' (lg_last lg);
  ap_own k u : lg_last lg < k → lg_term lg' k = Some u → u = T;
}.

Lemma appended_end T lg es : (∀ e, e ∈ es → e_Term e = T) → appended T lg (lg_append lg (lg_last lg + 1) es).
Proof.
  intros Ht. assert (Hp : lg_prev lg ≤ lg_last lg) by (unfold lg_last; lia). split.
  - done.
  - rewrite lg_last_append by lia. lia.
  - apply agree_append; lia.
  - intros k u Hk Hu. rewrite lg_term_above in Hu by (cbn; lia).
    replace k with (lg_last lg + 1 + N.of_nat (N.to_nat (k - lg_last lg - 1))) in Hu by lia.
    rewrite lg_entry_append_new in Hu by lia. destruct (es !! _) as [e|] eqn:He; [|done].
    injection Hu as <-. apply Ht. by eapply list_elem_of_lookup_2.
Qed.
Lemma appended_refl T lg : appended T lg lg.
Proof.
  split; [done|done|apply agree_refl|]. intros k u Hk Hu.
  assert (Hs : is_Some (lg_term lg k)) by by eexists. apply lg_term_is_Some in Hs. lia.
Qed.

Section Append.
Context `{RaftPB}.
Variables (voters : JointConfig) (K c0 : N) (lg0 : Log) (g : ghost) (C : cluster).
Variables (i T : N) (lg lg' : Log).
Hypothesis Hc : core voters K c0 lg0 g C.
Hypothesis Hb : based c0 lg0 lg.
Hypothesis Hs : sound K c0 g lg.
Hypothesis Htop : ∀ k u, lg_term lg k = Some u → u ≤ T.
Hypothesis Happ : appended T lg lg'.
Hypothesis HT : K < T.
Hypothesis Hgw : gw g T = Some i ∧ gl g T = lg ∨ gw g T = None.

Definition lead_on : ghost :=
  MkGhost (λ t, if decide (t = T) then lg' else gl g t) (λ t, if decide (t = T) then Some i else gw g t).
Lemma lead_on_log : gl lead_on T = lg'.
Proof. cbn. by rewrite decide_True. Qed.
Lemma lead_on_winner : gw lead_on T = Some i.
Proof. cbn. by rewrite decide_True. Qed.
Lemma lead_on_other t : t ≠ T → gl lead_on t = gl g t ∧ gw lead_on t = gw g t.
Proof. intros Ht. cbn. by rewrite !decide_False. Qed.

Lemma lead_on_extends : extends K g lead_on.
Proof.
  split.
  - intros t o Ho. destruct (decide (t = T)) as [->|Hne]; [|by destruct (lead_on_other t Hne) as [_ ->]].
    rewrite lead_on_winner. destruct Hgw as [[? _]|?]; congruence.
  - intros t Hk. destruct (decide (t = T)) as [->|Hne].
    + destruct Hgw as [[_ ->]|Hn]; [rewrite lead_on_log; split; apply Happ|].
      destruct Hk as [?|?]; [lia|done].
    + destruct (lead_on_other t Hne) as [-> _]. split; [done|apply agree_refl].
Qed.

Lemma appended_based : based c0 lg0 lg'.
Proof.
  destruct Hb as [H1 H2 H3 H4], Happ as [[A1 A1'] A2 A3 A4]. split; [congruence|congruence| |lia].
  apply (agree_trans _ lg); [|done]. apply agree_sym, (agree_le _ _ _ (lg_last lg)); [lia|done].
Qed.
Lemma appended_term k u : lg_term lg' k = Some u → lg_term lg k = Some u ∧ k ≤ lg_last lg ∨ lg_last lg < k ∧ u = T.
Proof.
  intros Hu. destruct (decide (k ≤ lg_last lg)) as [Hk|Hk]; [left|right; split; [lia|]; by apply (ap_own _ _ _ Happ k); [lia|]].
  rewrite (agree_term c0 lg0 lg lg' (lg_last lg)); [done|done|apply appended_based|apply Happ|done].
Qed.

Lemma lead_on_fine t : log_fine K c0 lg0 lead_on t.
Proof.
  pose proof (co_logs _ _ _ _ _ _ Hc) as Hf. pose proof lead_on_extends as Hex.
  destruct (decide (t = T)) as [->|Hne].
  - split; rewrite ?lead_on_log.
    + apply appended_based.
    + intros k u Hk Hu. destruct (appended_term k u Hu) as [[Ho Hkl]|[_ ->]].
      * destruct (grow_sound _ _ _ _ g lead_on C Hc Hex lg Hb Hs k u Hk Ho) as [Hkn Ha].
        split; [done|]. apply (agree_trans _ lg); [|done]. apply agree_sym, (agree_le _ _ _ (lg_last lg)); [done|apply Happ].
      * rewrite lead_on_log. split; [|apply agree_refl]. right. by rewrite lead_on_winner.
    + intros k Hu. destruct (appended_term k 0 Hu) as [[Ho Hkl]|[_ ?]]; [|lia].
      destruct (decide (k ≤ c0)) as [Hk|Hk].
      * apply (lf_start _ _ _ _ _ (Hf 0)). rewrite <- Ho. apply (agree_term c0 lg0 _ _ c0); [apply Hf|done| |done].
        apply (agree_base c0 lg0); [apply Hf|done..].
      * destruct (Hs k 0) as [_ Ha]; [lia|done|]. apply (lf_start _ _ _ _ _ (Hf 0)). rewrite <- Ho. symmetry.
        apply (agree_term c0 lg0 _ _ k); [done|apply Hf|done|done].
    + intros k k' u u' Hk Hu Hu'. destruct (appended_term k u Hu) as [[Ho Hkl]|[Hl ->]].
      * destruct (appended_term k' u' Hu') as [[Ho' _]|[_ ->]]; [|by apply (Htop k)].
        by apply (sound_sorted K c0 lg0 g lg k k').
      * destruct (appended_term k' u' Hu') as [[_ ?]|[_ ->]]; [lia|done].
    + intros k u _ Hu. destruct (appended_term k u Hu) as [[Ho _]|[_ ->]]; [by apply (Htop k)|done].
  - destruct (lead_on_other t Hne) as [Hl Hw]. destruct (Hf t) as [F1 F2 F3 F4 F5].
    split; rewrite ?Hl, ?Hw; try done. by apply (grow_sound voters K c0 lg0 g lead_on C).
Qed.
End Append.

(** ** Elections *)

(** What the roles of a node mean. *)
Definition heard (c0 : N) `{RaftPB} (C : cluster) (T id n : N) : Prop := n ≤ c0 ∨ acked_sent C id T n.

Record role_ok `{RaftPB} (c0 : N) (g : ghost) (C : cluster) (i : N) (w : world) : Prop := {
  ro_behind : behind w;
  ro_snap : s_Index (ms_snapshot (w_storage w)) ≤ c0;
  ro_lead : r_state (w_raft w) = StateLeader →
    gw g (r_Term (w_raft w)) = Some i ∧ gl g (r_Term (w_raft w)) = rl_log (w_log w) ∧
    peers_ok (heard c0 C (r_Term (w_raft w))) (w_raft w);
  ro_cand : r_state (w_raft w) = StateCandidate → gw g (r_Term (w_raft w)) ≠ Some i ∧
    ∀ q, q ∈ all_msgs w → m_Type q = MsgVote → m_Term q = r_Term (w_raft w) →
      m_Index q = lg_last (rl_log (w_log w)) ∧
      lg_term (rl_log (w_log w)) (lg_last (rl_log (w_log w))) = Some (m_LogTerm q);
}.

Section Elect.
Context `{RaftPB}.
Variables (voters : JointConfig) (K c0 : N) (lg0 : Log) (g : ghost) (C : cluster) (i : N) (w : world).
Hypothesis Hsz : (2 ≤ size (keys (incoming voters)))%nat.
Hypothesis Hinv : cluster_inv voters C.
Hypothesis Hc : core voters K c0 lg0 g C.
Hypothesis Hi : C !! i = Some w.

Definition won (T : N) : Prop :=
  ∃ votes, JointVoteResult voters votes = VoteWon ∧ ∀ id, votes !! id = Some true → id = i ∨ sent_vote C i T id.

Lemma voters_some : keys (incoming voters) ≠ ∅.
Proof. clear -Hsz. intros He. rewrite He, size_empty in Hsz. lia. Qed.

(** Somebody else voted for the winner, which had asked and so had saved its vote. *)
Lemma won_saved T : won T → ballot_le (T, i) (durable_ballot w).
Proof.
  intros (votes & Hwon & Hv). destruct (quorum_other voters (λ id, bool_decide (votes !! id = Some true)) i Hsz)
    as (id & Hid & Hvid%bool_decide_eq_true).
  { by apply JointVoteResult_iff. }
  destruct (Hv id Hvid) as [->|(x & m & Hx & Hm & Hg & Hmt & Hmto)]; [done|].
  assert (Hall : m ∈ all_msgs x) by (unfold all_msgs; set_solver).
  destruct (mk_vote _ _ _ _ _ _ (co_msg _ _ _ _ _ _ Hc id x m Hx Hall) Hg) as (y & q & Hy & Hq & Hqt & Hqm & _).
  rewrite Hmto, Hi in Hy. injection Hy as <-. rewrite <- Hmt, <- Hqm.
  apply (lo_requests _ _ _ _ _ _ _ _ (co_level _ _ _ _ _ _ Hc i w (disk_level w) Hi (at_disk w))); [exact Hq|done].
Qed.

Hypothesis Hro : role_ok c0 g C i w.
Hypothesis Hcand : r_state (w_raft w) = StateCandidate.
Notation T := (r_Term (w_raft w)).
Hypothesis HT : K < T.
Hypothesis Hwon : won T.

Lemma own_vote m : m ∈ all_msgs w → grants m = true → m_Term m = T → m_To m = i.
Proof.
  intros Hm Hg Ht. destruct (Hinv i w Hi) as [Hvi Hbo]. destruct (vi_all _ Hvi) as [Hca _].
  destruct (Hca m Hm Hg) as [_ Hto]. destruct (Hto Ht) as [-> _]. apply (bo_own _ _ _ _ Hbo). by left.
Qed.
Lemma won_elected : elected voters K C T i.
Proof.
  split; [done| |exists w; split_and!; [done|by apply won_saved|apply own_vote]|done].
  destruct (Hinv i w Hi) as [_ Hbo]. apply (bo_id _ _ _ _ Hbo).
Qed.
Lemma won_first : gw g T = None.
Proof.
  destruct (gw g T) as [o|] eqn:E; [exfalso|done]. destruct (ro_cand _ _ _ _ _ Hro Hcand) as [Hno _].
  destruct (co_elected _ _ _ _ _ _ Hc T o E) as [_ _ (x & Hx & _ & Hgx) (v1 & Hw1 & Hv1)].
  destruct Hwon as (v2 & Hw2 & Hv2).
  destruct (wins_share_voter voters v1 v2 voters_some Hw1 Hw2) as (id & _ & H1 & H2).
  assert (Hin : ∀ y m, m ∈ w_sent y → m ∈ all_msgs y) by (intros; apply elem_of_app; by left).
  apply Hno. rewrite E. f_equal. destruct (Hv1 id H1) as [->|(y & m & Hy & Hm & Hg & Ht & Hto)].
  - destruct (Hv2 o H2) as [->|(y & m & Hy & Hm & Hg & Ht & Hto)]; [done|].
    rewrite Hx in Hy. injection Hy as <-. rewrite <- Hto. symmetry. apply Hgx; auto.
  - destruct (Hv2 id H2) as [->|(z & m' & Hz & Hm' & Hg' & Ht' & Hto')].
    + rewrite Hi in Hy. injection Hy as <-. rewrite <- Hto. by apply own_vote; [apply Hin|..].
    + rewrite Hy in Hz. injection Hz as <-. rewrite <- Hto, <- Hto'. destruct (Hinv id y Hy) as [Hvi _].
      apply (vi_all _ Hvi); [by apply Hin|by apply Hin|done|done|]. by rewrite Ht, Ht'.
Qed.

Hypothesis Hb0 : based c0 lg0 lg0.
Hypothesis Hlg0 : ∀ k u, lg_term lg0 k = Some u → u ≤ K.

(** The winner has everything that can be committed before its term. *)
Lemma won_complete t j :
  t < T → can_commit voters c0 g C t j → agree (rl_log (w_log w)) (gl g t) j.
Proof.
  intros Ht Hcc. pose proof (co_logs _ _ _ _ _ _ Hc) as Hf. pose proof Hcc as [(Hgt & Hj & Htj) _]. set (lg := rl_log (w_log w)) in *.
  pose proof (co_level _ _ _ _ _ _ Hc i w (mem_level w) Hi (at_mem w)) as Hlv.
  pose proof (lo_based _ _ _ _ _ _ _ _ Hlv) as Hb. pose proof (lo_sound _ _ _ _ _ _ _ _ Hlv) as Hs.
  change (v_log (mem_level w)) with lg in Hb, Hs.
  assert (HKt : K < t).
  { destruct (gw g t) as [o|] eqn:Eo; [|done]. apply (el_term _ _ _ _ _ (co_elected _ _ _ _ _ _ Hc t o Eo)). }
  destruct (elected_acked voters K c0 g C T i t j voters_some Hinv won_elected Ht Hcc) as (id & Hid & Hack).
  destruct Hid as [->|(x & m & Hx & Hm & Hg & Hmt & Hmto)].
  { destruct Hack as (x & m & Hx & Hm & Ha). rewrite Hi in Hx. injection Hx as <-.
    replace j with (N.min j j) by lia. by apply (lo_acks _ _ _ _ _ _ _ _ Hlv m t j t j). }
  assert (Hall : m ∈ all_msgs x) by (unfold all_msgs; set_solver).
  destruct (mk_vote _ _ _ _ _ _ (co_msg _ _ _ _ _ _ Hc id x m Hx Hall) Hg) as (y & q & Hy & Hq' & Hqt & Hqm & Hbeat).
  rewrite Hmto, Hi in Hy. injection Hy as <-.
  specialize (Hbeat t j j ltac:(lia) Hack (N.le_refl _) Hcc).
  destruct (ro_cand _ _ _ _ _ Hro Hcand) as [_ Hreq].
  destruct (Hreq q) as [Hqi Hql]; [unfold all_msgs; set_solver|done|congruence|]. fold lg in Hqi, Hql.
  assert (Hlast : c0 < lg_last lg).
  { destruct (decide (c0 < lg_last lg)) as [|Hle]; [done|exfalso].
    assert (Hu : m_LogTerm q ≤ K).
    { apply (Hlg0 (lg_last lg)). rewrite <- Hql. symmetry.
      apply (agree_term c0 lg0 _ _ c0); [done|done|by apply (agree_base c0 lg0)|lia]. }
    destruct Hbeat as [?|[? _]]; lia. }
  destruct (Hs (lg_last lg) (m_LogTerm q) Hlast Hql) as [Hkn Ha].
  destruct Hbeat as [Hlt|[Heq Hle]].
  - destruct Hkn as [?|Hgu]; [lia|]. 
    pose proof (co_complete _ _ _ _ _ _ Hc t (m_LogTerm q) j Hlt Hgu Hcc) as Hau.
    assert (Hjl : j ≤ lg_last lg).
    { destruct (decide (j ≤ lg_last lg)) as [|Hgt']; [done|exfalso].
      assert (m_LogTerm q ≤ t); [|lia]. apply (lf_sorted _ _ _ _ _ (Hf (m_LogTerm q)) (lg_last lg) j); [lia| |].
      - rewrite <- Hql. symmetry. by apply (agree_term c0 lg0 _ _ (lg_last lg)); [|apply Hf|..].
      - rewrite <- Htj. by apply (agree_term c0 lg0 _ _ j); [apply Hf|apply Hf|..]. }
    apply (agree_trans _ (gl g (m_LogTerm q))); [|done]. by apply (agree_le _ _ _ (lg_last lg)).
  - rewrite Hqi in Hle. rewrite Heq in Ha. by apply (agree_le _ _ _ (lg_last lg)).
Qed.
End Elect.
