(* ===== verification/CallSafety.v ===== *)
(** * The calls of a node keep the history

    One call of the state machine (file RaftActs says what it does) against the
    invariant of the file History: how the log moves ([log_moved]), that the commit
    index stays justified ([call_claimed]), that every message that is sent is ([call_msg_ok]) and
    that the node keeps what it acknowledged ([call_mem]). *)

From S2P Require Import Prelude Pb Quorum Inflights Progress Tracker Confchange.
From S2P Require Import Util Storage Unstable RaftLog ReadOnly Raft RawNode Node.
From S2P Require Import RaftFrame RaftSafety RaftElection RaftBallot RaftRoles RaftInvariant RaftTotal RaftAppend.
From S2P Require Import RaftLeads RaftActs Runs LogRuns Cluster LogLinks LogMatching Levels Agreement History.

(** ** A call *)

Section CallCore.
Context `{RaftPB}.
Variables (voters : JointConfig) (K c0 : N) (lg0 : Log) (g : ghost) (C : cluster) (i : N) (w : world).
Variables (m : Message) (r' : raft MemoryStorage).
Notation core := (core voters K c0 lg0).
Notation level_ok := (level_ok voters K c0 lg0).
Notation msg_ok := (msg_ok voters c0).
Notation chosen := (chosen voters c0).
Notation can_commit := (can_commit voters c0).
Notation claimed := (claimed voters c0).
Notation w' := (called w r').
Notation C' := (<[i := w']> C).
Notation T := (r_Term (w_raft w)).
Notation T' := (r_Term r').
Notation lg := (rl_log (w_log w)).
Notation lg' := (rl_log (r_raftLog r')).
Hypothesis Hsz : (2 ≤ size (keys (incoming voters)))%nat.
Hypothesis Hb0 : based c0 lg0 lg0.
Hypothesis Hinv : cluster_inv voters C.
Hypothesis Hc : core g C.
Hypothesis Hi : C !! i = Some w.
Hypothesis Hst : stored w.
Hypothesis He : evolved m (w_raft w) r'.
Hypothesis Htn : turns (w_raft w) r'.
Hypothesis Hvm : vote_moves (w_raft w) r'.
Hypothesis Ha : acts (heard c0 C T) m (w_raft w) r'.
Hypothesis Hbo : ballot_ok i voters (sent_vote C i) r'.
Hypothesis Hsn : m_Type m ≠ MsgSnap.
Hypothesis Hsa : sound_append m.
Hypothesis Hauth : brings m = true → m_To m = i ∧ ∃ x, C !! m_From m = Some x ∧ m ∈ w_sent x.
Hypothesis Hlead : r_state r' = StateLeader → T' = T ∧ gw g T' = Some i ∧ gl g T' = lg'.

Lemma mem_ok : level_ok g C i (mem_level w).
Proof. apply (co_level _ _ _ _ _ _ Hc i w (mem_level w) Hi (at_mem w)). Qed.
Lemma logs_fine t : log_fine K c0 lg0 g t.
Proof. apply Hc. Qed.
Lemma mem_based : based c0 lg0 lg.
Proof. apply mem_ok. Qed.
Lemma incoming_ok : brings m = true → m_To m = i ∧ msg_ok g C (m_From m) m ∧
  ∃ x, C !! m_From m = Some x ∧ m ∈ w_sent x.
Proof.
  intros Hm. destruct (Hauth Hm) as (Hto & x & Hx & Hin). split_and!; [done| |by exists x].
  apply (co_msg _ _ _ _ _ _ Hc (m_From m) x); [done|]. unfold all_msgs. set_solver.
Qed.

(** What is agreed on with the log of the term now, the new log has. *)
Record moved : Prop := {
  mv_based : based c0 lg0 lg';
  mv_sound : sound K c0 g lg';
  mv_top k u : lg_term lg' k = Some u → u ≤ T';
  mv_keep x : x ≤ lg_last lg → (gw g T' ≠ None → agree lg (gl g T') x) → agree lg lg' x;
}.

Lemma log_moved : moved.
Proof.
  pose proof mem_ok as Hl. pose proof mem_based as Hb. pose proof (lo_sound _ _ _ _ _ _ _ _ Hl) as Hs.
  assert (Htop : ∀ k u, lg_term lg k = Some u → u ≤ T').
  { intros k u Hu. etrans; [exact (lo_top _ _ _ _ _ _ _ _ Hl k u Hu)|apply Htn]. }
  assert (Hlc : r_state r' = StateLeader → appended T' lg lg' → moved).
  { intros Hsl Hap. destruct (Hlead Hsl) as (_ & Hw & Hg).
    split; [rewrite <- Hg; apply logs_fine|rewrite <- Hg; apply logs_fine|..].
    - intros k u Hu. apply (lf_top _ _ _ _ _ (logs_fine T') k u); [by rewrite Hw|by rewrite Hg].
    - intros x Hx _. apply (agree_le _ _ _ (lg_last lg)); [done|apply Hap]. }
  destruct (ev_change _ _ _ He) as [es Hlog Hcg Het Hes|Hty Hfo Hidx Hne Hlog|Hty].
  - destruct (decide (es = [])) as [->|Hne].
    + assert (Hsame : lg' = lg).
      { rewrite Hlog, lg_append_end, app_nil_r. change (r_raftLog (w_raft w)) with (w_log w). by destruct lg. }
      split; rewrite ?Hsame; try done; intros x _ _; apply agree_refl.
    + apply Hlc; [by apply Hes|]. rewrite Hlog. by apply appended_end.
  - destruct (incoming_ok) as (_ & Hm & _); [unfold brings; by rewrite Hty|].
    destruct (mk_app _ _ _ _ _ _ Hm Hty) as (Hw & Hp & _). destruct (Hsa Hty) as (_ & Hts & _).
    destruct (ac_term _ _ _ _ Ha Hty) as [Hsame|HmT].
    { split; rewrite ?Hsame; try done; intros x _ _; apply agree_refl. }
    rewrite HmT in Hw, Hp. pose proof (logs_fine T') as Hf.
    destruct (splice c0 lg0 lg (gl g T') m lg' Hb (lf_based _ _ _ _ _ Hf)) as (Hb' & Hlast & Hag & Hkeep); try done.
    { apply (sound_matching K c0 g); [done|apply Hf]. }
    split; [done| | |].
    + apply (sound_prefix K c0 lg0 g lg' (gl g T')); [done|apply Hf|apply Hf|done].
    + intros k u Hu. apply (lf_top _ _ _ _ _ Hf k u); [by rewrite Hw|]. rewrite <- Hu. symmetry.
      assert (Hsome : is_Some (lg_term lg' k)) by by eexists. apply (based_term c0 lg0) in Hsome; [|done].
      apply (agree_term c0 lg0 _ _ (lg_last lg')); [done|apply Hf|done|lia].
    + intros x _ Hx. apply Hkeep, Hx. by rewrite Hw.
  - done.
Qed.

(** What is agreed on with a log of which an entry can be committed stays. *)
Lemma moved_keeps t j x :
  t ≤ T' → can_commit g C t j → x ≤ j → agree lg (gl g t) x → agree lg' (gl g t) x.
Proof.
  intros Ht Hcc Hx Hax. pose proof (own_last K c0 lg0 g t j (logs_fine t) (proj1 Hcc)) as Hl.
  apply (agree_trans _ lg); [|done]. apply agree_sym, log_moved.
  - apply (agree_last c0 lg0 lg (gl g t) x); [apply mem_based|apply logs_fine|done|lia].
  - intros Hw. destruct (decide (t = T')) as [<-|Hne]; [done|].
    apply (agree_trans _ (gl g t)); [done|]. apply agree_sym, (agree_le _ _ _ j); [done|].
    apply (co_complete _ _ _ _ _ _ Hc); [lia|done|done].
Qed.
Lemma moved_claimed c : claimed g C T lg c → claimed g C T' lg' c.
Proof.
  intros [?|(t & j & Ht & Hch & Hj & Hag)]; [by left|right]. exists t, j.
  assert (Ht' : t ≤ T') by (etrans; [exact Ht|apply Htn]). split_and!; try done.
  apply (moved_keeps t j); [done|by apply chosen_can|done|done].
Qed.
(** In the term of a winner everything claimed is in its log. *)
Lemma claimed_winner c :
  gw g T' ≠ None → claimed g C T' lg' c → c ≤ c0 ∨ agree lg' (gl g T') c ∧ c ≤ lg_last (gl g T').
Proof.
  intros Hw [?|(t & j & Ht & Hch & Hj & Hag)]; [by left|right].
  pose proof (own_last K c0 lg0 g t j (logs_fine t) (proj1 Hch)) as Hl.
  destruct (decide (t = T')) as [->|Hne]; [split; [done|lia]|].
  assert (Hco : agree (gl g T') (gl g t) j) by (apply (co_complete _ _ _ _ _ _ Hc); [lia|done|by apply chosen_can]).
  split.
  - apply (agree_trans _ (gl g t)); [done|]. by apply agree_sym, (agree_le _ _ _ j).
  - pose proof (agree_last c0 lg0 _ _ j (lf_based _ _ _ _ _ (logs_fine T')) (lf_based _ _ _ _ _ (logs_fine t)) Hco Hl). lia.
Qed.

(** The winner itself acknowledges what is chosen in its term. *)
Lemma chosen_owner t j : chosen g C t j → owner_sent g C t j ∨ older voters c0 g C t j.
Proof.
  intros [(Hw & Hj & _) (p & Hp & Hid)]. destruct (gw g t) as [o|] eqn:Ho; [|done].
  destruct (quorum_other voters p o Hsz Hp) as (id & Hne & Hpid).
  destruct (Hid id Hpid) as (x & a & Hx & Hin & Hak).
  assert (Hall : a ∈ all_msgs x) by (unfold all_msgs; set_solver).
  destruct (mk_ack _ _ _ _ _ _ (co_msg _ _ _ _ _ _ Hc id x a Hx Hall) t j Hj Hak) as (_ & _ & [?|[?|?]]); [congruence|by left|by right].
Qed.
Lemma claimed_owner c :
  c0 < c → claimed g C T' lg' c → owner_sent g C T' c ∨ older voters c0 g C T' c.
Proof.
  intros Hc0 [?|(t & j & Ht & Hch & Hj & Hag)]; [lia|]. destruct (decide (t = T')) as [->|Hne].
  - destruct (chosen_owner T' j Hch) as [(o & Ho & Hs)|(u & k & Hu & Hk & Hle)].
    + left. exists o. split; [done|]. by apply (acked_sent_le _ _ _ j).
    + right. exists u, k. split_and!; [done..|lia].
  - right. exists t, j. split_and!; [lia|done..].
Qed.

(** ** The commit index *)

Lemma quorum_claimed c :
  r_state r' = StateLeader → quorum_at r' c → lead_inv (heard c0 C T) r' → claimed g C T' lg' c.
Proof.
  intros Hs [Hq Hterm] Hli. destruct (Hlead Hs) as (HT & Hw & Hg). destruct (decide (c ≤ c0)); [by left|].
  rewrite (bo_voters _ _ _ _ Hbo) in Hq.
  assert (Hack : ∀ id, id ≠ i → has_acked (t_Progress (r_prs r')) c id = true → acked_sent C id T' c).
  { intros id Hid. unfold has_acked, Quorum.acked, AckedIndex, matchAckIndexer. intros Hle%N.leb_le.
    destruct (t_Progress (r_prs r') !! id) as [pr|] eqn:Hp; cbn in Hle; [|lia]. unfold Datatypes.id in Hle.
    pose proof (pf_acked _ _ _ _ _ (le_peers _ _ Hli id pr Hp)) as Hb. destruct (bo_id _ _ _ _ Hbo) as [Hri _].
    rewrite Hri in Hb. rewrite HT. destruct (Hb Hid) as [?|Hs']; [lia|]. by apply (acked_sent_le _ _ _ (pr_Match pr)). }
  assert (Hgo : owner_sent g C T' c ∨ older voters c0 g C T' c).
  { destruct (quorum_other voters _ i Hsz Hq) as (id & Hne & Hpid).
    destruct (Hack id Hne Hpid) as (x & a & Hx & Hin & Hak).
    assert (Hall : a ∈ all_msgs x) by (unfold all_msgs; set_solver).
    destruct (mk_ack _ _ _ _ _ _ (co_msg _ _ _ _ _ _ Hc id x a Hx Hall) T' c ltac:(lia) Hak) as (_ & _ & [?|[?|?]]);
      [congruence|by left|by right]. }
  right. destruct Hgo as [(o & Ho & Hos)|(t & j & Ht & Hch & Hj)].
  - rewrite Hw in Ho. injection Ho as <-. exists T', c. split; [done|]. split_and!; [|done|rewrite Hg; apply agree_refl].
    split; [split_and!; [by rewrite Hw|lia|by rewrite Hg]|]. exists (has_acked (t_Progress (r_prs r')) c).
    split; [done|]. intros id Hid. destruct (decide (id = i)) as [->|Hne]; [done|by apply Hack].
  - exists t, j. split_and!; [lia|done|done|]. rewrite <- Hg. apply (agree_le _ _ _ j); [done|].
    apply (co_complete _ _ _ _ _ _ Hc); [done|by rewrite Hw|by apply chosen_can].
Qed.

Lemma allowed_claimed c : allowed_commit m r' c → claimed g C T' lg' c.
Proof.
  intros (Hnl & HmT & [(Hty & Hf & Hcm & Hcl)|[Hty ->]]).
  - destruct (incoming_ok) as (_ & Hm & _); [unfold brings; by rewrite Hty|].
    destruct (mk_app _ _ _ _ _ _ Hm Hty) as (Hw & Hp & Hcl'). rewrite HmT in Hw, Hp, Hcl'.
    assert (Hag : agree lg' (gl g T') (m_Index m + lenN (m_Entries m))).
    { apply (fits_agree c0 lg0); [apply log_moved|apply logs_fine| |done|done].
      apply (sound_matching K c0 g); [apply log_moved|apply logs_fine]. }
    apply (claimed_agree _ _ _ _ T' T' (gl g T')); [lia| |by apply (claimed_le _ _ _ _ _ _ (m_Commit m))].
    apply agree_sym. by apply (agree_le _ _ _ (m_Index m + lenN (m_Entries m))).
  - destruct (incoming_ok) as (Hto & Hm & Hsent); [unfold brings; by rewrite Hty|].
    destruct (mk_beat _ _ _ _ _ _ Hm Hty) as (Hw & Hcl & Hack). rewrite HmT in Hw, Hcl, Hack. rewrite Hto in Hack.
    destruct (decide (m_Commit m ≤ c0)); [by left|].
    assert (Hmine : ∃ a, a ∈ all_msgs w ∧ acks a T' (m_Commit m)).
    { destruct Hack as [Heq|[?|(x & a & Hx & Hin & Hak)]]; [|lia|].
      - destruct Hsent as (x & Hx & Hin). rewrite <- Heq, Hi in Hx. injection Hx as <-. exists m.
        split; [unfold all_msgs; set_solver|]. unfold acks. by rewrite Hty.
      - rewrite Hi in Hx. injection Hx as <-. exists a. split; [unfold all_msgs; set_solver|done]. }
    destruct Hmine as (a & Hin & Hak). destruct Hcl as [?|(t & j & Ht & Hch & Hj & Hag)]; [by left|right].
    exists t, j. split_and!; [done..|]. apply (moved_keeps t j); [done|by apply chosen_can|done|].
    replace (m_Commit m) with (N.min (m_Commit m) j) by lia.
    by apply (lo_acks _ _ _ _ _ _ _ _ mem_ok a T' (m_Commit m) t j); [..|lia|done|apply chosen_can].
Qed.

Lemma call_claimed : claimed g C T' lg' (l_committed (r_raftLog r')).
Proof.
  destruct (ac_commit _ _ _ _ Ha) as [->|[[Hs Hq]|Hal]].
  - apply moved_claimed, (lo_commit _ _ _ _ _ _ _ _ mem_ok).
  - apply quorum_claimed; [done|done|by apply (ac_lead _ _ _ _ Ha)].
  - by apply allowed_claimed.
Qed.

(** ** What the call sends *)

Lemma call_msgs a : a ∈ all_msgs w' → a ∈ all_msgs w ∨ told (heard c0 C T) m r' a.
Proof.
  destruct (ac_msgs _ _ _ _ Ha) as (new & Hm & Hn). unfold all_msgs. rewrite !elem_of_app.
  change (r_msgs (w_raft w')) with (r_msgs r'). rewrite Hm, elem_of_app. rewrite Forall_forall in Hn.
  intros [?|[?|[?|?]]]; [left; by left|left; right; by left|left; right; by right|right; by apply Hn].
Qed.
Lemma call_committed : l_committed (r_raftLog r') ≤ lg_last lg'.
Proof. apply (rv_committed _ (li_valid _ (ev_log _ _ _ He))). Qed.

Record fresh_ack (S n : N) : Prop := {
  fk_term : S = T';
  fk_winner : gw g T' ≠ None;
  fk_agree : agree lg' (gl g T') n;
  fk_last : n ≤ lg_last (gl g T');
  fk_owner : gw g T' = Some i ∨ owner_sent g C T' n ∨ older voters c0 g C T' n;
}.
Lemma lead_ack n : r_state r' = StateLeader → n ≤ lg_last lg' → fresh_ack T' n.
Proof.
  intros Hs Hn. destruct (Hlead Hs) as (_ & Hw & Hg).
  split; [done|by rewrite Hw|rewrite Hg; apply agree_refl|by rewrite Hg|by left].
Qed.
Lemma call_ack a S n : told (heard c0 C T) m r' a → acks a S n → c0 < n → fresh_ack S n.
Proof.
  intros Ht [Hs Hak] Hn. unfold told in Ht. destruct (m_Type a); try done.
  - destruct Ht as (Hl & HaT & Hp & Hcm). rewrite <- Hs, HaT. apply lead_ack; [done|].
    destruct (piece_last c0 lg0 lg' a (mv_based log_moved) Hp). lia.
  - destruct Hak as [Hrej Hle]. destruct Ht as [?|[?|(Hty & HmT & HaT & Hnl & Hcase)]]; [congruence|lia|].
    rewrite <- Hs, HaT. destruct (incoming_ok) as (_ & Hm & x & Hx & Hin); [unfold brings; by rewrite Hty|].
    destruct (mk_app _ _ _ _ _ _ Hm Hty) as (Hw & Hp & _). rewrite HmT in Hw, Hp.
    assert (Hnw : gw g T' ≠ None) by (by rewrite Hw). destruct Hcase as [Hcm|[Hidx Hf]].
    + assert (Hcl : claimed g C T' lg' n) by (apply (claimed_le _ _ _ _ _ _ (l_committed (r_raftLog r'))); [lia|apply call_claimed]).
      destruct (claimed_winner n Hnw Hcl) as [?|[Hag Hl]]; [lia|]. split; try done. right. by apply claimed_owner.
    + destruct (piece_last c0 lg0 _ m (lf_based _ _ _ _ _ (logs_fine T')) Hp) as [_ Hl].
      assert (Hag : agree lg' (gl g T') (m_Index m + lenN (m_Entries m))).
      { apply (fits_agree c0 lg0); [apply log_moved|apply logs_fine| |done|done].
        apply (sound_matching K c0 g); [apply log_moved|apply logs_fine]. }
      split; try done; [apply (agree_le _ _ _ (m_Index m + lenN (m_Entries m))); [lia|done]|lia|].
      right; left. exists (m_From m). split; [done|]. exists x, m. split_and!; try done. unfold acks. rewrite Hty. split; [done|lia].
  - destruct Ht as (Hl & HaT & Hcm & _). rewrite <- Hs, HaT. apply lead_ack; [done|]. pose proof call_committed. lia.
Qed.

Lemma call_grant a : told (heard c0 C T) m r' a → grants a = true →
  m_Type m = MsgVote ∧ m_To a = m_From m ∧ m_Term a = m_Term m ∧ m_Term m = T' ∧ good_for m lg'.
Proof.
  unfold told, grants. destruct (m_Type a); try (by intros _ [=]). intros [->|?]; [by intros [=]|done].
Qed.

(** A granted vote: the log of the candidate has what the voter acknowledged. *)
Lemma vote_beats t j n :
  m_Type m = MsgVote → good_for m lg' → t < T' → acked C i t n → j ≤ n → can_commit g C t j → beats m t j.
Proof.
  intros Hty Hgood Ht (x & a & Hx & Hin & Hak) Hj Hcc. rewrite Hi in Hx. injection Hx as <-.
  pose proof Hcc as [(Hgt & Hj0 & Htj) _]. pose proof log_moved as Hmv.
  assert (Hag : agree lg' (gl g t) j).
  { apply (moved_keeps t j); [lia|done|lia|]. replace j with (N.min n j) by lia.
    apply (lo_acks _ _ _ _ _ _ _ _ mem_ok a t n t j); [done|done|lia|lia|done]. }
  pose proof (own_last K c0 lg0 g t j (logs_fine t) (proj1 Hcc)) as Hjl.
  pose proof (agree_last c0 lg0 lg' (gl g t) j (mv_based Hmv) (lf_based _ _ _ _ _ (logs_fine t)) Hag Hjl) as Hl.
  assert (Htm : lg_term lg' j = Some t).
  { rewrite <- Htj. by apply (agree_term c0 lg0 _ _ j); [apply Hmv|apply logs_fine|..]. }
  destruct (proj2 (lg_term_is_Some lg' (lg_last lg'))) as [u Hu].
  { split; [|done]. unfold lg_last. lia. }
  pose proof (sound_sorted K c0 lg0 g lg' j (lg_last lg') t u logs_fine (mv_based Hmv) (mv_sound Hmv) Hl Htm Hu) as Hle.
  unfold good_for in Hgood. rewrite Hu in Hgood. cbn in Hgood. unfold beats. destruct Hgood as [?|[-> ?]]; [left; lia|].
  destruct (decide (t < u)); [by left|right]. split; lia.
Qed.

Lemma call_msg_ok a : told (heard c0 C T) m r' a → msg_ok g C i a.
Proof.
  intros Ht. split.
  - intros Hty. unfold told in Ht. rewrite Hty in Ht. destruct Ht as (Hl & -> & Hp & Hcm).
    destruct (Hlead Hl) as (_ & Hw & Hg). rewrite Hg. split_and!; [done|done|].
    apply (claimed_le _ _ _ _ _ _ (l_committed (r_raftLog r'))); [done|apply call_claimed].
  - intros Hty. unfold told in Ht. rewrite Hty in Ht. destruct Ht as (Hl & -> & Hcm & Hto).
    destruct (Hlead Hl) as (HT & Hw & Hg). rewrite Hg. split_and!; [done| |].
    + apply (claimed_le _ _ _ _ _ _ (l_committed (r_raftLog r'))); [done|apply call_claimed].
    + rewrite HT. destruct Hto as [->|(n & Hn & [?|Hb])].
      * left. apply (bo_id _ _ _ _ Hbo).
      * right; left. lia.
      * right; right. by apply (acked_sent_le _ _ _ n).
  - intros S n Hn Hak. destruct (call_ack a S n Ht Hak Hn) as [-> Hw Hag Hl Ho]. done.
  - intros Hg. destruct (call_grant a Ht Hg) as (Hty & Hto & HaT & HmT & Hgood).
    destruct (incoming_ok) as (_ & Hm & x & Hx & Hin); [unfold brings; by rewrite Hty|].
    exists x, m. rewrite Hto. split_and!; try done. intros t j n Hlt. apply vote_beats; [done|done|lia].
Qed.

Lemma call_mem : level_ok g C i (mem_level w').
Proof.
  pose proof log_moved as Hmv. pose proof mem_ok as Hl.
  change (v_log (mem_level w')) with lg'. split.
  - apply Hmv.
  - apply Hmv.
  - apply Hmv.
  - intros a S n t j Hin Hak Hn Ht Hcc. destruct (call_msgs a Hin) as [Ho|Hto].
    + pose proof (lo_ack_terms _ _ _ _ _ _ _ _ Hl a S n Ho Hak Hn) as Hle. cbn in Hle.
      assert (HtT : t ≤ T') by (etrans; [exact Ht|]; etrans; [exact Hle|apply Htn]).
      apply (moved_keeps t j); [done|done|lia|]. by apply (lo_acks _ _ _ _ _ _ _ _ Hl a S n t j).
    + destruct (call_ack a S n Hto Hak Hn) as [-> Hw Hag _ _]. destruct (decide (t = T')) as [->|Hne].
      * apply (agree_le _ _ _ n); [lia|done].
      * apply (agree_trans _ (gl g T')); [apply (agree_le _ _ _ n); [lia|done]|].
        apply (agree_le _ _ _ j); [lia|]. apply (co_complete _ _ _ _ _ _ Hc); [lia|done|done].
  - intros a S n Hin Hak Hn. destruct (call_msgs a Hin) as [Ho|Hto].
    + pose proof (lo_ack_terms _ _ _ _ _ _ _ _ Hl a S n Ho Hak Hn) as Hle. cbn in Hle.
      assert (HST : S ≤ T') by (etrans; [exact Hle|apply Htn]).
      destruct (lo_whole _ _ _ _ _ _ _ _ Hl a S n Ho Hak Hn) as [Hag|Hsup]; [|by right].
      assert (Hall : a ∈ all_msgs w) by done.
      destruct (mk_ack _ _ _ _ _ _ (co_msg _ _ _ _ _ _ Hc i w a Hi Hall) S n Hn Hak) as (HwS & HlS & _).
      destruct (decide (S = T')) as [->|Hne].
      * left. apply (agree_trans _ lg); [|done]. apply agree_sym, Hmv; [|done].
        by apply (agree_last c0 lg0 lg (gl g T') n); [apply mem_based|apply logs_fine|..].
      * destruct (gw g T') as [o|] eqn:Eo.
        -- right. exists T'. split; [lia|by rewrite Eo].
        -- left. apply (agree_trans _ lg); [|done]. apply agree_sym, Hmv; [|done].
           by apply (agree_last c0 lg0 lg (gl g S) n); [apply mem_based|apply logs_fine|..].
    + destruct (call_ack a S n Hto Hak Hn) as [-> Hw Hag _ _]. by left.
  - apply call_claimed.
  - intros a S n Hin Hak Hn. destruct (call_msgs a Hin) as [Ho|Hto].
    + pose proof (lo_ack_terms _ _ _ _ _ _ _ _ Hl a S n Ho Hak Hn) as Hle. cbn in Hle.
      etrans; [exact Hle|apply Htn].
    + by destruct (call_ack a S n Hto Hak Hn) as [-> _ _ _ _].
  - intros a Hin Hty. destruct (call_msgs a Hin) as [Ho|Hto].
    + etrans; [by apply (lo_requests _ _ _ _ _ _ _ _ Hl a)|]. apply Hvm.
    + unfold told in Hto. rewrite Hty in Hto. destruct Hto as (Hs & -> & _).
      change (ballot_le (T', i) (T', r_Vote r')). by rewrite (bo_own _ _ _ _ Hbo (or_introl Hs)).
Qed.

Lemma core_call : core g C'.
Proof.
  destruct (Hinv i w Hi) as [Hvi _]. pose proof (vm_storage _ _ Hvm) as Hws.
  assert (Hwst : w_storage w' = w_storage w) by exact Hws.
  assert (Hds : disk w' = disk w) by (unfold disk; by rewrite Hwst).
  assert (Hdb : durable_ballot w' = durable_ballot w) by (unfold durable_ballot; by rewrite Hwst).
  assert (Hdc : durable_commit w' = durable_commit w) by (unfold durable_commit; by rewrite Hwst).
  assert (Hvi' : vote_inv w') by (apply (raft_moves_inv w r'); done).
  assert (Hrl : ∀ rd, ready_level w' rd = ready_level w rd).
  { intros rd. unfold ready_level, ready_commit. by rewrite Hds, Hdc. }
  assert (Hsl : ∀ rd, saved_level w' rd = saved_level w rd).
  { intros rd. unfold saved_level. by rewrite Hds, Hdc, Hdb. }
  assert (Hdl : disk_level w' = disk_level w) by (unfold disk_level; by rewrite Hds, Hdc, Hdb).
  assert (Hacks : ∀ a S n, a ∈ all_msgs w' → acks a S n → c0 < n → a ∈ all_msgs w ∨ S = T').
  { intros a S n Hin Hak Hn. destruct (call_msgs a Hin) as [?|Ht]; [by left|right].
    by destruct (call_ack a S n Ht Hak Hn). }
  assert (Hacks' : ∀ a S n, a ∈ all_msgs w' → acks a S n → c0 < n → a ∈ all_msgs w ∨ T ≤ S).
  { intros a S n Hin Hak Hn. destruct (Hacks a S n Hin Hak Hn) as [?| ->]; [by left|right; apply Htn]. }
  assert (Hgr : ∀ a, a ∈ all_msgs w' → grants a = true → a ∈ all_msgs w ∨ m_Term a = T' ∧ m_To a = r_Vote r').
  { intros a Hin Hg. revert Hin. unfold all_msgs. rewrite !elem_of_app. intros [?|[?|Hin]]; [left; by left|left; right; by left|].
    change (r_msgs (w_raft w')) with (r_msgs r') in Hin. destruct (call_grants _ _ _ Hvm Hin Hg); [left; right; by right|by right]. }
  assert (Hup : ∀ v, level_ok g C i v → level_ok g C' i v).
  { intros v. apply (change_level voters K c0 lg0 g C i w w'); try done. by rewrite Hdb. }
  apply (core_change voters K c0 lg0 g C i w w'); try done.
  - by rewrite Hdb.
  - intros v' Hv'. apply Hup. destruct Hv' as [|rd Hrd|rd Hrd Hsv|rd Hrd Hsv|].
    + apply call_mem.
    + rewrite Hrl. apply (co_level _ _ _ _ _ _ Hc i w); [done|by apply at_offered].
    + rewrite Hrl. apply (co_level _ _ _ _ _ _ Hc i w); [done|by apply at_pending].
    + rewrite Hsl. apply (co_level _ _ _ _ _ _ Hc i w); [done|by apply at_saved].
    + rewrite Hdl. apply (co_level _ _ _ _ _ _ Hc i w); [done|apply at_disk].
  - intros a Hin. destruct (call_msgs a Hin) as [?|Ht]; [by left|right].
    apply (change_msg voters c0 g C i w w'); try done; [by rewrite Hdb| |by apply call_msg_ok].
    intros Hg t n Hlt Hn (x & b & Hx & Hb & Hak). rewrite lookup_insert_eq in Hx. injection Hx as <-.
    destruct (call_grant a Ht Hg) as (_ & _ & HaT & HmT & _).
    destruct (Hacks b t n Hb Hak Hn) as [Ho| ->]; [by exists w, b|lia].
Qed.
End CallCore.
