(* ===== verification/StateMachine.v ===== *)
(** * The safety of the replicated state machine

    A cluster in which nodes campaign, propose, replicate, save, send, crash and
    restart (files Runs and Cluster), on a network that may lose, delay, duplicate
    and reorder messages, but does not invent the ones that carry a claim
    ([genuine]).  No two nodes ever commit different entries at the same index, at
    any two times of the run, and a leader has every entry that was committed
    before.  [safe_step] shows that the invariant of the file History is kept by
    every event; [drive] runs a cluster, for the witnesses. *)

From S2P Require Import Prelude Pb Quorum Inflights Progress Tracker Confchange.
From S2P Require Import Util Storage Unstable RaftLog ReadOnly Raft RawNode Node.
From S2P Require Import RaftFrame RaftSafety RaftElection RaftBallot RaftRoles RaftInvariant RaftTotal RaftAppend.
From S2P Require Import RaftLeads RaftActs Runs LogRuns Cluster LogLinks LogMatching Levels Agreement History CallSafety.

(** ** The invariant is kept *)

Lemma level_msgs `{RaftPB} w v : vote_inv w → at_level w v → v_msgs v ⊆ all_msgs w.
Proof.
  intros Hvi Hv. unfold all_msgs. destruct Hv as [|rd Hrd|rd Hrd Hsv|rd Hrd Hsv|]; cbn; [done|..|set_solver].
  - destruct (vi_offered _ Hvi rd Hrd) as [_ Hs]. set_solver.
  - unfold pending_msgs. rewrite Hrd. set_solver.
  - unfold pending_msgs. rewrite Hrd. set_solver.
Qed.
Lemma peers_ok_mono `{RaftPB} (B B' : N → N → Prop) (r : raft MemoryStorage) :
  (∀ id n, B id n → B' id n) → peers_ok B r → peers_ok B' r.
Proof. intros Hm Hp id pr Hid. destruct (Hp id pr Hid) as [H1 H2 H3 H4]. split; auto. Qed.
Lemma peers_ok_same `{RaftPB} B (r r' : raft MemoryStorage) : same_lead r r' → peers_ok B r → peers_ok B r'.
Proof.
  intros (_ & _ & Hp & Hid & Hl) Hok id pr. rewrite Hp. intros Hpr. unfold log_last. rewrite Hid, Hl. by apply Hok.
Qed.

Section Safe.
Context `{RaftPB}.
Variables (voters : JointConfig) (K c0 : N) (lg0 : Log).

Record safe (g : ghost) (C : cluster) : Prop := {
  sf_core : core voters K c0 lg0 g C;
  sf_role i w : C !! i = Some w → role_ok c0 g C i w;
}.

Lemma role_other g C C' g' j x :
  role_ok c0 g C j x → (∀ id T n, acked_sent C id T n → acked_sent C' id T n) →
  (gw g (r_Term (w_raft x)) = Some j → gw g' (r_Term (w_raft x)) = Some j ∧
    gl g' (r_Term (w_raft x)) = gl g (r_Term (w_raft x))) →
  (gw g' (r_Term (w_raft x)) = Some j → gw g (r_Term (w_raft x)) = Some j) → role_ok c0 g' C' j x.
Proof.
  intros [R1 R2 R3 R4] Hm Hg Hg'. split; try done.
  - intros Hs. destruct (R3 Hs) as (Hw & Hl & Hp). destruct (Hg Hw) as [Hw' ->]. split_and!; [done|done|].
    revert Hp. apply peers_ok_mono. intros id n [?|?]; [by left|right]. by apply Hm.
  - intros Hs. destruct (R4 Hs) as [Hn Hq]. auto.
Qed.

Lemma role_still p0 C C' g i w w' :
  role_ok c0 g C i w → (∀ id T n, acked_sent C id T n → acked_sent C' id T n) → still p0 w w' →
  role_ok c0 g C' i w'.
Proof.
  intros [R1 R2 R3 R4] Hm [S1 S2 S3 S4 S5 S6 S7]. split.
  - done.
  - by rewrite S7.
  - intros Hs. destruct S6 as [Hsl|Hf]; [|congruence]. pose proof Hsl as (Es & Et & Ep & Eid & El).
    rewrite Et. change (rl_log (w_log w')) with (rl_log (r_raftLog (w_raft w'))). rewrite El.
    destruct R3 as (Hw & Hl & Hp); [congruence|]. split_and!; [done|done|].
    apply (peers_ok_same _ _ _ Hsl). revert Hp. apply peers_ok_mono.
    intros id n [?|?]; [by left|right]. by apply Hm.
  - intros Hs. destruct S6 as [Hsl|Hf]; [|congruence]. pose proof Hsl as (Es & Et & Ep & Eid & El).
    rewrite Et. change (rl_log (w_log w')) with (rl_log (r_raftLog (w_raft w'))). rewrite El.
    destruct R4 as [Hn Hq]; [congruence|]. split; [done|]. intros q Hin. apply Hq. by apply S2.
Qed.

Lemma safe_still g C i w w' :
  lg_prev lg0 ≤ c0 → safe g C → C !! i = Some w → vote_inv w → vote_inv w' →
  still (lg_prev lg0) w w' → safe g (<[i := w']> C).
Proof.
  intros Hc0 [Hc Hr] Hi Hvi Hvi' Hs. split; [by apply (core_still _ _ _ _ _ _ _ w)|].
  assert (Hm : ∀ id T n, acked_sent C id T n → acked_sent (<[i := w']> C) id T n).
  { intros id T n. apply (change_acked_sent C i w w' Hi), Hs. }
  intros j x [(<- & <-)|[Hne Hx]]%lookup_insert_Some; [by apply (role_still (lg_prev lg0) C _ g i w); auto|].
  by apply (role_other g C _ g j x); auto.
Qed.

Section CallSafe.
Variables (g : ghost) (C : cluster) (i : N) (w : world) (m : Message) (r' : raft MemoryStorage).
Notation w' := (called w r').
Notation C' := (<[i := w']> C).
Notation T := (r_Term (w_raft w)).
Notation T' := (r_Term r').
Notation lg := (rl_log (w_log w)).
Notation lg' := (rl_log (r_raftLog r')).
Hypothesis Hsz : (2 ≤ size (keys (incoming voters)))%nat.
Hypothesis Hb0 : based c0 lg0 lg0.
Hypothesis Hlg0 : ∀ k u, lg_term lg0 k = Some u → u ≤ K.
Hypothesis Hinv : cluster_inv voters C.
Hypothesis Hsafe : safe g C.
Hypothesis Hi : C !! i = Some w.
Hypothesis Hst : stored w.
Hypothesis HK : r_state (w_raft w) = StateCandidate ∨ r_state (w_raft w) = StateLeader → K < T.
Hypothesis He : evolved m (w_raft w) r'.
Hypothesis Htn : turns (w_raft w) r'.
Hypothesis Hvm : vote_moves (w_raft w) r'.
Hypothesis Ha : acts (heard c0 C T) m (w_raft w) r'.
Hypothesis Hbo : ballot_ok i voters (sent_vote C i) r'.
Hypothesis Hsn : m_Type m ≠ MsgSnap.
Hypothesis Hsa : sound_append m.
Hypothesis Hauth : brings m = true → m_To m = i ∧ ∃ x, C !! m_From m = Some x ∧ m ∈ w_sent x.

Lemma role_kept_log : r_state r' ≠ StateLeader → r_state r' ≠ StateFollower → lg' = lg.
Proof.
  intros Hl Hf. destruct (ev_change _ _ _ He) as [es Hlog Hcg Het Hes|Hty Hfo|Hty]; [|done|done].
  destruct (decide (es = [])) as [->|Hne]; [|by destruct Hl; apply Hes].
  rewrite Hlog, lg_append_end, app_nil_r. change (r_raftLog (w_raft w)) with (w_log w). by destruct lg.
Qed.
Lemma leader_appended : r_state r' = StateLeader → appended T' lg lg'.
Proof.
  intros Hs. destruct (ev_change _ _ _ He) as [es Hlog Hcg Het Hes|Hty Hfo|Hty]; [|congruence|done].
  rewrite Hlog. by apply appended_end.
Qed.

(** A leader leads the term it was in, as a leader or as a candidate that won. *)
Lemma leader_before : r_state r' = StateLeader →
  T' = T ∧ won voters C i T ∧ (r_state (w_raft w) = StateCandidate ∨ r_state (w_raft w) = StateLeader).
Proof.
  intros Hs. assert (Hw : won voters C i T') by apply (bo_lead _ _ _ _ Hbo Hs).
  destruct (won_saved voters K c0 lg0 g C i w Hsz Hinv (sf_core _ _ Hsafe) Hi T' Hw) as [Hle _].
  destruct (Hinv i w Hi) as [Hvi _]. destruct (durable_le w Hvi) as [Hd _]. cbn in Hle, Hd.
  pose proof (tn_term _ _ Htn). assert (HT : T' = T) by lia. split; [done|]. rewrite <- HT at 1.
  split; [done|]. by apply (tn_leader _ _ Htn).
Qed.

(** The history with the leader's log as it is after the call. *)
Lemma lead_grows : r_state r' = StateLeader →
  (gw g T = Some i ∧ gl g T = lg ∨ gw g T = None) ∧ core voters K c0 lg0 (lead_on g i T' lg') C.
Proof.
  intros Hs. destruct (leader_before Hs) as (HT & Hwon & Hrole). rewrite HT.
  destruct Hsafe as [Hc Hr]. pose proof (Hr i w Hi) as Hro. specialize (HK Hrole).
  pose proof (co_level _ _ _ _ _ _ Hc i w (mem_level w) Hi (at_mem w)) as Hlv.
  pose proof (lo_based _ _ _ _ _ _ _ _ Hlv) as Hb. pose proof (lo_sound _ _ _ _ _ _ _ _ Hlv) as Hso.
  pose proof (lo_top _ _ _ _ _ _ _ _ Hlv) as Htop. cbn in Hb, Hso, Htop.
  pose proof (leader_appended Hs) as Hap. rewrite HT in Hap.
  assert (Hgw : gw g T = Some i ∧ gl g T = lg ∨ gw g T = None).
  { destruct Hrole as [Hcand|Hlead].
    - right. by apply (won_first voters K c0 lg0 g C i w).
    - left. destruct (ro_lead _ _ _ _ _ Hro Hlead) as (? & ? & _). done. }
  split; [done|].
  assert (Hel : elected voters K C T i).
  { destruct Hrole as [Hcand|Hlead].
    - by apply (won_elected voters K c0 lg0 g C i w).
    - apply (co_elected _ _ _ _ _ _ Hc). by apply (ro_lead _ _ _ _ _ Hro). }
  apply (core_grow voters K c0 lg0 g); [by apply voters_some|done|done|..].
  - by apply (lead_on_extends K g i T lg lg').
  - by apply (lead_on_fine voters K c0 lg0 g C i T lg lg').
  - intros S o HS. destruct (decide (S = T)) as [->|Hne].
    + rewrite lead_on_winner in HS. by injection HS as <-.
    + destruct (lead_on_other g i T lg' S Hne) as [_ E]. rewrite E in HS. by apply (co_elected _ _ _ _ _ _ Hc).
  - intros j x v Hx. apply level_msgs, (Hinv j x Hx).
  - intros t S j Ht HS HnS Hcc. destruct (decide (S = T)) as [->|Hne].
    + rewrite lead_on_log. destruct Hrole as [Hcand|Hlead].
      * assert (Hag : agree lg (gl g t) j) by by apply (won_complete voters K c0 lg0 g C i w).
        apply (agree_trans _ lg); [|done]. apply agree_sym, (agree_le _ _ _ (lg_last lg)); [|apply Hap].
        apply (agree_last c0 lg0 lg (gl g t) j); [done|apply Hc|done|].
        apply (own_last K c0 lg0); [apply Hc|apply Hcc].
      * destruct (ro_lead _ _ _ _ _ Hro Hlead) as (Hwi & _). congruence.
    + destruct (lead_on_other g i T lg' S Hne) as [_ E]. rewrite E in HS. done.
Qed.

Definition grown : ghost := if decide (r_state r' = StateLeader) then lead_on g i T' lg' else g.
Lemma grown_lead : r_state r' = StateLeader → gw grown T' = Some i ∧ gl grown T' = lg'.
Proof. intros Hs. unfold grown. rewrite decide_True by done. by rewrite lead_on_winner, lead_on_log. Qed.
Lemma grown_core : core voters K c0 lg0 grown C'.
Proof.
  assert (Hg : core voters K c0 lg0 grown C).
  { unfold grown. case_decide as Hs; [by apply lead_grows|apply Hsafe]. }
  apply (core_call voters K c0 lg0 grown C i w m r'); try done. intros Hs.
  destruct (leader_before Hs) as [HT _]. destruct (grown_lead Hs). done.
Qed.

Lemma role_called : role_ok c0 grown C' i w'.
Proof.
  destruct Hsafe as [Hc Hr]. pose proof (Hr i w Hi) as Hro. pose proof (vm_storage _ _ Hvm) as Hws.
  assert (Hwst : w_storage w' = w_storage w) by exact Hws.
  assert (Hm : ∀ id S n, acked_sent C id S n → acked_sent C' id S n).
  { intros id S n. by apply (change_acked_sent C i w w' Hi). }
  split.
  - intros v Hv. change (l_committed (w_log w')) with (l_committed (r_raftLog r')).
    pose proof (ac_mono _ _ _ _ Ha) as Hmono. pose proof (ro_behind _ _ _ _ _ Hro) as Hb.
    assert (Hbd : ∀ u, at_level w u → v_commit u ≤ l_committed (r_raftLog r')).
    { intros u Hu. etrans; [by apply Hb|done]. }
    assert (Hdc : durable_commit w' = durable_commit w) by (unfold durable_commit; by rewrite Hwst).
    destruct Hv as [|rd Hrd|rd Hrd Hsv|rd Hrd Hsv|]; cbn; [done|..]; unfold ready_commit; rewrite ?Hdc.
    + apply (Hbd (ready_level w rd)). by apply at_offered.
    + apply (Hbd (ready_level w rd)). by apply at_pending.
    + apply (Hbd (saved_level w rd)). by apply at_saved.
    + apply (Hbd (disk_level w)), at_disk.
  - rewrite Hwst. apply Hro.
  - intros Hs. change (r_Term (w_raft w')) with T'. change (rl_log (w_log w')) with lg'.
    destruct (grown_lead Hs) as [Hw Hl]. split_and!; [done|done|].
    pose proof (le_peers _ _ (ac_lead _ _ _ _ Ha Hs)) as Hp. destruct (leader_before Hs) as [HT _].
    change (w_raft w') with r'. revert Hp. apply peers_ok_mono. rewrite HT. intros id n [?|?]; [by left|right]. by apply Hm.
  - intros Hs. change (r_Term (w_raft w')) with T'. change (rl_log (w_log w')) with lg'.
    change (w_raft w') with r' in Hs.
    assert (Hg : grown = g) by (unfold grown; rewrite decide_False by congruence; done). rewrite Hg.
    pose proof (tn_term _ _ Htn) as HTT. assert (Hsame : T' = T → r_state (w_raft w) = StateCandidate ∧ lg' = lg).
    { intros HT. split; [by apply (tn_candidate _ _ Htn)|]. apply role_kept_log; congruence. }
    split.
    + intros Hw. destruct (decide (T' = T)) as [HT|HT].
      * destruct (Hsame HT) as [Hcand _]. rewrite HT in Hw. by apply (ro_cand _ _ _ _ _ Hro).
      * destruct (co_elected _ _ _ _ _ _ Hc T' i Hw) as [_ _ (x & Hx & [Hd _] & _) _].
        rewrite Hi in Hx. injection Hx as <-. destruct (Hinv i w Hi) as [Hvi _].
        destruct (durable_le w Hvi) as [Hd' _]. cbn in Hd, Hd'. lia.
    + intros q Hq Hty Hqt. destruct (call_msgs c0 C w m r' Ha q Hq) as [Ho|Hto].
      * destruct (decide (T' = T)) as [HT|HT].
        -- destruct (Hsame HT) as [Hcand ->]. apply (ro_cand _ _ _ _ _ Hro Hcand); [done|done|congruence].
        -- destruct (lo_requests _ _ _ _ _ _ _ _ (co_level _ _ _ _ _ _ Hc i w (mem_level w) Hi (at_mem w)) q Ho Hty) as [Hle _].
           cbn in Hle. lia.
      * unfold told in Hto. rewrite Hty in Hto. by destruct Hto as (_ & _ & ? & ?).
Qed.

Lemma safe_call : safe grown C'.
Proof.
  split; [apply grown_core|]. destruct Hsafe as [Hc Hr].
  intros j x [(<- & <-)|[Hne Hx]]%lookup_insert_Some; [apply role_called|].
  apply (role_other g C); [by apply Hr| | |].
  - intros id S n. by apply (change_acked_sent C i w w' Hi).
  - intros Hw. unfold grown. case_decide as Hs; [|done]. destruct (decide (r_Term (w_raft x) = T')) as [E|E].
    + exfalso. destruct (lead_grows Hs) as [Hgw _]. destruct (leader_before Hs) as [HT _]. rewrite E, HT in Hw.
      destruct Hgw as [[? _]|?]; congruence.
    + by destruct (lead_on_other g i T' lg' _ E) as [-> ->].
  - unfold grown. case_decide as Hs; [|done]. destruct (decide (r_Term (w_raft x) = T')) as [E|E].
    + rewrite E, lead_on_winner. congruence.
    + by destruct (lead_on_other g i T' lg' _ E) as [_ ->].
Qed.
(** What was claimed before the call is claimed after it. *)
Lemma grown_claimed t lg1 c :
  based c0 lg0 lg1 → claimed voters c0 g C t lg1 c → claimed voters c0 grown C' t lg1 c.
Proof.
  intros Hb Hcl. apply (change_claimed voters c0 grown C i w w' Hi (reflexivity _)).
  unfold grown. case_decide as Hs; [|done].
  destruct (lead_grows Hs) as [Hgw Hcg]. destruct (leader_before Hs) as (HT & _ & Hrole).
  apply (grow_claimed voters K c0 lg0 g); [apply Hsafe| |apply Hcg|done|done].
  rewrite HT in *. apply (lead_on_extends K g i T lg lg'); [|by apply HK|done].
  rewrite <- HT at 1. by apply leader_appended.
Qed.
End CallSafe.
End Safe.

(** ** The steps of a cluster *)

Lemma applied_acts (B : N → N → Prop) `{RaftPB} (HB : ∀ id, B id 0) rd (r : raft MemoryStorage) :
  log_last r + 2 < 9223372036854775808 → ready_to_act B r →
  wp True (reduceUncommittedSize (rd_CommittedEntries rd);;
    when (0 <? appliedCursor rd) (advance_applied (appliedCursor rd))) r (λ _ r', acts B tick_msg r r').
Proof.
  intros Hl Hr. apply wp_bind. unfold reduceUncommittedSize. apply wp_bind, wp_get.
  assert (Hk : ∀ r1, same_core r r1 → r_prs r1 = r_prs r →
    wp True (when (0 <? appliedCursor rd) (advance_applied (appliedCursor rd))) r1 (λ _ r', acts B tick_msg r r')).
  { intros r1 Hc Hp. destruct (ready_same B r r1 Hc Hp Hr) as [Hm1 Hr1].
    apply (acting_past B r1); [exact Hm1|]. destruct (0 <? appliedCursor rd); cbn [when]; [|by apply acting_ret].
    apply (advance_applied_acts B); [|exact Hr1]. destruct Hc as [_ _ _ _ Hlog _]. unfold log_last. by rewrite Hlog. }
  destruct (_ =? 0); [apply wp_ret|apply wp_modify]; apply Hk; by try split.
Qed.

(** The calls of the state machine among the events. *)
Lemma use_Ok `{RaftPB} w a u :
  uses1 (w_user w) a u →
  match a with
  | UProp m => ∃ e r', prop m (w_raft w) = Ok (e, r') ∧ u = w_user (called w r')
  | URecv m => ∃ r', recv m (w_raft w) = Ok (tt, r') ∧ u = w_user (called w r')
  | UTick => ∃ r', tick (w_raft w) = Ok (tt, r') ∧ u = w_user (called w r')
  | _ => True
  end.
Proof.
  destruct w as [[rn o p] saved sent]. unfold called, w_raft. cbn. intros Hu. inversion Hu; subst; try done;
    match goal with Hx : _ = Ok (_, _) |- _ => apply on_raft_Ok in Hx as (r' & Hr & ->) end; [by exists e, r'|by exists r'..].
Qed.

Section Steps.
Context `{RaftPB}.
Variables (voters : JointConfig) (K c0 : N) (lg0 : Log).
Hypothesis Hsz : (2 ≤ size (keys (incoming voters)))%nat.
Implicit Types C : cluster.

(** The messages that carry a claim are not invented: they come from the node they
    name and go to the one they are meant for. *)
Definition genuine C (i : N) (ev : event) : Prop :=
  match ev with
  | EUse (URecv m) => brings m = true ∨ m_Type m = MsgAppResp →
      m_Term m ≠ 0 ∧ m_To m = i ∧ ∃ w, C !! m_From m = Some w ∧ m ∈ w_sent w
  | _ => True
  end.

Inductive genuine_steps : cluster → cluster → Prop :=
| genuine_refl C : genuine_steps C C
| genuine_snoc C C1 i w ev w' :
    genuine_steps C C1 → C1 !! i = Some w → world_step w ev w' →
    allowed voters C1 i ev w' → genuine C1 i ev → has_room w ev →
    genuine_steps C (<[i := w']> C1).

Lemma genuine_authentic C i ev : genuine C i ev → authentic C ev.
Proof.
  destruct ev as [[]| | | | |]; try done. intros Hg Ht.
  destruct Hg as (_ & _ & w & Hw & Hm); [left; unfold brings; by rewrite Ht|]. by exists (m_From m), w.
Qed.
Lemma genuine_faithful C C' : genuine_steps C C' → faithful_steps voters C C'.
Proof. induction 1; [constructor|eapply faithful_snoc; eauto using genuine_authentic]. Qed.
Lemma genuine_trans C C1 C2 : genuine_steps C C1 → genuine_steps C1 C2 → genuine_steps C C2.
Proof. intros H1. induction 1; [done|by eapply genuine_snoc; auto]. Qed.

Notation safe := (safe voters K c0 lg0).
Hypothesis Hb0 : based c0 lg0 lg0.
Hypothesis Hlg0 : ∀ k u, lg_term lg0 k = Some u → u ≤ K.

Section Step.
Variables (g : ghost) (C : cluster) (i : N) (w : world).
Hypothesis Hinv : cluster_inv voters C.
Hypothesis Hm : match_inv voters K C.
Hypothesis Hsafe : safe g C.
Hypothesis Hi : C !! i = Some w.
Notation T := (r_Term (w_raft w)).
Notation B := (heard c0 C T).

Lemma heard_zero id : B id 0.
Proof. left. lia. Qed.
Lemma role_term : r_state (w_raft w) = StateCandidate ∨ r_state (w_raft w) = StateLeader → K < T.
Proof. apply (mi_role _ _ _ Hm i w Hi). Qed.
Lemma node_stored : stored w.
Proof. by apply (mi_stored _ _ _ Hm i w Hi). Qed.

Lemma ready_now : ready_to_act B (w_raft w).
Proof.
  pose proof (sf_role _ _ _ _ _ _ Hsafe i w Hi) as Hro. pose proof node_stored as Hst. pose proof role_term as HK.
  pose proof (co_level _ _ _ _ _ _ (sf_core _ _ _ _ _ _ Hsafe) i w (mem_level w) Hi (at_mem w)) as Hlv.
  assert (Hsn : snap_low (r_raftLog (w_raft w))).
  { intros s. unfold log_snapshot. change (r_raftLog (w_raft w)) with (w_log w). rewrite (sd_nosnap _ Hst).
    cbn. intros [= <-]. etrans; [apply (ro_snap _ _ _ _ _ Hro)|].
    exact (based_last c0 lg0 _ (lo_based _ _ _ _ _ _ _ _ Hlv)). }
  split; [apply Hst| |by intros Hs; specialize (HK (or_introl Hs)); lia|done].
  intros Hs. specialize (HK (or_intror Hs)). split; [apply Hst|done|lia| |done].
  by apply (ro_lead _ _ _ _ _ Hro).
Qed.

Lemma incoming_act m :
  sane m → m_Type m ≠ MsgSnap → sound_append m → N.max T (m_Term m) + 1 < two64 →
  has_room w (EUse (URecv m)) → genuine C i (EUse (URecv m)) → act_msg B m (w_raft w).
Proof.
  intros Hs Hsn Hsa Hb Hroom Hg. pose proof (sf_core _ _ _ _ _ _ Hsafe) as Hc. cbn in Hroom.
  split; [done| |apply Hs| |done|lia].
  - intros Ht. destruct (Hsa Ht) as (Hcg & Hts & _). split; [done|done| |lia].
    destruct Hg as (_ & _ & x & Hx & Hin); [left; unfold brings; by rewrite Ht|].
    assert (Hall : m ∈ all_msgs x) by (unfold all_msgs; set_solver).
    destruct (mk_app _ _ _ _ _ _ (co_msg _ _ _ _ _ _ Hc _ x m Hx Hall) Ht) as (_ & (_ & Hlt & _) & _).
    intros Hz. rewrite Hz in Hlt. by apply (lf_start _ _ _ _ _ (co_logs _ _ _ _ _ _ Hc (m_Term m))).
  - intros Ht Hrej Hl. destruct Hg as (Hnz & _ & x & Hx & Hin); [by right|]. split; [done|]. intros Hmt.
    assert (Hak : acks m T (m_Index m)) by (unfold acks; rewrite Ht; done). split.
    + destruct (decide (m_Index m ≤ c0)) as [Hle|Hgt].
      { etrans; [exact Hle|]. pose proof (co_level _ _ _ _ _ _ Hc i w (mem_level w) Hi (at_mem w)) as Hlv.
        exact (based_last c0 lg0 _ (lo_based _ _ _ _ _ _ _ _ Hlv)). }
      assert (Hall : m ∈ all_msgs x) by (unfold all_msgs; set_solver).
      destruct (mk_ack _ _ _ _ _ _ (co_msg _ _ _ _ _ _ Hc _ x m Hx Hall) T (m_Index m)) as (_ & Hle & _); [lia|done|].
      destruct (ro_lead _ _ _ _ _ (sf_role _ _ _ _ _ _ Hsafe i w Hi) Hl) as (_ & Hgl & _). rewrite Hgl in Hle. exact Hle.
    + intros _. right. by exists x, m.
Qed.

(** A call of the state machine, and what is known of it. *)
Record a_call (m : Message) (r' : raft MemoryStorage) : Prop := {
  ca_evolved : evolved m (w_raft w) r';
  ca_turns : turns (w_raft w) r';
  ca_votes : vote_moves (w_raft w) r';
  ca_acts : acts B m (w_raft w) r';
  ca_type : m_Type m ≠ MsgSnap;
  ca_sound : sound_append m;
  ca_source : brings m = true → m_To m = i ∧ ∃ x, C !! m_From m = Some x ∧ m ∈ w_sent x;
}.

Lemma use_call a u :
  admissible w a → uses1 (w_user w) a u → has_room w (EUse a) → genuine C i (EUse a) →
  match a with URecv m => m_Type m ≠ MsgSnap | UApply _ | UOffer => False | _ => True end →
  ∃ m r', u = w_user (called w r') ∧ a_call m r'.
Proof.
  intros Had Hu Hroom Hg Ha. pose proof ready_now as Hrd. pose proof node_stored as Hst.
  pose proof (sd_log _ Hst) as Hlog. pose proof heard_zero as HB.
  apply use_Ok in Hu. unfold w_log in Hlog. destruct a as [m|m| | | | | |]; try done; cbn in Had, Hroom.
  - destruct Hu as (e & r' & Hr & ->), Had as [Ht Hb]. set (m1 := m <| m_From := r_id (w_raft w) |>). exists m1, r'. split; [done|].
    assert (Hna : m_Type m1 ≠ MsgApp) by (cbn; by rewrite Ht).
    assert (Hbr : brings m = false) by (unfold brings; by rewrite Ht).
    destruct (Step_call (w_raft w) r' m1 e (log_last (w_raft w))) as (He & _ & Htn & Hv); try done;
      [by apply prop_sane|cbn; by rewrite Ht|].
    split; try done; [|cbn; by rewrite Ht|unfold brings; cbn; by rewrite Ht].
    apply (acts_any _ m); [done|done|].
    refine (wp_Ok _ _ _ _ _ _ (prop_acts _ HB m (w_raft w) Ht Hb _ Hrd) Hr). lia.
  - destruct Hu as (r' & Hr & ->), Had as [Hs Hb]. exists m, r'. split; [done|].
    assert (Hsa : sound_append m).
    { apply (authentic_sound voters K C Hm). by apply (genuine_authentic C i (EUse (URecv m))). }
    assert (Ham : act_msg (B) m (w_raft w)) by by apply incoming_act.
    pose proof (wp_Ok _ _ _ _ _ _ (recv_acts _ HB m (w_raft w) Ham Hrd) Hr) as Hac.
    assert (Hcall : evolved m (w_raft w) r' ∧ hoarding (w_raft w) r' ∧ turns (w_raft w) r' ∧ vote_moves (w_raft w) r').
    { apply recv_Ok in Hr as [->|[e Hr]]; [by apply same_call|].
      by apply (Step_call _ _ m e (N.max (log_last (w_raft w)) (m_Index m + lenN (m_Entries m)))); try lia. }
    destruct Hcall as (He & _ & Htn & Hv). split; try done. intros Hbr. by destruct Hg as (_ & ? & ?); [left|].
  - destruct Hu as (r' & Hr & ->). exists tick_msg, r'. split; [done|].
    assert (Hroom' : log_last (w_raft w) + lenN (m_Entries tick_msg) + 3 < 9223372036854775808) by by rewrite N.add_0_r.
    split; try done.
    + apply (wp_Ok _ _ _ _ _ _ (tick_evolves (log_last (w_raft w)) tick_msg Hroom' (w_raft w) Hlog (N.le_refl _)) Hr).
    + apply (wp_Ok _ _ _ _ _ _ (tick_turning (w_raft w) Had) Hr).
    + destruct (wp_Ok _ _ _ _ _ _ (tick_climbs (w_raft w) Had) Hr) as [Hadv _].
      eapply (progresses_moves _). by apply advances_progresses.
    + refine (wp_Ok _ _ _ _ _ _ (tick_acts _ HB (w_raft w) Had _ Hrd) Hr). lia.
Qed.

Lemma applied_call rd r1 :
  log_last (w_raft w) + 3 < 9223372036854775808 →
  (reduceUncommittedSize (rd_CommittedEntries rd);;
    when (0 <? appliedCursor rd) (advance_applied (appliedCursor rd))) (w_raft w) = Ok (tt, r1) → a_call tick_msg r1.
Proof.
  intros Hroom Hr. pose proof node_stored as Hst.
  assert (Hroom' : log_last (w_raft w) + lenN (m_Entries tick_msg) + 3 < 9223372036854775808) by by rewrite N.add_0_r.
  split; try done.
  - apply (wp_Ok _ _ _ _ _ _ (applied_evolves (log_last (w_raft w)) tick_msg rd (w_raft w) Hroom' (sd_log _ Hst) (N.le_refl _)) Hr).
  - apply settled_turns, (moves_Ok _ _ _ _ _ (reduce_applied_settled rd) Hr).
  - apply votes_kept_moves, (moves_Ok _ _ _ _ _ (reduce_applied_votes rd) Hr).
  - refine (wp_Ok _ _ _ _ _ _ (applied_acts _ heard_zero rd (w_raft w) _ ready_now) Hr). lia.
Qed.

(** What is known of a run from the history before. *)
Definition goes_on (g' : ghost) (C' : cluster) : Prop :=
  safe g' C' ∧ ∀ t lg c, based c0 lg0 lg → claimed voters c0 g C t lg c → claimed voters c0 g' C' t lg c.

Lemma call_goes_on m r' :
  a_call m r' → ballot_ok i voters (sent_vote C i) r' → ∃ g', goes_on g' (<[i := called w r']> C).
Proof.
  intros [A1 A2 A3 A4 A5 A6 A7] Hbo. pose proof node_stored. pose proof role_term. exists (grown g i r'). split.
  - by apply (safe_call voters K c0 lg0 g C i w m r').
  - by apply (grown_claimed voters K c0 lg0 g C i w m r').
Qed.
Lemma still_goes_on w' :
  vote_inv w' → still (lg_prev lg0) w w' → ∃ g', goes_on g' (<[i := w']> C).
Proof.
  intros Hvi' Hs. destruct (Hinv i w Hi) as [Hvi _]. exists g. split.
  - apply (safe_still voters K c0 lg0 g C i w w'); try done. apply (bs_range _ _ _ Hb0).
  - intros t lg c _. apply (change_claimed voters c0 g C i w w' Hi), Hs.
Qed.
Lemma disk_based : based c0 lg0 (disk w).
Proof.
  pose proof (co_level _ _ _ _ _ _ (sf_core _ _ _ _ _ _ Hsafe) i w (disk_level w) Hi (at_disk w)) as Hlv.
  exact (lo_based _ _ _ _ _ _ _ _ Hlv).
Qed.
End Step.

Lemma safe_step g C i w ev w' :
  cluster_inv voters C → match_inv voters K C → safe g C → C !! i = Some w → world_step w ev w' →
  allowed voters C i ev w' → genuine C i ev → has_room w ev →
  ∃ g', goes_on g C g' (<[i := w']> C).
Proof.
  intros Hinv Hm Hsafe Hi Hs Hal Hg Hroom. destruct (Hinv i w Hi) as [Hvi Hbo].
  destruct (mi_stored _ _ _ Hm i w Hi) as [Hst _]. pose proof (step_inv w ev w' Hvi Hs) as Hvi'.
  pose proof (sf_role _ _ _ _ _ _ Hsafe i w Hi) as Hro. pose proof (ro_behind _ _ _ _ _ Hro) as Hbeh.
  pose proof (world_step_ballot voters C i w ev w' Hs Hal Hbo) as Hbo'.
  assert (Hgo : still (lg_prev lg0) w w' → ∃ g', goes_on g C g' (<[i := w']> C)).
  { intros Hst'. by apply (still_goes_on g C i w). }
  destruct Hs as [w a u Had Hu|w rd u Hu|w rd st rn Hrd Hsv Hsave Hw|w rd Hrd Hsv|w u Hsv Hu|w rand c rn Hc Hn].
  - assert (Hcase : a = UOffer ∨ a ≠ UOffer) by (destruct a; (by left) || (by right)). destruct Hcase as [->|Hne].
    + apply Hgo. destruct w as [[rn o p] saved sent]. cbn in *. inversion Hu; subst. by apply offer_still.
    + assert (Hca : ∃ m r', u = w_user (called w r') ∧ a_call C i w m r').
      { apply (use_call g C i w Hinv Hm Hsafe Hi a u); try done. destruct a; try done. apply Hal. }
      destruct Hca as (m & r' & -> & Hca).
      by apply (call_goes_on g C i w Hinv Hm Hsafe Hi m r').
  - apply Hgo. destruct w as [[rn o p] saved sent]. cbn in *. inversion Hu; subst.
    by apply (accept_still _ (MkWorld (MkUser rn (Some rd) None) saved sent) rd).
  - apply Hgo. by apply (save_still _ w rd st rn).
  - apply Hgo. by apply (send_still _ w rd).
  - destruct (advance_half voters K (voters_some voters Hsz) C i w u Hinv Hm Hi Hsv Hu Hroom) as
      (rd & r1 & Hrd & Hue & Hr1 & Hlast & Hst1 & Hinv1 & Hm1).
    assert (Hbo1 : ballot_ok i voters (sent_vote C i) r1).
    { apply (moves_Ok _ _ _ _ _ (reduce_applied_ballot voters i (sent_vote C i) rd) Hr1). exact Hbo. }
    assert (Hca : a_call C i w tick_msg r1) by by apply (applied_call g C i w Hm Hsafe Hi rd).
    destruct (call_goes_on g C i w Hinv Hm Hsafe Hi tick_msg r1 Hca Hbo1) as (g1 & Hs1 & Hcl1).
    set (w1 := called w r1) in *. assert (Hi1 : <[i := w1]> C !! i = Some w1) by apply lookup_insert_eq.
    assert (Hw' : MkWorld u false (w_sent w) = MkWorld (MkUser (us_rn u) None None) false (w_sent w1)) by (by rewrite Hue).
    rewrite Hw' in *. destruct (still_goes_on g1 (<[i := w1]> C) i w1 Hinv1 Hs1 Hi1 (MkWorld (MkUser (us_rn u) None None) false (w_sent w1)))
      as (g2 & Hs2 & Hcl2); [done| |].
    { apply (stable_still _ w1 rd (us_rn u)); [done| |done|done|exact Hlast|].
      - apply (ro_behind _ _ _ _ _ (sf_role _ _ _ _ _ _ Hs1 i w1 Hi1)).
      - intros n t. by apply (disk_agrees voters K (<[i := w1]> C) Hm1 i w1 n t). }
    rewrite insert_insert_eq in Hs2, Hcl2. exists g2. split; [done|]. intros t lg k Hb Hcl. by apply Hcl2, Hcl1.
  - apply Hgo. pose proof (disk_based g C i w Hsafe Hi) as Hdb. rewrite <- (bs_prev _ _ _ Hdb).
    apply (restart_still w rand c rn); try done. by apply (mi_position _ _ _ Hm i w).
Qed.

(** ** The start *)

(** All nodes start with the same log [lg0], of terms up to [K] that do not
    decrease, and have committed at most [c0] of it. *)
Record common_start C : Prop := {
  cs_start : matching_start voters K C;
  cs_log i w : C !! i = Some w → disk w = lg0;
  cs_commit i w : C !! i = Some w → hs_Commit (ms_hardState (w_storage w)) ≤ c0;
  cs_snapshot i w : C !! i = Some w → s_Index (ms_snapshot (w_storage w)) ≤ c0;
  cs_range : lg_prev lg0 ≤ c0 ≤ lg_last lg0;
  cs_terms k u : lg_term lg0 k = Some u → u ≤ K ∧ (u = 0 → k = 0);
  cs_sorted k k' u u' : k ≤ k' → lg_term lg0 k = Some u → lg_term lg0 k' = Some u' → u ≤ u';
}.

(** A node that has just started. *)
Lemma start_facts w :
  initial w → ms_valid (w_storage w) → (lg_prev (disk w) = 0 → lg_prev_term (disk w) = 0) →
  all_msgs w = [] ∧ r_ballot (w_raft w) = durable_ballot w ∧
  durable_commit w ≤ l_committed (w_log w) ≤ N.max (lg_prev (disk w)) (durable_commit w) ∧
  ∀ v, at_level w v → v = mem_level w ∨ v = disk_level w.
Proof.
  intros Hini Hv Hz. destruct (start_node w Hini Hv Hz) as (_ & _ & _ & Hu & Hs & _).
  destruct Hini as (rand & c & st & rn & Hst & Hn & ->).
  unfold NewRawNode in Hn. apply outcome_bind_Ok in Hn as (r & Hr & [= <-]).
  destruct (newRaft_ballot _ _ _ Hr) as (st' & hs & cs & Hst1 & Hin & Hb & Hls & _).
  rewrite Hst in Hst1. injection Hst1 as <-. injection Hin as <- <-.
  set (w := MkWorld _ _ _) in *. assert (Hws : w_storage w = st) by exact Hls. rewrite Hws in Hv.
  destruct (newRaft_commit _ _ _ _ Hv Hst Hr) as [Hms Hcm]. split_and!.
  - unfold all_msgs. change (r_msgs (w_raft w)) with (r_msgs r). by rewrite Hms.
  - change (r_ballot r = hs_ballot (ms_hardState (w_storage w))). by rewrite Hws.
  - unfold durable_commit. rewrite Hws. apply Hcm.
  - unfold disk, durable_commit. rewrite Hws. apply Hcm.
  - intros v Hx. destruct Hx as [|rd [=]|rd [=]|rd [=]|]; [by left|by right].
Qed.

Lemma start_based C : common_start C → based c0 lg0 lg0.
Proof. intros Hs. split; [done|done|apply agree_refl|apply Hs]. Qed.

Lemma start_safe C : common_start C → safe (MkGhost (λ _, lg0) (λ _, None)) C.
Proof.
  intros Hcs. pose proof (start_based C Hcs) as Hbase. pose proof Hcs as [Hst Hlog Hcm Hsn Hrange Hterms Hsort].
  set (g := MkGhost _ _).
  assert (Hsound : sound K c0 g lg0).
  { intros k u _ Hu. split; [left; by apply (Hterms k)|apply agree_refl]. }
  assert (Hfine : ∀ t, log_fine K c0 lg0 g t).
  { intros t. split; cbn; try done. intros k Hk. by apply (Hterms k 0). }
  assert (Hnode : ∀ i w, C !! i = Some w → all_msgs w = [] ∧ r_ballot (w_raft w) = durable_ballot w ∧
    rl_log (w_log w) = lg0 ∧ r_state (w_raft w) = StateFollower ∧ l_committed (w_log w) ≤ c0 ∧
    durable_commit w ≤ l_committed (w_log w) ∧ K ≤ (durable_ballot w).1 ∧
    ∀ v, at_level w v → v = mem_level w ∨ v = disk_level w).
  { intros i w Hi. destruct (ms_initial _ _ _ Hst i w Hi) as [Hini _], (ms_storages _ _ _ Hst i w Hi) as [Hv Hz].
    destruct (start_node w Hini Hv (proj2 Hz)) as (_ & Hl & Hs & _).
    destruct (start_facts w Hini Hv (proj2 Hz)) as (Hm & Hb & [Hc1 Hc2] & Hlv).
    pose proof (Hcm i w Hi) as Hc. fold (durable_commit w) in Hc. rewrite (Hlog i w Hi) in Hl, Hc2.
    destruct (ms_terms _ _ _ Hst i w Hi) as [Hte _]. split_and!; try done. lia. }
  split; [split|].
  - done.
  - done.
  - done.
  - intros i w v Hi Hv. destruct (Hnode i w Hi) as (Hm & Hb & Hl & _ & Hc & Hd & HK & Hlv).
    assert (Hse : w_sent w = []).
    { destruct (w_sent w) eqn:E; [done|]. unfold all_msgs in Hm. by rewrite E in Hm. }
    assert (Hfacts : v_log v = lg0 ∧ v_msgs v = [] ∧ v_commit v ≤ c0 ∧ K ≤ (v_ballot v).1).
    { destruct (Hlv v Hv) as [->| ->]; cbn -[durable_ballot r_ballot].
      - rewrite Hb. done.
      - rewrite (Hlog i w Hi). split_and!; try done. lia. }
    destruct Hfacts as (F1 & F2 & F3 & F4). split; rewrite ?F1, ?F2.
    + done.
    + done.
    + intros k u Hu. etrans; [by apply (Hterms k)|done].
    + by intros m T n t j ?%elem_of_nil.
    + by intros m T n ?%elem_of_nil.
    + by left.
    + by intros m T n ?%elem_of_nil.
    + by intros m ?%elem_of_nil.
  - intros i w m Hi Hin. destruct (Hnode i w Hi) as (Hm & _). rewrite Hm in Hin. by apply elem_of_nil in Hin.
  - intros i w Hi. destruct (Hnode i w Hi) as (Hm & Hb & Hl & Hs & Hc & Hd & HK & Hlv). split.
    + intros v Hv. by destruct (Hlv v Hv) as [->| ->].
    + by apply (Hsn i).
    + by rewrite Hs.
    + by rewrite Hs.
Qed.
End Steps.

(** ** Runs *)

Section Runs.
Context `{RaftPB}.
Variables (voters : JointConfig) (K c0 : N) (lg0 : Log).
Hypothesis Hsz : (2 ≤ size (keys (incoming voters)))%nat.
Implicit Types C : cluster.
Notation safe := (safe voters K c0 lg0).

Lemma run_invariants C C' :
  common_start voters K c0 lg0 C → genuine_steps voters C C' → cluster_inv voters C' ∧ match_inv voters K C'.
Proof.
  intros Hcs Hs. apply (faithful_inv voters K (voters_some voters Hsz) C C'); [apply Hcs|by apply genuine_faithful].
Qed.

(** From any point of a run on, what was claimed stays claimed. *)
Lemma run_goes_on C0 C g C' :
  common_start voters K c0 lg0 C0 → genuine_steps voters C0 C → safe g C → genuine_steps voters C C' →
  ∃ g', goes_on voters K c0 lg0 g C g' C'.
Proof.
  intros Hcs Hs0 Hg Hs. induction Hs as [C|C C1 i w ev w' Hs IH Hi Hw Hal Hge Hr].
  - exists g. by split.
  - destruct (IH Hs0 Hg) as (g1 & Hg1 & Hcl1).
    destruct (run_invariants C0 C1 Hcs) as [Hinv Hm]; [by eapply genuine_trans|].
    destruct (safe_step voters K c0 lg0 Hsz) with (g := g1) (C := C1) (i := i) (w := w) (ev := ev) (w' := w')
      as (g2 & Hg2 & Hcl2); try done; [by apply (start_based voters K c0 lg0 C0)|intros k u Hu; by apply (cs_terms _ _ _ _ _ Hcs k)|].
    exists g2. split; [done|]. intros t lg c Hb Hcl. by apply Hcl2, Hcl1.
Qed.
Lemma run_safe C C' :
  common_start voters K c0 lg0 C → genuine_steps voters C C' → ∃ g, safe g C'.
Proof.
  intros Hcs Hs. destruct (run_goes_on C C _ C' Hcs (genuine_refl _ C) (start_safe voters K c0 lg0 Hsz C Hcs) Hs) as (g & Hg & _).
  by exists g.
Qed.

(** Two claims agree as far as both go. *)
Lemma claims_agree g C t t' lg lg' c c' :
  safe g C → based c0 lg0 lg → based c0 lg0 lg' → claimed voters c0 g C t lg c → claimed voters c0 g C t' lg' c' →
  agree lg lg' (N.min c c').
Proof.
  intros [Hc _] Hb Hb' Hcl Hcl'.
  assert (Hlow : ∀ n, n ≤ c0 → agree lg lg' n) by (intros n; by apply (agree_base c0 lg0)).
  destruct Hcl as [?|(u & j & _ & Hch & Hj & Ha)]; [apply Hlow; lia|].
  destruct Hcl' as [?|(u' & j' & _ & Hch' & Hj' & Ha')]; [apply Hlow; lia|].
  assert (Hx : agree (gl g u) (gl g u') (N.min j j')).
  { destruct (N.lt_trichotomy u u') as [Hlt|[->|Hlt]]; [|apply agree_refl|].
    - apply agree_sym, (agree_le _ _ _ j); [lia|].
      apply (co_complete _ _ _ _ _ _ Hc); [done|apply Hch'|by apply chosen_can].
    - apply (agree_le _ _ _ j'); [lia|].
      apply (co_complete _ _ _ _ _ _ Hc); [done|apply Hch|by apply chosen_can]. }
  apply (agree_trans _ (gl g u)); [apply (agree_le _ _ _ c); [lia|done]|].
  apply (agree_trans _ (gl g u')); [apply (agree_le _ _ _ (N.min j j')); [lia|done]|].
  apply agree_sym, (agree_le _ _ _ c'); [lia|done].
Qed.

Lemma node_claim g C i w :
  safe g C → C !! i = Some w → based c0 lg0 (rl_log (w_log w)) ∧
  claimed voters c0 g C (r_Term (w_raft w)) (rl_log (w_log w)) (l_committed (w_log w)).
Proof.
  intros [Hc _] Hi. pose proof (co_level _ _ _ _ _ _ Hc i w (mem_level w) Hi (at_mem w)) as Hl.
  split; [apply Hl|apply (lo_commit _ _ _ _ _ _ _ _ Hl)].
Qed.

(** A leader's log has what is claimed in its term or before. *)
Lemma leader_has g C j v t lg c :
  safe g C → C !! j = Some v → r_state (w_raft v) = StateLeader → t ≤ r_Term (w_raft v) →
  based c0 lg0 lg → claimed voters c0 g C t lg c → agree lg (rl_log (w_log v)) c.
Proof.
  intros Hs Hj Hl Ht Hb Hcl. destruct (node_claim g C j v Hs Hj) as [Hbv _]. destruct Hs as [Hc Hr].
  destruct (ro_lead _ _ _ _ _ (Hr j v Hj) Hl) as (Hw & <- & _).
  destruct Hcl as [?|(u & n & Hu & Hch & Hn & Ha)].
  { apply (agree_base c0 lg0); [done|apply Hc|done]. }
  destruct (decide (u = r_Term (w_raft v))) as [->|Hne]; [done|].
  apply (agree_trans _ (gl g u)); [done|]. apply agree_sym, (agree_le _ _ _ n); [done|].
  apply (co_complete _ _ _ _ _ _ Hc); [lia|by rewrite Hw|by apply chosen_can].
Qed.

(** What a node has committed at a point of a run, seen from a later point. *)
Lemma committed_claim C0 C1 C2 i w :
  common_start voters K c0 lg0 C0 → genuine_steps voters C0 C1 → genuine_steps voters C1 C2 → C1 !! i = Some w →
  ∃ g, safe g C2 ∧ based c0 lg0 (rl_log (w_log w)) ∧
    claimed voters c0 g C2 (r_Term (w_raft w)) (rl_log (w_log w)) (l_committed (w_log w)) ∧
    ∀ k, lg_prev lg0 < k → k ≤ l_committed (w_log w) → ∃ e, lg_entry (rl_log (w_log w)) k = Some e.
Proof.
  intros Hcs H01 H12 Hi. destruct (run_safe C0 C1 Hcs H01) as (g1 & Hg1).
  destruct (run_goes_on C0 C1 g1 C2 Hcs H01 Hg1 H12) as (g2 & Hg2 & Hgo).
  destruct (node_claim g1 C1 i w Hg1 Hi) as [Hb Hc]. destruct (run_invariants C0 C1 Hcs H01) as [_ Hm].
  pose proof (rv_committed _ (li_valid _ (sd_log _ (proj1 (mi_stored _ _ _ Hm i w Hi))))) as Hle.
  exists g2. split_and!; [done|done|by apply Hgo|]. intros k Hk Hkc.
  apply (lg_entry_is_Some (rl_log (w_log w)) k). rewrite (bs_prev _ _ _ Hb). lia.
Qed.
End Runs.

(** ** Driving a run *)

(** What the environment does to a node: a campaign, a proposal, the delivery of the
    [k]-th message that node [j] sent, the stages of a [Ready], and a crash. *)
Inductive deed :=
| DHup | DProp (m : Message) | DRecv (j : N) (k : nat) | DOffer | DAccept | DSave | DSend | DAdvance | DRestart.

Section Drive.
Context `{RaftPB}.
Variable voters : JointConfig.
Implicit Types C : cluster.

Definition with_user w (u : user MemoryStorage) : world := MkWorld u (w_saved w) (w_sent w).
Definition drive_call {A} w (m : M (raft MemoryStorage) A) : option world :=
  match on_raft m (us_rn (w_user w)) with
  | Ok (_, rn) => Some (with_user w (MkUser rn (us_offered (w_user w)) (us_pending (w_user w))))
  | Panic => None
  end.
Definition drive_recv w (m : Message) : option world :=
  if bool_decide (m_Type m ≠ MsgSnap) && negb (m_From m =? None_id) &&
     (N.max (r_Term (w_raft w)) (m_Term m) + 1 <? two64) &&
     (N.max (log_last (w_raft w)) (m_Index m + lenN (m_Entries m)) + lenN (m_Entries m) + 3 <? 9223372036854775808)
  then drive_call w (recv m) else None.

Definition drive_prop w (m : Message) : option world :=
  if bool_decide (m_Type m = MsgProp) && (N.max (r_Term (w_raft w)) (m_Term m) + 1 <? two64) &&
     (log_last (w_raft w) + lenN (m_Entries m) + 3 <? 9223372036854775808)
  then drive_call w (prop m) else None.

(** The settings a node restarts with. *)
Definition restart_config (i : N) (st : MemoryStorage) : raft_Config MemoryStorage :=
  MkRaftConfig i 10 1 (Some st) 4 1024 0 0 4 false false ReadOnlySafe false.
Definition drive_restart w (i : N) : option world :=
  match NewRawNode (λ _, 7%Z) (restart_config i (w_storage w)) with
  | Ok rn =>
      if (r_id (rn_raft rn) =? i) && bool_decide (Voters (t_Config (r_prs (rn_raft rn))) = voters)
      then Some (MkWorld (MkUser rn None None) false (w_sent w)) else None
  | Panic => None
  end.

Definition drive C (i : N) (d : deed) : option world :=
  w ← C !! i;
  let u := w_user w in
  match d with
  | DHup => drive_recv w ((msg MsgHup 0) <| m_From := i |>)
  | DProp m => drive_prop w m
  | DRecv j k =>
      x ← C !! j; m ← w_sent x !! k;
      if (m_To m =? i) && (m_From m =? j) && negb (m_Term m =? 0) then drive_recv w m else None
  | DOffer =>
      match us_pending u, HasReady (us_rn u), readyWithoutAccept (us_rn u) with
      | None, Ok true, Ok (rd, rn) => Some (with_user w (MkUser (us_rn u) (Some rd) None))
      | _, _, _ => None
      end
  | DAccept =>
      match us_offered u, us_pending u with
      | Some rd, None =>
          match acceptReady rd (us_rn u) with
          | Ok (_, rn) => Some (MkWorld (MkUser rn None (Some rd)) false (w_sent w))
          | Panic => None
          end
      | _, _ => None
      end
  | DSave =>
      match us_pending u, w_saved w with
      | Some rd, false =>
          match save_ready rd (w_storage w) with
          | Ok (Val st) =>
              match write_storage st (us_rn u) with
              | Ok (_, rn) => Some (MkWorld (MkUser rn (us_offered u) (Some rd)) true (w_sent w))
              | Panic => None
              end
          | _ => None
          end
      | _, _ => None
      end
  | DSend =>
      match us_pending u, w_saved w with
      | Some rd, true => Some (MkWorld u true (w_sent w ++ rd_Messages rd))
      | _, _ => None
      end
  | DAdvance =>
      match us_pending u, us_offered u, w_saved w with
      | Some rd, None, true =>
          if log_last (w_raft w) + 3 <? 9223372036854775808 then
            match Advance rd (us_rn u) with
            | Ok (_, rn) => Some (MkWorld (MkUser rn None None) false (w_sent w))
            | Panic => None
            end
          else None
      | _, _, _ => None
      end
  | DRestart => drive_restart w i
  end.

Fixpoint drive_all C (ds : list (N * deed)) : option cluster :=
  match ds with
  | [] => Some C
  | (i, d) :: ds => w ← drive C i d; drive_all (<[i := w]> C) ds
  end.

Definition a_step C (i : N) w w' : Prop :=
  ∃ ev, world_step w ev w' ∧ allowed voters C i ev w' ∧ genuine C i ev ∧ has_room w ev.

Lemma drive_call_Ok {A} w (m : M (raft MemoryStorage) A) w' :
  drive_call w m = Some w' → ∃ a rn, on_raft m (us_rn (w_user w)) = Ok (a, rn) ∧
    w' = with_user w (MkUser rn (us_offered (w_user w)) (us_pending (w_user w))).
Proof. unfold drive_call. destruct (on_raft m _) as [[a rn]|]; [|done]. intros [= <-]. by exists a, rn. Qed.

Lemma drive_recv_step C i w m w' :
  drive_recv w m = Some w' →
  (m_Type m ≠ MsgHup → m_Term m ≠ 0 ∧ m_To m = i ∧ ∃ x, C !! m_From m = Some x ∧ m ∈ w_sent x) →
  a_step C i w w'.
Proof.
  unfold drive_recv. destruct (_ && _) eqn:Hb; [|done]. intros (a & rn & Hr & ->)%drive_call_Ok Hg.
  apply andb_prop in Hb as [[[Hsn%bool_decide_eq_true Hfr%negb_true_iff%N.eqb_neq]%andb_prop Hte%N.ltb_lt]%andb_prop Hro%N.ltb_lt].
  destruct a. exists (EUse (URecv m)). split_and!.
  - apply (step_use w (URecv m)).
    + split; [|done]. split; [|done]. intros Hl. apply Hg. by intros E; rewrite E in Hl.
    + destruct w as [[rn0 o p] saved sent]. by apply uses_recv.
  - split; [done|]. intros Ht. apply Hg. by rewrite Ht.
  - intros Ht. apply Hg. intros E. unfold brings in Ht. rewrite E in Ht. by destruct Ht.
  - done.
Qed.
Lemma drive_prop_step C i w m w' : drive_prop w m = Some w' → a_step C i w w'.
Proof.
  unfold drive_prop. destruct (_ && _) eqn:Hb; [|done]. intros (a & rn & Hr & ->)%drive_call_Ok.
  apply andb_prop in Hb as [[Ht%bool_decide_eq_true Hte%N.ltb_lt]%andb_prop Hro%N.ltb_lt].
  exists (EUse (UProp m)). split_and!; try done. apply (step_use w (UProp m)); [done|].
  destruct w as [[rn0 o p] saved sent]. by apply (uses_prop rn0 o p m a).
Qed.

Lemma drive_restart_step C i w w' : drive_restart w i = Some w' → a_step C i w w'.
Proof.
  unfold drive_restart. destruct (NewRawNode _ _) as [rn|] eqn:Hn; [|done]. destruct (_ && _) eqn:Hb; [|done].
  apply andb_prop in Hb as [Hid%N.eqb_eq Hv%bool_decide_eq_true]. intros [= <-]. exists ERestart.
  split_and!; try done. by apply (step_restart w (λ _, 7%Z) (restart_config i (w_storage w))).
Qed.

Lemma drive_step C i d w' : drive C i d = Some w' → ∃ w, C !! i = Some w ∧ a_step C i w w'.
Proof.
  unfold drive. destruct (C !! i) as [w|] eqn:Hi; [|done]. cbn [mbind option_bind]. intros Hd. exists w. split; [done|].
  destruct d as [|m|j k| | | | | |].
  - by apply (drive_recv_step C i) in Hd.
  - by apply (drive_prop_step C i w m).
  - destruct (C !! j) as [x|] eqn:Hj; [|done]. cbn [mbind option_bind] in Hd.
    destruct (w_sent x !! k) as [m|] eqn:Hk; [|done]. cbn [mbind option_bind] in Hd.
    destruct (_ && _) eqn:Hb; [|done].
    apply andb_prop in Hb as [[Hto%N.eqb_eq Hfr%N.eqb_eq]%andb_prop Hte%negb_true_iff%N.eqb_neq].
    apply (drive_recv_step C i w m w' Hd). intros _. split_and!; [done|done|]. exists x. rewrite Hfr. split; [done|].
    by eapply list_elem_of_lookup_2.
  - destruct (us_pending (w_user w)) eqn:Hp; [done|]. destruct (HasReady _) as [[]|] eqn:Hh; try done.
    destruct (readyWithoutAccept _) as [[rd rn]|] eqn:Hr; [|done]. injection Hd as <-. exists (EUse UOffer).
    pose proof (readyWithoutAccept_Ok _ _ _ Hr) as [-> _].
    split_and!; try done. apply (step_use w UOffer); [exact I|]. destruct w as [[rn0 o p] saved sent]. cbn in *. subst p.
    by apply uses_offer.
  - destruct (us_offered (w_user w)) as [rd|] eqn:Ho; [|done]. destruct (us_pending (w_user w)) eqn:Hp; [done|].
    destruct (acceptReady _ _) as [[[] rn]|] eqn:Hr; [|done]. injection Hd as <-. exists (EAccept rd).
    split_and!; try done. destruct w as [[rn0 o p] saved sent]. cbn in *. subst.
    apply (step_accept (MkWorld (MkUser rn0 (Some rd) None) saved sent) rd). by apply uses_accept.
  - destruct (us_pending (w_user w)) as [rd|] eqn:Hp; [|done]. destruct (w_saved w) eqn:Hs; [done|].
    destruct (save_ready _ _) as [[st|]|] eqn:Hsv; try done.
    destruct (write_storage st _) as [[[] rn]|] eqn:Hw; [|done]. injection Hd as <-. exists ESave.
    split_and!; try done. by apply (step_save w rd st rn).
  - destruct (us_pending (w_user w)) as [rd|] eqn:Hp; [|done]. destruct (w_saved w) eqn:Hs; [|done].
    injection Hd as <-. exists ESend. split_and!; try done. by apply step_send.
  - destruct (us_pending (w_user w)) as [rd|] eqn:Hp; [|done]. destruct (us_offered (w_user w)) eqn:Ho; [done|].
    destruct (w_saved w) eqn:Hs; [|done]. destruct (_ <? _) eqn:Hr; [|done]. apply N.ltb_lt in Hr.
    destruct (Advance rd _) as [[[] rn]|] eqn:Ha; [|done]. injection Hd as <-. exists EAdvance.
    split_and!; try done. apply (step_advance w (MkUser rn None None)); [done|].
    destruct w as [[rn0 o p] saved sent]. cbn in *. subst. by apply uses_advance.
  - by apply drive_restart_step.
Qed.

Lemma drive_all_steps C ds C' : drive_all C ds = Some C' → genuine_steps voters C C'.
Proof.
  revert C. induction ds as [|[i d] ds IH]; intros C; cbn [drive_all]; [intros [= <-]; constructor|].
  destruct (drive C i d) as [w'|] eqn:Hd; [|done]. cbn [mbind option_bind]. intros Hds.
  destruct (drive_step C i d w' Hd) as (w & Hi & ev & Hs & Hal & Hg & Hr).
  apply (genuine_trans voters C (<[i := w']> C)); [|by apply IH].
  by apply (genuine_snoc voters C C i w ev w'); [constructor|..].
Qed.
End Drive.

(** ** Properties *)

#[local] Existing Instance ex_pb.

(** A run of the cluster of the file Cluster.  Node 1 is elected in term 3, its first
    entry is replicated to node 2 and committed ([ex_S1]); a proposal follows, and is
    committed by node 1 ([ex_S2]); node 2, which does not know that yet, crashes,
    restarts and wins term 4 ([ex_S3]). *)
Definition ex_round (i : N) : list (N * deed) := [(i, DOffer); (i, DAccept); (i, DSave); (i, DSend); (i, DAdvance)].
Definition ex_elect : list (N * deed) :=
  (1, DHup) :: ex_round 1 ++ (2, DRecv 1 0) :: ex_round 2 ++ (1, DRecv 2 0) :: ex_round 1 ++
  (2, DRecv 1 2) :: ex_round 2 ++ [(1, DRecv 2 1)].
Definition ex_put : Message := (msg MsgProp 0) <| m_Entries := [Entry_zero] |>.
Definition ex_commit : list (N * deed) :=
  (1, DProp ex_put) :: ex_round 1 ++ (2, DRecv 1 5) :: ex_round 2 ++ [(1, DRecv 2 2)].
Definition ex_again : list (N * deed) :=
  (2, DRestart) :: (2, DHup) :: ex_round 2 ++ (1, DRecv 2 3) :: ex_round 1 ++ [(2, DRecv 1 7)].
Definition ex_S1 : cluster := default ∅ (drive_all ex_voters ex_C0 ex_elect).
Definition ex_S2 : cluster := default ∅ (drive_all ex_voters ex_S1 ex_commit).
Definition ex_S3 : cluster := default ∅ (drive_all ex_voters ex_S2 ex_again).
Definition ex_node (C : cluster) (i : N) : world := default (ex_fresh ex_rn) (C !! i).

Lemma ex_S1_ok : drive_all ex_voters ex_C0 ex_elect = Some ex_S1.
Proof. vm_compute. reflexivity. Qed.
Lemma ex_S2_ok : drive_all ex_voters ex_S1 ex_commit = Some ex_S2.
Proof. vm_compute. reflexivity. Qed.
Lemma ex_S3_ok : drive_all ex_voters ex_S2 ex_again = Some ex_S3.
Proof. vm_compute. reflexivity. Qed.
Lemma ex_S1_one : ex_S1 !! 1 = Some (ex_node ex_S1 1).
Proof. vm_compute. reflexivity. Qed.
Lemma ex_S2_one : ex_S2 !! 1 = Some (ex_node ex_S2 1).
Proof. vm_compute. reflexivity. Qed.
Lemma ex_S3_two : ex_S3 !! 2 = Some (ex_node ex_S3 2).
Proof. vm_compute. reflexivity. Qed.
Lemma ex_run12 : genuine_steps ex_voters ex_S1 ex_S2.
Proof. exact (drive_all_steps _ _ _ _ ex_S2_ok). Qed.
Lemma ex_run23 : genuine_steps ex_voters ex_S2 ex_S3.
Proof. exact (drive_all_steps _ _ _ _ ex_S3_ok). Qed.
Lemma ex_run01 : genuine_steps ex_voters ex_C0 ex_S1.
Proof. exact (drive_all_steps _ _ _ _ ex_S1_ok). Qed.

Definition ex_log0 : Log := ms_log ex_node_storage.
Lemma ex_log0_terms k u : lg_term ex_log0 k = Some u → (k = 3 ∧ u = 1) ∨ (k = 4 ∧ u = 1) ∨ (k = 5 ∧ u = 2).
Proof.
  intros Hu. assert (Hs : is_Some (lg_term ex_log0 k)) by by eexists. apply lg_term_is_Some in Hs.
  assert (Hr : lg_prev ex_log0 = 3 ∧ lg_last ex_log0 = 5) by by vm_compute. destruct Hr as [Hp Hl]. rewrite Hp, Hl in Hs.
  assert (Hk : k = 3 ∨ k = 4 ∨ k = 5) by lia. destruct Hk as [->|[->| ->]]; vm_compute in Hu; injection Hu as <-; auto.
Qed.
Lemma ex_common_start : common_start ex_voters 2 5 ex_log0 ex_C0.
Proof.
  assert (Hn : ∀ i w, ex_C0 !! i = Some w → w_storage w = ex_node_storage).
  { intros i w. unfold ex_C0. intros [(<- & <-)|[_ (<- & <-)%lookup_singleton_Some]]%lookup_insert_Some;
      vm_compute; reflexivity. }
  split.
  - exact ex_matching_start.
  - intros i w Hi. unfold disk. by rewrite (Hn i w Hi).
  - intros i w Hi. rewrite (Hn i w Hi). by vm_compute.
  - intros i w Hi. rewrite (Hn i w Hi). by vm_compute.
  - by vm_compute.
  - intros k u Hu. apply ex_log0_terms in Hu. lia.
  - intros k k' u u' Hk Hu Hu'. apply ex_log0_terms in Hu, Hu'. lia.
Qed.

(** C1: State machine safety, with fixed voters of which there are at least two.
    Whatever a node has committed at some time of a run, every node that has
    committed the same index, then or later, has committed the same entry.  Messages
    may be lost, delayed, duplicated and reordered, and nodes may crash at any time
    and restart from what they saved. *)
Theorem state_machine_safety `{RaftPB} (voters : JointConfig) (K c0 : N) (lg0 : Log) (C0 C1 C2 : cluster)
    (i j : N) (w v : world) (k : N) :
  (2 ≤ size (keys (incoming voters)))%nat → common_start voters K c0 lg0 C0 →
  genuine_steps voters C0 C1 → genuine_steps voters C1 C2 → C1 !! i = Some w → C2 !! j = Some v →
  lg_prev lg0 < k → k ≤ l_committed (w_log w) → k ≤ l_committed (w_log v) →
  ∃ e, lg_entry (rl_log (w_log w)) k = Some e ∧ lg_entry (rl_log (w_log v)) k = Some e.
Proof.
  intros Hsz Hcs H01 H12 Hi Hj Hk Hw Hv.
  destruct (committed_claim voters K c0 lg0 Hsz C0 C1 C2 i w Hcs H01 H12 Hi) as (g & Hg & Hb & Hcl & Hsome).
  destruct (node_claim voters K c0 lg0 g C2 j v Hg Hj) as [Hbv Hcv]. destruct (Hsome k Hk Hw) as [e He].
  exists e. split; [done|]. rewrite <- He. symmetry.
  assert (Ha : agree (rl_log (w_log w)) (rl_log (w_log v)) (N.min (l_committed (w_log w)) (l_committed (w_log v)))).
  { by eapply claims_agree. }
  apply Ha. lia.
Qed.

(** Node 1 committed its entry 6 as the leader of term 3, node 2 has committed it
    too when it leads term 4. *)
Lemma state_machine_safety_witness :
  l_committed (w_log (ex_node ex_S1 1)) = 6 ∧ l_committed (w_log (ex_node ex_S3 2)) = 6 ∧
  ∃ e, lg_entry (rl_log (w_log (ex_node ex_S1 1))) 6 = Some e ∧ lg_entry (rl_log (w_log (ex_node ex_S3 2))) 6 = Some e.
Proof.
  assert (H1 : l_committed (w_log (ex_node ex_S1 1)) = 6) by (vm_compute; reflexivity).
  assert (H2 : l_committed (w_log (ex_node ex_S3 2)) = 6) by (vm_compute; reflexivity).
  split; [exact H1|]. split; [exact H2|].
  apply (state_machine_safety ex_voters 2 5 ex_log0 ex_C0 ex_S1 ex_S3 1 2).
  - vm_compute. lia.
  - exact ex_common_start.
  - exact ex_run01.
  - exact (genuine_trans _ _ _ _ ex_run12 ex_run23).
  - exact ex_S1_one.
  - exact ex_S3_two.
  - vm_compute. reflexivity.
  - rewrite H1. apply N.le_refl.
  - rewrite H2. apply N.le_refl.
Defined.

(** C2: Leader completeness.  A leader has every entry that a node has committed in
    its term or an earlier one, even if it does not know yet that they are committed. *)
Theorem leader_completeness `{RaftPB} (voters : JointConfig) (K c0 : N) (lg0 : Log) (C0 C1 C2 : cluster)
    (i j : N) (w v : world) (k : N) :
  (2 ≤ size (keys (incoming voters)))%nat → common_start voters K c0 lg0 C0 →
  genuine_steps voters C0 C1 → genuine_steps voters C1 C2 → C1 !! i = Some w → C2 !! j = Some v →
  r_state (w_raft v) = StateLeader → r_Term (w_raft w) ≤ r_Term (w_raft v) →
  lg_prev lg0 < k → k ≤ l_committed (w_log w) →
  ∃ e, lg_entry (rl_log (w_log w)) k = Some e ∧ lg_entry (rl_log (w_log v)) k = Some e.
Proof.
  intros Hsz Hcs H01 H12 Hi Hj Hl Ht Hk Hw.
  destruct (committed_claim voters K c0 lg0 Hsz C0 C1 C2 i w Hcs H01 H12 Hi) as (g & Hg & Hb & Hcl & Hsome).
  destruct (Hsome k Hk Hw) as [e He]. exists e. split; [done|]. rewrite <- He. symmetry.
  assert (Ha : agree (rl_log (w_log w)) (rl_log (w_log v)) (l_committed (w_log w))) by by eapply leader_has.
  by apply Ha.
Qed.

(** Node 1 alone knows that the proposal at 7 is committed; the next leader has it. *)
Lemma leader_completeness_witness :
  l_committed (w_log (ex_node ex_S2 1)) = 7 ∧ l_committed (w_log (ex_node ex_S3 2)) = 6 ∧
  ∃ e, lg_entry (rl_log (w_log (ex_node ex_S2 1))) 7 = Some e ∧ lg_entry (rl_log (w_log (ex_node ex_S3 2))) 7 = Some e.
Proof.
  assert (H1 : l_committed (w_log (ex_node ex_S2 1)) = 7) by (vm_compute; reflexivity).
  split; [exact H1|]. split; [vm_compute; reflexivity|].
  apply (leader_completeness ex_voters 2 5 ex_log0 ex_C0 ex_S2 ex_S3 1 2).
  - vm_compute. lia.
  - exact ex_common_start.
  - exact (genuine_trans _ _ _ _ ex_run01 ex_run12).
  - exact ex_run23.
  - exact ex_S2_one.
  - exact ex_S3_two.
  - vm_compute. reflexivity.
  - vm_compute. discriminate.
  - vm_compute. reflexivity.
  - rewrite H1. apply N.le_refl.
Defined.

(** One voter is not enough for that: it commits what it proposes in memory, before it
    has saved it, and after a crash it proposes something else.  (It hands out an
    entry as committed only together with the order to save it.) *)
Definition ex_solo_storage : MemoryStorage :=
  MkMemoryStorage (MkHardState 2 0 5) (MkSnapshot "" (MkConfState [1] [] [] [] false) 3 1)
    [dummy_entry 1 3; ex_entry 1 4; ex_entry 2 5].
Definition ex_solo : RawNode MemoryStorage :=
  match NewRawNode (λ _, 7%Z) (restart_config 1 ex_solo_storage) with Ok rn => rn | Panic => ex_rn end.
Definition ex_solo_voters : JointConfig := Voters (t_Config (r_prs (rn_raft ex_solo))).
Definition ex_solo_put (e : Entry) : Message := (msg MsgProp 0) <| m_Entries := [e] |>.
Definition ex_solo0 : cluster := {[1 := ex_fresh ex_solo]}.
Definition ex_solo1 : cluster :=
  default ∅ (drive_all ex_solo_voters ex_solo0 [(1, DHup); (1, DProp (ex_solo_put (MkEntry 0 0 EntryNormal "x")))]).
Definition ex_solo2 : cluster :=
  default ∅ (drive_all ex_solo_voters ex_solo1 [(1, DRestart); (1, DHup); (1, DProp (ex_solo_put Entry_zero))]).
Lemma ex_solo_start : common_start ex_solo_voters 2 5 ex_log0 ex_solo0.
Proof.
  assert (Hn : ∀ i w, ex_solo0 !! i = Some w → i = 1 ∧ w = ex_fresh ex_solo ∧ w_storage w = ex_solo_storage).
  { intros i w. unfold ex_solo0. intros (<- & <-)%lookup_singleton_Some. split; [done|]. split; [done|].
    vm_compute. reflexivity. }
  assert (Hd : ∀ i w, ex_solo0 !! i = Some w → disk w = ex_log0).
  { intros i w Hi. unfold disk. destruct (Hn i w Hi) as (_ & _ & ->). vm_compute. reflexivity. }
  split; [split|..].
  - intros i w Hi. destruct (Hn i w Hi) as (-> & -> & _). split; [|vm_compute; split_and!; done].
    exists (λ _, 7%Z), (restart_config 1 ex_solo_storage), ex_solo_storage, ex_solo. vm_compute. by split_and!.
  - intros i w Hi. destruct (Hn i w Hi) as (_ & _ & Hs). rewrite Hs, (Hd i w Hi). split; [|by vm_compute].
    split; [done|]. split; [|vm_compute; done..].
    cbn. repeat (apply contiguous_cons; split; [done|]). apply contiguous_nil.
  - intros i w Hi. destruct (Hn i w Hi) as (_ & _ & Hs). rewrite Hs, (Hd i w Hi). split; [by vm_compute|].
    intros e He. assert (Hall : Forall (λ e, 0 < e_Term e ≤ 2) (lg_ents ex_log0)) by vm_decide.
    rewrite Forall_forall in Hall. by apply Hall.
  - intros i j w v Hi Hj. rewrite (Hd i w Hi), (Hd j v Hj). by intros k t _ _ l _ _ _.
  - exact Hd.
  - intros i w Hi. destruct (Hn i w Hi) as (_ & _ & ->). by vm_compute.
  - intros i w Hi. destruct (Hn i w Hi) as (_ & _ & ->). by vm_compute.
  - by vm_compute.
  - intros k u Hu. apply ex_log0_terms in Hu. lia.
  - intros k k' u u' Hk Hu Hu'. apply ex_log0_terms in Hu, Hu'. lia.
Qed.

Lemma one_voter_forgets :
  common_start ex_solo_voters 2 5 ex_log0 ex_solo0 ∧ genuine_steps ex_solo_voters ex_solo0 ex_solo1 ∧
  genuine_steps ex_solo_voters ex_solo1 ex_solo2 ∧ size (keys (incoming ex_solo_voters)) = 1%nat ∧
  l_committed (w_log (ex_node ex_solo1 1)) = 7 ∧ l_committed (w_log (ex_node ex_solo2 1)) = 7 ∧
  lg_entry (rl_log (w_log (ex_node ex_solo1 1))) 7 ≠ lg_entry (rl_log (w_log (ex_node ex_solo2 1))) 7.
Proof.
  split; [exact ex_solo_start|].
  split; [apply (drive_all_steps _ _ [(1, DHup); (1, DProp (ex_solo_put (MkEntry 0 0 EntryNormal "x")))]); vm_compute; reflexivity|].
  split; [apply (drive_all_steps _ _ [(1, DRestart); (1, DHup); (1, DProp (ex_solo_put Entry_zero))]); vm_compute; reflexivity|].
  by vm_compute.
Qed.
