(* ===== verification/AppNode.v ===== *)
(** * The application node (raft/node.go)

    The node of the example application: it starts the raft goroutine, and its
    loop ticks it, takes each [Ready], writes to the storage, sends the messages
    and applies the committed entries to the key-value store.  A method is a
    computation over the record [appNode] that returns, blocks the calling goroutine
    forever ([Stuck]), ends the process ([Exits], for [log.Fatal]) or panics
    ([Crashes]).  [ap_loop] is where the goroutine of [raftloop] is.  The cases of the
    loop and the calls of other goroutines are run one after the other: a call that
    comes while a case runs is one that comes when it has ended.

    The raft goroutine is the loop of the file Node.  A call of the application
    into it is served after any requests of other goroutines that come first:
    [ap_others] lists them, one list per call, so that every interleaving at the
    channel operations is an instance of the model.  The storage object is shared
    with the raft goroutine, so it is the one inside the running node. *)

From S2P Require Import Prelude Pb Quorum Inflights Progress Tracker Confchange.
From S2P Require Import Util Storage Unstable RaftLog ReadOnly Raft RawNode Node App.
From S2P Require Import RaftFrame RaftSafety Runs.

(** ** Computations of the application *)

Inductive app_outcome (St A : Type) : Type :=
| Returns (a : A) (s : St)
| Stuck (s : St)
| Exits
| Crashes.
Arguments Returns {St A} a s.
Arguments Stuck {St A} s.
Arguments Exits {St A}.
Arguments Crashes {St A}.

Definition AppM (St A : Type) : Type := St → app_outcome St A.
#[global] Instance AppM_ret {St} : MRet (AppM St) := λ A a s, Returns a s.
#[global] Instance AppM_bind {St} : MBind (AppM St) := λ A B f m s,
  match m s with
  | Returns a s => f a s
  | Stuck s => Stuck s
  | Exits => Exits
  | Crashes => Crashes
  end.

(** Where the goroutine of [raftloop] is: there is none, it waits at the [select],
    or it runs one of the cases. *)
Inductive place : Set := NoLoop | AtSelect | InCase.
#[export] Instance place_eq_dec : EqDecision place.
Proof. solve_decision. Defined.

Section Node_app.
Context `{RaftPB} `{Codec}.

(** [node] of package main.  [ap_storage] is the storage object as long as no
    raft goroutine has it; [ap_sent] is what was handed to the transport. *)
Record appNode := MkApp {
  ap_rn : option (node MemoryStorage);
  ap_ID : N;
  ap_peers : list Peer;
  ap_storage : MemoryStorage;
  ap_state : nodeState;
  ap_kv : kvApp;
  ap_sent : list Message;
  ap_loop : place;
  ap_others : list (list request);
}.

Let rebuild (a : appNode) : appNode :=
  MkApp (ap_rn a) (ap_ID a) (ap_peers a) (ap_storage a) (ap_state a) (ap_kv a) (ap_sent a)
    (ap_loop a) (ap_others a).
#[global] Instance upd_ap_rn : Update ap_rn := ltac:(update_of rebuild ap_rn).
#[global] Instance upd_ap_storage : Update ap_storage := ltac:(update_of rebuild ap_storage).
#[global] Instance upd_ap_state : Update ap_state := ltac:(update_of rebuild ap_state).
#[global] Instance upd_ap_kv : Update ap_kv := ltac:(update_of rebuild ap_kv).
#[global] Instance upd_ap_sent : Update ap_sent := ltac:(update_of rebuild ap_sent).
#[global] Instance upd_ap_loop : Update ap_loop := ltac:(update_of rebuild ap_loop).
#[global] Instance upd_ap_others : Update ap_others := ltac:(update_of rebuild ap_others).

Notation A := (AppM appNode).

Definition a_gets {B} (f : appNode → B) : A B := λ a, Returns (f a) a.
Definition a_modify (f : appNode → appNode) : A unit := λ a, Returns tt (f a).
Definition a_when (b : bool) (m : A unit) : A unit := if b then m else mret tt.
Definition a_stuck {B} : A B := λ a, Stuck a.
Definition a_exit {B} : A B := λ _, Exits.
(** An update of the node state, with the flag it returns. *)
Definition on_state {B} (f : nodeState → B * nodeState) : A B := λ a,
  Returns (f (ap_state a)).1 (a <| ap_state := (f (ap_state a)).2 |>).

(** [newNode]: the peers are numbered from 1.  What concerns the transport is in
    the file Transport. *)
Definition newAppNode (ID : N) (peers : list string) (kvapp : kvApp) : appNode :=
  MkApp None ID (imap (λ i p, MkPeer (N.of_nat i + 1) p) peers) NewMemoryStorage newNodeState
    kvapp [] NoLoop [].

(** The storage object. *)
Definition storage_of (a : appNode) : MemoryStorage :=
  match ap_rn a with
  | Some n => l_storage (r_raftLog (rn_raft (n_rn n)))
  | None => ap_storage a
  end.
Definition set_storage (ms : MemoryStorage) (a : appNode) : appNode :=
  match ap_rn a with
  | Some n => a <| ap_rn := Some (n <| n_rn ::= λ rn, rn <| rn_raft ::= λ r,
                r <| r_raftLog ::= λ l, l <| l_storage := ms |> |> |> |>) |>
  | None => a <| ap_storage := ms |>
  end.

(** ** Calls into the raft goroutine *)

(** Serves the requests of other goroutines that can be served. *)
Fixpoint serve_others (qs : list request) (n : node MemoryStorage) : outcome (node MemoryStorage) :=
  match qs with
  | [] => Ok n
  | q :: qs => '(_, n) ← run_step q n; serve_others qs n
  end.

(** A call that blocks until the raft goroutine serves it or has been stopped;
    [None] is the case of [done]. *)
Definition rn_call (q : request) : A (option answer) := λ a,
  match ap_rn a with
  | None => Crashes
  | Some n =>
      match serve_others (default [] (head (ap_others a))) n with
      | Panic => Crashes
      | Ok n =>
          let a := a <| ap_others ::= tail |> in
          if n_done n then Returns None (a <| ap_rn := Some n |>)
          else match run_step q n with
               | Panic => Crashes
               | Ok (None, n) => Stuck (a <| ap_rn := Some n |>)
               | Ok (Some ans, n) => Returns (Some ans) (a <| ap_rn := Some n |>)
               end
      end
  end.
(** The tick, which never blocks. *)
Definition rn_Tick : A unit := λ a,
  match ap_rn a with
  | None => Crashes
  | Some n => match node_Tick true n with
              | Ok (_, n) => Returns tt (a <| ap_rn := Some n |>)
              | Panic => Crashes
              end
  end.

(** ** Start and stop *)

(** The configuration in [node.Start]. *)
Definition start_config (a : appNode) : raft_Config MemoryStorage :=
  MkRaftConfig (ap_ID a) 10 1 (Some (storage_of a)) 0 (1024 * 1024) 0 (N.shiftl 1 30) 256
    false false ReadOnlySafe false.

(** [raft.StartNode] and [node.Start]. *)
Definition start_raft (rand : nat → Z) : A unit := λ a,
  match StartNode rand (start_config a) (ap_peers a) with
  | Ok n => Returns tt (a <| ap_rn := Some n |>)
  | Panic => Crashes
  end.
Definition node_Start (rand : nat → Z) : A unit :=
  running ← a_gets (λ a, ns_running (ap_state a));
  if running : bool then mret tt
  else
    a_modify (λ a, set_storage (ms_Reset (storage_of a)) a);;
    start_raft rand;;
    on_state (λ s, (tt, SetRunning true s));;
    a_modify (λ a, a <| ap_loop := AtSelect |>).

(** A send on [doneChan].  The channel has no buffer and its only receiver is the
    third case of the loop, which then returns: the send is served while the loop
    waits at its [select], and otherwise blocks the sender. *)
Definition done_send : A unit := λ a,
  match ap_loop a with
  | AtSelect => Returns tt (a <| ap_loop := NoLoop |>)
  | NoLoop | InCase => Stuck a
  end.
(** [node.Stop]. *)
Definition app_Stop : A unit :=
  running ← a_gets (λ a, ns_running (ap_state a));
  if negb running then mret tt
  else
    done_send;;
    _ ← rn_call OnStop;
    on_state (λ s, (tt, SetRunning false s)).

(** [node.ResetStorage]: [n.wal] is never set; [removed] is what
    [os.RemoveAll] returns. *)
Definition ResetStorage (removed : option error) : A (option error) :=
  a_modify (λ a, set_storage (ms_Reset (storage_of a)) a);; mret removed.

(** [node.Restart]. *)
Definition node_Restart (rand : nat → Z) (removed : option error) : A (option error) :=
  app_Stop;;
  err ← ResetStorage removed;
  match err with
  | Some _ => mret (Some (ErrMsg "failed to reset storage"))
  | None => node_Start rand;; mret None
  end.

(** ** Applying entries *)

(** [n.kvApp.Set]. *)
Definition kv_set (data : string) : A unit := λ a,
  match KV_Set data (ap_kv a) with
  | Ok (_, m) => Returns tt (a <| ap_kv := m |>)
  | Panic => Crashes
  end.

(** [cc.Unmarshal] into an empty change; its error is ignored. *)
Definition V1_decode (data : string) : ConfChange :=
  match V1_Unmarshal data with
  | Val cc => cc
  | Err _ => V1_partial data
  end.

(** The body of the loop of [applyEntries]; false is the early return.  The
    transport's [AddPeer] and [RemovePeer] do nothing (file Transport). *)
Definition apply_entry (e : Entry) : A bool :=
  _ ← on_state (UpdateCommitIndex (e_Index e));
  match e_Type e with
  | EntryNormal =>
      if (String.length (e_Data e) =? 0)%nat then mret true
      else kv_set (e_Data e);; mret true
  | EntryConfChange =>
      let cc := V1_decode (e_Data e) in
      ans ← rn_call (node_ApplyConfChange (inl cc));
      let cs := ApplyConfChange_result (match ans with Some a => Chosen _ a | None => NodeDone _ end) in
      on_state (λ s, (tt, UpdateConfState cs s));;
      self ← a_gets ap_ID;
      match ccv1_Type cc with
      | ConfChangeRemoveNode =>
          if ccv1_NodeID cc =? self then app_Stop;; mret false else mret true
      | _ => mret true
      end
  | EntryConfChangeV2 => mret true
  end.
Fixpoint apply_each (entries : list Entry) : A unit :=
  match entries with
  | [] => mret tt
  | e :: entries =>
      go ← apply_entry e;
      if go : bool then apply_each entries else mret tt
  end.

(** The part of the batch that [applyEntries] applies, given the index it has
    recorded. *)
Definition trim_applied (commitIndex : N) (e : Entry) (entries : list Entry) : list Entry :=
  let k := commitIndex -u e_Index e +u 1 in
  if k <? lenN entries then drop (N.to_nat k) entries else entries.

(** [applyEntries]. *)
Definition applyEntries (entries : list Entry) : A unit :=
  match entries with
  | [] => mret tt
  | e :: _ =>
      commitIndex ← a_gets (λ a, ns_commitIndex (ap_state a));
      if commitIndex +u 1 <? e_Index e then a_exit
      else apply_each (trim_applied commitIndex e entries)
  end.

(** ** The loop *)

(** [sendMessages]: a snapshot message gets the recorded configuration. *)
Definition sendMessages (msgs : list Message) : A unit :=
  cs ← a_gets (λ a, ns_confState (ap_state a));
  a_modify (λ a, a <| ap_sent ::= λ l, l ++
    map (λ m, if decide (m_Type m = MsgSnap)
              then m <| m_Snapshot ::= λ s, s <| s_ConfState := cs |> |> else m) msgs |>).

(** The writes of the loop to the storage; an error of [ApplySnapshot] is dropped. *)
Definition save_snapshot (s : Snapshot) : A unit :=
  a_modify (λ a, match ApplySnapshot (storage_of a) s with
                 | Val ms => set_storage ms a
                 | Err _ => a
                 end).
Definition save_entries (entries : list Entry) : A unit := λ a,
  match Append (storage_of a) entries with
  | Ok ms => Returns tt (set_storage ms a)
  | Panic => Crashes
  end.

(** The loop looks at [IsRunning] and waits at its [select]; then it runs a case and
    comes back. *)
Definition at_select : A unit := λ a,
  if ns_running (ap_state a) && bool_decide (ap_loop a = AtSelect) then Returns tt a else Stuck a.
Definition run_case (body : A unit) : A unit :=
  a_modify (λ a, a <| ap_loop := InCase |>);; body;; a_modify (λ a, a <| ap_loop := AtSelect |>).

(** The case of the ticker in [raftloop]. *)
Definition process_tick : A unit :=
  rn_Tick;;
  ans ← rn_call node_Status;
  let '(term, st) :=
    match ans with
    | Some (AnsStatus st) =>
        (hs_Term (st_HardState (st_Basic st)), (st_SoftState (st_Basic st)).2)
    | _ => (0, StateFollower)
    end in
  _ ← on_state (UpdateRaftState st);
  _ ← on_state (UpdateTermState term);
  mret tt.
Definition raftloop_tick : A unit := at_select;; run_case process_tick.

(** The case of a [Ready]. *)
Definition process_ready (rd : Ready) : A unit :=
  _ ← on_state (UpdateTermState (hs_Term (rd_HardState rd)));
  a_when (negb (IsEmptySnap (rd_Snapshot rd))) (save_snapshot (rd_Snapshot rd));;
  save_entries (rd_Entries rd);;
  sendMessages (rd_Messages rd);;
  applyEntries (rd_CommittedEntries rd);;
  _ ← rn_call node_Advance;
  mret tt.
Definition raftloop_ready : A unit :=
  at_select;;
  ans ← rn_call OnReady;
  match ans with
  | Some (AnsReady rd) => run_case (process_ready rd)
  | _ => a_stuck
  end.

(** ** The entry points of other goroutines *)

(** [node.Process]. *)
Definition node_Process (m : Message) : A (option error) :=
  running ← a_gets (λ a, ns_running (ap_state a));
  if negb running then mret None
  else match node_Step m with
       | None => mret None
       | Some q =>
           ans ← rn_call q;
           mret (stepWithWaitOption m false
                   (match ans with Some _ => Chosen _ tt | None => NodeDone _ end) (NodeDone _))
       end.
(** [node.Propose] and [node.ProposeConfChange]. *)
Definition app_Propose (data : string) : A (option error) :=
  ans ← rn_call (node_Propose data);
  mret (match ans with
        | Some (AnsErr e) => e
        | Some _ => None
        | None => Some ErrStopped
        end).
Definition app_ProposeConfChange (cc : ConfChange) : A unit :=
  match node_ProposeConfChange (inl cc) with
  | Err _ | Val None => mret tt
  | Val (Some q) => _ ← rn_call q; mret tt
  end.
(** [node.Ready]. *)
Definition node_Ready (a : appNode) : bool := bool_decide (ap_rn a ≠ None).
End Node_app.

(** ** What the calls leave alone *)

(** The application's own fields; a call into the raft goroutine leaves them. *)
Definition same_app `{RaftPB} (a a' : appNode) : Prop :=
  ap_state a' = ap_state a ∧ ap_kv a' = ap_kv a ∧ ap_sent a' = ap_sent a ∧
  ap_ID a' = ap_ID a ∧ ap_peers a' = ap_peers a ∧ ap_loop a' = ap_loop a.

Section Calls.
Context `{RaftPB} `{Codec}.
Implicit Types a : appNode.

Lemma bind_Returns {St A B} (m : AppM St A) (f : A → AppM St B) s b s' :
  (m ≫= f) s = Returns b s' → ∃ x s1, m s = Returns x s1 ∧ f x s1 = Returns b s'.
Proof. unfold mbind, AppM_bind. destruct (m s) as [x s1| | |]; [eauto|done..]. Qed.

Lemma rn_call_same q a ans a' : rn_call q a = Returns ans a' → same_app a a'.
Proof.
  unfold rn_call. destruct (ap_rn a) as [n|]; [|done]. destruct (serve_others _ _) as [n1|]; [|done].
  cbn. destruct (n_done n1); [by intros [= <- <-]|].
  destruct (run_step q n1) as [[[x|] n2]|]; [|done..]. by intros [= <- <-].
Qed.

(** The loop runs a case. *)
Definition in_case a : Prop := ns_running (ap_state a) = true ∧ ap_loop a = InCase.

(** Nobody receives from [doneChan] while it does. *)
Lemma app_Stop_in_case a : in_case a → app_Stop a = Stuck a.
Proof.
  intros [Hr Hl]. unfold app_Stop, mbind, AppM_bind, a_gets. rewrite Hr. unfold done_send. cbn. by rewrite Hl.
Qed.
Lemma same_app_in_case a a' : same_app a a' → in_case a → in_case a'.
Proof. intros (Hs & _ & _ & _ & _ & Hl) [Hr Hc]. split; [by rewrite Hs|by rewrite Hl]. Qed.

(** ** Applying entries *)

(** What an entry does to the store, and a list of them. *)
Definition kv_effect (e : Entry) (m : kvApp) : outcome kvApp :=
  if bool_decide (e_Type e = EntryNormal) && negb (String.length (e_Data e) =? 0)%nat
  then '(_, m) ← KV_Set (e_Data e) m; Ok m else Ok m.
Fixpoint kv_effects (es : list Entry) (m : kvApp) : outcome kvApp :=
  match es with
  | [] => Ok m
  | e :: es => m ← kv_effect e m; kv_effects es m
  end.

Lemma apply_entry_effect e a b a' :
  apply_entry e a = Returns b a' → in_case a →
  b = true ∧ kv_effect e (ap_kv a) = Ok (ap_kv a') ∧ ns_commitIndex (ap_state a') = e_Index e ∧
  in_case a' ∧ ap_sent a' = ap_sent a ∧ ap_ID a' = ap_ID a.
Proof.
  unfold apply_entry, kv_effect, in_case. intros (u & a1 & [= <- <-] & He)%bind_Returns [Hr Hlp].
  destruct (e_Type e).
  - cbn [bool_decide]. destruct (_ =? 0)%nat; [by injection He as <- <-|].
    apply bind_Returns in He as ([] & a2 & Hk & [= <- <-]). unfold kv_set in Hk. cbn in Hk.
    destruct (KV_Set _ (ap_kv a)) as [[x m]|]; [|done]. injection Hk as <-. by split_and!.
  - cbn [bool_decide]. apply bind_Returns in He as (ans & a2 & Hc & He).
    apply rn_call_same in Hc as (Hst & Hkv & Hse & Hid & _ & Hlc).
    apply bind_Returns in He as ([] & a3 & [= <-] & (self & a4 & [= <- <-] & He)%bind_Returns).
    assert (Hgo : b = true ∧ a' = a2 <| ap_state := UpdateConfState
      (ApplyConfChange_result match ans with Some x => Chosen _ x | None => NodeDone _ end) (ap_state a2) |>).
    { destruct (ccv1_Type _); try by injection He as <- <-.
      destruct (_ =? _); [|by injection He as <- <-].
      apply bind_Returns in He as ([] & a3 & Hstop & _). rewrite app_Stop_in_case in Hstop; [done|].
      split; cbn; [by rewrite Hst|by rewrite Hlc]. }
    destruct Hgo as [-> ->]. cbn. rewrite Hkv, Hst, Hse, Hid, Hlc. by split_and!.
  - injection He as <- <-. by split_and!.
Qed.

Lemma apply_each_effect es a a' :
  apply_each es a = Returns tt a' → in_case a →
  kv_effects es (ap_kv a) = Ok (ap_kv a') ∧ ap_sent a' = ap_sent a ∧ in_case a' ∧ ap_ID a' = ap_ID a ∧
  ns_commitIndex (ap_state a') = default (ns_commitIndex (ap_state a)) (e_Index <$> last es).
Proof.
  revert a. induction es as [|e es IH]; intros a; [by intros [= <-]|].
  cbn [apply_each kv_effects]. intros (b & a1 & He & Hes)%bind_Returns Hr.
  destruct (apply_entry_effect _ _ _ _ He Hr) as (-> & Hk & Hc & Hr1 & Hse & Hid).
  destruct (IH a1 Hes Hr1) as (Hk2 & Hse2 & Hr2 & Hid2 & Hc2). rewrite Hk. cbn.
  rewrite Hk2, Hse2, Hse, Hc2, Hc, Hid2, Hid.
  split_and!; [done..|]. rewrite last_cons. by destruct (last es).
Qed.

(** The entries of a batch one after the other, as long as none stops the node. *)
Lemma apply_each_app es es' a a' :
  apply_each es a = Returns tt a' → in_case a → apply_each (es ++ es') a = apply_each es' a'.
Proof.
  revert a. induction es as [|e es IH]; intros a; [by intros [= ->]|].
  cbn [apply_each Datatypes.app]. intros (b & a1 & He & Hes)%bind_Returns Hr.
  destruct (apply_entry_effect _ _ _ _ He Hr) as (-> & _ & _ & Hr1 & _).
  unfold mbind, AppM_bind. rewrite He. by apply IH.
Qed.

(** Normal entries are applied without a call into the raft goroutine. *)
Lemma apply_each_normal es a :
  Forall (λ e, e_Type e = EntryNormal) es → ap_kv a ≠ None →
  ∃ a', apply_each es a = Returns tt a' ∧ ap_rn a' = ap_rn a.
Proof.
  revert a. induction es as [|e es IH]; intros a Hes Hkv; [by eexists|].
  apply Forall_cons in Hes as [He Hes]. cbn [apply_each]. unfold mbind, AppM_bind.
  assert (Hstep : ∃ a1, apply_entry e a = Returns true a1 ∧ ap_kv a1 ≠ None ∧ ap_rn a1 = ap_rn a).
  { unfold apply_entry, mbind, AppM_bind, on_state. rewrite He.
    destruct (_ =? 0)%nat; [by eexists|]. unfold kv_set, KV_Set. cbn.
    destruct (gob_Decode _) as [p|]; [|by eexists].
    destruct (ap_kv a) as [m|]; [|done]. by eexists. }
  destruct Hstep as (a1 & -> & Hkv1 & Hrn1). destruct (IH a1 Hes Hkv1) as (a' & Ha' & Hrn).
  exists a'. by rewrite Hrn.
Qed.

Lemma filter_all {A} (P : A → Prop) `{∀ x, Decision (P x)} l : Forall P l → filter P l = l.
Proof. induction 1 as [|x l Hx _ IH]; [done|]. by rewrite filter_cons_True, IH. Qed.

(** The batch is contiguous: trimming drops exactly the entries applied before,
    unless all of them were. *)
Lemma contiguous_filter first es c :
  contiguous first es → first ≤ c → c < first + lenN es →
  drop (N.to_nat (c - first)) es = filter (λ x, c < e_Index x) es.
Proof.
  revert first. induction es as [|e es IH]; intros first Hc Hf Hl; [by destruct (N.to_nat _)|].
  apply contiguous_cons in Hc as [He Hc]. rewrite lenN_cons in Hl.
  rewrite filter_cons. destruct (decide (c < e_Index e)) as [Hlt|Hge].
  - replace (c - first) with 0 by lia. rewrite drop_0. f_equal.
    clear -Hc Hlt He. symmetry. apply filter_all, Forall_lookup. intros i x Hx.
    pose proof (Hc i x Hx). lia.
  - destruct (N.to_nat (c - first)) as [|k] eqn:Hk; [lia|]. cbn [drop].
    rewrite <- (IH (first + 1)); [f_equal; lia|done|lia|lia].
Qed.
End Calls.

Lemma contiguous_last first es k :
  contiguous first es → (k < length es)%nat → e_Index <$> last (drop k es) = Some (first + lenN es).
Proof.
  intros Hc Hk. destruct (last (drop k es)) as [x|] eqn:Hl.
  - cbn. f_equal. rewrite last_lookup, lookup_drop, length_drop in Hl.
    rewrite (Hc _ _ Hl). unfold lenN. lia.
  - apply last_None in Hl. apply (f_equal length) in Hl. rewrite length_drop in Hl. cbn in Hl. lia.
Qed.

Lemma trim_applied_spec commit e rest :
  let entries := e :: rest in let k := N.to_nat (commit + 1 - e_Index e) in
  contiguous (e_Index e - 1) entries → 0 < e_Index e ≤ commit + 1 → commit + 1 < two64 →
  trim_applied commit e entries = drop (if decide (commit < e_Index e + lenN rest) then k else 0%nat) entries ∧
  (commit < e_Index e + lenN rest →
   (k < length entries)%nat ∧ drop k entries = filter (λ x, commit < e_Index x) entries).
Proof.
  intros entries k Hc [Hpos Hle] Hcm.
  assert (Hlen : lenN entries = 1 + lenN rest) by apply lenN_cons. split.
  - unfold trim_applied. assert (Hk : commit -u e_Index e +u 1 = commit + 1 - e_Index e).
    { destruct (decide (e_Index e ≤ commit)) as [Hle2|Hgt].
      - rewrite sub64_small by lia. rewrite add64_small by lia. lia.
      - rewrite sub64_wrap by lia. replace (commit + (two64 - e_Index e)) with (two64 - 1) by lia.
        replace (commit + 1 - e_Index e) with 0 by lia. reflexivity. }
    rewrite Hk. destruct (decide (commit < e_Index e + lenN rest)) as [Hlt|Hge].
    + by rewrite (proj2 (N.ltb_lt _ _)) by (rewrite Hlen; lia).
    + by rewrite (proj2 (N.ltb_ge _ _)) by (rewrite Hlen; lia).
  - intros Hlt. split; [unfold k, lenN in *; cbn in *; lia|].
    rewrite <- (contiguous_filter (e_Index e - 1)) by (done || lia). f_equal. unfold k. lia.
Qed.

(** ** Properties *)

(** C14: The bookkeeping of [applyEntries].  A batch of consecutive committed entries
    that leaves a gap ends the process.  Otherwise the index recorded becomes the
    last index of the batch, and the store is changed by exactly the normal
    entries beyond the index recorded before, in order, each once - provided the
    batch holds such entries.  A batch that was entirely applied before is applied
    a second time and moves the recorded index back.  A batch of normal entries
    always completes.  The batch is that of a [Ready] whose case the loop runs. *)
Theorem applyEntries_spec `{RaftPB} `{Codec} (a : appNode) (e : Entry) (rest : list Entry) :
  let entries := e :: rest in let commit := ns_commitIndex (ap_state a) in
  let final := e_Index e + lenN rest in
  contiguous (e_Index e - 1) entries → 0 < e_Index e → final + 1 < two64 → commit + 1 < two64 →
  (commit + 1 < e_Index e → applyEntries entries a = Exits) ∧
  (e_Index e ≤ commit + 1 → Forall (λ x, e_Type x = EntryNormal) entries → ap_kv a ≠ None →
   ∃ a', applyEntries entries a = Returns tt a') ∧
  (∀ a', in_case a → applyEntries entries a = Returns tt a' →
   ns_commitIndex (ap_state a') = final ∧ ap_sent a' = ap_sent a ∧
   kv_effects (if decide (commit < final) then filter (λ x, commit < e_Index x) entries
               else entries) (ap_kv a) = Ok (ap_kv a')).
Proof.
  intros entries commit final Hc Hpos Hf Hcm.
  assert (Happ : applyEntries entries a = if commit +u 1 <? e_Index e then Exits
    else apply_each (trim_applied commit e entries) a).
  { unfold applyEntries, entries, mbind, AppM_bind, a_gets. fold commit.
    by destruct (commit +u 1 <? e_Index e). }
  rewrite add64_small in Happ by lia. rewrite Happ. clear Happ.
  assert (Htr : e_Index e ≤ commit + 1 → trim_applied commit e entries =
    (if decide (commit < final) then filter (λ x, commit < e_Index x) entries else entries) ∧
    e_Index <$> last (trim_applied commit e entries) = Some final).
  { intros Hle. destruct (trim_applied_spec commit e rest Hc (conj Hpos Hle) Hcm) as [Ht Hk].
    fold entries final in Ht, Hk. rewrite Ht. clear Ht.
    assert (Hfin : e_Index e - 1 + lenN entries = final)
      by (unfold entries, final; rewrite lenN_cons; lia).
    destruct (decide (commit < final)) as [Hlt|];
      (split; [|rewrite <- Hfin; apply contiguous_last; [done|]]).
    - by apply Hk.
    - by apply Hk.
    - done.
    - cbn. lia. }
  split; [|split].
  - intros Hgap. by rewrite (proj2 (N.ltb_lt _ _) Hgap).
  - intros Hle Hn Hkv. rewrite (proj2 (N.ltb_ge _ _)) by done.
    destruct (apply_each_normal (trim_applied commit e entries) a) as (a' & Ha' & _); [|done|by exists a'].
    destruct (Htr Hle) as [-> _]. destruct (decide _); [|done]. rewrite Forall_forall in *.
    intros x [_ Hx]%list_elem_of_filter. by apply Hn.
  - intros a' Hr Ha. destruct (N.ltb_spec (commit + 1) (e_Index e)) as [|Hle]; [done|].
    destruct (apply_each_effect _ _ _ Ha Hr) as (Hk & Hse & _ & _ & Hci). destruct (Htr Hle) as [Ht Hl].
    rewrite Hl in Hci. rewrite Ht in Hk. by split_and!.
Qed.

#[local] Existing Instance ex_pb.
#[local] Existing Instance ex_codec.


(** A node that has applied the entry at index 1, and a batch that starts there. *)
Definition ex_app : appNode :=
  MkApp None 1 [] NewMemoryStorage (MkNodeState 0 1 ConfState_zero 3 StateFollower true)
    (Some ∅) [] InCase [].
Definition ex_set (i : N) (k v : string) : Entry := MkEntry 3 i EntryNormal (ex_pair (k, v)).

Lemma applyEntries_spec_witness :
  ∃ a', applyEntries [ex_set 1 "a" "0"; ex_set 2 "a" "1"; ex_set 3 "b" "2"] ex_app = Returns tt a' ∧
    ns_commitIndex (ap_state a') = 3.
Proof.
  destruct (applyEntries_spec ex_app (ex_set 1 "a" "0") [ex_set 2 "a" "1"; ex_set 3 "b" "2"])
    as (_ & Ht & Hs).
  - repeat (apply contiguous_cons; split; [reflexivity|]). apply contiguous_nil.
  - reflexivity.
  - reflexivity.
  - reflexivity.
  - destruct Ht as [a' Ha']; [discriminate|repeat constructor|discriminate|].
    destruct (Hs a' (conj eq_refl eq_refl) Ha') as (Hc & _ & _). exists a'. split; [exact Ha'|exact Hc].
Defined.
