(* ===== verification/AppRuns.v ===== *)
(** * Runs of the application node

    What [Restart] leaves, and what a node does that has to stop itself: the events
    of a node's life are the calls of other goroutines and the cases of the loop,
    in any order. *)

From S2P Require Import Prelude Pb Quorum Inflights Progress Tracker Confchange.
From S2P Require Import Util Storage Unstable RaftLog ReadOnly Raft RawNode Node App.
From S2P Require Import RaftFrame RaftSafety RaftElection RaftInvariant RaftAppend Runs LogRuns AppNode.

(** ** A node that is set up *)

Section Setup.
Context `{RaftPB}.
Implicit Types r : raft MemoryStorage.

(** The settings, and a follower whose configuration alone changes. *)
Definition same_settings r r' : Prop :=
  r_electionTimeout r' = r_electionTimeout r ∧ r_checkQuorum r' = r_checkQuorum r.
Definition reconfigured r r' : Prop :=
  same_settings r r' ∧ r_raftLog r' = r_raftLog r ∧ r_state r' = r_state r.

#[local] Instance same_settings_preorder : PreOrder same_settings.
Proof. split; [by split|]. intros a b c [] []. split; congruence. Qed.
#[local] Instance reconfigured_preorder : PreOrder reconfigured.
Proof. split; [by split|]. intros a b c (? & ? & ?) (? & ? & ?). split_and!; [by etrans|congruence..]. Qed.

Lemma switchToConfig_follower cfg prs r :
  r_state r = StateFollower → wp True (switchToConfig cfg prs) r (λ _ r', reconfigured r r').
Proof.
  intros Hs. unfold switchToConfig. apply wp_bind, wp_modify, wp_bind, wp_get, wp_bind, wp_modify. cbn. rewrite Hs.
  rewrite !(bool_decide_eq_false_2 (StateFollower = StateLeader)) by done. rewrite andb_false_r. by apply wp_ret.
Qed.
Lemma restore_config_follower cs r :
  r_state r = StateFollower → wp True (restore_config cs) r (λ _ r', reconfigured r r').
Proof.
  intros Hs. unfold restore_config. apply wp_bind, wp_get, wp_bind, wp_lift; [|done]. intros last _.
  apply wp_bind, wp_lift; [|done]. intros res _. apply wp_bind.
  eapply wp_mono; [by apply switchToConfig_follower|]. cbn beta. intros cs' r1 H1. by apply wp_lift.
Qed.
Lemma applyConfChange_follower cc r :
  r_state r = StateFollower → wp True (applyConfChange cc) r (λ _ r', reconfigured r r').
Proof.
  intros Hs. unfold applyConfChange. apply wp_bind, wp_get, wp_bind, wp_lift; [|done]. intros last _.
  destruct (V2_EnterJoint cc) as [auto ok]. apply wp_bind, wp_lift; [|done]. intros res _.
  by apply switchToConfig_follower.
Qed.

Lemma Intn_settings n : moves same_settings (Intn n).
Proof.
  intros r. unfold Intn. case_bool_decide; [by apply wp_panic|]. by apply wp_bind, wp_get, wp_bind, wp_put, wp_ret.
Qed.
Lemma becomeFollower_settings term lead : moves same_settings (becomeFollower term lead).
Proof.
  pose proof Intn_settings. unfold becomeFollower, reset, reset_progress, abortLeaderTransfer,
    resetRandomizedElectionTimeout, pr_modify, pr_set, pr_get. walk.
Qed.

Lemma newRaft_settings rand (c : raft_Config MemoryStorage) r :
  newRaft rand c = Ok r →
  r_electionTimeout r = c_ElectionTick c ∧ r_checkQuorum r = c_CheckQuorum c.
Proof.
  unfold newRaft. destruct (validate c) as [c'|] eqn:Hval; [|done].
  assert (Hc : c_ElectionTick c' = c_ElectionTick c ∧ c_CheckQuorum c' = c_CheckQuorum c).
  { revert Hval. unfold validate. repeat case_match; intros [=]; subst; done. }
  destruct Hc as [<- <-]. destruct (c_Storage c') as [st|]; [|done].
  destruct (newLogWithSize _ _) as [l|]; [|done]. cbn [mbind outcome_bind].
  destruct (must (InitialState st)) as [[hs cs]|]; [|done]. cbn [mbind outcome_bind].
  set (r0 := MkRaft _ _ _ _ _ _ _ _ _ _ _ _ _ _ _ _ _ _ _ _ _ _ _ _ _ _ _).
  match goal with |- context [mbind ?f (?m r0)] => set (body := m) end.
  intros ([[] r1] & Hr & [= <-])%outcome_bind_Ok.
  assert (Hw : wp True body r0 (λ _ r', same_settings r0 r')).
  { unfold body. apply wp_bind. eapply wp_mono; [by apply restore_config_follower|].
    cbn beta. intros _ r2 (Hs2 & _). pose proof (becomeFollower_settings).
    match goal with |- wp True ?k r2 _ => assert (Hm : moves same_settings k) by (unfold loadState, log_step; walk;
      intros r; unfold wp; by destruct (appliedTo _ _)) end.
    eapply wp_mono; [apply Hm|]. cbn. intros _ r3. by etrans. }
  exact (wp_Ok _ _ _ _ _ _ Hw Hr).
Qed.

(** What a node that has just been started on an empty storage is like: a follower
    in term 1 that voted for nobody, with at most [k] entries of that term. *)
Record newborn (k : N) r : Prop := {
  nb_log : rl_valid (r_raftLog r);
  nb_timeouts : timeouts_ok r;
  nb_quorum : r_checkQuorum r = false;
  nb_last : lg_last (rl_log (r_raftLog r)) ≤ k;
  nb_term : default 0 (lg_term (rl_log (r_raftLog r)) (lg_last (rl_log (r_raftLog r)))) ≤ 1;
}.

Lemma newborn_reconfigured k r r' : reconfigured r r' → newborn k r → newborn k r'.
Proof.
  intros ([Ht Hq] & Hl & _) [H1 H2 H3 H4 H5]. split; rewrite ?Hl; try done; [|by rewrite Hq].
  unfold timeouts_ok. by rewrite Ht.
Qed.

Lemma bootstrap_entries_spec i peers ents :
  bootstrap_entries i peers = Val ents →
  contiguous (N.of_nat i) ents ∧ lenN ents = lenN peers ∧ Forall (λ e, e_Term e = 1) ents.
Proof.
  revert i ents. induction peers as [|p peers IH]; intros i ents; cbn [bootstrap_entries].
  { intros [= <-]. split_and!; [apply contiguous_nil|done|constructor]. }
  destruct (V1_Marshal _) as [data|]; [|done].
  destruct (bootstrap_entries (Datatypes.S i) peers) as [es|] eqn:He; [|done]. intros [= <-].
  destruct (IH _ _ He) as (Hc & Hl & Ht). split_and!.
  - apply contiguous_cons. split; [done|]. by replace (N.of_nat i + 1) with (N.of_nat (Datatypes.S i)) by lia.
  - rewrite !lenN_cons. by rewrite Hl.
  - by constructor.
Qed.

(** The log with the entries of the peers, all committed. *)
Lemma bootstrap_log (l : raftLog MemoryStorage) peers ents :
  rl_valid l → lg_prev (rl_log l) = 0 → lg_last (rl_log l) = 0 → peers ≠ [] →
  lenN peers + 1 < 9223372036854775808 → bootstrap_entries 0 peers = Val ents →
  ∃ n l', log_append l ents = Ok (n, l') ∧ let l2 := l' <| l_committed := lenN ents |> in
    rl_valid l2 ∧ lg_last (rl_log l2) = lenN peers ∧ lg_term (rl_log l2) (lenN peers) = Some 1.
Proof.
  intros Hv Hp Hl Hne Hb He. destruct (bootstrap_entries_spec _ _ _ He) as (Hc & Hlen & Ht).
  destruct ents as [|e rest].
  { destruct peers; [done|]. unfold lenN in Hlen. cbn in Hlen. lia. }
  pose proof (rv_committed _ Hv) as Hcm. pose proof (rv_applied _ Hv) as Hap.
  assert (He1 : e_Index e = 1) by (by apply contiguous_cons in Hc as [-> _]).
  destruct (log_append_valid l e rest Hv) as (l' & Ha & Hv' & Hlog & Hfr & Hcm'); rewrite ?He1; try done; try lia.
  rewrite He1 in Hlog. assert (Hlast : lg_last (rl_log l') = lenN (e :: rest)).
  { rewrite Hlog, lg_last_append by lia. lia. }
  eexists _, l'. split; [exact Ha|]. cbn zeta. change (rl_log (l' <| l_committed := _ |>)) with (rl_log l').
  split_and!.
  - destruct Hv' as [? ? ? ? ? [Hc1 _] Hap']. split; try done.
    + change (lg_prev (rl_log l') ≤ lenN (e :: rest) ≤ lg_last (rl_log l')). lia.
    + change (l_applied l' ≤ lenN (e :: rest)). lia.
  - congruence.
  - rewrite <- Hlen, Hlog. replace (lenN (e :: rest)) with (1 + N.of_nat (length rest)) by (unfold lenN; cbn; lia).
    rewrite lg_term_append_new by lia.
    destruct (lookup_lt_is_Some_2 (e :: rest) (length rest)) as [x Hx]; [cbn; lia|]. rewrite Hx. cbn.
    f_equal. by apply (Forall_lookup_1 _ _ _ _ Ht Hx).
Qed.

Lemma bootstrap_newborn peers r e r' :
  rl_valid (r_raftLog r) → timeouts_ok r → r_checkQuorum r = false →
  lg_prev (rl_log (r_raftLog r)) = 0 → lg_last (rl_log (r_raftLog r)) = 0 →
  lg_term (rl_log (r_raftLog r)) 0 = Some 0 → peers ≠ [] → lenN peers + 1 < 9223372036854775808 →
  bootstrap_raft peers r = Ok (e, r') → newborn (lenN peers) r'.
Proof.
  intros Hv Hto Hq Hp Hl Ht0 Hne Hb Hboot. unfold bootstrap_raft in Hboot.
  apply bind_Ok in Hboot as ([] & r1 & Hf & Hboot).
  destruct (wp_Ok _ _ _ _ _ _ (becomeFollower_total 1 None_id r Hv Hto) Hf) as (timeout & progress & Hr1 & _).
  assert (H1 : r_raftLog r1 = r_raftLog r ∧ same_settings r r1 ∧ r_state r1 = StateFollower).
  { rewrite Hr1. by split_and!. }
  destruct H1 as (Hl1 & [Ht1 Hq1] & Hs1). clear Hr1.
  destruct (bootstrap_entries 0 peers) as [ents|] eqn:He.
  - destruct (bootstrap_log _ peers ents Hv Hp Hl Hne Hb He) as (n & l' & Ha & Hv2 & Hlast2 & Hterm2).
    set (l2 := l' <| l_committed := lenN ents |>) in *.
    apply bind_Ok in Hboot as (x & r2 & H2 & Hboot). unfold log_step in H2. rewrite Hl1, Ha in H2. injection H2 as _ <-.
    apply bind_Ok in Hboot as ([] & r3 & [= <-] & Hboot).
    apply bind_Ok in Hboot as ([] & r4 & Hfor & [= _ <-]).
    set (r3 := update r_raftLog _ _) in Hfor.
    assert (Hr4 : reconfigured r3 r4).
    { refine (wp_Ok True _ _ (λ _, reconfigured r3) _ _ _ Hfor). apply (wp_forM True peers _ (reconfigured r3)); [reflexivity|].
      intros p r5 _ H5. apply wp_bind. eapply wp_mono; [apply applyConfChange_follower|].
      { destruct H5 as (_ & _ & ->). exact Hs1. }
      cbn beta. intros cs r6 H6. apply wp_ret. by etrans. }
    apply (newborn_reconfigured _ _ _ Hr4). assert (Hl3 : r_raftLog r3 = l2) by done.
    split; rewrite ?Hl3, ?Hlast2, ?Hterm2; try done.
    + unfold timeouts_ok. change (r_electionTimeout r3) with (r_electionTimeout r1). by rewrite Ht1.
    + change (r_checkQuorum r3) with (r_checkQuorum r1). by rewrite Hq1.
  - injection Hboot as _ <-. split; rewrite ?Hl1, ?Hl, ?Ht0; try done; [|congruence|lia].
    unfold timeouts_ok. by rewrite Ht1.
Qed.

Lemma newborn_votes k m r :
  newborn k r → r_Term r = 1 → m_Type m = MsgVote → 1 < m_Term m →
  1 < m_LogTerm m ∨ m_LogTerm m = 1 ∧ k ≤ m_Index m →
  ∃ r' reply, Step m r = Ok (None, r') ∧ r_msgs r' = r_msgs r ++ [reply] ∧
    m_Type reply = MsgVoteResp ∧ m_To reply = m_From m ∧ m_Term reply = m_Term m ∧
    m_Reject reply = false ∧ r_Term r' = m_Term m ∧ r_Vote r' = m_From m.
Proof.
  intros [Hv Hto Hq Hl Ht] H1 Hm Hlt Hlog.
  assert (Hf : free_to_vote r m = true).
  { unfold free_to_vote. by rewrite (proj2 (N.ltb_lt _ _)) by lia. }
  assert (Hu : up_to_date (rl_log (r_raftLog r)) (m_Index m) (m_LogTerm m) = true).
  { unfold up_to_date. apply bool_decide_eq_true_2. lia. }
  assert (Hig : ignores_vote r m = false) by (unfold ignores_vote; rewrite Hq; by rewrite andb_false_r).
  pose proof (vote_request_answered m r Hv Hto Hm ltac:(lia) ltac:(lia) Hig) as Ha. cbn zeta in Ha. rewrite Hf, Hu in Ha.
  destruct Ha as (r' & reply & ? & ? & ? & ? & _ & ? & ? & ? & _ & ?). exists r', reply. by split_and!.
Qed.
End Setup.

(** ** Starting and restarting *)

Definition empty_storage : MemoryStorage := MkMemoryStorage emptyState Snapshot_zero [Entry_zero].

Section Starting.
Context `{RaftPB} `{Codec}.
Implicit Types a : appNode.

Lemma bootstrap_ballot peers (r r' : raft MemoryStorage) e :
  bootstrap_raft peers r = Ok (e, r') → r_Term r = 0 →
  r_ballot r' = (1, None_id) ∧ l_storage (r_raftLog r') = l_storage (r_raftLog r).
Proof.
  unfold bootstrap_raft. intros ([] & r1 & Hb & Hr)%bind_Ok Ht.
  assert (H1 : quiet (settle 1 r) r1).
  { exact (wp_Ok _ _ _ _ _ _ (becomeFollower_spec 1 None_id r) Hb). }
  apply quiet_votes in H1 as [Hb1 Hs1 _]. unfold settle in Hb1, Hs1. rewrite Ht in Hb1, Hs1.
  cbn in Hb1, Hs1.
  match type of Hr with ?m r1 = _ => assert (Hm : moves votes_kept m) end.
  { destruct (bootstrap_entries 0 peers); walk.
    apply log_step_votes. intros l x l' Ha. by apply log_append_quiet in Ha as (_ & ? & _). }
  apply (moves_Ok _ _ _ _ _ Hm) in Hr as [Hb2 Hs2 _]. rewrite Hb2, Hs2. by split.
Qed.

Lemma empty_storage_valid : storage_valid empty_storage.
Proof. change (ms_valid empty_storage). split; [done|]. split; cbn; [apply contiguous_nil|done|constructor]. Qed.

Lemma StartNode_fresh rand (c : raft_Config MemoryStorage) peers n :
  c_Storage c = Some empty_storage → StartNode rand c peers = Ok n →
  (0 < c_ElectionTick c < 4611686018427387904)%Z → c_CheckQuorum c = false → lenN peers + 1 < 9223372036854775808 →
  r_ballot (rn_raft (n_rn n)) = (1, None_id) ∧ l_storage (r_raftLog (rn_raft (n_rn n))) = empty_storage ∧
  newborn (lenN peers) (rn_raft (n_rn n)).
Proof.
  intros Hst Hstart Het Hcq Hlen. unfold StartNode in Hstart. destruct (length peers =? 0)%nat eqn:Hp; [done|].
  apply outcome_bind_Ok in Hstart as (rn & Hn & ([e rn'] & Hb & [= <-])%outcome_bind_Ok). cbn.
  unfold NewRawNode in Hn. apply outcome_bind_Ok in Hn as (r & Hr & [= <-]).
  destruct (newRaft_ballot _ _ _ Hr) as (st' & hs & cs & Hst' & Hi & Hbal & Hls & _).
  rewrite Hst in Hst'. injection Hst' as <-. injection Hi as <- <-.
  destruct (newRaft_log _ _ _ _ Hst empty_storage_valid (λ _, eq_refl) Hr) as ([Hv _] & Hlog & _).
  destruct (newRaft_settings _ _ _ Hr) as [Hto Hq].
  unfold Bootstrap in Hb. rewrite Hp in Hb.
  apply bind_Ok in Hb as (r1 & rn1 & [= <- <-] & Hb). cbn in Hb.
  apply bind_Ok in Hb as (li & rn2 & Hl & Hb). unfold lift in Hl. rewrite Hls in Hl.
  cbn in Hl. injection Hl as <- <-. cbn in Hb.
  apply bind_Ok in Hb as ([] & rn3 & [= <-] & (r' & Hr' & ->)%on_raft_Ok). cbn in Hr'.
  pose proof (bootstrap_newborn peers r e r' Hv) as Hnb. rewrite Hlog in Hnb. cbn.
  apply bootstrap_ballot in Hr' as Hbb; [|by injection Hbal]. destruct Hbb as [Hb1 Hs1].
  rewrite Hb1, Hs1. split_and!; [done|done|]. apply Hnb; try done.
  - unfold timeouts_ok. by rewrite Hto.
  - by rewrite Hq.
  - intros ->. done.
Qed.

Lemma set_storage_of ms a : storage_of (set_storage ms a) = ms.
Proof. unfold storage_of, set_storage. destruct (ap_rn a) as [n|] eqn:Hn; cbn; [done|by rewrite Hn]. Qed.
Lemma set_storage_same ms a : same_app a (set_storage ms a).
Proof. unfold set_storage. by destruct (ap_rn a). Qed.

Lemma node_Start_fresh rand a a' :
  node_Start rand a = Returns tt a' → ns_running (ap_state a) = false →
  lenN (ap_peers a) + 1 < 9223372036854775808 →
  ∃ n, ap_rn a' = Some n ∧ r_ballot (rn_raft (n_rn n)) = (1, None_id) ∧
    l_storage (r_raftLog (rn_raft (n_rn n))) = empty_storage ∧ newborn (lenN (ap_peers a)) (rn_raft (n_rn n)) ∧
    ap_kv a' = ap_kv a ∧ ap_state a' = SetRunning true (ap_state a) ∧ ap_sent a' = ap_sent a ∧ ap_loop a' = AtSelect.
Proof.
  unfold node_Start. intros (run & a1 & [= <- <-] & Hs)%bind_Returns Hr Hlen. rewrite Hr in Hs.
  apply bind_Returns in Hs as ([] & a1 & [= <-] & ([] & a2 & Hst & ([] & a3 & [= <-] & [= <-])%bind_Returns)%bind_Returns).
  set (a1 := set_storage (ms_Reset (storage_of a)) a) in *.
  destruct (set_storage_same (ms_Reset (storage_of a)) a) as (Hss & Hsk & Hsse & _ & Hps & _). fold a1 in Hss, Hsk, Hsse, Hps.
  unfold start_raft in Hst. destruct (StartNode _ _ _) as [n|] eqn:Hn; [|done]. injection Hst as <-.
  assert (Hof : storage_of a1 = empty_storage) by apply set_storage_of.
  apply (StartNode_fresh rand) in Hn as (Hb & Hls & Hnb); [|cbn; by rewrite Hof|done|done|by rewrite Hps].
  exists n. rewrite Hps in Hnb. cbn. by rewrite Hss, Hsk, Hsse.
Qed.

Lemma app_Stop_Returns a a' :
  app_Stop a = Returns tt a' →
  ns_running (ap_state a') = false ∧ ap_kv a' = ap_kv a ∧ ap_sent a' = ap_sent a ∧ ap_peers a' = ap_peers a ∧
  ns_commitIndex (ap_state a') = ns_commitIndex (ap_state a).
Proof.
  unfold app_Stop. intros (run & a1 & [= <- <-] & Hs)%bind_Returns.
  destruct (ns_running (ap_state a)) eqn:Hr; cbn [negb] in Hs; [|by injection Hs as <-].
  apply bind_Returns in Hs as ([] & a1 & Hd & (ans & a2 & Hc & [= <-])%bind_Returns).
  unfold done_send in Hd. destruct (ap_loop a); [done| |done]. injection Hd as <-.
  apply rn_call_same in Hc as (Hst & Hkv & Hse & _ & Hp & _). cbn. by rewrite Hst, Hkv, Hse, Hp.
Qed.
End Starting.

(** ** The events of a node's life *)

Section Events.
Context `{RaftPB} `{Codec}.
Implicit Types a : appNode.

(** The cases of the loop, and the calls of other goroutines. *)
Inductive app_event :=
| LoopTick
| LoopReady
| CallStart (rand : nat → Z)
| CallStop
| CallRestart (rand : nat → Z) (removed : option error)
| CallProcess (m : Message)
| CallPropose (data : string)
| CallConfChange (cc : ConfChange).

Definition run_event (ev : app_event) : AppM appNode unit :=
  match ev with
  | LoopTick => raftloop_tick
  | LoopReady => raftloop_ready
  | CallStart rand => node_Start rand
  | CallStop => app_Stop
  | CallRestart rand removed => _ ← node_Restart rand removed; mret tt
  | CallProcess m => _ ← node_Process m; mret tt
  | CallPropose data => _ ← app_Propose data; mret tt
  | CallConfChange cc => app_ProposeConfChange cc
  end.

(** A step runs an event to its end or to where it blocks, or makes known which
    requests of other goroutines the raft goroutine will serve first. *)
Inductive app_step : relation appNode :=
| app_returns ev a a' : run_event ev a = Returns tt a' → app_step a a'
| app_blocks ev a a' : run_event ev a = Stuck a' → app_step a a'
| app_schedule qs a : app_step a (a <| ap_others := qs |>).

(** ** A node whose loop does not come back *)

(** What a computation leaves, if it returns or blocks. *)
Definition leaves {A} (m : AppM appNode A) (R : relation appNode) : Prop :=
  ∀ a a', (∃ x, m a = Returns x a') ∨ m a = Stuck a' → R a a'.

Lemma rn_call_leaves q : leaves (rn_call q) same_app.
Proof.
  intros a a'. unfold rn_call. destruct (ap_rn a) as [n|]; [|naive_solver].
  destruct (serve_others _ _) as [n1|]; [|naive_solver]. cbn. destruct (n_done n1).
  { intros [[x [= _ <-]]|[=]]. by split_and!. }
  destruct (run_step q n1) as [[[x|] n2]|]; intros [[y Hy]|Hy]; try done.
  - by injection Hy as _ <-.
  - by injection Hy as <-.
Qed.
#[local] Instance same_app_preorder : PreOrder same_app.
Proof.
  split; [intros a; by split_and!|]. intros a b c (? & ? & ? & ? & ? & ?) (? & ? & ? & ? & ? & ?). split_and!; congruence.
Qed.
Lemma leaves_ret {A} (x : A) : leaves (mret x) same_app.
Proof. intros a a' [[y [= _ <-]]|[=]]. reflexivity. Qed.
Lemma leaves_bind {A B} (m : AppM appNode A) (f : A → AppM appNode B) :
  leaves m same_app → (∀ x, leaves (f x) same_app) → leaves (m ≫= f) same_app.
Proof.
  intros Hm Hf a a' Ha. unfold mbind, AppM_bind in Ha. destruct (m a) as [x a1|a1| |] eqn:E.
  - transitivity a1; [apply Hm; eauto|by apply (Hf x)].
  - destruct Ha as [[y [=]]|[= <-]]. apply Hm. auto.
  - by destruct Ha as [[y ?]|?].
  - by destruct Ha as [[y ?]|?].
Qed.
Lemma leaves_gets {A} (f : appNode → A) : leaves (a_gets f) same_app.
Proof. intros a a' [[y [= _ <-]]|[=]]. reflexivity. Qed.

(** No event has an effect on the application of a node whose loop runs a case. *)
Lemma run_event_in_case ev a a' :
  in_case a → run_event ev a = Returns tt a' ∨ run_event ev a = Stuck a' → same_app a a'.
Proof.
  intros Hc Ha. pose proof (app_Stop_in_case a Hc) as Hstop. destruct Hc as [Hr Hl].
  assert (Hsel : at_select a = Stuck a) by (unfold at_select; by rewrite Hl, andb_false_r).
  destruct ev; cbn [run_event] in Ha.
  - unfold raftloop_tick, mbind, AppM_bind in Ha. rewrite Hsel in Ha. by destruct Ha as [[=]|[= <-]].
  - unfold raftloop_ready, mbind, AppM_bind in Ha. rewrite Hsel in Ha. by destruct Ha as [[=]|[= <-]].
  - unfold node_Start, mbind, AppM_bind, a_gets in Ha. rewrite Hr in Ha. by destruct Ha as [[= <-]|[=]].
  - rewrite Hstop in Ha. by destruct Ha as [[=]|[= <-]].
  - unfold node_Restart, mbind, AppM_bind in Ha. rewrite Hstop in Ha. by destruct Ha as [[=]|[= <-]].
  - assert (Hl2 : leaves (_ ← node_Process m; mret tt) same_app); [|apply Hl2; destruct Ha; eauto].
    apply leaves_bind; [|intros; apply leaves_ret]. apply leaves_bind; [apply leaves_gets|intros run].
    destruct (negb run); [apply leaves_ret|]. destruct (node_Step m); [|apply leaves_ret].
    apply leaves_bind; [apply rn_call_leaves|intros; apply leaves_ret].
  - assert (Hl2 : leaves (_ ← app_Propose data; mret tt) same_app); [|apply Hl2; destruct Ha; eauto].
    apply leaves_bind; [|intros; apply leaves_ret].
    apply leaves_bind; [apply rn_call_leaves|intros; apply leaves_ret].
  - assert (Hl2 : leaves (app_ProposeConfChange cc) same_app); [|apply Hl2; destruct Ha; eauto].
    unfold app_ProposeConfChange. destruct (node_ProposeConfChange _) as [[q|]|]; try apply leaves_ret.
    apply leaves_bind; [apply rn_call_leaves|intros; apply leaves_ret].
Qed.

(** A step from it leaves it there, whatever is yet to be served. *)
Lemma app_steps_in_case a a' : in_case a → rtc app_step a a' → same_app a a'.
Proof.
  intros Hc Hs. induction Hs as [a|a a1 a2 Hstep _ IH]; [reflexivity|].
  assert (H1 : same_app a a1).
  { destruct Hstep as [ev a a1 He|ev a a1 He|qs a].
    - apply (run_event_in_case ev); auto.
    - apply (run_event_in_case ev); auto.
    - by split_and!. }
  transitivity a1; [done|]. apply IH. by eapply same_app_in_case.
Qed.

(** The entry that removes the node itself. *)
Lemma apply_removal e a ans a2 :
  in_case a → e_Type e = EntryConfChange → ccv1_Type (V1_decode (e_Data e)) = ConfChangeRemoveNode →
  ccv1_NodeID (V1_decode (e_Data e)) = ap_ID a →
  let a1 := a <| ap_state := (UpdateCommitIndex (e_Index e) (ap_state a)).2 |> in
  rn_call (node_ApplyConfChange (inl (V1_decode (e_Data e)))) a1 = Returns ans a2 →
  ∃ a3, apply_entry e a = Stuck a3 ∧ in_case a3 ∧ ap_kv a3 = ap_kv a ∧ ap_sent a3 = ap_sent a ∧
    ns_commitIndex (ap_state a3) = e_Index e.
Proof.
  intros [Hr Hl] Ht Hty Hid a1 Hc. pose proof (rn_call_same _ _ _ _ Hc) as (Hst & Hkv & Hse & Hi & _ & Hlp).
  unfold apply_entry, mbind, AppM_bind, on_state. fold a1. rewrite Ht. unfold mbind in Hc. rewrite Hc.
  set (a3 := a2 <| ap_state := _ |>). unfold a_gets. change (ap_ID a3) with (ap_ID a2).
  rewrite Hty, Hi, Hid. change (ap_ID a1) with (ap_ID a). rewrite N.eqb_refl.
  assert (Hc3 : in_case a3) by (split; cbn; [by rewrite Hst|by rewrite Hlp]).
  rewrite (app_Stop_in_case a3 Hc3). exists a3. split_and!; try done. cbn. by rewrite Hst.
Qed.
End Events.

(** ** Properties *)

#[local] Existing Instance ex_codec.

(** C26: What [Restart] forgets.  When it returns without an error, the raft state
    machine is back in term 1 without a vote on an empty storage, whatever term the
    node had reached and whoever it had voted for, while the store, the messages
    already sent and the index recorded as applied are kept.  So it grants the next
    vote request of any term above 1, from any candidate whose last entry is of a term
    above 1 (or that has the entries of the initial peers), also one of a term in
    which it had voted for another candidate before the restart. *)
Theorem Restart_forgets `{RaftPB} `{Codec} (rand : nat → Z) (removed : option error) (a a' : appNode) :
  node_Restart rand removed a = Returns None a' → lenN (ap_peers a) + 1 < 9223372036854775808 →
  ∃ n, ap_rn a' = Some n ∧ let r := rn_raft (n_rn n) in
    r_Term r = 1 ∧ r_Vote r = None_id ∧ storage_of a' = empty_storage ∧
    ap_kv a' = ap_kv a ∧ ap_sent a' = ap_sent a ∧
    ns_commitIndex (ap_state a') = ns_commitIndex (ap_state a) ∧ ns_running (ap_state a') = true ∧
    ∀ m, m_Type m = MsgVote → 1 < m_Term m →
      1 < m_LogTerm m ∨ m_LogTerm m = 1 ∧ lenN (ap_peers a) ≤ m_Index m →
      ∃ r' reply, Step m r = Ok (None, r') ∧ r_msgs r' = r_msgs r ++ [reply] ∧
        m_Type reply = MsgVoteResp ∧ m_To reply = m_From m ∧ m_Term reply = m_Term m ∧
        m_Reject reply = false ∧ r_Term r' = m_Term m ∧ r_Vote r' = m_From m.
Proof.
  unfold node_Restart. intros ([] & a1 & Hstop & (err & a2 & Hre & Hs)%bind_Returns)%bind_Returns Hlen.
  apply app_Stop_Returns in Hstop as (Hr1 & Hkv1 & Hse1 & Hp1 & Hc1).
  apply bind_Returns in Hre as ([] & a2' & [= <-] & [= <- <-]).
  destruct (set_storage_same (ms_Reset (storage_of a1)) a1) as (Hst & Hkv & Hse & _ & Hp & _).
  destruct removed; [done|]. apply bind_Returns in Hs as ([] & a3 & Hs & [= <-]).
  apply node_Start_fresh in Hs as (n & Hn & Hb & Hls & Hnb & Hk3 & Hst3 & Hse3 & _);
    [|by rewrite Hst|by rewrite Hp, Hp1].
  exists n. injection Hb as Ht Hv. rewrite Hp, Hp1 in Hnb. split_and!; try done.
  - unfold storage_of. by rewrite Hn.
  - congruence.
  - congruence.
  - by rewrite Hst3, Hst.
  - by rewrite Hst3.
  - intros m Hm Hmt Hlog. by eapply newborn_votes.
Qed.

(** The state in which a computation ends. *)
Definition ex_after `{RaftPB} {B} (m : AppM appNode B) (a : appNode) : appNode :=
  match m a with Returns _ a' => a' | Stuck a' => a' | _ => a end.

Section Restarting.
#[local] Existing Instance ex_pb.

(** Node 1 of three, which is asked for its vote in term 5 by node 2, restarts, and
    is asked again by node 3. *)
Definition ex_request (from : N) : Message :=
  (msg MsgVote 1) <| m_From := from |> <| m_Term := 5 |> <| m_Index := 9 |> <| m_LogTerm := 4 |>.
Definition ex_start : appNode := newAppNode 1 ["u1"; "u2"; "u3"]%string newKVApp.
Definition ex_first : AppM appNode unit :=
  node_Start (λ _, 7%Z);; raftloop_ready;; _ ← node_Process (ex_request 2); raftloop_ready.
Definition ex_second : AppM appNode unit :=
  _ ← node_Restart (λ _, 7%Z) None; raftloop_ready;; _ ← node_Process (ex_request 3); raftloop_ready.

Definition ex_voted : appNode := ex_after ex_first ex_start.
Definition ex_restarted : appNode := ex_after (node_Restart (λ _, 7%Z) None) ex_voted.
Lemma ex_restart : node_Restart (λ _, 7%Z) None ex_voted = Returns None ex_restarted.
Proof. vm_compute. reflexivity. Qed.

Lemma Restart_forgets_witness :
  r_ballot <$> (rn_raft ∘ n_rn <$> ap_rn ex_voted) = Some (5, 2) ∧
  ∃ n r', ap_rn ex_restarted = Some n ∧ Step (ex_request 3) (rn_raft (n_rn n)) = Ok (None, r') ∧
    r_ballot r' = (5, 3).
Proof.
  split; [vm_compute; reflexivity|].
  destruct (Restart_forgets _ _ _ _ ex_restart) as (n & Hn & _ & _ & _ & _ & _ & _ & _ & Hv);
    [vm_compute; reflexivity|].
  destruct (Hv (ex_request 3)) as (r' & reply & Hs & _ & _ & _ & _ & _ & Ht & Hvote);
    [reflexivity|vm_compute; reflexivity|left; vm_compute; reflexivity|].
  exists n, r'. split; [exact Hn|]. split; [exact Hs|]. unfold r_ballot. rewrite Ht, Hvote. reflexivity.
Defined.

(** In this run both grants are sent. *)
Lemma restarted_node_votes_twice :
  ∃ a, (ex_first;; ex_second) ex_start = Returns tt a ∧
    map (λ g, (m_Term g, m_To g)) (filter (λ g, grants g = true) (ap_sent a)) = [(5, 2); (5, 3)].
Proof. eexists. split; [vm_compute; reflexivity|vm_compute; reflexivity]. Qed.
End Restarting.

(** C27: A node that applies its own removal never stops.  When the loop applies a batch
    that follows what was applied before, and comes to the removal of its own node
    (the raft goroutine having served the change), then it blocks there: in [Stop],
    at the send on [doneChan], in a case of the loop and still marked as running.
    In any continuation - calls of other goroutines and requests to the raft
    goroutine in any order - the loop runs no case again, every [Stop] and
    [Restart] blocks too, and nothing is applied or sent any more. *)
Theorem self_removal_blocks `{RaftPB} `{Codec} (a a1 a2 : appNode) (e : Entry)
    (before after : list Entry) (ans : option answer) :
  let batch := before ++ e :: after in let cc := V1_decode (e_Data e) in
  in_case a → e_Index <$> head batch = Some (ns_commitIndex (ap_state a) + 1) →
  ns_commitIndex (ap_state a) + 1 < two64 → apply_each before a = Returns tt a1 →
  e_Type e = EntryConfChange → ccv1_Type cc = ConfChangeRemoveNode → ccv1_NodeID cc = ap_ID a →
  rn_call (node_ApplyConfChange (inl cc))
    (a1 <| ap_state := (UpdateCommitIndex (e_Index e) (ap_state a1)).2 |>) = Returns ans a2 →
  ∃ a', applyEntries batch a = Stuck a' ∧ ap_loop a' = InCase ∧ ns_running (ap_state a') = true ∧
    ap_kv a' = ap_kv a1 ∧ ap_sent a' = ap_sent a ∧ ns_commitIndex (ap_state a') = e_Index e ∧
    ∀ b, rtc app_step a' b →
      ap_loop b = InCase ∧ ap_state b = ap_state a' ∧ ap_kv b = ap_kv a' ∧ ap_sent b = ap_sent a' ∧
      raftloop_tick b = Stuck b ∧ raftloop_ready b = Stuck b ∧ app_Stop b = Stuck b ∧
      ∀ rand removed, node_Restart rand removed b = Stuck b.
Proof.
  intros batch cc Hc Hh Hb Hbefore Ht Hty Hid Hcall.
  destruct (apply_each_effect _ _ _ Hbefore Hc) as (_ & Hse1 & Hc1 & Hid1 & _).
  destruct (apply_removal e a1 ans a2 Hc1 Ht Hty) as (a' & Ha' & [Hr' Hl'] & Hkv & Hse & Hci);
    [by rewrite Hid1|exact Hcall|].
  exists a'. rewrite Hkv, Hse. split_and!; try done.
  - destruct batch as [|x rest] eqn:Hbt; [done|]. injection Hh as Hx. unfold applyEntries, mbind, AppM_bind, a_gets.
    rewrite Hx, add64_small, N.ltb_irrefl by done. unfold trim_applied. rewrite Hx, sub64_wrap by lia.
    replace (_ + (two64 - _)) with (two64 - 1) by lia. change (two64 - 1 +u 1) with 0.
    rewrite lenN_cons, (proj2 (N.ltb_lt _ _)) by lia. change (drop _ _) with (x :: rest).
    rewrite <- Hbt. unfold batch. rewrite (apply_each_app _ _ _ _ Hbefore Hc). cbn [apply_each].
    unfold mbind, AppM_bind. by rewrite Ha'.
  - intros b Hs. destruct (app_steps_in_case _ _ (conj Hr' Hl') Hs) as (Hst & Hk & Hsn & _ & _ & Hlp).
    assert (Hcb : in_case b) by (split; congruence). pose proof (app_Stop_in_case b Hcb) as Hstop.
    rewrite Hst, Hk, Hsn, Hlp, Hkv, Hse. split_and!; try done.
    + unfold raftloop_tick, at_select, mbind, AppM_bind. by rewrite Hlp, Hl', andb_false_r.
    + unfold raftloop_ready, at_select, mbind, AppM_bind. by rewrite Hlp, Hl', andb_false_r.
    + intros rand removed. unfold node_Restart, mbind, AppM_bind. by rewrite Hstop.
Qed.

(** As the example instance, with an encoding in which the empty string removes
    node 1. *)
Definition ex_removing : RaftPB := {|
  Entry_Size := @Entry_Size ex_pb;
  ConfChangeV2 := list ConfChangeSingle;
  Changes ccs := ccs;
  V2_LeaveJoint := @V2_LeaveJoint ex_pb;
  V2_EnterJoint := @V2_EnterJoint ex_pb;
  V1_AsV2 := @V1_AsV2 ex_pb;
  V2_AsV2 ccs := ccs;
  V1_Unmarshal s :=
    match s with
    | EmptyString => Val (MkCC ConfChangeRemoveNode 1 "")
    | _ => @V1_Unmarshal ex_pb s
    end;
  V2_Unmarshal := @V2_Unmarshal ex_pb;
  V1_partial := @V1_partial ex_pb;
  V1_Marshal := @V1_Marshal ex_pb;
  MarshalConfChange := @MarshalConfChange ex_pb;
  ConfState_Equivalent := @ConfState_Equivalent ex_pb;
|}.

Section Removing.
#[local] Existing Instance ex_removing.

(** Node 1 of two: it is started, applies the entries of the initial peers, and is
    sent a write and its own removal by node 2, the leader of term 2. *)
Definition ex_removal : Message :=
  (msg MsgApp 1) <| m_From := 2 |> <| m_Term := 2 |> <| m_Index := 2 |> <| m_LogTerm := 1 |> <| m_Commit := 4 |>
    <| m_Entries := [MkEntry 2 3 EntryNormal (ex_pair ("a", "1")%string); MkEntry 2 4 EntryConfChange ""] |>.
Definition ex_told : AppM appNode unit :=
  node_Start (λ _, 7%Z);; raftloop_ready;; _ ← node_Process ex_removal; mret tt.
Definition ex_leaving : appNode := ex_after ex_told (newAppNode 1 ["u1"; "u2"]%string newKVApp).

(** The case of the next [Ready] up to [applyEntries]. *)
Definition ex_upto_apply : AppM appNode unit :=
  ans ← rn_call OnReady;
  match ans with
  | Some (AnsReady rd) =>
      a_modify (λ a, a <| ap_loop := InCase |>);;
      _ ← on_state (UpdateTermState (hs_Term (rd_HardState rd)));
      save_entries (rd_Entries rd);; sendMessages (rd_Messages rd)
  | _ => a_stuck
  end.
Definition ex_applying : appNode := ex_after ex_upto_apply ex_leaving.
Definition ex_write : Entry := MkEntry 2 3 EntryNormal (ex_pair ("a", "1")%string).
Definition ex_written : appNode := ex_after (apply_each [ex_write]) ex_applying.

(** The whole case ends there. *)
Lemma ex_loop_blocks : ∃ a', raftloop_ready ex_leaving = Stuck a' ∧
  applyEntries [ex_write; MkEntry 2 4 EntryConfChange ""] ex_applying = Stuck a'.
Proof. eexists. split; vm_compute; reflexivity. Qed.

Lemma self_removal_blocks_witness :
  ∃ a', applyEntries [ex_write; MkEntry 2 4 EntryConfChange ""] ex_applying = Stuck a' ∧
    ns_running (ap_state a') = true ∧ ∀ b, rtc app_step a' b → app_Stop b = Stuck b.
Proof.
  assert (Hcall : ∃ ans a2, rn_call (node_ApplyConfChange (inl (V1_decode "")))
    (ex_written <| ap_state := (UpdateCommitIndex 4 (ap_state ex_written)).2 |>) = Returns ans a2)
    by (eexists _, _; vm_compute; reflexivity).
  destruct Hcall as (ans & a2 & Hcall).
  destruct (self_removal_blocks ex_applying ex_written a2 (MkEntry 2 4 EntryConfChange "") [ex_write] [] ans)
    as (a' & Ha & _ & Hr & _ & _ & _ & Hb).
  - split; vm_compute; reflexivity.
  - vm_compute. reflexivity.
  - vm_compute. reflexivity.
  - vm_compute. reflexivity.
  - reflexivity.
  - reflexivity.
  - vm_compute. reflexivity.
  - exact Hcall.
  - exists a'. split; [exact Ha|]. split; [exact Hr|]. intros b Hs. apply (Hb b Hs).
Defined.
End Removing.
