(* ===== verification/Transport.v ===== *)
(** * Transport and HTTP interface (raft/transport.go, raft/httpapi.go)

    The transport hands the messages of the node to the netrix client and those
    the client received to the node; the HTTP handler turns requests into
    proposals, configuration changes and reads.  The client, the wire encoding of
    a message and the parser of numbers are parameters. *)

From S2P Require Import Prelude Pb Quorum Inflights Progress Tracker Confchange.
From S2P Require Import Util Storage Unstable RaftLog ReadOnly Raft RawNode Node App.
From S2P Require Import RaftFrame RaftSafety Runs AppNode.
From stdpp Require Import pretty.

(** [Message.Marshal], [Message.Unmarshal] and [MessageType.String] of raftpb. *)
Class WireFormat := {
  Message_Marshal : Message → result string;
  Message_Unmarshal : string → result Message;
  MessageType_String : MessageType → string;
}.
Class WireLaws `{WireFormat} := {
  wire_roundtrip m s : Message_Marshal m = Val s → Message_Unmarshal s = Val m;
}.

(** ** netrixTransport *)

(** A message handed to the client: its type, the id of the replica, its data. *)
Record netrix_message := MkNetrixMessage {
  nm_Type : string;
  nm_To : string;
  nm_Data : string;
}.

(** [msgChan] is a buffer of 30; [tr_client] is what the client was given to
    send, [tr_received] what it has received. *)
Record netrixTransport := MkTransport {
  tr_msgChan : list Message;
  tr_doneCh : bool;
  tr_client : list netrix_message;
  tr_received : list netrix_message;
}.
Section transport_update.
Let rebuild (t : netrixTransport) : netrixTransport :=
  MkTransport (tr_msgChan t) (tr_doneCh t) (tr_client t) (tr_received t).
#[global] Instance upd_tr_msgChan : Update tr_msgChan := ltac:(update_of rebuild tr_msgChan).
#[global] Instance upd_tr_doneCh : Update tr_doneCh := ltac:(update_of rebuild tr_doneCh).
#[global] Instance upd_tr_client : Update tr_client := ltac:(update_of rebuild tr_client).
#[global] Instance upd_tr_received : Update tr_received := ltac:(update_of rebuild tr_received).
End transport_update.

Definition msgChan_cap : nat := 30.

Section Transport.
Context `{RaftPB} `{Codec} `{WireFormat}.

(** [newNetrixTransport], once the client has been initialised. *)
Definition newNetrixTransport : netrixTransport := MkTransport [] false [] [].

(** [Send]: [None] when the channel is full, with the messages that were put. *)
Fixpoint Send (msgs : list Message) (t : netrixTransport) : option netrixTransport :=
  match msgs with
  | [] => Some t
  | m :: msgs =>
      if (length (tr_msgChan t) <? msgChan_cap)%nat
      then Send msgs (t <| tr_msgChan ::= λ l, l ++ [m] |>) else None
  end.

(** [sendMessage]: a message that cannot be encoded is dropped. *)
Definition sendMessage (m : Message) (t : netrixTransport) : netrixTransport :=
  match Message_Marshal m with
  | Err _ => t
  | Val b => t <| tr_client ::= λ l, l ++
      [MkNetrixMessage (MessageType_String (m_Type m)) (pretty (m_To m)) b] |>
  end.

(** [process]: data that cannot be decoded is dropped. *)
Definition process (m : netrix_message) : AppM appNode unit :=
  match Message_Unmarshal (nm_Data m) with
  | Err _ => mret tt
  | Val msg => _ ← node_Process msg; mret tt
  end.

(** The loop [poll]: its goroutine ends, sends a message, or hands one over; the
    third case is taken only when no other can be. *)
Inductive poll_step : netrixTransport → option netrix_message → netrixTransport → Prop :=
| poll_send t m ms :
    tr_msgChan t = m :: ms →
    poll_step t None (sendMessage m (t <| tr_msgChan := ms |>))
| poll_receive t m ms :
    tr_msgChan t = [] → tr_doneCh t = false → tr_received t = m :: ms →
    poll_step t (Some m) (t <| tr_received := ms |>).

(** [AddRemote], [AddPeer], [RemovePeer], [RemoveAllPeers] and [UpdatePeer] do
    nothing; [ActivePeers] is constant. *)
Definition AddRemote (id : N) (urls : list string) (t : netrixTransport) : netrixTransport := t.
Definition AddPeer (id : N) (urls : list string) (t : netrixTransport) : netrixTransport := t.
Definition RemovePeer (id : N) (t : netrixTransport) : netrixTransport := t.
Definition RemoveAllPeers (t : netrixTransport) : netrixTransport := t.
Definition UpdatePeer (id : N) (urls : list string) (t : netrixTransport) : netrixTransport := t.
Definition ActivePeers (t : netrixTransport) : Z := 0.

(** [Stop]: [doneOnce] keeps the channel from being closed twice. *)
Definition transport_Stop (t : netrixTransport) : netrixTransport := t <| tr_doneCh := true |>.
End Transport.

(** ** httpKVAPI *)

Inductive http_method : Set := MethodPut | MethodGet | MethodPost | MethodDelete | MethodOther.
(** The response: a status, a body, and the methods in an Allow header. *)
Record http_response := MkResponse {
  rs_Status : Z;
  rs_Body : string;
  rs_Allow : list http_method;
}.
Definition StatusOK : Z := 200.
Definition StatusNoContent : Z := 204.
Definition StatusBadRequest : Z := 400.
Definition StatusNotFound : Z := 404.
Definition StatusMethodNotAllowed : Z := 405.

(** [httpKVAPI]: the two channels hold ten elements each. *)
Record httpKVAPI := MkHTTP {
  h_proposeC : list string;
  h_confChangeC : list ConfChange;
  h_done : bool;
}.
Section http_update.
Let rebuild (h : httpKVAPI) : httpKVAPI := MkHTTP (h_proposeC h) (h_confChangeC h) (h_done h).
#[global] Instance upd_h_proposeC : Update h_proposeC := ltac:(update_of rebuild h_proposeC).
#[global] Instance upd_h_confChangeC : Update h_confChangeC :=
  ltac:(update_of rebuild h_confChangeC).
#[global] Instance upd_h_done : Update h_done := ltac:(update_of rebuild h_done).
End http_update.
Definition api_cap : nat := 10.

(** How a handler ends: with a response, blocked on a full channel, or in a panic
    of the slice expression on an empty request URI. *)
Inductive handled : Type :=
| Responds (r : http_response) (h : httpKVAPI)
| Blocks
| Crashed.

Section HTTP.
Context `{RaftPB} `{Codec}.
Variable ParseUint : string → result N.

Definition newHTTPKVAPI : httpKVAPI := MkHTTP [] [] false.
Definition http_Stop (h : httpKVAPI) : httpKVAPI := h <| h_done := true |>.

(** The sends on the two channels. *)
Definition propose_send (data : string) (h : httpKVAPI) : option httpKVAPI :=
  if (length (h_proposeC h) <? api_cap)%nat
  then Some (h <| h_proposeC ::= λ l, l ++ [data] |>) else None.
Definition confChange_send (cc : ConfChange) (h : httpKVAPI) : option httpKVAPI :=
  if (length (h_confChangeC h) <? api_cap)%nat
  then Some (h <| h_confChangeC ::= λ l, l ++ [cc] |>) else None.

Definition respond_with (status : Z) (body : string) (h : httpKVAPI) : handled :=
  Responds (MkResponse status body []) h.
Definition no_content (h : option httpKVAPI) : handled :=
  match h with Some h => respond_with StatusNoContent "" h | None => Blocks end.

(** A membership change: the node id is the request URI without its slash. *)
Definition serve_member (key : string) (cc : N → ConfChange) (method : string) (h : httpKVAPI) : handled :=
  match key with
  | EmptyString => Crashed
  | String _ id =>
      match ParseUint id with
      | Err _ => respond_with StatusBadRequest ("Failed on " +:+ method) h
      | Val nodeId => no_content (confChange_send (cc nodeId) h)
      end
  end.

(** [ServeHTTP]. *)
Definition ServeHTTP (method : http_method) (key : string) (body : result string) (store : kvApp)
    (h : httpKVAPI) : handled :=
  match method with
  | MethodPut =>
      match body with
      | Err _ => respond_with StatusBadRequest "Failed on PUT" h
      | Val v =>
          match gob_Encode (key, v) with
          | Val data => no_content (propose_send data h)
          | Err _ => respond_with StatusNoContent "" h
          end
      end
  | MethodGet =>
      let '(v, ok) := Get store key in
      if ok : bool then respond_with StatusOK v h
      else respond_with StatusNotFound "Failed to GET" h
  | MethodPost =>
      match body with
      | Err _ => respond_with StatusBadRequest "Failed on POST" h
      | Val url => serve_member key (λ id, MkCC ConfChangeAddNode id url) "POST" h
      end
  | MethodDelete => serve_member key (λ id, MkCC ConfChangeRemoveNode id "") "DELETE" h
  | MethodOther =>
      Responds (MkResponse StatusMethodNotAllowed "Method not allowed"
                  [MethodPut; MethodGet; MethodPost; MethodDelete]) h
  end.

(** The loop [poll]: the requests it hands to the node, once the node is ready. *)
Inductive api_step : appNode → httpKVAPI → AppM appNode unit → httpKVAPI → Prop :=
| api_propose a h prop ps :
    node_Ready a = true → h_proposeC h = prop :: ps →
    api_step a h (_ ← app_Propose prop; mret tt) (h <| h_proposeC := ps |>)
| api_confChange a h cc ccs :
    node_Ready a = true → h_confChangeC h = cc :: ccs →
    api_step a h (app_ProposeConfChange cc) (h <| h_confChangeC := ccs |>).
End HTTP.

(** ** Lemmas *)

Lemma Send_queue msgs t t' :
  Send msgs t = Some t' →
  tr_msgChan t' = tr_msgChan t ++ msgs ∧ tr_client t' = tr_client t ∧
  tr_received t' = tr_received t ∧ (length (tr_msgChan t) ≤ msgChan_cap → length (tr_msgChan t') ≤ msgChan_cap)%nat.
Proof.
  revert t. induction msgs as [|m msgs IH]; intros t; cbn [Send].
  - intros [= <-]. by rewrite app_nil_r.
  - destruct (Nat.ltb_spec (length (tr_msgChan t)) msgChan_cap); [|done].
    intros (Hq & Hc & Hr & Hb)%IH. cbn in *. split_and!; [by rewrite Hq, <- app_assoc|done|done|].
    intros _. apply Hb. rewrite length_app. cbn. lia.
Qed.

(** What the transport sends reaches the node of the addressee as it was sent, and
    two nodes never have the same address. *)
Lemma transport_delivers `{RaftPB} `{Codec} `{WireFormat} `{!WireLaws} m b t :
  Message_Marshal m = Val b →
  ∃ nm, tr_client (sendMessage m t) = tr_client t ++ [nm] ∧
    (∀ to, nm_To nm = pretty to ↔ m_To m = to) ∧
    process nm = (_ ← node_Process m; mret tt).
Proof.
  intros Hm. unfold sendMessage. rewrite Hm. eexists. split; [reflexivity|]. cbn. split.
  - intros to. split; [apply (inj pretty)|by intros ->].
  - unfold process. cbn. by rewrite (wire_roundtrip m b Hm).
Qed.

(** ** Properties *)

(** A PUT is a write that a GET reads back.  Accepting a PUT answers 204 and queues
    one proposal; when an entry with that proposal is applied on a node, a GET of
    the same key there answers 200 with the value, until the key is written again,
    and the other keys read as before. *)
Theorem put_then_get `{RaftPB} `{Codec} `{!CodecLaws} (ParseUint : string → result N)
    (key val : string) (store : kvApp) (h h' : httpKVAPI) (r : http_response) :
  (∃ data, gob_Encode (key, val) = Val data) →
  ServeHTTP ParseUint MethodPut key (Val val) store h = Responds r h' →
  rs_Status r = StatusNoContent ∧
  ∃ data, h_proposeC h' = h_proposeC h ++ [data] ∧ h_confChangeC h' = h_confChangeC h ∧
    ∀ (a a' : appNode) e b, e_Type e = EntryNormal → e_Data e = data →
      apply_entry e a = Returns b a' → b = true ∧
      ∀ k body h2, ServeHTTP ParseUint MethodGet k body (ap_kv a') h2 =
        if decide (k = key) then respond_with StatusOK val h2
        else ServeHTTP ParseUint MethodGet k body (ap_kv a) h2.
Proof.
  intros [data Hd]. cbn [ServeHTTP]. rewrite Hd. unfold propose_send.
  destruct (_ <? _)%nat; [|done]. intros [= <- <-]. split; [done|].
  exists data. split; [done|]. split; [done|]. intros a a' e b Ht He. unfold apply_entry.
  intros (u & a1 & [= <- <-] & Ha)%bind_Returns. rewrite Ht, He in Ha.
  assert (Hne : (String.length data =? 0)%nat = false).
  { destruct data; [|done]. apply gob_roundtrip in Hd. destruct gob_empty as [err Herr]. congruence. }
  rewrite Hne in Ha. apply bind_Returns in Ha as ([] & a2 & Hk & [= <- <-]). split; [done|].
  unfold kv_set, KV_Set in Hk. rewrite (gob_roundtrip _ _ Hd) in Hk. cbn in Hk.
  destruct (ap_kv a) as [m|] eqn:Hkv; [|done]. injection Hk as <-. intros k body h2. cbn [ServeHTTP ap_kv].
  unfold Get. cbn. destruct (decide (k = key)) as [->|Hkk].
  - by rewrite lookup_insert_eq.
  - by rewrite lookup_insert_ne.
Qed.

#[local] Existing Instance ex_pb.
#[local] Existing Instance ex_codec.
#[local] Existing Instance ex_codec_laws.

Lemma put_then_get_witness :
  ∃ r h', ServeHTTP (λ _, Val 0%N) MethodPut "/a" (Val "1"%string) newKVApp newHTTPKVAPI = Responds r h' ∧
    rs_Status r = StatusNoContent.
Proof.
  destruct (ServeHTTP (λ _, Val 0%N) MethodPut "/a" (Val "1"%string) newKVApp newHTTPKVAPI) as [r h'| |] eqn:Hs;
    [|vm_compute in Hs; discriminate Hs..].
  destruct (put_then_get (λ _, Val 0%N) "/a" "1" newKVApp newHTTPKVAPI h' r) as [Hr _].
  - exists (ex_pair ("/a", "1")%string). vm_compute. reflexivity.
  - exact Hs.
  - exists r, h'. split; [reflexivity|exact Hr].
Defined.
