(* ===== verification/GoStrings.v ===== *)
(** * Numbers as strings

    What the program uses of Go's [strconv] and [fmt] packages: the decimal form of
    an integer ([FormatUint], [Itoa], the verb %d), which is stdpp's [pretty], and
    the parser [Atoi], with the lemmas that make the two inverse and that tell
    composed keys apart. *)

From stdpp Require Export pretty.
From Stdlib Require Import Ascii.
From S2P Require Import Prelude.

(** ** strconv.Atoi *)

(** What [strconv.ParseUint] finds: a number, a character that is no digit, or a
    value above the range, whichever comes first. *)
Inductive parsed := ParsedNum (n : N) | ParsedSyntax | ParsedRange.

Definition digit_value (c : ascii) : option N :=
  let n := N_of_ascii c in
  if (48 <=? n) && (n <=? 57) then Some (n - 48) else None.

Fixpoint parse_digits (acc : N) (s : string) : parsed :=
  match s with
  | EmptyString => ParsedNum acc
  | String c s =>
      match digit_value c with
      | None => ParsedSyntax
      | Some d => if two64 <=? acc * 10 + d then ParsedRange else parse_digits (acc * 10 + d) s
      end
  end.

(** [strconv.Atoi]: the value and whether there was no error.  A syntax error comes
    with 0, a range error with the bound that was passed. *)
Definition Atoi (s : string) : Z * bool :=
  let '(neg, ds) := match s with
                    | String "-" ds => (true, ds)
                    | String "+" ds => (false, ds)
                    | _ => (false, s)
                    end in
  match ds with
  | EmptyString => (0%Z, false)
  | _ =>
      match parse_digits 0 ds with
      | ParsedSyntax => (0%Z, false)
      | ParsedRange => if neg : bool then ((- two63z)%Z, false) else ((two63z - 1)%Z, false)
      | ParsedNum n =>
          if neg then if (two63z <? Z.of_N n)%Z then ((- two63z)%Z, false) else ((- Z.of_N n)%Z, true)
          else if (two63z <=? Z.of_N n)%Z then ((two63z - 1)%Z, false) else (Z.of_N n, true)
      end
  end.

(** ** The decimal form *)

Lemma digit_value_char d : d < 10 → digit_value (pretty_N_char d) = Some d.
Proof.
  intros Hd. assert (d = 0 ∨ d = 1 ∨ d = 2 ∨ d = 3 ∨ d = 4 ∨ d = 5 ∨ d = 6 ∨ d = 7 ∨ d = 8 ∨ d = 9)
    as Hc by lia.
  by repeat destruct Hc as [->|Hc]; [..|subst d].
Qed.

Lemma parse_pretty_go x s : x < two64 → parse_digits 0 (pretty_N_go x s) = parse_digits x s.
Proof.
  revert s. induction (N.lt_wf_0 x) as [x _ IH]; intros s Hx.
  destruct (decide (x = 0)) as [->|H0]; [by rewrite pretty_N_go_0|].
  rewrite pretty_N_go_step by lia. pose proof (N.div_lt x 10 ltac:(lia) ltac:(lia)) as Hlt.
  rewrite IH by lia. cbn [parse_digits].
  rewrite digit_value_char by (by apply N.mod_lt).
  assert (Heq : x `div` 10 * 10 + x `mod` 10 = x) by (pose proof (N.div_mod x 10); lia).
  rewrite Heq. by destruct (N.leb_spec two64 x); [lia|].
Qed.

Lemma pretty_go_head x s : 0 < x → ∃ d s', d < 10 ∧ pretty_N_go x s = String (pretty_N_char d) s'.
Proof.
  revert s. induction (N.lt_wf_0 x) as [x _ IH]; intros s H0. rewrite pretty_N_go_step by done.
  destruct (decide (x `div` 10 = 0)) as [->|Hd].
  - rewrite pretty_N_go_0. eexists _, _. split; [|done]. by apply N.mod_lt.
  - apply IH; [by apply N.div_lt|by apply N.neq_0_lt_0].
Qed.

Lemma pretty_head (x : N) : ∃ d s, d < 10 ∧ pretty x = String (pretty_N_char d) s.
Proof.
  unfold pretty, pretty_N. destruct (decide (x = 0)); [by exists 0, ""|]. apply pretty_go_head. lia.
Qed.

Lemma parse_pretty (x : N) : x < two64 → parse_digits 0 (pretty x) = ParsedNum x.
Proof.
  intros Hx. unfold pretty, pretty_N. destruct (decide (x = 0)) as [->|]; [done|].
  by rewrite parse_pretty_go.
Qed.

(** A decimal form does not start with a sign. *)
Lemma Atoi_unsigned (x : N) s :
  pretty x = s → Atoi s = match parse_digits 0 s with
    | ParsedSyntax => (0%Z, false)
    | ParsedRange => ((two63z - 1)%Z, false)
    | ParsedNum n => if (two63z <=? Z.of_N n)%Z then ((two63z - 1)%Z, false) else (Z.of_N n, true)
    end.
Proof.
  intros <-. destruct (pretty_head x) as (d & s & Hd & ->).
  assert (d = 0 ∨ d = 1 ∨ d = 2 ∨ d = 3 ∨ d = 4 ∨ d = 5 ∨ d = 6 ∨ d = 7 ∨ d = 8 ∨ d = 9) as Hc by lia.
  by repeat destruct Hc as [->|Hc]; [..|subst d].
Qed.

(** [Atoi] reads back what [FormatUint] wrote. *)
Lemma Atoi_pretty (x : N) : (Z.of_N x < two63z)%Z → Atoi (pretty x) = (Z.of_N x, true).
Proof.
  intros Hx. rewrite (Atoi_unsigned x) by done.
  rewrite parse_pretty by (unfold two63z, two64 in *; lia).
  by destruct (Z.leb_spec two63z (Z.of_N x)); [lia|].
Qed.

(** ** Keys composed of numbers *)

(** The character does not occur. *)
Fixpoint avoids (c : ascii) (s : string) : Prop :=
  match s with EmptyString => True | String a s => a ≠ c ∧ avoids c s end.

Lemma pretty_avoids c (x : N) : digit_value c = None → avoids c (pretty x).
Proof.
  intros Hc. assert (Hgo : ∀ x s, avoids c s → avoids c (pretty_N_go x s)).
  { clear x. intros x. induction (N.lt_wf_0 x) as [x _ IH]; intros s Hs.
    destruct (decide (x = 0)) as [->|H0]; [by rewrite pretty_N_go_0|].
    rewrite pretty_N_go_step by lia. apply IH; [apply N.div_lt; lia|]. split; [|done].
    intros Heq. rewrite <- Heq, digit_value_char in Hc by (by apply N.mod_lt). done. }
  unfold pretty, pretty_N. destruct (decide (x = 0)); [|by apply Hgo].
  split; [|done]. by intros <-.
Qed.

(** A separator that the first components avoid splits the key. *)
Lemma join_inj c u u' v v' :
  avoids c u → avoids c u' → u +:+ String c v = u' +:+ String c v' → u = u' ∧ v = v'.
Proof.
  revert u'. induction u as [|a u IH]; intros [|a' u'] Hu Hu' Heq; cbn in *.
  - by injection Heq.
  - injection Heq as <- _. by destruct Hu' as [[] _].
  - injection Heq as -> _. by destruct Hu as [[] _].
  - injection Heq as -> Heq. destruct (IH u') as [-> ->]; [by destruct Hu|by destruct Hu'|done|done].
Qed.

Lemma append_inj s u u' : s +:+ u = s +:+ u' → u = u'.
Proof. induction s as [|a s IH]; cbn; [done|]. intros [= Heq]. auto. Qed.

Lemma key_inj prefix (a b a' b' : N) :
  prefix +:+ pretty a +:+ "_" +:+ pretty b = prefix +:+ pretty a' +:+ "_" +:+ pretty b' →
  a = a' ∧ b = b'.
Proof.
  intros Heq%append_inj. apply join_inj in Heq; [|by apply pretty_avoids..].
  destruct Heq as [Ha Hb]. split; by apply (inj pretty).
Qed.
