(* ===== verification/Harness.v ===== *)
(** * The test harness (tests/util)

    The conditions and actions of the netrix test cases: predicates over the events
    of a run, and recorders that write into the variables of a run.  The netrix
    library is not part of the repository: its variables ([VarSet]), its own
    conditions ([NetrixConditions]) and the names of the roles in the raft library
    the tests link against ([RoleNames]) are classes. *)

From stdpp Require Import pretty.
From S2P Require Import Prelude GoStrings Pb Quorum Inflights Progress Tracker Confchange.
From S2P Require Import Util Storage Unstable RaftLog ReadOnly Raft.

(** ** Events and messages *)

(** [types.Event] and [types.EventType], as far as the harness looks at them. *)
Inductive EventType :=
  | GenericEventType (T : string) (Params : gmap string string)
  | MessageSendEventType (MessageID : string)
  | MessageReceiveEventType (MessageID : string)
  | OtherEventType.
Record Event := MkEvent { ev_Type : EventType; ev_Replica : string }.

(** [e.IsGeneric]. *)
Definition IsGeneric (e : Event) : bool :=
  match ev_Type e with GenericEventType _ _ => true | _ => false end.

(** The indexing [Params[k]] of a Go map, with the zero value when absent. *)
Definition param (ps : gmap string string) (k : string) : string := default "" (ps !! k).

(** [types.Message]; [tm_ParsedMessage] is the [RaftMsgWrapper] in it, if that is
    what was parsed. *)
Record TestMessage := MkTestMessage {
  tm_From : string;
  tm_To : string;
  tm_ParsedMessage : option Message;
}.

(** [types.Replica]; a value of [Info] is a string or something else. *)
Record Replica := MkReplica { rep_ID : string; rep_Info : gmap string (option string) }.

(** A value stored in the variables: the harness stores strings, ints and
    replica ids, and counters through [SetCounter]. *)
Inductive value := VString (s : string) | VInt (z : Z) | VReplicaID (s : string).

(** [c.Vars]; a counter is shared, so that [Incr] on it changes the variables. *)
Class VarSet (V : Type) := {
  GetString : V → string → option string;
  GetInt : V → string → option Z;
  GetCounter : V → string → option Z;
  Exists : V → string → bool;
  SetVar : V → string → value → V;
  SetCounter : V → string → V;
  Incr : V → string → V;
}.

(** A variable holds what was last stored under its key, and is read only as what
    it is. *)
Class VarSetLaws (V : Type) `{VarSet V} := {
  GetString_SetVar v k x k' :
    GetString (SetVar v k x) k' =
      if decide (k' = k) then match x with VString s => Some s | _ => None end else GetString v k';
  GetInt_SetVar v k x k' :
    GetInt (SetVar v k x) k' =
      if decide (k' = k) then match x with VInt z => Some z | _ => None end else GetInt v k';
  Exists_SetVar v k x k' : Exists (SetVar v k x) k' = bool_decide (k' = k) || Exists v k';
  GetCounter_SetCounter v k k' :
    GetCounter (SetCounter v k) k' = if decide (k' = k) then Some 0%Z else GetCounter v k';
  Exists_SetCounter v k k' : Exists (SetCounter v k) k' = bool_decide (k' = k) || Exists v k';
  GetCounter_Incr v k k' :
    GetCounter (Incr v k) k' =
      if decide (k' = k) then Z.succ <$> GetCounter v k else GetCounter v k';
  Exists_Incr v k k' : Exists (Incr v k) k' = Exists v k';
}.

(** [sm.Context] and [testlib.Context]: the variables, the message of an event, the
    capacity of the replica store and the replica it picks. *)
Record Context (V : Type) := MkContext {
  c_Vars : V;
  c_GetMessage : Event → option TestMessage;
  c_Cap : Z;
  c_GetRandom : option Replica;
}.
Arguments MkContext {V}.
Arguments c_Vars {V}.
Arguments c_GetMessage {V}.
Arguments c_Cap {V}.
Arguments c_GetRandom {V}.

(** The states of a [sm.StateMachine]: [sm.StartStateLabel] and the like, and the
    names the scenarios give. *)
Inductive label := StartStateLabel | SuccessStateLabel | FailStateLabel | Label (s : string).

(** [sm.Condition], and the conditions of the library.  [InState] is the method of
    the state machine of a test case; the operations with an [F] take a function
    that computes their argument. *)
Definition Condition (V : Type) := Event → Context V → bool.
Class NetrixConditions (V : Type) := {
  IsEventType : string → Condition V;
  And : Condition V → Condition V → Condition V;
  Or : Condition V → Condition V → Condition V;
  Not : Condition V → Condition V;
  IsMessageSend : Condition V;
  IsMessageReceive : Condition V;
  IsMessageFrom : string → Condition V;
  IsMessageTo : string → Condition V;
  IsMessageToF : (Event → Context V → string * bool * V) → Condition V;
  IsMessageBetween : string → string → Condition V;
  IsEventOf : string → Condition V;
  IsEventOfF : (Event → Context V → string * bool * V) → Condition V;
  CountGt : string → Z → Condition V;
  CountFLtF : (Event → Context V → string * bool) → (Event → Context V → Z * bool) → Condition V;
  InState : label → Condition V;
}.
Class NetrixConditionsLaws (V : Type) `{VarSet V} `{!NetrixConditions V} := {
  IsEventType_spec t e c : IsEventType t e c = true ↔ ∃ ps, ev_Type e = GenericEventType t ps;
  And_spec p q e c : And p q e c = p e c && q e c;
  CountGt_spec k n e c : CountGt k n e c = true → ∃ z, GetCounter (c_Vars c) k = Some z ∧ (n < z)%Z;
  CountFLtF_spec key bound e c : CountFLtF key bound e c = true → (key e c).2 = true;
}.

(** [StateLeader.String], [StateFollower.String] and [StateCandidate.String] of
    go.etcd.io/etcd/raft. *)
Class RoleNames := {
  StateLeader_String : string;
  StateFollower_String : string;
  StateCandidate_String : string;
}.

(** The conversions [int(u)] and [uint64(i)]. *)
Definition int_of_uint64 (n : N) : Z := i64 (Z.of_N n).
Definition uint64_of_int (z : Z) : N := Z.to_N (z mod Z.of_N two64).

Section Conditions.
Context {V : Type} `{VarSet V} `{NetrixConditions V} `{RoleNames}.
Implicit Types (e : Event) (c : Context V).

(** [GetMessageFromEvent]. *)
Definition GetMessageFromEvent e c : option Message :=
  match c_GetMessage c e with
  | None => None
  | Some m => tm_ParsedMessage m
  end.

(** [FReplicas]; the division of Go rounds to zero. *)
Definition FReplicas e c : Z * bool := (Z.quot (c_Cap c - 1) 2, true).

Definition IsMessageType (t : MessageType) : Condition V := λ e c,
  match GetMessageFromEvent e c with
  | None => false
  | Some msg => bool_decide (m_Type msg = t)
  end.

Definition IsAcceptingVote : Condition V := λ e c,
  match GetMessageFromEvent e c with
  | None => false
  | Some msg =>
      (bool_decide (m_Type msg = MsgVoteResp) || bool_decide (m_Type msg = MsgPreVoteResp)) &&
      negb (m_Reject msg)
  end.

Definition IsSenderSameAs (label : string) : Condition V := λ e c,
  match GetString (c_Vars c) label with
  | None => false
  | Some sender =>
      match c_GetMessage c e with
      | None => false
      | Some msg => bool_decide (sender = tm_From msg)
      end
  end.

Definition IsReceiverSameAs (label : string) : Condition V := λ e c,
  match GetString (c_Vars c) label with
  | None => false
  | Some sender =>
      match c_GetMessage c e with
      | None => false
      | Some msg => bool_decide (sender = tm_To msg)
      end
  end.

Definition IsStateChange : Condition V := IsEventType "TermChange".

Definition IsStateLeader : Condition V := λ e c,
  match ev_Type e with
  | GenericEventType T Params =>
      if negb (bool_decide (T = "StateChange")) then false
      else match Params !! "new_state" with
           | None => false
           | Some newState => if decide (newState = StateLeader_String) then true else false
           end
  | _ => false
  end.

Definition IsStateFollower : Condition V := λ e c,
  match ev_Type e with
  | GenericEventType T Params =>
      if negb (bool_decide (T = "StateChange")) then false
      else match Params !! "new_state" with
           | None => false
           | Some newState => bool_decide (newState = StateFollower_String)
           end
  | _ => false
  end.

Definition IsStateCandidate : Condition V := λ e c,
  match ev_Type e with
  | GenericEventType T Params =>
      if negb (bool_decide (T = "StateChange")) then false
      else match Params !! "new_state" with
           | None => false
           | Some newState => bool_decide (newState = StateCandidate_String)
           end
  | _ => false
  end.

(** The keys [_votes_%s_%s] and [_votes_%d_%d]. *)
Definition votes_key (term replica : string) : string := "_votes_" +:+ term +:+ "_" +:+ replica.

Definition IsCorrectLeader : Condition V := λ e c,
  match ev_Type e with
  | GenericEventType T Params =>
      if negb (bool_decide (T = "StateChange")) then false
      else match Params !! "new_state" with
           | None => false
           | Some newState =>
               if decide (newState = StateLeader_String) then
                 match Params !! "term" with
                 | None => false
                 | Some term =>
                     let f := Z.quot (c_Cap c - 1) 2 in
                     match GetCounter (c_Vars c) (votes_key term (ev_Replica e)) with
                     | None => false
                     | Some voteCount => bool_decide (f ≤ voteCount)%Z
                     end
                 end
               else false
           end
  | _ => false
  end.

Definition IsTermChange : Condition V := IsEventType "TermChange".

Definition IsNewTerm : Condition V := λ e c,
  match ev_Type e with
  | GenericEventType T Params =>
      if negb (bool_decide (T = "TermChange")) then false
      else match GetInt (c_Vars c) "_highest_term" with
           | None => false
           | Some curTerm =>
               match Params !! "term" with
               | None => false
               | Some termS => let (term, ok) := Atoi termS in
                               if ok then bool_decide (curTerm < term)%Z else false
               end
           end
  | _ => false
  end.

Definition IsTerm (term : Z) : Condition V := λ e c,
  match ev_Type e with
  | GenericEventType T Params =>
      if negb (bool_decide (T = "TermChange")) then false
      else match Params !! "term" with
           | None => false
           | Some termS => let (termE, ok) := Atoi termS in
                           if ok then bool_decide (termE = term) else false
           end
  | _ => false
  end.

Definition IsTermGte (g : Z) : Condition V := λ e c,
  match ev_Type e with
  | GenericEventType T Params =>
      if negb (bool_decide (T = "TermChange")) then false
      else match Params !! "term" with
           | None => false
           | Some termS => let (termE, ok) := Atoi termS in
                           if ok then bool_decide (g ≤ termE)%Z else false
           end
  | _ => false
  end.

Definition IsLeader (replica : string) : Condition V := λ e c,
  match ev_Type e with
  | GenericEventType T Params =>
      if bool_decide (T ≠ "StateChange") || bool_decide (param Params "new_state" ≠ StateLeader_String)
      then false else bool_decide (ev_Replica e = replica)
  | _ => false
  end.

Definition IsSameIndex (label : string) : Condition V := λ e c,
  match GetMessageFromEvent e c with
  | None => false
  | Some msg =>
      match GetInt (c_Vars c) label with
      | None => false
      | Some index => bool_decide (int_of_uint64 (m_Index msg) = index)
      end
  end.

(** [strconv.Itoa] is the decimal form. *)
Definition IsCommit (index : Z) : Condition V := λ e c,
  match ev_Type e with
  | GenericEventType T Params =>
      if bool_decide (T ≠ "Commit") then false
      else if bool_decide (param Params "index" ≠ pretty index) then false else true
  | _ => false
  end.

Definition MoreThanOneLeader : Condition V := λ e c,
  match GetInt (c_Vars c) "leaders" with
  | None => false
  | Some leaders => bool_decide (1 < leaders)%Z
  end.
End Conditions.

(** ** Actions *)

(** [testlib.Action] and [testlib.FilterFunc] change the variables only; the
    messages they return are always none, and a filter always answers false. *)
Section Actions.
Context {V : Type} `{VarSet V} `{RoleNames}.
Implicit Types (e : Event) (c : Context V).

Definition RecordMessageSender (label : string) e c : V :=
  match c_GetMessage c e with
  | None => c_Vars c
  | Some msg => SetVar (c_Vars c) label (VString (tm_From msg))
  end.

Definition RecordMessageReceiver (label : string) e c : V :=
  match c_GetMessage c e with
  | None => c_Vars c
  | Some msg => SetVar (c_Vars c) label (VString (tm_To msg))
  end.

(** [counter, _ := GetCounter(key); counter.Incr()]: an absent counter is a nil
    pointer. *)
Definition incr_counter (v : V) (key : string) : outcome V :=
  match GetCounter v key with
  | None => Panic
  | Some _ => Ok (Incr v key)
  end.

(** [if !Vars.Exists(key) { Vars.SetCounter(key) }] before it. *)
Definition count_key (v : V) (key : string) : outcome V :=
  incr_counter (if Exists v key then v else SetCounter v key) key.

Definition CountVotes e c : outcome V :=
  match GetMessageFromEvent e c with
  | None => Ok (c_Vars c)
  | Some msg =>
      if bool_decide (m_Type msg ≠ MsgVoteResp) || m_Reject msg then Ok (c_Vars c)
      else count_key (c_Vars c) (votes_key (pretty (m_Term msg)) (pretty (m_To msg)))
  end.

Definition CountTerm e c : V :=
  match GetMessageFromEvent e c with
  | None => c_Vars c
  | Some msg =>
      let key := "_highest_term" in
      let v := if Exists (c_Vars c) key then c_Vars c else SetVar (c_Vars c) key (VInt 0) in
      let curTerm := default 0%Z (GetInt v key) in
      if (uint64_of_int curTerm <? m_Term msg)%N then SetVar v key (VInt (int_of_uint64 (m_Term msg))) else v
  end.

Definition TrackLeader e c : V :=
  match ev_Type e with
  | GenericEventType T Params =>
      if negb (bool_decide (T = "StateChange")) then c_Vars c
      else match Params !! "new_state" with
           | None => c_Vars c
           | Some newState =>
               if negb (bool_decide (newState = StateLeader_String)) then c_Vars c
               else
                 let (term, _) := Atoi (param Params "term") in
                 let stale := match GetInt (c_Vars c) "_highest_term" with
                              | None => false
                              | Some curTerm => bool_decide (term < curTerm)%Z
                              end in
                 if stale then c_Vars c
                 else
                   let key := "_leader_" +:+ param Params "term" in
                   SetVar (SetVar (c_Vars c) key (VReplicaID (ev_Replica e))) "_highest_term" (VInt term)
           end
  | _ => c_Vars c
  end.

Definition RecordTerm (as_ : string) e c : V :=
  match ev_Type e with
  | GenericEventType T Params =>
      if bool_decide (T = "StateChange") then SetVar (c_Vars c) as_ (VString (param Params "term"))
      else c_Vars c
  | MessageSendEventType _ =>
      match GetMessageFromEvent e c with
      | None => c_Vars c
      | Some message => SetVar (c_Vars c) as_ (VString (pretty (m_Term message)))
      end
  | _ => c_Vars c
  end.

Definition CountLeaderChanges e c : outcome V :=
  if negb (IsGeneric e) then Ok (c_Vars c)
  else match ev_Type e with
  | GenericEventType T Params =>
      if bool_decide (T ≠ "StateChange") || bool_decide (param Params "new_state" ≠ StateLeader_String)
      then Ok (c_Vars c)
      else match GetString (c_Vars c) "leader" with
           | None => Ok (c_Vars c)
           | Some curLeader =>
               if bool_decide (curLeader ≠ ev_Replica e) then
                 count_key (SetVar (c_Vars c) "leader" (VString (ev_Replica e))) "leaderCount"
               else Ok (c_Vars c)
           end
  | _ => Ok (c_Vars c)
  end.

Definition RecordIndex (label : string) e c : V :=
  match GetMessageFromEvent e c with
  | None => c_Vars c
  | Some msg => SetVar (c_Vars c) label (VInt (int_of_uint64 (m_Index msg)))
  end.

Definition CountTermLeader e c : V :=
  match ev_Type e with
  | GenericEventType T Params =>
      if negb (bool_decide (T = "StateChange")) then c_Vars c
      else match Params !! "new_state" with
           | None => c_Vars c
           | Some newState =>
               if bool_decide (newState = StateLeader_String) then
                 let key := "leaders" in
                 if Exists (c_Vars c) key then
                   let cur := default 0%Z (GetInt (c_Vars c) key) in
                   SetVar (c_Vars c) key (VInt (i64 (cur + 1)))
                 else SetVar (c_Vars c) key (VInt 1)
               else c_Vars c
           end
  | _ => c_Vars c
  end.

(** [PickRandomReplica]: the variables, or no replica to pick. *)
Definition PickRandomReplica c : option V :=
  match c_GetRandom c with
  | None => None
  | Some r => Some (SetVar (c_Vars c) "_random_replica" (VString (rep_ID r)))
  end.

(** [RandomReplica]: the picked replica, remembered. *)
Definition RandomReplica e c : string * bool * V :=
  match GetString (c_Vars c) "_random_replica" with
  | None =>
      match c_GetRandom c with
      | None => ("", false, c_Vars c)
      | Some r => (rep_ID r, true, SetVar (c_Vars c) "_random_replica" (VString (rep_ID r)))
      end
  | Some rID => (rID, true, c_Vars c)
  end.
End Actions.

(** ** The client of the HTTP interface *)

(** [net/http] as [SetKeyValue] uses it: building a request of a method, a URL and
    a body may fail, and so may sending it, which changes the world. *)
Class HTTPClient (W : Type) := {
  Request : Type;
  NewRequest : string → string → string → option Request;
  Do : Request → W → bool * W;
}.

(** The errors of [SetKeyValue]. *)
Inductive SetKeyValue_error := NoAddr | InvalidAddr | NoRequest | RequestFailed.

Section Client.
Context {W : Type} `{HTTPClient W}.

Definition SetKeyValue (replica : Replica) (key value : string) (w : W) : option SetKeyValue_error * W :=
  match rep_Info replica !! "http_api_addr" with
  | None => (Some NoAddr, w)
  | Some apiAddrI =>
      match apiAddrI with
      | None => (Some InvalidAddr, w)
      | Some apiAddr =>
          match NewRequest "PUT" ("http://" +:+ apiAddr +:+ "/" +:+ key) value with
          | None => (Some NoRequest, w)
          | Some request =>
              let (ok, w) := Do request w in
              if ok then (None, w) else (Some RequestFailed, w)
          end
      end
  end.

(** The setup function of [AllowAllTest]: the replicas in turn, until one accepts. *)
Fixpoint set_first (replicas : list Replica) (key value : string) (w : W) : W :=
  match replicas with
  | [] => w
  | replica :: replicas =>
      match SetKeyValue replica key value w with
      | (None, w) => w
      | (Some _, w) => set_first replicas key value w
      end
  end.

(** [setKeyValue] of cmd/pct_strat.go: whether it failed. *)
Definition setKeyValue (apiAddr key value : string) (w : W) : bool * W :=
  match NewRequest "PUT" ("http://" +:+ apiAddr +:+ "/" +:+ key) value with
  | None => (true, w)
  | Some req => let (ok, w) := Do req w in (negb ok, w)
  end.

(** The loop of [pctSetupFunc]. *)
Fixpoint pct_setup (replicas : list Replica) (w : W) : W :=
  match replicas with
  | [] => w
  | replica :: replicas =>
      match rep_Info replica !! "http_api_addr" with
      | Some (Some addrS) =>
          let (err, w) := setKeyValue addrS "test" "test" w in
          if err then pct_setup replicas w else w
      | _ => pct_setup replicas w
      end
  end.

(** [SetKeyValueAction]; the error is dropped. *)
Definition SetKeyValueAction {V} (key value : string) (c : Context V) (w : W) : W :=
  match c_GetRandom c with
  | None => w
  | Some replica => (SetKeyValue replica key value w).2
  end.
End Client.

(** ** Parsing *)

(** [RaftMsgParser.Parse]: the wrapper of the decoded message. *)
Definition RaftMsgParser_Parse (Unmarshal : string → result Message) (data : string) : result Message :=
  msg ← Unmarshal data; Val msg.
(** [RaftMsgWrapper.Clone]. *)
Definition RaftMsgWrapper_Clone (r : Message) : Message := r.

(** ** Lemmas *)

Section Facts.
Context {V : Type} `{VarSet V} `{!VarSetLaws V} `{!NetrixConditions V} `{!NetrixConditionsLaws V} `{RoleNames}.
Implicit Types (e : Event) (c : Context V).

(** What [IsStateChange] looks for is no change of state. *)
Lemma IsStateChange_other e c q :
  (∀ T ps, ev_Type e = GenericEventType T ps → T ≠ "StateChange" → q e c = false) →
  And IsStateChange q e c = false.
Proof.
  intros Hq. rewrite And_spec. apply andb_false_iff. destruct (IsStateChange e c) eqn:Hs; [|by left]. right.
  apply IsEventType_spec in Hs as [ps Hs]. by eapply Hq.
Qed.
Lemma IsStateLeader_other e c T ps :
  ev_Type e = GenericEventType T ps → T ≠ "StateChange" → IsStateLeader e c = false.
Proof. unfold IsStateLeader. intros -> HT. by rewrite bool_decide_eq_false_2. Qed.

(** The messages that [CountVotes] counts for a candidate in a term. *)
Definition is_grant_for (t id : N) (m : Message) : bool :=
  bool_decide (m_Type m = MsgVoteResp) && negb (m_Reject m) &&
  (m_Term m =? t)%N && (m_To m =? id)%N.

(** [CountVotes] on the events of a run, in the same context but for the
    variables. *)
Definition with_vars c (v : V) : Context V :=
  MkContext v (c_GetMessage c) (c_Cap c) (c_GetRandom c).
Fixpoint count_votes_run (es : list Event) c : outcome (Context V) :=
  match es with
  | [] => Ok c
  | e :: es => v ← CountVotes e c; count_votes_run es (with_vars c v)
  end.

(** The counted grants among the events. *)
Definition grants_for (t id : N) (c : Context V) (es : list Event) : Z :=
  Z.of_nat (countb (λ e, match GetMessageFromEvent e c with
                         | Some m => is_grant_for t id m | None => false end) es).

(** The counter of a candidate in a term, zero when it does not exist. *)
Definition vote_count c (t id : N) : Z :=
  default 0%Z (GetCounter (c_Vars c) (votes_key (pretty t) (pretty id))).
(** The keys of the counters hold counters. *)
Definition counters_ok c : Prop :=
  ∀ t id : N, Exists (c_Vars c) (votes_key (pretty t) (pretty id)) = true ↔
    is_Some (GetCounter (c_Vars c) (votes_key (pretty t) (pretty id))).

Lemma votes_key_inj (t id t' id' : N) :
  votes_key (pretty t) (pretty id) = votes_key (pretty t') (pretty id') ↔ t = t' ∧ id = id'.
Proof. split; [apply key_inj|by intros [-> ->]]. Qed.

Lemma count_key_effect c (t id : N) :
  counters_ok c →
  ∃ v, count_key (c_Vars c) (votes_key (pretty t) (pretty id)) = Ok v ∧
    counters_ok (with_vars c v) ∧
    ∀ t' id', vote_count (with_vars c v) t' id' =
      (vote_count c t' id' + if bool_decide (t' = t ∧ id' = id) then 1 else 0)%Z ∧
      (is_Some (GetCounter v (votes_key (pretty t') (pretty id'))) ↔
         is_Some (GetCounter (c_Vars c) (votes_key (pretty t') (pretty id'))) ∨ t' = t ∧ id' = id).
Proof.
  intros Hok. unfold count_key, incr_counter. set (k := votes_key _ _).
  set (v := if Exists (c_Vars c) k then c_Vars c else SetCounter (c_Vars c) k).
  assert (Hk : ∀ t' id', votes_key (pretty t') (pretty id') = k ↔ t' = t ∧ id' = id)
    by (intros; apply votes_key_inj).
  assert (Hv : GetCounter v k = Some (vote_count c t id) ∧
    (∀ k', k' ≠ k → GetCounter v k' = GetCounter (c_Vars c) k' ∧ Exists v k' = Exists (c_Vars c) k') ∧
    Exists v k = true).
  { unfold v, vote_count. fold k. destruct (Exists (c_Vars c) k) eqn:He.
    - apply Hok in He as [z Hz]. fold k in Hz. rewrite Hz. by split_and!; [..|apply Hok; eauto].
    - assert (Hn : GetCounter (c_Vars c) k = None).
      { apply eq_None_not_Some. intros Hs. apply Hok in Hs. fold k in Hs. congruence. }
      rewrite Hn. split_and!.
      + by rewrite GetCounter_SetCounter, decide_True.
      + intros k' Hne. by rewrite GetCounter_SetCounter, Exists_SetCounter, decide_False, bool_decide_eq_false_2.
      + by rewrite Exists_SetCounter, bool_decide_eq_true_2. }
  destruct Hv as (Hget & Hother & Hex). clearbody v. rewrite Hget. exists (Incr v k). split; [done|].
  assert (Hall : ∀ t' id', GetCounter (Incr v k) (votes_key (pretty t') (pretty id')) =
    if bool_decide (t' = t ∧ id' = id) then Some (vote_count c t id + 1)%Z
    else GetCounter (c_Vars c) (votes_key (pretty t') (pretty id'))).
  { intros t' id'. rewrite GetCounter_Incr. case_bool_decide as Hd.
    - apply Hk in Hd as ->. by rewrite decide_True, Hget.
    - rewrite <- Hk in Hd. rewrite decide_False by done. by apply Hother. }
  split.
  - intros t' id'. cbn. rewrite Exists_Incr, Hall. case_bool_decide as Hd.
    + apply Hk in Hd as ->. rewrite Hex. split; [by eexists|done].
    + rewrite <- Hk in Hd. destruct (Hother _ Hd) as [_ ->]. apply Hok.
  - intros t' id'. unfold vote_count at 1. cbn. rewrite Hall. split.
    + case_bool_decide as Hd; [destruct Hd as [-> ->]; done|]. by rewrite Z.add_0_r.
    + case_bool_decide as Hd; [|tauto]. split; [by right|by eexists].
Qed.

Lemma CountVotes_effect e c :
  counters_ok c →
  ∃ v, CountVotes e c = Ok v ∧ counters_ok (with_vars c v) ∧
    ∀ t id, vote_count (with_vars c v) t id = (vote_count c t id + grants_for t id c [e])%Z ∧
      (is_Some (GetCounter v (votes_key (pretty t) (pretty id))) ↔
       is_Some (GetCounter (c_Vars c) (votes_key (pretty t) (pretty id))) ∨
         (0 < grants_for t id c [e])%Z).
Proof.
  intros Hok. unfold CountVotes, grants_for.
  assert (Hsame : (∀ t id, countb (λ e, match GetMessageFromEvent e c with
      | Some m => is_grant_for t id m | None => false end) [e] = 0%nat) →
    ∃ v, Ok (c_Vars c) = Ok v ∧ counters_ok (with_vars c v) ∧
    ∀ t id, vote_count (with_vars c v) t id = (vote_count c t id + grants_for t id c [e])%Z ∧
      (is_Some (GetCounter v (votes_key (pretty t) (pretty id))) ↔
       is_Some (GetCounter (c_Vars c) (votes_key (pretty t) (pretty id))) ∨
         (0 < grants_for t id c [e])%Z)).
  { intros Hz. exists (c_Vars c). split; [done|]. split; [done|]. intros t id. unfold grants_for.
    rewrite Hz. split; [unfold vote_count; cbn; lia|]. split; [by left|]. intros [?|?]; [done|]. exfalso. lia. }
  destruct (GetMessageFromEvent e c) as [msg|] eqn:Hm.
  2: { apply Hsame. intros t id. rewrite countb_cons, Hm. done. }
  destruct (bool_decide (m_Type msg ≠ MsgVoteResp) || m_Reject msg) eqn:Hb.
  { apply Hsame. intros t id. rewrite countb_cons, Hm. unfold is_grant_for.
    apply orb_true_iff in Hb as [Hb%bool_decide_eq_true_1| ->].
    - by rewrite bool_decide_eq_false_2.
    - by rewrite andb_false_r. }
  apply orb_false_iff in Hb as [Hb%bool_decide_eq_false_1%dec_stable Hr].
  destruct (count_key_effect c (m_Term msg) (m_To msg) Hok) as (v & Hv & Hok' & Hc).
  exists v. split; [done|]. split; [done|]. intros t id. destruct (Hc t id) as [Hct Hs].
  rewrite Hct, countb_cons, Hm. unfold is_grant_for. rewrite Hr, (bool_decide_eq_true_2 (m_Type msg = MsgVoteResp)) by done.
  cbn [negb andb].
  assert (Heq : (m_Term msg =? t)%N && (m_To msg =? id)%N = bool_decide (t = m_Term msg ∧ id = m_To msg)).
  { destruct (N.eqb_spec (m_Term msg) t), (N.eqb_spec (m_To msg) id); cbn; symmetry;
      (apply bool_decide_eq_true_2 || apply bool_decide_eq_false_2); naive_solver. }
  rewrite Heq, countb_nil, Hs. case_bool_decide as Hd; (split; [lia|]).
  - split; [|by right]. intros _. right. lia.
  - split; [|intros [?|?]; [by left|lia]]. intros [?|?]; [by left|done].
Qed.

Lemma grants_for_cons t id c e es v :
  grants_for t id c (e :: es) = (grants_for t id c [e] + grants_for t id (with_vars c v) es)%Z.
Proof. unfold grants_for. by rewrite !countb_cons, countb_nil, Nat.add_0_r, Nat2Z.inj_add. Qed.

Lemma grants_for_nonneg t id c es : (0 ≤ grants_for t id c es)%Z.
Proof. unfold grants_for. lia. Qed.

Lemma count_votes_run_effect es c :
  counters_ok c →
  ∃ v, count_votes_run es c = Ok (with_vars c v) ∧ counters_ok (with_vars c v) ∧
    ∀ t id, vote_count (with_vars c v) t id = (vote_count c t id + grants_for t id c es)%Z ∧
      (is_Some (GetCounter v (votes_key (pretty t) (pretty id))) ↔
       is_Some (GetCounter (c_Vars c) (votes_key (pretty t) (pretty id))) ∨
         (0 < grants_for t id c es)%Z).
Proof.
  revert c. induction es as [|e es IH]; intros c Hok; cbn [count_votes_run].
  { exists (c_Vars c). split; [by destruct c|]. split; [done|]. intros t id. unfold grants_for, vote_count.
    cbn. split; [lia|]. split; [by left|]. intros [?|?]; [done|lia]. }
  destruct (CountVotes_effect e c Hok) as (v & -> & Hok1 & Hc1). cbn [mbind outcome_bind].
  destruct (IH (with_vars c v) Hok1) as (v' & -> & Hok2 & Hc2). exists v'. split; [done|].
  split; [done|]. intros t id. destruct (Hc1 t id) as [H1 Hs1], (Hc2 t id) as [H2 Hs2].
  rewrite (grants_for_cons _ _ _ _ _ v). change (vote_count (with_vars c v') t id) with (vote_count (with_vars (with_vars c v) v') t id).
  split; [lia|]. rewrite Hs2. cbn [c_Vars with_vars]. rewrite Hs1. rewrite Logic.or_assoc. apply or_iff_compat_l.
  pose proof (grants_for_nonneg t id c [e]). pose proof (grants_for_nonneg t id (with_vars c v) es). lia.
Qed.

(** Half of the replicas, rounded down, as the leader test computes it. *)
Lemma majority_threshold (n g : Z) : (0 < n)%Z →
  (Z.quot (n - 1) 2 ≤ g)%Z ↔ (n + (if Z.odd n then 1 else 0) ≤ 2 * (g + 1))%Z.
Proof.
  intros Hn. rewrite Z.quot_div_nonneg by lia. pose proof (Z.div_mod (n - 1) 2 ltac:(lia)) as Hd.
  pose proof (Z.mod_pos_bound (n - 1) 2 ltac:(lia)) as Hm. pose proof (Z.mod_pos_bound n 2 ltac:(lia)).
  pose proof (Z.div_mod n 2 ltac:(lia)). pose proof (Zmod_odd n) as Ho. destruct (Z.odd n); lia.
Qed.

(** An election that is announced as the program announces it. *)
Definition leader_event (t id : N) : Event :=
  MkEvent (GenericEventType "StateChange" (<["new_state" := StateLeader_String]> {["term" := pretty t]}))
    (pretty id).
End Facts.

(** ** Properties *)

(** C34: The oracle of the leader test counts events: after [CountVotes] has seen any
    events of a run that starts without counters, its counter of a candidate and a
    term is the number of events that show a granted vote response to this
    candidate in this term (a response that is shown twice, where it is sent and
    where it is received, counts twice).  [IsCorrectLeader] accepts the leader of a
    term if and only if there was such an event and, counting each as a vote and the
    leader's own with them, they are more than half of the replicas when their
    number is odd, but only at least half when it is even. *)
Theorem IsCorrectLeader_counts {V} `{VarSet V} `{!VarSetLaws V} `{RoleNames}
    (es : list Event) (c : Context V) (t id : N) :
  (∀ k, GetCounter (c_Vars c) k = None ∧ Exists (c_Vars c) k = false) →
  ∃ v, count_votes_run es c = Ok (with_vars c v) ∧
    vote_count (with_vars c v) t id = grants_for t id c es ∧
    IsCorrectLeader (leader_event t id) (with_vars c v) =
      bool_decide (1 ≤ grants_for t id c es ∧ Z.quot (c_Cap c - 1) 2 ≤ grants_for t id c es)%Z ∧
    ((0 < c_Cap c)%Z → ∀ votes, votes = (grants_for t id c es + 1)%Z →
       IsCorrectLeader (leader_event t id) (with_vars c v) =
         bool_decide (2 ≤ votes ∧ c_Cap c + (if Z.odd (c_Cap c) then 1 else 0) ≤ 2 * votes)%Z).
Proof.
  intros Hnew. assert (Hok : counters_ok c).
  { intros t' id'. destruct (Hnew (votes_key (pretty t') (pretty id'))) as [-> ->].
    split; [done|by intros [? ?]]. }
  destruct (count_votes_run_effect es c Hok) as (v & Hv & Hok' & Hc). exists v. split; [done|].
  destruct (Hc t id) as [Hn Hs]. unfold vote_count in Hn at 2. rewrite (proj1 (Hnew _)) in Hn. cbn in Hn.
  split; [exact Hn|]. match goal with |- ?P ∧ _ => cut P end.
  { intros HP. split; [exact HP|]. intros Hcap votes ->. rewrite HP. apply bool_decide_ext.
    rewrite (majority_threshold _ _ Hcap). lia. }
  unfold IsCorrectLeader, leader_event. cbn [ev_Type ev_Replica].
  rewrite bool_decide_eq_true_2 by done. cbn [negb].
  rewrite lookup_insert_eq, decide_True by done.
  rewrite lookup_insert_ne, lookup_singleton_eq by done. unfold vote_count in Hn.
  change (c_Vars (with_vars c v)) with v in *. change (c_Cap (with_vars c v)) with (c_Cap c).
  pose proof (grants_for_nonneg t id c es). rewrite (proj1 (Hnew _)) in Hs.
  destruct (GetCounter v (votes_key (pretty t) (pretty id))) as [z|] eqn:Hz.
  - cbn in Hn. subst z. apply bool_decide_ext. split; [|by intros []]. intros Hle. split; [|done].
    destruct (proj1 Hs) as [[? ?]|?]; [by eexists|done|lia].
  - symmetry. apply bool_decide_eq_false_2. intros [Hone _].
    destruct (proj2 Hs) as [? ?]; [right; lia|congruence].
Qed.

(** Variables as a map, to evaluate the harness. *)
Inductive stored := SValue (x : value) | SCounter (z : Z).
Definition ex_get {A} (f : stored → option A) (v : gmap string stored) (k : string) : option A :=
  v !! k ≫= f.
#[local] Instance ex_vars : VarSet (gmap string stored) := {
  GetString := ex_get (λ s, match s with SValue (VString x) => Some x | _ => None end);
  GetInt := ex_get (λ s, match s with SValue (VInt z) => Some z | _ => None end);
  GetCounter := ex_get (λ s, match s with SCounter z => Some z | _ => None end);
  Exists v k := bool_decide (is_Some (v !! k));
  SetVar v k x := <[k := SValue x]> v;
  SetCounter v k := <[k := SCounter 0]> v;
  Incr v k := alter (λ s, match s with SCounter z => SCounter (Z.succ z) | s => s end) k v;
}.
#[local] Instance ex_vars_laws : VarSetLaws (gmap string stored).
Proof.
  assert (Hins : ∀ A (f : stored → option A) v k x k',
    ex_get f (<[k := x]> v) k' = if decide (k' = k) then f x else ex_get f v k').
  { intros A f v k x k'. unfold ex_get. destruct (decide (k' = k)) as [->|Hne].
    - by rewrite lookup_insert_eq.
    - by rewrite lookup_insert_ne. }
  assert (Hex : ∀ (v : gmap string stored) k x k',
    bool_decide (is_Some (<[k := x]> v !! k')) = bool_decide (k' = k) || bool_decide (is_Some (v !! k'))).
  { intros v k x k'. destruct (decide (k' = k)) as [->|Hne].
    - rewrite lookup_insert_eq, bool_decide_eq_true_2, (bool_decide_eq_true_2 (k = k)) by eauto. done.
    - by rewrite lookup_insert_ne, (bool_decide_eq_false_2 (k' = k)). }
  assert (Halt : ∀ (v : gmap string stored) k k', k' ≠ k → ∀ f, alter f k v !! k' = v !! k')
    by (intros; by rewrite lookup_alter_ne).
  split; intros; cbn; try apply Hins; try apply Hex.
  - unfold ex_get. destruct (decide (k' = k)) as [->|Hne]; [|by rewrite lookup_alter_ne].
    rewrite lookup_alter_eq. by destruct (v !! k) as [[]|].
  - apply bool_decide_ext. destruct (decide (k' = k)) as [->|Hne]; [|by rewrite lookup_alter_ne].
    rewrite lookup_alter_eq. by rewrite fmap_is_Some.
Qed.
#[local] Instance ex_roles : RoleNames := {
  StateLeader_String := RaftState_String StateLeader;
  StateFollower_String := RaftState_String StateFollower;
  StateCandidate_String := RaftState_String StateCandidate;
}.

(** Five replicas: nodes 2 and 3 grant node 1 their votes of term 3, node 4 refuses. *)
Definition ex_response (from : N) (reject : bool) : Message :=
  (msg MsgVoteResp 1%N) <| m_From := from |> <| m_Term := 3%N |> <| m_Reject := reject |>.
Definition ex_message (e : Event) : option TestMessage :=
  match ev_Type e with
  | MessageReceiveEventType id =>
      let from := if decide (id = "m2") then 2 else if decide (id = "m3") then 3 else 4 in
      Some (MkTestMessage (pretty from) "1" (Some (ex_response from (from =? 4)%N)))
  | _ => None
  end%N.
Definition ex_context : Context (gmap string stored) := MkContext ∅ ex_message 5 None.
Definition ex_events : list Event :=
  (λ id, MkEvent (MessageReceiveEventType id) "1") <$> ["m2"; "m4"; "m3"].

Lemma IsCorrectLeader_counts_witness :
  ∃ v, count_votes_run ex_events ex_context = Ok (with_vars ex_context v) ∧
    IsCorrectLeader (leader_event 3 1) (with_vars ex_context v) = true ∧
    IsCorrectLeader (leader_event 3 2) (with_vars ex_context v) = false.
Proof.
  destruct (IsCorrectLeader_counts ex_events ex_context 3 1) as (v & Hv & _ & H1 & _); [by intros k|].
  destruct (IsCorrectLeader_counts ex_events ex_context 3 2) as (v2 & Hv2 & _ & H2 & _); [by intros k|].
  exists v. split; [exact Hv|]. assert (v2 = v) as ->.
  { rewrite Hv in Hv2. by injection Hv2. }
  rewrite H1, H2. split; vm_compute; reflexivity.
Defined.
