(* ===== verification/Scenarios.v ===== *)
(** * The test scenarios (tests, tests/normal, GetTest of cmd/strategies.go)

    A test case is a state machine over events and a set of filters over messages,
    and a property is a state machine.  Both are built by calls of the netrix
    library, which is not part of the repository: a scenario is modelled as the
    list of the calls it makes, with the conditions and actions of the file Harness
    in them. *)

From stdpp Require Import pretty.
From S2P Require Import Prelude GoStrings Pb Quorum Inflights Progress Tracker Confchange.
From S2P Require Import Util Storage Unstable RaftLog ReadOnly Raft Harness.

(** ** The calls *)

(** A transition [On(condition, label)] from a state; the action is the one of
    [sm.ConditionWithAction]. *)
Record transition (V : Type) := MkTransition {
  tr_from : label;
  tr_cond : Condition V;
  tr_action : option (Event → Context V → outcome V);
  tr_to : label;
}.
Arguments MkTransition {V}.
Arguments tr_from {V}.
Arguments tr_cond {V}.
Arguments tr_action {V}.
Arguments tr_to {V}.

(** [sm.StateMachine]: the transitions in the order they were added, and the states
    marked as successful. *)
Record StateMachine (V : Type) := MkStateMachine {
  sm_transitions : list (transition V);
  sm_success : list label;
}.
Arguments MkStateMachine {V}.
Arguments sm_transitions {V}.
Arguments sm_success {V}.

(** The actions of [testlib], and those of the harness. *)
Inductive Action (V : Type) :=
  | DropMessage
  | DeliverMessage
  | StoreInSet (set : string)
  | DeliverAllFromSet (set : string)
  | IncrCounter (key : Event → Context V → string * bool)
  | OnceAction (name : string) (a : Action V)
  | Recorder (f : Event → Context V → V).
Arguments DropMessage {V}.
Arguments DeliverMessage {V}.
Arguments StoreInSet {V}.
Arguments DeliverAllFromSet {V}.
Arguments IncrCounter {V}.
Arguments OnceAction {V}.
Arguments Recorder {V}.

(** [testlib.If(condition).Then(actions)], [testlib.IsolateNode], or a filter of
    the harness. *)
Inductive Filter (V : Type) :=
  | IfThen (c : Condition V) (actions : list (Action V))
  | IsolateNode (replica : string)
  | FilterFunc (f : Event → Context V → outcome V).
Arguments IfThen {V}.
Arguments IsolateNode {V}.
Arguments FilterFunc {V}.

(** The setup function of a test case: none, [PickRandomReplica], or the first
    [SetKeyValue] of [AllowAllTest] that succeeds. *)
Inductive Setup := NoSetup | PickReplica | SetFirst (key value : string).

(** [testlib.TestCase]; the timeout is in seconds. *)
Record TestCase (V : Type) := MkTestCase {
  tc_Name : string;
  tc_Timeout : Z;
  tc_StateMachine : StateMachine V;
  tc_Filters : list (Filter V);
  tc_Setup : Setup;
}.
Arguments MkTestCase {V}.
Arguments tc_Name {V}.
Arguments tc_Timeout {V}.
Arguments tc_StateMachine {V}.
Arguments tc_Filters {V}.
Arguments tc_Setup {V}.

Section Scenarios.
Context {V : Type} `{VarSet V} `{!NetrixConditions V} `{RoleNames}.

Notation "p 'AND' q" := (And p q) (at level 40, left associativity).
Notation "p 'OR' q" := (Or p q) (at level 40, left associativity).

(** [sm.NewStateMachine], and one with plain transitions and no success mark. *)
Definition NewStateMachine : StateMachine V := MkStateMachine [] [].
Definition machine (ts : list (label * Condition V * label)) : StateMachine V :=
  MkStateMachine ((λ '(s, p, t), MkTransition s p None t) <$> ts) [].
Definition On (s : label) (p : Condition V) (t : label) : label * Condition V * label := (s, p, t).

Definition drop_between (ids : list (string * string)) : list (Filter V) :=
  (λ '(a, b), IfThen (IsMessageBetween a b) [DropMessage]) <$> ids.

(** *** liveness.go, livenessNoCQ.go, noliveness.go *)

Definition LivenessTest : TestCase V :=
  MkTestCase "LivenessBugTwo" 15 NewStateMachine
    (drop_between [("4", "1"); ("4", "3"); ("4", "5"); ("5", "1"); ("5", "2")]) NoSetup.

Definition LivenessProperty : StateMachine V :=
  MkStateMachine
    [MkTransition StartStateLabel IsStateLeader (Some CountLeaderChanges) StartStateLabel;
     MkTransition StartStateLabel (CountGt "leaderCount" 4) None FailStateLabel]
    [StartStateLabel].

Definition LivenessNoCQTest : TestCase V :=
  MkTestCase "LivenessBugThree" 15 NewStateMachine
    (drop_between [("4", "1"); ("4", "3"); ("5", "1"); ("5", "2")]) NoSetup.

Definition LivenessNoCQProperty : StateMachine V :=
  MkStateMachine
    [MkTransition StartStateLabel IsStateLeader (Some CountLeaderChanges) StartStateLabel;
     MkTransition StartStateLabel (CountGt "leaderCount" 4) None FailStateLabel]
    [StartStateLabel].

Definition NoLivenessTest : TestCase V :=
  MkTestCase "LivenessBugPreVote" 15
    (machine [On StartStateLabel (IsLeader "4") (Label "inter1")])
    [IsolateNode "5";
     IfThen (InState (Label "inter1") AND (IsMessageBetween "1" "4" OR IsMessageBetween "3" "4")) [DropMessage];
     IfThen (InState StartStateLabel AND (IsMessageType MsgVote OR IsMessageType MsgPreVote) AND
               Not (IsMessageFrom "4")) [DropMessage]] NoSetup.

Definition NoLivenessProperty : StateMachine V :=
  MkStateMachine
    [MkTransition StartStateLabel IsStateLeader (Some CountLeaderChanges) StartStateLabel;
     MkTransition StartStateLabel (CountGt "leaderCount" 4) None FailStateLabel]
    [StartStateLabel].

(** *** confchangebug.go: nothing is built *)

Definition ConfChangeBugTest : option (TestCase V) := None.
Definition ConfChangeBugProperty : option (StateMachine V) := None.

(** *** dropheartbeat.go *)

Definition DropHeartbeat_machine : StateMachine V :=
  machine
    [On StartStateLabel (IsStateChange AND IsStateLeader) (Label "LeaderElected");
     On (Label "LeaderElected") (IsEventOfF RandomReplica AND IsStateChange AND IsStateCandidate)
       SuccessStateLabel].

Definition DropHeartbeatTest : TestCase V :=
  MkTestCase "DropHeartbeat" 60 DropHeartbeat_machine
    [IfThen (IsMessageSend AND IsMessageToF RandomReplica AND IsMessageType MsgVoteResp) [DropMessage];
     IfThen (InState (Label "LeaderElected") AND IsMessageSend AND IsMessageToF RandomReplica AND
               (IsMessageType MsgHeartbeat OR IsMessageType MsgApp OR IsMessageType MsgSnap))
       [DropMessage]] PickReplica.

Definition DropHeartbeatProperty : StateMachine V :=
  machine
    [On StartStateLabel (IsStateChange AND IsStateLeader) (Label "LeaderElected");
     On (Label "LeaderElected") (IsEventOfF RandomReplica AND IsStateChange AND IsStateCandidate)
       SuccessStateLabel].

(** *** dropvotes.go *)

Definition DropVotesTest : TestCase V :=
  MkTestCase "DropVotes" 120 NewStateMachine
    [IfThen (IsMessageType MsgVote AND IsMessageFrom "4") [DropMessage]] NoSetup.

Definition DropVotesProperty : StateMachine V :=
  machine
    [On StartStateLabel (IsMessageReceive AND (IsMessageType MsgVoteResp AND IsMessageFrom "4"))
       (Label "VoteDelivered");
     On StartStateLabel (IsMessageSend AND (IsMessageType MsgApp AND IsMessageTo "4")) SuccessStateLabel].

(** *** dropfvotes.go *)

Definition votesByTermByReplica (e : Event) (c : Context V) : string * bool :=
  match GetMessageFromEvent e c with
  | None => ("", false)
  | Some m => ("_votesDropped_" +:+ pretty (m_Term m) +:+ "_" +:+ pretty (m_To m), false)
  end.

Definition DropFVotesTest : TestCase V :=
  MkTestCase "DropFVotes" 60
    (machine [On StartStateLabel (IsStateChange AND IsStateLeader) SuccessStateLabel])
    [IfThen (IsMessageSend AND IsMessageType MsgVoteResp AND CountFLtF votesByTermByReplica FReplicas)
       [DropMessage; IncrCounter votesByTermByReplica]] NoSetup.

Definition DropFVotesProperty : StateMachine V :=
  machine [On StartStateLabel (IsStateChange AND IsStateLeader) SuccessStateLabel].

(** *** dropappend.go *)

Definition DropAppendTest : TestCase V :=
  MkTestCase "DropAppend" 60 NewStateMachine
    [IfThen (IsMessageSend AND IsMessageType MsgApp)
       [OnceAction "recordIndex" (Recorder (RecordIndex "appIndex"));
        OnceAction "recordReceiver" (Recorder (RecordMessageReceiver "r"));
        OnceAction "dropMessage" DropMessage]] NoSetup.

Definition DropAppendProperty : StateMachine V :=
  machine
    [On StartStateLabel (IsMessageSend AND IsMessageType MsgApp) (Label "AppendObserved");
     On (Label "AppendObserved")
       (IsMessageSend AND IsMessageType MsgApp AND IsReceiverSameAs "r" AND IsSameIndex "appIndex")
       SuccessStateLabel].

(** *** revote.go, manyrevote.go, multirevote.go *)

Definition store_votes_of_4 : Filter V :=
  IfThen (InState StartStateLabel AND (IsMessageType MsgVoteResp AND IsMessageFrom "4"))
    [StoreInSet "reorderedVote"].

Definition ReVoteTest : TestCase V :=
  MkTestCase "SimpleReorder" 120
    (MkStateMachine [MkTransition StartStateLabel IsStateLeader None (Label "LeaderElected")]
       [Label "LeaderElected"])
    [store_votes_of_4;
     IfThen IsStateLeader [DeliverAllFromSet "reorderedVote"; DeliverMessage]] NoSetup.

Definition ReVoteProperty : StateMachine V :=
  MkStateMachine
    [MkTransition StartStateLabel IsStateLeader None (Label "LeaderElected");
     MkTransition (Label "LeaderElected")
       (IsMessageReceive AND (IsMessageType MsgVoteResp AND IsMessageFrom "4")) None (Label "VoteReceived")]
    [Label "VoteReceived"].

Definition ManyReVote_machine : StateMachine V :=
  MkStateMachine
    [MkTransition StartStateLabel IsStateLeader None (Label "LeaderElected");
     MkTransition (Label "LeaderElected") (IsStateFollower AND IsEventOf "4") None (Label "FourFollower")]
    [Label "FourFollower"].

Definition ManyReVoteTest : TestCase V :=
  MkTestCase "ManyReorder" 120 ManyReVote_machine
    [store_votes_of_4;
     IfThen (IsStateFollower AND IsEventOf "4") [DeliverAllFromSet "reorderedVote"; DeliverMessage]]
    NoSetup.

Definition ManyReVoteProperty : StateMachine V := ManyReVote_machine.

Definition MultiReVoteTest : TestCase V :=
  MkTestCase "MultiDrop" 120 NewStateMachine
    [IfThen (IsMessageSend AND (IsMessageType MsgAppResp AND IsMessageFrom "4")) [DropMessage]] NoSetup.

Definition MultiReVoteProperty : StateMachine V :=
  MkStateMachine
    [MkTransition StartStateLabel
       (IsMessageReceive AND (IsMessageType MsgVoteResp AND IsMessageFrom "4")) None (Label "VoteRespReceived");
     MkTransition StartStateLabel
       (IsMessageReceive AND (IsMessageType MsgAppResp AND IsMessageFrom "4")) None (Label "AppRespReceived");
     MkTransition StartStateLabel
       (IsMessageSend AND (IsMessageType MsgHeartbeat AND IsMessageTo "4")) None (Label "HeartbeatSent")]
    [Label "HeartbeatSent"].

(** *** dummy.go *)

Definition AllowAllTest : TestCase V :=
  MkTestCase "AllowAll" 10 NewStateMachine [IfThen IsMessageSend [DeliverMessage]]
    (SetFirst "hello" "world").

(** *** normal *)

Definition record_receiver : list (Action V) :=
  [OnceAction "recordReceiver" (Recorder (RecordMessageReceiver "r")); DeliverMessage].

Definition ExpectAppend : TestCase V :=
  MkTestCase "ExpectAppend" 60
    (machine
       [On StartStateLabel (IsMessageSend AND IsMessageType MsgApp) (Label "AppendDelivered");
        On (Label "AppendDelivered")
          (IsMessageSend AND IsMessageType MsgAppResp AND IsSenderSameAs "r") SuccessStateLabel])
    [IfThen (IsMessageSend AND IsMessageType MsgApp) record_receiver] NoSetup.

Definition ExpectHeartbeat : TestCase V :=
  MkTestCase "ExpectHeartbeat" 60
    (machine
       [On StartStateLabel (IsStateChange AND IsStateLeader) (Label "LeaderElected");
        On (Label "LeaderElected") (IsMessageSend AND IsMessageType MsgHeartbeat) SuccessStateLabel])
    [] NoSetup.

Definition ExpectLeader : TestCase V :=
  MkTestCase "ExpectLeader" 60
    (machine [On StartStateLabel (IsStateChange AND IsStateLeader AND IsCorrectLeader) SuccessStateLabel])
    [FilterFunc CountVotes] NoSetup.

Definition HeartbeatResponse : TestCase V :=
  MkTestCase "HeartbeatResponse" 60
    (machine
       [On StartStateLabel (IsStateChange AND IsStateLeader) (Label "LeaderElected");
        On (Label "LeaderElected")
          (IsMessageSend AND IsSenderSameAs "r" AND IsMessageType MsgHeartbeatResp) SuccessStateLabel])
    [IfThen (IsMessageSend AND IsMessageType MsgHeartbeat) record_receiver] NoSetup.

Definition VoteResponse : TestCase V :=
  MkTestCase "VoteResponse" 60
    (machine
       [On StartStateLabel (IsMessageSend AND IsMessageType MsgVote) (Label "VoteSent");
        On (Label "VoteSent")
          (IsMessageSend AND IsMessageType MsgVoteResp AND IsSenderSameAs "r") SuccessStateLabel])
    [IfThen (IsMessageSend AND IsMessageType MsgVote) record_receiver] NoSetup.

(** *** cmd/strategies.go *)

Definition GetTest (test : string) : option (TestCase V) * option (StateMachine V) :=
  if decide (test = "Liveness") then (Some LivenessTest, Some LivenessProperty)
  else if decide (test = "LivenessNoCQ") then (Some LivenessNoCQTest, Some LivenessNoCQProperty)
  else if decide (test = "NoLiveness") then (Some NoLivenessTest, Some NoLivenessProperty)
  else if decide (test = "ConfChangeBug") then (ConfChangeBugTest, ConfChangeBugProperty)
  else if decide (test = "DropHeartbeat") then (Some DropHeartbeatTest, Some DropHeartbeatProperty)
  else if decide (test = "DropVotes") then (Some DropVotesTest, Some DropVotesProperty)
  else if decide (test = "DropFVotes") then (Some DropFVotesTest, Some DropFVotesProperty)
  else if decide (test = "DropAppend") then (Some DropAppendTest, Some DropAppendProperty)
  else if decide (test = "ReVote") then (Some ReVoteTest, Some ReVoteProperty)
  else if decide (test = "ManyReVote") then (Some ManyReVoteTest, Some ManyReVoteProperty)
  else if decide (test = "MultiReVote") then (Some MultiReVoteTest, Some MultiReVoteProperty)
  else (None, None).
End Scenarios.

(** ** Measurements (records of cmd/strategies.go)

    Times and durations are nanoseconds; [now] is what the clock shows. *)

Record records := MkRecords {
  rc_duration : gmap Z (list Z);
  rc_curStartTime : Z;
  rc_timeSet : bool;
}.
Section records_update.
Let rebuild (r : records) : records :=
  MkRecords (rc_duration r) (rc_curStartTime r) (rc_timeSet r).
#[global] Instance upd_rc_duration : Update rc_duration := ltac:(update_of rebuild rc_duration).
#[global] Instance upd_rc_curStartTime : Update rc_curStartTime := ltac:(update_of rebuild rc_curStartTime).
#[global] Instance upd_rc_timeSet : Update rc_timeSet := ltac:(update_of rebuild rc_timeSet).
End records_update.

(** [newRecords]; [zero] is the zero value of [time.Time]. *)
Definition newRecords (zero : Z) : records := MkRecords ∅ zero false.

(** [time.Since], which stays in the range of a duration. *)
Definition Since (now t : Z) : Z := Z.max (- two63z) (Z.min (two63z - 1) (now - t)).

Definition setupFunc (now : Z) (r : records) : records :=
  r <| rc_curStartTime := now |> <| rc_timeSet := true |>.

Definition stepFunc `{RoleNames} (now : Z) (pool : string → option TestMessage) (iteration : Z)
    (e : Event) (r : records) : records :=
  match ev_Type e with
  | MessageSendEventType MessageID =>
      match pool MessageID with
      | None => r
      | Some message =>
          match tm_ParsedMessage message with
          | None => r
          | Some rMsg =>
              if bool_decide (m_Type rMsg = MsgVote) && negb (rc_timeSet r)
              then r <| rc_curStartTime := now |> <| rc_timeSet := true |>
              else r
          end
      end
  | GenericEventType T Params =>
      if bool_decide (T = "StateChange") then
        match Params !! "new_state" with
        | None => r
        | Some newState =>
            if bool_decide (newState = StateLeader_String) then
              let dur := Since now (rc_curStartTime r) in
              r <| rc_duration ::= λ d, <[iteration := default [] (d !! iteration) ++ [dur]]> d |>
                <| rc_timeSet := false |>
            else r
        end
      else r
  | _ => r
  end.

(** The nested loops of [finalize]: the sum and the count. *)
Definition tally_durations (durs : list Z) (acc : Z * Z) : Z * Z :=
  foldl (λ '(sum, count) d, (i64 (sum + d), i64 (count + 1))) acc durs.

(** [finalize]: the number of runs, the average time and the elections per run, if
    there was an election. *)
Definition finalize (r : records) : outcome (option (Z * Z * Z)) :=
  let '(sum, count) := map_fold (λ _ durs acc, tally_durations durs acc) (0%Z, 0%Z) (rc_duration r) in
  let iterations := Z.of_nat (size (rc_duration r)) in
  if (count =? 0)%Z then Ok None
  else if (iterations =? 0)%Z then Panic
  else Ok (Some (iterations, Z.quot sum count, Z.quot count iterations)).

(** ** Properties *)

Section Liveness.
Context {V : Type} `{VarSet V} `{!VarSetLaws V} `{!NetrixConditions V} `{!NetrixConditionsLaws V} `{RoleNames}.
Implicit Types (e : Event) (c : Context V).

(** [CountLeaderChanges] on the events of a run. *)
Fixpoint leader_changes_run (es : list Event) c : outcome (Context V) :=
  match es with
  | [] => Ok c
  | e :: es => v ← CountLeaderChanges e c; leader_changes_run es (with_vars c v)
  end.

(** The variable [leader] is only written where it is set already. *)
Lemma CountLeaderChanges_idle e c :
  GetString (c_Vars c) "leader" = None → CountLeaderChanges e c = Ok (c_Vars c).
Proof.
  intros Hl. unfold CountLeaderChanges. destruct (negb _); [done|]. destruct (ev_Type e); try done.
  rewrite Hl. by destruct (_ || _).
Qed.

Lemma leader_changes_idle es c :
  GetString (c_Vars c) "leader" = None → leader_changes_run es c = Ok c.
Proof.
  intros Hl. induction es as [|e es IH]; cbn [leader_changes_run]; [done|].
  rewrite CountLeaderChanges_idle by done. cbn [mbind outcome_bind].
  by replace (with_vars c (c_Vars c)) with c by (by destruct c).
Qed.

(** The machines of the scenarios that wait for a leader with [IsStateChange]. *)
Definition waiting_for_leader : list (StateMachine V) :=
  [tc_StateMachine DropHeartbeatTest; DropHeartbeatProperty; tc_StateMachine DropFVotesTest;
   DropFVotesProperty; tc_StateMachine ExpectHeartbeat; tc_StateMachine ExpectLeader;
   tc_StateMachine HeartbeatResponse].

(** A guard that asks for both is never satisfied. *)
Lemma IsStateChange_leader e c : And IsStateChange IsStateLeader e c = false.
Proof. apply IsStateChange_other. intros T ps. apply IsStateLeader_other. Qed.
End Liveness.

(** C35: The liveness properties cannot fail: [CountLeaderChanges], the only action of
    their machines, counts a leader only where the variable [leader] is set, and
    nothing sets it; after any events of a run that starts without that variable
    and without a counter, the guard of every transition to the failure state is
    false. *)
Theorem liveness_never_fails {V} `{VarSet V} `{!VarSetLaws V} `{!NetrixConditions V}
    `{!NetrixConditionsLaws V} `{RoleNames} (es : list Event) (c : Context V) :
  GetString (c_Vars c) "leader" = None → GetCounter (c_Vars c) "leaderCount" = None →
  leader_changes_run es c = Ok c ∧
  ∀ p t e, p ∈ [LivenessProperty; LivenessNoCQProperty; NoLivenessProperty] →
    t ∈ sm_transitions p → tr_to t = FailStateLabel → tr_cond t e c = false.
Proof.
  intros Hl Hc. split; [by apply leader_changes_idle|]. intros p t e Hp Ht Hf.
  assert (Ht' : t ∈ sm_transitions LivenessProperty).
  { rewrite !elem_of_cons in Hp. destruct Hp as [-> |[-> |[-> |Hp]]]; [done..|by apply elem_of_nil in Hp]. }
  clear Hp Ht. cbn in Ht'. rewrite !elem_of_cons in Ht'.
  destruct Ht' as [-> |[-> |Ht]]; [done| |by apply elem_of_nil in Ht]. cbn.
  destruct (CountGt "leaderCount" 4 e c) eqn:Hg; [|done].
  apply CountGt_spec in Hg as (z & Hz & _). congruence.
Qed.

(** C36: No scenario that waits for a leader with [IsStateChange] ever leaves its start
    state, because [IsStateChange] asks for the event of a new term, and the filter
    of [DropFVotes] never drops a vote. *)
Theorem waiting_never_ends {V} `{VarSet V} `{!VarSetLaws V} `{!NetrixConditions V}
    `{!NetrixConditionsLaws V} `{RoleNames} (e : Event) (c : Context V) :
  (∀ m t, m ∈ waiting_for_leader → t ∈ sm_transitions m → tr_from t = StartStateLabel →
     tr_cond t e c = false) ∧
  (∀ p acts, IfThen p acts ∈ tc_Filters DropFVotesTest → p e c = false).
Proof.
  split.
  - intros m t Hm Ht Hs. unfold waiting_for_leader in Hm. rewrite !elem_of_cons in Hm.
    assert (Hsl : ∀ q, And (And IsStateChange IsStateLeader) q e c = false).
    { intros q. by rewrite And_spec, IsStateChange_leader. }
    repeat (destruct Hm as [-> |Hm]; [cbn in Ht; rewrite !elem_of_cons in Ht;
      repeat (destruct Ht as [-> |Ht]; [cbn in Hs |- *; first [done|apply IsStateChange_leader|apply Hsl]|]);
      by apply elem_of_nil in Ht|]).
    by apply elem_of_nil in Hm.
  - intros p acts [[= -> _]|Hp]%elem_of_cons; [|by apply elem_of_nil in Hp].
    rewrite And_spec. apply andb_false_iff. right.
    destruct (CountFLtF _ _ e c) eqn:Hc; [|done]. apply CountFLtF_spec in Hc.
    unfold votesByTermByReplica in Hc. by destruct (GetMessageFromEvent e c).
Qed.

(** The library's conditions on concrete variables. *)
#[local] Existing Instance ex_vars.
#[local] Existing Instance ex_vars_laws.
#[local] Existing Instance ex_roles.
Definition ex_is_send (e : Event) : bool :=
  match ev_Type e with MessageSendEventType _ => true | _ => false end.
Definition ex_is_receive (e : Event) : bool :=
  match ev_Type e with MessageReceiveEventType _ => true | _ => false end.
Definition ex_on_message {V} (p : TestMessage → bool) : Condition V := λ e c,
  match c_GetMessage c e with Some m => p m | None => false end.
#[local] Instance ex_conditions : NetrixConditions (gmap string stored) := {
  IsEventType t e c := match ev_Type e with GenericEventType T _ => bool_decide (T = t) | _ => false end;
  And p q e c := p e c && q e c;
  Or p q e c := p e c || q e c;
  Not p e c := negb (p e c);
  IsMessageSend e c := ex_is_send e;
  IsMessageReceive e c := ex_is_receive e;
  IsMessageFrom id := ex_on_message (λ m, bool_decide (tm_From m = id));
  IsMessageTo id := ex_on_message (λ m, bool_decide (tm_To m = id));
  IsMessageToF f e c :=
    let '(id, ok, _) := f e c in ok && ex_on_message (λ m, bool_decide (tm_To m = id)) e c;
  IsMessageBetween a b := ex_on_message (λ m,
    bool_decide (tm_From m = a ∧ tm_To m = b) || bool_decide (tm_From m = b ∧ tm_To m = a));
  IsEventOf id e c := bool_decide (ev_Replica e = id);
  IsEventOfF f e c := let '(id, ok, _) := f e c in ok && bool_decide (ev_Replica e = id);
  CountGt k n e c := match GetCounter (c_Vars c) k with Some z => bool_decide (n < z)%Z | None => false end;
  CountFLtF key bound e c :=
    let '(k, ok) := key e c in
    let '(n, _) := bound e c in
    ok && bool_decide (default 0 (GetCounter (c_Vars c) k) < n)%Z;
  InState l e c := true;
}.
#[local] Instance ex_conditions_laws : NetrixConditionsLaws (gmap string stored).
Proof.
  split; cbn.
  - intros t e c. destruct (ev_Type e) as [T ps| | |]; split; try done; try (by intros [? [=]]).
    + intros ->%bool_decide_eq_true_1. by exists ps.
    + intros [ps' [= -> _]]. by apply bool_decide_eq_true_2.
  - done.
  - intros k n e c. destruct (ex_get _ _ k) as [z|]; [|done]. intros Hb%bool_decide_eq_true_1. by exists z.
  - intros key bound e c. destruct (key e c) as [k ok], (bound e c). by intros [? _]%andb_prop.
Qed.

(** A leader that is elected, twice. *)
Definition ex_elected (id : N) : Event := leader_event 3 id.

Lemma liveness_never_fails_witness :
  leader_changes_run [ex_elected 1; ex_elected 2; ex_elected 1] ex_context = Ok ex_context ∧
  CountGt "leaderCount" 4 (ex_elected 2) ex_context = false.
Proof.
  destruct (liveness_never_fails [ex_elected 1; ex_elected 2; ex_elected 1] ex_context) as [Hr Hp].
  - vm_compute. reflexivity.
  - vm_compute. reflexivity.
  - split; [exact Hr|].
    refine (Hp LivenessProperty (MkTransition StartStateLabel (CountGt "leaderCount" 4) None FailStateLabel)
      (ex_elected 2) _ _ eq_refl); [left|right; left].
Defined.

Lemma waiting_never_ends_witness :
  IsStateLeader (ex_elected 1) ex_context = true ∧
  And IsStateChange IsStateLeader (ex_elected 1) ex_context = false.
Proof.
  destruct (waiting_never_ends (ex_elected 1) ex_context) as [Hw _].
  split; [vm_compute; reflexivity|].
  refine (Hw DropFVotesProperty (MkTransition StartStateLabel (And IsStateChange IsStateLeader) None
    SuccessStateLabel) _ _ eq_refl); [do 3 right; left|left].
Defined.

(** The division of [finalize] is never by zero. *)
Lemma finalize_returns (r : records) : ∃ x, finalize r = Ok x.
Proof.
  unfold finalize. destruct (map_fold _ _ _) as [sum count] eqn:Hf.
  destruct (Z.eqb_spec count 0); [by eexists|].
  destruct (Z.eqb_spec (Z.of_nat (size (rc_duration r))) 0) as [Hz|]; [|by eexists]. exfalso.
  assert (Hs : size (rc_duration r) = 0%nat) by lia. apply map_size_empty_inv in Hs.
  rewrite Hs, map_fold_empty in Hf. by injection Hf as _ <-.
Qed.
